(* ===== verification/_CoqProject ===== *)
-Q . S2P
Prelude.v
Memory.v
MapImpl.v
MapImplPow2.v
Map.v
Vector.v
DChainImpl.v
DChain.v
Emap.v
Expirator.v
DoubleMap.v
Packet.v
Resize.v
Nat.v
NatPar.v
Fw.v
Pol.v
PoliFw.v
Hhh.v
Lpm.v
Cht.v
Lb.v
Ether.v
Double.v
HhhInit.v
NfParse.v
Bridge.v
BridgeInit.v
Sketch.v
Cl.v
Fwd.v
MainLoop.v
Batch.v
Locks.v
ParStart.v
DChainLocks.v
DChainTm.v
LibLocks.v
SketchLocks.v
SketchTm.v
Htm.v
Counters.v
Replay.v
Pci.v
Console.v
Config.v
Psd.v
Startup.v
System.v
