(* ===== verification/Prelude.v ===== *)
(** * Vigor in Rocq

    A verification of the C code of Vigor: network functions (a translator of
    addresses, a firewall, a policer, a load balancer, a bridge and others) over
    a library of data structures, libVig, and a packet loop over DPDK.  This
    header describes the whole library; every other file opens with its own.

    ** The program and its parts

    nf.c starts DPDK and its devices, calls [nf_init], and then receives packets,
    hands each to [nf_process] of the network function that was linked in, and
    frees, transmits or floods it.  A network function parses the packet through
    nf-util.h and packet-io.c, which lend out chunks of the packet, and keeps its
    state in objects of libVig: hash maps whose keys live in vectors, chains that
    allocate indexes and expire them by age, double maps, prefix tables, the
    table of consistent hashing, the sketch.  The map, the key vector and the
    chain of a table are separate objects; that they agree is a discipline of
    the callers.

    ** Files

    - Prelude (this file): machine integers, arrays, loops, automation.
    - Memory: [malloc] and [free], with failing answers and the contents of
      fresh memory as parameters.
    - MapImpl, MapImplPow2, Map: map-impl.c, map-impl-pow2.c and map.c.  The two
      table implementations differ in the reduction of indexes, which is a
      parameter with the contract [LoopSpec]; the keys are a type with the
      operations [KeyOps] and the laws [KeyLaws].
    - Vector: vector.c.  DChainImpl and DChain: double-chain-impl.c and
      double-chain.c.  DoubleMap: double-map.c and [expire_items].
    - Emap: the coherence of a map, a key vector and a chain as one table, with
      a lemma for each access of the functions.  Expirator: expirator.c.
    - Lpm: lpm-dir-24-8.c.  Cht: cht.c.  Ether: ether.c.  Sketch: sketch.c.
    - Packet: packet-io.c and the header functions of nf-util.h and nf-util.c.
      Resize: the operations of packet-io.c that move the packet, and vigresize.
    - Nat, Fw, Pol, Lb, Bridge, Hhh, Cl, PoliFw, Psd, Fwd: vignat, vigfw, vigpol,
      viglb, vigbridge, vighhh, vigcl, vigpolifw with vigpoliupfw, vigpsd, and
      vignop with vigfwd.  NatPar: vignat-parallelizable.  BridgeInit: the
      readers of static rules and [nf_init] of vigbridge, and vigbridge-static.
      Double and HhhInit: arithmetic on doubles, and [alloc_state] and [nf_init]
      of vighhh, which compute with them.
    - NfParse, Config: nf-parse.h with the number and address printers of
      nf-util.c, and [nf_config_init] of every function.
    - MainLoop, Batch, Startup: the loop of nf.c for single packets, the loop
      for batches, and [MAIN].  The class [NFContract] states what the loop
      expects of a network function.
    - Locks, Htm: the lock of boilerplate/locks.c and the transactions of
      boilerplate/tm.c around the packet handler, with the cores as interleaved
      steps.  ParStart: [MAIN] of boilerplate/locks.c with the queues and the
      tables that spread the packets over the cores.  DChainLocks, DChainTm,
      LibLocks, SketchLocks, SketchTm: the containers of libvig/unverified for
      several cores (double-chain-locks*.c, double-chain-tm*.c, map-locks.c,
      vector-locks.c, double-map-locks.c, cht-locks.c, cht-tm.c,
      expirator-locks.c, expirator-tm.c, sketch-locks.c, sketch-tm.c).
      Counters: the counting programs of boilerplate/motivation.
    - Replay: boilerplate/call_path_hitter.c, which runs a function over traces.
    - Pci, Console: nfos_pci.c, and nfos_serial.c with nfos_vga.c.
    - System: the functions meet [NFContract]; vigcl as a program.

    ** How the code is modelled

    Definitions keep the names of the source.  A function of C becomes a function
    to [option]; [None] stands for undefined behaviour and failed assertions:
    signed overflow, accesses outside of an array or a buffer, division by zero,
    [assert].  A theorem that a function returns [Some] therefore says that its
    execution is defined.  Unsigned integers wrap explicitly ([u8] to [u64]).
    Arrays are lists; a vector carries its address, so that pointers into it
    can be compared and dereferenced, which is how maps share keys with vectors.
    Structs are records, out-parameters are components of the result, and state
    is passed explicitly.  Allocation functions live in the monad [M] of Memory.

    Code outside of the sources is a parameter with laws: DPDK's checksum and
    mbuf functions ([Checksums], [MbufOps] with [MbufLaws]), the crc32
    instruction ([Crc32], with CRC-32C as its instance), the answers of DPDK, and
    the code that is generated from dataspec.ml at build time (the allocation of
    the state, hashes and comparisons of keys), of which the theorems assume
    [KeyLaws] and an initial state that satisfies the invariant.  For vigcl,
    vigpsd and vighhh, whose state is allocated by code in the repository, and for the
    tables that the bridge fills at its start, the invariant of the initial
    state is proved.  The ports of the PCI bus are a class [PciPorts] with laws;
    the options that getopt_long returns are the input of the configuration
    parsers; [qsort] is a parameter that permutes and sorts.  Doubles are the
    binary64 numbers of SpecFloat.  Code that several cores run is a step relation: a schedule
    interleaves the accesses of the cores to the shared lock, and says when a
    hardware transaction commits or aborts.

    ** What is proved

    For each data structure: it refines an abstract object (a finite map, an LRU
    list of indexes, a table by index with two keys, a longest prefix match under
    stated conditions, rows of preferences) over any sequence of operations;
    allocations either fail without a leak or give the empty object; the two
    hash tables compute the same.  For each network function: the handler is
    defined on every received packet (for the translator, when a packet from
    outside has a port of its range; for the policers, when the rate is not
    zero), refines a contract on abstract tables (the executable specification
    that is stated in its file after spec.py, or, where spec.py says something
    else, after the code), and keeps its invariant; a forwarded packet differs
    from the received one in the fields that the contract names, in the MAC
    addresses and in the checksums only.  And what follows from the contract over
    executions: only solicited traffic passes the firewall; replies are
    translated back, whatever the traffic in between; the policer bounds the
    bytes by the burst and one burst for every burst / rate seconds, rounded
    down, which is the configured rate when it divides the burst; flows stay
    with their backend; heavy hitters are reported; the port scan detector is
    exact in a window; the static bridge follows its rules.

    For the loop, whatever DPDK answers to transmissions: every buffer is freed
    or handed on, and goes back to its pool exactly once except where a flooded
    packet is accepted by some devices and refused by others; a refused
    transmission to one device aborts the program.  For the start: accepted
    configurations are valid, printed addresses parse back, the rules of the
    bridge end up in its tables, and the program exits exactly if something that
    the code tests has failed.

    For several cores: the lock excludes writers from everything else and the
    cores go on, in executions in which no packet is handled before all workers
    have started, because each worker initialises the lock again; every such run
    with the lock, or with transactions on numbered cores, has the result of
    running the handlers one after another; the index
    allocator of the cores is one pool in which an index expires only when it is
    old for all of them; a handler in read mode that raised no flag has done what
    it would have done in write mode; the cores of the sketch are independent;
    after the start every entry of the tables that spread packets names the queue
    of exactly one core; the protected counting programs count every packet, and
    the unprotected one need not.  The threshold of the heavy hitter detector is
    the configured rate up to rounding.  A trace is replayed in the order of its
    times.
    For the programs without an operating system: the enumeration finds exactly
    the known cards and restores what it overwrites, and the consoles show what
    is written to them.

    Some theorems state defects of the code exactly, such as when the batched
    loop frees the wrong buffers, that a connection refused by vigcl passes with
    its second packet, when the expiration of several cores does not return,
    that a worker that starts late breaks the lock, that cores without a number
    lose updates, and that a second trace to replay is stored out of bounds.

    ** Fuel and bounds

    Loops run through [for_u32], [for_each] and [iterate], which give [None] when
    their fuel runs out; the rules [for_u32_rule], [for_each_rule] and
    [iterate_rule] are rules of total correctness, so every theorem that a
    function returns also says that its loops end within their fuel.  A counted
    loop has one unit of fuel per iteration; loops that expire entries have one
    per index of the chain.  Where only the end of a loop is at stake, [leaves]
    says after how many iterations a loop is left and with what, undefined
    behaviour apart from running out of fuel; [measure_leaves] gives it from a
    measure.  The loops of expirator-locks.c and
    expirator-tm.c take their fuel as an argument, because they need not end.
    Bounds on capacities are those of the contracts of libVig (vectors of at most
    140000 elements of less than 4096 bytes, chains of at most 2^20 indexes, maps
    of less than 2^30).

    ** Not modelled

    The usage texts, the printing of configurations and the dump of packets to
    the log, and the reading of the clock, are input and output around library
    calls; the VeriFast annotations and the symbolic models of libVig belong to
    other verifiers; what is left of NFOS is boot code and single instructions;
    the OCaml tools and the programs they generate are not part of the functions,
    and the programs under synthesized repeat nf.c and nf-util.h around generated
    handlers; synapse-runtime is a layer over an external library.  vigpolinat and
    vigpoliupnat do not compile. *)
From stdpp Require Import base list gmap numbers.
From Stdlib Require Import ZArith Lia.
#[global] Open Scope Z_scope.

(** ** Machine integers

    A C integer of width [w] is a [Z].  Unsigned arithmetic wraps, so every
    unsigned operation of the source is followed by one of the conversions
    below; signed overflow is undefined in C, so a signed operation of the
    source is checked and gives [None] outside of its range. *)

Definition u8 (x : Z) : Z := x mod 2 ^ 8.

Definition u16 (x : Z) : Z := x mod 2 ^ 16.

Definition u32 (x : Z) : Z := x mod 2 ^ 32.

Definition u64 (x : Z) : Z := x mod 2 ^ 64.

(** Conversion of an integer to the signed type of width [w] (two's complement). *)
Definition sgn (w x : Z) : Z :=
  let y := x mod 2 ^ w in if y <? 2 ^ (w - 1) then y else y - 2 ^ w.

Definition s32 (x : Z) : Z := sgn 32 x.

Definition s64 (x : Z) : Z := sgn 64 x.

Definition INT_MAX : Z := 2 ^ 31 - 1.

Definition INT_MIN : Z := - 2 ^ 31.

(** A signed [int] (resp. [int64_t]) result: undefined behaviour is [None]. *)
Definition int_chk (x : Z) : option Z :=
  if (INT_MIN <=? x) && (x <=? INT_MAX) then Some x else None.

Definition int64_chk (x : Z) : option Z :=
  if (- 2 ^ 63 <=? x) && (x <=? 2 ^ 63 - 1) then Some x else None.

(** A C [assert]: a false condition aborts, which is [None] here. *)
Definition c_assert (b : bool) : option unit := if b then Some tt else None.

(** ** Arrays

    A C array is a list; reading or writing out of bounds is undefined
    behaviour, which is [None]. *)

Definition rd {A} (a : list A) (i : Z) : option A :=
  if 0 <=? i then a !! Z.to_nat i else None.

Definition wr {A} (a : list A) (i : Z) (x : A) : option (list A) :=
  if (0 <=? i) && (i <? Z.of_nat (length a))
  then Some (<[Z.to_nat i := x]> a) else None.

Definition zlen {A} (a : list A) : Z := Z.of_nat (length a).

(** ** Counted loops

    [for (i = lo; i < hi; ++i) body]: the body either goes on with a new state
    or leaves the enclosing function with a value.  The loop counter is an
    unsigned 32-bit integer.  Running out of fuel gives [None]; [for_u32]
    starts with one unit of fuel per iteration and one for the last test. *)

Inductive outcome (S R : Type) : Type :=
| Continue (s : S)
| Return (r : R).
Arguments Continue {S R} s.
Arguments Return {S R} r.

Fixpoint for_loop {S R} (fuel : nat) (i hi : Z)
    (body : Z → S → option (outcome S R)) (s : S) : option (outcome S R) :=
  match fuel with
  | O => None
  | Datatypes.S fuel' =>
      if i <? hi then
        o ← body i s;
        match o with
        | Continue s' => for_loop fuel' (u32 (i + 1)) hi body s'
        | Return r => Some (Return r)
        end
      else Some (Continue s)
  end.

Definition for_u32 {S R} (lo hi : Z)
    (body : Z → S → option (outcome S R)) (s : S) : option (outcome S R) :=
  for_loop (Datatypes.S (Z.to_nat (hi - lo))) lo hi body s.

(** A counted loop whose body does not leave the function. *)
Definition for_each {S} (lo hi : Z) (body : Z → S → option S) (s : S) : option S :=
  o ← for_u32 (R := Empty_set) lo hi (λ i s, s' ← body i s; Some (Continue s')) s;
  match o with
  | Continue s' => Some s'
  | Return r => match (r : Empty_set) with end
  end.

(** A loop whose test is part of the step: the step either goes on with a new
    state or leaves the loop with a result. *)
Fixpoint iterate {S R} (fuel : nat) (step : S → option (outcome S R)) (s : S) : option R :=
  match fuel with
  | O => None
  | Datatypes.S fuel' =>
      o ← step s;
      match o with
      | Continue s' => iterate fuel' step s'
      | Return r => Some r
      end
  end.

(** ** Counting over an index range *)

Fixpoint ncount (P : Z → bool) (n : nat) : Z :=
  match n with
  | O => 0
  | Datatypes.S n' => ncount P n' + Z.b2z (P (Z.of_nat n'))
  end.

(** The number of [i] with [0 <= i < n] and [P i]. *)
Definition zcount (P : Z → bool) (n : Z) : Z := ncount P (Z.to_nat n).

(** ** Automation *)

Create HintDb vigor.

Ltac bool_case :=
  repeat match goal with
  | H : context [ (?a <? ?b)%Z ] |- _ => destruct (Z.ltb_spec a b)
  | H : context [ (?a <=? ?b)%Z ] |- _ => destruct (Z.leb_spec a b)
  | |- context [ (?a <? ?b)%Z ] => destruct (Z.ltb_spec a b)
  | |- context [ (?a <=? ?b)%Z ] => destruct (Z.leb_spec a b)
  end; simpl in *.

(** Turns boolean comparisons of the context into arithmetic facts. *)
Ltac zbool :=
  repeat match goal with
  | H : (_ =? _)%Z = true |- _ => apply Z.eqb_eq in H
  | H : (_ =? _)%Z = false |- _ => apply Z.eqb_neq in H
  | H : (_ <? _)%Z = true |- _ => apply Z.ltb_lt in H
  | H : (_ <? _)%Z = false |- _ => apply Z.ltb_ge in H
  | H : (_ <=? _)%Z = true |- _ => apply Z.leb_le in H
  | H : (_ <=? _)%Z = false |- _ => apply Z.leb_gt in H
  | H : (_ && _) = true |- _ => apply andb_true_iff in H as [? ?]
  | H : negb _ = true |- _ => apply negb_true_iff in H
  | H : negb _ = false |- _ => apply negb_false_iff in H
  end.

(** Decomposes a computation of the option monad that is known to succeed. *)
Ltac opt_inv :=
  repeat match goal with
  | H : mbind _ ?e = Some _ |- _ =>
      let E := fresh "E" in destruct e eqn:E; simpl in H; [|discriminate H]
  | H : Some _ = Some _ |- _ => injection H as H
  | H : None = Some _ |- _ => discriminate H
  | H : Some _ = None |- _ => discriminate H
  end; subst.

(** Runs the next step of a computation whose value is a hypothesis. *)
Ltac ostep :=
  match goal with
  | H : ?c = Some _ |- context [ mbind _ ?c ] => rewrite H; cbn [mbind option_bind]
  end.

Ltac osteps := cbn [mbind option_bind]; repeat ostep.

(** ** Lemmas on machine integers *)

Lemma u32_small x : 0 ≤ x < 2 ^ 32 → u32 x = x.
Proof. intros. by apply Z.mod_small. Qed.

Lemma u32_range x : 0 ≤ u32 x < 2 ^ 32.
Proof. by apply Z.mod_pos_bound. Qed.

Lemma u8_small x : 0 ≤ x < 2 ^ 8 → u8 x = x.
Proof. intros. by apply Z.mod_small. Qed.

Lemma u8_range x : 0 ≤ u8 x < 2 ^ 8.
Proof. by apply Z.mod_pos_bound. Qed.

Lemma u64_small x : 0 ≤ x < 2 ^ 64 → u64 x = x.
Proof. intros. by apply Z.mod_small. Qed.

Lemma u64_range x : 0 ≤ u64 x < 2 ^ 64.
Proof. by apply Z.mod_pos_bound. Qed.

Lemma u16_small x : 0 ≤ x < 2 ^ 16 → u16 x = x.
Proof. intros. by apply Z.mod_small. Qed.

Lemma u16_range x : 0 ≤ u16 x < 2 ^ 16.
Proof. by apply Z.mod_pos_bound. Qed.

Lemma s32_small x : INT_MIN ≤ x ≤ INT_MAX → s32 x = x.
Proof.
  unfold s32, sgn, INT_MIN, INT_MAX. intros.
  destruct (Z.ltb_spec (x mod 2 ^ 32) (2 ^ (32 - 1)));
    Z.div_mod_to_equations; lia.
Qed.

Lemma s64_small x : - 2 ^ 63 ≤ x < 2 ^ 63 → s64 x = x.
Proof.
  unfold s64, sgn. intros.
  destruct (Z.ltb_spec (x mod 2 ^ 64) (2 ^ (64 - 1)));
    Z.div_mod_to_equations; lia.
Qed.

Lemma s64_u64 x : - 2 ^ 63 ≤ x < 2 ^ 63 → s64 (u64 x) = x.
Proof.
  unfold s64, u64, sgn. intros. rewrite Z.mod_mod by lia.
  destruct (Z.ltb_spec (x mod 2 ^ 64) (2 ^ (64 - 1))); Z.div_mod_to_equations; lia.
Qed.

Lemma u64_sub a b : u64 (u64 a - u64 b) = u64 (a - b).
Proof. unfold u64. by rewrite <- Zminus_mod. Qed.

(** The last instant that has expired: the functions compute it in 64-bit
    unsigned arithmetic and convert it back. *)
Lemma last_time_exact now us :
  0 ≤ now < 2 ^ 63 → 0 ≤ us < 2 ^ 63 → s64 (u64 (u64 now - u64 us)) = now - us.
Proof. intros. rewrite u64_sub. apply s64_u64. lia. Qed.

Lemma int_chk_small x : INT_MIN ≤ x ≤ INT_MAX → int_chk x = Some x.
Proof.
  unfold int_chk. intros. destruct (Z.leb_spec INT_MIN x), (Z.leb_spec x INT_MAX);
    simpl; lia || done.
Qed.

Lemma int64_chk_small x : - 2 ^ 63 ≤ x < 2 ^ 63 → int64_chk x = Some x.
Proof.
  unfold int64_chk. intros.
  destruct (Z.leb_spec (- 2 ^ 63) x), (Z.leb_spec x (2 ^ 63 - 1)); simpl; lia || done.
Qed.

Lemma lor_shiftl_add a b n :
  0 ≤ n → 0 ≤ b < 2 ^ n → Z.lor (Z.shiftl a n) b = 2 ^ n * a + b.
Proof.
  intros Hn Hb.
  assert (Z.land (Z.shiftl a n) b = 0) as Hl.
  { assert (Z.land b (Z.ones n) = b) as Hb'.
    { rewrite Z.land_ones by done. by apply Z.mod_small. }
    rewrite <- Hb', (Z.land_comm b), Z.land_assoc, Z.land_ones, Z.shiftl_mul_pow2 by done.
    rewrite Z.mod_mul by (pose proof (Z.pow_pos_nonneg 2 n); lia). done. }
  pose proof (Z.add_lor_land (Z.shiftl a n) b) as Ha. rewrite Hl, Z.shiftl_mul_pow2 in * by done.
  lia.
Qed.

(** ** Lemmas on arrays *)

Section arrays.
Context {A : Type}.
Implicit Types (a : list A) (i j : Z) (x : A).

Lemma rd_lookup a i : 0 ≤ i → rd a i = a !! Z.to_nat i.
Proof. unfold rd. intros. destruct (Z.leb_spec 0 i); [done|lia]. Qed.

Lemma rd_Some_range a i x : rd a i = Some x → 0 ≤ i < zlen a.
Proof.
  unfold rd, zlen. destruct (Z.leb_spec 0 i); [|done].
  intros H1%lookup_lt_Some. lia.
Qed.

Lemma rd_Some a i : 0 ≤ i < zlen a → ∃ x, rd a i = Some x.
Proof.
  unfold zlen. intros. rewrite rd_lookup by lia.
  apply lookup_lt_is_Some. lia.
Qed.

Lemma rd_None a i : ¬ (0 ≤ i < zlen a) → rd a i = None.
Proof.
  intros. destruct (rd a i) eqn:E; [|done]. apply rd_Some_range in E. lia.
Qed.

Lemma wr_Some a i x : 0 ≤ i < zlen a → wr a i x = Some (<[Z.to_nat i := x]> a).
Proof.
  unfold wr, zlen. intros. destruct (Z.leb_spec 0 i), (Z.ltb_spec i (Z.of_nat (length a)));
    simpl; lia || done.
Qed.

Lemma wr_range a i x a' : wr a i x = Some a' → 0 ≤ i < zlen a.
Proof.
  unfold wr, zlen. destruct (Z.leb_spec 0 i), (Z.ltb_spec i (Z.of_nat (length a)));
    simpl; done || lia.
Qed.

Lemma wr_inv a i x a' : wr a i x = Some a' → a' = <[Z.to_nat i := x]> a.
Proof.
  intros H. pose proof (wr_range _ _ _ _ H). rewrite wr_Some in H by done. congruence.
Qed.

Lemma zlen_insert a (n : nat) x : zlen (<[n := x]> a) = zlen a.
Proof. unfold zlen. by rewrite length_insert. Qed.

Lemma zlen_wr a i x a' : wr a i x = Some a' → zlen a' = zlen a.
Proof. intros ->%wr_inv. apply zlen_insert. Qed.

Lemma rd_insert_eq a i x : 0 ≤ i < zlen a → rd (<[Z.to_nat i := x]> a) i = Some x.
Proof.
  unfold zlen. intros. rewrite rd_lookup by lia. apply list_lookup_insert_eq. lia.
Qed.

Lemma rd_insert_ne a i j x : 0 ≤ i → i ≠ j → rd (<[Z.to_nat i := x]> a) j = rd a j.
Proof.
  intros. unfold rd. destruct (Z.leb_spec 0 j); [|done].
  apply list_lookup_insert_ne. lia.
Qed.

Lemma rd_insert a i j x :
  0 ≤ i < zlen a → rd (<[Z.to_nat i := x]> a) j = if i =? j then Some x else rd a j.
Proof.
  intros. destruct (Z.eqb_spec i j) as [<-|].
  - by apply rd_insert_eq.
  - apply rd_insert_ne; lia.
Qed.

Lemma rd_wr_eq a i x a' : wr a i x = Some a' → rd a' i = Some x.
Proof.
  intros H. rewrite (wr_inv _ _ _ _ H). apply rd_insert_eq. by eapply wr_range.
Qed.

Lemma rd_wr_ne a i j x a' : wr a i x = Some a' → i ≠ j → rd a' j = rd a j.
Proof.
  intros H ?. rewrite (wr_inv _ _ _ _ H). apply wr_range in H.
  apply rd_insert_ne; lia.
Qed.

Lemma rd_ext a a' : zlen a = zlen a' → (∀ i, rd a i = rd a' i) → a = a'.
Proof.
  intros _ H. apply list_eq. intros n. specialize (H (Z.of_nat n)).
  rewrite !rd_lookup, !Nat2Z.id in H by lia. done.
Qed.

Lemma rd_app_l (a b : list A) i : i < zlen a → rd (a ++ b) i = rd a i.
Proof.
  unfold zlen. intros. unfold rd. destruct (Z.leb_spec 0 i); [|done].
  apply lookup_app_l. lia.
Qed.

Lemma rd_app_r (a b : list A) i : zlen a ≤ i → rd (a ++ b) i = rd b (i - zlen a).
Proof.
  unfold zlen. intros. rewrite !rd_lookup by lia. rewrite lookup_app_r by lia.
  f_equal. lia.
Qed.

Lemma zlen_replicate (n : nat) x : zlen (replicate n x) = Z.of_nat n.
Proof. unfold zlen. by rewrite length_replicate. Qed.

End arrays.

(** ** Lemmas on lists *)

Lemma filter_all {A} (P : A → Prop) `{∀ x, Decision (P x)} (l : list A) :
  (∀ x, x ∈ l → P x) → filter P l = l.
Proof.
  induction l as [|a l IH]; intros Hl; [done|].
  rewrite filter_cons_True by (apply Hl; by left). f_equal. apply IH.
  intros x Hx. apply Hl. by right.
Qed.

Lemma filter_none {A} (P : A → Prop) `{∀ x, Decision (P x)} (l : list A) :
  (∀ x, x ∈ l → ¬ P x) → filter P l = [].
Proof.
  induction l as [|a l IH]; intros Hl; [done|].
  rewrite filter_cons_False by (apply Hl; by left). apply IH.
  intros x Hx. apply Hl. by right.
Qed.

Lemma length_filter_split {A} (P Q : A → Prop) `{∀ x, Decision (P x), ∀ x, Decision (Q x)}
    (l : list A) :
  (∀ x, Q x ↔ ¬ P x) →
  Z.of_nat (length l) - Z.of_nat (length (filter P l)) = Z.of_nat (length (filter Q l)).
Proof.
  intros HPQ. induction l as [|a l IH]; [done|]. destruct (decide (P a)) as [Ha|Ha].
  - rewrite filter_cons_True, filter_cons_False by (done || rewrite HPQ; tauto).
    simpl length. lia.
  - rewrite filter_cons_False, (filter_cons_True Q) by (done || rewrite HPQ; tauto).
    simpl length. lia.
Qed.

Lemma filter_fmap {A B} (f : A → B) (P : B → Prop) `{∀ x, Decision (P x)} (l : list A) :
  filter P (f <$> l) = f <$> filter (λ x, P (f x)) l.
Proof.
  induction l as [|a l IH]; [done|]. rewrite fmap_cons.
  destruct (decide (P (f a))).
  - rewrite !filter_cons_True by done. by rewrite fmap_cons, IH.
  - by rewrite !filter_cons_False, IH by done.
Qed.

(** ** The total-correctness rule for counted loops

    An invariant that holds on entry and that every iteration keeps (or leaves
    through a return that satisfies [Q]) holds on exit; in particular the loop
    does exit, and no iteration is stuck. *)

Lemma for_u32_rule {S R} (I : Z → S → Prop) (Q : R → Prop) lo hi
    (body : Z → S → option (outcome S R)) s :
  0 ≤ lo ≤ hi → hi < 2 ^ 32 →
  I lo s →
  (∀ i s, lo ≤ i < hi → I i s →
     ∃ o, body i s = Some o ∧
       match o with Continue s' => I (i + 1) s' | Return r => Q r end) →
  ∃ o, for_u32 lo hi body s = Some o ∧
    match o with Continue s' => I hi s' | Return r => Q r end.
Proof.
  intros Hlo Hhi HI Hbody. unfold for_u32.
  remember (Z.to_nat (hi - lo)) as n eqn:Hn.
  revert lo s Hlo HI Hbody Hn.
  induction n as [|n IH]; intros lo s Hlo HI Hbody Hn.
  - assert (lo = hi) as -> by lia. cbn [for_loop]. rewrite Z.ltb_irrefl. eauto.
  - cbn [for_loop]. destruct (Z.ltb_spec lo hi); [|lia].
    destruct (Hbody lo s) as (o & -> & Ho); [lia|done|]. cbn [mbind option_bind].
    destruct o as [s'|r]; [|by eauto].
    rewrite u32_small by lia.
    apply IH; [lia|done| |lia]. intros. apply Hbody; [lia|done].
Qed.

Lemma for_each_rule {S} (I : Z → S → Prop) lo hi (body : Z → S → option S) s :
  0 ≤ lo ≤ hi → hi < 2 ^ 32 → I lo s →
  (∀ i s, lo ≤ i < hi → I i s → ∃ s', body i s = Some s' ∧ I (i + 1) s') →
  ∃ s', for_each lo hi body s = Some s' ∧ I hi s'.
Proof.
  intros Hlo Hhi HI Hbody. unfold for_each.
  destruct (for_u32_rule (R := Empty_set) I (λ _, False) lo hi
    (λ i s, s' ← body i s; Some (Continue s')) s) as (o & -> & Ho); [done..| |].
  - intros i s0 Hi HI0. destruct (Hbody i s0 Hi HI0) as (s' & -> & HI').
    cbn [mbind option_bind]. eauto.
  - destruct o as [s'|[]]. cbn [mbind option_bind]. eauto.
Qed.

(** The total-correctness rule for [iterate]: every step that goes on decreases
    a measure that is below the fuel. *)
Lemma iterate_rule {S R} (I : S → Prop) (Q : R → Prop) (measure : S → nat)
    (step : S → option (outcome S R)) fuel s :
  (∀ s, I s → ∃ o, step s = Some o ∧
     match o with
     | Continue s' => I s' ∧ (measure s' < measure s)%nat
     | Return r => Q r
     end) →
  I s → (measure s < fuel)%nat →
  ∃ r, iterate fuel step s = Some r ∧ Q r.
Proof.
  intros Hstep. revert s. induction fuel as [|fuel IH]; intros s HI Hm; [lia|].
  cbn [iterate]. destruct (Hstep s HI) as (o & -> & Ho). cbn [mbind option_bind].
  destruct o as [s'|r]; [|by eauto]. destruct Ho. apply IH; [done|lia].
Qed.

(** The loop is left in the [n]-th iteration, which returns ([Some]) or has undefined behaviour or
    fails an assertion ([None]).  A loop that goes on for ever is never left. *)
Inductive leaves {S R} (step : S → option (outcome S R)) : S → nat → option R → Prop :=
| leaves_return s r : step s = Some (Return r) → leaves step s 1 (Some r)
| leaves_undefined s : step s = None → leaves step s 1 None
| leaves_continue s s' n o :
    step s = Some (Continue s') → leaves step s' n o → leaves step s (Datatypes.S n) o.

(** Fuel for the iterations until the loop is left gives what it is left with. *)
Lemma leaves_iterate {S R} (step : S → option (outcome S R)) s n o fuel :
  leaves step s n o → (n ≤ fuel)%nat → iterate fuel step s = o.
Proof.
  intros Hl. revert fuel. induction Hl as [s r Hs|s Hs|s s' n o Hs _ IH]; intros [|fuel] Hf; try lia;
    cbn [iterate]; rewrite Hs; cbn [mbind option_bind]; try done. apply IH. lia.
Qed.

(** A loop in which each iteration that goes on lowers a measure is left. *)
Lemma measure_leaves {S R} (measure : S → nat) (step : S → option (outcome S R)) s :
  (∀ s s', step s = Some (Continue s') → (measure s' < measure s)%nat) →
  ∃ n o, leaves step s n o ∧ (n ≤ Datatypes.S (measure s))%nat.
Proof.
  intros Hstep. remember (measure s) as k eqn:Hk. revert s Hk.
  induction k as [k IH] using lt_wf_ind. intros s ->.
  destruct (step s) as [[s'|r]|] eqn:E.
  - destruct (IH (measure s') (Hstep _ _ E) s' eq_refl) as (n & o & Hl & Hn).
    exists (Datatypes.S n), o. split; [by eapply leaves_continue|]. pose proof (Hstep _ _ E). lia.
  - exists 1%nat, (Some r). split; [by apply leaves_return|lia].
  - exists 1%nat, None. split; [by apply leaves_undefined|lia].
Qed.

(** Loops with bodies that agree everywhere are equal. *)
Lemma for_u32_ext {S R} lo hi (b1 b2 : Z → S → option (outcome S R)) s :
  (∀ i s, b1 i s = b2 i s) → for_u32 lo hi b1 s = for_u32 lo hi b2 s.
Proof.
  intros Hb. unfold for_u32. generalize (Datatypes.S (Z.to_nat (hi - lo))). intros fuel.
  revert lo s. induction fuel as [|fuel IH]; intros lo s; cbn [for_loop]; [done|].
  destruct (lo <? hi); [|done]. rewrite Hb.
  destruct (b2 lo s) as [[s'|r]|]; cbn [mbind option_bind]; auto.
Qed.

(** Row-major indexes. *)
Lemma row_index_inj w i j i' j' :
  0 ≤ j < w → 0 ≤ j' < w → i * w + j = i' * w + j' → i = i' ∧ j = j'.
Proof. intros. assert (i = i') by nia. split; [done|nia]. Qed.

Lemma row_index_range w n i j : 0 ≤ j < w → 0 ≤ i < n → 0 ≤ i * w + j < n * w.
Proof. intros. nia. Qed.

(** ** Lemmas on counting *)

Lemma ncount_range P n : 0 ≤ ncount P n ≤ Z.of_nat n.
Proof.
  induction n; simpl ncount; [lia|]. destruct (P (Z.of_nat n)); simpl Z.b2z; lia.
Qed.

Lemma zcount_range P n : 0 ≤ n → 0 ≤ zcount P n ≤ n.
Proof. intros. pose proof (ncount_range P (Z.to_nat n)). unfold zcount. lia. Qed.

Lemma ncount_ext P Q n :
  (∀ i, 0 ≤ i < Z.of_nat n → P i = Q i) → ncount P n = ncount Q n.
Proof.
  induction n; intros H; simpl ncount; [done|].
  rewrite IHn by (intros; apply H; lia). rewrite H by lia. done.
Qed.

Lemma zcount_ext P Q n : (∀ i, 0 ≤ i < n → P i = Q i) → zcount P n = zcount Q n.
Proof. intros H. apply ncount_ext. intros. apply H. lia. Qed.

Lemma ncount_update P Q k n :
  0 ≤ k < Z.of_nat n → (∀ i, 0 ≤ i < Z.of_nat n → i ≠ k → P i = Q i) →
  ncount Q n = ncount P n - Z.b2z (P k) + Z.b2z (Q k).
Proof.
  induction n; intros Hk H; simpl ncount; [lia|].
  destruct (Z.eq_dec k (Z.of_nat n)) as [->|].
  - rewrite (ncount_ext Q P) by (intros; symmetry; apply H; lia). lia.
  - rewrite IHn by (try lia; intros; apply H; lia).
    rewrite (H (Z.of_nat n)) by lia. lia.
Qed.

(** Changing a predicate at a single index changes the count accordingly. *)
Lemma zcount_update P Q k n :
  0 ≤ k < n → (∀ i, 0 ≤ i < n → i ≠ k → P i = Q i) →
  zcount Q n = zcount P n - Z.b2z (P k) + Z.b2z (Q k).
Proof. intros. apply ncount_update; [lia|]. intros. auto with lia. Qed.

Lemma zcount_zero P n : (∀ i, 0 ≤ i < n → P i = false) → zcount P n = 0.
Proof.
  intros H. rewrite (zcount_ext P (λ _, false)) by done. unfold zcount.
  induction (Z.to_nat n); simpl; lia.
Qed.

Lemma ncount_full P n :
  ncount P n = Z.of_nat n → ∀ i, 0 ≤ i < Z.of_nat n → P i = true.
Proof.
  induction n; simpl ncount; [lia|]. intros H i Hi.
  pose proof (ncount_range P n).
  destruct (P (Z.of_nat n)) eqn:E; simpl Z.b2z in H; [|lia].
  destruct (Z.eq_dec i (Z.of_nat n)) as [->|]; [done|]. apply IHn; lia.
Qed.

(** A count below the size of the range leaves an index that is not counted. *)
Lemma zcount_lt_ex P n : 0 ≤ n → zcount P n < n → ∃ i, 0 ≤ i < n ∧ P i = false.
Proof.
  intros Hn H. unfold zcount in H.
  assert (ncount P (Z.to_nat n) < Z.of_nat (Z.to_nat n)) as H' by lia.
  assert (∃ i, 0 ≤ i < Z.of_nat (Z.to_nat n) ∧ P i = false) as (i & ? & ?).
  { clear H Hn. induction (Z.to_nat n) as [|m IH]; simpl ncount in H'; [lia|].
    destruct (P (Z.of_nat m)) eqn:E; simpl Z.b2z in H'.
    - destruct IH as (i & ? & ?); [lia|]. exists i. split; [lia|done].
    - exists (Z.of_nat m). split; [lia|done]. }
  exists i. split; [lia|done].
Qed.

Lemma ncount_pos P n i : 0 ≤ i < Z.of_nat n → P i = true → 0 < ncount P n.
Proof.
  intros Hi HP. set (Q := λ j, if j =? i then false else P j).
  pose proof (ncount_range Q n).
  pose proof (ncount_update P Q i n Hi) as H'. subst Q. cbn beta in *.
  rewrite Z.eqb_refl, HP in H'. simpl Z.b2z in H'.
  rewrite H' in *; [lia|]. intros j ? Hj. by apply Z.eqb_neq in Hj as ->.
Qed.

Lemma zcount_pos P n i : 0 ≤ i < n → P i = true → 0 < zcount P n.
Proof. intros. apply (ncount_pos P _ i); [lia|done]. Qed.

(** Steps through two computations that make the same calls; [tac] normalises
    the arguments of the calls. *)
Ltac same_calls_with tac :=
  unfold mbind, option_bind; cbn zeta;
  repeat match goal with
  | |- ?x = ?x => reflexivity
  | |- context [match ?c with _ => _ end] =>
      lazymatch c with
      | context [match _ with _ => _ end] => fail
      | _ => destruct c; cbn [fmap option_fmap option_map]; tac
      end
  end.

Ltac same_calls := same_calls_with idtac.

#[export] Hint Resolve u8_range u16_range u32_range u64_range : vigor.
