(* ===== verification/Memory.v ===== *)
(** * The C allocator

    [malloc] and [free] as the allocation functions of libVig use them.  The
    allocator is a state: the live blocks, the answers it will give (an
    exhausted or refusing allocator returns [NULL]), the next free address and
    the contents of fresh memory, which C leaves indeterminate and which is
    therefore an arbitrary function of the address. *)
From stdpp Require Import base list numbers.
From Stdlib Require Import ZArith Lia.
From S2P Require Import Prelude.

Definition NULL : Z := 0.

Record mem := Mem {
  live : list Z;
  answers : list bool;
  brk : Z;
  junk : Z → Z
}.

(** A computation that uses the allocator; [None] is undefined behaviour. *)
Definition M (A : Type) : Type := mem → option (A * mem).

#[export] Instance M_ret : MRet M := λ A x μ, Some (x, μ).

#[export] Instance M_bind : MBind M := λ A B f c μ,
  match c μ with
  | Some (x, μ') => f x μ'
  | None => None
  end.

Definition malloc (size : Z) : M Z := λ μ,
  match answers μ with
  | true :: rest =>
      Some (brk μ, Mem (brk μ :: live μ) rest (brk μ + Z.max 1 size) (junk μ))
  | _ :: rest => Some (NULL, Mem (live μ) rest (brk μ) (junk μ))
  | [] => Some (NULL, μ)
  end.

(** [free] of a block that is not live is undefined. *)
Fixpoint remove_block (p : Z) (l : list Z) : option (list Z) :=
  match l with
  | [] => None
  | q :: l' => if q =? p then Some l' else cons q <$> remove_block p l'
  end.

Definition free (p : Z) : M unit := λ μ,
  match remove_block p (live μ) with
  | Some l => Some (tt, Mem l (answers μ) (brk μ) (junk μ))
  | None => None
  end.

(** A value computed without the allocator. *)
Definition lift {A} (o : option A) : M A := λ μ,
  match o with Some x => Some (x, μ) | None => None end.

(** The contents of an uninitialised array of [n] elements of [w] bytes at [a]. *)
Definition junk_array (w a n : Z) : M (list Z) := λ μ,
  Some ((λ i, junk μ (a + w * i)) <$> seqZ 0 n, μ).

(** A well-formed allocator never hands out the null address. *)
Definition mem_ok (μ : mem) : Prop := 0 < brk μ.

Lemma zlen_fmap_seqZ {A} (f : Z → A) n : 0 ≤ n → zlen (f <$> seqZ 0 n) = n.
Proof. intros. unfold zlen. rewrite length_fmap, length_seqZ. lia. Qed.

Lemma rd_fmap_seqZ {A} (f : Z → A) n i :
  0 ≤ i < n → rd (f <$> seqZ 0 n) i = Some (f i).
Proof.
  intros. rewrite rd_lookup, list_lookup_fmap by lia.
  assert (seqZ 0 n !! Z.to_nat i = Some i) as ->; [|done].
  apply lookup_seqZ. lia.
Qed.

(** One [malloc]: either it fails and changes only the pending answers, or it
    returns a fresh non-null live block. *)
Lemma malloc_cases size μ :
  mem_ok μ →
  (∃ μ', malloc size μ = Some (NULL, μ') ∧ live μ' = live μ ∧ mem_ok μ') ∨
  (∃ p μ', malloc size μ = Some (p, μ') ∧ p ≠ NULL ∧ live μ' = p :: live μ ∧ mem_ok μ' ∧
     brk μ ≤ p ∧ p + size ≤ brk μ').
Proof.
  intros Hok. unfold malloc, mem_ok, NULL in *. destruct (answers μ) as [|[] rest] eqn:E.
  - left. eauto.
  - right. eexists _, _. split; [done|]. simpl. split_and!; (lia || done).
  - left. eexists. split; [done|]. simpl. auto.
Qed.

Lemma free_head p μ l :
  live μ = p :: l → free p μ = Some (tt, Mem l (answers μ) (brk μ) (junk μ)).
Proof. intros Hl. unfold free. rewrite Hl. simpl. by rewrite Z.eqb_refl. Qed.

(** Freeing a live block. *)
Lemma free_live p μ l :
  live μ ≡ₚ p :: l → ∃ l', free p μ = Some (tt, Mem l' (answers μ) (brk μ) (junk μ)) ∧ l' ≡ₚ l.
Proof.
  intros Hp. unfold free.
  assert (∃ l', remove_block p (live μ) = Some l' ∧ live μ ≡ₚ p :: l') as (l' & -> & Hl').
  { assert (p ∈ live μ) as Hin by (rewrite Hp; by left). clear Hp.
    induction (live μ) as [|q bs IH]; [by apply elem_of_nil in Hin|]. simpl.
    destruct (Z.eqb_spec q p) as [->|Hne]; [by exists bs|].
    destruct IH as (l' & -> & Hl'); [by apply elem_of_cons in Hin as [?|?]|].
    exists (q :: l'). split; [done|]. rewrite Hl'. apply Permutation_swap. }
  exists l'. split; [done|]. rewrite Hl' in Hp. by apply Permutation_cons_inv in Hp.
Qed.

Lemma M_bind_Some {A B} (c : M A) (f : A → M B) μ x μ' :
  c μ = Some (x, μ') → (c ≫= f) μ = f x μ'.
Proof. unfold mbind, M_bind. by intros ->. Qed.

(** Evaluates the next allocator call of a goal of the form [(c ≫= f) μ = _]. *)
Ltac mstep := erewrite M_bind_Some by eassumption; cbn beta.

(** Evaluates a [free] of the most recently allocated live block. *)
Ltac mfree :=
  erewrite M_bind_Some by
    (apply free_head; cbn [live];
     repeat match goal with H : live ?m = _ |- live ?m = _ => rewrite H end; reflexivity);
  cbn beta.

(** Splits on the answer of the allocator to the next request. *)
Ltac mcase :=
  match goal with
  | Hok : mem_ok ?μ |- context [ (malloc ?n ≫= _) ?μ ] =>
      let p := fresh "p" in let μ' := fresh "μ" in
      let Hm := fresh "Hm" in let Hl := fresh "Hlive" in
      let Hn := fresh "Hnz" in let Ho := fresh "Hok" in
      let Hb := fresh "Hlo" in let He := fresh "Hhi" in
      destruct (malloc_cases n μ Hok)
        as [(μ' & Hm & Hl & Ho)|(p & μ' & Hm & Hn & Hl & Ho & Hb & He)]; mstep
  end.

Lemma not_null p : p ≠ NULL → (p =? NULL) = false.
Proof. by intros ?%Z.eqb_neq. Qed.

(** Runs the allocations of a constructor: in each failing branch the blocks
    obtained so far are freed and the live blocks are the initial ones. *)
Ltac malloc_all :=
  repeat (mcase;
    [rewrite Z.eqb_refl; repeat mfree; eexists _, _; split; [reflexivity|]; left;
     split; [reflexivity|]; simpl; congruence
    |rewrite not_null by done]).

(** Evaluates a step that reads the allocator, resp. a lifted computation. *)
Ltac mpure := erewrite M_bind_Some by reflexivity; cbn beta.

Ltac mlift H := erewrite M_bind_Some by (unfold lift; rewrite H; reflexivity); cbn beta.

(** ** Growth

    Computations that do not lower the next free address, so that blocks handed
    out later lie above, and do not write to memory that has not been handed out. *)

Definition grows {A} (c : M A) : Prop :=
  ∀ μ x μ', c μ = Some (x, μ') → brk μ ≤ brk μ' ∧ junk μ' = junk μ.

Lemma grows_ok {A} (c : M A) μ x μ' : grows c → c μ = Some (x, μ') → mem_ok μ → mem_ok μ'.
Proof. unfold mem_ok. intros Hg Hc Hok. apply Hg in Hc as [Hc _]. lia. Qed.

Lemma grows_ret {A} (x : A) : grows (mret x).
Proof. by intros μ y μ' [= <- <-]. Qed.

Lemma grows_bind {A B} (c : M A) (f : A → M B) : grows c → (∀ x, grows (f x)) → grows (c ≫= f).
Proof.
  intros Hc Hf μ y μ'. unfold mbind, M_bind. destruct (c μ) as [[x μ1]|] eqn:E; [|done].
  intros Hy. apply Hc in E as [? ?]. apply Hf in Hy as [? ?]. split; [lia|congruence].
Qed.

Lemma grows_malloc n : grows (malloc n).
Proof.
  intros μ x μ'. unfold malloc.
  destruct (answers μ) as [|[] ?]; intros [= <- <-]; simpl; (split; [lia|done]).
Qed.

Lemma grows_free p : grows (free p).
Proof. intros μ x μ'. unfold free. by destruct (remove_block _ _); intros [= <- <-]. Qed.

Lemma grows_lift {A} (o : option A) : grows (lift o).
Proof. intros μ x μ'. unfold lift. by destruct o; intros [= <- <-]. Qed.

Lemma grows_same {A} (f : mem → A) : grows (λ μ, Some (f μ, μ)).
Proof. by intros μ x μ' [= <- <-]. Qed.

#[export] Hint Resolve grows_ret grows_malloc grows_free grows_lift grows_same : vigor.

(** Follows the structure of an allocation function. *)
Ltac grow :=
  repeat match goal with
  | |- grows (_ ≫= _) => apply grows_bind; [|intros ?]
  | |- grows (if ?b then _ else _) => destruct b
  | |- grows (match ?x with _ => _ end) => destruct x
  | |- grows _ => solve [auto with vigor]
  end.

(** ** Rules for sequences of allocations

    [yields c Q μ]: [c] has defined behaviour in [μ] and ends with a result and a
    memory that satisfy [Q]. *)

Definition yields {B} (c : M B) (Q : B → mem → Prop) (μ : mem) : Prop :=
  ∃ x μ', c μ = Some (x, μ') ∧ Q x μ'.

(** The memory of [μ] some allocations later. *)
Definition later (μ μ' : mem) : Prop := mem_ok μ' ∧ brk μ ≤ brk μ' ∧ junk μ' = junk μ.

Lemma grows_later {A} (c : M A) μ x μ' : grows c → c μ = Some (x, μ') → mem_ok μ → later μ μ'.
Proof. intros Hg Hc Hok. split; [by eapply grows_ok|by eapply Hg]. Qed.

Lemma yields_ret {B} (x : B) (Q : B → mem → Prop) μ : Q x μ → yields (mret x) Q μ.
Proof. intros HQ. by exists x, μ. Qed.

Lemma yields_bind {A B} (c : M A) (k : A → M B) (Q : B → mem → Prop) μ x μ' :
  c μ = Some (x, μ') → yields (k x) Q μ' → yields (c ≫= k) Q μ.
Proof. intros Hc (y & μ2 & Hk & HQ). exists y, μ2. by rewrite (M_bind_Some _ _ _ _ _ Hc). Qed.

Lemma yields_malloc {B} size (k : Z → M B) (Q : B → mem → Prop) μ :
  mem_ok μ → (∀ μ', later μ μ' → yields (k NULL) Q μ') →
  (∀ p μ', p ≠ NULL → brk μ ≤ p → later μ μ' → yields (k p) Q μ') →
  yields (malloc size ≫= k) Q μ.
Proof.
  intros Hok Hf Hs.
  destruct (malloc_cases size μ Hok) as [(μ' & Hm & _)|(p & μ' & Hm & Hp & _ & _ & Hb & _)];
    pose proof (grows_later _ _ _ _ (grows_malloc size) Hm Hok) as Hl;
    (eapply yields_bind; [exact Hm|]); auto.
Qed.

(** A step that depends on the memory it starts in. *)
Lemma yields_here {A B} (c : mem → M A) (k : A → M B) (Q : B → mem → Prop) μ :
  yields (c μ ≫= k) Q μ → yields ((λ μ, c μ μ) ≫= k) Q μ.
Proof. done. Qed.
