(* ===== verification/MapImpl.v ===== *)
(** * The hash table: map-impl.c and map-impl-pow2.c

    An open-addressing hash table over five parallel arrays.  The keys live in
    memory owned by the client: the table stores pointers ([keyps]) and the
    cached hashes ([k_hashes]), a busy bit per slot, the value, and a chain
    counter ([chns]) per slot: the number of stored keys whose probe sequence
    passes through the slot.  A zero counter ends an unsuccessful search.

    The two source files differ only in [loop], which reduces an index modulo
    the capacity: with two remainders in map-impl.c, with a mask in
    map-impl-pow2.c.  The operations are defined here over an arbitrary [loop],
    and the theorems need only its contract, the class [LoopSpec]. *)
From stdpp Require Import base list gmap numbers.
From Stdlib Require Import ZArith Lia.
From S2P Require Import Prelude.

(** ** Keys

    The key type of a client comes with generated functions: [X_eq] compares
    two keys through pointers, [X_hash] hashes one. *)

Class KeyOps (K : Type) := {
  key_eq : K → K → bool;
  key_hash : K → Z
}.

(** What the hash table relies on (the contracts [map_keys_equality] and
    [map_key_hash] of map-util.h). *)
Class KeyLaws (K : Type) `{KeyOps K} := {
  key_eq_spec : ∀ a b, key_eq a b = true ↔ a = b;
  key_hash_range : ∀ a, 0 ≤ key_hash a < 2 ^ 32
}.

(** The memory that holds the keys: what a key pointer points to. *)
Definition heap (K : Type) : Type := Z → option K.

(** [eq(k1, k2)] and [khash(k1)]: the functions dereference their arguments. *)
Definition map_keys_equality {K} `{KeyOps K} (h : heap K) (k1 k2 : Z) : option bool :=
  a ← h k1; b ← h k2; Some (key_eq a b).

Definition map_key_hash {K} `{KeyOps K} (h : heap K) (k1 : Z) : option Z :=
  a ← h k1; Some (key_hash a).

(** ** The arrays of a table *)

Record map_arrays := MkArrays {
  busybits : list Z;
  keyps : list Z;
  k_hashes : list Z;
  chns : list Z;
  values : list Z
}.

(** ** The operations *)

Section operations.
Context {K : Type} `{KeyOps K}.
Variable loop : Z → Z → Z.

Definition find_key (A : map_arrays) (h : heap K) (keyp : Z) (key_hash : Z)
    (capacity : Z) : option Z :=
  let start := loop key_hash capacity in
  o ← for_u32 0 capacity (λ i (_ : unit),
        let index := loop (u32 (start + i)) capacity in
        bb ← rd (busybits A) index;
        kh ← rd (k_hashes A) index;
        chn ← rd (chns A) index;
        kp ← rd (keyps A) index;
        if negb (bb =? 0) && (kh =? key_hash) then
          e ← map_keys_equality h kp keyp;
          if (e : bool) then Some (Return (s32 index)) else Some (Continue tt)
        else if chn =? 0 then Some (Return (-1)) else Some (Continue tt)) tt;
  match o with
  | Return r => Some r
  | Continue _ => Some (-1)
  end.

(** Returns the index, the arrays and [*keyp_out]; only the busy bits and the
    chain counters are written. *)
Definition find_key_remove_chain (A : map_arrays) (h : heap K) (keyp : Z)
    (key_hash : Z) (capacity : Z) (keyp_out : Z) : option (Z * map_arrays * Z) :=
  let start := loop key_hash capacity in
  o ← for_u32 0 capacity (λ i chns',
        let index := loop (u32 (start + i)) capacity in
        bb ← rd (busybits A) index;
        kh ← rd (k_hashes A) index;
        chn ← rd chns' index;
        kp ← rd (keyps A) index;
        e ← (if negb (bb =? 0) && (kh =? key_hash)
             then map_keys_equality h kp keyp else Some false);
        if (e : bool) then
          bbs ← wr (busybits A) index 0;
          ko ← rd (keyps A) index;
          Some (Return (index, MkArrays bbs (keyps A) (k_hashes A) chns' (values A), ko))
        else
          chn' ← int_chk (chn - 1);
          chns'' ← wr chns' index chn';
          Some (Continue chns'')) (chns A);
  match o with
  | Return r => Some r
  | Continue chns' =>
      Some (u32 (-1), MkArrays (busybits A) (keyps A) (k_hashes A) chns' (values A), keyp_out)
  end.

Definition find_empty (bbs chns0 : list Z) (start capacity : Z) : option (Z * list Z) :=
  o ← for_u32 0 capacity (λ i chns',
        let index := loop (u32 (start + i)) capacity in
        bb ← rd bbs index;
        if 0 =? bb then Some (Return (index, chns'))
        else
          chn ← rd chns' index;
          chn' ← int_chk (chn + 1);
          chns'' ← wr chns' index chn';
          Some (Continue chns'')) chns0;
  match o with
  | Return r => Some r
  | Continue chns' => Some (u32 (-1), chns')
  end.

Definition map_impl_init (A : map_arrays) (capacity : Z) : option map_arrays :=
  o ← for_u32 (R := unit) 0 capacity (λ i '(bbs, chns'),
        bbs' ← wr bbs i 0;
        chns'' ← wr chns' i 0;
        Some (Continue (bbs', chns''))) (busybits A, chns A);
  match o with
  | Continue (bbs, chns') => Some (MkArrays bbs (keyps A) (k_hashes A) chns' (values A))
  | Return _ => None
  end.

(** Returns the result and [*value]. *)
Definition map_impl_get (A : map_arrays) (h : heap K) (keyp hash value capacity : Z)
    : option (Z * Z) :=
  index ← find_key A h keyp hash capacity;
  if -1 =? index then Some (0, value)
  else v ← rd (values A) index; Some (1, v).

Definition map_impl_put (A : map_arrays) (keyp hash value capacity : Z)
    : option map_arrays :=
  let start := loop hash capacity in
  '(index, chns') ← find_empty (busybits A) (chns A) start capacity;
  bbs ← wr (busybits A) index 1;
  kps ← wr (keyps A) index keyp;
  khs ← wr (k_hashes A) index hash;
  vals ← wr (values A) index value;
  Some (MkArrays bbs kps khs chns' vals).

(** Returns the arrays and [*keyp_out]. *)
Definition map_impl_erase (A : map_arrays) (h : heap K) (keyp hash capacity keyp_out : Z)
    : option (map_arrays * Z) :=
  '(_, A', ko) ← find_key_remove_chain A h keyp hash capacity keyp_out;
  Some (A', ko).

Definition map_impl_size (bbs : list Z) (capacity : Z) : option Z :=
  o ← for_u32 (R := unit) 0 capacity (λ i s,
        bb ← rd bbs i;
        Some (Continue (if negb (bb =? 0) then u32 (s + 1) else s))) 0;
  match o with Continue s => Some s | Return _ => None end.

End operations.

(** ** The two index reductions *)

(** map-impl.c: [g = k % capacity; res = (g + capacity) % capacity]. *)
Definition loop_mod (k capacity : Z) : Z :=
  let g := k mod capacity in
  u32 (g + capacity) mod capacity.

(** map-impl-pow2.c: [k & (capacity - 1)]. *)
Definition loop_pow2 (k capacity : Z) : Z := Z.land k (u32 (capacity - 1)).

(** The contract of [loop]. *)
Class LoopSpec (loop : Z → Z → Z) (capacity : Z) : Prop :=
  loop_is_mod : ∀ k, 0 ≤ k < 2 ^ 32 → loop k capacity = k mod capacity.

Lemma loop_mod_spec capacity : 0 < capacity < 2 ^ 31 → LoopSpec loop_mod capacity.
Proof.
  intros Hc k Hk. unfold loop_mod.
  pose proof (Z.mod_pos_bound k capacity). rewrite u32_small by lia.
  replace (k mod capacity + capacity) with (k mod capacity + 1 * capacity) by lia.
  rewrite Z.mod_add by lia. apply Z.mod_mod. lia.
Qed.

Lemma loop_pow2_spec n : 0 ≤ n < 32 → LoopSpec loop_pow2 (2 ^ n).
Proof.
  intros Hn k Hk. unfold loop_pow2.
  pose proof (Z.pow_pos_nonneg 2 n). pose proof (Z.pow_lt_mono_r 2 n 32).
  rewrite u32_small by lia.
  rewrite <- Z.land_ones by lia. f_equal. rewrite Z.ones_equiv. lia.
Qed.

(** ** Cyclic distance

    The probe sequence of a key starts at slot [s] and visits
    [(s + 0) mod cap], [(s + 1) mod cap], ... *)

Definition dist (cap s j : Z) : Z := (j - s) mod cap.

(** The probe sequence from [s] to slot [i] passes through slot [j] before [i]. *)
Definition passes (cap s i j : Z) : bool := dist cap s j <? dist cap s i.

Lemma dist_range cap s j : 0 < cap → 0 ≤ dist cap s j < cap.
Proof. intros. by apply Z.mod_pos_bound. Qed.

Lemma dist_probe cap s d : 0 < cap → 0 ≤ d < cap → dist cap s ((s + d) mod cap) = d.
Proof.
  intros. unfold dist. rewrite Zminus_mod_idemp_l.
  replace (s + d - s) with d by lia. by apply Z.mod_small.
Qed.

Lemma probe_dist cap s j : 0 < cap → 0 ≤ j < cap → (s + dist cap s j) mod cap = j.
Proof.
  intros. unfold dist. rewrite Zplus_mod_idemp_r.
  replace (s + (j - s)) with j by lia. by apply Z.mod_small.
Qed.

Lemma probe_eq cap s d j :
  0 < cap → 0 ≤ d < cap → 0 ≤ j < cap → (s + d) mod cap = j ↔ d = dist cap s j.
Proof.
  intros. split.
  - intros <-. by rewrite dist_probe.
  - intros ->. by apply probe_dist.
Qed.

(** ** The representation invariant *)

Section invariant.
Context {K : Type} `{KeyOps K}.

Definition busy (A : map_arrays) (i : Z) : bool :=
  match rd (busybits A) i with Some b => negb (b =? 0) | None => false end.

Definition slot_start (A : map_arrays) (cap i : Z) : Z :=
  default 0 (rd (k_hashes A) i) mod cap.

(** What the chain counter of slot [j] counts. *)
Definition chain_count (A : map_arrays) (cap j : Z) : Z :=
  zcount (λ i, busy A i && passes cap (slot_start A cap i) i j) cap.

(** Slot [i] stores key [k], through pointer [p], with value [v]. *)
Definition entry (h : heap K) (A : map_arrays) (i : Z) (k : K) (p v : Z) : Prop :=
  busy A i = true ∧ rd (keyps A) i = Some p ∧ h p = Some k ∧
  rd (k_hashes A) i = Some (key_hash k) ∧ rd (values A) i = Some v.

(** The arrays represent the finite map [m]; [addrs] gives the pointer under
    which each key was stored. *)
Record mapping `{Countable K} (h : heap K) (cap : Z) (A : map_arrays) (m addrs : gmap K Z)
    : Prop := Mapping {
  mp_cap : 0 < cap ∧ 2 * cap < INT_MAX;
  mp_len : zlen (busybits A) = cap ∧ zlen (keyps A) = cap ∧ zlen (k_hashes A) = cap ∧
           zlen (chns A) = cap ∧ zlen (values A) = cap;
  mp_busy : ∀ i, busy A i = true → ∃ k p v, entry h A i k p v;
  mp_inj : ∀ i j k p q v w, entry h A i k p v → entry h A j k q w → i = j;
  mp_map : ∀ k v, m !! k = Some v ↔ ∃ i p, entry h A i k p v;
  mp_addrs : ∀ k p, addrs !! k = Some p ↔ ∃ i v, entry h A i k p v;
  mp_chns : ∀ j, 0 ≤ j < cap → rd (chns A) j = Some (chain_count A cap j);
  mp_size : Z.of_nat (size m) = zcount (busy A) cap
}.

Lemma busy_true A i : busy A i = true → ∃ b, rd (busybits A) i = Some b ∧ b ≠ 0.
Proof.
  unfold busy. destruct (rd (busybits A) i) as [b|]; [|done]. intros. zbool. eauto.
Qed.

Lemma busy_rd A i b : rd (busybits A) i = Some b → busy A i = negb (b =? 0).
Proof. unfold busy. by intros ->. Qed.

Lemma busy_range A i : busy A i = true → 0 ≤ i < zlen (busybits A).
Proof. intros (b & Hb & _)%busy_true. by eapply rd_Some_range. Qed.

End invariant.

(** ** Correctness of the operations *)

Section correctness.
Context {K : Type} `{KeyLaws K} `{Countable K}.
Implicit Types (h : heap K) (A : map_arrays) (m addrs : gmap K Z).

Lemma entry_fun h A i k p v k' p' v' :
  entry h A i k p v → entry h A i k' p' v' → k = k' ∧ p = p' ∧ v = v'.
Proof. unfold entry. intros. destruct_and!. simplify_eq. done. Qed.

Section at_capacity.
Context (loop : Z → Z → Z) (cap : Z) `{!LoopSpec loop cap}.
Context (h : heap K) (A : map_arrays) (m addrs : gmap K Z).
Hypothesis HM : mapping h cap A m addrs.

Lemma cap_bounds : 0 < cap ∧ 2 * cap < 2 ^ 31 - 1.
Proof. destruct (mp_cap _ _ _ _ _ HM). unfold INT_MAX in *. lia. Qed.

Lemma entry_range i k p v : entry h A i k p v → 0 ≤ i < cap.
Proof.
  intros (Hb & _). apply busy_range in Hb. pose proof (mp_len _ _ _ _ _ HM). lia.
Qed.

Lemma entry_start i k p v : entry h A i k p v → slot_start A cap i = key_hash k mod cap.
Proof. intros (_ & _ & _ & Hh & _). unfold slot_start. by rewrite Hh. Qed.

(** The index visited by iteration [d] of a probe that starts at [s]. *)
Lemma probe_index hash d :
  0 ≤ hash < 2 ^ 32 → 0 ≤ d < cap →
  loop (u32 (loop hash cap + d)) cap = (hash mod cap + d) mod cap.
Proof.
  intros. pose proof cap_bounds. rewrite (@loop_is_mod loop cap _ hash) by done.
  pose proof (Z.mod_pos_bound hash cap). rewrite u32_small by lia.
  apply (@loop_is_mod loop cap _). lia.
Qed.

Lemma slot_reads i :
  0 ≤ i < cap →
  ∃ bb kh kp, rd (busybits A) i = Some bb ∧ rd (k_hashes A) i = Some kh ∧
              rd (keyps A) i = Some kp.
Proof.
  intros Hi. destruct (mp_len _ _ _ _ _ HM) as (L1 & L2 & L3 & L4 & L5).
  destruct (rd_Some (busybits A) i) as [bb ?]; [lia|].
  destruct (rd_Some (k_hashes A) i) as [kh ?]; [lia|].
  destruct (rd_Some (keyps A) i) as [kp ?]; [lia|]. eauto 10.
Qed.

Lemma chain_count_range j : 0 ≤ chain_count A cap j ≤ cap.
Proof. apply zcount_range. pose proof cap_bounds. lia. Qed.

(** A stored key keeps the counters of the slots its probe passes positive. *)
Lemma chain_count_pos i k p v j :
  entry h A i k p v → passes cap (key_hash k mod cap) i j = true →
  0 < chain_count A cap j.
Proof.
  intros He Hp. apply (zcount_pos _ _ i).
  - by eapply entry_range.
  - rewrite (entry_start _ _ _ _ He), Hp. by destruct He as (-> & _).
Qed.

(** The test of the probe loops at a slot: does it hold key [k]? *)
Lemma slot_test k keyp i bb kh kp :
  h keyp = Some k →
  rd (busybits A) i = Some bb → rd (k_hashes A) i = Some kh → rd (keyps A) i = Some kp →
  ∃ e, (if negb (bb =? 0) && (kh =? key_hash k)
        then map_keys_equality h kp keyp else Some false) = Some e ∧
       (e = true ↔ ∃ p v, entry h A i k p v).
Proof.
  intros Hk Hb Hkh Hkp. pose proof (busy_rd _ _ _ Hb) as Hbusy.
  destruct (bb =? 0) eqn:E0; rewrite ?E0 in *; simpl in *.
  { exists false. split; [done|]. split; [done|]. intros (p & v & He & _). congruence. }
  destruct (mp_busy _ _ _ _ _ HM i Hbusy) as (k' & p & v & He).
  assert (p = kp ∧ kh = key_hash k') as [-> ->].
  { destruct He as (_ & ? & _ & ? & _). split; congruence. }
  destruct (Z.eqb_spec (key_hash k') (key_hash k)) as [Eh|Eh].
  - destruct He as (? & ? & Hp & ?). unfold map_keys_equality. rewrite Hp, Hk. simpl.
    exists (key_eq k' k). split; [done|]. rewrite key_eq_spec. split.
    + intros ->. unfold entry. naive_solver.
    + intros (? & ? & ? & ? & ? & ?). congruence.
  - exists false. split; [done|]. split; [done|]. intros (p' & v' & He').
    apply (entry_fun _ _ _ _ _ _ _ _ _ He) in He' as [-> _]. done.
Qed.

Lemma find_key_found i k p v keyp :
  h keyp = Some k → entry h A i k p v →
  find_key loop A h keyp (key_hash k) cap = Some i.
Proof.
  intros Hk He. pose proof cap_bounds as Hc. pose proof (key_hash_range k) as Hh.
  pose proof (entry_range _ _ _ _ He) as Hi.
  set (s := key_hash k mod cap). set (D := dist cap s i).
  unfold find_key. cbn zeta.
  edestruct (for_u32_rule (λ d (_ : unit), d ≤ D) (λ r, r = i)) as (o & -> & Ho);
    [lia|lia|pose proof (dist_range cap s i); lia| |].
  - intros d [] Hd HD. rewrite probe_index by done. fold s.
    pose proof (Z.mod_pos_bound (s + d) cap). set (j := (s + d) mod cap) in *.
    assert (dist cap s j = d) as Hdj by (apply dist_probe; lia).
    destruct (slot_reads j) as (bb & kh & kp & Hbb & Hkh & Hkp); [lia|].
    rewrite Hbb, Hkh, Hkp, (mp_chns _ _ _ _ _ HM j) by lia. cbn [mbind option_bind].
    destruct (slot_test k keyp j bb kh kp Hk Hbb Hkh Hkp) as (e & Ht & Hiff).
    assert (e = true → j = i) as Hji.
    { intros (p' & v' & He')%Hiff. by apply (mp_inj _ _ _ _ _ HM _ _ _ _ _ _ _ He' He). }
    destruct (negb (bb =? 0) && (kh =? key_hash k)) eqn:Etest.
    + rewrite Ht. cbn [mbind option_bind]. destruct e.
      * eexists. split; [done|]. simpl. rewrite <- Hji by done.
        apply s32_small. unfold INT_MIN, INT_MAX. lia.
      * eexists. split; [done|]. simpl.
        destruct (Z.eq_dec d D); [|lia]. exfalso.
        assert (j = i) as -> by (apply probe_eq; lia). discriminate (proj2 Hiff (ex_intro _ p (ex_intro _ v He))).
    + assert (d ≠ D) as Hne.
      { intros ->. assert (j = i) as -> by (apply probe_eq; lia).
        injection Ht as <-. discriminate (proj2 Hiff (ex_intro _ p (ex_intro _ v He))). }
      assert (0 < chain_count A cap j).
      { eapply chain_count_pos; [done|]. unfold passes. fold s D. rewrite Hdj.
        apply Z.ltb_lt. lia. }
      destruct (Z.eqb_spec (chain_count A cap j) 0); [lia|].
      eexists. split; [done|]. simpl. lia.
  - cbn [mbind option_bind]. destruct o as [|r]; [|by subst].
    pose proof (dist_range cap s i). lia.
Qed.

Lemma find_key_absent k keyp :
  h keyp = Some k → m !! k = None →
  find_key loop A h keyp (key_hash k) cap = Some (-1).
Proof.
  intros Hk Hm. pose proof cap_bounds as Hc. pose proof (key_hash_range k) as Hh.
  unfold find_key. cbn zeta.
  edestruct (for_u32_rule (λ _ (_ : unit), True) (λ r, r = -1)) as (o & -> & Ho);
    [lia|lia|done| |].
  - intros d [] Hd _. rewrite probe_index by done.
    pose proof (Z.mod_pos_bound (key_hash k mod cap + d) cap).
    set (j := (key_hash k mod cap + d) mod cap) in *.
    destruct (slot_reads j) as (bb & kh & kp & Hbb & Hkh & Hkp); [lia|].
    rewrite Hbb, Hkh, Hkp, (mp_chns _ _ _ _ _ HM j) by lia. cbn [mbind option_bind].
    destruct (slot_test k keyp j bb kh kp Hk Hbb Hkh Hkp) as (e & Ht & Hiff).
    assert (e ≠ true) as He.
    { intros (p & v & He)%Hiff. assert (m !! k = Some v); [|congruence].
      apply (mp_map _ _ _ _ _ HM). eauto. }
    destruct (negb (bb =? 0) && (kh =? key_hash k)).
    + rewrite Ht. cbn [mbind option_bind]. destruct e; [done|]. by eexists.
    + destruct (chain_count A cap j =? 0); by eexists.
  - cbn [mbind option_bind]. destruct o as [|r]; by subst.
Qed.

(** The chain counters while a probe of length [D] from [s] adds [c] to each
    slot it has passed. *)
Definition chns_shifted (s d c : Z) (chns' : list Z) : Prop :=
  zlen chns' = cap ∧
  ∀ j, 0 ≤ j < cap →
    rd chns' j = Some (chain_count A cap j + c * Z.b2z (dist cap s j <? d)).

Lemma chns_shifted_0 s c : chns_shifted s 0 c (chns A).
Proof.
  split; [apply (mp_len _ _ _ _ _ HM)|]. intros j Hj.
  rewrite (mp_chns _ _ _ _ _ HM) by done. f_equal.
  pose proof cap_bounds. pose proof (dist_range cap s j).
  destruct (Z.ltb_spec (dist cap s j) 0); simpl; lia.
Qed.

Lemma chns_shifted_step s d c chns' :
  0 ≤ d < cap → chns_shifted s d c chns' →
  ∃ x chns'', rd chns' ((s + d) mod cap) = Some x ∧
    x = chain_count A cap ((s + d) mod cap) ∧
    wr chns' ((s + d) mod cap) (x + c) = Some chns'' ∧
    chns_shifted s (d + 1) c chns''.
Proof.
  intros Hd [Hl Hr]. pose proof cap_bounds as Hc.
  pose proof (Z.mod_pos_bound (s + d) cap). set (i := (s + d) mod cap) in *.
  assert (dist cap s i = d) as Hdi by (apply dist_probe; lia).
  eexists _, _. split_and!; [apply Hr; lia| | |].
  - rewrite Hdi, Z.ltb_irrefl. simpl. lia.
  - apply wr_Some. lia.
  - split; [by rewrite zlen_insert|]. intros j Hj.
    rewrite rd_insert by lia. destruct (Z.eqb_spec i j) as [<-|Hne].
    + rewrite Hdi, Z.ltb_irrefl. destruct (Z.ltb_spec d (d + 1)); simpl; f_equal; lia.
    + rewrite Hr by done. f_equal. do 3 f_equal.
      assert (dist cap s j ≠ d).
      { intros <-. apply Hne. apply probe_dist; lia. }
      destruct (Z.ltb_spec (dist cap s j) d), (Z.ltb_spec (dist cap s j) (d + 1)); lia || done.
Qed.

Lemma find_key_remove_chain_spec i k p v keyp keyp_out :
  h keyp = Some k → entry h A i k p v →
  ∃ bbs chns',
    find_key_remove_chain loop A h keyp (key_hash k) cap keyp_out =
      Some (i, MkArrays bbs (keyps A) (k_hashes A) chns' (values A), p) ∧
    wr (busybits A) i 0 = Some bbs ∧
    chns_shifted (key_hash k mod cap) (dist cap (key_hash k mod cap) i) (-1) chns'.
Proof.
  intros Hk He. pose proof cap_bounds as Hc. pose proof (key_hash_range k) as Hh.
  pose proof (entry_range _ _ _ _ He) as Hi.
  set (s := key_hash k mod cap). set (D := dist cap s i).
  unfold find_key_remove_chain. cbn zeta.
  edestruct (for_u32_rule (λ d c, d ≤ D ∧ chns_shifted s d (-1) c)
     (λ r, ∃ bbs chns', r = (i, MkArrays bbs (keyps A) (k_hashes A) chns' (values A), p) ∧
        wr (busybits A) i 0 = Some bbs ∧ chns_shifted s D (-1) chns'))
    as (o & -> & Ho); [lia|lia| | |].
  - pose proof (dist_range cap s i). split; [lia|apply chns_shifted_0].
  - intros d c Hd [HD Hs]. rewrite probe_index by done. fold s.
    pose proof (Z.mod_pos_bound (s + d) cap).
    destruct (chns_shifted_step s d (-1) c) as (x & c' & Hx & Hxc & Hc' & Hs'); [lia|done|].
    set (j := (s + d) mod cap) in *.
    destruct (slot_reads j) as (bb & kh & kp & Hbb & Hkh & Hkp); [lia|].
    rewrite Hbb, Hkh, Hkp, Hx. cbn [mbind option_bind].
    destruct (slot_test k keyp j bb kh kp Hk Hbb Hkh Hkp) as (e & Ht & Hiff).
    rewrite Ht. cbn [mbind option_bind]. destruct e.
    + destruct (proj1 Hiff eq_refl) as (p' & v' & He').
      assert (j = i) as Hji by apply (mp_inj _ _ _ _ _ HM _ _ _ _ _ _ _ He' He).
      rewrite Hji in *. destruct (mp_len _ _ _ _ _ HM) as (L1 & _).
      rewrite wr_Some by lia. cbn [mbind option_bind].
      eexists. split; [done|]. simpl. eexists _, _. split_and!; [|done|].
      * destruct He as (_ & Hp & _). assert (kp = p) as -> by congruence. done.
      * assert (d = D) as -> by (apply probe_eq; lia). done.
    + assert (d ≠ D) as Hne.
      { intros ->. assert (j = i) as Hji by (apply probe_eq; lia). rewrite Hji in *.
        discriminate (proj2 Hiff (ex_intro _ p (ex_intro _ v He))). }
      pose proof (chain_count_range j).
      assert (0 < chain_count A cap j).
      { eapply chain_count_pos; [done|]. unfold passes. fold s D.
        unfold j. rewrite dist_probe by lia. apply Z.ltb_lt. lia. }
      rewrite int_chk_small by (unfold INT_MIN, INT_MAX; lia). cbn [mbind option_bind].
      replace (x - 1) with (x + -1) by lia. rewrite Hc'. cbn [mbind option_bind].
      eexists. split; [done|]. simpl. split; [lia|done].
  - cbn [mbind option_bind]. destruct o as [c|r].
    + pose proof (dist_range cap s i). lia.
    + destruct Ho as (bbs & chns' & -> & ? & ?). eauto.
Qed.

Lemma find_empty_spec hash :
  0 ≤ hash < 2 ^ 32 → Z.of_nat (size m) < cap →
  ∃ i chns', find_empty loop (busybits A) (chns A) (loop hash cap) cap = Some (i, chns') ∧
    0 ≤ i < cap ∧ busy A i = false ∧
    chns_shifted (hash mod cap) (dist cap (hash mod cap) i) 1 chns'.
Proof.
  intros Hh Hsz. pose proof cap_bounds as Hc. set (s := hash mod cap).
  rewrite (mp_size _ _ _ _ _ HM) in Hsz.
  apply zcount_lt_ex in Hsz as (f & Hf & Hbf); [|lia].
  unfold find_empty.
  edestruct (for_u32_rule (λ d c, d ≤ dist cap s f ∧ chns_shifted s d 1 c)
     (λ r, ∃ i chns', r = (i, chns') ∧ 0 ≤ i < cap ∧ busy A i = false ∧
        chns_shifted s (dist cap s i) 1 chns')) as (o & -> & Ho); [lia|lia| | |].
  - pose proof (dist_range cap s f). split; [lia|apply chns_shifted_0].
  - intros d c Hd [HD Hs]. rewrite probe_index by done. fold s.
    pose proof (Z.mod_pos_bound (s + d) cap).
    destruct (chns_shifted_step s d 1 c) as (x & c' & Hx & Hxc & Hc' & Hs'); [lia|done|].
    assert (dist cap s ((s + d) mod cap) = d) as Hdj by (apply dist_probe; lia).
    set (j := (s + d) mod cap) in *.
    destruct (slot_reads j) as (bb & _ & _ & Hbb & _ & _); [lia|].
    rewrite Hbb. cbn [mbind option_bind]. pose proof (busy_rd _ _ _ Hbb) as Hbj.
    destruct (Z.eqb_spec 0 bb) as [<-|Hb0].
    + eexists. split; [done|]. eexists _, _. split_and!; [done|lia|lia|done|].
      by rewrite Hdj.
    + pose proof (chain_count_range j). rewrite Hx. cbn [mbind option_bind].
      rewrite int_chk_small by (unfold INT_MIN, INT_MAX; lia). cbn [mbind option_bind].
      rewrite Hc'. cbn [mbind option_bind]. eexists. split; [done|]. simpl. split; [|done].
      assert (d ≠ dist cap s f); [|lia]. intros Hdf.
      assert (j = f) as Hjf by (apply probe_eq; lia).
      rewrite Hjf, Hbf in Hbj. symmetry in Hbj. zbool. lia.
  - cbn [mbind option_bind]. destruct o as [c|r].
    + pose proof (dist_range cap s f). lia.
    + destruct Ho as (i & chns' & -> & ? & ? & ?). eauto 10.
Qed.

Lemma map_impl_size_spec : map_impl_size (busybits A) cap = Some (Z.of_nat (size m)).
Proof.
  pose proof cap_bounds as Hc. destruct (mp_len _ _ _ _ _ HM) as (L1 & _).
  unfold map_impl_size.
  edestruct (for_u32_rule (R := unit) (λ i s, s = zcount (busy A) i) (λ _, False))
    as (o & -> & Ho); [lia|lia|done| |].
  - intros i s Hi ->. destruct (rd_Some (busybits A) i) as [bb Hbb]; [lia|].
    rewrite Hbb. cbn [mbind option_bind]. eexists. split; [done|]. simpl.
    unfold zcount. replace (Z.to_nat (i + 1)) with (Datatypes.S (Z.to_nat i)) by lia.
    simpl ncount. rewrite Z2Nat.id, (busy_rd _ _ _ Hbb) by lia.
    pose proof (zcount_range (busy A) i). unfold zcount in *.
    destruct (negb (bb =? 0)); simpl Z.b2z; [rewrite u32_small|]; lia.
  - cbn [mbind option_bind]. destruct o as [s|[]]; [|done].
    by rewrite (mp_size _ _ _ _ _ HM), Ho.
Qed.

End at_capacity.

(** *** Changing one slot *)

(** [A'] is [A] with slot [i] emptied and the counters [chns']. *)
Definition clear_slot A i chns' : map_arrays :=
  MkArrays (<[Z.to_nat i := 0]> (busybits A)) (keyps A) (k_hashes A) chns' (values A).

(** [A'] is [A] with slot [i] filled and the counters [chns']. *)
Definition fill_slot A i keyp hash value chns' : map_arrays :=
  MkArrays (<[Z.to_nat i := 1]> (busybits A)) (<[Z.to_nat i := keyp]> (keyps A))
    (<[Z.to_nat i := hash]> (k_hashes A)) chns' (<[Z.to_nat i := value]> (values A)).

Lemma busy_clear_slot A i chns' j :
  0 ≤ i < zlen (busybits A) →
  busy (clear_slot A i chns') j = if i =? j then false else busy A j.
Proof.
  intros. unfold busy, clear_slot. simpl. rewrite rd_insert by done.
  by destruct (i =? j).
Qed.

Lemma busy_fill_slot A i keyp hash value chns' j :
  0 ≤ i < zlen (busybits A) →
  busy (fill_slot A i keyp hash value chns') j = if i =? j then true else busy A j.
Proof.
  intros. unfold busy, fill_slot. simpl. rewrite rd_insert by done.
  by destruct (i =? j).
Qed.

Lemma entry_clear_slot h A i chns' j k p v :
  0 ≤ i < zlen (busybits A) →
  entry h (clear_slot A i chns') j k p v ↔ i ≠ j ∧ entry h A j k p v.
Proof.
  intros. unfold entry. rewrite busy_clear_slot by done. simpl.
  destruct (Z.eqb_spec i j); naive_solver.
Qed.

Lemma entry_fill_slot h A cap i k0 keyp value chns' m addrs j k p v :
  mapping h cap A m addrs → h keyp = Some k0 → 0 ≤ i < cap →
  entry h (fill_slot A i keyp (key_hash k0) value chns') j k p v ↔
  (i = j ∧ k = k0 ∧ p = keyp ∧ v = value) ∨ (i ≠ j ∧ entry h A j k p v).
Proof.
  intros HM Hk Hi. destruct (mp_len _ _ _ _ _ HM) as (L1 & L2 & L3 & L4 & L5).
  unfold entry. rewrite busy_fill_slot by lia. simpl.
  rewrite !rd_insert by lia. destruct (Z.eqb_spec i j) as [<-|]; [|naive_solver].
  split.
  - intros (_ & ? & ? & ? & ?). simplify_eq. naive_solver.
  - intros [(_ & -> & -> & ->)|[[] _]]; done.
Qed.

Lemma chain_count_update A A' cap i j :
  0 ≤ i < cap →
  (∀ i', 0 ≤ i' < cap → i' ≠ i →
     busy A' i' = busy A i' ∧ slot_start A' cap i' = slot_start A cap i') →
  chain_count A' cap j =
    chain_count A cap j - Z.b2z (busy A i && passes cap (slot_start A cap i) i j)
      + Z.b2z (busy A' i && passes cap (slot_start A' cap i) i j).
Proof.
  intros Hi Heq. unfold chain_count.
  apply (zcount_update (λ i, busy A i && passes cap (slot_start A cap i) i j)); [done|].
  intros i' Hi' Hne. by destruct (Heq i' Hi' Hne) as [-> ->].
Qed.

Lemma size_busy_update A A' cap i :
  0 ≤ i < cap → (∀ i', 0 ≤ i' < cap → i' ≠ i → busy A' i' = busy A i') →
  zcount (busy A') cap = zcount (busy A) cap - Z.b2z (busy A i) + Z.b2z (busy A' i).
Proof. intros. apply zcount_update; [done|]. intros. symmetry. auto. Qed.

Lemma clear_slot_mapping h cap A m addrs i k p v chns' :
  mapping h cap A m addrs → entry h A i k p v →
  chns_shifted cap A (key_hash k mod cap) (dist cap (key_hash k mod cap) i) (-1) chns' →
  mapping h cap (clear_slot A i chns') (delete k m) (delete k addrs).
Proof.
  intros HM He [Hl Hr]. pose proof (entry_range _ _ _ _ _ HM _ _ _ _ He) as Hi.
  destruct (mp_len _ _ _ _ _ HM) as (L1 & L2 & L3 & L4 & L5).
  assert (∀ j k' p' v', entry h (clear_slot A i chns') j k' p' v' ↔
            i ≠ j ∧ entry h A j k' p' v') as Hent
    by (intros; apply entry_clear_slot; lia).
  assert (∀ j k' p' v', entry h A j k' p' v' → k ≠ k' ↔ i ≠ j) as Hki.
  { intros j k' p' v' He'. split; intros Hne ->; apply Hne.
    - by apply (entry_fun _ _ _ _ _ _ _ _ _ He He').
    - by apply (mp_inj _ _ _ _ _ HM _ _ _ _ _ _ _ He He'). }
  assert (∀ i', i' ≠ i → busy (clear_slot A i chns') i' = busy A i' ∧
            slot_start (clear_slot A i chns') cap i' = slot_start A cap i') as Hupd.
  { intros i' Hi'. rewrite busy_clear_slot by lia. by destruct (Z.eqb_spec i i'). }
  constructor.
  - apply (mp_cap _ _ _ _ _ HM).
  - simpl. rewrite zlen_insert. auto.
  - intros j. rewrite busy_clear_slot by lia. destruct (Z.eqb_spec i j); [done|].
    intros (k' & p' & v' & ?)%(mp_busy _ _ _ _ _ HM). exists k', p', v'. by apply Hent.
  - intros j j' k' p' q' v' w' [_ ?]%Hent [_ ?]%Hent. by eapply (mp_inj _ _ _ _ _ HM).
  - intros k' v'. rewrite lookup_delete_Some, (mp_map _ _ _ _ _ HM). setoid_rewrite Hent.
    naive_solver.
  - intros k' v'. rewrite lookup_delete_Some, (mp_addrs _ _ _ _ _ HM). setoid_rewrite Hent.
    naive_solver.
  - intros j Hj. simpl. rewrite Hr by done. f_equal.
    rewrite (chain_count_update A (clear_slot A i chns') cap i j) by auto.
    rewrite busy_clear_slot, Z.eqb_refl by lia.
    rewrite (entry_start cap h A i k p v He). destruct He as (-> & _).
    unfold passes. simpl. lia.
  - rewrite (size_busy_update A (clear_slot A i chns') cap i) by
      (try done; intros; by apply Hupd).
    rewrite busy_clear_slot, Z.eqb_refl, <- (mp_size _ _ _ _ _ HM) by lia.
    assert (m !! k = Some v) as Hm by (apply (mp_map _ _ _ _ _ HM); eauto).
    rewrite (map_size_delete_Some k m) by eauto.
    pose proof (map_size_ne_0_lookup_2 m k) as Hsz. destruct He as (-> & _).
    assert (size m ≠ 0%nat) by eauto. simpl. lia.
Qed.

Lemma fill_slot_mapping h cap A m addrs i k keyp value chns' :
  mapping h cap A m addrs → h keyp = Some k → m !! k = None →
  0 ≤ i < cap → busy A i = false →
  chns_shifted cap A (key_hash k mod cap) (dist cap (key_hash k mod cap) i) 1 chns' →
  mapping h cap (fill_slot A i keyp (key_hash k) value chns')
    (<[k := value]> m) (<[k := keyp]> addrs).
Proof.
  intros HM Hk Hm Hi Hb [Hl Hr].
  destruct (mp_len _ _ _ _ _ HM) as (L1 & L2 & L3 & L4 & L5).
  set (A' := fill_slot A i keyp (key_hash k) value chns').
  assert (∀ j k' p' v', entry h A' j k' p' v' ↔
            (i = j ∧ k' = k ∧ p' = keyp ∧ v' = value) ∨ (i ≠ j ∧ entry h A j k' p' v'))
    as Hent by (intros; by eapply entry_fill_slot).
  assert (∀ j k' p' v', entry h A j k' p' v' → k ≠ k' ∧ i ≠ j) as Hne.
  { intros j k' p' v' He'. split; intros ->.
    - assert (m !! k' = Some v') by (apply (mp_map _ _ _ _ _ HM); eauto). congruence.
    - destruct He' as (? & _). congruence. }
  assert (∀ i', busy A' i' = if i =? i' then true else busy A i') as Hbusy
    by (intros; apply busy_fill_slot; lia).
  assert (∀ i', i' ≠ i → busy A' i' = busy A i' ∧
            slot_start A' cap i' = slot_start A cap i') as Hupd.
  { intros i' Hi'. rewrite Hbusy. unfold slot_start, A', fill_slot. simpl.
    rewrite rd_insert by lia. by destruct (Z.eqb_spec i i'). }
  constructor.
  - apply (mp_cap _ _ _ _ _ HM).
  - simpl. rewrite !zlen_insert. auto.
  - intros j. rewrite Hbusy. destruct (Z.eqb_spec i j).
    + intros _. exists k, keyp, value. apply Hent. auto.
    + intros (k' & p' & v' & ?)%(mp_busy _ _ _ _ _ HM). exists k', p', v'. apply Hent. auto.
  - intros j j' k' p' q' v' w' He1%Hent He2%Hent.
    destruct He1 as [(<- & -> & -> & ->)|[_ He1]], He2 as [(<- & ? & ? & ?)|[_ He2]]; subst.
    + done.
    + by apply Hne in He2 as [[] _].
    + by apply Hne in He1 as [[] _].
    + by eapply (mp_inj _ _ _ _ _ HM).
  - intros k' v'. rewrite lookup_insert_Some, (mp_map _ _ _ _ _ HM). setoid_rewrite Hent.
    naive_solver.
  - intros k' v'. rewrite lookup_insert_Some, (mp_addrs _ _ _ _ _ HM). setoid_rewrite Hent.
    naive_solver.
  - intros j Hj. simpl. rewrite Hr by done. f_equal.
    rewrite (chain_count_update A A' cap i j) by auto.
    rewrite Hb, Hbusy, Z.eqb_refl. unfold slot_start at 2, A', fill_slot. simpl.
    rewrite rd_insert_eq by lia. simpl. unfold passes. lia.
  - rewrite (size_busy_update A A' cap i) by (try done; intros; by apply Hupd).
    rewrite Hb, Hbusy, Z.eqb_refl, <- (mp_size _ _ _ _ _ HM).
    rewrite map_size_insert_None by done. simpl. lia.
Qed.

(** *** The operations refine a finite map *)

(** Memory that the table does not point to may change. *)
Lemma mapping_frame h h' cap A m addrs :
  mapping h cap A m addrs → (∀ k p, addrs !! k = Some p → h' p = h p) →
  mapping h' cap A m addrs.
Proof.
  intros HM Hh.
  assert (∀ i k p v, entry h' A i k p v ↔ entry h A i k p v) as Hent.
  { intros i k p v. split.
    - intros He. pose proof (mp_busy _ _ _ _ _ HM i (proj1 He)) as (k' & p' & v' & He').
      assert (p' = p) as -> by (destruct He, He'; naive_solver).
      assert (h' p = h p) as Hp by (eapply Hh, (mp_addrs _ _ _ _ _ HM); eauto).
      unfold entry in *. rewrite <- Hp. done.
    - intros He. assert (h' p = h p) as Hp by (eapply Hh, (mp_addrs _ _ _ _ _ HM); eauto).
      unfold entry in *. rewrite Hp. done. }
  destruct HM. constructor; auto; setoid_rewrite Hent; auto.
Qed.

Lemma mapping_key h cap A m addrs k p :
  mapping h cap A m addrs → addrs !! k = Some p → h p = Some k.
Proof. intros HM (i & v & _ & _ & ? & _)%(mp_addrs _ _ _ _ _ HM). done. Qed.

Lemma mapping_dom h cap A m addrs k :
  mapping h cap A m addrs → is_Some (m !! k) ↔ is_Some (addrs !! k).
Proof.
  intros HM. split.
  - intros [v (i & p & ?)%(mp_map _ _ _ _ _ HM)]. exists p. apply (mp_addrs _ _ _ _ _ HM). eauto.
  - intros [p (i & v & ?)%(mp_addrs _ _ _ _ _ HM)]. exists v. apply (mp_map _ _ _ _ _ HM). eauto.
Qed.

Lemma mapping_size_le h cap A m addrs :
  mapping h cap A m addrs → Z.of_nat (size m) ≤ cap.
Proof.
  intros HM. rewrite (mp_size _ _ _ _ _ HM). apply zcount_range.
  destruct (mp_cap _ _ _ _ _ HM). lia.
Qed.

Lemma map_impl_init_spec h cap A :
  0 < cap → 2 * cap < INT_MAX →
  zlen (busybits A) = cap → zlen (keyps A) = cap → zlen (k_hashes A) = cap →
  zlen (chns A) = cap → zlen (values A) = cap →
  ∃ A', map_impl_init A cap = Some A' ∧ mapping h cap A' ∅ ∅.
Proof.
  intros Hc Hc2 L1 L2 L3 L4 L5. unfold map_impl_init.
  edestruct (for_u32_rule (R := unit)
    (λ i '(b, c), zlen b = cap ∧ zlen c = cap ∧
       ∀ j, 0 ≤ j < i → rd b j = Some 0 ∧ rd c j = Some 0) (λ _, False))
    as (o & -> & Ho); [lia|unfold INT_MAX in *; lia|simpl; auto with lia| |].
  - intros i [b c] Hi (Hb & Hcc & Hz). rewrite wr_Some by lia. cbn [mbind option_bind].
    rewrite wr_Some by lia. cbn [mbind option_bind]. eexists. split; [done|]. simpl.
    rewrite !zlen_insert. split_and!; [done..|]. intros j Hj.
    rewrite !rd_insert by lia. destruct (Z.eqb_spec i j); [done|]. apply Hz. lia.
  - cbn [mbind option_bind]. destruct o as [[b c]|]; [|done].
    destruct Ho as (Hb & Hcc & Hz). eexists. split; [done|].
    assert (∀ i, busy (MkArrays b (keyps A) (k_hashes A) c (values A)) i = false) as Hbusy.
    { intros i. unfold busy. simpl. destruct (rd b i) eqn:E; [|done].
      pose proof (rd_Some_range _ _ _ E). destruct (Hz i) as [? _]; [lia|].
      by simplify_eq. }
    constructor; simpl.
    + done.
    + done.
    + intros i. by rewrite Hbusy.
    + intros i j k p q v w [Hi _]. by rewrite Hbusy in Hi.
    + intros k v. rewrite lookup_empty. split; [done|]. intros (i & p & Hi & _).
      by rewrite Hbusy in Hi.
    + intros k v. rewrite lookup_empty. split; [done|]. intros (i & p & Hi & _).
      by rewrite Hbusy in Hi.
    + intros j Hj. destruct (Hz j) as [_ ->]; [lia|]. unfold chain_count.
      rewrite zcount_zero; [done|]. intros. by rewrite Hbusy.
    + rewrite map_size_empty, zcount_zero; [done|]. intros. by rewrite Hbusy.
Qed.

Section refinement.
Context (loop : Z → Z → Z) (cap : Z) `{!LoopSpec loop cap}.

Lemma map_impl_get_spec h A m addrs keyp k value :
  mapping h cap A m addrs → h keyp = Some k →
  map_impl_get loop A h keyp (key_hash k) value cap =
    Some (match m !! k with Some v => (1, v) | None => (0, value) end).
Proof.
  intros HM Hk. unfold map_impl_get. destruct (m !! k) as [v|] eqn:Hm.
  - apply (mp_map _ _ _ _ _ HM) in Hm as (i & p & He).
    rewrite (find_key_found loop cap h A m addrs HM i k p v) by done.
    cbn [mbind option_bind]. pose proof (entry_range _ _ _ _ _ HM _ _ _ _ He).
    destruct (Z.eqb_spec (-1) i); [lia|]. destruct He as (_ & _ & _ & _ & ->). done.
  - by rewrite (find_key_absent loop cap h A m addrs HM k).
Qed.

Lemma map_impl_put_spec h A m addrs keyp k value :
  mapping h cap A m addrs → h keyp = Some k → m !! k = None → Z.of_nat (size m) < cap →
  ∃ A', map_impl_put loop A keyp (key_hash k) value cap = Some A' ∧
        mapping h cap A' (<[k := value]> m) (<[k := keyp]> addrs).
Proof.
  intros HM Hk Hm Hsz. unfold map_impl_put. cbn zeta.
  destruct (find_empty_spec loop cap h A m addrs HM (key_hash k))
    as (i & chns' & -> & Hi & Hb & Hs); [apply key_hash_range|done|].
  cbn [mbind option_bind]. destruct (mp_len _ _ _ _ _ HM) as (L1 & L2 & L3 & L4 & L5).
  rewrite !wr_Some by lia. cbn [mbind option_bind].
  eexists. split; [done|]. by apply fill_slot_mapping.
Qed.

Lemma map_impl_erase_spec h A m addrs keyp k v keyp_out :
  mapping h cap A m addrs → h keyp = Some k → m !! k = Some v →
  ∃ A' p, map_impl_erase loop A h keyp (key_hash k) cap keyp_out = Some (A', p) ∧
          addrs !! k = Some p ∧
          mapping h cap A' (delete k m) (delete k addrs).
Proof.
  intros HM Hk Hm. apply (mp_map _ _ _ _ _ HM) in Hm as (i & p & He).
  unfold map_impl_erase.
  destruct (find_key_remove_chain_spec loop cap h A m addrs HM i k p v keyp keyp_out Hk He)
    as (bbs & chns' & -> & ->%wr_inv & Hs).
  cbn [mbind option_bind]. eexists _, _. split_and!; [done| |].
  - apply (mp_addrs _ _ _ _ _ HM). eauto.
  - by eapply clear_slot_mapping.
Qed.

End refinement.

End correctness.

(** ** Main results *)

(** The lookup of the hash table.  On a table that represents [m], whatever
    the collisions and however full the table is, [find_key] returns the index
    of the slot that stores the key (at the recorded pointer, with the mapped
    value) when the key is in [m], and -1 when it is not; it always returns and
    never reads out of bounds. *)
Theorem find_key_correct {K} `{KeyLaws K} `{Countable K} (loop : Z → Z → Z) (cap : Z)
    (h : heap K) (A : map_arrays) (m addrs : gmap K Z) (keyp : Z) (k : K) :
  LoopSpec loop cap → mapping h cap A m addrs → h keyp = Some k →
  ∃ index, find_key loop A h keyp (key_hash k) cap = Some index ∧
    match m !! k, addrs !! k with
    | Some v, Some p => 0 ≤ index < cap ∧ rd (busybits A) index ≠ Some 0 ∧
                        rd (keyps A) index = Some p ∧ rd (values A) index = Some v
    | None, None => index = -1
    | _, _ => False
    end.
Proof.
  intros Hl HM Hk. destruct (m !! k) as [v|] eqn:Hm.
  - apply (mp_map _ _ _ _ _ HM) in Hm as (i & p & He).
    exists i. split; [by eapply find_key_found|].
    assert (addrs !! k = Some p) as -> by (apply (mp_addrs _ _ _ _ _ HM); eauto).
    pose proof (entry_range _ _ _ _ _ HM _ _ _ _ He).
    destruct He as (Hb & ? & _ & _ & ?). split_and!; [lia|lia| |done|done].
    apply busy_true in Hb as (b & -> & ?). congruence.
  - exists (-1). split; [by eapply find_key_absent|].
    destruct (addrs !! k) eqn:Ha; [|done].
    assert (is_Some (m !! k)) as [? ?] by (eapply mapping_dom; eauto). congruence.
Qed.

(** C3: the chain counters.  On any table that satisfies the representation
    invariant, whatever keys were put and erased before, inserting a key that is
    absent while there is a free slot, and erasing any key that is present, have
    defined behaviour and keep the invariant for the new map.  The invariant
    says that the counter of every slot is exactly the number of stored keys
    whose probe sequence passes through the slot; neither operation overflows a
    counter or touches memory out of bounds, and erasing returns the pointer
    under which the key was stored. *)
Theorem map_impl_put_erase_invariant {K} `{KeyLaws K} `{Countable K} (loop : Z → Z → Z)
    (cap : Z) (h : heap K) (A : map_arrays) (m addrs : gmap K Z) (keyp : Z) (k : K) :
  LoopSpec loop cap → mapping h cap A m addrs → h keyp = Some k →
  (∀ v, m !! k = None → Z.of_nat (size m) < cap →
     ∃ A1, map_impl_put loop A keyp (key_hash k) v cap = Some A1 ∧
       mapping h cap A1 (<[k := v]> m) (<[k := keyp]> addrs)) ∧
  (∀ v keyp_out, m !! k = Some v →
     ∃ A2 p, map_impl_erase loop A h keyp (key_hash k) cap keyp_out = Some (A2, p) ∧
       addrs !! k = Some p ∧ mapping h cap A2 (delete k m) (delete k addrs)).
Proof.
  intros Hl HM Hk. split; intros v.
  - intros Hm Hsz. by apply map_impl_put_spec.
  - intros t Hm. by eapply map_impl_erase_spec.
Qed.

(** ** A concrete table

    Keys are integers hashed to one of two values, so that every probe
    collides; the memory holds the key [p] at every address [p]. *)

#[export] Instance demo_key_ops : KeyOps Z := {
  key_eq := Z.eqb;
  key_hash := λ k, k mod 2
}.

#[export] Instance demo_key_laws : KeyLaws Z.
Proof.
  constructor.
  - intros a b. apply Z.eqb_eq.
  - intros a. simpl. pose proof (Z.mod_pos_bound a 2). lia.
Qed.

Definition demo_heap : heap Z := λ p, Some p.

Definition demo_blank (n : Z) : map_arrays :=
  MkArrays (replicate (Z.to_nat n) 7) (replicate (Z.to_nat n) 7) (replicate (Z.to_nat n) 7)
    (replicate (Z.to_nat n) 7) (replicate (Z.to_nat n) 7).

Definition demo_empty (n : Z) : map_arrays :=
  default (demo_blank n) (map_impl_init (demo_blank n) n).

Lemma demo_empty_mapping : mapping demo_heap 4 (demo_empty 4) (∅ : gmap Z Z) ∅.
Proof.
  destruct (map_impl_init_spec demo_heap 4 (demo_blank 4)) as (A & HA & HM);
    [done..|]. unfold demo_empty. by rewrite HA.
Qed.

Definition demo_one : map_arrays :=
  default (demo_blank 4) (map_impl_put loop_mod (demo_empty 4) 5 1 50 4).

Lemma demo_one_mapping : mapping demo_heap 4 demo_one {[5 := 50]} {[5 := 5]}.
Proof.
  destruct (map_impl_put_spec loop_mod 4 (LoopSpec0 := loop_mod_spec 4 ltac:(lia))
              demo_heap (demo_empty 4) ∅ ∅ 5 5 50) as (A & HA & HM);
    [apply demo_empty_mapping|done..|].
  unfold demo_one. change 1 with (key_hash 5). rewrite HA. apply HM.
Qed.

Lemma find_key_correct_witness :
  (∃ i, find_key loop_mod demo_one demo_heap 5 (key_hash 5) 4 = Some i ∧ 0 ≤ i < 4 ∧
        rd (values demo_one) i = Some 50) ∧
  find_key loop_mod demo_one demo_heap 7 (key_hash 7) 4 = Some (-1).
Proof.
  split.
  - destruct (find_key_correct loop_mod 4 demo_heap demo_one {[5 := 50]} {[5 := 5]} 5 5
      (loop_mod_spec 4 ltac:(lia)) demo_one_mapping eq_refl) as (i & Hi & Hr & _ & _ & Hv).
    exists i. auto.
  - destruct (find_key_correct loop_mod 4 demo_heap demo_one {[5 := 50]} {[5 := 5]} 7 7
      (loop_mod_spec 4 ltac:(lia)) demo_one_mapping eq_refl) as (i & Hi & Hr).
    rewrite Hi. f_equal. exact Hr.
Defined.

(** 7 is put behind 5 and 9 behind 7; then 7 and 9 are erased, the latter across the hole that the
    former has left. *)
Lemma map_impl_put_erase_invariant_witness :
  ∃ A1 A2 A3 A4, map_impl_put loop_mod demo_one 7 (key_hash 7) 70 4 = Some A1 ∧
    map_impl_put loop_mod A1 9 (key_hash 9) 90 4 = Some A2 ∧
    map_impl_erase loop_mod A2 demo_heap 7 (key_hash 7) 4 0 = Some (A3, 7) ∧
    map_impl_erase loop_mod A3 demo_heap 9 (key_hash 9) 4 0 = Some (A4, 9) ∧
    mapping demo_heap 4 A4 {[5 := 50]} {[5 := 5]}.
Proof.
  pose proof (loop_mod_spec 4 ltac:(lia)) as HL.
  destruct (map_impl_put_erase_invariant loop_mod 4 demo_heap demo_one {[5 := 50]} {[5 := 5]} 7 7
    HL demo_one_mapping eq_refl) as [H1 _]. destruct (H1 70 eq_refl eq_refl) as (A1 & P1 & M1).
  destruct (map_impl_put_erase_invariant loop_mod 4 demo_heap A1 _ _ 9 9 HL M1 eq_refl) as [H2 _].
  destruct (H2 90 eq_refl ltac:(vm_compute; reflexivity)) as (A2 & P2 & M2).
  destruct (map_impl_put_erase_invariant loop_mod 4 demo_heap A2 _ _ 7 7 HL M2 eq_refl) as [_ H3].
  destruct (H3 70 0 eq_refl) as (A3 & p3 & P3 & L3 & M3).
  destruct (map_impl_put_erase_invariant loop_mod 4 demo_heap A3 _ _ 9 9 HL M3 eq_refl) as [_ H4].
  destruct (H4 90 0 eq_refl) as (A4 & p4 & P4 & L4 & M4).
  vm_compute in L3, L4. injection L3 as <-. injection L4 as <-.
  exists A1, A2, A3, A4. split_and!; [exact P1|exact P2|exact P3|exact P4|].
  replace ({[5 := 50]} : gmap Z Z) with (delete 9 (delete 7 (<[9 := 90]> (<[7 := 70]> ({[5 := 50]} : gmap Z Z)))))
    by reflexivity.
  replace ({[5 := 5]} : gmap Z Z) with (delete 9 (delete 7 (<[9 := 9]> (<[7 := 7]> ({[5 := 5]} : gmap Z Z)))))
    by reflexivity. exact M4.
Defined.
