(* ===== verification/MapImplPow2.v ===== *)
(** * map-impl-pow2.c

    The variant of the hash table that is compiled when [CAPACITY_POW2] is
    defined.  Its functions are the ones of map-impl.c with the index reduction
    by a mask. *)
From stdpp Require Import base list gmap numbers.
From Stdlib Require Import ZArith Lia.
From S2P Require Import Prelude.
From S2P Require Import MapImpl.

Section pow2.
Context {K : Type} `{KeyOps K}.

Definition loop : Z → Z → Z := loop_pow2.

Definition find_key : map_arrays → heap K → Z → Z → Z → option Z :=
  MapImpl.find_key loop.

Definition find_key_remove_chain :
    map_arrays → heap K → Z → Z → Z → Z → option (Z * map_arrays * Z) :=
  MapImpl.find_key_remove_chain loop.

Definition find_empty : list Z → list Z → Z → Z → option (Z * list Z) :=
  MapImpl.find_empty loop.

Definition map_impl_init : map_arrays → Z → option map_arrays := MapImpl.map_impl_init.

Definition map_impl_get : map_arrays → heap K → Z → Z → Z → Z → option (Z * Z) :=
  MapImpl.map_impl_get loop.

Definition map_impl_put : map_arrays → Z → Z → Z → Z → option map_arrays :=
  MapImpl.map_impl_put loop.

Definition map_impl_erase :
    map_arrays → heap K → Z → Z → Z → Z → option (map_arrays * Z) :=
  MapImpl.map_impl_erase loop.

Definition map_impl_size : list Z → Z → option Z := MapImpl.map_impl_size.

End pow2.

(** ** Agreement of the two variants *)

Section agreement.
Context {K : Type} `{KeyOps K}.
Context (n : Z) (Hn : 0 ≤ n < 31).

Lemma pow2_capacity : 0 < 2 ^ n < 2 ^ 31.
Proof. split; [apply Z.pow_pos_nonneg; lia|apply Z.pow_lt_mono_r; lia]. Qed.

Lemma loops_agree k : 0 ≤ k < 2 ^ 32 → loop_pow2 k (2 ^ n) = loop_mod k (2 ^ n).
Proof.
  intros Hk. pose proof pow2_capacity as Hc.
  assert (LoopSpec loop_mod (2 ^ n)) as Hm by (apply loop_mod_spec; lia).
  assert (LoopSpec loop_pow2 (2 ^ n)) as Hp by (apply loop_pow2_spec; lia).
  rewrite (@loop_is_mod _ _ Hm) by lia. by rewrite (@loop_is_mod _ _ Hp).
Qed.

Lemma loops_agree_index x : loop_pow2 (u32 x) (2 ^ n) = loop_mod (u32 x) (2 ^ n).
Proof. apply loops_agree, u32_range. Qed.

Lemma find_key_agree A (h : heap K) keyp hash :
  0 ≤ hash < 2 ^ 32 →
  find_key A h keyp hash (2 ^ n) = MapImpl.find_key loop_mod A h keyp hash (2 ^ n).
Proof.
  intros. unfold find_key, loop, MapImpl.find_key. cbn zeta. rewrite (loops_agree hash) by done.
  f_equal. apply for_u32_ext. intros i []. by rewrite loops_agree_index.
Qed.

Lemma find_empty_agree bbs chns0 start :
  find_empty bbs chns0 start (2 ^ n) = MapImpl.find_empty loop_mod bbs chns0 start (2 ^ n).
Proof.
  unfold find_empty, loop, MapImpl.find_empty.
  f_equal. apply for_u32_ext. intros i c. by rewrite loops_agree_index.
Qed.

Lemma find_key_remove_chain_agree A (h : heap K) keyp hash ko :
  0 ≤ hash < 2 ^ 32 →
  find_key_remove_chain A h keyp hash (2 ^ n) ko =
    MapImpl.find_key_remove_chain loop_mod A h keyp hash (2 ^ n) ko.
Proof.
  intros. unfold find_key_remove_chain, loop, MapImpl.find_key_remove_chain. cbn zeta.
  rewrite (loops_agree hash) by done.
  f_equal. apply for_u32_ext. intros i c. by rewrite loops_agree_index.
Qed.

End agreement.

(** C5: on a table whose capacity is a power of two, the masking variant
    (map-impl-pow2.c) computes the same result as the general one (map-impl.c)
    for every operation, table, memory and argument, whether or not the table
    is well formed. *)
Theorem pow2_variant_equivalent {K} `{KeyOps K} (n : Z) (A : map_arrays) (h : heap K)
    (keyp hash value keyp_out : Z) :
  0 ≤ n < 31 → 0 ≤ hash < 2 ^ 32 →
  map_impl_get A h keyp hash value (2 ^ n) =
    MapImpl.map_impl_get loop_mod A h keyp hash value (2 ^ n) ∧
  map_impl_put A keyp hash value (2 ^ n) =
    MapImpl.map_impl_put loop_mod A keyp hash value (2 ^ n) ∧
  map_impl_erase A h keyp hash (2 ^ n) keyp_out =
    MapImpl.map_impl_erase loop_mod A h keyp hash (2 ^ n) keyp_out.
Proof.
  intros Hn Hh. split_and!.
  - unfold map_impl_get, MapImpl.map_impl_get.
    by rewrite <- (find_key_agree n Hn A h keyp hash Hh).
  - unfold map_impl_put, MapImpl.map_impl_put. cbn zeta. unfold loop.
    rewrite (loops_agree n Hn hash Hh). by rewrite <- (find_empty_agree n Hn).
  - unfold map_impl_erase, MapImpl.map_impl_erase.
    by rewrite <- (find_key_remove_chain_agree n Hn A h keyp hash keyp_out Hh).
Qed.

Lemma pow2_variant_equivalent_witness :
  map_impl_get demo_one demo_heap 5 1 0 4 =
    MapImpl.map_impl_get loop_mod demo_one demo_heap 5 1 0 4.
Proof.
  apply (pow2_variant_equivalent 2 demo_one demo_heap 5 1 0 0 ltac:(lia) ltac:(lia)).
Defined.
