(* ===== verification/Map.v ===== *)
(** * map.c

    The map that network functions use: the arrays of the hash table together
    with their capacity, the number of stored keys and the key functions.  The
    build flag [CAPACITY_POW2] selects the table implementation. *)
From stdpp Require Import base list gmap numbers.
From Stdlib Require Import ZArith Lia.
From S2P Require Import Prelude.
From S2P Require Import Memory.
From S2P Require Import MapImpl.

(** struct Map; the key functions are the ones of the key type. *)
Record Map := MkMap {
  arrays : map_arrays;
  capacity : Z;
  map_size_field : Z
}.

(** The index reduction the build selects. *)
Definition map_loop (CAPACITY_POW2 : bool) : Z → Z → Z :=
  if CAPACITY_POW2 then loop_pow2 else loop_mod.

Section map.
Context {K : Type} `{KeyOps K}.
Variable CAPACITY_POW2 : bool.

(** Returns the result, [*map_out] and the map behind it on success. *)
Definition map_allocate (capacity map_out : Z) : M (Z * Z * option Map) :=
  if CAPACITY_POW2 && ((capacity =? 0) || negb (Z.land capacity (u32 (capacity - 1)) =? 0))
  then mret (0, map_out, None) else
  let old_map_val := map_out in
  map_alloc ← malloc 64;
  if map_alloc =? NULL then mret (0, map_out, None) else
  bbs_alloc ← malloc (u64 (4 * s32 capacity));
  if bbs_alloc =? NULL then
    _ ← free map_alloc;
    mret (0, old_map_val, None) else
  keyps_alloc ← malloc (u64 (8 * s32 capacity));
  if keyps_alloc =? NULL then
    _ ← free bbs_alloc; _ ← free map_alloc;
    mret (0, old_map_val, None) else
  khs_alloc ← malloc (u64 (4 * s32 capacity));
  if khs_alloc =? NULL then
    _ ← free keyps_alloc; _ ← free bbs_alloc; _ ← free map_alloc;
    mret (0, old_map_val, None) else
  chns_alloc ← malloc (u64 (4 * s32 capacity));
  if chns_alloc =? NULL then
    _ ← free khs_alloc; _ ← free keyps_alloc; _ ← free bbs_alloc; _ ← free map_alloc;
    mret (0, old_map_val, None) else
  vals_alloc ← malloc (u64 (4 * s32 capacity));
  if vals_alloc =? NULL then
    _ ← free chns_alloc; _ ← free khs_alloc; _ ← free keyps_alloc; _ ← free bbs_alloc;
    _ ← free map_alloc;
    mret (0, old_map_val, None) else
  bbs ← junk_array 4 bbs_alloc capacity;
  kps ← junk_array 8 keyps_alloc capacity;
  khs ← junk_array 4 khs_alloc capacity;
  chs ← junk_array 4 chns_alloc capacity;
  vls ← junk_array 4 vals_alloc capacity;
  A ← lift (map_impl_init (MkArrays bbs kps khs chs vls) capacity);
  mret (1, map_alloc, Some (MkMap A capacity 0)).

(** Returns the result and [*value_out]. *)
Definition map_get (h : heap K) (map : Map) (key value_out : Z) : option (Z * Z) :=
  hash ← map_key_hash h key;
  map_impl_get (map_loop CAPACITY_POW2) (arrays map) h key hash value_out (capacity map).

Definition map_put (h : heap K) (map : Map) (key value : Z) : option Map :=
  hash ← map_key_hash h key;
  A ← map_impl_put (map_loop CAPACITY_POW2) (arrays map) key hash value (capacity map);
  Some (MkMap A (capacity map) (u32 (map_size_field map + 1))).

(** Returns the map and [*trash], the pointer under which the key was stored. *)
Definition map_erase (h : heap K) (map : Map) (key trash : Z) : option (Map * Z) :=
  hash ← map_key_hash h key;
  '(A, trash') ← map_impl_erase (map_loop CAPACITY_POW2) (arrays map) h key hash
                   (capacity map) trash;
  Some (MkMap A (capacity map) (u32 (map_size_field map - 1)), trash').

Definition map_size (map : Map) : Z := map_size_field map.

End map.

(** ** What a map represents *)

Section specification.
Context {K : Type} `{KeyLaws K} `{Countable K}.
Variable pow2 : bool.
Implicit Types (h : heap K) (M : Map) (m addrs : gmap K Z).

(** The capacities the build supports. *)
Definition capacity_ok (cap : Z) : Prop :=
  0 < cap ∧ 2 * cap < INT_MAX ∧ (pow2 = true → ∃ n, 0 ≤ n ∧ cap = 2 ^ n).

Record mapp h M m addrs : Prop := Mapp {
  mpp_mapping : mapping h (capacity M) (arrays M) m addrs;
  mpp_size : map_size_field M = Z.of_nat (size m);
  mpp_cap : capacity_ok (capacity M)
}.

Lemma capacity_loop cap : capacity_ok cap → LoopSpec (map_loop pow2) cap.
Proof.
  unfold capacity_ok, INT_MAX, map_loop. intros (? & ? & Hp). destruct pow2.
  - destruct Hp as (n & Hn & ->); [done|]. apply loop_pow2_spec. split; [done|].
    destruct (Z.lt_ge_cases n 32) as [|Hge]; [done|].
    pose proof (Z.pow_le_mono_r 2 32 n). lia.
  - apply loop_mod_spec. lia.
Qed.

Lemma map_key_hash_at h p k : h p = Some k → map_key_hash h p = Some (key_hash k).
Proof. unfold map_key_hash. by intros ->. Qed.

Lemma map_get_spec h M m addrs p k v0 :
  mapp h M m addrs → h p = Some k →
  map_get pow2 h M p v0 = Some (match m !! k with Some v => (1, v) | None => (0, v0) end).
Proof.
  intros [HM _ Hc] Hk. unfold map_get. rewrite (map_key_hash_at _ _ _ Hk).
  pose proof (capacity_loop _ Hc). by eapply map_impl_get_spec.
Qed.

Lemma map_put_spec h M m addrs p k v :
  mapp h M m addrs → h p = Some k → m !! k = None → Z.of_nat (size m) < capacity M →
  ∃ M', map_put pow2 h M p v = Some M' ∧ capacity M' = capacity M ∧
        mapp h M' (<[k := v]> m) (<[k := p]> addrs).
Proof.
  intros [HM Hs Hc] Hk Hm Hsz. unfold map_put. rewrite (map_key_hash_at _ _ _ Hk).
  pose proof (capacity_loop _ Hc). cbn [mbind option_bind].
  edestruct map_impl_put_spec as (A' & -> & HM'); [done..|]. cbn [mbind option_bind].
  eexists. split_and!; [done..|]. constructor; simpl; [done| |done].
  rewrite map_size_insert_None, Hs, u32_small; [lia| |done].
  destruct Hc as (? & ? & _). unfold INT_MAX in *. lia.
Qed.

Lemma map_erase_spec h M m addrs p k v t :
  mapp h M m addrs → h p = Some k → m !! k = Some v →
  ∃ M' q, map_erase pow2 h M p t = Some (M', q) ∧ addrs !! k = Some q ∧
          capacity M' = capacity M ∧ mapp h M' (delete k m) (delete k addrs).
Proof.
  intros [HM Hs Hc] Hk Hm. unfold map_erase. rewrite (map_key_hash_at _ _ _ Hk).
  pose proof (capacity_loop _ Hc). cbn [mbind option_bind].
  edestruct map_impl_erase_spec as (A' & q & -> & Hq & HM'); [done..|].
  cbn [mbind option_bind]. eexists _, _. split_and!; [done..|].
  constructor; simpl; [done| |done].
  pose proof (mapping_size_le _ _ _ _ _ HM). destruct Hc as (? & ? & _).
  rewrite map_size_delete_Some, Hs by eauto.
  assert (size m ≠ 0%nat) by (eapply map_size_ne_0_lookup_2; eauto).
  unfold INT_MAX in *. rewrite u32_small; lia.
Qed.

Lemma map_size_spec h M m addrs : mapp h M m addrs → map_size M = Z.of_nat (size m).
Proof. by intros [_ ? _]. Qed.

(** The stored size agrees with the number of busy slots of the table. *)
Lemma map_size_impl h M m addrs :
  mapp h M m addrs → map_impl_size (busybits (arrays M)) (capacity M) = Some (map_size M).
Proof.
  intros [HM Hs Hc]. unfold map_size. rewrite Hs. by eapply map_impl_size_spec.
Qed.

Lemma mapp_frame h h' M m addrs :
  mapp h M m addrs → (∀ k p, addrs !! k = Some p → h' p = h p) → mapp h' M m addrs.
Proof. intros [HM ? ?] Hh. constructor; [by eapply mapping_frame|done..]. Qed.

Lemma mapp_key h M m addrs k p : mapp h M m addrs → addrs !! k = Some p → h p = Some k.
Proof. intros [HM _ _]. by eapply mapping_key. Qed.

End specification.

(** ** Allocation *)

(** The test of [map_allocate]: [capacity & (capacity - 1)] is zero exactly for
    the powers of two. *)
Lemma land_pred_pow2 c : 0 < c → Z.land c (c - 1) = 0 → c = 2 ^ Z.log2 c.
Proof.
  intros Hc Hl. destruct (Z.log2_spec c Hc) as [Hlo Hhi].
  destruct (Z.eq_dec c (2 ^ Z.log2 c)) as [|Hne]; [done|].
  pose proof (Z.log2_nonneg c). exfalso.
  assert (Z.log2 (c - 1) = Z.log2 c) as Hlog by (apply Z.log2_unique; lia).
  assert (Z.testbit (Z.land c (c - 1)) (Z.log2 c) = true) as Ht.
  { rewrite Z.land_spec, Z.bit_log2 by done. simpl. rewrite <- Hlog. apply Z.bit_log2.
    pose proof (Z.pow_pos_nonneg 2 (Z.log2 c)). lia. }
  by rewrite Hl, Z.testbit_0_l in Ht.
Qed.

Lemma pow2_land_pred n : 0 ≤ n → Z.land (2 ^ n) (2 ^ n - 1) = 0.
Proof.
  intros. rewrite Z.sub_1_r, <- Z.ones_equiv, Z.land_ones by done.
  apply Z.mod_same. pose proof (Z.pow_pos_nonneg 2 n). lia.
Qed.

Section allocation.
Context {K : Type} `{KeyLaws K} `{Countable K}.

(** What an allocation of a map does: on failure it reports 0, leaves
    [*map_out] alone and has released every block it had obtained; on success
    it reports 1 and yields an empty map in six new blocks. *)
Definition map_allocated (pow2 : bool) (cap map_out : Z) (μ : mem)
    (res : Z * Z * option Map) (μ' : mem) : Prop :=
  (res = (0, map_out, None) ∧ live μ' = live μ) ∨
  (∃ out M b1 b2 b3 b4 b5,
     res = (1, out, Some M) ∧ out ≠ NULL ∧ capacity M = cap ∧
     live μ' = [b1; b2; b3; b4; b5; out] ++ live μ ∧
     ∀ h : heap K, mapp pow2 h M ∅ ∅).

(** What the test of the power-of-two build lets through. *)
Lemma capacity_test_ok (pow2 : bool) cap :
  0 < cap → 2 * cap < INT_MAX →
  pow2 && ((cap =? 0) || negb (Z.land cap (u32 (cap - 1)) =? 0)) = false → capacity_ok pow2 cap.
Proof.
  intros Hc Hc2 Ep. split_and!; [done..|]. intros ->. simpl in Ep.
  destruct (Z.eqb_spec cap 0); [lia|].
  simpl in Ep. zbool. unfold INT_MAX in Hc2. rewrite u32_small in Ep by lia.
  exists (Z.log2 cap). split; [apply Z.log2_nonneg|by apply land_pred_pow2].
Qed.

Lemma map_allocate_spec (pow2 : bool) cap map_out μ :
  mem_ok μ → 0 < cap → 2 * cap < INT_MAX →
  ∃ res μ', map_allocate pow2 cap map_out μ = Some (res, μ') ∧
            map_allocated pow2 cap map_out μ res μ'.
Proof.
  intros Hok Hc Hc2. unfold map_allocate.
  destruct (pow2 && ((cap =? 0) || negb (Z.land cap (u32 (cap - 1)) =? 0))) eqn:Ep.
  { eexists _, _. split; [done|]. by left. }
  pose proof (capacity_test_ok pow2 cap Hc Hc2 Ep) as Hcap. clear Ep. cbn zeta.
  malloc_all.
  destruct (map_impl_init_spec (λ _, None : option K) cap (MkArrays
     ((λ i, junk μ5 (p0 + 4 * i)) <$> seqZ 0 cap) ((λ i, junk μ5 (p1 + 8 * i)) <$> seqZ 0 cap)
     ((λ i, junk μ5 (p2 + 4 * i)) <$> seqZ 0 cap) ((λ i, junk μ5 (p3 + 4 * i)) <$> seqZ 0 cap)
     ((λ i, junk μ5 (p4 + 4 * i)) <$> seqZ 0 cap))) as (A & HA & HM);
    [done|done|by apply zlen_fmap_seqZ; lia..|].
  do 5 mpure. mlift HA.
  eexists _, _. split; [done|]. right. exists p, (MkMap A cap 0), p4, p3, p2, p1, p0.
  split_and!; [done..| |].
  - simpl. congruence.
  - intros h. constructor; simpl; [|by rewrite map_size_empty|done].
    eapply mapping_frame; [done|]. intros k q Hk. by rewrite lookup_empty in Hk.
Qed.

Lemma map_allocate_grows (pow2 : bool) cap map_out : grows (map_allocate pow2 cap map_out).
Proof. unfold map_allocate. grow. all: unfold junk_array; auto with vigor. Qed.

Lemma yields_map_allocate {B} (pow2 : bool) cap map_out (k : Z * Z * option Map → M B)
    (Q : B → mem → Prop) μ :
  mem_ok μ → 0 < cap → 2 * cap < INT_MAX →
  (∀ μ', later μ μ' → yields (k (0, map_out, None)) Q μ') →
  (∀ out M μ', later μ μ' → capacity M = cap → (∀ h : heap K, mapp pow2 h M ∅ ∅) →
     yields (k (1, out, Some M)) Q μ') →
  yields (map_allocate pow2 cap map_out ≫= k) Q μ.
Proof.
  intros Hok Hc Hc2 Hf Hs.
  destruct (map_allocate_spec pow2 cap map_out μ Hok Hc Hc2) as (res & μ' & Ha & Hres).
  pose proof (grows_later _ _ _ _ (map_allocate_grows pow2 cap map_out) Ha Hok) as Hl.
  eapply yields_bind; [exact Ha|].
  destruct Hres as [[-> _]|(out & M & ? & ? & ? & ? & ? & -> & _ & HMc & _ & HM)]; auto.
Qed.

End allocation.

(** ** Traces of operations *)

(** A call of the map interface with its arguments. *)
Inductive map_op :=
| MGet (key value_out : Z)
| MPut (key value : Z)
| MErase (key trash : Z)
| MSize.

(** Runs calls one after the other; the observations are what each returns. *)
Fixpoint run_ops {S} (step : map_op → S → option (list Z * S)) (ops : list map_op) (s : S)
    : option (list (list Z) * S) :=
  match ops with
  | [] => Some ([], s)
  | op :: ops' =>
      '(obs, s') ← step op s;
      '(rest, s'') ← run_ops step ops' s';
      Some (obs :: rest, s'')
  end.

Section traces.
Context {K : Type} `{KeyLaws K} `{Countable K}.

Definition map_step (pow2 : bool) (h : heap K) (op : map_op) (M : Map)
    : option (list Z * Map) :=
  match op with
  | MGet key value_out => '(r, v) ← map_get pow2 h M key value_out; Some ([r; v], M)
  | MPut key value => M' ← map_put pow2 h M key value; Some ([], M')
  | MErase key trash => '(M', t) ← map_erase pow2 h M key trash; Some ([t], M')
  | MSize => Some ([map_size M], M)
  end.

(** The contract of the interface on a finite map [m] of capacity [cap] that
    also records the pointer of each key; [None]: the precondition of the call
    does not hold. *)
Definition map_spec_step (cap : Z) (h : heap K) (op : map_op) (s : gmap K Z * gmap K Z)
    : option (list Z * (gmap K Z * gmap K Z)) :=
  let '(m, addrs) := s in
  match op with
  | MGet key value_out =>
      k ← h key;
      Some (match m !! k with Some v => [1; v] | None => [0; value_out] end, s)
  | MPut key value =>
      k ← h key;
      match m !! k with
      | None => if Z.of_nat (size m) <? cap
                then Some ([], (<[k := value]> m, <[k := key]> addrs)) else None
      | Some _ => None
      end
  | MErase key _ =>
      k ← h key;
      match m !! k, addrs !! k with
      | Some _, Some p => Some ([p], (delete k m, delete k addrs))
      | _, _ => None
      end
  | MSize => Some ([Z.of_nat (size m)], s)
  end.

Lemma map_step_refines pow2 h op M m addrs obs m' addrs' :
  mapp pow2 h M m addrs →
  map_spec_step (capacity M) h op (m, addrs) = Some (obs, (m', addrs')) →
  ∃ M', map_step pow2 h op M = Some (obs, M') ∧ capacity M' = capacity M ∧
        mapp pow2 h M' m' addrs'.
Proof.
  intros HM Hs. destruct op as [p v0|p v|p t|]; simpl in *.
  - destruct (h p) as [k|] eqn:Hk; simplify_eq/=.
    rewrite (map_get_spec _ _ _ _ _ _ _ _ HM Hk). destruct (m' !! k); simpl; eauto.
  - destruct (h p) as [k|] eqn:Hk; simplify_eq/=.
    destruct (m !! k) eqn:Hm; [done|]. destruct (Z.ltb_spec (Z.of_nat (size m)) (capacity M));
      simplify_eq/=.
    destruct (map_put_spec _ _ _ _ _ _ _ v HM Hk Hm) as (M' & -> & ? & ?); [done|]. simpl. eauto.
  - destruct (h p) as [k|] eqn:Hk; simplify_eq/=.
    destruct (m !! k) as [v|] eqn:Hm, (addrs !! k) as [q|] eqn:Ha; simplify_eq/=.
    destruct (map_erase_spec _ _ _ _ _ _ _ _ t HM Hk Hm) as (M' & q' & -> & ? & ? & ?).
    simplify_eq/=. eauto.
  - simplify_eq/=. rewrite (map_size_spec _ _ _ _ _ HM). eauto.
Qed.

Lemma map_run_refines pow2 h ops M m addrs obs m' addrs' :
  mapp pow2 h M m addrs →
  run_ops (map_spec_step (capacity M) h) ops (m, addrs) = Some (obs, (m', addrs')) →
  ∃ M', run_ops (map_step pow2 h) ops M = Some (obs, M') ∧ mapp pow2 h M' m' addrs'.
Proof.
  revert M m addrs obs. induction ops as [|op ops IH]; intros M m addrs obs HM Hr; cbn [run_ops] in *.
  - simplify_eq. eauto.
  - destruct (map_spec_step (capacity M) h op (m, addrs)) as [[o [m1 a1]]|] eqn:E; [|discriminate Hr].
    cbn [mbind option_bind] in Hr. destruct (run_ops _ ops (m1, a1)) as [[rest [m2 a2]]|] eqn:E2; simplify_eq/=.
    destruct (map_step_refines _ _ _ _ _ _ _ _ _ HM E) as (M1 & -> & Hc & HM1). cbn [mbind option_bind].
    rewrite <- Hc in E2. destruct (IH M1 m1 a1 rest HM1 E2) as (M' & -> & HM'). eauto.
Qed.

End traces.

(** ** Main results *)

(** C1: the map implements its contract.  Whatever answers the allocator gives,
    if [map_allocate] succeeds then any sequence of [map_get], [map_put],
    [map_erase] and [map_size] calls that respects the preconditions (a key is
    put only when absent and while there is room, and erased only when present)
    runs without undefined behaviour and returns what a finite map that also
    remembers the pointer of each key returns; this holds for both table
    implementations. *)
Theorem map_refines_finite_map {K} `{KeyLaws K} `{Countable K} (pow2 : bool)
    (cap map_out out : Z) (μ μ' : mem) (M : Map) (h : heap K) (ops : list map_op)
    (obs : list (list Z)) (m' addrs' : gmap K Z) :
  mem_ok μ → 0 < cap → 2 * cap < INT_MAX →
  map_allocate pow2 cap map_out μ = Some ((1, out, Some M), μ') →
  run_ops (map_spec_step cap h) ops (∅, ∅) = Some (obs, (m', addrs')) →
  ∃ M', run_ops (map_step pow2 h) ops M = Some (obs, M') ∧ mapp pow2 h M' m' addrs'.
Proof.
  intros Hok Hc Hc2 Ha Hr.
  destruct (map_allocate_spec (K := K) pow2 cap map_out μ) as (res & μ1 & Ha' & Hres); [done..|].
  rewrite Ha in Ha'. simplify_eq.
  destruct Hres as [[? _]|(? & ? & ? & ? & ? & ? & ? & ? & _ & Hcap & _ & HM)]; simplify_eq.
  by eapply map_run_refines.
Qed.

(** C4: allocation of a map.  For every sequence of allocator answers,
    [map_allocate] either reports 0, leaves [*map_out] as it was and leaks
    nothing (the live blocks are the ones before the call), or reports 1 with
    an empty, well-formed map of the requested capacity that occupies exactly
    six new blocks; it never frees a block twice. *)
Theorem map_allocate_no_leak {K} `{KeyLaws K} `{Countable K} (pow2 : bool)
    (cap map_out : Z) (μ : mem) :
  mem_ok μ → 0 < cap → 2 * cap < INT_MAX →
  ∃ res μ', map_allocate pow2 cap map_out μ = Some (res, μ') ∧
            map_allocated (K := K) pow2 cap map_out μ res μ'.
Proof. intros. by apply map_allocate_spec. Qed.

Definition demo_mem (answers : list bool) : mem := Mem [] answers 4096 (λ _, 3).

Lemma map_refines_finite_map_witness :
  ∃ M M', run_ops (map_step false demo_heap)
      [MPut 5 50; MPut 7 70; MGet 7 0; MErase 5 0; MGet 5 (-9); MSize] M =
    Some ([[]; []; [1; 70]; [5]; [0; -9]; [1]], M').
Proof.
  eexists.
  edestruct (map_refines_finite_map (K := Z) false 4 0 4096 (demo_mem (replicate 6 true)))
    as (M' & HM' & _); [done|lia|done|vm_compute; reflexivity| |].
  2: exists M'; exact HM'.
  vm_compute. reflexivity.
Defined.

Lemma map_allocate_no_leak_witness :
  ∃ res μ', map_allocate true 4 77 (demo_mem [true; true; true; false]) = Some (res, μ') ∧
            map_allocated (K := Z) true 4 77 (demo_mem [true; true; true; false]) res μ'.
Proof. apply map_allocate_no_leak; [done|lia|done]. Defined.
