(* ===== verification/Vector.v ===== *)
(** * vector.c

    A vector of fixed-size elements.  The struct holds a data pointer, the
    element size and the capacity; here it also carries the elements that are
    stored in its block, so that a pointer handed out by [vector_borrow] can be
    dereferenced.  [vector_return] gives ownership back to the vector in the
    annotations of the source and does nothing at run time. *)
From stdpp Require Import base list numbers.
From Stdlib Require Import ZArith Lia.
From S2P Require Import Prelude.
From S2P Require Import Memory.

Record Vector (T : Type) := MkVector {
  data : Z;
  elem_size : Z;
  vec_capacity : Z;
  cells : list T
}.
Arguments MkVector {T} _ _ _ _.
Arguments data {T} _.
Arguments elem_size {T} _.
Arguments vec_capacity {T} _.
Arguments cells {T} _.

Definition VECTOR_CAPACITY_UPPER_LIMIT : Z := 140000.

(** [*vector_out] and the vector behind it; [init_elem] is the callback that
    initialises the element at a pointer. *)
Definition vector_allocate {T} (elem_size capacity : Z) (init_elem : Z → T)
    (vector_out : Z) : M (Z * Z * option (Vector T)) :=
  vector_alloc ← malloc 16;
  if vector_alloc =? NULL then mret (0, vector_out, None) else
  data_alloc ← malloc (u32 (u32 elem_size * capacity));
  if data_alloc =? NULL then
    _ ← free vector_alloc;
    mret (0, vector_out, None)
  else
  o ← lift (for_u32 (R := unit) 0 capacity (λ i elems,
        off ← int_chk (elem_size * i);
        Some (Continue (elems ++ [init_elem (data_alloc + off)]))) []);
  match o with
  | Continue elems =>
      mret (1, vector_alloc, Some (MkVector data_alloc elem_size capacity elems))
  | Return _ => mret (0, vector_out, None)
  end.

(** [*val_out]: the address of the element; pointer arithmetic in [int]. *)
Definition vector_borrow {T} (v : Vector T) (index : Z) : option Z :=
  off ← int_chk (index * elem_size v);
  Some (data v + off).

Definition vector_return {T} (v : Vector T) (index value : Z) : Vector T := v.

(** Reading and writing an element through a borrowed pointer. *)
Definition cell_index {T} (v : Vector T) (p : Z) : option Z :=
  let off := p - data v in
  if (0 <? elem_size v) && (off mod elem_size v =? 0) then Some (off / elem_size v) else None.

Definition deref {T} (v : Vector T) (p : Z) : option T :=
  i ← cell_index v p; rd (cells v) i.

Definition store {T} (v : Vector T) (p : Z) (x : T) : option (Vector T) :=
  i ← cell_index v p;
  cs ← wr (cells v) i x;
  Some (MkVector (data v) (elem_size v) (vec_capacity v) cs).

(** ** Properties *)

(** A vector as [vector_allocate] makes it; the bounds are the ones of its
    contract ([elem_size < 4096], [capacity <= VECTOR_CAPACITY_UPPER_LIMIT]). *)
Record vector_ok {T} (v : Vector T) : Prop := VectorOk {
  vo_elem : 0 < elem_size v < 4096;
  vo_cap : 0 ≤ vec_capacity v ≤ VECTOR_CAPACITY_UPPER_LIMIT;
  vo_len : zlen (cells v) = vec_capacity v
}.

(** The address of element [i]. *)
Definition addr {T} (v : Vector T) (i : Z) : Z := data v + i * elem_size v.

Section vectors.
Context {T : Type}.
Implicit Types (v : Vector T) (i j p : Z) (x : T).

Lemma vector_borrow_spec v i :
  vector_ok v → 0 ≤ i < vec_capacity v → vector_borrow v i = Some (addr v i).
Proof.
  intros [He Hc _] Hi. unfold vector_borrow, VECTOR_CAPACITY_UPPER_LIMIT in *.
  rewrite int_chk_small; [done|]. unfold INT_MIN, INT_MAX. nia.
Qed.

Lemma cell_index_addr v i : vector_ok v → cell_index v (addr v i) = Some i.
Proof.
  intros [He _ _]. unfold cell_index, addr.
  replace (data v + i * elem_size v - data v) with (i * elem_size v) by lia.
  rewrite Z.mod_mul, Z.div_mul by lia. destruct (Z.ltb_spec 0 (elem_size v)); [done|lia].
Qed.

Lemma deref_addr v i : vector_ok v → deref v (addr v i) = rd (cells v) i.
Proof. intros. unfold deref. by rewrite cell_index_addr. Qed.

Lemma deref_Some v p x :
  vector_ok v → deref v p = Some x → ∃ i, 0 ≤ i < vec_capacity v ∧ p = addr v i.
Proof.
  intros Hv. unfold deref, cell_index.
  destruct (Z.ltb_spec 0 (elem_size v)); simpl; [|done].
  destruct (Z.eqb_spec ((p - data v) mod elem_size v) 0) as [Hm|]; simpl; [|done].
  intros Hr%rd_Some_range. rewrite (vo_len _ Hv) in Hr.
  eexists. split; [done|]. unfold addr.
  rewrite (Z.mul_comm _ (elem_size v)). rewrite <- Z_div_exact_2 by lia. lia.
Qed.

Lemma addr_inj v i j : vector_ok v → addr v i = addr v j → i = j.
Proof. intros [He _ _]. unfold addr. nia. Qed.

(** [v] with element [i] replaced. *)
Definition vset v i x : Vector T :=
  MkVector (data v) (elem_size v) (vec_capacity v) (<[Z.to_nat i := x]> (cells v)).

Lemma store_addr v i x :
  vector_ok v → 0 ≤ i < vec_capacity v → store v (addr v i) x = Some (vset v i x).
Proof.
  intros Hv Hi. unfold store. rewrite cell_index_addr by done. cbn [mbind option_bind].
  rewrite wr_Some; [done|]. by rewrite (vo_len _ Hv).
Qed.

Lemma vset_ok v i x : vector_ok v → vector_ok (vset v i x).
Proof. intros [He Hc Hl]. constructor; simpl; [done..|]. by rewrite zlen_insert. Qed.

Lemma deref_vset v i j x :
  vector_ok v → 0 ≤ i < vec_capacity v →
  deref (vset v i x) (addr v j) = if i =? j then Some x else deref v (addr v j).
Proof.
  intros Hv Hi. change (addr v j) with (addr (vset v i x) j) at 1.
  rewrite deref_addr by by apply vset_ok. simpl.
  rewrite rd_insert by (by rewrite (vo_len _ Hv)). by rewrite deref_addr.
Qed.

Lemma vector_allocate_loop (f : Z → T) es cap base :
  0 < es < 4096 → 0 ≤ cap ≤ VECTOR_CAPACITY_UPPER_LIMIT →
  for_u32 (R := unit) 0 cap (λ i elems,
        off ← int_chk (es * i);
        Some (Continue (elems ++ [f (base + off)]))) [] =
  Some (Continue ((λ i, f (base + es * i)) <$> seqZ 0 cap)).
Proof.
  unfold VECTOR_CAPACITY_UPPER_LIMIT. intros He Hc.
  edestruct (for_u32_rule (R := unit)
    (λ i elems, elems = (λ i, f (base + es * i)) <$> seqZ 0 i) (λ _, False))
    as (o & -> & Ho); [lia|lia|done| |].
  - intros i elems Hi ->. rewrite int_chk_small by (unfold INT_MIN, INT_MAX; nia).
    cbn [mbind option_bind]. eexists. split; [done|]. simpl.
    rewrite (seqZ_app 0 i 1), fmap_app by lia. simpl. done.
  - destruct o as [elems|]; [|done]. by rewrite Ho.
Qed.

(** An allocation either fails without leaking, or yields a vector of initialised
    elements in two new blocks. *)
Lemma vector_allocate_spec (f : Z → T) es cap vector_out μ :
  mem_ok μ → 0 < es < 4096 → 0 ≤ cap ≤ VECTOR_CAPACITY_UPPER_LIMIT →
  ∃ res μ', vector_allocate es cap f vector_out μ = Some (res, μ') ∧ mem_ok μ' ∧
    ((res = (0, vector_out, None) ∧ live μ' = live μ) ∨
     (∃ out v, res = (1, out, Some v) ∧ out ≠ NULL ∧ live μ' = [data v; out] ++ live μ ∧ brk μ ≤ data v ∧
        vector_ok v ∧ elem_size v = es ∧ vec_capacity v = cap ∧
        cells v = (λ i, f (addr v i)) <$> seqZ 0 cap)).
Proof.
  intros Hok He Hc. unfold vector_allocate.
  mcase; [rewrite Z.eqb_refl; eexists _, _; split; [reflexivity|]; split; [done|]; by left|].
  rewrite not_null by done.
  mcase; [rewrite Z.eqb_refl; mfree; eexists _, _; split; [reflexivity|]; split; [done|]; left;
          split; [done|]; simpl; congruence|].
  rewrite not_null by done. mlift (vector_allocate_loop f es cap p0 He Hc).
  eexists _, _. split; [done|]. split; [done|]. right. eexists _, _. split; [done|].
  split_and!; simpl; [done|congruence|lia| |done..|].
  - constructor; simpl; [done..|]. apply zlen_fmap_seqZ. lia.
  - apply list_fmap_ext. intros _ i _. unfold addr. simpl. do 2 f_equal. lia.
Qed.

Lemma vector_allocate_grows es cap (f : Z → T) out : grows (vector_allocate es cap f out).
Proof. unfold vector_allocate. grow. Qed.

Lemma yields_vector_allocate {B} (f : Z → T) es cap out (k : Z * Z * option (Vector T) → M B)
    (Q : B → mem → Prop) μ :
  mem_ok μ → 0 < es < 4096 → 0 ≤ cap ≤ VECTOR_CAPACITY_UPPER_LIMIT →
  (∀ μ', later μ μ' → yields (k (0, out, None)) Q μ') →
  (∀ p v μ', later μ μ' → vector_ok v → elem_size v = es → vec_capacity v = cap → brk μ ≤ data v →
     cells v = (λ i, f (addr v i)) <$> seqZ 0 cap → yields (k (1, p, Some v)) Q μ') →
  yields (vector_allocate es cap f out ≫= k) Q μ.
Proof.
  intros Hok He Hc Hf Hs.
  destruct (vector_allocate_spec f es cap out μ Hok He Hc) as (res & μ' & Ha & _ & Hres).
  pose proof (grows_later _ _ _ _ (vector_allocate_grows es cap f out) Ha Hok) as Hl.
  eapply yields_bind; [exact Ha|].
  destruct Hres as [[-> _]|(p & v & -> & _ & _ & Hd & Hv & Hes & Hvc & Hcs)]; auto.
Qed.

End vectors.
