(* ===== verification/DChainImpl.v ===== *)
(** * double-chain-impl.c

    The index allocator underneath [DoubleChain]: an array of cells that carry
    two linked lists, both with a head cell in the array itself.  The allocated
    indexes form a doubly-linked circular list from cell 0, least recently used
    first; the free indexes form a singly-linked circular list from cell 1
    whose cells have [prev = next].  That convention is how the code tells an
    allocated cell from a free one.  Index [i] lives in cell [i + 2]. *)
From stdpp Require Import base list numbers sets.
From Stdlib Require Import ZArith Lia.
From S2P Require Import Prelude.

Record dchain_cell := Cell { prev : Z; next : Z }.

Definition DCHAIN_RESERVED : Z := 2.

Definition ALLOC_LIST_HEAD : Z := 0.

Definition FREE_LIST_HEAD : Z := 1.

Definition INDEX_SHIFT : Z := DCHAIN_RESERVED.

(** ** Field accesses: [cells[i].next] and [cells[i].prev] *)

Definition nxt (cells : list dchain_cell) (i : Z) : option Z :=
  c ← rd cells i; Some (next c).

Definition prv (cells : list dchain_cell) (i : Z) : option Z :=
  c ← rd cells i; Some (prev c).

Definition set_next (cells : list dchain_cell) (i x : Z) : option (list dchain_cell) :=
  c ← rd cells i; wr cells i (Cell (prev c) x).

Definition set_prev (cells : list dchain_cell) (i x : Z) : option (list dchain_cell) :=
  c ← rd cells i; wr cells i (Cell x (next c)).

(** ** Operations *)

Definition dchain_impl_init (cells : list dchain_cell) (size : Z)
    : option (list dchain_cell) :=
  cells ← set_prev cells ALLOC_LIST_HEAD 0;
  cells ← set_next cells ALLOC_LIST_HEAD 0;
  let i := INDEX_SHIFT in
  cells ← set_next cells FREE_LIST_HEAD i;
  n ← nxt cells FREE_LIST_HEAD;
  cells ← set_prev cells FREE_LIST_HEAD n;
  '(i, cells) ← iterate (S (Z.to_nat size)) (λ '(i, cells),
      if i <? size + INDEX_SHIFT - 1 then
        cells ← set_next cells i (i + 1);
        n ← nxt cells i;
        cells ← set_prev cells i n;
        Some (Continue (i + 1, cells))
      else Some (Return (i, cells))) (i, cells);
  cells ← set_next cells i FREE_LIST_HEAD;
  n ← nxt cells i;
  set_prev cells i n.

(** Returns the result, the cells and [*index]. *)
Definition dchain_impl_allocate_new_index (cells : list dchain_cell) (index : Z)
    : option (Z * list dchain_cell * Z) :=
  allocated ← nxt cells FREE_LIST_HEAD;
  if allocated =? FREE_LIST_HEAD then Some (0, cells, index) else
  an ← nxt cells allocated;
  cells ← set_next cells FREE_LIST_HEAD an;
  fn ← nxt cells FREE_LIST_HEAD;
  cells ← set_prev cells FREE_LIST_HEAD fn;
  cells ← set_next cells allocated ALLOC_LIST_HEAD;
  ap ← prv cells ALLOC_LIST_HEAD;
  cells ← set_prev cells allocated ap;
  ap ← prv cells ALLOC_LIST_HEAD;
  cells ← set_next cells ap allocated;
  cells ← set_prev cells ALLOC_LIST_HEAD allocated;
  Some (1, cells, allocated - INDEX_SHIFT).

Definition dchain_impl_free_index (cells : list dchain_cell) (index : Z)
    : option (Z * list dchain_cell) :=
  let freed := index + INDEX_SHIFT in
  freed_prev ← prv cells freed;
  freed_next ← nxt cells freed;
  if (freed_next =? freed_prev) && negb (freed_prev =? ALLOC_LIST_HEAD)
  then Some (0, cells) else
  cells ← set_next cells freed_prev freed_next;
  cells ← set_prev cells freed_next freed_prev;
  hn ← nxt cells FREE_LIST_HEAD;
  cells ← set_next cells freed hn;
  fn ← nxt cells freed;
  cells ← set_prev cells freed fn;
  cells ← set_next cells FREE_LIST_HEAD freed;
  hn ← nxt cells FREE_LIST_HEAD;
  cells ← set_prev cells FREE_LIST_HEAD hn;
  Some (1, cells).

(** Returns the result and [*index]. *)
Definition dchain_impl_get_oldest_index (cells : list dchain_cell) (index : Z)
    : option (Z * Z) :=
  n ← nxt cells ALLOC_LIST_HEAD;
  if n =? ALLOC_LIST_HEAD then Some (0, index) else Some (1, n - INDEX_SHIFT).

Definition dchain_impl_rejuvenate_index (cells : list dchain_cell) (index : Z)
    : option (Z * list dchain_cell) :=
  let lifted := index + INDEX_SHIFT in
  lifted_next ← nxt cells lifted;
  lifted_prev ← prv cells lifted;
  if lifted_next =? lifted_prev then
    if negb (lifted_next =? ALLOC_LIST_HEAD) then Some (0, cells) else Some (1, cells)
  else
  cells ← set_next cells lifted_prev lifted_next;
  cells ← set_prev cells lifted_next lifted_prev;
  al_head_prev ← prv cells ALLOC_LIST_HEAD;
  cells ← set_next cells lifted ALLOC_LIST_HEAD;
  cells ← set_prev cells lifted al_head_prev;
  cells ← set_next cells al_head_prev lifted;
  cells ← set_prev cells ALLOC_LIST_HEAD lifted;
  Some (1, cells).

Definition dchain_impl_is_index_allocated (cells : list dchain_cell) (index : Z)
    : option Z :=
  let lifted := index + INDEX_SHIFT in
  lifted_next ← nxt cells lifted;
  lifted_prev ← prv cells lifted;
  if lifted_next =? lifted_prev then
    if negb (lifted_next =? ALLOC_LIST_HEAD) then Some 0 else Some 1
  else Some 1.

(** ** Representation *)

(** [l] is the doubly-linked segment strictly between [p] and [q]. *)
Fixpoint dseg (c : list dchain_cell) (p : Z) (l : list Z) (q : Z) : Prop :=
  match l with
  | [] => nxt c p = Some q ∧ prv c q = Some p
  | x :: l' => nxt c p = Some x ∧ prv c x = Some p ∧ dseg c x l' q
  end.

(** [l] is the singly-linked segment strictly between [p] and [q]. *)
Fixpoint sseg (c : list dchain_cell) (p : Z) (l : list Z) (q : Z) : Prop :=
  match l with
  | [] => nxt c p = Some q
  | x :: l' => nxt c p = Some x ∧ sseg c x l' q
  end.

(** The cells of [range] indexes with the allocated cells [al] (oldest first)
    and the free cells [fl] (next to be allocated first). *)
Record dchain_rep (c : list dchain_cell) (range : Z) (al fl : list Z) : Prop := DchainRep {
  dr_range : 0 < range;
  dr_len : zlen c = range + INDEX_SHIFT;
  dr_perm : al ++ fl ≡ₚ seqZ INDEX_SHIFT range;
  dr_alloc : dseg c ALLOC_LIST_HEAD al ALLOC_LIST_HEAD;
  dr_free : sseg c FREE_LIST_HEAD fl FREE_LIST_HEAD;
  dr_mark : ∀ x, x ∈ FREE_LIST_HEAD :: fl → prv c x = nxt c x
}.

(** ** Linked segments *)

Fixpoint endof (p : Z) (l : list Z) : Z :=
  match l with [] => p | x :: l' => endof x l' end.

Definition headof (l : list Z) (q : Z) : Z :=
  match l with [] => q | x :: _ => x end.

Section segments.
Implicit Types (c : list dchain_cell) (p q x : Z) (l : list Z).

Lemma endof_in p l : endof p l ∈ p :: l.
Proof. revert p. induction l as [|y l IH]; intros p; simpl; set_solver. Qed.

Lemma headof_in l q : headof l q ∈ l ++ [q].
Proof. destruct l; set_solver. Qed.

Lemma endof_app p l x : endof p (l ++ [x]) = x.
Proof. revert p. induction l; simpl; auto. Qed.

Lemma dseg_app c p l1 x l2 q :
  dseg c p (l1 ++ x :: l2) q ↔ dseg c p l1 x ∧ dseg c x l2 q.
Proof. revert p. induction l1 as [|y l1 IH]; intros p; simpl; [tauto|]. rewrite IH. tauto. Qed.

Lemma dseg_last c p l q :
  dseg c p l q → nxt c (endof p l) = Some q ∧ prv c q = Some (endof p l).
Proof. revert p. induction l as [|y l IH]; intros p; simpl; [done|]. naive_solver. Qed.

Lemma dseg_first c p l q :
  dseg c p l q → nxt c p = Some (headof l q) ∧ prv c (headof l q) = Some p.
Proof. destruct l; simpl; naive_solver. Qed.

Lemma dseg_frame c c' p l q :
  (∀ x, x ∈ p :: l → nxt c' x = nxt c x) → (∀ x, x ∈ l ++ [q] → prv c' x = prv c x) →
  dseg c p l q → dseg c' p l q.
Proof.
  revert p. induction l as [|y l IH]; intros p Hn Hp; simpl.
  - rewrite Hn, Hp by set_solver. done.
  - rewrite (Hn p), (Hp y) by set_solver. intros (? & ? & ?). split_and!; [done..|].
    apply IH; set_solver.
Qed.

Lemma sseg_frame c c' p l q :
  (∀ x, x ∈ p :: l → nxt c' x = nxt c x) → sseg c p l q → sseg c' p l q.
Proof.
  revert p. induction l as [|y l IH]; intros p Hn; simpl.
  - by rewrite Hn by set_solver.
  - rewrite (Hn p) by set_solver. intros (? & ?). split; [done|]. apply IH; set_solver.
Qed.

Lemma sseg_first c p l q : sseg c p l q → nxt c p = Some (headof l q).
Proof. destruct l; simpl; naive_solver. Qed.

Lemma sseg_in c p l q x :
  sseg c p l q → x ∈ p :: l → ∃ y, nxt c x = Some y ∧ y ∈ l ++ [q].
Proof.
  revert p. induction l as [|y l IH]; intros p; simpl.
  - intros ? ->%list_elem_of_singleton. eexists. split; [done|set_solver].
  - intros [Hp Hs] [->|Hx]%elem_of_cons; [exists y; set_solver|].
    destruct (IH y Hs Hx) as (z & ? & ?). exists z. set_solver.
Qed.

(** Redirecting the end of a segment from [q] to [a]. *)
Lemma dseg_retarget c c' p l q a :
  NoDup (p :: l) → dseg c p l q →
  nxt c' (endof p l) = Some a → prv c' a = Some (endof p l) →
  (∀ x, x ∈ p :: l → x ≠ endof p l → nxt c' x = nxt c x) →
  (∀ x, x ∈ l → prv c' x = prv c x) →
  dseg c' p l a.
Proof.
  revert p. induction l as [|y l IH]; intros p Hnd Hd Hn Hp Hno Hpo; simpl in *; [done|].
  destruct Hd as (H1 & H2 & H3). apply NoDup_cons in Hnd as [Hnin Hnd].
  split_and!.
  - rewrite Hno; [done|set_solver|]. intros ->. by apply Hnin, endof_in.
  - rewrite Hpo; [done|set_solver].
  - apply IH; try done; set_solver.
Qed.

(** Unlinking [x]. *)
Lemma dseg_remove c c' p l1 x l2 q :
  NoDup (p :: l1 ++ x :: l2) → q ∉ l1 ++ x :: l2 → dseg c p (l1 ++ x :: l2) q →
  nxt c' (endof p l1) = Some (headof l2 q) → prv c' (headof l2 q) = Some (endof p l1) →
  (∀ y, y ∈ p :: l1 ++ l2 → y ≠ endof p l1 → nxt c' y = nxt c y) →
  (∀ y, y ∈ l1 ++ l2 ++ [q] → y ≠ headof l2 q → prv c' y = prv c y) →
  dseg c' p (l1 ++ l2) q.
Proof.
  intros Hnd Hq Hd Hn Hp Hno Hpo.
  apply dseg_app in Hd as [Hd1 Hd2].
  assert (NoDup (p :: l1)) as Hnd1.
  { rewrite app_comm_cons in Hnd. by apply NoDup_app in Hnd as (? & _ & _). }
  assert (∀ y, y ∈ p :: l1 → y ∉ l2) as Hdisj.
  { rewrite app_comm_cons in Hnd. apply NoDup_app in Hnd as (_ & Hd & _). set_solver. }
  pose proof (endof_in p l1) as Hend.
  destruct l2 as [|n l2]; simpl in *.
  - rewrite app_nil_r. eapply dseg_retarget; eauto; [set_solver|].
    intros y Hy. apply Hpo; set_solver.
  - destruct Hd2 as (_ & _ & Hd2). apply dseg_app. split.
    + eapply dseg_retarget; eauto; [set_solver|]. intros y Hy. apply Hpo; [set_solver|].
      intros ->. apply (Hdisj n); set_solver.
    + eapply dseg_frame; [| |done].
      * intros y Hy. apply Hno; [set_solver|]. intros ->. apply (Hdisj (endof p l1)); set_solver.
      * intros y Hy. apply Hpo; [set_solver|]. intros ->.
        rewrite !app_comm_cons, NoDup_app in Hnd. destruct Hnd as (_ & _ & Hnd).
        apply NoDup_cons in Hnd as [_ Hnd]. apply NoDup_cons in Hnd as [? _]. set_solver.
Qed.

(** Linking [x] at the end. *)
Lemma dseg_append c c' p l q x :
  NoDup (p :: l) → q ∉ l → x ∉ p :: l → x ≠ q → dseg c p l q →
  nxt c' (endof p l) = Some x → prv c' x = Some (endof p l) →
  nxt c' x = Some q → prv c' q = Some x →
  (∀ y, y ∈ p :: l → y ≠ endof p l → nxt c' y = nxt c y) →
  (∀ y, y ∈ l → prv c' y = prv c y) →
  dseg c' p (l ++ [x]) q.
Proof.
  intros Hnd Hql Hx Hxq Hd Hn Hp Hn2 Hp2 Hno Hpo. apply dseg_app. split; [|done].
  by eapply dseg_retarget.
Qed.

End segments.

(** ** Field updates *)

Lemma set_next_spec c i x :
  0 ≤ i < zlen c →
  ∃ c', set_next c i x = Some c' ∧ zlen c' = zlen c ∧
    (∀ j, nxt c' j = if i =? j then Some x else nxt c j) ∧ (∀ j, prv c' j = prv c j).
Proof.
  intros Hi. unfold set_next, nxt, prv. destruct (rd_Some c i Hi) as [y Hy].
  rewrite Hy. cbn [mbind option_bind]. rewrite wr_Some by done.
  eexists. split; [done|]. split; [by rewrite zlen_insert|].
  split; intros j; rewrite rd_insert by done; destruct (Z.eqb_spec i j) as [<-|]; try done.
  by rewrite Hy.
Qed.

Lemma set_prev_spec c i x :
  0 ≤ i < zlen c →
  ∃ c', set_prev c i x = Some c' ∧ zlen c' = zlen c ∧
    (∀ j, prv c' j = if i =? j then Some x else prv c j) ∧ (∀ j, nxt c' j = nxt c j).
Proof.
  intros Hi. unfold set_prev, nxt, prv. destruct (rd_Some c i Hi) as [y Hy].
  rewrite Hy. cbn [mbind option_bind]. rewrite wr_Some by done.
  eexists. split; [done|]. split; [by rewrite zlen_insert|].
  split; intros j; rewrite rd_insert by done; destruct (Z.eqb_spec i j) as [<-|]; try done.
  by rewrite Hy.
Qed.

(** Rewrites reads of updated cells to reads of the original ones. *)
Ltac cell_reads :=
  repeat match goal with
  | H : ∀ j, nxt ?c j = _ |- context [nxt ?c _] => rewrite H
  | H : ∀ j, prv ?c j = _ |- context [prv ?c _] => rewrite H
  end.

Ltac cell_cases :=
  cell_reads;
  repeat match goal with
  | |- context [?a =? ?b] => destruct (Z.eqb_spec a b)
  end; try congruence; try lia; try done.

(** Executes the next field assignment. *)
Ltac set_step :=
  lazymatch goal with
  | |- context [set_next ?c ?i ?x] =>
      let c' := fresh "c" in let E := fresh "E" in let L := fresh "L" in
      let N := fresh "N" in let P := fresh "P" in
      destruct (set_next_spec c i x) as (c' & E & L & N & P); [lia|];
      rewrite E; clear E; cbn [mbind option_bind]
  | |- context [set_prev ?c ?i ?x] =>
      let c' := fresh "c" in let E := fresh "E" in let L := fresh "L" in
      let N := fresh "N" in let P := fresh "P" in
      destruct (set_prev_spec c i x) as (c' & E & L & P & N); [lia|];
      rewrite E; clear E; cbn [mbind option_bind]
  end.

(** ** Correctness of the operations *)

Ltac unfold_heads := unfold ALLOC_LIST_HEAD, FREE_LIST_HEAD, INDEX_SHIFT, DCHAIN_RESERVED in *.

(** Evaluates the next field read of the goal. *)
Ltac get_step :=
  lazymatch goal with
  | |- context [mbind _ (nxt ?c ?i)] =>
      let y := fresh "y" in let E := fresh "E" in
      eassert (nxt c i = Some _) as E by (cell_cases; eassumption || reflexivity);
      rewrite E; clear E; cbn [mbind option_bind]
  | |- context [mbind _ (prv ?c ?i)] =>
      let y := fresh "y" in let E := fresh "E" in
      eassert (prv c i = Some _) as E by (cell_cases; eassumption || reflexivity);
      rewrite E; clear E; cbn [mbind option_bind]
  end.

Section operations.
Context (c : list dchain_cell) (range : Z) (al fl : list Z).
Hypothesis HR : dchain_rep c range al fl.

Lemma rep_elem x : x ∈ al ++ fl ↔ 2 ≤ x < range + 2.
Proof.
  rewrite (dr_perm _ _ _ _ HR). rewrite elem_of_seqZ. unfold_heads. lia.
Qed.

Lemma rep_NoDup : NoDup (al ++ fl).
Proof. rewrite (dr_perm _ _ _ _ HR). apply NoDup_seqZ. Qed.

Lemma rep_length : Z.of_nat (length al + length fl) = range.
Proof.
  rewrite <- length_app, (dr_perm _ _ _ _ HR), length_seqZ.
  pose proof (dr_range _ _ _ _ HR). lia.
Qed.

Lemma rep_alloc_elem x : x ∈ al → 2 ≤ x < range + 2.
Proof. intros. apply rep_elem. set_solver. Qed.

Lemma rep_free_elem x : x ∈ fl → 2 ≤ x < range + 2.
Proof. intros. apply rep_elem. set_solver. Qed.

Lemma rep_NoDup_head : NoDup (0 :: al).
Proof.
  apply NoDup_cons. split.
  - intros ?%rep_alloc_elem. lia.
  - pose proof rep_NoDup as Hn. by apply NoDup_app in Hn as (? & _).
Qed.

Lemma rep_disjoint x : x ∈ al → x ∈ fl → False.
Proof. pose proof rep_NoDup as Hn. apply NoDup_app in Hn. naive_solver. Qed.

Lemma rep_tail : endof 0 al ∈ 0 :: al ∧ endof 0 al ≠ 1 ∧ 0 ≤ endof 0 al < zlen c.
Proof.
  pose proof (endof_in 0 al) as Hin. split; [done|].
  pose proof (dr_len _ _ _ _ HR). pose proof (dr_range _ _ _ _ HR). unfold_heads.
  apply elem_of_cons in Hin as [->|Hin%rep_alloc_elem]; lia.
Qed.

Lemma allocate_full index :
  fl = [] → dchain_impl_allocate_new_index c index = Some (0, c, index).
Proof.
  intros ->. unfold dchain_impl_allocate_new_index.
  rewrite (sseg_first _ _ _ _ (dr_free _ _ _ _ HR)). done.
Qed.

Lemma allocate_some index a fl' :
  fl = a :: fl' →
  ∃ c', dchain_impl_allocate_new_index c index = Some (1, c', a - 2) ∧
        dchain_rep c' range (al ++ [a]) fl'.
Proof.
  intros Hfl. pose proof (dr_free _ _ _ _ HR) as Hs. rewrite Hfl in Hs.
  pose proof (dr_alloc _ _ _ _ HR) as Hd. pose proof (dr_len _ _ _ _ HR) as Hl.
  pose proof (dr_range _ _ _ _ HR) as Hr.
  pose proof rep_tail as (Htin & Ht1 & Htr). pose proof rep_NoDup_head as Hnd.
  destruct (dseg_last _ _ _ _ Hd) as [Hn0 Hp0].
  assert (a ∈ fl) as Haf by (rewrite Hfl; set_solver).
  pose proof (rep_free_elem a Haf) as Ha.
  assert (a ∉ al) as Hna by (intros ?; by apply (rep_disjoint a)).
  assert (NoDup (a :: fl')) as Hndf.
  { rewrite <- Hfl. pose proof rep_NoDup as Hn. by apply NoDup_app in Hn as (_ & _ & ?). }
  apply NoDup_cons in Hndf as [Hnaf _].
  assert (∀ x, x ∈ fl' → (x ∉ 0 :: al) ∧ 2 ≤ x) as Hfl'.
  { intros x Hx. assert (x ∈ fl) as Hxf by (rewrite Hfl; set_solver). pose proof (rep_free_elem x Hxf).
    split; [|lia]. intros [->|?]%elem_of_cons; [lia|]. by apply (rep_disjoint x). }
  unfold_heads. destruct Hs as [Hn1 Hs]. pose proof (sseg_first _ _ _ _ Hs) as Hna1.
  set (t := endof 0 al) in *. set (b := headof fl' 1) in *.
  assert (t ≠ a) as Hta by (intros <-; apply elem_of_cons in Htin as [?|?]; [lia|done]).
  unfold dchain_impl_allocate_new_index. unfold_heads.
  rewrite Hn1. cbn [mbind option_bind]. destruct (Z.eqb_spec a 1); [lia|].
  rewrite Hna1. cbn [mbind option_bind].
  set_step. get_step. set_step. set_step. get_step. set_step. get_step. set_step. set_step.
  eexists. split; [done|]. constructor.
  - done.
  - unfold_heads. lia.
  - rewrite <- app_assoc. simpl. rewrite <- Hfl. apply (dr_perm _ _ _ _ HR).
  - unfold_heads. eapply dseg_append; [exact Hnd| | | |exact Hd|..]; fold t.
    + by apply NoDup_cons in Hnd as [? _].
    + intros [->|?]%elem_of_cons; [lia|done].
    + lia.
    + cell_cases.
    + cell_cases.
    + cell_cases.
    + cell_cases.
    + intros y Hy Hyt. assert (y ≠ a ∧ y ≠ 1).
      { apply elem_of_cons in Hy as [->|Hy]; [lia|]. pose proof (rep_alloc_elem y Hy).
        split; [|lia]. by intros ->. }
      cell_cases.
    + intros y Hy. pose proof (rep_alloc_elem y Hy). assert (y ≠ a) by by intros ->.
      cell_cases.
  - unfold_heads. destruct fl' as [|x fl'].
    + simpl in *. cell_cases.
    + destruct Hs as [_ Hs]. split; [cell_cases|].
      eapply sseg_frame; [|done]. intros y Hy. destruct (Hfl' y Hy) as [? ?].
      assert (y ≠ t) by by intros ->. assert (y ≠ a) by by intros ->. cell_cases.
  - unfold_heads. intros y [->|Hy]%elem_of_cons; [cell_cases|].
    destruct (Hfl' y Hy) as [? ?]. assert (y ≠ t) by by intros ->.
    assert (y ≠ a) by by intros ->. assert (y ≠ 0) by lia.
    cell_cases. apply (dr_mark _ _ _ _ HR). unfold_heads. set_solver.
Qed.

(** The neighbours of an allocated cell. *)
Lemma alloc_neighbours l1 x l2 :
  al = l1 ++ x :: l2 →
  nxt c x = Some (headof l2 0) ∧ prv c x = Some (endof 0 l1) ∧
  (endof 0 l1 = headof l2 0 → l1 = [] ∧ l2 = []) ∧
  endof 0 l1 ∈ 0 :: l1 ∧ headof l2 0 ∈ l2 ++ [0].
Proof.
  intros Hal. pose proof (dr_alloc _ _ _ _ HR) as Hd. rewrite Hal in Hd.
  apply dseg_app in Hd as [Hd1 Hd2]. unfold_heads.
  pose proof (endof_in 0 l1) as He. pose proof (headof_in l2 0) as Hh.
  split_and!; [by apply (dseg_first _ _ _ _ Hd2)|by apply (dseg_last _ _ _ _ Hd1)| |done|done].
  intros Heq. pose proof rep_NoDup_head as Hnd. rewrite Hal, app_comm_cons in Hnd.
  apply NoDup_app in Hnd as (Hnd1 & Hdis & Hnd2).
  assert (∀ y, y ∈ l2 → y ∉ 0 :: l1) as Hdis2 by (intros y ? ?; apply (Hdis y); set_solver).
  split.
  - destruct l1 as [|y l1]; [done|]. exfalso. simpl in *.
    pose proof (endof_in y l1) as Hy. apply NoDup_cons in Hnd1 as [H0 _].
    rewrite Heq in Hy. destruct l2 as [|z l2]; simpl in *; [done|].
    apply (Hdis2 z); set_solver.
  - destruct l2 as [|z l2]; [done|]. exfalso. simpl in *. rewrite Heq in He.
    apply (Hdis2 z); set_solver.
Qed.

Lemma free_links x : x ∈ fl → ∃ y, nxt c x = Some y ∧ prv c x = Some y ∧ y ≠ 0.
Proof.
  intros Hx. pose proof (dr_mark _ _ _ _ HR x) as Hm.
  destruct (sseg_in _ _ _ _ x (dr_free _ _ _ _ HR)) as (y & Hy & Hin); [set_solver|].
  exists y. rewrite Hm, Hy by set_solver. split_and!; [done..|].
  apply elem_of_app in Hin as [?%rep_free_elem|?%list_elem_of_singleton]; unfold_heads; lia.
Qed.

(** The allocation test on an index of the range. *)
Lemma is_allocated_spec i :
  0 ≤ i < range →
  dchain_impl_is_index_allocated c i = Some (if decide (i + 2 ∈ al) then 1 else 0).
Proof.
  intros Hi. unfold dchain_impl_is_index_allocated. unfold_heads.
  destruct (decide (i + 2 ∈ al)) as [Hin|Hnin].
  - apply list_elem_of_split in Hin as (l1 & l2 & Hal).
    destruct (alloc_neighbours l1 _ l2 Hal) as (Hn & Hp & Heq & _).
    rewrite Hn, Hp. cbn [mbind option_bind].
    destruct (Z.eqb_spec (headof l2 0) (endof 0 l1)) as [He|]; [|done].
    destruct Heq as [-> ->]; [done|]. done.
  - assert (i + 2 ∈ fl) as Hf.
    { assert (i + 2 ∈ al ++ fl) as H' by (apply rep_elem; lia). set_solver. }
    destruct (free_links _ Hf) as (y & -> & -> & Hy). cbn [mbind option_bind].
    rewrite Z.eqb_refl. destruct (Z.eqb_spec y 0); [lia|done].
Qed.

Lemma oldest_spec index :
  dchain_impl_get_oldest_index c index =
    Some (match al with [] => (0, index) | x :: _ => (1, x - 2) end).
Proof.
  unfold dchain_impl_get_oldest_index.
  destruct (dseg_first _ _ _ _ (dr_alloc _ _ _ _ HR)) as [-> _]. cbn [mbind option_bind].
  unfold_heads. pose proof rep_alloc_elem as Hel. destruct al as [|x al']; [done|].
  simpl headof. specialize (Hel x). destruct (Z.eqb_spec x 0); [|done].
  destruct Hel; [set_solver|lia].
Qed.

Lemma free_not_allocated i :
  i + 2 ∈ fl → dchain_impl_free_index c i = Some (0, c).
Proof.
  intros Hf. unfold dchain_impl_free_index. unfold_heads.
  destruct (free_links _ Hf) as (y & -> & -> & Hy). cbn [mbind option_bind].
  rewrite Z.eqb_refl. destruct (Z.eqb_spec y 0); [lia|done].
Qed.

(** The cells around an allocated cell [x]. *)
Lemma alloc_split l1 x l2 :
  al = l1 ++ x :: l2 →
  2 ≤ x < range + 2 ∧ NoDup (0 :: l1 ++ l2) ∧
  (∀ y, y ∈ l1 ++ l2 → 2 ≤ y < range + 2 ∧ y ≠ x ∧ y ∈ al) ∧
  (∀ y, y ∈ fl → 2 ≤ y ∧ y ≠ x ∧ y ∉ al).
Proof.
  intros Hal. assert (x ∈ al) as Hx by (rewrite Hal; set_solver).
  pose proof rep_NoDup_head as Hnd. rewrite Hal, <- Permutation_middle in Hnd.
  apply NoDup_cons in Hnd as [H0 [Hxn Hnd]%NoDup_cons].
  split_and!; [by apply rep_alloc_elem..| | |].
  - apply NoDup_cons. split; [set_solver|done].
  - intros y Hy. assert (y ∈ al) as Hya by (rewrite Hal; set_solver).
    split_and!; [by apply rep_alloc_elem..| |done]. by intros ->.
  - intros y Hy. pose proof (rep_free_elem y Hy). split_and!; [lia| |].
    + intros ->. by apply (rep_disjoint x).
    + intros ?. by apply (rep_disjoint y).
Qed.

Lemma alloc_links l1 x l2 :
  al = l1 ++ x :: l2 →
  (endof 0 l1 = 0 ∨ endof 0 l1 ∈ l1 ++ l2) ∧ (headof l2 0 = 0 ∨ headof l2 0 ∈ l1 ++ l2) ∧
  (0 ≤ endof 0 l1 < range + 2 ∧ endof 0 l1 ≠ x ∧ endof 0 l1 ≠ 1) ∧
  (0 ≤ headof l2 0 < range + 2 ∧ headof l2 0 ≠ x ∧ headof l2 0 ≠ 1).
Proof.
  intros Hal. destruct (alloc_neighbours _ _ _ Hal) as (_ & _ & _ & Hte & Hhe).
  destruct (alloc_split _ _ _ Hal) as (Hx & _ & Hel & _). pose proof (dr_range _ _ _ _ HR).
  assert (endof 0 l1 = 0 ∨ endof 0 l1 ∈ l1 ++ l2) as Ht by set_solver.
  assert (headof l2 0 = 0 ∨ headof l2 0 ∈ l1 ++ l2) as Hn by set_solver.
  assert (∀ y, y = 0 ∨ y ∈ l1 ++ l2 → 0 ≤ y < range + 2 ∧ y ≠ x ∧ y ≠ 1) as Hr
    by (intros y [->|(? & ? & ?)%Hel]; lia).
  auto.
Qed.

(** Unlinking an allocated cell from the allocated list. *)
Lemma unlink_spec l1 x l2 c' :
  al = l1 ++ x :: l2 →
  (∀ j, j ≠ 1 → j ≠ x →
     nxt c' j = if endof 0 l1 =? j then Some (headof l2 0) else nxt c j) →
  (∀ j, j ≠ 1 → j ≠ x →
     prv c' j = if headof l2 0 =? j then Some (endof 0 l1) else prv c j) →
  dseg c' 0 (l1 ++ l2) 0.
Proof.
  intros Hal HN HP. pose proof (dr_alloc _ _ _ _ HR) as Hd. unfold_heads.
  destruct (alloc_split _ _ _ Hal) as (Hx & _ & Hel & _).
  destruct (alloc_links _ _ _ Hal) as (_ & _ & (? & ? & ?) & (? & ? & ?)).
  pose proof rep_NoDup_head as Hnd.
  eapply dseg_remove; [| |rewrite Hal in Hd; exact Hd|..].
  - by rewrite <- Hal.
  - rewrite <- Hal. by apply NoDup_cons in Hnd as [? _].
  - rewrite HN by done. by rewrite Z.eqb_refl.
  - rewrite HP by done. by rewrite Z.eqb_refl.
  - intros y Hy Hyt. assert (y = 0 ∨ y ∈ l1 ++ l2) as [->|(? & ? & ?)%Hel] by set_solver;
      rewrite HN by lia; cell_cases.
  - intros y Hy Hyt. assert (y = 0 ∨ y ∈ l1 ++ l2) as [->|(? & ? & ?)%Hel] by set_solver;
      rewrite HP by lia; cell_cases.
Qed.

Lemma free_allocated i l1 l2 :
  al = l1 ++ (i + 2) :: l2 →
  ∃ c', dchain_impl_free_index c i = Some (1, c') ∧
        dchain_rep c' range (l1 ++ l2) ((i + 2) :: fl).
Proof.
  intros Hal. destruct (alloc_neighbours _ _ _ Hal) as (Hn & Hp & Heq & _).
  destruct (alloc_split _ _ _ Hal) as (Hx & _ & Hel & Hfe).
  destruct (alloc_links _ _ _ Hal) as (Ht & Hn' & Htr & Hnr).
  pose proof (dr_free _ _ _ _ HR) as Hs.
  pose proof (dr_len _ _ _ _ HR) as Hl. pose proof (dr_range _ _ _ _ HR) as Hr.
  pose proof (λ c', unlink_spec _ _ _ c' Hal) as Hunl.
  set (x := i + 2) in *. set (t := endof 0 l1) in *. set (n := headof l2 0) in *.
  assert (∀ y, y ∈ fl → 2 ≤ y ∧ y ≠ x ∧ y ≠ t ∧ y ≠ n) as Hfl.
  { intros y (? & ? & Hya)%Hfe. split_and!; [done..| |]; intros ->;
      [destruct Ht as [?|?%Hel]|destruct Hn' as [?|?%Hel]]; lia || naive_solver. }
  unfold dchain_impl_free_index. unfold_heads. fold x.
  pose proof (sseg_first _ _ _ _ Hs) as Hs1. set (f := headof fl 1) in *.
  rewrite Hp, Hn. cbn [mbind option_bind].
  assert ((n =? t) && negb (t =? 0) = false) as ->.
  { destruct (Z.eqb_spec n t) as [E|]; [|done]. destruct Heq as [-> ->]; [done|].
    subst t. done. }
  set_step. set_step. get_step. set_step. get_step. set_step. set_step. get_step. set_step.
  eexists. split; [done|]. constructor.
  - done.
  - unfold_heads. lia.
  - rewrite <- (dr_perm _ _ _ _ HR), Hal, <- !app_assoc. simpl.
    rewrite <- !Permutation_middle. done.
  - unfold_heads. apply Hunl; intros; cell_cases.
  - unfold_heads. split; [cell_cases|]. clear HR. destruct fl as [|z fl'].
    + simpl. cell_cases.
    + simpl in Hs. destruct Hs as [_ Hs]. split; [cell_cases|].
      eapply sseg_frame; [|done]. intros y (? & ? & ? & ?)%Hfl. cell_cases.
  - unfold_heads. intros y [->|[->|Hy]%elem_of_cons]%elem_of_cons; [cell_cases..|].
    destruct (Hfl y Hy) as (? & ? & ? & ?).
    cell_cases. apply (dr_mark _ _ _ _ HR). unfold_heads. set_solver.
Qed.

Lemma rejuvenate_not_allocated i :
  i + 2 ∈ fl → dchain_impl_rejuvenate_index c i = Some (0, c).
Proof.
  intros Hf. unfold dchain_impl_rejuvenate_index. unfold_heads.
  destruct (free_links _ Hf) as (y & -> & -> & Hy). cbn [mbind option_bind].
  rewrite Z.eqb_refl. destruct (Z.eqb_spec y 0); [lia|done].
Qed.

Lemma rejuvenate_allocated i l1 l2 :
  al = l1 ++ (i + 2) :: l2 →
  ∃ c', dchain_impl_rejuvenate_index c i = Some (1, c') ∧
        dchain_rep c' range (l1 ++ l2 ++ [i + 2]) fl.
Proof.
  intros Hal. destruct (alloc_neighbours _ _ _ Hal) as (Hn & Hp & Heq & _).
  destruct (alloc_split _ _ _ Hal) as (Hx & Hnd & Hel & Hfe).
  destruct (alloc_links _ _ _ Hal) as (Ht & Hn' & Htr & Hnr).
  pose proof (dr_len _ _ _ _ HR) as Hl. pose proof (dr_range _ _ _ _ HR) as Hr.
  unfold dchain_impl_rejuvenate_index. unfold_heads.
  set (x := i + 2) in *. set (t := endof 0 l1) in *. set (n := headof l2 0) in *.
  rewrite Hp, Hn. cbn [mbind option_bind].
  destruct (Z.eqb_spec n t) as [E|Hnt].
  { destruct Heq as [-> ->]; [done|]. simpl in *. eexists.
    split; [by subst n|]. by rewrite <- Hal. }
  set_step. set_step.
  assert (dseg c1 0 (l1 ++ l2) 0) as Hd by (eapply unlink_spec; eauto; intros; cell_cases).
  destruct (dseg_last _ _ _ _ Hd) as [_ Hp0]. set (e := endof 0 (l1 ++ l2)) in *.
  assert (e = 0 ∨ e ∈ l1 ++ l2) as He by (pose proof (endof_in 0 (l1 ++ l2)); set_solver).
  assert (0 ≤ e < range + 2 ∧ e ≠ x ∧ e ≠ 1) as Her
    by (destruct He as [->|(? & ? & ?)%Hel]; lia).
  assert (∀ y, y ∈ fl → 2 ≤ y ∧ y ≠ x ∧ y ≠ t ∧ y ≠ n ∧ y ≠ e) as Hfl.
  { intros y (? & ? & Hya)%Hfe. split_and!; [done..| | |]; intros ->;
      [destruct Ht as [?|?%Hel]|destruct Hn' as [?|?%Hel]|destruct He as [?|?%Hel]];
      lia || naive_solver. }
  rewrite Hp0. cbn [mbind option_bind]. set_step. set_step. set_step. set_step.
  eexists. split; [done|]. constructor.
  - done.
  - unfold_heads. lia.
  - rewrite <- (dr_perm _ _ _ _ HR), Hal, <- !app_assoc. simpl.
    rewrite <- !Permutation_middle. done.
  - unfold_heads. rewrite app_assoc.
    eapply dseg_append; [exact Hnd| | | |exact Hd|..]; fold e.
    + by apply NoDup_cons in Hnd as [? _].
    + intros [->|(? & ? & ?)%Hel]%elem_of_cons; lia.
    + lia.
    + cell_cases.
    + cell_cases.
    + cell_cases.
    + cell_cases.
    + intros y Hy Hye. assert (y = 0 ∨ y ∈ l1 ++ l2) as [->|(? & ? & ?)%Hel] by set_solver;
        cell_cases.
    + intros y (? & ? & ?)%Hel. cell_cases.
  - unfold_heads. eapply sseg_frame; [|exact (dr_free _ _ _ _ HR)].
    intros y [->|(? & ? & ? & ? & ?)%Hfl]%elem_of_cons; unfold_heads; cell_cases.
  - unfold_heads. intros y Hy. assert (y ≠ x ∧ y ≠ t ∧ y ≠ n ∧ y ≠ e ∧ y ≠ 0).
    { apply elem_of_cons in Hy as [->|(? & ? & ? & ? & ?)%Hfl]; lia. }
    destruct_and!. cell_cases. by apply (dr_mark _ _ _ _ HR).
Qed.

End operations.

(** ** Initialisation *)

Lemma sseg_seqZ c (n : nat) p a q :
  nxt c p = Some a →
  (∀ j, a ≤ j < a + Z.of_nat n → nxt c j = Some (j + 1)) → nxt c (a + Z.of_nat n) = Some q →
  sseg c p (seqZ a (Z.of_nat n + 1)) q.
Proof.
  revert p a. induction n as [|n IH]; intros p a Hp Hj Hq.
  - rewrite seqZ_cons by lia. simpl. simpl in Hq. rewrite Z.add_0_r in Hq. auto.
  - rewrite seqZ_cons by lia. simpl sseg. split; [done|].
    replace (Z.pred (Z.of_nat (S n) + 1)) with (Z.of_nat n + 1) by lia.
    rewrite <- Z.add_1_r. apply IH.
    + apply Hj. lia.
    + intros j Hj'. apply Hj. lia.
    + rewrite <- Hq. f_equal. lia.
Qed.

(** The loop of [dchain_impl_init] links the free cells in order. *)
Definition init_links (c : list dchain_cell) (range i : Z) : Prop :=
  zlen c = range + 2 ∧ 2 ≤ i ≤ range + 1 ∧
  nxt c 0 = Some 0 ∧ prv c 0 = Some 0 ∧ nxt c 1 = Some 2 ∧ prv c 1 = Some 2 ∧
  ∀ j, 2 ≤ j < i → nxt c j = Some (j + 1) ∧ prv c j = Some (j + 1).

Lemma init_spec c range :
  0 < range → zlen c = range + 2 →
  ∃ c', dchain_impl_init c range = Some c' ∧ dchain_rep c' range [] (seqZ 2 range).
Proof.
  intros Hr Hl. unfold dchain_impl_init. unfold_heads. cbn zeta.
  set_step. set_step. set_step. get_step. set_step.
  edestruct (iterate_rule (λ '(i, c), init_links c range i)
     (λ '(i, c), init_links c range i ∧ i = range + 1)
     (λ '(i, _), Z.to_nat (range + 1 - i))) as ([i c'] & -> & Hi & Heq).
  - intros [i c'] (L' & Hi & H1 & H2 & H3 & H4 & Hj).
    destruct (Z.ltb_spec i (range + 2 - 1)).
    + set_step. get_step. set_step. eexists. split; [done|]. cbn beta iota.
      split; [|lia]. split_and!; try lia; try cell_cases.
      intros j ?. destruct (Z.eq_dec i j) as [->|]; [split; cell_cases|].
      destruct (Hj j); [lia|]. split; cell_cases.
    + eexists. split; [done|]. split; [|lia]. split_and!; auto; lia.
  - split_and!; try lia; try cell_cases.
  - cbn beta iota. lia.
  - cbn [mbind option_bind]. destruct Hi as (L' & Hi & H1 & H2 & H3 & H4 & Hj).
    set_step. get_step. set_step.
    eexists. split; [done|]. constructor.
    + done.
    + unfold_heads. lia.
    + done.
    + split; unfold_heads; cell_cases.
    + unfold_heads. replace range with (Z.of_nat (Z.to_nat (range - 1)) + 1) by lia.
      apply sseg_seqZ; [cell_cases|..].
      * intros j ?. destruct (Hj j); [lia|]. cell_cases.
      * cell_cases.
    + unfold_heads. intros y [->|Hy%elem_of_seqZ]%elem_of_cons; [cell_cases|].
      destruct (Z.eq_dec y i) as [->|]; [cell_cases|].
      destruct (Hj y); [lia|]. cell_cases.
Qed.
