(* ===== verification/DChain.v ===== *)
(** * double-chain.c

    [DoubleChain]: the index allocator with a timestamp per index.  Indexes are
    allocated and rejuvenated with the current time and expire oldest first. *)
From stdpp Require Import base list numbers sets.
From Stdlib Require Import ZArith Lia.
From S2P Require Import Prelude.
From S2P Require Import Memory.
From S2P Require Import DChainImpl.

Record DoubleChain := MkChain {
  chain_cells : list dchain_cell;
  timestamps : list Z
}.

Definition IRANG_LIMIT : Z := 1048576.

(** Cells read from uninitialised memory: two consecutive [int]s each. *)
Definition junk_cells (a n : Z) : M (list dchain_cell) := λ μ,
  Some ((λ i, Cell (junk μ (a + 8 * i)) (junk μ (a + 8 * i + 4))) <$> seqZ 0 n, μ).

(** Returns the result, [*chain_out] and the chain behind it on success. *)
Definition dchain_allocate (index_range chain_out : Z)
    : M (Z * Z * option DoubleChain) :=
  let old_chain_out := chain_out in
  chain_alloc ← malloc 16;
  if chain_alloc =? NULL then mret (0, chain_out, None) else
  cells_alloc ← malloc (u64 (8 * (index_range + DCHAIN_RESERVED)));
  if cells_alloc =? NULL then
    _ ← free chain_alloc;
    mret (0, old_chain_out, None) else
  timestamps_alloc ← malloc (u64 (8 * index_range));
  if timestamps_alloc =? NULL then
    _ ← free cells_alloc; _ ← free chain_alloc;
    mret (0, old_chain_out, None) else
  cells ← junk_cells cells_alloc (index_range + DCHAIN_RESERVED);
  tstamps ← junk_array 8 timestamps_alloc index_range;
  cells' ← lift (dchain_impl_init cells index_range);
  mret (1, chain_alloc, Some (MkChain cells' tstamps)).

(** Returns the result, the chain and [*index_out]. *)
Definition dchain_allocate_new_index (chain : DoubleChain) (index_out time : Z)
    : option (Z * DoubleChain * Z) :=
  '(ret, cells, index) ← dchain_impl_allocate_new_index (chain_cells chain) index_out;
  if negb (ret =? 0) then
    ts ← wr (timestamps chain) index time;
    Some (ret, MkChain cells ts, index)
  else Some (ret, MkChain cells (timestamps chain), index).

Definition dchain_rejuvenate_index (chain : DoubleChain) (index time : Z)
    : option (Z * DoubleChain) :=
  '(ret, cells) ← dchain_impl_rejuvenate_index (chain_cells chain) index;
  if negb (ret =? 0) then
    ts ← wr (timestamps chain) index time;
    Some (ret, MkChain cells ts)
  else Some (ret, MkChain cells (timestamps chain)).

(** Returns the result, the chain and [*index_out]. *)
Definition dchain_expire_one_index (chain : DoubleChain) (index_out time : Z)
    : option (Z * DoubleChain * Z) :=
  '(has_ind, index) ← dchain_impl_get_oldest_index (chain_cells chain) index_out;
  if negb (has_ind =? 0) then
    t ← rd (timestamps chain) index;
    if t <? time then
      '(rez, cells) ← dchain_impl_free_index (chain_cells chain) index;
      Some (rez, MkChain cells (timestamps chain), index)
    else Some (0, chain, index)
  else Some (0, chain, index).

Definition dchain_is_index_allocated (chain : DoubleChain) (index : Z) : option Z :=
  dchain_impl_is_index_allocated (chain_cells chain) index.

Definition dchain_free_index (chain : DoubleChain) (index : Z)
    : option (Z * DoubleChain) :=
  '(ret, cells) ← dchain_impl_free_index (chain_cells chain) index;
  Some (ret, MkChain cells (timestamps chain)).

(** ** The abstract allocator

    The state is the list of allocated indexes with their timestamps, least
    recently used first, and the list of free indexes, next to be given out
    first. *)

Record lru := Lru { alist : list (Z * Z); frees : list Z }.

Definition lru_allocated (s : lru) (i : Z) : bool := bool_decide (i ∈ (alist s).*1).

Definition remove_by_index (i : Z) (l : list (Z * Z)) : list (Z * Z) :=
  filter (λ p, p.1 ≠ i) l.

Definition lru_init (range : Z) : lru := Lru [] (seqZ 0 range).

Definition lru_allocate (s : lru) (index_out time : Z) : Z * lru * Z :=
  match frees s with
  | [] => (0, s, index_out)
  | i :: fs => (1, Lru (alist s ++ [(i, time)]) fs, i)
  end.

Definition lru_rejuvenate (s : lru) (i time : Z) : Z * lru :=
  if lru_allocated s i
  then (1, Lru (remove_by_index i (alist s) ++ [(i, time)]) (frees s)) else (0, s).

Definition lru_free (s : lru) (i : Z) : Z * lru :=
  if lru_allocated s i
  then (1, Lru (remove_by_index i (alist s)) (i :: frees s)) else (0, s).

Definition lru_expire_one (s : lru) (index_out time : Z) : Z * lru * Z :=
  match alist s with
  | [] => (0, s, index_out)
  | (i, t) :: rest => if t <? time then (1, Lru rest (i :: frees s), i) else (0, s, i)
  end.

(** ** Representation *)

Definition shift (i : Z) : Z := i + INDEX_SHIFT.

Record double_chainp (ch : DoubleChain) (range : Z) (s : lru) : Prop := DoubleChainp {
  dc_range : 0 < range ≤ IRANG_LIMIT;
  dc_cells : dchain_rep (chain_cells ch) range (shift <$> (alist s).*1) (shift <$> frees s);
  dc_len : zlen (timestamps ch) = range;
  dc_times : ∀ i t, (i, t) ∈ alist s → rd (timestamps ch) i = Some t
}.

#[export] Instance shift_inj : Inj (=) (=) shift.
Proof. intros a b. unfold shift. lia. Qed.

Section chains.
Context (ch : DoubleChain) (range : Z) (s : lru).
Hypothesis HC : double_chainp ch range s.

Lemma chain_elem i : i ∈ (alist s).*1 ++ frees s ↔ 0 ≤ i < range.
Proof.
  pose proof (rep_elem _ _ _ _ (dc_cells _ _ _ HC) (shift i)) as He.
  rewrite <- fmap_app in He. unfold shift, INDEX_SHIFT, DCHAIN_RESERVED in *.
  transitivity (2 ≤ i + 2 < range + 2); [|lia]. rewrite <- He.
  rewrite list_elem_of_fmap. split; [by exists i|].
  intros (j & ? & ?). by assert (j = i) as -> by lia.
Qed.

Lemma chain_NoDup : NoDup ((alist s).*1 ++ frees s).
Proof.
  pose proof (rep_NoDup _ _ _ _ (dc_cells _ _ _ HC)) as Hn.
  rewrite <- fmap_app in Hn. by apply NoDup_fmap_1 in Hn.
Qed.

Lemma chain_index_range i : i ∈ (alist s).*1 → 0 ≤ i < range.
Proof. intros. apply chain_elem. set_solver. Qed.

Lemma chain_length : Z.of_nat (length (alist s) + length (frees s)) = range.
Proof.
  pose proof (rep_length _ _ _ _ (dc_cells _ _ _ HC)) as Hl.
  by rewrite !length_fmap in Hl.
Qed.

Lemma chain_free_or_allocated i : 0 ≤ i < range → i ∉ (alist s).*1 → i ∈ frees s.
Proof. intros Hi%chain_elem Hn. set_solver. Qed.

(** An allocated index splits the list of allocated indexes around it. *)
Lemma chain_split i :
  i ∈ (alist s).*1 →
  ∃ l1 t l2, alist s = l1 ++ (i, t) :: l2 ∧ remove_by_index i (alist s) = l1 ++ l2.
Proof.
  intros ([i' t] & -> & Hin)%list_elem_of_fmap.
  apply list_elem_of_split in Hin as (l1 & l2 & Hl). exists l1, t, l2. split; [done|].
  pose proof chain_NoDup as Hn. apply NoDup_app in Hn as (Hn & _ & _).
  rewrite Hl in *. rewrite fmap_app, fmap_cons, <- Permutation_middle in Hn.
  apply NoDup_cons in Hn as [Hnin _].
  unfold remove_by_index. rewrite filter_app, filter_cons_False by (simpl; auto).
  rewrite !filter_all; [done|..]; intros p Hp Heq; apply Hnin; rewrite <- Heq;
    rewrite elem_of_app; [right|left]; by apply list_elem_of_fmap_2.
Qed.

Lemma shift_split l1 i t l2 :
  alist s = l1 ++ (i, t) :: l2 →
  shift <$> (alist s).*1 = (shift <$> l1.*1) ++ (i + 2) :: (shift <$> l2.*1).
Proof. intros ->. by rewrite fmap_app, fmap_app. Qed.

(** *** Every operation refines its abstract counterpart *)

Lemma allocate_refines index_out time :
  let '(ret, s', idx) := lru_allocate s index_out time in
  ∃ ch', dchain_allocate_new_index ch index_out time = Some (ret, ch', idx) ∧
         double_chainp ch' range s'.
Proof.
  unfold lru_allocate, dchain_allocate_new_index. pose proof (dc_cells _ _ _ HC) as HR.
  destruct (frees s) as [|i fs] eqn:Hf.
  - rewrite (allocate_full _ _ _ _ HR) by done. simpl. eexists. split; [done|].
    destruct HC, ch. done.
  - destruct (allocate_some _ _ _ _ HR index_out (shift i) (shift <$> fs))
      as (c' & -> & HR'); [done|]. cbn [mbind option_bind].
    replace (shift i - 2) with i by (unfold shift, INDEX_SHIFT, DCHAIN_RESERVED; lia).
    assert (i ∈ frees s) as Hi by (rewrite Hf; by left).
    pose proof chain_NoDup as Hnd. apply NoDup_app in Hnd as (_ & Hdis & _).
    assert (0 ≤ i < range) as Hr by (apply chain_elem; set_solver).
    simpl. rewrite wr_Some by (by rewrite (dc_len _ _ _ HC)). cbn [mbind option_bind].
    eexists. split; [done|]. constructor; simpl.
    + apply (dc_range _ _ _ HC).
    + rewrite fmap_app, fmap_app. done.
    + rewrite zlen_insert. apply (dc_len _ _ _ HC).
    + intros j t [Hj|Heq%list_elem_of_singleton]%elem_of_app.
      * rewrite rd_insert_ne; [by apply (dc_times _ _ _ HC)|lia|]. intros ->.
        apply (Hdis j); [|done]. by apply (list_elem_of_fmap_2 fst _ (j, t)).
      * simplify_eq. apply rd_insert_eq. by rewrite (dc_len _ _ _ HC).
Qed.

Lemma rejuvenate_refines i time :
  0 ≤ i < range →
  let '(ret, s') := lru_rejuvenate s i time in
  ∃ ch', dchain_rejuvenate_index ch i time = Some (ret, ch') ∧ double_chainp ch' range s'.
Proof.
  intros Hi. unfold lru_rejuvenate, dchain_rejuvenate_index, lru_allocated.
  pose proof (dc_cells _ _ _ HC) as HR. case_bool_decide as Ha.
  - destruct (chain_split i Ha) as (l1 & t & l2 & Hl & ->).
    destruct (rejuvenate_allocated _ _ _ _ HR i (shift <$> l1.*1) (shift <$> l2.*1))
      as (c' & -> & HR'); [by eapply shift_split|].
    simpl. rewrite wr_Some by (by rewrite (dc_len _ _ _ HC)). cbn [mbind option_bind].
    eexists. split; [done|]. constructor; simpl.
    + apply (dc_range _ _ _ HC).
    + rewrite !fmap_app, <- app_assoc. done.
    + rewrite zlen_insert. apply (dc_len _ _ _ HC).
    + intros j t' [Hj|Heq%list_elem_of_singleton]%elem_of_app.
      * rewrite rd_insert_ne; [apply (dc_times _ _ _ HC); rewrite Hl; set_solver|lia|].
        intros ->. pose proof chain_NoDup as Hn. apply NoDup_app in Hn as (Hn & _ & _).
        rewrite Hl, fmap_app, fmap_cons, <- Permutation_middle in Hn.
        apply NoDup_cons in Hn as [Hnin _]. apply Hnin. rewrite <- fmap_app.
        by apply (list_elem_of_fmap_2 fst _ (j, t')).
      * simplify_eq. apply rd_insert_eq. by rewrite (dc_len _ _ _ HC).
  - rewrite (rejuvenate_not_allocated _ _ _ _ HR).
    + simpl. eexists. split; [done|]. destruct HC, ch. done.
    + apply (list_elem_of_fmap_2 shift). by apply chain_free_or_allocated.
Qed.

Lemma free_refines i :
  0 ≤ i < range →
  let '(ret, s') := lru_free s i in
  ∃ ch', dchain_free_index ch i = Some (ret, ch') ∧ double_chainp ch' range s'.
Proof.
  intros Hi. unfold lru_free, dchain_free_index, lru_allocated.
  pose proof (dc_cells _ _ _ HC) as HR. case_bool_decide as Ha.
  - destruct (chain_split i Ha) as (l1 & t & l2 & Hl & ->).
    destruct (free_allocated _ _ _ _ HR i (shift <$> l1.*1) (shift <$> l2.*1))
      as (c' & -> & HR'); [by eapply shift_split|].
    simpl. eexists. split; [done|]. constructor; simpl.
    + apply (dc_range _ _ _ HC).
    + by rewrite !fmap_app.
    + apply (dc_len _ _ _ HC).
    + intros j t' Hj. apply (dc_times _ _ _ HC). rewrite Hl. set_solver.
  - rewrite (free_not_allocated _ _ _ _ HR).
    + simpl. eexists. split; [done|]. destruct HC, ch. done.
    + apply (list_elem_of_fmap_2 shift). by apply chain_free_or_allocated.
Qed.

Lemma expire_one_refines index_out time :
  let '(ret, s', idx) := lru_expire_one s index_out time in
  ∃ ch', dchain_expire_one_index ch index_out time = Some (ret, ch', idx) ∧
         double_chainp ch' range s'.
Proof.
  unfold lru_expire_one, dchain_expire_one_index. pose proof (dc_cells _ _ _ HC) as HR.
  rewrite (oldest_spec _ _ _ _ HR). destruct (alist s) as [|[i t] rest] eqn:Hl.
  - simpl. eauto.
  - cbn [mbind option_bind fmap list_fmap fst].
    replace (shift i - 2) with i by (unfold shift, INDEX_SHIFT, DCHAIN_RESERVED; lia).
    simpl. rewrite (dc_times _ _ _ HC i t) by (rewrite Hl; by left). cbn [mbind option_bind].
    destruct (t <? time); [|by eauto].
    destruct (free_allocated _ _ _ _ HR i [] (shift <$> rest.*1)) as (c' & -> & HR');
      [done|].
    simpl. eexists. split; [done|]. constructor; simpl.
    + apply (dc_range _ _ _ HC).
    + done.
    + apply (dc_len _ _ _ HC).
    + intros j t' Hj. apply (dc_times _ _ _ HC). rewrite Hl. by right.
Qed.

Lemma is_allocated_refines i :
  0 ≤ i < range →
  dchain_is_index_allocated ch i = Some (if lru_allocated s i then 1 else 0).
Proof.
  intros Hi. unfold dchain_is_index_allocated, lru_allocated.
  rewrite (is_allocated_spec _ _ _ _ (dc_cells _ _ _ HC)) by done. f_equal.
  assert (i + 2 ∈ shift <$> (alist s).*1 ↔ i ∈ (alist s).*1) as Hiff.
  { change (i + 2) with (shift i). split; [|apply list_elem_of_fmap_2].
    intros (j & ?%(inj shift) & ?)%list_elem_of_fmap. by subst. }
  case_decide; case_bool_decide; tauto.
Qed.

(** Index -1 is the head cell of the free list, which looks like a free cell. *)
Lemma rejuvenate_none time : dchain_rejuvenate_index ch (-1) time = Some (0, ch).
Proof.
  destruct (dc_cells _ _ _ HC) as [_ _ _ _ Hfree Hmark].
  destruct (sseg_in _ _ _ _ FREE_LIST_HEAD Hfree) as (y & Hy & Hin); [by left|].
  unfold dchain_rejuvenate_index, dchain_impl_rejuvenate_index.
  change (-1 + INDEX_SHIFT) with FREE_LIST_HEAD.
  rewrite Hmark by by left. rewrite Hy. cbn [mbind option_bind]. rewrite Z.eqb_refl.
  assert (y ≠ ALLOC_LIST_HEAD) as Hne.
  { unfold_heads. apply elem_of_app in Hin as [(i & -> & Hi)%list_elem_of_fmap|Hin];
      [|apply list_elem_of_singleton in Hin; lia].
    assert (0 ≤ i < range) by (apply chain_elem; set_solver). unfold shift, INDEX_SHIFT, DCHAIN_RESERVED. lia. }
  apply Z.eqb_neq in Hne. rewrite Hne. simpl. by destruct ch.
Qed.

End chains.

(** ** Allocation of a chain *)

Lemma zlen_junk_cells a n μ : 0 ≤ n →
  zlen ((λ i, Cell (junk μ (a + 8 * i)) (junk μ (a + 8 * i + 4))) <$> seqZ 0 n) = n.
Proof. intros. by apply zlen_fmap_seqZ. Qed.

Lemma shift_seqZ range : shift <$> seqZ 0 range = seqZ 2 range.
Proof.
  apply list_eq. intros n. rewrite list_lookup_fmap. unfold shift, INDEX_SHIFT, DCHAIN_RESERVED.
  destruct (decide (Z.of_nat n < range)).
  - rewrite !lookup_seqZ_lt by lia. simpl. f_equal. lia.
  - by rewrite !lookup_seqZ_ge by lia.
Qed.

Lemma dchain_allocate_spec range chain_out μ :
  mem_ok μ → 0 < range ≤ IRANG_LIMIT →
  ∃ res μ', dchain_allocate range chain_out μ = Some (res, μ') ∧
    ((res = (0, chain_out, None) ∧ live μ' = live μ) ∨
     (∃ out ch b1 b2, res = (1, out, Some ch) ∧ out ≠ NULL ∧
        live μ' = [b1; b2; out] ++ live μ ∧ double_chainp ch range (lru_init range))).
Proof.
  intros Hok Hr. unfold dchain_allocate. cbn zeta.
  malloc_all.
  unfold DCHAIN_RESERVED. do 2 mpure.
  destruct (init_spec ((λ i, Cell (junk μ2 (p0 + 8 * i)) (junk μ2 (p0 + 8 * i + 4)))
                         <$> seqZ 0 (range + 2)) range) as (c' & Hc & HR);
    [lia|apply zlen_junk_cells; lia|].
  mlift Hc. eexists _, _. split; [done|]. right.
  eexists p, _, p1, p0. split_and!; [done..| |].
  - simpl. congruence.
  - constructor; simpl; [done| |by apply zlen_fmap_seqZ; lia|set_solver].
    by rewrite shift_seqZ.
Qed.

Lemma dchain_allocate_grows range chain_out : grows (dchain_allocate range chain_out).
Proof. unfold dchain_allocate, junk_cells, junk_array. grow. Qed.

Lemma yields_dchain_allocate {B} range out (k : Z * Z * option DoubleChain → M B)
    (Q : B → mem → Prop) μ :
  mem_ok μ → 0 < range ≤ IRANG_LIMIT →
  (∀ μ', later μ μ' → yields (k (0, out, None)) Q μ') →
  (∀ p ch μ', later μ μ' → double_chainp ch range (lru_init range) → yields (k (1, p, Some ch)) Q μ') →
  yields (dchain_allocate range out ≫= k) Q μ.
Proof.
  intros Hok Hr Hf Hs.
  destruct (dchain_allocate_spec range out μ Hok Hr) as (res & μ' & Ha & Hres).
  pose proof (grows_later _ _ _ _ (dchain_allocate_grows range out) Ha Hok) as Hl.
  eapply yields_bind; [exact Ha|].
  destruct Hres as [[-> _]|(p & ch & ? & ? & -> & _ & _ & HC)]; auto.
Qed.

(** ** Traces of operations *)

Inductive dchain_op :=
| DAllocate (index_out time : Z)
| DRejuvenate (index time : Z)
| DFree (index : Z)
| DExpireOne (index_out time : Z)
| DIsAllocated (index : Z).

Definition dchain_step (op : dchain_op) (ch : DoubleChain) : option (list Z * DoubleChain) :=
  match op with
  | DAllocate index_out time =>
      '(r, ch', i) ← dchain_allocate_new_index ch index_out time; Some ([r; i], ch')
  | DRejuvenate index time =>
      '(r, ch') ← dchain_rejuvenate_index ch index time; Some ([r], ch')
  | DFree index => '(r, ch') ← dchain_free_index ch index; Some ([r], ch')
  | DExpireOne index_out time =>
      '(r, ch', i) ← dchain_expire_one_index ch index_out time; Some ([r; i], ch')
  | DIsAllocated index => r ← dchain_is_index_allocated ch index; Some ([r], ch)
  end.

(** The contract: an index argument has to lie in the range. *)
Definition lru_step (range : Z) (op : dchain_op) (s : lru) : option (list Z * lru) :=
  let in_range i := (0 <=? i) && (i <? range) in
  match op with
  | DAllocate index_out time =>
      let '(r, s', i) := lru_allocate s index_out time in Some ([r; i], s')
  | DRejuvenate index time =>
      if in_range index
      then let '(r, s') := lru_rejuvenate s index time in Some ([r], s') else None
  | DFree index =>
      if in_range index then let '(r, s') := lru_free s index in Some ([r], s') else None
  | DExpireOne index_out time =>
      let '(r, s', i) := lru_expire_one s index_out time in Some ([r; i], s')
  | DIsAllocated index =>
      if in_range index then Some ([if lru_allocated s index then 1 else 0], s) else None
  end.

Fixpoint run_dchain {S} (step : dchain_op → S → option (list Z * S)) (ops : list dchain_op)
    (s : S) : option (list (list Z) * S) :=
  match ops with
  | [] => Some ([], s)
  | op :: ops' =>
      '(obs, s') ← step op s;
      '(rest, s'') ← run_dchain step ops' s';
      Some (obs :: rest, s'')
  end.

Lemma dchain_step_refines op ch range s obs s' :
  double_chainp ch range s → lru_step range op s = Some (obs, s') →
  ∃ ch', dchain_step op ch = Some (obs, ch') ∧ double_chainp ch' range s'.
Proof.
  intros HC. destruct op as [i t|i t|i|i t|i]; simpl.
  - pose proof (allocate_refines _ _ _ HC i t) as Hr.
    destruct (lru_allocate s i t) as [[r s1] j]. destruct Hr as (ch' & -> & ?).
    intros; simplify_eq/=. eauto.
  - destruct (Z.leb_spec 0 i), (Z.ltb_spec i range); simpl; try done.
    pose proof (rejuvenate_refines _ _ _ HC i t) as Hr.
    destruct (lru_rejuvenate s i t) as [r s1]. destruct Hr as (ch' & -> & ?); [lia|].
    intros; simplify_eq/=. eauto.
  - destruct (Z.leb_spec 0 i), (Z.ltb_spec i range); simpl; try done.
    pose proof (free_refines _ _ _ HC i) as Hr.
    destruct (lru_free s i) as [r s1]. destruct Hr as (ch' & -> & ?); [lia|].
    intros; simplify_eq/=. eauto.
  - pose proof (expire_one_refines _ _ _ HC i t) as Hr.
    destruct (lru_expire_one s i t) as [[r s1] j]. destruct Hr as (ch' & -> & ?).
    intros; simplify_eq/=. eauto.
  - destruct (Z.leb_spec 0 i), (Z.ltb_spec i range); simpl; try done.
    rewrite (is_allocated_refines _ _ _ HC) by lia. intros; simplify_eq/=. eauto.
Qed.

Lemma run_dchain_refines ops ch range s obs s' :
  double_chainp ch range s → run_dchain (lru_step range) ops s = Some (obs, s') →
  ∃ ch', run_dchain dchain_step ops ch = Some (obs, ch') ∧ double_chainp ch' range s'.
Proof.
  revert ch s obs. induction ops as [|op ops IH]; intros ch s obs HC Hr; cbn [run_dchain] in *.
  - simplify_eq. eauto.
  - destruct (lru_step range op s) as [[o s1]|] eqn:E; [|discriminate Hr].
    cbn [mbind option_bind] in Hr.
    destruct (run_dchain _ ops s1) as [[rest s2]|] eqn:E2; simplify_eq/=.
    destruct (dchain_step_refines _ _ _ _ _ _ HC E) as (ch1 & -> & HC1).
    cbn [mbind option_bind].
    destruct (IH ch1 s1 rest HC1 E2) as (ch' & -> & ?). eauto.
Qed.

(** ** Main results *)

(** C6: the double chain implements an LRU allocator.  A chain that
    [dchain_allocate] returns behaves, over any sequence of allocations,
    rejuvenations, frees, expirations and allocation tests with in-range
    indexes, exactly like a list of (index, time) pairs ordered from the least
    to the most recently used together with a stack of free indexes; it never
    touches memory out of bounds, and the doubly- and singly-linked lists stay
    well formed. *)
Theorem dchain_refines_lru (range chain_out out : Z) (μ μ' : mem) (ch : DoubleChain)
    (ops : list dchain_op) (obs : list (list Z)) (s' : lru) :
  mem_ok μ → 0 < range ≤ IRANG_LIMIT →
  dchain_allocate range chain_out μ = Some ((1, out, Some ch), μ') →
  run_dchain (lru_step range) ops (lru_init range) = Some (obs, s') →
  ∃ ch', run_dchain dchain_step ops ch = Some (obs, ch') ∧ double_chainp ch' range s'.
Proof.
  intros Hok Hr Ha Hrun.
  destruct (dchain_allocate_spec range chain_out μ) as (res & μ1 & Ha' & Hres); [done..|].
  rewrite Ha in Ha'. simplify_eq.
  destruct Hres as [[? _]|(? & ? & ? & ? & ? & _ & _ & HC)]; simplify_eq.
  by eapply run_dchain_refines.
Qed.

Definition demo_chain_mem : mem := Mem [] [true; true; true] 4096 (λ _, 3).

Lemma dchain_refines_lru_witness :
  ∃ ch ch', run_dchain dchain_step
      [DAllocate 9 10; DAllocate 9 11; DRejuvenate 0 12; DExpireOne 9 12; DIsAllocated 1;
       DAllocate 9 13; DAllocate 9 14; DAllocate 9 15] ch =
    Some ([[1; 0]; [1; 1]; [1]; [1; 1]; [0]; [1; 1]; [1; 2]; [0; 9]], ch').
Proof.
  eexists.
  edestruct (dchain_refines_lru 3 0 4096 demo_chain_mem) as (ch' & Hch & _);
    [done|done|vm_compute; reflexivity| |].
  2: exists ch'; exact Hch.
  vm_compute. reflexivity.
Defined.

(** The allocation test tells allocated from free.  For every chain state
    that the operations can reach and every index of the range,
    [dchain_is_index_allocated] answers 1 when the index is in the allocated
    list and 0 when it is free, reading only the two links of its cell; and
    freeing an index that is free leaves the chain unchanged and reports 0. *)
Theorem dchain_allocation_test (ch : DoubleChain) (range i : Z) (s : lru) :
  double_chainp ch range s → 0 ≤ i < range →
  (i ∈ (alist s).*1 ∧ dchain_is_index_allocated ch i = Some 1) ∨
  (i ∈ frees s ∧ (i ∉ (alist s).*1) ∧ dchain_is_index_allocated ch i = Some 0 ∧
   dchain_free_index ch i = Some (0, ch)).
Proof.
  intros HC Hi. rewrite (is_allocated_refines _ _ _ HC) by done. unfold lru_allocated.
  case_bool_decide as Ha; [by left|]. right.
  pose proof (chain_free_or_allocated _ _ _ HC i Hi Ha) as Hf. split_and!; [done..|].
  unfold dchain_free_index. rewrite (free_not_allocated _ _ _ _ (dc_cells _ _ _ HC)).
  - by destruct ch.
  - by apply (list_elem_of_fmap_2 shift).
Qed.

Definition demo_chain : DoubleChain :=
  match dchain_allocate 3 0 demo_chain_mem with
  | Some ((_, _, Some ch), _) => ch
  | _ => MkChain [] []
  end.

Lemma demo_chain_ok : double_chainp demo_chain 3 (lru_init 3).
Proof.
  destruct (dchain_allocate_spec 3 0 demo_chain_mem) as (res & μ' & Ha & Hres); [done..|].
  unfold demo_chain. rewrite Ha.
  destruct Hres as [[-> _]|(out & ch & b1 & b2 & -> & _ & _ & HC)]; [|done].
  vm_compute in Ha. discriminate Ha.
Qed.

Lemma dchain_allocation_test_witness :
  dchain_is_index_allocated demo_chain 2 = Some 0 ∧
  dchain_free_index demo_chain 2 = Some (0, demo_chain).
Proof.
  destruct (dchain_allocation_test demo_chain 3 2 (lru_init 3) demo_chain_ok ltac:(lia))
    as [[Hin _]|(_ & _ & H1 & H2)]; [by apply elem_of_nil in Hin|auto].
Defined.
