(* ===== verification/Emap.v ===== *)
(** * Coherent map, key vector and chain

    Every stateful network function keeps its keys in a vector, maps each key
    to its index with a map whose key pointers point into that vector, and
    allocates the indexes with a double chain.  libVig calls such a triple an
    [emap] (emap.h, the coherence predicates of proof/coherence.h); it exists in
    the code only as the three objects and the discipline of their use.  This
    file states the coherence and proves that the accesses the functions are
    made of keep it. *)
From stdpp Require Import base list gmap numbers sets sorting.
From Stdlib Require Import ZArith Lia.
From S2P Require Import Prelude.
From S2P Require Import Memory.
From S2P Require Import MapImpl.
From S2P Require Import Map.
From S2P Require Import Vector.
From S2P Require Import DChainImpl.
From S2P Require Import DChain.

(** An entry: its index, its key and the time of its last use. *)
Record ent (K : Type) := Ent { e_idx : Z; e_key : K; e_time : Z }.
Arguments Ent {K} _ _ _.
Arguments e_idx {K} _.
Arguments e_key {K} _.
Arguments e_time {K} _.

(** The abstract table: the entries, least recently used first, and the free
    indexes, next to be given out first. *)
Record table (K : Type) := Table { ents : list (ent K); t_frees : list Z }.
Arguments Table {K} _ _.
Arguments ents {K} _.
Arguments t_frees {K} _.

(** The three objects. *)
Record emap_objs (K : Type) := Objs {
  o_map : Map;
  o_vec : Vector K;
  o_chain : DoubleChain
}.
Arguments Objs {K} _ _ _.
Arguments o_map {K} _.
Arguments o_vec {K} _.
Arguments o_chain {K} _.

(** Memory with a local variable that holds [k] at address [a]. *)
Definition with_local {K} (h : heap K) (a : Z) (k : K) : heap K :=
  λ p, if p =? a then Some k else h p.

(** An address that is not inside the key vector (a local variable). *)
Definition outside {K} (v : Vector K) (a : Z) : Prop :=
  ∀ i, 0 ≤ i < vec_capacity v → a ≠ addr v i.

(** Memory that agrees with the key vector on its cells. *)
Definition sees {K} (v : Vector K) (h : heap K) : Prop :=
  ∀ i, 0 ≤ i < vec_capacity v → h (addr v i) = deref v (addr v i).

Lemma sees_deref {K} (v : Vector K) : sees v (deref v).
Proof. by intros i Hi. Qed.

Lemma sees_local {K} (v : Vector K) a k :
  outside v a → sees v (with_local (deref v) a k).
Proof.
  intros Ho i Hi. unfold with_local.
  destruct (Z.eqb_spec (addr v i) a); [|done]. by destruct (Ho i).
Qed.

Lemma with_local_at {K} (h : heap K) a k : with_local h a k a = Some k.
Proof. unfold with_local. by rewrite Z.eqb_refl. Qed.

#[export] Hint Resolve sees_deref sees_local with_local_at : vigor.

Section abstract.
Context {K : Type} `{EqDecision K}.
Implicit Types (t : table K).

Definition t_lookup t (k : K) : option (ent K) :=
  snd <$> list_find (λ e, e_key e = k) (ents t).

Definition t_entry t (i : Z) : option (ent K) :=
  snd <$> list_find (λ e, e_idx e = i) (ents t).

Definition t_lru t : lru := Lru ((λ e, (e_idx e, e_time e)) <$> ents t) (t_frees t).

Definition t_full t : bool := bool_decide (t_frees t = []).

Definition t_refresh t (i time : Z) : table K :=
  Table (filter (λ e, e_idx e ≠ i) (ents t) ++
         ((λ e, Ent (e_idx e) (e_key e) time) <$> filter (λ e, e_idx e = i) (ents t)))
        (t_frees t).

Definition t_add t (k : K) (time : Z) : table K :=
  match t_frees t with
  | [] => t
  | i :: fs => Table (ents t ++ [Ent i k time]) fs
  end.

Definition t_remove t (i : Z) : table K :=
  Table (filter (λ e, e_idx e ≠ i) (ents t)) (i :: t_frees t).

(** The entries older than [time] at the front of the list go, oldest first. *)
Fixpoint drop_old (es : list (ent K)) (fs : list Z) (time : Z) : table K :=
  match es with
  | [] => Table [] fs
  | e :: es' =>
      if e_time e <? time then drop_old es' (e_idx e :: fs) time else Table es fs
  end.

Definition t_expire t (time : Z) : table K := drop_old (ents t) (t_frees t) time.

(** The entries are in the order of their times, none of which is in the future. *)
Definition t_sorted t (now : Z) : Prop :=
  StronglySorted Z.le (e_time <$> ents t) ∧ ∀ e, e ∈ ents t → e_time e ≤ now.

(** *** Times *)

Lemma drop_old_sorted es fs time :
  StronglySorted Z.le (e_time <$> es) →
  ents (drop_old es fs time) = filter (λ e, time ≤ e_time e) es.
Proof.
  revert fs. induction es as [|e es IH]; intros fs Hs; [done|]. rewrite fmap_cons in Hs.
  apply StronglySorted_inv in Hs as [Hs Hall]. cbn [drop_old].
  destruct (Z.ltb_spec (e_time e) time).
  - rewrite filter_cons_False by lia. by apply IH.
  - rewrite filter_all; [done|]. intros e' [->|He']%elem_of_cons; [done|].
    rewrite Forall_fmap, Forall_forall in Hall. specialize (Hall e' He'). simpl in Hall. lia.
Qed.

Lemma drop_old_suffix es fs time : ∃ l, es = l ++ ents (drop_old es fs time).
Proof.
  revert fs. induction es as [|e es IH]; intros fs; [by exists []|]. cbn [drop_old].
  destruct (e_time e <? time); [|by exists []].
  destruct (IH (e_idx e :: fs)) as (l & Hl). exists (e :: l). simpl. by f_equal.
Qed.

Lemma sorted_app_r (l1 l2 : list Z) : StronglySorted Z.le (l1 ++ l2) → StronglySorted Z.le l2.
Proof.
  induction l1; [done|]. simpl. intros Hs. apply StronglySorted_inv in Hs as [? _]. auto.
Qed.

Lemma t_expire_sorted t time now : t_sorted t now → t_sorted (t_expire t time) now.
Proof.
  intros [Hs Hn]. destruct (drop_old_suffix (ents t) (t_frees t) time) as (l & Hl).
  unfold t_expire. split.
  - rewrite Hl, fmap_app in Hs. by eapply sorted_app_r.
  - intros e He. apply Hn. rewrite Hl. set_solver.
Qed.

Lemma sorted_snoc (l : list Z) x :
  StronglySorted Z.le l → (∀ y, y ∈ l → y ≤ x) → StronglySorted Z.le (l ++ [x]).
Proof.
  induction l as [|a l IH]; intros Hs Hx; simpl; [repeat constructor|].
  apply StronglySorted_inv in Hs as [Hs Hall]. constructor.
  - apply IH; [done|]. intros y Hy. apply Hx. by right.
  - rewrite Forall_app. split; [done|]. repeat constructor. apply Hx. by left.
Qed.

Lemma sorted_filter (P : ent K → Prop) `{∀ e, Decision (P e)} es :
  StronglySorted Z.le (e_time <$> es) → StronglySorted Z.le (e_time <$> filter P es).
Proof.
  induction es as [|e es IH]; intros Hs; [done|]. rewrite fmap_cons in Hs.
  apply StronglySorted_inv in Hs as [Hs Hall].
  destruct (decide (P e)); [rewrite filter_cons_True by done|rewrite filter_cons_False by done; auto].
  rewrite fmap_cons. constructor; [auto|].
  rewrite Forall_fmap, Forall_forall in *. intros e' [_ He']%list_elem_of_filter. by apply Hall.
Qed.

Lemma t_sorted_mono t now now' : t_sorted t now → now ≤ now' → t_sorted t now'.
Proof. intros [Hs Hn] Hle. split; [done|]. intros e He. specialize (Hn e He). lia. Qed.

Lemma t_refresh_sorted t i now :
  t_sorted t now → NoDup (e_idx <$> ents t) → t_sorted (t_refresh t i now) now.
Proof.
  intros [Hs Hn] Hnd. unfold t_refresh. split; simpl.
  - rewrite fmap_app, <- list_fmap_compose.
    assert (∃ n, e_time ∘ (λ e, Ent (e_idx e) (e_key e) now) <$>
              filter (λ e, e_idx e = i) (ents t) = replicate n now) as [n ->].
    { exists (length (filter (λ e, e_idx e = i) (ents t))). clear.
      induction (filter _ _) as [|e l IH]; [done|]. rewrite fmap_cons, IH. done. }
    induction n as [|n IH]; [rewrite app_nil_r; by apply sorted_filter|].
    rewrite replicate_S_end, app_assoc. apply sorted_snoc; [done|].
    intros y [(e & -> & He)%list_elem_of_fmap|Hy]%elem_of_app.
    + apply Hn. by apply list_elem_of_filter in He as [_ ?].
    + apply elem_of_replicate in Hy as [-> _]. lia.
  - intros e [He|(e' & -> & _)%list_elem_of_fmap]%elem_of_app; simpl; [|lia].
    apply Hn. by apply list_elem_of_filter in He as [_ ?].
Qed.

Lemma t_add_sorted t k now : t_sorted t now → t_sorted (t_add t k now) now.
Proof.
  intros [Hs Hn]. unfold t_add. destruct (t_frees t); [done|]. split; simpl.
  - rewrite fmap_app. apply sorted_snoc; [done|].
    intros y (e & -> & He)%list_elem_of_fmap. by apply Hn.
  - intros e [He|He%list_elem_of_singleton]%elem_of_app; [by apply Hn|]. subst. simpl. lia.
Qed.

(** The keys of a changed table. *)
Lemma t_refresh_elem t i now e :
  e ∈ ents (t_refresh t i now) → ∃ e', e' ∈ ents t ∧ e_key e = e_key e' ∧ e_idx e = e_idx e'.
Proof.
  unfold t_refresh. simpl. intros [[_ He]%list_elem_of_filter|He]%elem_of_app; [by eauto|].
  apply list_elem_of_fmap in He as (e' & -> & [_ He']%list_elem_of_filter). eauto.
Qed.

Lemma t_expire_elem t time e : e ∈ ents (t_expire t time) → e ∈ ents t.
Proof.
  destruct (drop_old_suffix (ents t) (t_frees t) time) as (l & Hl). unfold t_expire.
  intros He. rewrite Hl. set_solver.
Qed.

Lemma t_add_elem t k now e :
  e ∈ ents (t_add t k now) → e ∈ ents t ∨ e_key e = k.
Proof.
  unfold t_add. destruct (t_frees t); [by left|]. simpl.
  intros [?|He%list_elem_of_singleton]%elem_of_app; [by left|]. subst. by right.
Qed.

Lemma t_entry_Some t i e : t_entry t i = Some e → e ∈ ents t ∧ e_idx e = i.
Proof.
  unfold t_entry. destruct (list_find _ _) as [[n e']|] eqn:E; simpl; [|done].
  intros; simplify_eq. apply list_find_Some in E as (Hl & ? & _).
  split; [|done]. by eapply list_elem_of_lookup_2.
Qed.

Lemma t_entry_elem t e :
  NoDup (e_idx <$> ents t) → e ∈ ents t → t_entry t (e_idx e) = Some e.
Proof.
  intros Hnd He. unfold t_entry. destruct (list_find _ _) as [[n e']|] eqn:E; simpl.
  - apply list_find_Some in E as (Hl & Hi & _). apply list_elem_of_lookup in He as [j Hj].
    assert (n = j); [|congruence].
    eapply (NoDup_lookup (e_idx <$> ents t)); [done|..]; rewrite list_lookup_fmap;
      [by rewrite Hl|]. rewrite Hj. simpl. by f_equal.
  - apply list_find_None in E. rewrite Forall_forall in E. by destruct (E e He).
Qed.

Lemma t_expire_keeps t time now e :
  t_sorted t now → e ∈ ents t → time ≤ e_time e → e ∈ ents (t_expire t time).
Proof.
  intros [Hs _] He Ht. unfold t_expire. rewrite drop_old_sorted by done.
  by apply list_elem_of_filter.
Qed.

(** What is left is live. *)
Lemma t_expire_live t time now e :
  t_sorted t now → e ∈ ents (t_expire t time) → time ≤ e_time e.
Proof.
  intros [Hs _]. unfold t_expire. rewrite drop_old_sorted by done.
  by intros [Ht _]%list_elem_of_filter.
Qed.

Lemma t_refresh_in t e now :
  e ∈ ents t → Ent (e_idx e) (e_key e) now ∈ ents (t_refresh t (e_idx e) now).
Proof.
  intros He. unfold t_refresh. simpl. apply elem_of_app. right.
  apply (list_elem_of_fmap_2 (λ e, Ent (e_idx e) (e_key e) now)). by apply list_elem_of_filter.
Qed.

Lemma t_remove_sorted t i now : t_sorted t now → t_sorted (t_remove t i) now.
Proof.
  intros [Hs Hn]. split; simpl; [by apply sorted_filter|].
  intros e [_ He]%list_elem_of_filter. by apply Hn.
Qed.

End abstract.

#[export] Hint Resolve t_expire_sorted t_refresh_sorted t_add_sorted t_remove_sorted : vigor.

Section coherence.
Context {K : Type} `{KeyLaws K} `{Countable K}.
Variable pow2 : bool.
Implicit Types (o : emap_objs K) (t : table K) (e : ent K).

Definition ents_map (v : Vector K) (es : list (ent K)) : gmap K Z * gmap K Z :=
  (list_to_map ((λ e, (e_key e, e_idx e)) <$> es),
   list_to_map ((λ e, (e_key e, addr v (e_idx e))) <$> es)).

Record emapp o (range : Z) t : Prop := Emapp {
  em_map : mapp pow2 (deref (o_vec o)) (o_map o)
             (ents_map (o_vec o) (ents t)).1 (ents_map (o_vec o) (ents t)).2;
  em_room : range ≤ capacity (o_map o);
  em_vec : vector_ok (o_vec o);
  em_cap : range ≤ vec_capacity (o_vec o);
  em_chain : double_chainp (o_chain o) range (t_lru t);
  em_keys : NoDup (e_key <$> ents t);
  em_cells : ∀ e, e ∈ ents t → rd (cells (o_vec o)) (e_idx e) = Some (e_key e)
}.

Lemma ents_map_lookup v es k :
  NoDup (e_key <$> es) →
  (ents_map v es).1 !! k = e_idx <$> (snd <$> list_find (λ e, e_key e = k) es) ∧
  (ents_map v es).2 !! k = addr v ∘ e_idx <$> (snd <$> list_find (λ e, e_key e = k) es).
Proof.
  unfold ents_map. cbn [fst snd]. induction es as [|e es IH]; intros Hnd.
  { by rewrite !fmap_nil, !list_to_map_nil, !lookup_empty. }
  rewrite !fmap_cons, !list_to_map_cons. cbn [list_find].
  rewrite fmap_cons in Hnd. apply NoDup_cons in Hnd as [Hnin Hnd]. destruct (IH Hnd) as [IH1 IH2].
  destruct (decide (e_key e = k)) as [<-|Hne].
  - by rewrite !lookup_insert_eq.
  - rewrite !lookup_insert_ne by done. rewrite IH1, IH2.
    by destruct (list_find _ es) as [[]|].
Qed.

Lemma ents_map_cons v e es :
  ents_map v (e :: es) = (<[e_key e := e_idx e]> (ents_map v es).1,
                          <[e_key e := addr v (e_idx e)]> (ents_map v es).2).
Proof. done. Qed.

Lemma ents_map_elem v es e :
  NoDup (e_key <$> es) → e ∈ es →
  (ents_map v es).1 !! e_key e = Some (e_idx e) ∧
  (ents_map v es).2 !! e_key e = Some (addr v (e_idx e)).
Proof.
  intros Hnd Hin. unfold ents_map. simpl. split.
  - apply elem_of_list_to_map.
    + rewrite <- list_fmap_compose. done.
    + by apply (list_elem_of_fmap_2 (λ e, (e_key e, e_idx e))).
  - apply elem_of_list_to_map.
    + rewrite <- list_fmap_compose. done.
    + by apply (list_elem_of_fmap_2 (λ e, (e_key e, addr v (e_idx e)))).
Qed.

Lemma ents_map_addrs v es k p :
  (ents_map v es).2 !! k = Some p → ∃ e, e ∈ es ∧ e_key e = k ∧ p = addr v (e_idx e).
Proof.
  unfold ents_map. simpl. intros (e & Heq & ?)%elem_of_list_to_map_2%list_elem_of_fmap.
  simplify_eq. eauto.
Qed.

Lemma t_lookup_Some t k e : t_lookup t k = Some e → e ∈ ents t ∧ e_key e = k.
Proof.
  unfold t_lookup. destruct (list_find _ _) as [[n e']|] eqn:E; simpl; [|done].
  intros; simplify_eq. apply list_find_Some in E as (Hl & ? & _).
  split; [|done]. by eapply list_elem_of_lookup_2.
Qed.

Lemma t_lookup_None t k : t_lookup t k = None → ∀ e, e ∈ ents t → e_key e ≠ k.
Proof.
  unfold t_lookup. intros Hn. destruct (list_find _ _) eqn:E; [done|].
  apply list_find_None in E. rewrite Forall_forall in E. intros e He. by apply E.
Qed.

Lemma t_lookup_elem t e :
  NoDup (e_key <$> ents t) → e ∈ ents t → t_lookup t (e_key e) = Some e.
Proof.
  intros Hnd He. destruct (t_lookup t (e_key e)) as [e'|] eqn:E.
  - apply t_lookup_Some in E as [He' Hk].
    apply list_elem_of_lookup in He as [i Hi], He' as [j Hj].
    assert (i = j); [|congruence].
    eapply (NoDup_lookup (e_key <$> ents t)); [done|..];
      rewrite list_lookup_fmap; [by rewrite Hi|]. rewrite Hj. simpl. by f_equal.
  - by destruct (t_lookup_None _ _ E e He).
Qed.

(** Lookups after a refresh, resp. after an addition. *)
Lemma t_lookup_refresh t e now k :
  NoDup (e_key <$> ents (t_refresh t (e_idx e) now)) → NoDup (e_idx <$> ents t) → e ∈ ents t →
  t_lookup (t_refresh t (e_idx e) now) k =
    if decide (k = e_key e) then Some (Ent (e_idx e) (e_key e) now) else t_lookup t k.
Proof.
  intros Hnd Hni He. case_decide as Hk.
  - subst k. apply (t_lookup_elem _ (Ent (e_idx e) (e_key e) now)); [done|].
    by apply t_refresh_in.
  - destruct (t_lookup t k) as [e'|] eqn:E.
    + apply t_lookup_Some in E as [He' <-]. apply t_lookup_elem; [done|].
      unfold t_refresh. simpl. apply elem_of_app. left. apply list_elem_of_filter.
      split; [|done]. intros Hi. apply Hk. f_equal.
      apply list_elem_of_lookup in He as [n Hn], He' as [n' Hn'].
      assert (n' = n); [|congruence].
      eapply (NoDup_lookup (e_idx <$> ents t)); [done|..]; rewrite list_lookup_fmap;
        [by rewrite Hn'|]. rewrite Hn. simpl. by f_equal.
    + destruct (t_lookup (t_refresh _ _ _) k) as [e'|] eqn:E'; [|done].
      apply t_lookup_Some in E' as [(e0 & He0 & Hk0 & _)%t_refresh_elem <-].
      by destruct (t_lookup_None _ _ E e0).
Qed.

Lemma t_lookup_add t k i fs now k' :
  NoDup (e_key <$> ents (t_add t k now)) → t_frees t = i :: fs →
  t_lookup (t_add t k now) k' =
    if decide (k' = k) then Some (Ent i k now) else t_lookup t k'.
Proof.
  intros Hnd Hf. assert (ents (t_add t k now) = ents t ++ [Ent i k now]) as Hents
    by (unfold t_add; by rewrite Hf).
  case_decide as Hk.
  - subst k'. apply (t_lookup_elem _ (Ent i k now)); [done|]. rewrite Hents. set_solver.
  - destruct (t_lookup t k') as [e'|] eqn:E.
    + apply t_lookup_Some in E as [He' <-]. apply t_lookup_elem; [done|].
      rewrite Hents. set_solver.
    + destruct (t_lookup (t_add _ _ _) k') as [e'|] eqn:E'; [|done].
      apply t_lookup_Some in E' as [[He'|He']%t_add_elem Hk']; [|congruence].
      by destruct (t_lookup_None _ _ E e').
Qed.

(** *** Facts about coherent objects *)

Section objects.
Context (o : emap_objs K) (range : Z) (t : table K).
Hypothesis HE : emapp o range t.

Lemma ent_idx_NoDup : NoDup (e_idx <$> ents t).
Proof.
  pose proof (chain_NoDup _ _ _ (em_chain _ _ _ HE)) as Hn. simpl in Hn.
  rewrite <- list_fmap_compose in Hn. by apply NoDup_app in Hn as (? & _ & _).
Qed.

Lemma ent_alist e : e ∈ ents t → e_idx e ∈ (alist (t_lru t)).*1.
Proof.
  intros He. simpl. rewrite <- list_fmap_compose.
  by apply (list_elem_of_fmap_2 e_idx).
Qed.

Lemma ent_range e : e ∈ ents t → 0 ≤ e_idx e < range.
Proof. intros He%ent_alist. by eapply chain_index_range, He; apply HE. Qed.

Lemma free_range i : i ∈ t_frees t → 0 ≤ i < range ∧ i ∉ e_idx <$> ents t.
Proof.
  intros Hi. split.
  - apply (chain_elem _ _ _ (em_chain _ _ _ HE)). simpl. set_solver.
  - pose proof (chain_NoDup _ _ _ (em_chain _ _ _ HE)) as Hn. simpl in Hn.
    rewrite <- list_fmap_compose in Hn. apply NoDup_app in Hn as (_ & Hd & _).
    intros Hin. by apply (Hd i).
Qed.

Lemma ents_length : Z.of_nat (length (ents t) + length (t_frees t)) = range.
Proof.
  pose proof (chain_length _ _ _ (em_chain _ _ _ HE)) as Hl. simpl in Hl.
  by rewrite length_fmap in Hl.
Qed.

Lemma ents_map_size : size (ents_map (o_vec o) (ents t)).1 = length (ents t).
Proof.
  unfold ents_map. simpl. rewrite map_size_list_to_map.
  - apply length_fmap.
  - rewrite <- list_fmap_compose. apply (em_keys _ _ _ HE).
Qed.

Lemma emap_mapp_at h :
  sees (o_vec o) h → mapp pow2 h (o_map o) (ents_map (o_vec o) (ents t)).1 (ents_map (o_vec o) (ents t)).2.
Proof.
  intros Hh. eapply mapp_frame; [apply (em_map _ _ _ HE)|].
  intros k p (e & He & _ & ->)%ents_map_addrs. apply Hh.
  pose proof (em_cap _ _ _ HE). pose proof (ent_range e He). lia.
Qed.

(** Looking a key up through a pointer to a local copy of it. *)
Lemma emap_get a k v0 :
  outside (o_vec o) a →
  map_get pow2 (with_local (deref (o_vec o)) a k) (o_map o) a v0 =
    Some (match t_lookup t k with Some e => (1, e_idx e) | None => (0, v0) end).
Proof.
  intros Ho. set (h := with_local (deref (o_vec o)) a k).
  assert (h a = Some k) as Hk by (unfold h, with_local; by rewrite Z.eqb_refl).
  rewrite (map_get_spec _ _ _ _ _ _ _ _
    (emap_mapp_at h (sees_local _ a k Ho)) Hk).
  destruct (ents_map_lookup (o_vec o) (ents t) k (em_keys _ _ _ HE)) as [-> _].
  unfold t_lookup. by destruct (list_find _ _) as [[]|].
Qed.

(** The key stored at the index of an entry. *)
Lemma emap_key e :
  e ∈ ents t → deref (o_vec o) (addr (o_vec o) (e_idx e)) = Some (e_key e) ∧
               vector_borrow (o_vec o) (e_idx e) = Some (addr (o_vec o) (e_idx e)).
Proof.
  intros He. pose proof (ent_range e He). split.
  - rewrite deref_addr by apply (em_vec _ _ _ HE). by apply (em_cells _ _ _ HE).
  - apply vector_borrow_spec; [apply (em_vec _ _ _ HE)|pose proof (em_cap _ _ _ HE); lia].
Qed.

(** An entry splits the table around it. *)
Lemma ents_split e :
  e ∈ ents t →
  ∃ l1 l2, ents t = l1 ++ e :: l2 ∧ filter (λ e', e_idx e' ≠ e_idx e) (ents t) = l1 ++ l2 ∧
           filter (λ e', e_idx e' = e_idx e) (ents t) = [e].
Proof.
  intros (l1 & l2 & Hl)%list_elem_of_split. exists l1, l2. split; [done|].
  pose proof ent_idx_NoDup as Hn. rewrite Hl in *.
  rewrite fmap_app, fmap_cons, <- Permutation_middle in Hn. apply NoDup_cons in Hn as [Hn _].
  rewrite <- fmap_app in Hn.
  assert (∀ e', e' ∈ l1 ++ l2 → e_idx e' ≠ e_idx e) as Hne.
  { intros e' He' Heq. apply Hn. rewrite <- Heq. by apply list_elem_of_fmap_2. }
  assert (∀ e', e' ∈ l1 → e_idx e' ≠ e_idx e) as Hx1 by (intros; apply Hne; set_solver).
  assert (∀ e', e' ∈ l2 → e_idx e' ≠ e_idx e) as Hx2 by (intros; apply Hne; set_solver).
  split.
  - rewrite filter_app, filter_cons_False by (intros Hx; by apply Hx).
    by rewrite !filter_all.
  - rewrite filter_app, filter_cons_True by done.
    by rewrite !filter_none.
Qed.

Lemma lru_split e l1 l2 :
  ents t = l1 ++ e :: l2 → filter (λ e', e_idx e' ≠ e_idx e) (ents t) = l1 ++ l2 →
  remove_by_index (e_idx e) (alist (t_lru t)) =
    (λ e, (e_idx e, e_time e)) <$> (l1 ++ l2).
Proof.
  intros Hl Hf. unfold remove_by_index. simpl. rewrite filter_fmap. by rewrite <- Hf.
Qed.

Lemma ents_map_perm v es es' :
  NoDup (e_key <$> es) →
  (λ e, (e_key e, e_idx e)) <$> es ≡ₚ (λ e : ent K, (e_key e, e_idx e)) <$> es' →
  ents_map v es = ents_map v es'.
Proof.
  intros Hnd Hp. unfold ents_map. f_equal; apply list_to_map_proper.
  - rewrite <- list_fmap_compose. done.
  - done.
  - rewrite <- list_fmap_compose. done.
  - apply (Permutation_map (λ '(k, i), (k, addr v i))) in Hp.
    rewrite !map_map in Hp. done.
Qed.

(** *** The accesses the functions are made of *)

(** Refreshing the time of an entry. *)
Lemma emap_refresh e time :
  e ∈ ents t →
  ∃ ch', dchain_rejuvenate_index (o_chain o) (e_idx e) time = Some (1, ch') ∧
         emapp (Objs (o_map o) (o_vec o) ch') range (t_refresh t (e_idx e) time).
Proof.
  intros He. pose proof (rejuvenate_refines _ _ _ (em_chain _ _ _ HE) (e_idx e) time
                           (ent_range e He)) as Hr.
  unfold lru_rejuvenate, lru_allocated in Hr.
  rewrite bool_decide_eq_true_2 in Hr by by apply ent_alist.
  destruct Hr as (ch' & -> & HC). exists ch'. split; [done|].
  destruct (ents_split e He) as (l1 & l2 & Hl & Hf1 & Hf2).
  unfold t_refresh. rewrite Hf1, Hf2. simpl.
  assert ((λ e, (e_key e, e_idx e)) <$> ents t ≡ₚ (λ e, (e_key e, e_idx e)) <$>
            ((l1 ++ l2) ++ [Ent (e_idx e) (e_key e) time])) as Hp.
  { rewrite Hl, !fmap_app, fmap_cons. simpl. solve_Permutation. }
  constructor; cbn [o_map o_vec o_chain ents t_frees].
  - rewrite <- (ents_map_perm _ _ _ (em_keys _ _ _ HE) Hp). apply (em_map _ _ _ HE).
  - apply (em_room _ _ _ HE).
  - apply (em_vec _ _ _ HE).
  - apply (em_cap _ _ _ HE).
  - rewrite (lru_split e l1 l2 Hl Hf1) in HC. unfold t_lru. simpl. by rewrite fmap_app.
  - apply (fmap_Permutation fst) in Hp. rewrite <- !list_fmap_compose in Hp.
    rewrite <- (Hp : e_key <$> _ ≡ₚ e_key <$> _). apply (em_keys _ _ _ HE).
  - intros e' [He'|He'%list_elem_of_singleton]%elem_of_app; [|subst e'].
    + apply (em_cells _ _ _ HE). rewrite Hl. set_solver.
    + exact (em_cells _ _ _ HE e He).
Qed.

(** No index is left. *)
Lemma emap_full i0 time :
  t_full t = true →
  ∃ ch', dchain_allocate_new_index (o_chain o) i0 time = Some (0, ch', i0) ∧
         emapp (Objs (o_map o) (o_vec o) ch') range t.
Proof.
  unfold t_full. intros Hf%bool_decide_eq_true.
  pose proof (allocate_refines _ _ _ (em_chain _ _ _ HE) i0 time) as Hr.
  unfold lru_allocate in Hr. simpl in Hr. rewrite Hf in Hr.
  destruct Hr as (ch' & -> & HC). exists ch'. split; [done|]. by destruct HE.
Qed.

Lemma emap_capacity : 0 < range ∧ range ≤ vec_capacity (o_vec o).
Proof.
  pose proof (dc_range _ _ _ (em_chain _ _ _ HE)). pose proof (em_cap _ _ _ HE). lia.
Qed.

(** Adding a key under a fresh index. *)
Lemma emap_add k i0 i fs time :
  t_lookup t k = None → t_frees t = i :: fs →
  let v' := vset (o_vec o) i k in
  ∃ ch', dchain_allocate_new_index (o_chain o) i0 time = Some (1, ch', i) ∧
    0 ≤ i < range ∧
    vector_borrow (o_vec o) i = Some (addr (o_vec o) i) ∧
    store (o_vec o) (addr (o_vec o) i) k = Some v' ∧
    ∀ h, sees v' h →
      ∃ M', map_put pow2 h (o_map o) (addr (o_vec o) i) i = Some M' ∧
            emapp (Objs M' v' ch') range (t_add t k time).
Proof.
  intros Hk Hf v'. pose proof emap_capacity as [Hpos Hcap].
  assert (i ∈ t_frees t) as Hi by (rewrite Hf; by left).
  destruct (free_range i Hi) as [Hr Hnin].
  pose proof (allocate_refines _ _ _ (em_chain _ _ _ HE) i0 time) as Hal.
  unfold lru_allocate in Hal. simpl in Hal. rewrite Hf in Hal.
  destruct Hal as (ch' & -> & HC). exists ch'. split; [done|]. split; [done|].
  split; [apply vector_borrow_spec; [apply HE|lia]|].
  split; [apply store_addr; [apply HE|lia]|]. intros h Hsee.
  assert (∀ e, e ∈ ents t → e_idx e ≠ i) as Hne.
  { intros e He <-. apply Hnin. by apply list_elem_of_fmap_2. }
  assert (mapp pow2 h (o_map o) (ents_map (o_vec o) (ents t)).1 (ents_map (o_vec o) (ents t)).2)
    as HM.
  { eapply mapp_frame; [apply (em_map _ _ _ HE)|].
    intros k' p (e & He & _ & ->)%ents_map_addrs. pose proof (ent_range e He).
    change (addr (o_vec o) (e_idx e)) with (addr v' (e_idx e)) at 1.
    rewrite Hsee by (simpl; lia). change (addr v' (e_idx e)) with (addr (o_vec o) (e_idx e)).
    unfold v'. rewrite deref_vset by (apply HE || lia).
    destruct (Z.eqb_spec i (e_idx e)) as [->|]; [|done]. by destruct (Hne e He). }
  destruct (ents_map_lookup (o_vec o) (ents t) k (em_keys _ _ _ HE)) as [Hl1 _].
  assert (h (addr (o_vec o) i) = Some k) as Hat.
  { change (addr (o_vec o) i) with (addr v' i). rewrite Hsee by (simpl; lia).
    change (addr v' i) with (addr (o_vec o) i). unfold v'.
    rewrite deref_vset by (apply HE || lia). by rewrite Z.eqb_refl. }
  pose proof ents_length as Hlen. rewrite Hf in Hlen. simpl in Hlen.
  destruct (map_put_spec _ _ _ _ _ _ _ i HM Hat) as (M' & -> & Hc' & HM').
  { rewrite Hl1. unfold t_lookup in Hk. by destruct (list_find _ _). }
  { rewrite ents_map_size. pose proof (em_room _ _ _ HE). lia. }
  exists M'. split; [done|]. unfold t_add. rewrite Hf.
  assert (NoDup (e_key <$> ents t ++ [Ent i k time])) as Hnd.
  { rewrite fmap_app, (Permutation_app_comm (e_key <$> ents t)). apply NoDup_cons.
    split; [|apply (em_keys _ _ _ HE)]. simpl. intros (e & He & ?)%list_elem_of_fmap.
    by destruct (t_lookup_None _ _ Hk e). }
  assert (ents_map v' (ents t ++ [Ent i k time]) =
          ents_map v' (Ent i k time :: ents t)) as Hperm.
  { apply ents_map_perm; [done|]. apply fmap_Permutation. symmetry.
    apply Permutation_cons_append. }
  constructor; cbn [o_map o_vec o_chain ents t_frees].
  - rewrite Hperm, ents_map_cons. cbn [fst snd e_idx e_key].
    eapply mapp_frame; [exact HM'|]. intros k' p [[<- <-]|[_ (e & He & _ & ->)%ents_map_addrs]]%lookup_insert_Some.
    + symmetry. apply Hsee. simpl; lia.
    + symmetry. apply (Hsee (e_idx e)). simpl. pose proof (ent_range e He). lia.
  - rewrite Hc'. apply (em_room _ _ _ HE).
  - apply vset_ok, HE.
  - done.
  - unfold t_lru. simpl. by rewrite fmap_app.
  - done.
  - pose proof (vo_len _ (em_vec _ _ _ HE)) as Hvl.
    intros e' [He'|He'%list_elem_of_singleton]%elem_of_app; [|subst e']; simpl.
    + rewrite rd_insert_ne by (pose proof (Hne e' He'); lia). by apply (em_cells _ _ _ HE).
    + apply rd_insert_eq. lia.
Qed.

(** A free index differs from the index of every entry, also as a position. *)
Lemma fresh_index_ne i fs e :
  t_frees t = i :: fs → e ∈ ents t → Z.to_nat i ≠ Z.to_nat (e_idx e).
Proof.
  intros Hf He Heq. assert (i ∈ t_frees t) as Hi by (rewrite Hf; by left).
  destruct (free_range i Hi) as [Hr Hnin]. pose proof (ent_range e He).
  apply Hnin. replace i with (e_idx e) by lia. by apply list_elem_of_fmap_2.
Qed.

(** Entries with different keys have different indexes and positions. *)
Lemma ent_position e e' :
  e ∈ ents t → e' ∈ ents t → e_key e ≠ e_key e' →
  e_idx e ≠ e_idx e' ∧ Z.to_nat (e_idx e) ≠ Z.to_nat (e_idx e').
Proof.
  intros He He' Hk. assert (e_idx e ≠ e_idx e') as Hi.
  { intros Hi. apply Hk. pose proof (t_entry_elem t e ent_idx_NoDup He).
    pose proof (t_entry_elem t e' ent_idx_NoDup He'). congruence. }
  pose proof (ent_range e He). pose proof (ent_range e' He').
  split; [done|]. intros Heq. apply Hi. lia.
Qed.

(** Dropping an entry from the map and from the chain. *)
Lemma emap_erase e p trash h :
  e ∈ ents t → sees (o_vec o) h → h p = Some (e_key e) →
  ∃ M', map_erase pow2 h (o_map o) p trash = Some (M', addr (o_vec o) (e_idx e)) ∧
    ∀ ch' fs,
      double_chainp ch' range
        (Lru (remove_by_index (e_idx e) (alist (t_lru t))) fs) →
      emapp (Objs M' (o_vec o) ch') range
        (Table (filter (λ e', e_idx e' ≠ e_idx e) (ents t)) fs).
Proof.
  intros He Hsee Hp. destruct (ents_map_elem (o_vec o) _ e (em_keys _ _ _ HE) He) as [Hm Ha].
  destruct (map_erase_spec _ _ _ _ _ _ _ _ trash (emap_mapp_at h Hsee) Hp Hm)
    as (M' & q & -> & Hq & Hc & HM').
  rewrite Ha in Hq. injection Hq as <-. exists M'. split; [done|]. intros ch' fs HC.
  destruct (ents_split e He) as (l1 & l2 & Hl & Hf1 & _). rewrite Hf1.
  assert (e_key <$> ents t ≡ₚ e_key e :: (e_key <$> l1 ++ l2)) as Hkp.
  { rewrite Hl, !fmap_app, fmap_cons. solve_Permutation. }
  pose proof (em_keys _ _ _ HE) as Hnd. rewrite Hkp in Hnd. apply NoDup_cons in Hnd as [Hnin Hnd].
  assert (ents_map (o_vec o) (ents t) = ents_map (o_vec o) (e :: l1 ++ l2)) as Hperm.
  { apply ents_map_perm; [apply (em_keys _ _ _ HE)|]. apply fmap_Permutation.
    rewrite Hl. by rewrite Permutation_middle. }
  constructor; cbn [o_map o_vec o_chain ents t_frees].
  - rewrite Hperm, ents_map_cons in HM'. cbn [fst snd] in HM'.
    rewrite !delete_insert_id in HM' by (apply not_elem_of_list_to_map_1;
      rewrite <- list_fmap_compose; exact Hnin).
    eapply mapp_frame; [exact HM'|].
    intros k' q (e' & He' & _ & ->)%(ents_map_addrs (o_vec o)). symmetry. apply Hsee.
    pose proof (em_cap _ _ _ HE). assert (e' ∈ ents t) as Hin by (rewrite Hl; set_solver).
    pose proof (ent_range e' Hin). lia.
  - rewrite Hc. apply (em_room _ _ _ HE).
  - apply (em_vec _ _ _ HE).
  - apply (em_cap _ _ _ HE).
  - rewrite (lru_split e l1 l2 Hl Hf1) in HC. exact HC.
  - exact Hnd.
  - intros e' He'. apply (em_cells _ _ _ HE). rewrite Hl. set_solver.
Qed.

(** Erasing a key and freeing its index. *)
Lemma emap_remove e p trash h :
  e ∈ ents t → sees (o_vec o) h → h p = Some (e_key e) →
  ∃ M' ch', map_erase pow2 h (o_map o) p trash = Some (M', addr (o_vec o) (e_idx e)) ∧
    dchain_free_index (o_chain o) (e_idx e) = Some (1, ch') ∧
    emapp (Objs M' (o_vec o) ch') range (t_remove t (e_idx e)).
Proof.
  intros He Hsee Hp. destruct (emap_erase e p trash h He Hsee Hp) as (M' & Hm & Hch).
  pose proof (free_refines _ _ _ (em_chain _ _ _ HE) (e_idx e) (ent_range e He)) as Hr.
  unfold lru_free, lru_allocated in Hr.
  rewrite bool_decide_eq_true_2 in Hr by by apply ent_alist.
  destruct Hr as (ch' & Hf & HC). exists M', ch'. split_and!; [done..|]. by apply Hch.
Qed.

(** The index test of the chain. *)
Lemma emap_allocated i :
  0 ≤ i < range →
  dchain_is_index_allocated (o_chain o) i =
    Some (match t_entry t i with Some _ => 1 | None => 0 end).
Proof.
  intros Hi. rewrite (is_allocated_refines _ _ _ (em_chain _ _ _ HE) i Hi). f_equal.
  unfold lru_allocated, t_entry.
  destruct (list_find _ _) as [[n e]|] eqn:E; simpl.
  - apply list_find_Some in E as (Hl & <- & _).
    rewrite bool_decide_eq_true_2; [done|]. apply (ent_alist e).
    by eapply list_elem_of_lookup_2.
  - apply list_find_None in E. rewrite Forall_forall in E.
    rewrite bool_decide_eq_false_2; [done|]. simpl. rewrite <- list_fmap_compose.
    intros (e & -> & He)%list_elem_of_fmap. by eapply E.
Qed.

End objects.

(** *** Fresh objects *)

Lemma emap_fresh (M : Map) (v : Vector K) ch range :
  (∀ h : heap K, mapp pow2 h M ∅ ∅) → range ≤ capacity M → vector_ok v →
  range ≤ vec_capacity v → double_chainp ch range (lru_init range) →
  emapp (Objs M v ch) range (Table [] (seqZ 0 range)).
Proof.
  intros HM Hc Hv Hvc HC. constructor; simpl; try done.
  - apply NoDup_nil_2.
  - intros e He. by apply elem_of_nil in He.
Qed.

(** *** Lookups in a filtered table *)

Lemma t_lookup_filter (P : ent K → Prop) `{∀ e, Decision (P e)} (t : table K) fs k :
  NoDup (e_key <$> ents t) →
  t_lookup (Table (filter P (ents t)) fs) k =
    match t_lookup t k with Some e => if decide (P e) then Some e else None | None => None end.
Proof.
  intros Hnd. set (t' := Table (filter P (ents t)) fs).
  assert (NoDup (e_key <$> ents t')) as Hnd'.
  { simpl. eapply (sublist_NoDup _ (e_key <$> ents t)); [done|].
    apply fmap_sublist, sublist_filter. }
  destruct (t_lookup t' k) as [e|] eqn:E'.
  - apply t_lookup_Some in E' as [He <-]. simpl in He. apply list_elem_of_filter in He as [HP He].
    rewrite t_lookup_elem by done. by rewrite decide_True.
  - destruct (t_lookup t k) as [e|] eqn:E; [|done]. case_decide; [|done].
    apply t_lookup_Some in E as [He Hk].
    destruct (t_lookup_None _ _ E' e); [|done]. simpl. by apply list_elem_of_filter.
Qed.

End coherence.

(** ** Concrete objects *)

Definition demo_map : Map := MkMap (demo_empty 4) 4 0.

(** Fresh objects for three keys of [size] bytes. *)
Definition demo_table {K} (size : Z) (k : K) : emap_objs K :=
  Objs demo_map (MkVector 1000 size 3 (replicate 3 k)) demo_chain.

Lemma demo_table_ok {K} `{KeyLaws K} `{Countable K} size (k : K) :
  0 < size < 4096 → emapp false (demo_table size k) 3 (Table [] [0; 1; 2]).
Proof.
  intros Hs. constructor; simpl; try done.
  - constructor; [|done|by split_and!].
    destruct (map_impl_init_spec (deref (MkVector 1000 size 3 (replicate 3 k))) 4 (demo_blank 4))
      as (A & HA & HM); [done..|]. simpl. unfold demo_empty. by rewrite HA.
  - apply demo_chain_ok.
  - apply NoDup_nil_2.
  - intros e He. by apply elem_of_nil in He.
Qed.

Definition demo_objs : emap_objs Z := demo_table 8 0.

Lemma demo_objs_ok : emapp false demo_objs 3 (Table [] [0; 1; 2]).
Proof. by apply demo_table_ok. Qed.

Definition demo_add (o : emap_objs Z) (k time : Z) : emap_objs Z :=
  default o
    ('(r, ch, i) ← dchain_allocate_new_index (o_chain o) 0 time;
     p ← vector_borrow (o_vec o) i;
     v ← store (o_vec o) p k;
     M ← map_put false (deref v) (o_map o) p i;
     Some (Objs M v ch)).

Lemma demo_add_ok o range t k time i fs :
  emapp false o range t → t_frees t = i :: fs → t_lookup t k = None →
  emapp false (demo_add o k time) range (t_add t k time).
Proof.
  intros HE Hf Hk.
  destruct (emap_add _ _ _ _ HE k 0 i fs time Hk Hf) as (ch' & Ha & _ & Hb & Hs & Hput).
  destruct (Hput _ (sees_deref _)) as (M' & Hp & HE').
  unfold demo_add. rewrite Ha. cbn [mbind option_bind]. rewrite Hb. cbn [mbind option_bind].
  rewrite Hs. cbn [mbind option_bind]. rewrite Hp. done.
Qed.

(** A table with two entries, [7] of time 10 and [5] of time 20. *)
Definition demo_two : emap_objs Z := demo_add (demo_add demo_objs 7 10) 5 20.

Lemma demo_two_ok : emapp false demo_two 3 (Table [Ent 0 7 10; Ent 1 5 20] [2]).
Proof.
  apply (demo_add_ok (demo_add demo_objs 7 10) 3 (Table [Ent 0 7 10] [1; 2]) 5 20 1 [2]);
    [|done|done].
  by apply (demo_add_ok demo_objs 3 (Table [] [0; 1; 2]) 7 10 0 [1; 2] demo_objs_ok).
Qed.
