(* ===== verification/Expirator.v ===== *)
(** * expirator.c

    Expiration of the indexes of a chain together with the entries they stand
    for: [expire_items_single_map] for a map with its key vector. *)
From stdpp Require Import base list gmap numbers sets.
From Stdlib Require Import ZArith Lia.
From S2P Require Import Prelude.
From S2P Require Import Memory.
From S2P Require Import MapImpl.
From S2P Require Import Map.
From S2P Require Import Vector.
From S2P Require Import DChainImpl.
From S2P Require Import DChain.
From S2P Require Import Emap.

Section expirator.
Context {K : Type} `{KeyOps K}.
Variable pow2 : bool.

(** Returns the number of expired items, the chain and the map.  Each iteration
    frees an index of the chain, so one iteration per index and the last test
    are enough fuel. *)
Definition expire_items_single_map (chain : DoubleChain) (vector : Vector K) (map : Map)
    (time : Z) : option (Z * DoubleChain * Map) :=
  iterate (S (length (timestamps chain)))
    (λ '(count, index, chain, map),
      '(more, chain', index') ← dchain_expire_one_index chain index time;
      if more =? 0 then Some (Return (count, chain', map)) else
      key ← vector_borrow vector index';
      '(map', key') ← map_erase pow2 (deref vector) map key key;
      let vector' := vector_return vector index' key' in
      count' ← int_chk (count + 1);
      Some (Continue (count', index', chain', map')))
    (0, -1, chain, map).

End expirator.

Section specification.
Context {K : Type} `{KeyLaws K} `{Countable K}.
Variable pow2 : bool.

(** One expiration of the oldest entry. *)
Lemma expire_head (o : emap_objs K) range (t : table K) e es index :
  emapp pow2 o range t → ents t = e :: es →
  ∀ time, e_time e < time →
  ∃ ch' M', dchain_expire_one_index (o_chain o) index time = Some (1, ch', e_idx e) ∧
    vector_borrow (o_vec o) (e_idx e) = Some (addr (o_vec o) (e_idx e)) ∧
    map_erase pow2 (deref (o_vec o)) (o_map o) (addr (o_vec o) (e_idx e))
      (addr (o_vec o) (e_idx e)) = Some (M', addr (o_vec o) (e_idx e)) ∧
    emapp pow2 (Objs M' (o_vec o) ch') range (Table es (e_idx e :: t_frees t)).
Proof.
  intros HE Hes time Ht. assert (e ∈ ents t) as He by (rewrite Hes; by left).
  destruct (emap_key _ _ _ _ HE e He) as [Hd Hb].
  pose proof (expire_one_refines _ _ _ (em_chain _ _ _ _ HE) index time) as Hx.
  unfold lru_expire_one in Hx. simpl in Hx. rewrite Hes in Hx. simpl in Hx.
  destruct (Z.ltb_spec (e_time e) time); [|lia]. destruct Hx as (ch' & -> & HC).
  destruct (emap_erase _ _ _ _ HE e (addr (o_vec o) (e_idx e)) (addr (o_vec o) (e_idx e))
              (deref (o_vec o)) He (sees_deref _) Hd) as (M' & HM & Hcoh).
  exists ch', M'. split_and!; [done..|].
  destruct (ents_split _ _ _ _ HE e He) as (l1 & l2 & Hl & Hf & _).
  assert (filter (λ e', e_idx e' ≠ e_idx e) (ents t) = es) as Hfe.
  { rewrite Hes, filter_cons_False by auto. apply filter_all. intros e' He' Heq.
    pose proof (ent_idx_NoDup _ _ _ _ HE) as Hnd. rewrite Hes, fmap_cons in Hnd.
    apply NoDup_cons in Hnd as [Hn _]. apply Hn. rewrite <- Heq. by apply list_elem_of_fmap_2. }
  rewrite <- Hfe. apply Hcoh. unfold remove_by_index. simpl. rewrite filter_fmap.
  simpl. by rewrite Hfe.
Qed.

(** The loop drops the old entries at the front of the table, terminates and
    keeps the objects coherent. *)
(** Nothing is expired when the oldest entry is not old enough. *)
Lemma expire_stop (o : emap_objs K) range (t : table K) index time :
  emapp pow2 o range t → (∀ e, head (ents t) = Some e → time ≤ e_time e) →
  ∃ ch' index', dchain_expire_one_index (o_chain o) index time = Some (0, ch', index') ∧
    emapp pow2 (Objs (o_map o) (o_vec o) ch') range t ∧ t_expire t time = t.
Proof.
  intros HE Hhd. pose proof (expire_one_refines _ _ _ (em_chain _ _ _ _ HE) index time) as Hx.
  unfold lru_expire_one in Hx. unfold t_expire. destruct t as [[|e es] fs]; simpl in *.
  - destruct Hx as (ch' & Hd & HC). eexists _, _. split; [exact Hd|]. split; [|done].
    destruct HE. by constructor.
  - pose proof (Hhd e eq_refl). destruct (Z.ltb_spec (e_time e) time); [lia|].
    destruct Hx as (ch' & Hd & HC). eexists _, _. split; [exact Hd|]. split; [|done].
    destruct HE. by constructor.
Qed.

Lemma expire_items_single_map_spec (o : emap_objs K) range (t : table K) time :
  emapp pow2 o range t →
  ∃ ch' M', expire_items_single_map pow2 (o_chain o) (o_vec o) (o_map o) time =
      Some (Z.of_nat (length (ents t)) - Z.of_nat (length (ents (t_expire t time))), ch', M') ∧
    emapp pow2 (Objs M' (o_vec o) ch') range (t_expire t time).
Proof.
  intros HE. unfold expire_items_single_map. set (v := o_vec o) in *.
  edestruct (iterate_rule (S := Z * Z * DoubleChain * Map) (R := Z * DoubleChain * Map)
    (λ '(count, index, chain, map), ∃ t', emapp pow2 (Objs map v chain) range t' ∧
       t_expire t' time = t_expire t time ∧
       count = Z.of_nat (length (ents t)) - Z.of_nat (length (ents t')) ∧
       (length (ents t') ≤ length (ents t))%nat)
    (λ '(count, chain, map), emapp pow2 (Objs map v chain) range (t_expire t time) ∧
       count = Z.of_nat (length (ents t)) - Z.of_nat (length (ents (t_expire t time))))
    (λ '(count, index, chain, map), Z.to_nat (Z.of_nat (length (ents t)) - count)))
    as ([[count ch'] M'] & -> & HE' & ->).
  - intros [[[count index] chain] map] (t' & HE' & Hex & -> & Hle).
    pose proof (ents_length _ _ _ _ HE) as Hlen.
    pose proof (dc_range _ _ _ (em_chain _ _ _ _ HE)) as Hr. unfold IRANG_LIMIT in Hr.
    destruct (head (ents t')) as [e|] eqn:Hhd; [destruct (Z.ltb_spec (e_time e) time) as [Ht|Ht]|].
    + destruct (ents t') as [|e' es] eqn:Hes; [done|]. injection Hhd as ->.
      destruct (expire_head _ _ _ _ _ index HE' Hes time Ht) as (ch' & M' & Hd & Hb & Hm & HE1).
      cbn [o_chain o_vec o_map] in *. osteps. destruct (Z.eqb_spec 1 0); [lia|]. osteps.
      simpl in Hle. rewrite int_chk_small by (unfold INT_MIN, INT_MAX; simpl; lia).
      cbn [mbind option_bind]. eexists. split; [done|]. cbn beta iota. split; [|simpl; lia].
      eexists. split; [exact HE1|]. split_and!; simpl; [|lia..].
      rewrite <- Hex. unfold t_expire. rewrite Hes. simpl.
      destruct (Z.ltb_spec (e_time e) time); [done|lia].
    + destruct (expire_stop _ _ _ index time HE') as (ch' & index' & Hd & HE1 & Hno).
      { intros e' He'. congruence. }
      cbn [o_chain o_vec o_map] in *. osteps. eexists. split; [done|].
      rewrite <- Hex, Hno. done.
    + destruct (expire_stop _ _ _ index time HE') as (ch' & index' & Hd & HE1 & Hno).
      { intros e' He'. congruence. }
      cbn [o_chain o_vec o_map] in *. osteps. eexists. split; [done|].
      rewrite <- Hex, Hno. done.
  - exists t. destruct o. split_and!; [done|done|lia|lia].
  - pose proof (ents_length _ _ _ _ HE). pose proof (dc_len _ _ _ (em_chain _ _ _ _ HE)).
    unfold zlen in *. lia.
  - eauto.
Qed.

End specification.

(** ** Main result *)

(** C8: expiration drops exactly the expired entries.  On coherent objects whose
    entries are in the order of their times, [expire_items_single_map]
    terminates without undefined behaviour, returns the number of entries older
    than [time], leaves the objects coherent with exactly the entries that are
    not older, in their order, and a later lookup of any key finds it exactly
    when it was stored and had not expired. *)
Theorem expire_items_single_map_exact {K} `{KeyLaws K} `{Countable K} (pow2 : bool)
    (o : emap_objs K) (range time now : Z) (t : table K) :
  emapp pow2 o range t → t_sorted t now →
  ∃ ch' M', expire_items_single_map pow2 (o_chain o) (o_vec o) (o_map o) time =
      Some (Z.of_nat (length (filter (λ e, e_time e < time) (ents t))), ch', M') ∧
    emapp pow2 (Objs M' (o_vec o) ch') range (t_expire t time) ∧
    ents (t_expire t time) = filter (λ e, time ≤ e_time e) (ents t) ∧
    ∀ a k v0, outside (o_vec o) a →
      map_get pow2 (with_local (deref (o_vec o)) a k) M' a v0 =
        Some (match t_lookup t k with
              | Some e => if time <=? e_time e then (1, e_idx e) else (0, v0)
              | None => (0, v0)
              end).
Proof.
  intros HE [Hs _]. destruct (expire_items_single_map_spec pow2 o range t time HE)
    as (ch' & M' & -> & HE').
  pose proof (drop_old_sorted (ents t) (t_frees t) time Hs) as Hents.
  fold (t_expire t time) in Hents.
  exists ch', M'. split_and!; [|done|done|].
  - rewrite Hents. do 3 f_equal. apply length_filter_split.
    intros e. lia.
  - intros a k v0 Ho.
    pose proof (emap_get _ _ _ _ HE' a k v0 Ho) as Hg. cbn [o_map o_vec] in Hg. rewrite Hg.
    destruct (t_expire t time) as [es fs]. simpl in Hents. subst es.
    rewrite t_lookup_filter by apply (em_keys _ _ _ _ HE).
    destruct (t_lookup t k) as [e|]; [|done].
    case_decide; destruct (Z.leb_spec time (e_time e)); lia || done.
Qed.

Lemma expire_items_single_map_exact_witness :
  ∃ ch' M', expire_items_single_map false (o_chain demo_two) (o_vec demo_two)
              (o_map demo_two) 15 = Some (1, ch', M').
Proof.
  destruct (expire_items_single_map_exact false demo_two 3 15 30 _ demo_two_ok)
    as (ch' & M' & Hx & _).
  - split; [|set_solver by lia]. repeat constructor; simpl; lia.
  - exists ch', M'. exact Hx.
Defined.
