(* ===== verification/DoubleMap.v ===== *)
(** * double-map.c and expire_items of expirator.c

    A table of values with two keys each.  The values sit in one array, two
    hash tables map the keys to indexes of that array, and the keys are parts
    of the stored values, so the key pointers of the tables point into it. *)
From stdpp Require Import base list gmap numbers sets sorting.
From Stdlib Require Import ZArith Lia.
From S2P Require Import Prelude.
From S2P Require Import Memory.
From S2P Require Import MapImpl.
From S2P Require Import Map.
From S2P Require Import Vector.
From S2P Require Import DChainImpl.
From S2P Require Import DChain.
From S2P Require Import Emap.

(** The callbacks of the client: the keys of a value and their offsets in it
    ([dmap_extract_keys]), and what is left of a value that was destroyed
    ([uq_value_destr]).  [uq_value_copy] copies a value, [dmap_pack_keys] only
    joins the ownership of the parts. *)
Class DMapOps (V K1 K2 : Type) := {
  vk1 : V → K1;
  vk2 : V → K2;
  off1 : Z;
  off2 : Z;
  destroyed : V → V
}.

(** struct DoubleMap; [values] with its element size and capacity is a vector. *)
Record DoubleMap (V : Type) := MkDMap {
  dm_values : Vector V;
  arrays_a : map_arrays;
  arrays_b : map_arrays;
  keys_capacity : Z;
  n_vals : Z
}.
Arguments MkDMap {V} _ _ _ _ _.
Arguments dm_values {V} _.
Arguments arrays_a {V} _.
Arguments arrays_b {V} _.
Arguments keys_capacity {V} _.
Arguments n_vals {V} _.

(** The memory of one key of the stored values. *)
Definition key_heap {V K} (vk : V → K) (off : Z) (v : Vector V) : heap K :=
  λ p, vk <$> deref v (p - off).

Section dmap.
Context {V K1 K2 : Type} `{DMapOps V K1 K2} `{KeyOps K1} `{KeyOps K2}.
Variable CAPACITY_POW2 : bool.
(** The contents of fresh memory, seen as values. *)
Variable fresh : Z → V.

(** Returns the result, [*map_out] and the map behind it. *)
Definition dmap_allocate (value_size capacity keys_cap map_out : Z)
    : M (Z * Z * option (DoubleMap V)) :=
  if CAPACITY_POW2 && ((keys_cap =? 0) || negb (Z.land keys_cap (u32 (keys_cap - 1)) =? 0))
  then mret (0, map_out, None) else
  let old_map_val := map_out in
  map_alloc ← malloc 176;
  if map_alloc =? NULL then mret (0, map_out, None) else
  vals_alloc ← malloc (u32 (u32 value_size * capacity));
  if vals_alloc =? NULL then
    _ ← free map_alloc; mret (0, old_map_val, None) else
  bbs_a_alloc ← malloc (u64 (4 * s32 keys_cap));
  if bbs_a_alloc =? NULL then
    _ ← free vals_alloc; _ ← free map_alloc; mret (0, old_map_val, None) else
  kps_a_alloc ← malloc (u64 (8 * s32 keys_cap));
  if kps_a_alloc =? NULL then
    _ ← free bbs_a_alloc; _ ← free vals_alloc; _ ← free map_alloc;
    mret (0, old_map_val, None) else
  khs_a_alloc ← malloc (u64 (4 * s32 keys_cap));
  if khs_a_alloc =? NULL then
    _ ← free kps_a_alloc; _ ← free bbs_a_alloc; _ ← free vals_alloc; _ ← free map_alloc;
    mret (0, old_map_val, None) else
  chns_a_alloc ← malloc (u64 (4 * s32 keys_cap));
  if chns_a_alloc =? NULL then
    _ ← free khs_a_alloc; _ ← free kps_a_alloc; _ ← free bbs_a_alloc; _ ← free vals_alloc;
    _ ← free map_alloc; mret (0, old_map_val, None) else
  inds_a_alloc ← malloc (u64 (4 * s32 keys_cap));
  if inds_a_alloc =? NULL then
    _ ← free chns_a_alloc; _ ← free khs_a_alloc; _ ← free kps_a_alloc; _ ← free bbs_a_alloc;
    _ ← free vals_alloc; _ ← free map_alloc; mret (0, old_map_val, None) else
  bbs_b_alloc ← malloc (u64 (4 * s32 keys_cap));
  if bbs_b_alloc =? NULL then
    _ ← free inds_a_alloc; _ ← free chns_a_alloc; _ ← free khs_a_alloc; _ ← free kps_a_alloc;
    _ ← free bbs_a_alloc; _ ← free vals_alloc; _ ← free map_alloc;
    mret (0, old_map_val, None) else
  kps_b_alloc ← malloc (u64 (8 * s32 keys_cap));
  if kps_b_alloc =? NULL then
    _ ← free bbs_b_alloc; _ ← free inds_a_alloc; _ ← free chns_a_alloc; _ ← free khs_a_alloc;
    _ ← free kps_a_alloc; _ ← free bbs_a_alloc; _ ← free vals_alloc; _ ← free map_alloc;
    mret (0, old_map_val, None) else
  khs_b_alloc ← malloc (u64 (4 * s32 keys_cap));
  if khs_b_alloc =? NULL then
    _ ← free kps_b_alloc; _ ← free bbs_b_alloc; _ ← free inds_a_alloc; _ ← free chns_a_alloc;
    _ ← free khs_a_alloc; _ ← free kps_a_alloc; _ ← free bbs_a_alloc; _ ← free vals_alloc;
    _ ← free map_alloc; mret (0, old_map_val, None) else
  inds_b_alloc ← malloc (u64 (4 * s32 keys_cap));
  if inds_b_alloc =? NULL then
    _ ← free khs_b_alloc; _ ← free kps_b_alloc; _ ← free bbs_b_alloc; _ ← free inds_a_alloc;
    _ ← free chns_a_alloc; _ ← free khs_a_alloc; _ ← free kps_a_alloc; _ ← free bbs_a_alloc;
    _ ← free vals_alloc; _ ← free map_alloc; mret (0, old_map_val, None) else
  chns_b_alloc ← malloc (u64 (4 * s32 keys_cap));
  if chns_b_alloc =? NULL then
    _ ← free inds_b_alloc; _ ← free khs_b_alloc; _ ← free kps_b_alloc; _ ← free bbs_b_alloc;
    _ ← free inds_a_alloc; _ ← free chns_a_alloc; _ ← free khs_a_alloc; _ ← free kps_a_alloc;
    _ ← free bbs_a_alloc; _ ← free vals_alloc; _ ← free map_alloc;
    mret (0, old_map_val, None) else
  bbs_a ← junk_array 4 bbs_a_alloc keys_cap;
  kps_a ← junk_array 8 kps_a_alloc keys_cap;
  khs_a ← junk_array 4 khs_a_alloc keys_cap;
  chns_a ← junk_array 4 chns_a_alloc keys_cap;
  inds_a ← junk_array 4 inds_a_alloc keys_cap;
  A ← lift (map_impl_init (MkArrays bbs_a kps_a khs_a chns_a inds_a) keys_cap);
  bbs_b ← junk_array 4 bbs_b_alloc keys_cap;
  kps_b ← junk_array 8 kps_b_alloc keys_cap;
  khs_b ← junk_array 4 khs_b_alloc keys_cap;
  chns_b ← junk_array 4 chns_b_alloc keys_cap;
  inds_b ← junk_array 4 inds_b_alloc keys_cap;
  B ← lift (map_impl_init (MkArrays bbs_b kps_b khs_b chns_b inds_b) keys_cap);
  mret (1, map_alloc,
        Some (MkDMap (MkVector vals_alloc value_size capacity
                        ((λ i, fresh (vals_alloc + value_size * i)) <$> seqZ 0 capacity))
                A B keys_cap 0)).

(** The keys that the client passes to the lookups are in the memory [h]. *)
Definition dmap_get_a (h : heap K1) (map : DoubleMap V) (key index : Z) : option (Z * Z) :=
  hash ← map_key_hash h key;
  map_impl_get (map_loop CAPACITY_POW2) (arrays_a map) h key hash index (keys_capacity map).

Definition dmap_get_b (h : heap K2) (map : DoubleMap V) (key index : Z) : option (Z * Z) :=
  hash ← map_key_hash h key;
  map_impl_get (map_loop CAPACITY_POW2) (arrays_b map) h key hash index (keys_capacity map).

Definition dmap_put (map : DoubleMap V) (value : V) (index : Z) : option (Z * DoubleMap V) :=
  my_value ← vector_borrow (dm_values map) index;
  vals ← store (dm_values map) my_value value;
  let key_a := my_value + off1 in
  let key_b := my_value + off2 in
  hash1 ← map_key_hash (key_heap vk1 off1 vals) key_a;
  A ← map_impl_put (map_loop CAPACITY_POW2) (arrays_a map) key_a hash1 index (keys_capacity map);
  hash2 ← map_key_hash (key_heap vk2 off2 vals) key_b;
  B ← map_impl_put (map_loop CAPACITY_POW2) (arrays_b map) key_b hash2 index (keys_capacity map);
  Some (1, MkDMap vals A B (keys_capacity map) (u32 (n_vals map + 1))).

(** Returns [*value_out]. *)
Definition dmap_get_value (map : DoubleMap V) (index : Z) : option V :=
  my_value ← vector_borrow (dm_values map) index;
  deref (dm_values map) my_value.

Definition dmap_erase (map : DoubleMap V) (index : Z) : option (Z * DoubleMap V) :=
  my_value ← vector_borrow (dm_values map) index;
  value ← deref (dm_values map) my_value;
  let key_a := my_value + off1 in
  let key_b := my_value + off2 in
  let ha := key_heap vk1 off1 (dm_values map) in
  let hb := key_heap vk2 off2 (dm_values map) in
  hash1 ← map_key_hash ha key_a;
  '(A, out_key_a) ← map_impl_erase (map_loop CAPACITY_POW2) (arrays_a map) ha key_a hash1
                      (keys_capacity map) 0;
  hash2 ← map_key_hash hb key_b;
  '(B, out_key_b) ← map_impl_erase (map_loop CAPACITY_POW2) (arrays_b map) hb key_b hash2
                      (keys_capacity map) 0;
  vals ← store (dm_values map) my_value (destroyed value);
  Some (1, MkDMap vals A B (keys_capacity map) (u32 (n_vals map - 1))).

Definition dmap_size (map : DoubleMap V) : Z := n_vals map.

(** Returns the number of expired items, the chain and the map. *)
Definition expire_items (chain : DoubleChain) (map : DoubleMap V) (time : Z)
    : option (Z * DoubleChain * DoubleMap V) :=
  iterate (S (length (timestamps chain)))
    (λ '(count, index, chain, map),
      '(more, chain', index') ← dchain_expire_one_index chain index time;
      if more =? 0 then Some (Return (count, chain', map)) else
      '(_, map') ← dmap_erase map index';
      count' ← int_chk (count + 1);
      Some (Continue (count', index', chain', map')))
    (0, -1, chain, map).

End dmap.

(** ** One of the two tables *)

Section half.
Context {V K : Type} `{KeyLaws K} `{Countable K}.
Variable pow2 : bool.
Context (vk : V → K) (off : Z).
Implicit Types (v : Vector V) (vals : gmap Z V).

(** The first index whose value has the key. *)
Definition index_of vals (k : K) : option Z :=
  (λ p, p.2.1) <$> list_find (λ p, vk p.2 = k) (map_to_list vals).

Lemma index_of_spec vals k :
  match index_of vals k with
  | Some i => ∃ x, vals !! i = Some x ∧ vk x = k
  | None => ∀ i x, vals !! i = Some x → vk x ≠ k
  end.
Proof.
  unfold index_of. destruct (list_find _ _) as [[n [i x]]|] eqn:E; simpl.
  - apply list_find_Some in E as (Hn & Hk & _). exists x. split; [|done].
    apply elem_of_map_to_list. by eapply list_elem_of_lookup_2.
  - intros i x Hx. apply list_find_None in E. rewrite Forall_forall in E.
    apply elem_of_map_to_list in Hx. by apply (E _ Hx).
Qed.

(** Memory that agrees with the stored values on one of their keys. *)
Definition sees_keys v (h : heap K) : Prop :=
  ∀ i, 0 ≤ i < vec_capacity v → h (addr v i + off) = key_heap vk off v (addr v i + off).

(** The table maps the key of every stored value to its index, and its key
    pointers point into the values. *)
Record half v (cap : Z) (A : map_arrays) vals (m addrs : gmap K Z) : Prop := Half {
  hf_mapping : mapping (key_heap vk off v) cap A m addrs;
  hf_map : ∀ k i, m !! k = Some i ↔ ∃ x, vals !! i = Some x ∧ vk x = k;
  hf_addrs : ∀ k p, addrs !! k = Some p → ∃ i x, vals !! i = Some x ∧ vk x = k ∧ p = addr v i + off;
  hf_size : size m = size vals
}.

Lemma key_heap_addr v i x :
  vector_ok v → rd (cells v) i = Some x → key_heap vk off v (addr v i + off) = Some (vk x).
Proof.
  intros Hv Hx. unfold key_heap. replace (addr v i + off - off) with (addr v i) by lia.
  by rewrite deref_addr, Hx.
Qed.

(** A change of a value that is not stored does not concern the table. *)
Lemma half_vset v cap A vals m addrs i x :
  vector_ok v → 0 ≤ i < vec_capacity v → vals !! i = None →
  half v cap A vals m addrs → half (vset v i x) cap A vals m addrs.
Proof.
  intros Hv Hi Hn [HM Hm Ha Hs]. constructor; [|done|exact Ha|done].
  eapply mapping_frame; [exact HM|]. intros k p (j & y & Hj & _ & ->)%Ha.
  unfold key_heap. replace (addr v j + off - off) with (addr v j) by lia.
  rewrite deref_vset by done. destruct (Z.eqb_spec i j) as [->|]; [congruence|done].
Qed.

Lemma half_put v cap A vals m addrs i x :
  capacity_ok pow2 cap → vector_ok v → rd (cells v) i = Some x → vals !! i = None →
  (∀ j y, vals !! j = Some y → vk y ≠ vk x) → Z.of_nat (size vals) < cap →
  half v cap A vals m addrs →
  ∃ A', map_impl_put (map_loop pow2) A (addr v i + off) (key_hash (vk x)) i cap = Some A' ∧
    half v cap A' (<[i := x]> vals) (<[vk x := i]> m) (<[vk x := addr v i + off]> addrs).
Proof.
  intros Hc Hv Hx Hn Hnew Hsz [HM Hm Ha Hs]. pose proof (capacity_loop pow2 cap Hc).
  assert (m !! vk x = None) as Hmn.
  { destruct (m !! vk x) as [j|] eqn:E; [|done]. apply Hm in E as (y & Hy & Hk).
    by destruct (Hnew j y Hy). }
  destruct (map_impl_put_spec (map_loop pow2) cap _ A m addrs (addr v i + off) (vk x) i HM)
    as (A' & -> & HM'); [by apply key_heap_addr|done|by rewrite Hs|].
  exists A'. split; [done|]. constructor; [done| | |].
  - intros k j. rewrite lookup_insert_Some, Hm. split.
    + intros [[<- <-]|[Hne (y & Hy & Hk)]].
      * exists x. by rewrite lookup_insert_eq.
      * exists y. rewrite lookup_insert_ne by congruence. done.
    + intros (y & [[<- <-]|[Hne Hy]]%lookup_insert_Some & Hk); [by left|].
      right. split; [|by eauto]. intros <-. by destruct (Hnew j y Hy).
  - intros k p [[<- <-]|[Hne (j & y & Hj & Hk & ->)%Ha]]%lookup_insert_Some.
    + exists i, x. by rewrite lookup_insert_eq.
    + exists j, y. rewrite lookup_insert_ne by congruence. done.
  - rewrite !map_size_insert_None by done. by rewrite Hs.
Qed.

Lemma half_erase v cap A vals m addrs i x out :
  capacity_ok pow2 cap → vector_ok v → rd (cells v) i = Some x → vals !! i = Some x →
  half v cap A vals m addrs →
  ∃ A' p, map_impl_erase (map_loop pow2) A (key_heap vk off v) (addr v i + off)
            (key_hash (vk x)) cap out = Some (A', p) ∧
    half v cap A' (delete i vals) (delete (vk x) m) (delete (vk x) addrs).
Proof.
  intros Hc Hv Hx Hi [HM Hm Ha Hs]. pose proof (capacity_loop pow2 cap Hc).
  assert (m !! vk x = Some i) as Hmi by (apply Hm; eauto).
  destruct (map_impl_erase_spec (map_loop pow2) cap _ A m addrs (addr v i + off) (vk x) i out HM)
    as (A' & p & -> & _ & HM'); [by apply key_heap_addr|done|].
  exists A', p. split; [done|]. constructor; [done| | |].
  - intros k j. rewrite lookup_delete_Some, Hm. split.
    + intros (Hne & y & Hy & Hk). exists y. rewrite lookup_delete_Some. split_and!; [|done..].
      intros <-. congruence.
    + intros (y & [Hne Hy]%lookup_delete_Some & Hk). split; [|by eauto]. intros <-.
      apply Hne. assert (m !! vk x = Some j) by (apply Hm; eauto). congruence.
  - intros k p' [Hne (j & y & Hj & Hk & ->)%Ha]%lookup_delete_Some.
    exists j, y. rewrite lookup_delete_Some. split_and!; [|done..]. intros <-. congruence.
  - rewrite !map_size_delete, Hmi, Hi. by rewrite Hs.
Qed.

Lemma half_get v cap A vals m addrs h p k out :
  capacity_ok pow2 cap → half v cap A vals m addrs →
  (∀ i x, vals !! i = Some x → 0 ≤ i < vec_capacity v) → sees_keys v h → h p = Some k →
  map_impl_get (map_loop pow2) A h p (key_hash k) out cap =
    Some (match index_of vals k with Some i => (1, i) | None => (0, out) end).
Proof.
  intros Hc [HM Hm Ha Hs] Hr Hh Hp. pose proof (capacity_loop pow2 cap Hc).
  rewrite (map_impl_get_spec (map_loop pow2) cap h A m addrs p k out); [| |done].
  - pose proof (index_of_spec vals k) as Hi. destruct (index_of vals k) as [i|].
    + by rewrite (proj2 (Hm k i)).
    + destruct (m !! k) as [j|] eqn:E; [|done]. apply Hm in E as (x & Hx & Hk). by destruct (Hi j x).
  - eapply mapping_frame; [exact HM|]. intros k' p' (i & x & Hi & _ & ->)%Ha. by eapply Hh, Hr.
Qed.

End half.

(** ** The double map *)

Section specification.
Context {V K1 K2 : Type} `{DMapOps V K1 K2}.
Context `{KeyLaws K1} `{Countable K1} `{KeyLaws K2} `{Countable K2}.
Variable pow2 : bool.
Implicit Types (D : DoubleMap V) (vals : gmap Z V).

(** [D] stores the values [vals] by index. *)
Record dmapp D vals : Prop := Dmapp {
  dp_vec : vector_ok (dm_values D);
  dp_cap : capacity_ok pow2 (keys_capacity D);
  dp_cells : ∀ i x, vals !! i = Some x → rd (cells (dm_values D)) i = Some x;
  dp_a : ∃ m addrs, half vk1 off1 (dm_values D) (keys_capacity D) (arrays_a D) vals m addrs;
  dp_b : ∃ m addrs, half vk2 off2 (dm_values D) (keys_capacity D) (arrays_b D) vals m addrs;
  dp_count : n_vals D = Z.of_nat (size vals)
}.

(** Two vectors that occupy the same memory. *)
Definition same_place (v v' : Vector V) : Prop :=
  data v = data v' ∧ elem_size v = elem_size v' ∧ vec_capacity v = vec_capacity v'.

Section stored.
Context (D : DoubleMap V) (vals : gmap Z V).
Hypothesis HD : dmapp D vals.

Lemma stored_range i x : vals !! i = Some x → 0 ≤ i < vec_capacity (dm_values D).
Proof.
  intros Hi%(dp_cells _ _ HD). rewrite <- (vo_len _ (dp_vec _ _ HD)). by eapply rd_Some_range.
Qed.

Lemma count_bound : Z.of_nat (size vals) < INT_MAX.
Proof.
  destruct (dp_a _ _ HD) as (m & addrs & HM). rewrite <- (hf_size _ _ _ _ _ _ _ _ HM).
  pose proof (mapping_size_le _ _ _ _ _ (hf_mapping _ _ _ _ _ _ _ _ HM)).
  destruct (dp_cap _ _ HD). lia.
Qed.

(** A lookup by key: the index of the value with that key. *)
Lemma get_a_spec h p k out :
  sees_keys vk1 off1 (dm_values D) h → h p = Some k →
  dmap_get_a pow2 h D p out =
    Some (match index_of vk1 vals k with Some i => (1, i) | None => (0, out) end).
Proof.
  intros Hh Hp. destruct (dp_a _ _ HD) as (m & addrs & HM). unfold dmap_get_a.
  rewrite (map_key_hash_at _ _ _ Hp). cbn [mbind option_bind].
  eapply half_get; [apply HD|exact HM|apply stored_range|done..].
Qed.

Lemma get_b_spec h p k out :
  sees_keys vk2 off2 (dm_values D) h → h p = Some k →
  dmap_get_b pow2 h D p out =
    Some (match index_of vk2 vals k with Some i => (1, i) | None => (0, out) end).
Proof.
  intros Hh Hp. destruct (dp_b _ _ HD) as (m & addrs & HM). unfold dmap_get_b.
  rewrite (map_key_hash_at _ _ _ Hp). cbn [mbind option_bind].
  eapply half_get; [apply HD|exact HM|apply stored_range|done..].
Qed.

Lemma get_value_spec i x : vals !! i = Some x → dmap_get_value D i = Some x.
Proof.
  intros Hi. unfold dmap_get_value.
  rewrite vector_borrow_spec by (apply HD || by eapply stored_range). cbn [mbind option_bind].
  rewrite deref_addr by apply HD. by apply (dp_cells _ _ HD).
Qed.

Lemma put_spec x i :
  0 ≤ i < vec_capacity (dm_values D) → vals !! i = None →
  (∀ j y, vals !! j = Some y → vk1 y ≠ vk1 x ∧ vk2 y ≠ vk2 x) →
  Z.of_nat (size vals) < keys_capacity D →
  ∃ D', dmap_put pow2 D x i = Some (1, D') ∧ dmapp D' (<[i := x]> vals) ∧
    keys_capacity D' = keys_capacity D ∧ same_place (dm_values D') (dm_values D).
Proof.
  intros Hi Hn Hnew Hsz. pose proof (dp_vec _ _ HD) as Hv. pose proof (dp_cap _ _ HD) as Hc.
  destruct (dp_a _ _ HD) as (ma & aa & HA). destruct (dp_b _ _ HD) as (mb & ab & HB).
  pose proof (vset_ok _ i x Hv) as Hv'. set (v' := vset (dm_values D) i x) in *.
  assert (rd (cells v') i = Some x) as Hx.
  { simpl. apply rd_insert_eq. by rewrite (vo_len _ Hv). }
  apply (half_vset _ _ _ _ _ _ _ _ i x Hv Hi Hn) in HA. apply (half_vset _ _ _ _ _ _ _ _ i x Hv Hi Hn) in HB.
  fold v' in HA, HB.
  destruct (half_put pow2 vk1 off1 v' _ _ _ _ _ i x Hc Hv' Hx Hn
    (λ j y Hj, proj1 (Hnew j y Hj)) Hsz HA) as (A' & HpA & HA').
  destruct (half_put pow2 vk2 off2 v' _ _ _ _ _ i x Hc Hv' Hx Hn
    (λ j y Hj, proj2 (Hnew j y Hj)) Hsz HB) as (B' & HpB & HB').
  unfold dmap_put. rewrite vector_borrow_spec by done. cbn [mbind option_bind].
  rewrite store_addr by done. cbn [mbind option_bind]. fold v'.
  rewrite (map_key_hash_at (key_heap vk1 off1 v') (addr (dm_values D) i + off1) (vk1 x))
    by by apply (key_heap_addr vk1 off1 v'). cbn [mbind option_bind].
  rewrite (HpA : map_impl_put _ _ (addr (dm_values D) i + off1) _ _ _ = _). cbn [mbind option_bind].
  rewrite (map_key_hash_at (key_heap vk2 off2 v') (addr (dm_values D) i + off2) (vk2 x))
    by by apply (key_heap_addr vk2 off2 v'). cbn [mbind option_bind].
  rewrite (HpB : map_impl_put _ _ (addr (dm_values D) i + off2) _ _ _ = _). cbn [mbind option_bind].
  eexists. split; [done|]. split; [|done]. pose proof count_bound as Hb. unfold INT_MAX in Hb.
  constructor; simpl; [done|done| |by eauto|by eauto|].
  - intros j y [[<- <-]|[Hne Hj]]%lookup_insert_Some; [done|].
    rewrite rd_insert_ne by lia. by apply (dp_cells _ _ HD).
  - rewrite map_size_insert_None, (dp_count _ _ HD), u32_small by (done || lia). lia.
Qed.

Lemma erase_spec i x :
  vals !! i = Some x →
  ∃ D', dmap_erase pow2 D i = Some (1, D') ∧ dmapp D' (delete i vals) ∧
    keys_capacity D' = keys_capacity D ∧ same_place (dm_values D') (dm_values D).
Proof.
  intros Hi. pose proof (dp_vec _ _ HD) as Hv. pose proof (dp_cap _ _ HD) as Hc.
  pose proof (stored_range i x Hi) as Hr. pose proof (dp_cells _ _ HD i x Hi) as Hx.
  destruct (dp_a _ _ HD) as (ma & aa & HA). destruct (dp_b _ _ HD) as (mb & ab & HB).
  destruct (half_erase pow2 vk1 off1 _ _ _ _ _ _ i x 0 Hc Hv Hx Hi HA) as (A' & pa & HeA & HA').
  destruct (half_erase pow2 vk2 off2 _ _ _ _ _ _ i x 0 Hc Hv Hx Hi HB) as (B' & pb & HeB & HB').
  unfold dmap_erase. rewrite vector_borrow_spec by done. cbn [mbind option_bind].
  rewrite deref_addr, Hx by done. cbn [mbind option_bind].
  rewrite (map_key_hash_at (key_heap vk1 off1 (dm_values D)) (addr (dm_values D) i + off1) (vk1 x))
    by by apply key_heap_addr. cbn [mbind option_bind].
  rewrite HeA. cbn [mbind option_bind].
  rewrite (map_key_hash_at (key_heap vk2 off2 (dm_values D)) (addr (dm_values D) i + off2) (vk2 x))
    by by apply key_heap_addr. cbn [mbind option_bind].
  rewrite HeB. cbn [mbind option_bind]. rewrite store_addr by done. cbn [mbind option_bind].
  eexists. split; [done|]. split; [|done]. pose proof count_bound as Hb. unfold INT_MAX in Hb.
  assert (delete i vals !! i = None) as Hd by apply lookup_delete_eq.
  constructor; simpl; [by apply vset_ok|done| | | |].
  - intros j y [Hne Hj]%lookup_delete_Some. rewrite rd_insert_ne by lia. by apply (dp_cells _ _ HD).
  - eexists _, _. by apply half_vset, HA'.
  - eexists _, _. by apply half_vset, HB'.
  - assert (0 < size vals)%nat as Hpos.
    { destruct (size vals) eqn:E; [|lia]. apply map_size_empty_iff in E. subst. by rewrite lookup_empty in Hi. }
    rewrite map_size_delete, Hi, (dp_count _ _ HD), u32_small by lia. lia.
Qed.

End stored.

(** *** Expiration *)

(** The indexes older than [time] at the front of the list go, oldest first. *)
Fixpoint lru_drop (l : list (Z * Z)) (fs : list Z) (time : Z) : lru :=
  match l with
  | [] => Lru [] fs
  | (i, t) :: l' => if t <? time then lru_drop l' (i :: fs) time else Lru l fs
  end.

Lemma lru_drop_elem l fs time i : i ∈ (alist (lru_drop l fs time)).*1 → i ∈ l.*1.
Proof.
  revert fs. induction l as [|[j t] l IH]; intros fs; [done|]. cbn [lru_drop].
  destruct (t <? time); [|done]. intros Hi%IH. rewrite fmap_cons. by right.
Qed.

(** The allocated indexes are the indexes of the stored values. *)
Record coherent (ch : DoubleChain) (range : Z) (s : lru) D vals : Prop := Coherent {
  ch_chain : double_chainp ch range s;
  ch_map : dmapp D vals;
  ch_dom : ∀ i, is_Some (vals !! i) ↔ i ∈ (alist s).*1
}.

(** One round of the loop on a list whose head is old. *)
Lemma expire_round ch range i t l fs D vals index time :
  coherent ch range (Lru ((i, t) :: l) fs) D vals → t < time →
  ∃ ch' D', dchain_expire_one_index ch index time = Some (1, ch', i) ∧
    dmap_erase pow2 D i = Some (1, D') ∧
    coherent ch' range (Lru l (i :: fs)) D' (delete i vals) ∧ i ∉ l.*1.
Proof.
  intros [HC HD Hdom] Ht. pose proof (chain_NoDup _ _ _ HC) as Hnd. simpl in Hnd.
  apply NoDup_cons in Hnd as [Hnin Hnd]. assert (i ∉ l.*1) as Hil by set_solver.
  pose proof (expire_one_refines _ _ _ HC index time) as Hx. unfold lru_expire_one in Hx. simpl in Hx.
  destruct (Z.ltb_spec t time); [|lia]. destruct Hx as (ch' & Hx & HC').
  destruct (proj2 (Hdom i)) as [x Hi]; [simpl; by left|].
  destruct (erase_spec D vals HD i x Hi) as (D' & He & HD' & _).
  exists ch', D'. split_and!; [done..| |done]. constructor; [done|done|]. intros j. simpl.
  destruct (decide (i = j)) as [<-|Hne].
  - rewrite lookup_delete_eq. split; [by intros []|done].
  - rewrite lookup_delete_ne by done. rewrite Hdom. simpl. set_solver.
Qed.

(** The test that ends the loop. *)
Lemma expire_end ch range s index time :
  double_chainp ch range s → (∀ i t l, alist s = (i, t) :: l → time ≤ t) →
  ∃ ch' idx, dchain_expire_one_index ch index time = Some (0, ch', idx) ∧
    double_chainp ch' range s ∧ lru_drop (alist s) (frees s) time = s.
Proof.
  intros HC Hold. pose proof (expire_one_refines _ _ _ HC index time) as Hx.
  unfold lru_expire_one in Hx. destruct s as [[|[i t] l] fs]; simpl in *.
  - destruct Hx as (ch' & ? & ?). eauto.
  - specialize (Hold i t l eq_refl). destruct (Z.ltb_spec t time); [lia|].
    destruct Hx as (ch' & ? & ?). eauto.
Qed.

Lemma expire_done ch ch' range s1 s' D vals1 vals (n : Z) time :
  coherent ch range s1 D vals1 → double_chainp ch' range s1 →
  lru_drop (alist s1) (frees s1) time = s1 → lru_drop (alist s1) (frees s1) time = s' →
  filter (λ p, p.1 ∈ (alist s').*1) vals1 = filter (λ p, p.1 ∈ (alist s').*1) vals →
  coherent ch' range s' D (filter (λ p, p.1 ∈ (alist s').*1) vals) ∧
  n - Z.of_nat (length (alist s1)) = n - Z.of_nat (length (alist s')).
Proof.
  intros [HC HD Hdom] HC' -> <- <-. split; [|done].
  rewrite map_filter_id; [by constructor|]. intros i x Hi. simpl. apply Hdom. by eexists.
Qed.

Lemma expire_items_spec ch range s D vals time :
  coherent ch range s D vals →
  let s' := lru_drop (alist s) (frees s) time in
  ∃ ch' D', expire_items pow2 ch D time =
      Some (Z.of_nat (length (alist s)) - Z.of_nat (length (alist s')), ch', D') ∧
    coherent ch' range s' D' (filter (λ p, p.1 ∈ (alist s').*1) vals).
Proof.
  intros HH s'. unfold expire_items.
  edestruct (iterate_rule (S := Z * Z * DoubleChain * DoubleMap V)
    (R := Z * DoubleChain * DoubleMap V)
    (λ '(count, index, chain, map), ∃ s1 vals1, coherent chain range s1 map vals1 ∧
       lru_drop (alist s1) (frees s1) time = s' ∧
       filter (λ p, p.1 ∈ (alist s').*1) vals1 = filter (λ p, p.1 ∈ (alist s').*1) vals ∧
       count = Z.of_nat (length (alist s)) - Z.of_nat (length (alist s1)) ∧
       (length (alist s1) ≤ length (alist s))%nat)
    (λ '(count, chain, map), coherent chain range s' map (filter (λ p, p.1 ∈ (alist s').*1) vals) ∧
       count = Z.of_nat (length (alist s)) - Z.of_nat (length (alist s')))
    (λ '(count, index, chain, map), Z.to_nat (Z.of_nat (length (alist s)) - count)))
    as ([[count ch'] D'] & -> & HH' & ->).
  - intros [[[count index] chain] map] (s1 & vals1 & HH1 & Hdrop & Hfil & -> & Hle).
    pose proof (ch_chain _ _ _ _ _ HH1) as HC1.
    pose proof (dc_range _ _ _ HC1) as Hr. unfold IRANG_LIMIT in Hr.
    pose proof (chain_length _ _ _ (ch_chain _ _ _ _ _ HH)) as Hlen.
    destruct s1 as [[|[i t] l] fs]; [|destruct (Z.ltb_spec t time) as [Ht|Ht]].
    + destruct (expire_end chain range _ index time HC1) as (ch' & idx & -> & HC' & Hd); [done|].
      eexists. split; [done|]. by apply (expire_done _ _ _ _ _ _ _ _ _ _ HH1 HC' Hd Hdrop Hfil).
    + destruct (expire_round _ _ _ _ _ _ _ _ index time HH1 Ht) as (ch' & D' & -> & He & HH2 & Hil).
      cbn [mbind option_bind]. destruct (Z.eqb_spec 1 0); [lia|]. rewrite He. cbn [mbind option_bind].
      simpl in Hle. rewrite int_chk_small by (unfold INT_MIN, INT_MAX; simpl; lia).
      cbn [mbind option_bind]. eexists. split; [done|]. cbn beta iota. split; [|simpl; lia].
      cbn [alist frees lru_drop] in Hdrop. destruct (Z.ltb_spec t time); [|lia].
      eexists _, _. split; [exact HH2|]. split_and!; simpl; [done| |lia..].
      rewrite map_filter_delete_not; [done|]. intros x _ Hx. apply Hil. simpl in Hx.
      rewrite <- Hdrop in Hx. by eapply lru_drop_elem.
    + destruct (expire_end chain range _ index time HC1) as (ch' & idx & -> & HC' & Hd).
      { intros i' t' l' Heq. simpl in Heq. simplify_eq. done. }
      eexists. split; [done|]. by apply (expire_done _ _ _ _ _ _ _ _ _ _ HH1 HC' Hd Hdrop Hfil).
  - exists s, vals. split_and!; [done..|lia|lia].
  - simpl. pose proof (chain_length _ _ _ (ch_chain _ _ _ _ _ HH)).
    pose proof (dc_len _ _ _ (ch_chain _ _ _ _ _ HH)) as Hl. unfold zlen in Hl. lia.
  - eauto.
Qed.

(** *** Allocation *)

(** What an allocation may have done: nothing, or a map of no values in twelve
    new blocks. *)
Definition dmap_allocated (capacity keys_cap map_out : Z) (μ : mem)
    (res : Z * Z * option (DoubleMap V)) (μ' : mem) : Prop :=
  (res = (0, map_out, None) ∧ live μ' = live μ) ∨
  (∃ out D bs, res = (1, out, Some D) ∧ out ≠ NULL ∧ length bs = 11%nat ∧
     live μ' = bs ++ out :: live μ ∧ dmapp D ∅ ∧ keys_capacity D = keys_cap ∧
     vec_capacity (dm_values D) = capacity).

Lemma half_empty {K} `{KeyLaws K} `{Countable K} (vk : V → K) off v cap A :
  (∀ h : heap K, mapping h cap A ∅ ∅) → half vk off v cap A ∅ ∅ ∅.
Proof.
  intros HM. constructor; [done| | |done].
  - intros k i. rewrite lookup_empty. split; [done|]. intros (x & Hx & _). by rewrite lookup_empty in Hx.
  - intros k p Hp. by rewrite lookup_empty in Hp.
Qed.

Lemma mapping_empty_any {K} `{KeyLaws K} `{Countable K} (h h' : heap K) cap A :
  mapping h cap A ∅ ∅ → mapping h' cap A ∅ ∅.
Proof. intros HM. eapply mapping_frame; [done|]. intros k q Hk. by rewrite lookup_empty in Hk. Qed.

Lemma dmap_allocate_spec fresh value_size capacity keys_cap map_out μ :
  mem_ok μ → 0 < value_size < 4096 → 0 ≤ capacity ≤ VECTOR_CAPACITY_UPPER_LIMIT →
  0 < keys_cap → 2 * keys_cap < INT_MAX →
  ∃ res μ', dmap_allocate pow2 fresh value_size capacity keys_cap map_out μ = Some (res, μ') ∧
    dmap_allocated capacity keys_cap map_out μ res μ'.
Proof.
  intros Hok Hvs Hcap Hk Hk2. unfold dmap_allocate.
  destruct (pow2 && ((keys_cap =? 0) || negb (Z.land keys_cap (u32 (keys_cap - 1)) =? 0))) eqn:Ep.
  { eexists _, _. split; [done|]. by left. }
  pose proof (capacity_test_ok pow2 keys_cap Hk Hk2 Ep) as Hc. clear Ep. cbn zeta.
  malloc_all. do 5 mpure.
  match goal with |- context [lift (map_impl_init ?a ?c)] =>
    destruct (map_impl_init_spec (λ _, None : option K1) c a) as (A & HA & HMA);
      [done|done|by apply zlen_fmap_seqZ; lia..|] end.
  mlift HA. do 5 mpure.
  match goal with |- context [lift (map_impl_init ?a ?c)] =>
    destruct (map_impl_init_spec (λ _, None : option K2) c a) as (B & HB & HMB);
      [done|done|by apply zlen_fmap_seqZ; lia..|] end.
  mlift HB. eexists _, _. split; [done|]. right. eexists _, _, (take 11 (live _)).
  split; [done|]. split; [done|].
  repeat match goal with H : live ?m = _ |- context [live ?m] => rewrite H end.
  split; [done|]. split; [done|]. split; [|done]. constructor; simpl.
  - constructor; simpl; [done|done|]. apply zlen_fmap_seqZ. lia.
  - done.
  - intros i x Hx. by rewrite lookup_empty in Hx.
  - exists ∅, ∅. apply half_empty. intros h. by eapply mapping_empty_any.
  - exists ∅, ∅. apply half_empty. intros h. by eapply mapping_empty_any.
  - by rewrite map_size_empty.
Qed.

End specification.

(** When the list is in the order of its times, exactly the old indexes go. *)
Lemma lru_drop_filter l fs time :
  StronglySorted Z.le l.*2 → alist (lru_drop l fs time) = filter (λ p, time ≤ p.2) l.
Proof.
  revert fs. induction l as [|[i t] l IH]; intros fs Hs; [done|]. rewrite fmap_cons in Hs.
  apply StronglySorted_inv in Hs as [Hs Hall]. cbn [lru_drop].
  destruct (Z.ltb_spec t time) as [Ht|Ht].
  - rewrite filter_cons_False by (simpl; lia). by apply IH.
  - rewrite filter_all; [done|]. intros p [->|Hp]%elem_of_cons; [done|].
    rewrite Forall_fmap, Forall_forall in Hall. specialize (Hall p Hp). simpl in Hall. lia.
Qed.

(** *** Traces *)

(** A call of the interface; the lookups take a key that the client has written
    at an address of its own. *)
Inductive dmap_op (V K1 K2 : Type) :=
| DGetA (key : Z) (k : K1) (index : Z)
| DGetB (key : Z) (k : K2) (index : Z)
| DPut (value : V) (index : Z)
| DGetValue (index : Z)
| DErase (index : Z)
| DSize.
Arguments DGetA {V K1 K2} _ _ _.
Arguments DGetB {V K1 K2} _ _ _.
Arguments DPut {V K1 K2} _ _.
Arguments DGetValue {V K1 K2} _.
Arguments DErase {V K1 K2} _.
Arguments DSize {V K1 K2}.

(** What a call returns: integers, or a value. *)
Inductive dmap_obs (V : Type) := Ints (l : list Z) | Val (x : V).
Arguments Ints {V} _.
Arguments Val {V} _.

Fixpoint dmap_run {Op Obs S} (step : Op → S → option (Obs * S)) (ops : list Op) (s : S)
    : option (list Obs * S) :=
  match ops with
  | [] => Some ([], s)
  | op :: ops' =>
      '(obs, s') ← step op s;
      '(rest, s'') ← dmap_run step ops' s';
      Some (obs :: rest, s'')
  end.

Section traces.
Context {V K1 K2 : Type} `{DMapOps V K1 K2}.
Context `{KeyLaws K1} `{Countable K1} `{KeyLaws K2} `{Countable K2}.
Variable pow2 : bool.
Implicit Types (D : DoubleMap V) (vals : gmap Z V).

Definition dmap_step (op : dmap_op V K1 K2) D : option (dmap_obs V * DoubleMap V) :=
  match op with
  | DGetA key k index =>
      '(r, i) ← dmap_get_a pow2 (with_local (key_heap vk1 off1 (dm_values D)) key k) D key index;
      Some (Ints [r; i], D)
  | DGetB key k index =>
      '(r, i) ← dmap_get_b pow2 (with_local (key_heap vk2 off2 (dm_values D)) key k) D key index;
      Some (Ints [r; i], D)
  | DPut value index => '(r, D') ← dmap_put pow2 D value index; Some (Ints [r], D')
  | DGetValue index => x ← dmap_get_value D index; Some (Val x, D)
  | DErase index => '(r, D') ← dmap_erase pow2 D index; Some (Ints [r], D')
  | DSize => Some (Ints [dmap_size D], D)
  end.

Definition found (i : option Z) (index : Z) : dmap_obs V :=
  match i with Some i => Ints [1; i] | None => Ints [0; index] end.

Definition new_keys (x : V) vals : Prop :=
  Forall (λ p, vk1 p.2 ≠ vk1 x ∧ vk2 p.2 ≠ vk2 x) (map_to_list vals).

(** The contract on a table of values by index, for [cap] values of which
    [keys_cap] can be stored; [None]: the precondition of the call does not hold. *)
Definition dmap_spec_step (cap keys_cap : Z) (op : dmap_op V K1 K2) vals
    : option (dmap_obs V * gmap Z V) :=
  match op with
  | DGetA _ k index => Some (found (index_of vk1 vals k) index, vals)
  | DGetB _ k index => Some (found (index_of vk2 vals k) index, vals)
  | DPut x i =>
      if decide ((0 ≤ i < cap ∧ Z.of_nat (size vals) < keys_cap) ∧ vals !! i = None ∧ new_keys x vals)
      then Some (Ints [1], <[i := x]> vals) else None
  | DGetValue i => x ← vals !! i; Some (Val x, vals)
  | DErase i => _ ← vals !! i; Some (Ints [1], delete i vals)
  | DSize => Some (Ints [Z.of_nat (size vals)], vals)
  end.

(** An address that is not that of a key of a stored value. *)
Definition apart (v : Vector V) (off a : Z) : Prop :=
  ∀ i, 0 ≤ i < vec_capacity v → a ≠ addr v i + off.

Lemma sees_keys_local {K} (vk : V → K) off v a k :
  apart v off a → sees_keys vk off v (with_local (key_heap vk off v) a k).
Proof.
  intros Ha i Hi. unfold with_local.
  destruct (Z.eqb_spec (addr v i + off) a) as [E|]; [|done]. by destruct (Ha i Hi).
Qed.

(** The keys given to the lookups are variables of the client. *)
Definition op_apart D (op : dmap_op V K1 K2) : Prop :=
  match op with
  | DGetA key _ _ => apart (dm_values D) off1 key
  | DGetB key _ _ => apart (dm_values D) off2 key
  | _ => True
  end.

Lemma op_apart_moves D D' op :
  same_place (dm_values D') (dm_values D) → op_apart D op → op_apart D' op.
Proof.
  intros (Hd & He & Hc). destruct op; simpl; unfold apart, addr; rewrite ?Hd, ?He, ?Hc; done.
Qed.

Lemma dmap_step_refines op D vals obs vals' :
  dmapp pow2 D vals → op_apart D op →
  dmap_spec_step (vec_capacity (dm_values D)) (keys_capacity D) op vals = Some (obs, vals') →
  ∃ D', dmap_step op D = Some (obs, D') ∧ dmapp pow2 D' vals' ∧
    keys_capacity D' = keys_capacity D ∧ same_place (dm_values D') (dm_values D).
Proof.
  intros HD Hap Hs. destruct op as [p k out|p k out|x i|i|i|]; cbn [dmap_spec_step dmap_step] in *.
  - simplify_eq. rewrite (get_a_spec pow2 D vals' HD _ p k out (sees_keys_local _ _ _ _ k Hap)
      (with_local_at _ _ _)). destruct (index_of vk1 vals' k); by eexists.
  - simplify_eq. rewrite (get_b_spec pow2 D vals' HD _ p k out (sees_keys_local _ _ _ _ k Hap)
      (with_local_at _ _ _)). destruct (index_of vk2 vals' k); by eexists.
  - case_decide as Hc; simplify_eq. destruct Hc as ((Hi & Hsz) & Hn & Hnew).
    unfold new_keys in Hnew. rewrite Forall_forall in Hnew.
    destruct (put_spec pow2 D vals HD x i Hi Hn) as (D' & -> & HD' & Hk & Hp); [|done|by eexists].
    intros j y Hj. by apply (Hnew (j, y)), elem_of_map_to_list.
  - destruct (vals !! i) as [x|] eqn:E; simplify_eq/=.
    rewrite (get_value_spec pow2 D vals' HD i x E). by eexists.
  - destruct (vals !! i) as [x|] eqn:E; simplify_eq/=.
    destruct (erase_spec pow2 D vals HD i x E) as (D' & -> & HD' & Hk & Hp). by eexists.
  - simplify_eq. unfold dmap_size. rewrite (dp_count _ _ _ HD). by eexists.
Qed.

Lemma dmap_run_refines ops D vals obs vals' :
  dmapp pow2 D vals → Forall (op_apart D) ops →
  dmap_run (dmap_spec_step (vec_capacity (dm_values D)) (keys_capacity D)) ops vals =
    Some (obs, vals') →
  ∃ D', dmap_run dmap_step ops D = Some (obs, D') ∧ dmapp pow2 D' vals'.
Proof.
  revert D vals obs. induction ops as [|op ops IH]; intros D vals obs HD Hap Hr; cbn [dmap_run] in *.
  { simplify_eq. by eexists. }
  apply Forall_cons in Hap as [Ho Hap].
  destruct (dmap_spec_step _ _ op vals) as [[o v1]|] eqn:E; [|discriminate Hr].
  cbn [mbind option_bind] in Hr.
  destruct (dmap_run _ ops v1) as [[rest v2]|] eqn:E2; simplify_eq/=.
  destruct (dmap_step_refines op D vals o v1 HD Ho E) as (D1 & -> & HD1 & Hk & Hp).
  cbn [mbind option_bind]. destruct (Hp) as (_ & _ & Hc). rewrite <- Hc, <- Hk in E2.
  destruct (IH D1 v1 rest HD1) as (D' & -> & HD'); [|done|by eexists].
  eapply Forall_impl; [exact Hap|]. intros op'. by apply op_apart_moves.
Qed.

End traces.

(** ** Main results *)

(** C33: the double map implements its contract.  Whatever answers the
    allocator gives, if [dmap_allocate] succeeds then any sequence of puts,
    erasures and lookups (by the first key, by the second key, by index) that
    respects the preconditions (a value is put at a free index, with two new
    keys and while there is room; only stored values are read or erased; the
    keys for a lookup are variables of the client) runs without undefined
    behaviour and returns what a table of values by index returns: in
    particular a value is found by both of its keys from its put to its
    erasure, and no longer. *)
Theorem dmap_refines_table {V K1 K2} `{DMapOps V K1 K2}
    `{KeyLaws K1} `{Countable K1} `{KeyLaws K2} `{Countable K2} (pow2 : bool) (fresh : Z → V)
    (value_size cap keys_cap map_out out : Z) (μ μ' : mem) (D : DoubleMap V)
    (ops : list (dmap_op V K1 K2)) (obs : list (dmap_obs V)) (vals : gmap Z V) :
  mem_ok μ → 0 < value_size < 4096 → 0 ≤ cap ≤ VECTOR_CAPACITY_UPPER_LIMIT →
  0 < keys_cap → 2 * keys_cap < INT_MAX →
  dmap_allocate pow2 fresh value_size cap keys_cap map_out μ = Some ((1, out, Some D), μ') →
  Forall (op_apart D) ops →
  dmap_run (dmap_spec_step cap keys_cap) ops ∅ = Some (obs, vals) →
  ∃ D', dmap_run (dmap_step pow2) ops D = Some (obs, D') ∧ dmapp pow2 D' vals.
Proof.
  intros Hok Hvs Hcap Hk Hk2 Ha Hap Hr.
  destruct (dmap_allocate_spec pow2 fresh value_size cap keys_cap map_out μ)
    as (res & μ1 & Ha' & Hres); [done..|].
  rewrite Ha in Ha'. simplify_eq.
  destruct Hres as [[? _]|(? & D1 & ? & ? & _ & _ & _ & HD & <- & <-)]; simplify_eq.
  by eapply dmap_run_refines.
Qed.

(** Allocation of a double map.  For every sequence of allocator answers,
    [dmap_allocate] either reports 0, leaves [*map_out] as it was and leaks
    nothing (the live blocks are the ones before the call), or reports 1 with
    an empty double map of the requested capacities that occupies exactly
    twelve new blocks; it never frees a block twice. *)
Theorem dmap_allocate_no_leak {V K1 K2} `{DMapOps V K1 K2}
    `{KeyLaws K1} `{Countable K1} `{KeyLaws K2} `{Countable K2} (pow2 : bool) (fresh : Z → V)
    (value_size cap keys_cap map_out : Z) (μ : mem) :
  mem_ok μ → 0 < value_size < 4096 → 0 ≤ cap ≤ VECTOR_CAPACITY_UPPER_LIMIT →
  0 < keys_cap → 2 * keys_cap < INT_MAX →
  ∃ res μ', dmap_allocate pow2 fresh value_size cap keys_cap map_out μ = Some (res, μ') ∧
    dmap_allocated pow2 cap keys_cap map_out μ res μ'.
Proof. intros. by apply dmap_allocate_spec. Qed.

(** Expiration over a double map.  When the allocated indexes of the chain
    are the indexes of the stored values, in the order of their times,
    [expire_items] terminates without undefined behaviour, returns the number
    of indexes older than [time], and leaves the chain with exactly the other
    indexes, in their order, and the map with exactly their values. *)
Theorem expire_items_exact {V K1 K2} `{DMapOps V K1 K2}
    `{KeyLaws K1} `{Countable K1} `{KeyLaws K2} `{Countable K2} (pow2 : bool)
    (ch : DoubleChain) (range time : Z) (s : lru) (D : DoubleMap V) (vals : gmap Z V) :
  coherent pow2 ch range s D vals → StronglySorted Z.le (alist s).*2 →
  ∃ ch' D' s', expire_items pow2 ch D time =
      Some (Z.of_nat (length (filter (λ p, p.2 < time) (alist s))), ch', D') ∧
    alist s' = filter (λ p, time ≤ p.2) (alist s) ∧
    coherent pow2 ch' range s' D' (filter (λ p, p.1 ∈ (alist s').*1) vals).
Proof.
  intros HH Hs. destruct (expire_items_spec pow2 ch range s D vals time HH) as (ch' & D' & -> & HH').
  eexists ch', D', _. split_and!; [|by apply lru_drop_filter|exact HH'].
  rewrite lru_drop_filter by done. do 3 f_equal. apply length_filter_split. intros p. lia.
Qed.

(** *** Witnesses: pairs of integers, with both parts as keys. *)

#[export] Instance demo_dmap_ops : DMapOps (Z * Z) Z Z := {
  vk1 := fst; vk2 := snd; off1 := 0; off2 := 8; destroyed := id }.

Definition demo_dmap : DoubleMap (Z * Z) :=
  match dmap_allocate false (λ _, (3, 3)) 16 3 4 0 (demo_mem (replicate 12 true)) with
  | Some ((_, _, Some D), _) => D
  | _ => MkDMap (MkVector 0 0 0 []) (demo_empty 0) (demo_empty 0) 0 0
  end.

Lemma demo_dmap_allocated :
  ∃ μ', dmap_allocate false (λ _, (3, 3)) 16 3 4 0 (demo_mem (replicate 12 true)) =
    Some ((1, 4096, Some demo_dmap), μ').
Proof. eexists. vm_compute. reflexivity. Qed.

Lemma demo_dmap_ok : dmapp false demo_dmap ∅.
Proof.
  destruct demo_dmap_allocated as (μ' & Ha). revert Ha. generalize demo_dmap. intros D0 Ha.
  destruct (dmap_allocate_spec (V := Z * Z) (K1 := Z) (K2 := Z) false (λ _, (3, 3)) 16 3 4 0
    (demo_mem (replicate 12 true))) as (res & μ1 & Ha' & Hres);
    [done|lia|unfold VECTOR_CAPACITY_UPPER_LIMIT; lia|lia|unfold INT_MAX; lia|].
  rewrite Ha in Ha'. injection Ha' as <- <-.
  destruct Hres as [[Hr _]|(? & D1 & ? & Hr & _ & _ & _ & HD & _)]; [discriminate Hr|].
  injection Hr as _ ->. exact HD.
Qed.

Lemma dmap_refines_table_witness :
  ∃ D', dmap_run (dmap_step false)
      [DPut (5, 50) 1; DGetA 1 5 0; DGetB 2 50 0; DGetA 1 6 (-9); DGetValue 1; DErase 1;
       DGetB 2 50 7; DSize] demo_dmap =
    Some ([Ints [1]; Ints [1; 1]; Ints [1; 1]; Ints [0; -9]; Val (5, 50); Ints [1]; Ints [0; 7];
           Ints [0]], D').
Proof.
  destruct demo_dmap_allocated as (μ' & Ha).
  destruct (dmap_refines_table (V := Z * Z) (K1 := Z) (K2 := Z) false (λ _, (3, 3)) 16 3 4 0 4096
    (demo_mem (replicate 12 true)) μ' demo_dmap
    [DPut (5, 50) 1; DGetA 1 5 0; DGetB 2 50 0; DGetA 1 6 (-9); DGetValue 1; DErase 1;
     DGetB 2 50 7; DSize]
    [Ints [1]; Ints [1; 1]; Ints [1; 1]; Ints [0; -9]; Val (5, 50); Ints [1]; Ints [0; 7];
     Ints [0]] ∅) as (D' & HD' & _); [done|lia|unfold VECTOR_CAPACITY_UPPER_LIMIT; lia|lia|unfold INT_MAX; lia|exact Ha
    | |reflexivity|].
  - assert (∀ a off, a < 10 → 0 ≤ off → apart (dm_values demo_dmap) off a) as Hap.
    { intros a off Ha' Ho i Hi. change (vec_capacity _) with 3 in Hi. unfold addr.
      change (data (dm_values demo_dmap)) with 4272. change (elem_size (dm_values demo_dmap)) with 16. lia. }
    assert (0 ≤ off1 ∧ 0 ≤ off2) as [H1 H2] by (unfold off1, off2, demo_dmap_ops; lia).
    repeat apply Forall_cons_2; cbn [op_apart];
      first [exact I|apply Hap; [lia|assumption]|apply Forall_nil_2].
  - exists D'. exact HD'.
Defined.

Lemma dmap_allocate_no_leak_witness :
  ∃ res μ', dmap_allocate true (λ _, (3, 3)) 16 3 4 77 (demo_mem (replicate 7 true)) =
      Some (res, μ') ∧
    dmap_allocated true 3 4 77 (demo_mem (replicate 7 true)) res μ'.
Proof.
  apply dmap_allocate_no_leak;
    [done|lia|unfold VECTOR_CAPACITY_UPPER_LIMIT; lia|lia|unfold INT_MAX; lia].
Defined.

(** One value, at the index that the chain gave out at time 10. *)
Definition demo_dchain1 : DoubleChain :=
  match dchain_allocate_new_index demo_chain 0 10 with
  | Some (_, ch, _) => ch
  | None => demo_chain
  end.

Definition demo_dmap1 : DoubleMap (Z * Z) :=
  match dmap_put false demo_dmap (5, 50) 0 with Some (_, D) => D | None => demo_dmap end.

Lemma demo_coherent :
  coherent false demo_dchain1 3 (Lru [(0, 10)] [1; 2]) demo_dmap1 {[0 := (5, 50)]}.
Proof.
  constructor.
  - pose proof (allocate_refines _ _ _ demo_chain_ok 0 10) as Hx. simpl in Hx.
    destruct Hx as (ch' & Hx & HC). unfold demo_dchain1. by rewrite Hx.
  - unfold demo_dmap1. destruct (put_spec false demo_dmap ∅ demo_dmap_ok (5, 50) 0)
      as (D' & -> & HD' & _); [done|done|set_solver|done|exact HD'].
  - intros i. rewrite lookup_singleton_is_Some. simpl. set_solver.
Qed.

Lemma expire_items_exact_witness :
  ∃ ch' D', expire_items false demo_dchain1 demo_dmap1 15 = Some (1, ch', D').
Proof.
  destruct (expire_items_exact false demo_dchain1 3 15 _ demo_dmap1 _ demo_coherent)
    as (ch' & D' & s' & Hx & _).
  - repeat constructor.
  - exists ch', D'. exact Hx.
Defined.
