(* ===== verification/Packet.v ===== *)
(** * packet-io.c and the header functions of nf-util

    The packet under processing: the bytes of its buffer, the two global
    lengths of packet-io.c and the chunks that nf-util.h records as borrowed.
    The header functions return addresses into the buffer; fields are loads and
    stores at the offsets of the DPDK header structures, in the byte order of
    the (little-endian) machine. *)
From stdpp Require Import base list numbers.
From Stdlib Require Import ZArith Lia.
From S2P Require Import Prelude.
From S2P Require Import Memory.

Record packet := Packet {
  base : Z;
  buf : list Z;
  global_total_length : Z;
  global_read_length : Z;
  chunks_borrowed : list Z
}.

(** ** Bytes *)

Fixpoint put_bytes (b : list Z) (off : Z) (bs : list Z) : option (list Z) :=
  match bs with
  | [] => Some b
  | x :: bs' => b' ← wr b off x; put_bytes b' (off + 1) bs'
  end.

Definition load8 (pk : packet) (a : Z) : option Z := rd (buf pk) (a - base pk).

Definition load16 (pk : packet) (a : Z) : option Z :=
  b0 ← load8 pk a; b1 ← load8 pk (a + 1); Some (b0 + 2 ^ 8 * b1).

Definition load32 (pk : packet) (a : Z) : option Z :=
  w0 ← load16 pk a; w1 ← load16 pk (a + 2); Some (w0 + 2 ^ 16 * w1).

Definition load_bytes (pk : packet) (a : Z) (n : nat) : option (list Z) :=
  mapM (λ i, load8 pk (a + Z.of_nat i)) (seq 0 n).

Definition store_bytes (pk : packet) (a : Z) (bs : list Z) : option packet :=
  b ← put_bytes (buf pk) (a - base pk) bs;
  Some (Packet (base pk) b (global_total_length pk) (global_read_length pk)
          (chunks_borrowed pk)).

Definition bytes16 (v : Z) : list Z := [u8 v; u8 (Z.shiftr v 8)].

Definition bytes32 (v : Z) : list Z := bytes16 v ++ bytes16 (Z.shiftr v 16).

Definition store16 (pk : packet) (a v : Z) : option packet := store_bytes pk a (bytes16 v).

Definition store32 (pk : packet) (a v : Z) : option packet := store_bytes pk a (bytes32 v).

Definition rte_be_to_cpu_16 (x : Z) : Z :=
  Z.lor (Z.shiftl (Z.land x 255) 8) (Z.shiftr x 8).

(** ** packet-io.c *)

Definition packet_state_total_length (pk : packet) (len : Z) : packet :=
  Packet (base pk) (buf pk) len (global_read_length pk) (chunks_borrowed pk).

(** Returns [*chunk]. *)
Definition packet_borrow_next_chunk (pk : packet) (length : Z) : Z * packet :=
  (base pk + global_read_length pk,
   Packet (base pk) (buf pk) (global_total_length pk)
     (u64 (global_read_length pk + length)) (chunks_borrowed pk)).

Definition packet_return_chunk (pk : packet) (chunk : Z) : packet :=
  Packet (base pk) (buf pk) (global_total_length pk) (u32 (chunk - base pk))
    (chunks_borrowed pk).

Definition packet_get_unread_length (pk : packet) : Z :=
  u32 (global_total_length pk - global_read_length pk).

Definition packet_get_chunk_length (pk : packet) (chunk : Z) : Z :=
  u32 (base pk + global_read_length pk - chunk).

(** ** nf-util.h and nf-util.c *)

(** The result of a function that sends a packet to all other devices (nf.h). *)
Definition FLOOD_FRAME : Z := u16 (-1).

Definition MAX_N_CHUNKS : Z := 100.
Definition IP_MIN_SIZE_WORDS : Z := 5.
Definition WORD_SIZE : Z := 4.
Definition SIZEOF_ETHER_HDR : Z := 14.
Definition SIZEOF_IPV4_HDR : Z := 20.
Definition SIZEOF_TCPUDP_HDR : Z := 4.
Definition RTE_ETHER_TYPE_IPV4 : Z := 2048.
Definition IPPROTO_TCP : Z := 6.
Definition IPPROTO_UDP : Z := 17.

(** Fields of the header structures. *)
Definition d_addr_off : Z := 0.
Definition s_addr_off : Z := 6.
Definition ether_type_off : Z := 12.
Definition version_ihl_off : Z := 0.
Definition total_length_off : Z := 2.
Definition next_proto_id_off : Z := 9.
Definition hdr_checksum_off : Z := 10.
Definition src_addr_off : Z := 12.
Definition dst_addr_off : Z := 16.
Definition src_port_off : Z := 0.
Definition dst_port_off : Z := 2.
Definition tcp_cksum_off : Z := 16.
Definition udp_dgram_cksum_off : Z := 6.

Definition nf_borrow_next_chunk (pk : packet) (length : Z) : option (Z * packet) :=
  _ ← c_assert (zlen (chunks_borrowed pk) <? MAX_N_CHUNKS);
  let '(chunk, pk') := packet_borrow_next_chunk pk length in
  Some (chunk, Packet (base pk') (buf pk') (global_total_length pk')
                 (global_read_length pk') (chunks_borrowed pk' ++ [chunk])).

(** The loop returns the chunks from the last to the first. *)
Definition nf_return_all_chunks (pk : packet) : packet :=
  let pk' := foldr (λ chunk pk, packet_return_chunk pk chunk) pk (chunks_borrowed pk) in
  Packet (base pk') (buf pk') (global_total_length pk') (global_read_length pk') [].

Definition nf_return_chunk (pk : packet) : packet :=
  match head (reverse (chunks_borrowed pk)) with
  | Some chunk =>
      let pk' := packet_return_chunk pk chunk in
      Packet (base pk') (buf pk') (global_total_length pk') (global_read_length pk')
        (removelast (chunks_borrowed pk'))
  | None => pk
  end.

Definition nf_has_rte_ipv4_header (pk : packet) (header : Z) : option bool :=
  ether_type ← load16 pk (header + ether_type_off);
  Some (ether_type =? rte_be_to_cpu_16 RTE_ETHER_TYPE_IPV4).

Definition nf_has_tcpudp_header (pk : packet) (header : Z) : option bool :=
  next_proto_id ← load8 pk (header + next_proto_id_off);
  Some ((next_proto_id =? IPPROTO_TCP) || (next_proto_id =? IPPROTO_UDP)).

Definition nf_then_get_rte_ether_header (pk : packet) : option (Z * packet) :=
  nf_borrow_next_chunk pk SIZEOF_ETHER_HDR.

(** Returns the header, [*ip_options] and the packet; [NULL] as in the code. *)
Definition nf_then_get_rte_ipv4_header (pk : packet) (rte_ether_header : Z)
    : option (Z * Z * packet) :=
  let unread_len := u16 (packet_get_unread_length pk) in
  has_ipv4 ← nf_has_rte_ipv4_header pk rte_ether_header;
  if negb has_ipv4 || (unread_len <? SIZEOF_IPV4_HDR) then Some (NULL, NULL, pk) else
  '(hdr, pk1) ← nf_borrow_next_chunk pk SIZEOF_IPV4_HDR;
  version_ihl ← load8 pk1 (hdr + version_ihl_off);
  let ihl := Z.land version_ihl 15 in
  total_length ← load16 pk1 (hdr + total_length_off);
  if (ihl <? IP_MIN_SIZE_WORDS) || (unread_len <? rte_be_to_cpu_16 total_length)
  then Some (NULL, NULL, pk1) else
  let ip_options_length := u16 ((ihl - IP_MIN_SIZE_WORDS) * WORD_SIZE) in
  if negb (ip_options_length =? 0) &&
     (ip_options_length <=? u64 (unread_len - SIZEOF_IPV4_HDR)) then
    '(ip_options, pk2) ← nf_borrow_next_chunk pk1 ip_options_length;
    Some (hdr, ip_options, pk2)
  else Some (hdr, NULL, pk1).

Definition nf_then_get_tcpudp_header (pk : packet) (ip_header : Z) : option (Z * packet) :=
  has_tcpudp ← nf_has_tcpudp_header pk ip_header;
  if negb has_tcpudp || (packet_get_unread_length pk <? SIZEOF_TCPUDP_HDR)
  then Some (NULL, pk)
  else nf_borrow_next_chunk pk SIZEOF_TCPUDP_HDR.

(** DPDK's checksum functions: the packet with its headers to a 16-bit sum. *)
Class Checksums := {
  rte_ipv4_udptcp_cksum : packet → Z → Z → Z;
  rte_ipv4_cksum : packet → Z → Z
}.

Definition nf_set_rte_ipv4_udptcp_checksum `{Checksums} (pk : packet) (ip_header l4_header : Z)
    : option packet :=
  pk1 ← store16 pk (ip_header + hdr_checksum_off) 0;
  next_proto_id ← load8 pk1 (ip_header + next_proto_id_off);
  pk4 ← (if next_proto_id =? IPPROTO_TCP then
           pk2 ← store16 pk1 (l4_header + tcp_cksum_off) 0;
           store16 pk2 (l4_header + tcp_cksum_off) (rte_ipv4_udptcp_cksum pk2 ip_header l4_header)
         else if next_proto_id =? IPPROTO_UDP then
           pk2 ← store16 pk1 (l4_header + udp_dgram_cksum_off) 0;
           store16 pk2 (l4_header + udp_dgram_cksum_off)
             (rte_ipv4_udptcp_cksum pk2 ip_header l4_header)
         else Some pk1);
  store16 pk4 (ip_header + hdr_checksum_off) (rte_ipv4_cksum pk4 ip_header).

(** ** Received packets *)

(** A packet as the main loop hands it to [nf_process]: nothing read yet, at
    least an Ethernet header, a length that fits the 16-bit length arithmetic
    and a buffer of bytes that holds it with [tail] bytes to spare. *)
Record received (pk : packet) (tail : Z) : Prop := Received {
  rc_base : 0 < base pk;
  rc_read : global_read_length pk = 0;
  rc_chunks : chunks_borrowed pk = [];
  rc_total : 14 ≤ global_total_length pk < 65536;
  rc_tail : 0 ≤ tail;
  rc_buf : global_total_length pk + tail = zlen (buf pk);
  rc_bytes : Forall (λ b, 0 ≤ b < 256) (buf pk)
}.

(** What the headers of a packet say. *)
Record headers := Headers {
  h_src_addr : Z;
  h_dst_addr : Z;
  h_proto : Z;
  h_src_port : Z;
  h_dst_port : Z
}.

Definition read_headers (pk : packet) (ip l4 : Z) : option headers :=
  sa ← load32 pk (ip + src_addr_off);
  da ← load32 pk (ip + dst_addr_off);
  pr ← load8 pk (ip + next_proto_id_off);
  sp ← load16 pk (l4 + src_port_off);
  dp ← load16 pk (l4 + dst_port_off);
  Some (Headers sa da pr sp dp).

(** The reference parser: where the transport header of a packet with the
    given bytes starts, [None] when it is not IPv4 or too short. *)
Definition byte_at (b : list Z) (i : Z) : Z := default 0 (rd b i).

Definition ihl_of (b : list Z) : Z := byte_at b 14 mod 16.

Definition ipv4_ok (b : list Z) (total : Z) : bool :=
  (byte_at b 12 =? 8) && (byte_at b 13 =? 0) && (34 <=? total) && (5 <=? ihl_of b) &&
  (256 * byte_at b 16 + byte_at b 17 <=? total - 14).

Definition has_options (b : list Z) (total : Z) : bool :=
  (5 <? ihl_of b) && (14 + 4 * ihl_of b <=? total).

Definition l4_off (b : list Z) (total : Z) : Z :=
  if has_options b total then 14 + 4 * ihl_of b else 34.

Definition tcpudp_ok (b : list Z) (total : Z) : bool :=
  ((byte_at b 23 =? 6) || (byte_at b 23 =? 17)) && (l4_off b total + 4 <=? total).

(** The headers of a received packet, when it is TCP or UDP over IPv4. *)
Definition packet_headers (pk : packet) : option headers :=
  let b := buf pk in let n := global_total_length pk in
  if ipv4_ok b n && tcpudp_ok b n
  then read_headers pk (base pk + 14) (base pk + l4_off b n) else None.

(** A packet that arrives on a device at a time. *)
Record event := Event { ev_device : Z; ev_now : Z; ev_packet : packet }.

(** Packets in the order of their arrival. *)
Fixpoint events_ok (before : Z) (evs : list event) : Prop :=
  match evs with
  | [] => True
  | ev :: evs' => before ≤ ev_now ev ∧ ev_now ev < 2 ^ 63 ∧
                  (∃ tail, received (ev_packet ev) tail) ∧ events_ok (ev_now ev) evs'
  end.

Fixpoint last_now (before : Z) (evs : list event) : Z :=
  match evs with [] => before | ev :: evs' => last_now (ev_now ev) evs' end.

Lemma last_now_ge before evs : events_ok before evs → before ≤ last_now before evs.
Proof.
  revert before. induction evs as [|ev evs IH]; intros before; [done|].
  intros (Hb & _ & _ & Hev). apply IH in Hev. simpl. lia.
Qed.

(** ** Properties of bytes *)

Lemma bswap16 b0 b1 :
  0 ≤ b0 < 256 → 0 ≤ b1 < 256 → rte_be_to_cpu_16 (b0 + 2 ^ 8 * b1) = 256 * b0 + b1.
Proof.
  intros H0 H1. unfold rte_be_to_cpu_16.
  change 255 with (Z.ones 8). rewrite Z.land_ones, Z.shiftr_div_pow2 by lia.
  replace ((b0 + 2 ^ 8 * b1) mod 2 ^ 8) with b0 by (Z.div_mod_to_equations; lia).
  replace ((b0 + 2 ^ 8 * b1) / 2 ^ 8) with b1 by (Z.div_mod_to_equations; lia).
  rewrite lor_shiftl_add; lia.
Qed.

Lemma byte_rd b i :
  Forall (λ x, 0 ≤ x < 256) b → 0 ≤ i < zlen b →
  rd b i = Some (byte_at b i) ∧ 0 ≤ byte_at b i < 256.
Proof.
  intros Hb Hi. destruct (rd_Some b i Hi) as [x Hx]. unfold byte_at. rewrite Hx. simpl.
  split; [done|]. rewrite rd_lookup in Hx by lia. eapply Forall_lookup_1 in Hb; eauto.
Qed.

Lemma put_bytes_spec b off bs :
  0 ≤ off → off + zlen bs ≤ zlen b →
  ∃ b', put_bytes b off bs = Some b' ∧ zlen b' = zlen b ∧
    ∀ i, rd b' i = if (off <=? i) && (i <? off + zlen bs) then rd bs (i - off) else rd b i.
Proof.
  revert b off. induction bs as [|x bs IH]; intros b off Hoff Hlen.
  - exists b. split_and!; [done..|]. intros i. change (zlen (@nil Z)) with 0.
    destruct (Z.leb_spec off i), (Z.ltb_spec i (off + 0)); cbn [andb]; lia || done.
  - replace (zlen (x :: bs)) with (1 + zlen bs) in * by (unfold zlen; simpl; lia).
    cbn [put_bytes]. assert (0 ≤ zlen bs) by (unfold zlen; lia).
    rewrite wr_Some by lia. cbn [mbind option_bind].
    destruct (IH (<[Z.to_nat off := x]> b) (off + 1)) as (b' & -> & Hl & Hr);
      [lia|rewrite zlen_insert; lia|].
    exists b'. split_and!; [done|by rewrite Hl, zlen_insert|]. intros i. rewrite Hr.
    rewrite rd_insert by lia.
    destruct (Z.leb_spec off i), (Z.leb_spec (off + 1) i),
      (Z.ltb_spec i (off + 1 + zlen bs)), (Z.ltb_spec i (off + (1 + zlen bs))),
      (Z.eqb_spec off i); simpl; try lia; try done.
    + unfold rd. destruct (Z.leb_spec 0 (i - (off + 1))), (Z.leb_spec 0 (i - off)); try lia.
      replace (Z.to_nat (i - off)) with (S (Z.to_nat (i - (off + 1)))) by lia. done.
    + replace (i - off) with 0 by lia. done.
Qed.

(** A store inside the buffer changes exactly the stored bytes. *)
Lemma store_bytes_spec pk a bs :
  base pk ≤ a → a + zlen bs ≤ base pk + zlen (buf pk) →
  ∃ pk', store_bytes pk a bs = Some pk' ∧ base pk' = base pk ∧ zlen (buf pk') = zlen (buf pk) ∧
    global_total_length pk' = global_total_length pk ∧
    chunks_borrowed pk' = chunks_borrowed pk ∧
    ∀ i, load8 pk' i = if (a <=? i) && (i <? a + zlen bs) then rd bs (i - a) else load8 pk i.
Proof.
  intros Ha Hl. destruct (put_bytes_spec (buf pk) (a - base pk) bs) as (b' & Hb & Hlen & Hr);
    [lia..|].
  unfold store_bytes. rewrite Hb. cbn [mbind option_bind]. eexists. split_and!; [done..|].
  intros i. unfold load8. simpl. rewrite Hr.
  replace (i - base pk - (a - base pk)) with (i - a) by lia.
  destruct (Z.leb_spec (a - base pk) (i - base pk)), (Z.leb_spec a i),
    (Z.ltb_spec (i - base pk) (a - base pk + zlen bs)), (Z.ltb_spec i (a + zlen bs));
    simpl; lia || done.
Qed.

Lemma load16_bytes pk a v :
  load8 pk a = Some (u8 v) → load8 pk (a + 1) = Some (u8 (Z.shiftr v 8)) →
  load16 pk a = Some (u16 v).
Proof.
  unfold load16. intros -> ->. simpl. f_equal. unfold u8, u16.
  rewrite Z.shiftr_div_pow2 by lia. change (2 ^ 8) with 256. change (2 ^ 16) with 65536.
  Z.div_mod_to_equations. lia.
Qed.

(** Loads that do not touch changed bytes. *)
Lemma load16_frame pk pk' a :
  load8 pk' a = load8 pk a → load8 pk' (a + 1) = load8 pk (a + 1) → load16 pk' a = load16 pk a.
Proof. unfold load16. by intros -> ->. Qed.

Lemma load32_frame pk pk' a :
  (∀ i, 0 ≤ i < 4 → load8 pk' (a + i) = load8 pk (a + i)) → load32 pk' a = load32 pk a.
Proof.
  intros Hf. unfold load32.
  assert (load16 pk' a = load16 pk a) as ->
    by (apply load16_frame; [rewrite <- (Z.add_0_r a)|]; apply Hf; lia).
  assert (load16 pk' (a + 2) = load16 pk (a + 2)) as ->
    by (apply load16_frame; [|rewrite <- Z.add_assoc]; apply Hf; lia).
  done.
Qed.

Lemma store16_spec pk a v :
  base pk ≤ a → a + 2 ≤ base pk + zlen (buf pk) →
  ∃ pk', store16 pk a v = Some pk' ∧ base pk' = base pk ∧ zlen (buf pk') = zlen (buf pk) ∧
    global_total_length pk' = global_total_length pk ∧
    chunks_borrowed pk' = chunks_borrowed pk ∧
    load16 pk' a = Some (u16 v) ∧
    ∀ i, i < a ∨ a + 2 ≤ i → load8 pk' i = load8 pk i.
Proof.
  intros Ha Hl. destruct (store_bytes_spec pk a (bytes16 v)) as (pk' & Hs & ? & ? & ? & ? & Hr);
    [done..|].
  exists pk'. split_and!; [done..| |].
  - change (zlen (bytes16 v)) with 2 in Hr.
    apply load16_bytes; rewrite Hr.
    + destruct (Z.leb_spec a a), (Z.ltb_spec a (a + 2)); try lia. by rewrite Z.sub_diag.
    + destruct (Z.leb_spec a (a + 1)), (Z.ltb_spec (a + 1) (a + 2)); try lia.
      simpl. by replace (a + 1 - a) with 1 by lia.
  - intros i Hi. rewrite Hr. change (zlen (bytes16 v)) with 2.
    destruct (Z.leb_spec a i), (Z.ltb_spec i (a + 2)); simpl; lia || done.
Qed.

Lemma store32_spec pk a v :
  base pk ≤ a → a + 4 ≤ base pk + zlen (buf pk) →
  ∃ pk', store32 pk a v = Some pk' ∧ base pk' = base pk ∧ zlen (buf pk') = zlen (buf pk) ∧
    global_total_length pk' = global_total_length pk ∧
    chunks_borrowed pk' = chunks_borrowed pk ∧
    load32 pk' a = Some (u32 v) ∧
    ∀ i, i < a ∨ a + 4 ≤ i → load8 pk' i = load8 pk i.
Proof.
  intros Ha Hl. destruct (store_bytes_spec pk a (bytes32 v)) as (pk' & Hs & ? & ? & ? & ? & Hr);
    [done..|].
  exists pk'. change (zlen (bytes32 v)) with 4 in Hr.
  assert (∀ j, 0 ≤ j < 4 → load8 pk' (a + j) = rd (bytes32 v) j) as Hj.
  { intros j Hj. rewrite Hr. replace (a + j - a) with j by lia.
    destruct (Z.leb_spec a (a + j)), (Z.ltb_spec (a + j) (a + 4)); simpl; lia || done. }
  split_and!; [done..| |].
  - unfold load32. rewrite (load16_bytes pk' a v), (load16_bytes pk' (a + 2) (Z.shiftr v 16)).
    + simpl. f_equal. unfold u16, u32. rewrite Z.shiftr_div_pow2 by lia.
      change (2 ^ 16) with 65536. change (2 ^ 32) with 4294967296.
      Z.div_mod_to_equations. lia.
    + by rewrite Hj by lia.
    + by rewrite <- Z.add_assoc, Hj by lia.
    + by rewrite <- (Z.add_0_r a), Hj by lia.
    + by rewrite Hj by lia.
  - intros i Hi. rewrite Hr.
    destruct (Z.leb_spec a i), (Z.ltb_spec i (a + 4)); simpl; lia || done.
Qed.

(** ** The header functions compute the reference parser *)

Definition at_read (pk : packet) (read : Z) (chunks : list Z) : packet :=
  Packet (base pk) (buf pk) (global_total_length pk) read chunks.

(** The packet after the IPv4 header function. *)
Definition after_ipv4 (pk : packet) : packet :=
  let b := buf pk in let n := global_total_length pk in
  if ipv4_ok b n && has_options b n then
    at_read pk (l4_off b n) [base pk; base pk + 14; base pk + 34]
  else if (byte_at b 12 =? 8) && (byte_at b 13 =? 0) && (34 <=? n) then
    at_read pk 34 [base pk; base pk + 14]
  else at_read pk 14 [base pk].

Definition after_tcpudp (pk : packet) : packet :=
  let b := buf pk in let n := global_total_length pk in
  if tcpudp_ok b n then
    at_read pk (l4_off b n + 4) (chunks_borrowed (after_ipv4 pk) ++ [base pk + l4_off b n])
  else after_ipv4 pk.

Section parsing.
Context (pk : packet) (tail : Z).
Hypothesis HR : received pk tail.
Local Abbreviation b := (buf pk).
Local Abbreviation n := (global_total_length pk).

Lemma received_byte pk' i :
  base pk' = base pk → buf pk' = b → 0 ≤ i < n →
  load8 pk' (base pk + i) = Some (byte_at b i).
Proof.
  intros Hb Hbuf Hi. unfold load8. rewrite Hb, Hbuf.
  replace (base pk + i - base pk) with i by lia.
  pose proof (rc_buf _ _ HR). pose proof (rc_tail _ _ HR).
  by apply byte_rd; [apply HR|lia].
Qed.

Lemma byte_range i : 0 ≤ byte_at b i < 256.
Proof.
  destruct (decide (0 ≤ i < zlen b)).
  - by apply byte_rd; [apply HR|].
  - unfold byte_at. rewrite rd_None by done. simpl. lia.
Qed.

Lemma ihl_range : 0 ≤ ihl_of b < 16.
Proof. unfold ihl_of. apply Z.mod_pos_bound. lia. Qed.

Lemma ether_header_spec :
  nf_then_get_rte_ether_header pk = Some (base pk, at_read pk 14 [base pk]).
Proof.
  unfold nf_then_get_rte_ether_header, nf_borrow_next_chunk, packet_borrow_next_chunk.
  rewrite (rc_chunks _ _ HR), (rc_read _ _ HR). simpl. by rewrite Z.add_0_r.
Qed.

Lemma unread_at read cs :
  0 ≤ read ≤ n → packet_get_unread_length (at_read pk read cs) = n - read.
Proof.
  intros Hr. unfold packet_get_unread_length. simpl. pose proof (rc_total _ _ HR).
  apply u32_small. lia.
Qed.

Lemma borrow_at read cs len :
  zlen cs < 100 → 0 ≤ read → 0 ≤ len → read + len < 2 ^ 64 →
  nf_borrow_next_chunk (at_read pk read cs) len =
    Some (base pk + read, at_read pk (read + len) (cs ++ [base pk + read])).
Proof.
  intros Hc Hr Hl Hs. unfold nf_borrow_next_chunk, packet_borrow_next_chunk, MAX_N_CHUNKS. simpl.
  destruct (Z.ltb_spec (zlen cs) 100); [|lia]. simpl. rewrite u64_small by lia. done.
Qed.

(** The options length in bytes. *)
Lemma options_length :
  5 ≤ ihl_of b →
  u16 ((ihl_of b - 5) * WORD_SIZE) = 4 * (ihl_of b - 5).
Proof.
  unfold WORD_SIZE. intros. pose proof ihl_range.
  rewrite u16_small; lia.
Qed.

Lemma total_length_field read cs :
  34 ≤ n →
  ∃ x, load16 (at_read pk read cs) (base pk + 14 + total_length_off) = Some x ∧
       rte_be_to_cpu_16 x = 256 * byte_at b 16 + byte_at b 17.
Proof.
  intros Hn. unfold load16, total_length_off. rewrite <- !Z.add_assoc.
  rewrite !received_byte by (done || simpl; lia). eexists. split; [done|].
  apply bswap16; apply byte_range.
Qed.

Lemma ether_type_field read cs :
  ∃ x, load16 (at_read pk read cs) (base pk + ether_type_off) = Some x ∧
       (x =? 8) = (byte_at b 12 =? 8) && (byte_at b 13 =? 0).
Proof.
  pose proof (rc_total _ _ HR). pose proof (byte_range 12). pose proof (byte_range 13).
  unfold load16, ether_type_off. rewrite <- Z.add_assoc, !received_byte by (done || simpl; lia).
  eexists. split; [done|]. change (12 + 1) with 13.
  destruct (Z.eqb_spec (byte_at b 12 + 2 ^ 8 * byte_at b 13) 8),
    (Z.eqb_spec (byte_at b 12) 8), (Z.eqb_spec (byte_at b 13) 0); simpl; lia.
Qed.

Lemma ipv4_header_spec :
  nf_then_get_rte_ipv4_header (at_read pk 14 [base pk]) (base pk) =
    Some (if ipv4_ok b n then base pk + 14 else NULL,
          if ipv4_ok b n && has_options b n then base pk + 34 else NULL,
          after_ipv4 pk).
Proof.
  pose proof (rc_total _ _ HR) as Hn. pose proof ihl_range.
  unfold nf_then_get_rte_ipv4_header, nf_has_rte_ipv4_header, SIZEOF_IPV4_HDR,
    IP_MIN_SIZE_WORDS.
  rewrite unread_at by lia. rewrite u16_small by lia.
  destruct (ether_type_field 14 [base pk]) as (et & -> & Het). cbn [mbind option_bind].
  change (rte_be_to_cpu_16 RTE_ETHER_TYPE_IPV4) with 8. rewrite Het.
  unfold after_ipv4, ipv4_ok.
  destruct ((byte_at b 12 =? 8) && (byte_at b 13 =? 0)); cbn [negb orb andb]; [|done].
  destruct (Z.ltb_spec (n - 14) 20), (Z.leb_spec 34 n); try lia; cbn [andb]; [done|].
  rewrite borrow_at by (unfold zlen; simpl; lia). cbn [mbind option_bind].
  rewrite <- (Z.add_assoc (base pk) 14 version_ihl_off), received_byte
    by (done || unfold version_ihl_off; simpl; lia).
  cbn [mbind option_bind]. change 15 with (Z.ones 4). rewrite Z.land_ones by lia.
  change (byte_at b (14 + version_ihl_off) mod 2 ^ 4) with (ihl_of b).
  destruct (total_length_field (14 + 20) ([base pk] ++ [base pk + 14])) as (x & Hx & Hsw);
    [lia|]. rewrite Hx. cbn [mbind option_bind]. rewrite Hsw.
  destruct (Z.ltb_spec (ihl_of b) 5), (Z.leb_spec 5 (ihl_of b)); try lia; cbn [orb andb]; [done|].
  destruct (Z.ltb_spec (n - 14) (256 * byte_at b 16 + byte_at b 17)),
    (Z.leb_spec (256 * byte_at b 16 + byte_at b 17) (n - 14)); try lia; cbn [andb]; [done|].
  rewrite options_length by lia. rewrite u64_small by lia.
  assert (negb (4 * (ihl_of b - 5) =? 0) && (4 * (ihl_of b - 5) <=? n - 14 - 20) =
          has_options b n) as ->.
  { unfold has_options.
    destruct (Z.eqb_spec (4 * (ihl_of b - 5)) 0) as [Heq|Hne], (Z.ltb_spec 5 (ihl_of b)),
      (Z.leb_spec (4 * (ihl_of b - 5)) (n - 14 - 20)), (Z.leb_spec (14 + 4 * ihl_of b) n);
      simpl; lia || done. }
  unfold l4_off. destruct (has_options b n); [|done].
  rewrite borrow_at by (unfold zlen; simpl; lia). cbn [mbind option_bind].
  do 3 f_equal. lia.
Qed.

Lemma after_ipv4_read :
  ipv4_ok b n = true →
  ∃ cs, after_ipv4 pk = at_read pk (l4_off b n) cs ∧ zlen cs ≤ 3 ∧ 34 ≤ l4_off b n ≤ n.
Proof.
  intros Hok. unfold after_ipv4. rewrite Hok. unfold ipv4_ok in Hok.
  apply andb_true_iff in Hok as [Hok _]. apply andb_true_iff in Hok as [Hok Hi].
  rewrite Hok. apply andb_true_iff in Hok as [_ Hn]. zbool.
  unfold l4_off, has_options. destruct (Z.ltb_spec 5 (ihl_of b)),
    (Z.leb_spec (14 + 4 * ihl_of b) n); simpl; eexists; (split; [done|]); unfold zlen; simpl; lia.
Qed.

Lemma tcpudp_header_spec :
  ipv4_ok b n = true →
  nf_then_get_tcpudp_header (after_ipv4 pk) (base pk + 14) =
    Some (if tcpudp_ok b n then base pk + l4_off b n else NULL, after_tcpudp pk).
Proof.
  intros Hok. destruct (after_ipv4_read Hok) as (cs & Hcs & Hlen & Hoff).
  pose proof (rc_total _ _ HR).
  unfold nf_then_get_tcpudp_header, nf_has_tcpudp_header, next_proto_id_off, IPPROTO_TCP,
    IPPROTO_UDP, SIZEOF_TCPUDP_HDR, after_tcpudp, tcpudp_ok.
  rewrite Hcs. rewrite <- (Z.add_assoc (base pk) 14 9), received_byte by (done || simpl; lia).
  cbn [mbind option_bind]. change (14 + 9) with 23. rewrite unread_at by lia.
  destruct ((byte_at b 23 =? 6) || (byte_at b 23 =? 17)); cbn [negb orb andb]; [|done].
  destruct (Z.ltb_spec (n - l4_off b n) 4), (Z.leb_spec (l4_off b n + 4) n); try lia; [done|].
  rewrite borrow_at by lia. done.
Qed.

(** Returning the chunks rewinds the packet. *)
Lemma return_chunks_rewinds pk' rest :
  base pk' = base pk → chunks_borrowed pk' = base pk :: rest →
  nf_return_all_chunks pk' = Packet (base pk') (buf pk') (global_total_length pk') 0 [].
Proof.
  intros Hb Hc. unfold nf_return_all_chunks. rewrite Hc. simpl.
  assert (∀ l q, base (foldr (λ c q, packet_return_chunk q c) q l) = base q ∧
    buf (foldr (λ c q, packet_return_chunk q c) q l) = buf q ∧
    global_total_length (foldr (λ c q, packet_return_chunk q c) q l) = global_total_length q)
    as Hfold by (intros l q; induction l; simpl; auto).
  destruct (Hfold rest pk') as (-> & -> & ->). f_equal.
  rewrite Hb, Z.sub_diag. done.
Qed.

End parsing.

(** ** Edits: packets that differ only at some addresses *)

Record edits (P : Z → Prop) (pk pk' : packet) : Prop := Edits {
  ed_base : base pk' = base pk;
  ed_len : zlen (buf pk') = zlen (buf pk);
  ed_total : global_total_length pk' = global_total_length pk;
  ed_chunks : chunks_borrowed pk' = chunks_borrowed pk;
  ed_frame : ∀ i, ¬ P i → load8 pk' i = load8 pk i
}.

(** The addresses [a, a + n). *)
Definition span (a n i : Z) : Prop := a ≤ i < a + n.

Lemma edits_trans P Q pk1 pk2 pk3 :
  edits P pk1 pk2 → edits Q pk2 pk3 → edits (λ i, P i ∨ Q i) pk1 pk3.
Proof.
  intros [? ? ? ? Hp] [? ? ? ? Hq]. constructor; [congruence..|].
  intros i Hi. rewrite Hq, Hp by tauto. done.
Qed.

Lemma edits_weaken (P Q : Z → Prop) pk1 pk2 :
  edits P pk1 pk2 → (∀ i, P i → Q i) → edits Q pk1 pk2.
Proof.
  intros [? ? ? ? Hp] HPQ. constructor; [done..|]. intros i Hi. apply Hp. auto.
Qed.

Lemma edits_load16 P pk pk' a :
  edits P pk pk' → ¬ P a → ¬ P (a + 1) → load16 pk' a = load16 pk a.
Proof. intros HE ? ?. apply load16_frame; by apply (ed_frame _ _ _ HE). Qed.

Lemma edits_load32 P pk pk' a :
  edits P pk pk' → (∀ i, 0 ≤ i < 4 → ¬ P (a + i)) → load32 pk' a = load32 pk a.
Proof. intros HE Hi. apply load32_frame. intros. apply (ed_frame _ _ _ HE). auto. Qed.

Lemma store16_edits pk a v :
  base pk ≤ a → a + 2 ≤ base pk + zlen (buf pk) →
  ∃ pk', store16 pk a v = Some pk' ∧ edits (span a 2) pk pk' ∧ load16 pk' a = Some (u16 v).
Proof.
  intros Ha Hl. destruct (store16_spec pk a v Ha Hl) as (pk' & ? & ? & ? & ? & ? & ? & Hf).
  exists pk'. split_and!; [done| |done]. constructor; [done..|].
  intros i Hi. apply Hf. unfold span in Hi. lia.
Qed.

Lemma store32_edits pk a v :
  base pk ≤ a → a + 4 ≤ base pk + zlen (buf pk) →
  ∃ pk', store32 pk a v = Some pk' ∧ edits (span a 4) pk pk' ∧ load32 pk' a = Some (u32 v).
Proof.
  intros Ha Hl. destruct (store32_spec pk a v Ha Hl) as (pk' & ? & ? & ? & ? & ? & ? & Hf).
  exists pk'. split_and!; [done| |done]. constructor; [done..|].
  intros i Hi. apply Hf. unfold span in Hi. lia.
Qed.

Lemma store_bytes_edits pk a bs :
  base pk ≤ a → a + zlen bs ≤ base pk + zlen (buf pk) →
  ∃ pk', store_bytes pk a bs = Some pk' ∧ edits (span a (zlen bs)) pk pk' ∧
    ∀ j, 0 ≤ j < zlen bs → load8 pk' (a + j) = rd bs j.
Proof.
  intros Ha Hl. destruct (store_bytes_spec pk a bs Ha Hl) as (pk' & ? & ? & ? & ? & ? & Hf).
  exists pk'. split_and!; [done| |].
  - constructor; [done..|]. intros i Hi. rewrite Hf. unfold span in Hi.
    destruct (Z.leb_spec a i), (Z.ltb_spec i (a + zlen bs)); simpl; lia || done.
  - intros j Hj. rewrite Hf. replace (a + j - a) with j by lia.
    destruct (Z.leb_spec a (a + j)), (Z.ltb_spec (a + j) (a + zlen bs)); simpl; lia || done.
Qed.

(** Where the checksum is in the transport header of a protocol. *)
Definition transport_cksum_off (proto : Z) : Z :=
  if proto =? IPPROTO_TCP then tcp_cksum_off else udp_dgram_cksum_off.

Lemma transport_cksum_cases proto : transport_cksum_off proto = 6 ∨ transport_cksum_off proto = 16.
Proof. unfold transport_cksum_off, tcp_cksum_off, udp_dgram_cksum_off. case_match; auto. Qed.

(** The checksum function writes the header checksum and one checksum of the
    transport header; it needs 18 bytes from the transport header on. *)
Lemma set_checksum_edits `{Checksums} pk ip l4 proto :
  base pk ≤ ip → ip + 20 ≤ l4 → l4 + 18 ≤ base pk + zlen (buf pk) →
  load8 pk (ip + next_proto_id_off) = Some proto →
  ∃ pk', nf_set_rte_ipv4_udptcp_checksum pk ip l4 = Some pk' ∧
    edits (λ i, span (ip + 10) 2 i ∨ span (l4 + transport_cksum_off proto) 2 i) pk pk'.
Proof.
  intros Hb Hip Hl Hp. unfold nf_set_rte_ipv4_udptcp_checksum, hdr_checksum_off.
  destruct (store16_edits pk (ip + 10) 0) as (pk1 & -> & E1 & _); [lia..|].
  pose proof (ed_base _ _ _ E1). pose proof (ed_len _ _ _ E1).
  cbn [mbind option_bind]. rewrite (ed_frame _ _ _ E1), Hp
    by (unfold span, next_proto_id_off; lia). cbn [mbind option_bind].
  assert (∀ off, 6 ≤ off ≤ 16 → ∃ pk4,
    (pk2 ← store16 pk1 (l4 + off) 0;
     store16 pk2 (l4 + off) (rte_ipv4_udptcp_cksum pk2 ip l4)) = Some pk4 ∧
    edits (span (l4 + off) 2) pk1 pk4) as Hst.
  { intros off Hoff.
    destruct (store16_edits pk1 (l4 + off) 0) as (pk2 & -> & E2 & _); [lia..|].
    cbn [mbind option_bind]. pose proof (ed_base _ _ _ E2). pose proof (ed_len _ _ _ E2).
    destruct (store16_edits pk2 (l4 + off) (rte_ipv4_udptcp_cksum pk2 ip l4))
      as (pk3 & -> & E3 & _); [lia..|].
    exists pk3. split; [done|]. eapply edits_weaken; [eapply edits_trans; eauto|].
    unfold span. intros i. lia. }
  assert (∃ pk4,
    (if proto =? IPPROTO_TCP then
       pk2 ← store16 pk1 (l4 + tcp_cksum_off) 0;
       store16 pk2 (l4 + tcp_cksum_off) (rte_ipv4_udptcp_cksum pk2 ip l4)
     else if proto =? IPPROTO_UDP then
       pk2 ← store16 pk1 (l4 + udp_dgram_cksum_off) 0;
       store16 pk2 (l4 + udp_dgram_cksum_off) (rte_ipv4_udptcp_cksum pk2 ip l4)
     else Some pk1) = Some pk4 ∧ edits (span (l4 + transport_cksum_off proto) 2) pk1 pk4)
    as (pk4 & -> & E4).
  { unfold transport_cksum_off. destruct (proto =? IPPROTO_TCP); [apply Hst; unfold tcp_cksum_off; lia|].
    destruct (proto =? IPPROTO_UDP); [apply Hst; unfold udp_dgram_cksum_off; lia|].
    exists pk1. split; [done|]. by constructor. }
  cbn [mbind option_bind]. pose proof (ed_base _ _ _ E4). pose proof (ed_len _ _ _ E4).
  destruct (store16_edits pk4 (ip + 10) (rte_ipv4_cksum pk4 ip)) as (pk5 & -> & E5 & _);
    [lia..|].
  exists pk5. split; [done|].
  eapply edits_weaken; [eapply edits_trans; [eapply edits_trans; eauto|eauto]|].
  intros i [[?|?]|?]; auto.
Qed.

(** A header read needs only bytes outside of the edits. *)
Lemma read_headers_total pk tail :
  received pk tail → ipv4_ok (buf pk) (global_total_length pk) = true →
  tcpudp_ok (buf pk) (global_total_length pk) = true →
  let l4 := l4_off (buf pk) (global_total_length pk) in
  ∃ h, read_headers pk (base pk + 14) (base pk + l4) = Some h ∧
    0 ≤ h_src_addr h < 2 ^ 32 ∧ 0 ≤ h_dst_addr h < 2 ^ 32 ∧ 0 ≤ h_proto h < 2 ^ 8 ∧
    0 ≤ h_src_port h < 2 ^ 16 ∧ 0 ≤ h_dst_port h < 2 ^ 16.
Proof.
  intros HR Hip Htu l4. destruct (after_ipv4_read pk Hip) as (_ & _ & _ & Hoff).
  unfold tcpudp_ok in Htu. apply andb_true_iff in Htu as [_ Hl]. zbool. fold l4 in Hl, Hoff.
  pose proof (rc_total _ _ HR).
  assert (∀ i, 0 ≤ i < global_total_length pk →
            load8 pk (base pk + i) = Some (byte_at (buf pk) i)) as Hld
    by (intros; by apply (received_byte pk tail HR)).
  pose proof (byte_range pk tail HR) as Hby. change (2 ^ 8) with 256 in *.
  change (2 ^ 16) with 65536. change (2 ^ 32) with 4294967296.
  unfold read_headers, load32, load16, src_addr_off, dst_addr_off, next_proto_id_off,
    src_port_off, dst_port_off.
  rewrite <- !Z.add_assoc. simpl. rewrite !Hld by lia. simpl. eexists. split; [done|]. simpl.
  repeat match goal with |- context [byte_at (buf pk) ?i] =>
    let H := fresh in pose proof (Hby i) as H; revert H;
    generalize (byte_at (buf pk) i); intros ? H end.
  lia.
Qed.

Lemma edits_read_headers P pk pk' ip l4 :
  edits P pk pk' →
  (∀ i, 9 ≤ i < 20 → i ≠ 10 → i ≠ 11 → ¬ P (ip + i)) → (∀ i, 0 ≤ i < 4 → ¬ P (l4 + i)) →
  read_headers pk' ip l4 = read_headers pk ip l4.
Proof.
  intros HE Hip Hl4. unfold read_headers.
  rewrite !(edits_load32 P pk pk') by (done || intros; unfold src_addr_off, dst_addr_off;
    rewrite <- Z.add_assoc; apply Hip; lia).
  rewrite (ed_frame _ _ _ HE) by (apply Hip; unfold next_proto_id_off; lia).
  rewrite !(edits_load16 P pk pk') by (done || unfold src_port_off, dst_port_off;
    rewrite <- ?Z.add_assoc; apply Hl4; lia). done.
Qed.

Lemma load_bytes_spec pk a bs :
  (∀ j, 0 ≤ j < zlen bs → load8 pk (a + j) = rd bs j) → load_bytes pk a (length bs) = Some bs.
Proof.
  intros Hj. unfold load_bytes. apply mapM_Some, Forall2_same_length_lookup_2.
  { apply length_seq. }
  intros i x y [-> Hi]%lookup_seq Hy. rewrite Hj by (unfold zlen; lia).
  rewrite rd_lookup by lia. rewrite Nat2Z.id. exact Hy.
Qed.

(** The bytes outside of the edits are what they were. *)
Lemma edits_load_bytes P pk pk' a bs :
  edits P pk pk' → (∀ j, 0 ≤ j < zlen bs → ¬ P (a + j)) →
  (∀ j, 0 ≤ j < zlen bs → load8 pk (a + j) = rd bs j) →
  ∀ j, 0 ≤ j < zlen bs → load8 pk' (a + j) = rd bs j.
Proof. intros HE HP Hl j Hj. rewrite (ed_frame _ _ _ HE) by auto. auto. Qed.

(** New source and destination addresses in the Ethernet header. *)
Lemma rewrite_macs pk smac dmac :
  14 ≤ zlen (buf pk) → zlen smac = 6 → zlen dmac = 6 →
  ∃ pk1 pk2, store_bytes pk (base pk + s_addr_off) smac = Some pk1 ∧
    store_bytes pk1 (base pk + d_addr_off) dmac = Some pk2 ∧
    edits (span (base pk) 12) pk pk2 ∧
    load_bytes pk2 (base pk + s_addr_off) 6 = Some smac ∧
    load_bytes pk2 (base pk + d_addr_off) 6 = Some dmac.
Proof.
  intros Hl Hs Hd. unfold s_addr_off, d_addr_off.
  destruct (store_bytes_edits pk (base pk + 6) smac) as (pk1 & Hst1 & E1 & V1); [lia..|].
  pose proof (ed_base _ _ _ E1). pose proof (ed_len _ _ _ E1).
  destruct (store_bytes_edits pk1 (base pk + 0) dmac) as (pk2 & Hst2 & E2 & V2); [lia..|].
  exists pk1, pk2. split_and!; [done..| | |].
  - eapply edits_weaken; [eapply edits_trans; eauto|]. unfold span. intros i. lia.
  - replace 6%nat with (length smac) by (unfold zlen in Hs; lia). apply load_bytes_spec.
    eapply edits_load_bytes; [exact E2|unfold span; lia|exact V1].
  - replace 6%nat with (length dmac) by (unfold zlen in Hd; lia). by apply load_bytes_spec.
Qed.

(** The new header fields, the checksums and the addresses of a forwarded
    packet: what the translators do before they return the output device. *)
Lemma forward_edits `{Checksums} pk ip l4 h fa va fp vp smac dmac :
  base pk = ip - 14 → ip + 20 ≤ l4 → l4 + 18 ≤ base pk + zlen (buf pk) →
  read_headers pk ip l4 = Some h →
  fa = src_addr_off ∨ fa = dst_addr_off → fp = src_port_off ∨ fp = dst_port_off →
  zlen smac = 6 → zlen dmac = 6 →
  ∃ pk4 pk5 pk6 pk7 pk8,
    store32 pk (ip + fa) va = Some pk4 ∧ store16 pk4 (l4 + fp) vp = Some pk5 ∧
    nf_set_rte_ipv4_udptcp_checksum pk5 ip l4 = Some pk6 ∧
    store_bytes pk6 (base pk + s_addr_off) smac = Some pk7 ∧
    store_bytes pk7 (base pk + d_addr_off) dmac = Some pk8 ∧
    edits (λ i, span (base pk) 12 i ∨ span (ip + 10) 2 i ∨ span (ip + fa) 4 i ∨
                span (l4 + fp) 2 i ∨ span (l4 + transport_cksum_off (h_proto h)) 2 i) pk pk8 ∧
    load_bytes pk8 (base pk + s_addr_off) 6 = Some smac ∧
    load_bytes pk8 (base pk + d_addr_off) 6 = Some dmac ∧
    read_headers pk8 ip l4 =
      Some (Headers (if fa =? src_addr_off then u32 va else h_src_addr h)
                    (if fa =? src_addr_off then h_dst_addr h else u32 va) (h_proto h)
                    (if fp =? src_port_off then u16 vp else h_src_port h)
                    (if fp =? src_port_off then h_dst_port h else u16 vp)).
Proof.
  intros Hip Hl4 Hbuf Hh Hfa Hfp Hs Hd. pose proof (transport_cksum_cases (h_proto h)) as Hck.
  assert (12 ≤ fa ≤ 16 ∧ 0 ≤ fp ≤ 2) as [Hfa' Hfp']
    by (unfold src_addr_off, dst_addr_off, src_port_off, dst_port_off in *; lia).
  destruct (store32_edits pk (ip + fa) va) as (pk4 & Hst4 & E4 & V4); [lia..|].
  pose proof (ed_base _ _ _ E4). pose proof (ed_len _ _ _ E4).
  destruct (store16_edits pk4 (l4 + fp) vp) as (pk5 & Hst5 & E5 & V5); [lia..|].
  pose proof (ed_base _ _ _ E5). pose proof (ed_len _ _ _ E5).
  pose proof Hh as Hh'. unfold read_headers in Hh'. opt_inv.
  pose proof (edits_trans _ _ _ _ _ E4 E5) as E45.
  destruct (set_checksum_edits pk5 ip l4 z1) as (pk6 & Hst6 & E6); [lia..| |].
  { rewrite (ed_frame _ _ _ E45); [done|]. unfold span, next_proto_id_off. lia. }
  pose proof (ed_base _ _ _ E6). pose proof (ed_len _ _ _ E6).
  destruct (rewrite_macs pk6 smac dmac) as (pk7 & pk8 & Hst7 & Hst8 & E8 & Vs & Vd); [lia|done..|].
  assert (base pk6 = base pk) as Hb6 by congruence. rewrite Hb6 in *.
  pose proof (edits_trans _ _ _ _ _ E6 E8) as E68. cbn [h_proto] in *.
  exists pk4, pk5, pk6, pk7, pk8. split_and!; [done..| |done|done|].
  - eapply edits_weaken; [eapply edits_trans; [exact E45|exact E68]|].
    intros i. unfold span. cbn beta. lia.
  - rewrite (edits_read_headers _ pk5 pk8 ip l4 E68);
      [|intros i ? ? ?; unfold span; lia|intros i ?; unfold span; lia].
    unfold read_headers.
    rewrite (ed_frame _ _ _ E45) by (unfold span, next_proto_id_off; lia).
    assert (load32 pk5 (ip + fa) = Some (u32 va)) as Vva.
    { rewrite <- V4. apply (edits_load32 _ _ _ _ E5). unfold span. intros. lia. }
    assert (∀ f, 12 ≤ f ≤ 16 → fa + 4 ≤ f ∨ f + 4 ≤ fa →
              load32 pk5 (ip + f) = load32 pk (ip + f)) as Va.
    { intros f Hf Hd'. apply (edits_load32 _ _ _ _ E45). unfold span. intros. lia. }
    assert (∀ f, 0 ≤ f ≤ 2 → fp + 2 ≤ f ∨ f + 2 ≤ fp →
              load16 pk5 (l4 + f) = load16 pk (l4 + f)) as Vp.
    { intros f Hf Hd'. apply (edits_load16 _ _ _ _ E45); unfold span; lia. }
    rewrite E1.
    destruct Hfa as [-> | ->], Hfp as [-> | ->]; rewrite Vva, V5;
      rewrite ?(Va src_addr_off), ?(Va dst_addr_off), ?(Vp src_port_off), ?(Vp dst_port_off)
        by (unfold src_addr_off, dst_addr_off, src_port_off, dst_port_off; lia);
      rewrite ?E, ?E0, ?E2, ?E3; done.
Qed.

(** Reading the headers depends on the bytes only. *)
Lemma read_headers_buf pk pk' ip l4 :
  base pk' = base pk → buf pk' = buf pk → read_headers pk' ip l4 = read_headers pk ip l4.
Proof. unfold read_headers, load32, load16, load8. by intros -> ->. Qed.

Lemma after_ipv4_frame pk :
  base (after_ipv4 pk) = base pk ∧ buf (after_ipv4 pk) = buf pk ∧
  global_total_length (after_ipv4 pk) = global_total_length pk ∧
  ∃ r, chunks_borrowed (after_ipv4 pk) = base pk :: r.
Proof. unfold after_ipv4. repeat case_match; split_and!; try done; by eexists. Qed.

Lemma after_tcpudp_frame pk :
  base (after_tcpudp pk) = base pk ∧ buf (after_tcpudp pk) = buf pk ∧
  global_total_length (after_tcpudp pk) = global_total_length pk ∧
  ∃ r, chunks_borrowed (after_tcpudp pk) = base pk :: r.
Proof.
  unfold after_tcpudp. destruct (after_ipv4_frame pk) as (? & ? & ? & r & Hr).
  case_match; simpl; [|by eauto]. split_and!; [done..|]. rewrite Hr. by eexists.
Qed.

(** What the handler must have done with a packet for an action of the
    contract: the packet is rewound by the return of its chunks; a dropped one
    is unchanged; a forwarded one has the headers of the action, an output
    device other than the input, and no byte of it differs but those of the
    Ethernet addresses, the IPv4 addresses, the ports and the two checksums. *)
Definition rewritten (proto l4 i : Z) : Prop :=
  span 0 12 i ∨ span (14 + hdr_checksum_off) 2 i ∨ span (14 + src_addr_off) 8 i ∨ span l4 4 i ∨
  span (l4 + transport_cksum_off proto) 2 i.

Definition acted (pk : packet) (device : Z) (act : option (Z * headers)) (dev : Z) (pk' : packet)
    : Prop :=
  let l4 := l4_off (buf pk) (global_total_length pk) in
  nf_return_all_chunks pk' = Packet (base pk) (buf pk') (global_total_length pk) 0 [] ∧
  match act with
  | None => dev = device ∧ buf pk' = buf pk
  | Some (d, h) =>
      dev = d ∧ dev ≠ device ∧ read_headers pk' (base pk + 14) (base pk + l4) = Some h ∧
      ∀ i, ¬ rewritten (h_proto h) l4 i → load8 pk' (base pk + i) = load8 pk (base pk + i)
  end.

(** The MAC addresses of a forwarded packet are those of its output device. *)
Definition macs_of (device_macs endpoint_macs : list (list Z)) (pk pk' : packet)
    (act : option (Z * headers)) : Prop :=
  match act with
  | None => True
  | Some (d, _) =>
      load_bytes pk' (base pk + s_addr_off) 6 = rd device_macs d ∧
      load_bytes pk' (base pk + d_addr_off) 6 = rd endpoint_macs d
  end.

Lemma acted_drop pk pk' device :
  base pk' = base pk → buf pk' = buf pk → global_total_length pk' = global_total_length pk →
  (∃ r, chunks_borrowed pk' = base pk :: r) → acted pk device None device pk'.
Proof.
  intros Hb Hbuf Ht [r Hr]. unfold acted. rewrite (return_chunks_rewinds pk pk' r Hb Hr).
  split_and!; [|done..]. by rewrite Hb, Ht.
Qed.

Lemma acted_forward pk pk3 pk' device d h P :
  base pk3 = base pk → buf pk3 = buf pk → global_total_length pk3 = global_total_length pk →
  (∃ r, chunks_borrowed pk3 = base pk :: r) → edits P pk3 pk' →
  (∀ i, P (base pk + i) → rewritten (h_proto h) (l4_off (buf pk) (global_total_length pk)) i) →
  read_headers pk' (base pk + 14)
    (base pk + l4_off (buf pk) (global_total_length pk)) = Some h →
  d ≠ device → acted pk device (Some (d, h)) d pk'.
Proof.
  intros Hb Hbuf Ht [r Hr] HE HP Hh Hd. destruct HE as [Eb El Et Ec Ef]. unfold acted.
  rewrite (return_chunks_rewinds pk pk' r); [|congruence..].
  split_and!; [by rewrite Eb, Et, Hb, Ht|done..|].
  intros i Hi. rewrite Ef by (intros HPi; by apply Hi, HP). unfold load8. by rewrite Hb, Hbuf.
Qed.

(** A packet whose transport header has been found. *)
Record parsed (pk : packet) (h : headers) : Prop := Parsed {
  pd_headers : packet_headers pk = Some h;
  pd_read : read_headers pk (base pk + 14)
              (base pk + l4_off (buf pk) (global_total_length pk)) = Some h;
  pd_l4 : 34 ≤ l4_off (buf pk) (global_total_length pk) ∧
          l4_off (buf pk) (global_total_length pk) + 4 ≤ global_total_length pk;
  pd_loads :
    let pk3 := after_tcpudp pk in
    let ip := base pk + 14 in let l4 := base pk + l4_off (buf pk) (global_total_length pk) in
    load32 pk3 (ip + src_addr_off) = Some (h_src_addr h) ∧
    load32 pk3 (ip + dst_addr_off) = Some (h_dst_addr h) ∧
    load8 pk3 (ip + next_proto_id_off) = Some (h_proto h) ∧
    load16 pk3 (l4 + src_port_off) = Some (h_src_port h) ∧
    load16 pk3 (l4 + dst_port_off) = Some (h_dst_port h);
  pd_ranges : 0 ≤ h_src_addr h < 2 ^ 32 ∧ 0 ≤ h_dst_addr h < 2 ^ 32 ∧ 0 ≤ h_proto h < 2 ^ 8 ∧
              0 ≤ h_src_port h < 2 ^ 16 ∧ 0 ≤ h_dst_port h < 2 ^ 16
}.

Lemma parsed_drop pk h device : parsed pk h → acted pk device None device (after_tcpudp pk).
Proof. intros _. destruct (after_tcpudp_frame pk) as (? & ? & ? & ?). by apply acted_drop. Qed.

(** A packet that is forwarded as it is. *)
Lemma parsed_forward pk h device d :
  parsed pk h → d ≠ device → acted pk device (Some (d, h)) d (after_tcpudp pk).
Proof.
  intros HP Hd. destruct (after_tcpudp_frame pk) as (Hb & Hbuf & Ht & Hr).
  eapply (acted_forward pk (after_tcpudp pk) _ _ _ _ (λ _, False)); try done.
  rewrite (read_headers_buf pk) by done. apply (pd_read _ _ HP).
Qed.

(** A word of a received IPv4 header, before and after the header function. *)
Lemma ipv4_word pk tail off :
  received pk tail → ipv4_ok (buf pk) (global_total_length pk) = true → 0 ≤ off ≤ 16 →
  ∃ a, load32 pk (base pk + 14 + off) = Some a ∧
       load32 (after_ipv4 pk) (base pk + 14 + off) = Some a.
Proof.
  intros HR Hip Ho. destruct (after_ipv4_read pk Hip) as (_ & _ & _ & Hoff).
  destruct (after_ipv4_frame pk) as (Hb & Hbuf & _).
  assert (∀ pk', base pk' = base pk → buf pk' = buf pk →
    load32 pk' (base pk + 14 + off) = load32 pk (base pk + 14 + off)) as Hsame
    by (unfold load32, load16, load8; intros ? -> ->; done).
  rewrite (Hsame (after_ipv4 pk)) by done. unfold load32, load16. rewrite <- !Z.add_assoc.
  rewrite !(received_byte pk tail HR) by (done || lia). simpl. eauto.
Qed.

(** The three outcomes of the header functions on a received packet: not IPv4,
    not TCP or UDP, or the transport header found. *)
Lemma parse_cases pk tail :
  received pk tail →
  ∃ pk1, nf_then_get_rte_ether_header pk = Some (base pk, pk1) ∧
  ((∃ opts pk2, nf_then_get_rte_ipv4_header pk1 (base pk) = Some (NULL, opts, pk2) ∧
      packet_headers pk = None ∧ ∀ device, acted pk device None device pk2) ∨
   (∃ opts pk2 pk3, nf_then_get_rte_ipv4_header pk1 (base pk) = Some (base pk + 14, opts, pk2) ∧
      base pk + 14 ≠ NULL ∧ nf_then_get_tcpudp_header pk2 (base pk + 14) = Some (NULL, pk3) ∧
      packet_headers pk = None ∧ ∀ device, acted pk device None device pk3) ∨
   (∃ opts pk2 h, nf_then_get_rte_ipv4_header pk1 (base pk) = Some (base pk + 14, opts, pk2) ∧
      base pk + 14 ≠ NULL ∧
      nf_then_get_tcpudp_header pk2 (base pk + 14) =
        Some (base pk + l4_off (buf pk) (global_total_length pk), after_tcpudp pk) ∧
      base pk + l4_off (buf pk) (global_total_length pk) ≠ NULL ∧ parsed pk h)).
Proof.
  intros HR. eexists. split; [by eapply ether_header_spec|].
  pose proof (ipv4_header_spec pk tail HR) as Hi. pose proof (rc_base _ _ HR).
  destruct (after_ipv4_frame pk) as (? & ? & ? & ?).
  destruct (after_tcpudp_frame pk) as (Fb & Fbuf & ? & ?).
  destruct (ipv4_ok (buf pk) (global_total_length pk)) eqn:Hip; cbn [andb] in Hi.
  2: { left. eexists _, _. split_and!; [exact Hi| |intros; by apply acted_drop].
       unfold packet_headers. by rewrite Hip. }
  right. pose proof (tcpudp_header_spec pk tail HR Hip) as Ht.
  destruct (after_ipv4_read pk Hip) as (_ & _ & _ & Hoff).
  destruct (tcpudp_ok (buf pk) (global_total_length pk)) eqn:Htu.
  2: { left. eexists _, _, _.
       split_and!; [exact Hi|unfold NULL; lia|exact Ht| |intros; by apply acted_drop].
       unfold packet_headers. by rewrite Hip, Htu. }
  right. destruct (read_headers_total pk tail HR Hip Htu) as (h & Hh & Hrg).
  eexists _, _, h. split_and!; [exact Hi|unfold NULL; lia|exact Ht|unfold NULL; lia|].
  constructor; [unfold packet_headers; by rewrite Hip, Htu|done| | |done].
  - unfold tcpudp_ok in Htu. apply andb_true_iff in Htu as [_ Hl]. zbool. lia.
  - cbn zeta. rewrite <- (read_headers_buf pk (after_tcpudp pk)) in Hh by done.
    unfold read_headers in Hh. opt_inv. done.
Qed.

(** *** Byte strings *)

(** An entry of a list of MAC addresses. *)
Lemma mac_at l d :
  Forall (λ m : list Z, zlen m = 6) l → 0 ≤ d < zlen l → ∃ m, rd l d = Some m ∧ zlen m = 6.
Proof.
  intros Hl Hd. destruct (rd_Some l d Hd) as [m Hm]. exists m. split; [done|].
  rewrite rd_lookup in Hm by lia. by eapply Forall_lookup_1 in Hl.
Qed.

Lemma load_bytes_total pk tail off n :
  received pk tail → 0 ≤ off → off + Z.of_nat n ≤ global_total_length pk →
  ∃ bs, load_bytes pk (base pk + off) n = Some bs ∧ zlen bs = Z.of_nat n.
Proof.
  intros HR Hoff Hn. unfold load_bytes.
  destruct (mapM (λ i, load8 pk (base pk + off + Z.of_nat i)) (seq 0 n)) as [bs|] eqn:E.
  - exists bs. split; [done|]. apply mapM_Some, Forall2_length in E.
    rewrite length_seq in E. unfold zlen. lia.
  - exfalso. apply eq_None_not_Some in E. apply E, mapM_is_Some, list.Forall_forall.
    intros i Hi%elem_of_seq. unfold compose. rewrite <- Z.add_assoc, (received_byte pk tail HR) by (done || lia). by eexists.
Qed.

Lemma load_bytes_buf pk pk' a n :
  base pk' = base pk → buf pk' = buf pk → load_bytes pk' a n = load_bytes pk a n.
Proof. unfold load_bytes, load8. by intros -> ->. Qed.

(** ** Main results *)

(** C9: header parsing.  On a packet as the main loop hands it over, the
    Ethernet, IPv4 and TCP/UDP header functions never fail an assertion or read
    outside the packet; they return the addresses that the reference parser
    computes from the bytes and [NULL] exactly when it rejects them; a returned
    header lies inside the packet; and returning the borrowed chunks gives back
    the packet as it was received. *)
Theorem header_parsing_correct (pk : packet) (tail : Z) :
  received pk tail →
  let b := buf pk in let n := global_total_length pk in
  ∃ pk1 pk2 pk3 opts,
    nf_then_get_rte_ether_header pk = Some (base pk, pk1) ∧
    nf_then_get_rte_ipv4_header pk1 (base pk) =
      Some (if ipv4_ok b n then base pk + 14 else NULL, opts, pk2) ∧
    (opts ≠ NULL ↔ ipv4_ok b n && has_options b n = true) ∧
    (ipv4_ok b n = true →
       nf_then_get_tcpudp_header pk2 (base pk + 14) =
         Some (if tcpudp_ok b n then base pk + l4_off b n else NULL, pk3)) ∧
    (tcpudp_ok b n = true → 34 ≤ l4_off b n ∧ l4_off b n + 4 ≤ n) ∧
    nf_return_all_chunks pk2 = pk ∧ nf_return_all_chunks pk3 = pk.
Proof.
  intros HR b n. exists (at_read pk 14 [base pk]), (after_ipv4 pk), (after_tcpudp pk).
  eexists. split_and!.
  - by eapply ether_header_spec.
  - by eapply ipv4_header_spec.
  - pose proof (rc_base _ _ HR). unfold b, n, NULL. destruct (_ && _); split; intros; lia || done.
  - by eapply tcpudp_header_spec.
  - unfold tcpudp_ok, l4_off, has_options. intros [_ Hn]%andb_true_iff. zbool.
    subst b n. destruct (Z.ltb_spec 5 (ihl_of (buf pk))),
      (Z.leb_spec (14 + 4 * ihl_of (buf pk)) (global_total_length pk)); simpl in *; lia.
  - destruct (after_ipv4_frame pk) as (Hb & Hbuf & Ht & r & Hr).
    rewrite (return_chunks_rewinds pk _ r Hb Hr), Hb, Hbuf, Ht.
    destruct HR, pk; simpl in *; by subst.
  - destruct (after_tcpudp_frame pk) as (Hb & Hbuf & Ht & r & Hr).
    rewrite (return_chunks_rewinds pk _ r Hb Hr), Hb, Hbuf, Ht.
    destruct HR, pk; simpl in *; by subst.
Qed.

(** A 60-byte UDP packet without options, and room for 20 more bytes. *)
Definition demo_packet_bytes (ver_ihl proto len : Z) : list Z :=
  [2;0;0;0;0;1] ++ [2;0;0;0;0;2] ++ [8;0] ++
  [ver_ihl;0;0;len;0;0;0;0;64;proto;0;0] ++ [10;0;0;1] ++ [10;0;0;2] ++ [4;0;0;80].

Definition demo_packet : packet :=
  Packet 4096 (demo_packet_bytes 69 17 46 ++ replicate 42 0) 60 0 [].

Lemma demo_packet_received : received demo_packet 20.
Proof.
  constructor; try done. cbn.
  repeat (apply List.Forall_cons; [lia|]). apply List.Forall_nil.
Qed.

Lemma header_parsing_correct_witness :
  ∃ pk1 pk2, nf_then_get_rte_ether_header demo_packet = Some (4096, pk1) ∧
    nf_then_get_rte_ipv4_header pk1 4096 = Some (4110, 0, pk2) ∧
    nf_return_all_chunks pk2 = demo_packet.
Proof.
  destruct (header_parsing_correct demo_packet 20 demo_packet_received)
    as (pk1 & pk2 & pk3 & opts & He & Hi & Ho & _ & _ & Hr & _).
  exists pk1, pk2. split_and!; [exact He| |exact Hr].
  assert (opts = 0) as ->; [|exact Hi].
  destruct (Z.eq_dec opts 0) as [|Hne]; [done|]. apply Ho in Hne. discriminate Hne.
Defined.

(** A packet that ends inside its IPv4 options is not rejected.  When the
    header length field announces options that the packet is too short to hold
    (and the other checks pass), the header functions do not return [NULL]: the
    transport header is taken from the bytes right after the fixed IPv4 header,
    before the end of the header that the packet announces. *)
Theorem truncated_options_accepted (pk : packet) (tail : Z) :
  received pk tail →
  let b := buf pk in let n := global_total_length pk in
  ipv4_ok b n = true → n < 14 + 4 * ihl_of b →
  byte_at b 23 = 6 ∨ byte_at b 23 = 17 → 38 ≤ n →
  ∃ pk1 pk2 pk3,
    nf_then_get_rte_ether_header pk = Some (base pk, pk1) ∧
    nf_then_get_rte_ipv4_header pk1 (base pk) = Some (base pk + 14, NULL, pk2) ∧
    nf_then_get_tcpudp_header pk2 (base pk + 14) = Some (base pk + 34, pk3) ∧
    base pk + 34 < base pk + 14 + 4 * ihl_of b.
Proof.
  intros HR b n Hok Hshort Hproto Hn.
  assert (has_options b n = false) as Hno.
  { unfold has_options. destruct (Z.leb_spec (14 + 4 * ihl_of b) n); [lia|]. by rewrite andb_false_r. }
  assert (l4_off b n = 34) as Hoff by (unfold l4_off; by rewrite Hno).
  assert (tcpudp_ok b n = true) as Ht.
  { unfold tcpudp_ok. rewrite Hoff. destruct Hproto as [-> | ->]; simpl; apply Z.leb_le; lia. }
  pose proof (ipv4_header_spec pk tail HR) as Hi. pose proof (tcpudp_header_spec pk tail HR Hok) as Hl.
  fold b n in Hi, Hl. rewrite Hok, Hno in Hi. rewrite Ht, Hoff in Hl.
  eexists _, _, _. split_and!; [by eapply ether_header_spec|exact Hi|exact Hl|lia].
Qed.

(** A 40-byte packet whose header claims 60 bytes of IPv4 header. *)
Definition demo_short_packet : packet :=
  Packet 4096 (demo_packet_bytes 79 17 24 ++ replicate 22 0) 40 0 [].

Lemma demo_short_received : received demo_short_packet 20.
Proof.
  constructor; try done. cbn.
  repeat (apply List.Forall_cons; [lia|]). apply List.Forall_nil.
Qed.

Lemma truncated_options_accepted_witness :
  ∃ pk2 pk3, nf_then_get_tcpudp_header pk2 4110 = Some (4130, pk3).
Proof.
  destruct (truncated_options_accepted demo_short_packet 20 demo_short_received)
    as (pk1 & pk2 & pk3 & _ & _ & Ht & _); [reflexivity|reflexivity|by right|done|].
  exists pk2, pk3. exact Ht.
Defined.
