(* ===== verification/Resize.v ===== *)
(** * Growing and shrinking a packet: packet-io.c and vigresize

    [packet_shrink_chunk] and [packet_insert_new_chunk] move the front of a
    packet inside the buffer of its mbuf, which DPDK's functions make longer or
    shorter at the front.  The buffer is modelled with its headroom; the packet
    of Packet.v is its part from the data pointer on. *)
From stdpp Require Import base list numbers.
From Stdlib Require Import ZArith Lia.
From S2P Require Import Prelude.
From S2P Require Import Memory.
From S2P Require Import Packet.

(** DPDK's functions on the front of an mbuf: the new address of the data, or
    [NULL], and the mbuf. *)
Class MbufOps (mbuf : Type) := {
  rte_pktmbuf_adj : mbuf → Z → Z * mbuf;
  rte_pktmbuf_prepend : mbuf → Z → Z * mbuf;
  mtod : mbuf → Z;
  headroom : mbuf → Z;
  data_len : mbuf → Z
}.

(** Their documentation, for an mbuf of one segment: both fail without effect
    when there are not enough bytes to remove, or not enough headroom. *)
Class MbufLaws (mbuf : Type) `{MbufOps mbuf} : Prop := {
  adj_ok : ∀ m len, 0 ≤ len ≤ data_len m → len < 2 ^ 16 → ∃ m',
    rte_pktmbuf_adj m len = (mtod m + len, m') ∧ mtod m' = mtod m + len ∧
    headroom m' = headroom m + len ∧ data_len m' = data_len m - len;
  prepend_ok : ∀ m len, 0 ≤ len ≤ headroom m → len < 2 ^ 16 → ∃ m',
    rte_pktmbuf_prepend m len = (mtod m - len, m') ∧ mtod m' = mtod m - len ∧
    headroom m' = headroom m - len ∧ data_len m' = data_len m + len;
  prepend_fails : ∀ m len, headroom m < len → len < 2 ^ 16 → rte_pktmbuf_prepend m len = (NULL, m)
}.

(** The buffer that starts at [lo], the data pointer [*p], the globals of
    packet-io.c, the borrowed chunks and the mbuf. *)
Record pbuf (mbuf : Type) := PBuf {
  lo : Z;
  bytes : list Z;
  data : Z;
  total_length : Z;
  read_length : Z;
  chunks : list Z;
  mb : mbuf
}.
Arguments PBuf {mbuf} _ _ _ _ _ _ _.
Arguments lo {mbuf} _.
Arguments bytes {mbuf} _.
Arguments data {mbuf} _.
Arguments total_length {mbuf} _.
Arguments read_length {mbuf} _.
Arguments chunks {mbuf} _.
Arguments mb {mbuf} _.

(** The packet as the header functions see it, and back. *)
Definition packet_of {mbuf} (st : pbuf mbuf) : packet :=
  Packet (data st) (drop (Z.to_nat (data st - lo st)) (bytes st)) (total_length st)
    (read_length st) (chunks st).

Definition set_packet {mbuf} (st : pbuf mbuf) (pk : packet) : pbuf mbuf :=
  PBuf (lo st) (take (Z.to_nat (data st - lo st)) (bytes st) ++ buf pk) (data st)
    (global_total_length pk) (global_read_length pk) (chunks_borrowed pk) (mb st).

Section resize.
Context {mbuf : Type} `{MbufOps mbuf}.
Implicit Types st : pbuf mbuf.

Definition packet_shrink_chunk st (length : Z) : option (pbuf mbuf) :=
  let data := data st in
  last_chunk ← rd (chunks st) (zlen (chunks st) - 1);
  let last_chunk_length := packet_get_chunk_length (packet_of st) last_chunk in
  let last_chunk_limit := last_chunk + last_chunk_length in
  _ ← c_assert (length <=? last_chunk_length);
  let offset := u64 (last_chunk_length - length) in
  if offset =? 0 then Some st else
  bs ← iterate (S (Z.to_nat (last_chunk_limit - data)))
         (λ '(current, bs),
           if data + offset <=? current then
             b ← rd bs (current - offset - lo st);
             bs' ← wr bs (current - lo st) b;
             Some (Continue (current - 1, bs'))
           else Some (Return bs))
         (last_chunk_limit - 1, bytes st);
  let '(data', m) := rte_pktmbuf_adj (mb st) (u16 offset) in
  _ ← c_assert (negb (data' =? NULL));
  Some (PBuf (lo st) bs data' (u64 (total_length st - offset)) (u64 (read_length st - offset))
          ((λ c, c + offset) <$> chunks st) m).

Definition packet_insert_new_chunk st (length : Z) : option (pbuf mbuf) :=
  let last_chunk_limit := data st + read_length st in
  let '(data', m) := rte_pktmbuf_prepend (mb st) (u16 length) in
  _ ← c_assert (negb (data' =? NULL));
  bs ← iterate (S (Z.to_nat (last_chunk_limit - data')))
         (λ '(current, bs),
           if current + length <? last_chunk_limit then
             b ← rd bs (current + length - lo st);
             bs' ← wr bs (current - lo st) b;
             Some (Continue (current + 1, bs'))
           else Some (Return bs))
         (data', bytes st);
  let chunks' := (λ c, c - length) <$> chunks st in
  first ← rd chunks' 0;
  _ ← c_assert (first =? data');
  Some (PBuf (lo st) bs data' (u64 (total_length st + length)) (u64 (read_length st + length))
          (chunks' ++ [data' + read_length st]) m).

(** Return the chunk that was resized, or the new one. *)
Definition nf_shrink_chunk st (length : Z) : option (Z * pbuf mbuf) :=
  _ ← c_assert (zlen (chunks st) <? MAX_N_CHUNKS);
  _ ← c_assert (negb (zlen (chunks st) =? 0));
  st' ← packet_shrink_chunk st length;
  chunk ← rd (chunks st') (zlen (chunks st') - 1);
  Some (chunk, st').

Definition nf_insert_new_chunk st (length : Z) : option (Z * pbuf mbuf) :=
  _ ← c_assert (zlen (chunks st) <? MAX_N_CHUNKS);
  _ ← c_assert (negb (zlen (chunks st) =? 0));
  st' ← packet_insert_new_chunk st length;
  chunk ← rd (chunks st') (zlen (chunks st') - 1);
  Some (chunk, st').

Definition nf_get_borrowed_chunk st (chunk_i : Z) : option Z :=
  _ ← c_assert (chunk_i <? zlen (chunks st));
  rd (chunks st) chunk_i.

End resize.

(** ** vigresize *)

(** The fields of struct nf_config that the handler reads. *)
Record nf_config := MkConfig { wan_device : Z; lan_main_device : Z }.

Definition nf_process {mbuf} `{MbufOps mbuf} (config : nf_config) (st : pbuf mbuf) (device : Z)
    : option (Z * pbuf mbuf) :=
  '(rte_ether_header, pk1) ← nf_then_get_rte_ether_header (packet_of st);
  '(rte_ipv4_header, ip_options, pk2) ← nf_then_get_rte_ipv4_header pk1 rte_ether_header;
  if rte_ipv4_header =? NULL then Some (device, set_packet st pk2) else
  '(tcpudp_header, pk3) ← nf_then_get_tcpudp_header pk2 rte_ipv4_header;
  if tcpudp_header =? NULL then Some (device, set_packet st pk3) else
  let dst_device :=
    if device =? wan_device config then lan_main_device config else wan_device config in
  let pk4 := nf_return_chunk pk3 in
  let pk5 := if negb (ip_options =? NULL) then nf_return_chunk pk4 else pk4 in
  let pk6 := nf_return_chunk pk5 in
  '(new_hdr, st1) ← nf_insert_new_chunk (set_packet st pk6) 8;
  rte_ether_header ← nf_get_borrowed_chunk st1 0;
  pk7 ← store_bytes (packet_of st1) new_hdr [202; 254; 186; 190; 222; 173; 190; 239];
  Some (dst_device, set_packet st1 pk7).

(** ** The moves *)

Section moves.
Implicit Types bs : list Z.

(** Bytes move towards the end by [off]: what was at [i - off] is at [i]. *)
Lemma move_up bs lo data off limit :
  lo ≤ data → 0 < off → limit ≤ lo + zlen bs →
  ∃ bs', iterate (S (Z.to_nat (limit - data)))
      (λ '(current, bs),
        if data + off <=? current then
          b ← rd bs (current - off - lo);
          bs' ← wr bs (current - lo) b;
          Some (Continue (current - 1, bs'))
        else Some (Return bs)) (limit - 1, bs) = Some bs' ∧ zlen bs' = zlen bs ∧
    ∀ i, rd bs' i = if (data + off - lo <=? i) && (i <? limit - lo) then rd bs (i - off) else rd bs i.
Proof.
  intros Hd Ho Hl.
  edestruct (iterate_rule (S := Z * list Z) (R := list Z)
    (λ '(current, b), zlen b = zlen bs ∧ current < limit ∧
       ∀ i, rd b i = if (data + off - lo <=? i) && (current - lo <? i) && (i <? limit - lo)
                     then rd bs (i - off) else rd bs i)
    (λ b, zlen b = zlen bs ∧
       ∀ i, rd b i = if (data + off - lo <=? i) && (i <? limit - lo) then rd bs (i - off) else rd bs i)
    (λ '(current, _), Z.to_nat (current + 1 - data))) as (bs' & -> & Hlen & Hrd).
  4: by eauto.
  - intros [current b] (Hlen & Hc & Hb). destruct (Z.leb_spec (data + off) current) as [Hle|Hgt].
    + destruct (rd_Some b (current - off - lo)) as [x Hx]; [lia|]. rewrite Hx. cbn [mbind option_bind].
      rewrite wr_Some by lia. cbn [mbind option_bind]. eexists. split; [done|].
      split; [|lia]. split_and!; [by rewrite zlen_insert|lia|].
      intros i. rewrite rd_insert by lia. rewrite Hb in Hx |- *.
      destruct (Z.eqb_spec (current - lo) i) as [<-|Hne].
      * rewrite <- Hx. replace (current - off - lo) with (current - lo - off) by lia.
        repeat case_match; zbool; lia || done.
      * repeat case_match; zbool; lia || done.
    + eexists. split; [done|]. split; [done|]. intros i. rewrite Hb.
      repeat case_match; zbool; lia || done.
  - split_and!; [done|lia|]. intros i. repeat case_match; zbool; lia || done.
  - simpl. lia.
Qed.

(** Bytes move towards the front by [n]: what was at [i + n] is at [i]. *)
Lemma move_down bs lo data n limit :
  lo ≤ data → 0 ≤ n → limit ≤ lo + zlen bs →
  ∃ bs', iterate (S (Z.to_nat (limit - data)))
      (λ '(current, bs),
        if current + n <? limit then
          b ← rd bs (current + n - lo);
          bs' ← wr bs (current - lo) b;
          Some (Continue (current + 1, bs'))
        else Some (Return bs)) (data, bs) = Some bs' ∧ zlen bs' = zlen bs ∧
    ∀ i, rd bs' i = if (data - lo <=? i) && (i <? limit - n - lo) then rd bs (i + n) else rd bs i.
Proof.
  intros Hd Hn Hl.
  edestruct (iterate_rule (S := Z * list Z) (R := list Z)
    (λ '(current, b), zlen b = zlen bs ∧ data ≤ current ∧
       ∀ i, rd b i = if (data - lo <=? i) && (i <? current - lo) && (i <? limit - n - lo)
                     then rd bs (i + n) else rd bs i)
    (λ b, zlen b = zlen bs ∧
       ∀ i, rd b i = if (data - lo <=? i) && (i <? limit - n - lo) then rd bs (i + n) else rd bs i)
    (λ '(current, _), Z.to_nat (limit - current))) as (bs' & -> & Hlen & Hrd).
  4: by eauto.
  - intros [current b] (Hlen & Hc & Hb). destruct (Z.ltb_spec (current + n) limit) as [Hlt|Hge].
    + destruct (rd_Some b (current + n - lo)) as [x Hx]; [lia|]. rewrite Hx. cbn [mbind option_bind].
      rewrite wr_Some by lia. cbn [mbind option_bind]. eexists. split; [done|].
      split; [|lia]. split_and!; [by rewrite zlen_insert|lia|].
      intros i. rewrite rd_insert by lia. rewrite Hb in Hx |- *.
      destruct (Z.eqb_spec (current - lo) i) as [<-|Hne].
      * rewrite <- Hx. replace (current + n - lo) with (current - lo + n) by lia.
        repeat case_match; zbool; lia || done.
      * repeat case_match; zbool; lia || done.
    + eexists. split; [done|]. split; [done|]. intros i. rewrite Hb.
      repeat case_match; zbool; lia || done.
  - split_and!; [done|lia|]. intros i. repeat case_match; zbool; lia || done.
  - simpl. lia.
Qed.

End moves.

(** Equal parts of two lists, from their elements. *)
Lemma take_rd (a b : list Z) k :
  (∀ i, 0 ≤ i < k → rd a i = rd b i) → take (Z.to_nat k) a = take (Z.to_nat k) b.
Proof.
  intros Hi. apply list_eq. intros n. destruct (decide (n < Z.to_nat k)%nat).
  - rewrite !lookup_take_lt by done. specialize (Hi (Z.of_nat n)).
    rewrite !rd_lookup, !Nat2Z.id in Hi by lia. apply Hi. lia.
  - by rewrite !lookup_take_ge by lia.
Qed.

Lemma drop_rd (a b : list Z) k m :
  0 ≤ k → 0 ≤ m → (∀ i, 0 ≤ i → rd a (k + i) = rd b (m + i)) →
  drop (Z.to_nat k) a = drop (Z.to_nat m) b.
Proof.
  intros Hk Hm Hi. apply list_eq. intros n. rewrite !lookup_drop.
  specialize (Hi (Z.of_nat n)). rewrite !rd_lookup in Hi by lia.
  replace (Z.to_nat k + n)%nat with (Z.to_nat (k + Z.of_nat n)) by lia.
  replace (Z.to_nat m + n)%nat with (Z.to_nat (m + Z.of_nat n)) by lia. apply Hi. lia.
Qed.

Lemma rd_drop_at (a : list Z) k i : 0 ≤ k → 0 ≤ i → rd (drop (Z.to_nat k) a) i = rd a (k + i).
Proof.
  intros. rewrite !rd_lookup, lookup_drop by lia. f_equal. lia.
Qed.

Lemma rd_last (l : list Z) x : rd (l ++ [x]) (zlen (l ++ [x]) - 1) = Some x.
Proof.
  unfold zlen. rewrite length_app. simpl. rewrite rd_lookup by lia.
  rewrite lookup_app_r by lia. by replace (_ - _)%nat with 0%nat by lia.
Qed.

(** ** What the functions do to the packet *)

(** Overwriting the middle of a list. *)
Lemma put_bytes_middle (a hole c bs : list Z) :
  length hole = length bs → put_bytes (a ++ hole ++ c) (zlen a) bs = Some (a ++ bs ++ c).
Proof.
  revert a hole. induction bs as [|x bs IH]; intros a [|y hole] Hl; simplify_eq/=; [done|].
  rewrite wr_Some by (unfold zlen; rewrite length_app; simpl; lia). cbn [mbind option_bind].
  replace (Z.to_nat (zlen a)) with (length a + 0)%nat by (unfold zlen; lia).
  rewrite insert_app_r. simpl. specialize (IH (a ++ [x]) hole Hl). rewrite <- !app_assoc in IH.
  unfold zlen in *. rewrite length_app in IH. simpl in IH.
  replace (Z.of_nat (length a + 1)) with (Z.of_nat (length a) + 1) in IH by lia. done.
Qed.

Section specification.
Context {mbuf : Type} `{MbufLaws mbuf}.
Implicit Types st : pbuf mbuf.

(** The mbuf describes the buffer; something is borrowed, from the start of the
    packet on. *)
Record pbuf_ok st : Prop := PBufOk {
  pb_lo : 0 < lo st;
  pb_data : lo st ≤ data st;
  pb_mtod : mtod (mb st) = data st;
  pb_head : headroom (mb st) = data st - lo st;
  pb_len : data_len (mb st) = total_length st;
  pb_read : 0 ≤ read_length st ≤ total_length st;
  pb_total : total_length st < 2 ^ 16;
  pb_fits : data st + total_length st ≤ lo st + zlen (bytes st);
  pb_first : rd (chunks st) 0 = Some (data st);
  pb_last : ∃ c, rd (chunks st) (zlen (chunks st) - 1) = Some c ∧
                 data st ≤ c ≤ data st + read_length st
}.

(** The last borrowed chunk keeps its first [length] bytes. *)
Definition shrunk (pk : packet) (off : Z) : packet :=
  Packet (base pk + off)
    (take (Z.to_nat (global_read_length pk - off)) (buf pk) ++
     drop (Z.to_nat (global_read_length pk)) (buf pk))
    (global_total_length pk - off) (global_read_length pk - off)
    ((λ c, c + off) <$> chunks_borrowed pk).

Lemma shrunk_0 pk : shrunk pk 0 = pk.
Proof.
  destruct pk as [b bf t r cs]. unfold shrunk. simpl. rewrite !Z.sub_0_r, Z.add_0_r, take_drop.
  f_equal. erewrite list_fmap_ext; [apply list_fmap_id|]. intros i x _. simpl. lia.
Qed.

Lemma shrink_spec st c length :
  pbuf_ok st → rd (chunks st) (zlen (chunks st) - 1) = Some c →
  0 ≤ length ≤ data st + read_length st - c →
  ∃ st', packet_shrink_chunk st length = Some st' ∧ pbuf_ok st' ∧
    packet_of st' = shrunk (packet_of st) (data st + read_length st - c - length).
Proof.
  intros HB Hc Hlen. destruct HB. destruct pb_last0 as (c' & Hc' & Hcr).
  rewrite Hc in Hc'. injection Hc' as <-.
  unfold packet_shrink_chunk. rewrite Hc. cbn [mbind option_bind]. unfold packet_get_chunk_length.
  cbn [packet_of base global_read_length]. rewrite u32_small by lia.
  destruct (Z.leb_spec length (data st + read_length st - c)); [|lia]. cbn [c_assert mbind option_bind].
  rewrite u64_small by lia. set (off := data st + read_length st - c - length).
  destruct (Z.eqb_spec off 0) as [E|Hne].
  { exists st. rewrite E, shrunk_0. split_and!; [done| |done]. constructor; eauto. }
  replace (c + (data st + read_length st - c)) with (data st + read_length st) by lia.
  destruct (move_up (bytes st) (lo st) (data st) off (data st + read_length st))
    as (bs & Hbs & Hbl & Hrd); [lia..|]. rewrite Hbs. cbn [mbind option_bind].
  rewrite u16_small by lia. destruct (adj_ok (mb st) off) as (m' & -> & Hm1 & Hm2 & Hm3); [lia..|].
  rewrite not_null by (unfold NULL; lia). cbn [negb c_assert mbind option_bind].
  rewrite !u64_small by lia. eexists. split; [done|]. split.
  - constructor; simpl; try lia.
    + rewrite rd_lookup, list_lookup_fmap by lia. rewrite rd_lookup in pb_first0 by lia.
      rewrite pb_first0. simpl. f_equal. lia.
    + exists (c + off). split; [|lia]. unfold zlen. rewrite length_fmap. fold (zlen (chunks st)).
      pose proof (rd_Some_range _ _ _ Hc). rewrite rd_lookup, list_lookup_fmap by lia.
      rewrite rd_lookup in Hc by lia. by rewrite Hc.
  - unfold shrunk, packet_of. simpl. f_equal; [lia|].
    rewrite <- (take_drop (Z.to_nat (read_length st - off)) (drop (Z.to_nat (mtod _ + off - lo st)) bs)).
    f_equal.
    + apply take_rd. intros i Hi. rewrite !rd_drop_at by lia. rewrite Hrd.
      repeat case_match; zbool; try lia. f_equal. lia.
    + rewrite !drop_drop, <- !Z2Nat.inj_add by lia. apply drop_rd; [lia..|]. intros i Hi. rewrite Hrd.
      repeat case_match; zbool; try lia. f_equal. lia.
Qed.

(** [hole] appears between what has been read and the rest. *)
Definition inserted (pk : packet) (hole : list Z) : packet :=
  let n := zlen hole in
  Packet (base pk - n)
    (take (Z.to_nat (global_read_length pk)) (buf pk) ++ hole ++
     drop (Z.to_nat (global_read_length pk)) (buf pk))
    (global_total_length pk + n) (global_read_length pk + n)
    (((λ c, c - n) <$> chunks_borrowed pk) ++ [base pk - n + global_read_length pk]).

Lemma insert_spec st n :
  pbuf_ok st → 0 ≤ n ≤ data st - lo st → total_length st + n < 2 ^ 16 →
  ∃ st' hole, packet_insert_new_chunk st n = Some st' ∧ pbuf_ok st' ∧ zlen hole = n ∧
    packet_of st' = inserted (packet_of st) hole.
Proof.
  intros HB Hn Ht. destruct HB. destruct pb_last0 as (c & Hc & Hcr).
  unfold packet_insert_new_chunk. rewrite u16_small by lia.
  destruct (prepend_ok (mb st) n) as (m' & -> & Hm1 & Hm2 & Hm3); [lia..|].
  rewrite not_null by (unfold NULL; lia). cbn [negb c_assert mbind option_bind].
  destruct (move_down (bytes st) (lo st) (mtod (mb st) - n) n (data st + read_length st))
    as (bs & Hbs & Hbl & Hrd); [lia..|]. rewrite Hbs. cbn [mbind option_bind].
  rewrite rd_lookup, list_lookup_fmap by lia. rewrite rd_lookup in pb_first0 by lia.
  rewrite pb_first0. cbn [fmap option_fmap option_map mbind option_bind].
  rewrite pb_mtod0 in *. rewrite Z.eqb_refl. cbn [c_assert mbind option_bind].
  rewrite !u64_small by lia. set (b' := drop (Z.to_nat (data st - n - lo st)) bs).
  assert (zlen b' = zlen bs - (data st - n - lo st)) as Hbl'
    by (unfold b', zlen; rewrite length_drop; unfold zlen in *; lia).
  assert (zlen (take (Z.to_nat n) (drop (Z.to_nat (read_length st)) b')) = n) as Hhole.
  { unfold zlen in *. rewrite length_take, length_drop. lia. }
  eexists _, (take (Z.to_nat n) (drop (Z.to_nat (read_length st)) b')).
  split; [done|]. split; [|split; [done|]].
  - constructor; simpl; try lia.
    + rewrite rd_lookup by lia. rewrite lookup_app_l, list_lookup_fmap.
      * simpl. by rewrite pb_first0.
      * rewrite length_fmap. by eapply lookup_lt_Some.
    + exists (data st - n + read_length st). split; [|lia]. unfold zlen. rewrite length_app, length_fmap.
      rewrite rd_lookup by (simpl; lia). rewrite lookup_app_r; rewrite length_fmap; simpl; [|lia].
      by replace (_ - _)%nat with 0%nat by lia.
  - unfold inserted, packet_of. cbn zeta. simpl. rewrite Hhole. f_equal. fold b'.
    rewrite <- (take_drop (Z.to_nat (read_length st)) b') at 1. f_equal.
    + apply take_rd. intros i Hi. unfold b'. rewrite !rd_drop_at by lia. rewrite Hrd.
      repeat case_match; zbool; try lia. f_equal. lia.
    + rewrite <- (take_drop (Z.to_nat n) (drop (Z.to_nat (read_length st)) b')) at 1. f_equal.
      unfold b'. rewrite !drop_drop, <- !Z2Nat.inj_add by lia. apply drop_rd; [lia..|].
      intros i Hi. rewrite Hrd. repeat case_match; zbool; try lia. f_equal. lia.
Qed.

(** No room in front of the packet: the assertion stops the program. *)
Lemma insert_no_headroom st n :
  pbuf_ok st → data st - lo st < n → n < 2 ^ 16 → packet_insert_new_chunk st n = None.
Proof.
  intros HB Hn Hn2. destruct HB. unfold packet_insert_new_chunk. rewrite u16_small by lia.
  by rewrite prepend_fails by lia.
Qed.

Lemma nf_insert_spec st n :
  pbuf_ok st → zlen (chunks st) < MAX_N_CHUNKS → 0 ≤ n ≤ data st - lo st →
  total_length st + n < 2 ^ 16 →
  ∃ hole st1, zlen hole = n ∧ nf_insert_new_chunk st n = Some (data st - n + read_length st, st1) ∧
    pbuf_ok st1 ∧ packet_of st1 = inserted (packet_of st) hole.
Proof.
  intros HB Hmax Hn Ht. unfold nf_insert_new_chunk. pose proof (rd_Some_range _ _ _ (pb_first _ HB)).
  destruct (Z.ltb_spec (zlen (chunks st)) MAX_N_CHUNKS); [|lia].
  destruct (Z.eqb_spec (zlen (chunks st)) 0); [lia|]. cbn [negb c_assert mbind option_bind].
  destruct (insert_spec st n HB) as (st1 & hole & -> & HB1 & Hhole & Hp1); [lia|done|].
  pose proof (f_equal chunks_borrowed Hp1) as Hc1. simpl in Hc1. rewrite Hhole in Hc1.
  cbn [mbind option_bind]. rewrite Hc1, rd_last. by exists hole, st1.
Qed.

(** Shrinking the new chunk leaves the packet with a shorter chunk inserted. *)
Lemma shrunk_inserted pk hole k :
  0 ≤ k ≤ zlen hole → 0 ≤ global_read_length pk ≤ zlen (buf pk) →
  shrunk (inserted pk hole) (zlen hole - k) = inserted pk (take (Z.to_nat k) hole).
Proof.
  intros Hk Hr. destruct pk as [b bf t r cs]. unfold shrunk, inserted. simpl in *.
  assert (zlen (take (Z.to_nat k) hole) = k) as Hlk
    by (unfold zlen in *; rewrite length_take; lia).
  assert (length (take (Z.to_nat r) bf) = Z.to_nat r) as Hlr
    by (unfold zlen in *; rewrite length_take; lia).
  rewrite Hlk. f_equal; try lia.
  - replace (r + zlen hole - (zlen hole - k)) with (r + k) by lia.
    rewrite take_app, drop_app, take_app, drop_app, Hlr.
    unfold zlen in *. rewrite (take_ge (take (Z.to_nat r) bf)) by lia.
    rewrite (drop_ge (take (Z.to_nat r) bf)) by lia. rewrite (drop_ge hole) by lia.
    replace (Z.to_nat (r + k) - Z.to_nat r)%nat with (Z.to_nat k) by lia.
    replace (Z.to_nat k - length hole)%nat with 0%nat by lia.
    replace (Z.to_nat (r + Z.of_nat (length hole)) - Z.to_nat r - length hole)%nat with 0%nat by lia.
    simpl. by rewrite app_nil_r, <- app_assoc.
  - rewrite fmap_app, <- list_fmap_compose. simpl. f_equal; [|f_equal; lia].
    apply list_fmap_ext. intros i x _. simpl. lia.
Qed.

(** The buffer and its mbuf before anything is borrowed. *)
Record mbuf_ok st : Prop := MbufOk {
  mo_lo : 0 < lo st;
  mo_data : lo st ≤ data st;
  mo_mtod : mtod (mb st) = data st;
  mo_head : headroom (mb st) = data st - lo st;
  mo_len : data_len (mb st) = total_length st;
  mo_total : total_length st < 2 ^ 16;
  mo_fits : data st + total_length st ≤ lo st + zlen (bytes st)
}.

Lemma packet_of_set st pk :
  mbuf_ok st → 0 ≤ total_length st → base pk = data st → packet_of (set_packet st pk) = pk.
Proof.
  intros HB Ht Hb. destruct HB, pk as [b bf t r cs]. unfold packet_of, set_packet. simpl in *.
  subst b. f_equal. rewrite drop_app_length'; [done|].
  rewrite length_take. unfold zlen in *. lia.
Qed.

Lemma set_ok st pk :
  mbuf_ok st → base pk = data st → global_total_length pk = total_length st →
  zlen (buf pk) = zlen (bytes st) - (data st - lo st) → chunks_borrowed pk = [base pk] →
  0 ≤ global_read_length pk ≤ total_length st → pbuf_ok (set_packet st pk).
Proof.
  intros HB Hb Ht Hl Hc Hr. destruct HB.
  constructor; simpl; rewrite ?Hc, ?Ht; try done.
  - unfold zlen in *. rewrite length_app, length_take. lia.
  - by rewrite Hb.
  - exists (base pk). rewrite Hb. split; [done|lia].
Qed.

(** Dropping after some of the headers were borrowed. *)
Lemma dropped_unchanged st pk' r :
  mbuf_ok st → received (packet_of st) r → base pk' = data st → buf pk' = buf (packet_of st) →
  global_total_length pk' = total_length st → (∃ cs, chunks_borrowed pk' = data st :: cs) →
  nf_return_all_chunks (packet_of (set_packet st pk')) = packet_of st.
Proof.
  intros HM HR Hb Hbuf Ht [cs Hc]. pose proof (rc_total _ _ HR) as Htot. simpl in Htot.
  rewrite packet_of_set by (done || lia).
  rewrite (return_chunks_rewinds (packet_of st) pk' cs) by done.
  rewrite Hb, Hbuf, Ht. pose proof (rc_read _ _ HR) as Hrd. pose proof (rc_chunks _ _ HR) as Hch.
  unfold packet_of in *. simpl in *. by rewrite Hrd, Hch.
Qed.

(** The chunks of the IP options and of the two headers go back. *)
Lemma returned_to_ether pk tail ip_options :
  received pk tail → ipv4_ok (buf pk) (global_total_length pk) = true →
  tcpudp_ok (buf pk) (global_total_length pk) = true →
  ip_options = (if ipv4_ok (buf pk) (global_total_length pk) &&
                   has_options (buf pk) (global_total_length pk) then base pk + 34 else NULL) →
  let pk4 := nf_return_chunk (after_tcpudp pk) in
  nf_return_chunk (if negb (ip_options =? NULL) then nf_return_chunk pk4 else pk4) =
    at_read pk 14 [base pk].
Proof.
  intros HR Hip Htu ->. unfold after_tcpudp, after_ipv4. rewrite Hip, Htu. pose proof (rc_base _ _ HR).
  assert ((byte_at (buf pk) 12 =? 8) && (byte_at (buf pk) 13 =? 0) &&
          (34 <=? global_total_length pk) = true) as Hb.
  { unfold ipv4_ok in Hip. apply andb_true_iff in Hip as [Hip _]. by apply andb_true_iff in Hip as [Hip _]. }
  destruct (has_options _ _); cbn [andb].
  - rewrite not_null by (unfold NULL; lia). cbn [negb]. unfold nf_return_chunk. simpl.
    unfold packet_return_chunk, at_read. simpl. f_equal. rewrite u32_small; lia.
  - rewrite Z.eqb_refl, Hb. cbn [negb]. unfold nf_return_chunk. simpl.
    unfold packet_return_chunk, at_read. simpl. f_equal. rewrite u32_small; lia.
Qed.

End specification.

(** ** Main results *)

(** Growing and shrinking a packet.  When something is borrowed from the
    start of a packet and the mbuf has room in front, [nf_insert_new_chunk]
    inserts [n] bytes between what has been read and the rest without any other
    change of the packet, and returns their address; [nf_shrink_chunk] then
    shortens them to any [k] bytes, which are the first [k] of them, so that
    with [k = 0] the packet is again the original one.  Without the room the
    assertion on the result of [rte_pktmbuf_prepend] fails. *)
Theorem packet_resize_roundtrip {mbuf} `{MbufLaws mbuf} (st : pbuf mbuf) (n : Z) :
  pbuf_ok st → zlen (chunks st) + 1 < MAX_N_CHUNKS → 0 ≤ n → total_length st + n < 2 ^ 16 →
  if n <=? data st - lo st then
    ∃ hole st1, zlen hole = n ∧
      nf_insert_new_chunk st n = Some (data st - n + read_length st, st1) ∧
      packet_of st1 = inserted (packet_of st) hole ∧
      ∀ k, 0 ≤ k ≤ n → ∃ st2,
        nf_shrink_chunk st1 k = Some (data st - k + read_length st, st2) ∧
        packet_of st2 = inserted (packet_of st) (take (Z.to_nat k) hole)
  else nf_insert_new_chunk st n = None.
Proof.
  intros HB Hmax Hn Ht. pose proof (pb_read _ HB).
  destruct (Z.leb_spec n (data st - lo st)) as [Hh|Hh].
  2: { unfold nf_insert_new_chunk. rewrite insert_no_headroom by (done || lia).
       by destruct (c_assert _), (c_assert _). }
  destruct (nf_insert_spec st n HB) as (hole & st1 & Hhole & -> & HB1 & Hp1); [lia..|].
  pose proof (f_equal chunks_borrowed Hp1) as Hc1. pose proof (f_equal base Hp1) as Hb1.
  pose proof (f_equal global_read_length Hp1) as Hr1. simpl in Hc1, Hb1, Hr1. rewrite Hhole in *.
  exists hole, st1. split_and!; [done..|]. intros k Hk. unfold nf_shrink_chunk.
  assert (zlen (chunks st1) = zlen (chunks st) + 1) as Hl1
    by (rewrite Hc1; unfold zlen; rewrite length_app, length_fmap; simpl; lia).
  destruct (Z.ltb_spec (zlen (chunks st1)) MAX_N_CHUNKS); [|lia].
  destruct (Z.eqb_spec (zlen (chunks st1)) 0); [unfold zlen in *; lia|]. cbn [negb c_assert mbind option_bind].
  destruct (shrink_spec st1 (data st - n + read_length st) k HB1) as (st2 & -> & _ & Hp2);
    [by rewrite Hc1, rd_last|lia|].
  replace (data st1 + read_length st1 - (data st - n + read_length st) - k) with (n - k) in Hp2 by lia.
  rewrite Hp1, <- Hhole, shrunk_inserted in Hp2; [|lia|].
  2: { destruct HB. simpl. unfold zlen in *. rewrite length_drop. lia. }
  pose proof (f_equal chunks_borrowed Hp2) as Hc2. simpl in Hc2. cbn [mbind option_bind].
  rewrite Hc2, rd_last. cbn [mbind option_bind]. exists st2. split; [|done].
  do 3 f_equal. unfold zlen in *. rewrite length_take. lia.
Qed.

(** vigresize.  For any received packet with eight bytes of headroom, a TCP
    or UDP packet leaves on the other side with the eight bytes of the new
    header between its Ethernet header and its IP header, whether or not there
    were IP options, and every other packet is dropped unchanged; in both cases
    no chunk is left borrowed. *)
Theorem resize_inserts_header {mbuf} `{MbufLaws mbuf} (config : nf_config) (st : pbuf mbuf)
    (device tail : Z) :
  mbuf_ok st → received (packet_of st) tail → 8 ≤ data st - lo st → total_length st + 8 < 2 ^ 16 →
  let pk := packet_of st in
  ∃ dev st', nf_process config st device = Some (dev, st') ∧
    match packet_headers pk with
    | Some _ =>
        dev = (if device =? wan_device config then lan_main_device config else wan_device config) ∧
        nf_return_all_chunks (packet_of st') =
          Packet (base pk - 8)
            (take 14 (buf pk) ++ [202; 254; 186; 190; 222; 173; 190; 239] ++ drop 14 (buf pk))
            (global_total_length pk + 8) 0 []
    | None => dev = device ∧ nf_return_all_chunks (packet_of st') = pk
    end.
Proof.
  intros HM HR Hh Ht pk. unfold nf_process. fold pk. fold pk in HR.
  pose proof (rc_base _ _ HR). pose proof (rc_total _ _ HR) as Htot.
  rewrite (ether_header_spec pk tail HR). cbn [mbind option_bind].
  rewrite (ipv4_header_spec pk tail HR). cbn [mbind option_bind].
  destruct (after_ipv4_frame pk) as (Fb & Fbuf & Ft & Fc).
  unfold packet_headers. destruct (ipv4_ok (buf pk) (global_total_length pk)) eqn:Hip; cbn [andb].
  2: { rewrite Z.eqb_refl. eexists _, _. split; [done|]. split; [done|].
       by apply (dropped_unchanged st _ tail). }
  rewrite not_null by (unfold NULL; lia). rewrite (tcpudp_header_spec pk tail HR Hip).
  cbn [mbind option_bind]. destruct (after_tcpudp_frame pk) as (Gb & Gbuf & Gt & Gc).
  destruct (tcpudp_ok (buf pk) (global_total_length pk)) eqn:Htu.
  2: { rewrite Z.eqb_refl. eexists _, _. split; [done|]. split; [done|].
       by apply (dropped_unchanged st _ tail). }
  destruct (after_ipv4_read pk Hip) as (_ & _ & _ & Hoff).
  rewrite not_null by (unfold NULL; lia).
  destruct (read_headers_total pk tail HR Hip Htu) as (h & -> & _).
  pose proof (returned_to_ether pk tail _ HR Hip Htu eq_refl) as Hret. cbn zeta in Hret.
  rewrite Hip in Hret. cbn [andb] in Hret. rewrite Hret. clear Hret.
  assert (zlen (buf pk) = zlen (bytes st) - (data st - lo st)) as Hlen.
  { destruct HM. simpl in *. unfold zlen in *. rewrite length_drop. lia. }
  set (st0 := set_packet st (at_read pk 14 [base pk])).
  assert (packet_of st0 = at_read pk 14 [base pk]) as Hp0
    by (apply packet_of_set; [done|simpl in *; lia|done]).
  destruct (nf_insert_spec st0 8) as (hole & st1 & Hhole & -> & HB1 & Hp1);
    [by apply set_ok; simpl in *; lia || done|done|simpl; lia|simpl in *; lia|].
  cbn [mbind option_bind]. rewrite Hp0 in Hp1.
  assert (chunks st1 = [base pk - 8; base pk - 8 + 14]) as Hc1
    by (apply (f_equal chunks_borrowed) in Hp1; simpl in Hp1; by rewrite Hhole in Hp1).
  unfold nf_get_borrowed_chunk. rewrite Hc1. cbn [mbind option_bind c_assert].
  change (rd _ 0) with (Some (base pk - 8)). cbn [mbind option_bind].
  unfold store_bytes. rewrite Hp1. unfold inserted. cbn zeta. rewrite Hhole.
  cbn [buf base global_total_length global_read_length chunks_borrowed at_read].
  assert (zlen (take (Z.to_nat 14) (buf pk)) = 14) as H14.
  { pose proof (rc_buf _ _ HR). pose proof (rc_tail _ _ HR). unfold zlen in *. rewrite length_take. lia. }
  change (data st0) with (base pk). change (read_length st0) with 14.
  replace (base pk - 8 + 14 - (base pk - 8)) with (zlen (take (Z.to_nat 14) (buf pk))) by lia.
  rewrite put_bytes_middle by (unfold zlen in Hhole; simpl; lia). cbn [mbind option_bind].
  eexists _, _. split; [done|]. split; [done|].
  assert (data st1 = base pk - 8 ∧ total_length st1 = global_total_length pk + 8) as [Hd1 Ht1].
  { pose proof (f_equal base Hp1) as Hb1. pose proof (f_equal global_total_length Hp1) as Ht1.
    simpl in Hb1, Ht1. rewrite Hhole in *. done. }
  rewrite packet_of_set; [|by destruct HB1; constructor|lia|done].
  by erewrite return_chunks_rewinds.
Qed.

(** ** Concrete instances *)

(** An mbuf by its fields. *)
Record demo_mbuf := DemoMbuf { m_data : Z; m_headroom : Z; m_len : Z }.

#[export] Instance demo_mbuf_ops : MbufOps demo_mbuf := {
  rte_pktmbuf_adj m len :=
    if m_len m <? len then (NULL, m)
    else (m_data m + len, DemoMbuf (m_data m + len) (m_headroom m + len) (m_len m - len));
  rte_pktmbuf_prepend m len :=
    if m_headroom m <? len then (NULL, m)
    else (m_data m - len, DemoMbuf (m_data m - len) (m_headroom m - len) (m_len m + len));
  mtod := m_data;
  headroom := m_headroom;
  data_len := m_len
}.

#[export] Instance demo_mbuf_laws : MbufLaws demo_mbuf.
Proof.
  constructor; simpl.
  - intros [d h l] len Hl _. simpl in *. destruct (Z.ltb_spec l len); [lia|]. by eexists.
  - intros [d h l] len Hl _. simpl in *. destruct (Z.ltb_spec h len); [lia|]. by eexists.
  - intros [d h l] len Hl _. simpl in *. destruct (Z.ltb_spec h len); [done|lia].
Qed.

(** [demo_packet] behind 16 bytes of headroom. *)
Definition demo_pbuf : pbuf demo_mbuf :=
  PBuf 4080 (replicate 16 0 ++ buf demo_packet) 4096 60 0 [] (DemoMbuf 4096 16 60).

Lemma demo_pbuf_packet : packet_of demo_pbuf = demo_packet.
Proof. reflexivity. Qed.

(** The same with its Ethernet header borrowed. *)
Definition demo_borrowed : pbuf demo_mbuf :=
  PBuf 4080 (replicate 16 0 ++ buf demo_packet) 4096 60 14 [4096] (DemoMbuf 4096 16 60).

Lemma packet_resize_roundtrip_witness :
  ∃ st1 st2, nf_insert_new_chunk demo_borrowed 8 = Some (4102, st1) ∧
    nf_shrink_chunk st1 0 = Some (4110, st2) ∧ buf (packet_of st2) = buf demo_packet.
Proof.
  destruct (packet_resize_roundtrip demo_borrowed 8) as (hole & st1 & Hh & Hi & _ & Hs);
    [|done|lia|done|].
  - constructor; try done. exists 4096. split; [done|]. simpl. lia.
  - destruct (Hs 0 ltac:(lia)) as (st2 & Hk & Hp). exists st1, st2. split; [exact Hi|].
    split; [exact Hk|]. rewrite Hp. reflexivity.
Defined.

Lemma resize_inserts_header_witness :
  ∃ st', nf_process (MkConfig 1 0) demo_pbuf 0 = Some (1, st') ∧
    buf (nf_return_all_chunks (packet_of st')) =
      take 14 (buf demo_packet) ++ [202; 254; 186; 190; 222; 173; 190; 239] ++
      drop 14 (buf demo_packet).
Proof.
  destruct (resize_inserts_header (MkConfig 1 0) demo_pbuf 0 20) as (dev & st' & Hp & Hm);
    [by constructor|apply demo_packet_received|simpl; lia|done|].
  destruct (packet_headers (packet_of demo_pbuf)) eqn:E; [|vm_compute in E; discriminate E].
  destruct Hm as [-> Hm]. exists st'. split; [exact Hp|]. rewrite Hm. reflexivity.
Defined.
