(* ===== verification/Nat.v ===== *)
(** * vignat: the network address translator

    nat_flowmanager.c and nat_main.c over the coherent flow table: the flow
    manager functions, the packet handler [nf_process], the contract of
    spec.py on the abstract table, and the refinement between the two. *)
From stdpp Require Import base list gmap numbers sets.
From Stdlib Require Import ZArith Lia.
From S2P Require Import Prelude.
From S2P Require Import Memory.
From S2P Require Import MapImpl.
From S2P Require Import Map.
From S2P Require Import Vector.
From S2P Require Import DChainImpl.
From S2P Require Import DChain.
From S2P Require Import Emap.
From S2P Require Import Expirator.
From S2P Require Import Packet.

(** struct FlowId *)
Record FlowId := MkFlowId {
  src_port : Z;
  dst_port : Z;
  src_ip : Z;
  dst_ip : Z;
  internal_device : Z;
  protocol : Z
}.

#[export] Instance FlowId_eq_dec : EqDecision FlowId.
Proof. solve_decision. Defined.

#[export] Instance FlowId_countable : Countable FlowId.
Proof.
  apply (inj_countable'
    (λ f, (src_port f, dst_port f, src_ip f, dst_ip f, internal_device f, protocol f))
    (λ '(a, b, c, d, e, f), MkFlowId a b c d e f)).
  by intros [].
Defined.

(** struct nf_config *)
Record nf_config := MkConfig {
  wan_device : Z;
  external_addr : Z;
  device_macs : list (list Z);
  endpoint_macs : list (list Z);
  cfg_start_port : Z;
  cfg_expiration_time : Z;
  cfg_max_flows : Z
}.

(** The generated struct State: the flow table and the constants. *)
Record State := MkState {
  flows : emap_objs FlowId;
  max_flows : Z;
  start_port : Z;
  ext_ip : Z;
  nat_device : Z
}.

(** struct FlowManager *)
Record FlowManager := MkManager {
  state : State;
  expiration_time : Z
}.

Definition set_flows (m : FlowManager) (o : emap_objs FlowId) : FlowManager :=
  MkManager (MkState o (max_flows (state m)) (start_port (state m)) (ext_ip (state m))
               (nat_device (state m))) (expiration_time m).

Section nat.
Context `{KeyOps FlowId} `{Checksums}.
Variable pow2 : bool.
(** The generated allocation function of the state. *)
Variable alloc_state : Z → Z → Z → Z → M (option State).

Definition flow_manager_allocate (starting_port nat_ip nat_device expiration_time max_flows : Z)
    : M (option FlowManager) :=
  manager ← malloc 16;
  if manager =? NULL then mret None else
  st ← alloc_state max_flows starting_port nat_ip nat_device;
  match st with
  | None => mret None
  | Some st => mret (Some (MkManager st expiration_time))
  end.

Definition nf_init (config : nf_config) : M (bool * option FlowManager) :=
  flow_manager ← flow_manager_allocate (cfg_start_port config) (external_addr config)
    (wan_device config) (cfg_expiration_time config) (cfg_max_flows config);
  mret (match flow_manager with Some _ => true | None => false end, flow_manager).

(** The result with [*external_port] and the manager.  [id_p] is the address of
    the caller's flow identifier; the local [index] is written before it is
    read, so its first value does not matter. *)
Definition flow_manager_allocate_flow (m : FlowManager) (id_p : Z) (id : FlowId)
    (internal_device time external_port : Z) : option (bool * Z * FlowManager) :=
  let o := flows (state m) in
  '(ok, heap, index) ← dchain_allocate_new_index (o_chain o) 0 time;
  if ok =? 0 then Some (false, external_port, set_flows m (Objs (o_map o) (o_vec o) heap)) else
  let external_port := u16 (start_port (state m) + index) in
  key ← vector_borrow (o_vec o) index;
  fv ← store (o_vec o) key id;
  fm ← map_put pow2 (with_local (deref fv) id_p id) (o_map o) key index;
  Some (true, external_port, set_flows m (Objs fm (vector_return fv index key) heap)).

Definition flow_manager_expire (m : FlowManager) (time : Z) : option FlowManager :=
  _ ← c_assert (0 <=? time);
  let time_u := u64 time in
  let vigor_time_expiration := expiration_time m in
  us ← int64_chk (vigor_time_expiration * 1000);
  let last_time := s64 (u64 (time_u - u64 us)) in
  let o := flows (state m) in
  '(_, heap, fm) ← expire_items_single_map pow2 (o_chain o) (o_vec o) (o_map o) last_time;
  Some (set_flows m (Objs fm (o_vec o) heap)).

Definition flow_manager_get_internal (m : FlowManager) (id_p : Z) (id : FlowId)
    (time external_port : Z) : option (bool * Z * FlowManager) :=
  let o := flows (state m) in
  '(found, index) ← map_get pow2 (with_local (deref (o_vec o)) id_p id) (o_map o) id_p 0;
  if found =? 0 then Some (false, external_port, m) else
  let external_port := u16 (index + start_port (state m)) in
  '(_, heap) ← dchain_rejuvenate_index (o_chain o) index time;
  Some (true, external_port, set_flows m (Objs (o_map o) (o_vec o) heap)).

(** The result, [*out_flow] when there is one, and the manager. *)
Definition flow_manager_get_external (m : FlowManager) (external_port time : Z)
    : option (option FlowId * FlowManager) :=
  let o := flows (state m) in
  index ← int_chk (external_port - start_port (state m));
  allocated ← dchain_is_index_allocated (o_chain o) index;
  if allocated =? 0 then Some (None, m) else
  key ← vector_borrow (o_vec o) index;
  out_flow ← deref (o_vec o) key;
  '(_, heap) ← dchain_rejuvenate_index (o_chain o) index time;
  Some (Some out_flow, set_flows m (Objs (o_map o) (vector_return (o_vec o) index key) heap)).

(** Returns the output device, the packet and the manager. *)
Definition nf_process (config : nf_config) (m0 : FlowManager) (id_p device now : Z)
    (pk0 : packet) : option (Z * packet * FlowManager) :=
  m ← flow_manager_expire m0 now;
  '(rte_ether_header, pk1) ← nf_then_get_rte_ether_header pk0;
  '(rte_ipv4_header, ip_options, pk2) ← nf_then_get_rte_ipv4_header pk1 rte_ether_header;
  if rte_ipv4_header =? NULL then Some (device, pk2, m) else
  '(tcpudp_header, pk3) ← nf_then_get_tcpudp_header pk2 rte_ipv4_header;
  if tcpudp_header =? NULL then Some (device, pk3, m) else
  src_addr ← load32 pk3 (rte_ipv4_header + src_addr_off);
  dst_addr ← load32 pk3 (rte_ipv4_header + dst_addr_off);
  next_proto_id ← load8 pk3 (rte_ipv4_header + next_proto_id_off);
  hdr_src_port ← load16 pk3 (tcpudp_header + src_port_off);
  hdr_dst_port ← load16 pk3 (tcpudp_header + dst_port_off);
  r ← (if device =? wan_device config then
         '(found, m1) ← flow_manager_get_external m hdr_dst_port now;
         match found with
         | Some internal_flow =>
             if negb (dst_ip internal_flow =? src_addr) ||
                negb (dst_port internal_flow =? hdr_src_port) ||
                negb (protocol internal_flow =? next_proto_id)
             then Some (Return (device, pk3, m1)) else
             pk4 ← store32 pk3 (rte_ipv4_header + dst_addr_off) (src_ip internal_flow);
             pk5 ← store16 pk4 (tcpudp_header + dst_port_off) (src_port internal_flow);
             Some (Continue (internal_device internal_flow, pk5, m1))
         | None => Some (Return (device, pk3, m1))
         end
       else
         let id := MkFlowId hdr_src_port hdr_dst_port src_addr dst_addr device next_proto_id in
         '(known, external_port, m1) ← flow_manager_get_internal m id_p id now 0;
         '(ok, external_port, m2) ←
           (if negb known
            then flow_manager_allocate_flow m1 id_p id device now external_port
            else Some (true, external_port, m1));
         if negb ok then Some (Return (device, pk3, m2)) else
         pk4 ← store32 pk3 (rte_ipv4_header + src_addr_off) (external_addr config);
         pk5 ← store16 pk4 (tcpudp_header + src_port_off) external_port;
         Some (Continue (wan_device config, pk5, m2)));
  match r with
  | Return res => Some res
  | Continue (dst_device, pk5, m') =>
      pk6 ← nf_set_rte_ipv4_udptcp_checksum pk5 rte_ipv4_header tcpudp_header;
      device_mac ← rd (device_macs config) dst_device;
      pk7 ← store_bytes pk6 (rte_ether_header + s_addr_off) device_mac;
      endpoint_mac ← rd (endpoint_macs config) dst_device;
      pk8 ← store_bytes pk7 (rte_ether_header + d_addr_off) endpoint_mac;
      Some (dst_device, pk8, m')
  end.

End nat.

(** ** The contract (spec.py)

    The action on a packet: drop it, or send it to a device with new header
    fields. *)

Definition nat_spec (config : nf_config) (t : table FlowId) (device now : Z)
    (hdrs : option headers) : table FlowId * option (Z * headers) :=
  let t1 := t_expire t (now - 1000 * cfg_expiration_time config) in
  match hdrs with
  | None => (t1, None)
  | Some h =>
      if device =? wan_device config then
        match t_entry t1 (h_dst_port h - cfg_start_port config) with
        | None => (t1, None)
        | Some e =>
            let t2 := t_refresh t1 (e_idx e) now in
            let f := e_key e in
            if (dst_ip f =? h_src_addr h) && (dst_port f =? h_src_port h) &&
               (protocol f =? h_proto h)
            then (t2, Some (internal_device f,
                            Headers (h_src_addr h) (src_ip f) (h_proto h) (h_src_port h)
                              (src_port f)))
            else (t2, None)
        end
      else
        let f := MkFlowId (h_src_port h) (h_dst_port h) (h_src_addr h) (h_dst_addr h) device
                   (h_proto h) in
        let out i := Headers (external_addr config) (h_dst_addr h) (h_proto h)
                       (u16 (cfg_start_port config + i)) (h_dst_port h) in
        match t_lookup t1 f with
        | Some e => (t_refresh t1 (e_idx e) now, Some (wan_device config, out (e_idx e)))
        | None =>
            match t_frees t1 with
            | [] => (t1, None)
            | i :: _ => (t_add t1 f now, Some (wan_device config, out i))
            end
        end
  end.

(** ** Invariant *)

Record config_ok (config : nf_config) : Prop := ConfigOk {
  co_start : 0 ≤ cfg_start_port config < 2 ^ 16;
  co_exp : 0 ≤ cfg_expiration_time config < 2 ^ 32;
  co_addr : 0 ≤ external_addr config < 2 ^ 32;
  co_wan : 0 ≤ wan_device config < zlen (device_macs config);
  co_count : zlen (endpoint_macs config) = zlen (device_macs config);
  co_device_macs : Forall (λ m, zlen m = 6) (device_macs config);
  co_endpoint_macs : Forall (λ m, zlen m = 6) (endpoint_macs config)
}.

(** A flow that the translator may have stored. *)
Definition flow_ok (config : nf_config) (f : FlowId) : Prop :=
  0 ≤ src_port f < 2 ^ 16 ∧ 0 ≤ src_ip f < 2 ^ 32 ∧
  0 ≤ internal_device f < zlen (device_macs config) ∧ internal_device f ≠ wan_device config.

Section proofs.
Context `{KeyLaws FlowId} `{Checksums}.
Variable pow2 : bool.
Implicit Types (m : FlowManager) (t : table FlowId) (f : FlowId).

Record nat_inv (config : nf_config) (id_p range : Z) m t (now : Z) : Prop := NatInv {
  ni_emap : emapp pow2 (flows (state m)) range t;
  ni_sorted : t_sorted t now;
  ni_flows : ∀ e, e ∈ ents t → flow_ok config (e_key e);
  ni_stack : outside (o_vec (flows (state m))) id_p;
  ni_start : start_port (state m) = cfg_start_port config;
  ni_exp : expiration_time m = cfg_expiration_time config
}.

Section manager.
Context (config : nf_config) (id_p range now : Z) (m : FlowManager) (t : table FlowId).
Hypothesis HC : config_ok config.

Lemma expire_spec before :
  nat_inv config id_p range m t before → before ≤ now → 0 ≤ now < 2 ^ 63 →
  ∃ m', flow_manager_expire pow2 m now = Some m' ∧
    nat_inv config id_p range m' (t_expire t (now - 1000 * cfg_expiration_time config)) now.
Proof.
  intros [HE Hs Hf Ho Hst Hex] Hle Hnow. pose proof (co_exp _ HC) as Hce.
  unfold flow_manager_expire. destruct (Z.leb_spec 0 now); [|lia]. cbn [c_assert mbind option_bind].
  rewrite Hex, int64_chk_small by lia. cbn [mbind option_bind].
  rewrite last_time_exact by lia. rewrite (Z.mul_comm (cfg_expiration_time config)).
  destruct (expire_items_single_map_spec pow2 _ _ _ (now - 1000 * cfg_expiration_time config) HE)
    as (ch' & M' & -> & HE'). cbn [mbind option_bind].
  eexists. split; [done|]. constructor; simpl; [done| |..|done|done|done].
  - apply t_expire_sorted. by eapply t_sorted_mono.
  - intros e He. apply Hf. by eapply t_expire_elem.
Qed.

Hypothesis HI : nat_inv config id_p range m t now.

Lemma refresh_inv e m' ch' :
  e ∈ ents t → emapp pow2 (Objs (o_map (flows (state m))) (o_vec (flows (state m))) ch') range
                 (t_refresh t (e_idx e) now) →
  m' = set_flows m (Objs (o_map (flows (state m))) (o_vec (flows (state m))) ch') →
  nat_inv config id_p range m' (t_refresh t (e_idx e) now) now.
Proof.
  intros He HE' ->. destruct HI as [HE Hs Hf Ho Hst Hex]. constructor; simpl; try done.
  - apply t_refresh_sorted; [done|]. by eapply ent_idx_NoDup.
  - intros e' (e0 & He0 & -> & _)%t_refresh_elem. by apply Hf.
Qed.

Lemma get_internal_spec f ep :
  match t_lookup t f with
  | Some e => ∃ m', flow_manager_get_internal pow2 m id_p f now ep =
                      Some (true, u16 (cfg_start_port config + e_idx e), m') ∧
                    nat_inv config id_p range m' (t_refresh t (e_idx e) now) now
  | None => flow_manager_get_internal pow2 m id_p f now ep = Some (false, ep, m)
  end.
Proof.
  destruct HI as [HE Hs Hf Ho Hst Hex]. unfold flow_manager_get_internal.
  rewrite (emap_get _ _ _ _ HE id_p f 0 Ho).
  destruct (t_lookup t f) as [e|] eqn:El; [|done].
  apply t_lookup_Some in El as [He _].
  destruct (emap_refresh _ _ _ _ HE e now He) as (ch' & Hr & HE').
  cbn [mbind option_bind]. destruct (Z.eqb_spec 1 0); [lia|]. rewrite Hr. cbn [mbind option_bind].
  rewrite Hst, Z.add_comm. eexists. split; [done|]. by eapply refresh_inv.
Qed.

Lemma allocate_flow_spec f dev ep :
  t_lookup t f = None → flow_ok config f →
  match t_frees t with
  | [] => ∃ m', flow_manager_allocate_flow pow2 m id_p f dev now ep = Some (false, ep, m') ∧
                nat_inv config id_p range m' t now
  | i :: _ => ∃ m', flow_manager_allocate_flow pow2 m id_p f dev now ep =
                      Some (true, u16 (cfg_start_port config + i), m') ∧
                    nat_inv config id_p range m' (t_add t f now) now
  end.
Proof.
  intros Hl Hfok. destruct HI as [HE Hs Hf Ho Hst Hex]. unfold flow_manager_allocate_flow.
  destruct (t_frees t) as [|i fs] eqn:Hfr.
  - destruct (emap_full _ _ _ _ HE 0 now) as (ch' & -> & HE').
    { unfold t_full. rewrite Hfr. done. }
    cbn [mbind option_bind]. eexists. split; [done|]. by constructor.
  - destruct (emap_add _ _ _ _ HE f 0 i fs now Hl Hfr) as (ch' & -> & Hi & Hb & Hst' & Hput).
    cbn [mbind option_bind]. destruct (Z.eqb_spec 1 0); [lia|].
    rewrite Hb. cbn [mbind option_bind]. rewrite Hst'. cbn [mbind option_bind].
    destruct (Hput (with_local (deref (vset (o_vec (flows (state m))) i f)) id_p f))
      as (M' & -> & HE'); [by apply sees_local|].
    cbn [mbind option_bind]. rewrite Hst. eexists. split; [done|].
    constructor; simpl; try done.
    + by apply t_add_sorted.
    + intros e [?| ->]%t_add_elem; auto.
Qed.

Lemma get_external_spec port :
  0 ≤ port < 2 ^ 16 → 0 ≤ port - cfg_start_port config < range →
  match t_entry t (port - cfg_start_port config) with
  | Some e => ∃ m', flow_manager_get_external m port now = Some (Some (e_key e), m') ∧
                    e ∈ ents t ∧ nat_inv config id_p range m' (t_refresh t (e_idx e) now) now
  | None => flow_manager_get_external m port now = Some (None, m)
  end.
Proof.
  intros Hp Hi. pose proof (co_start _ HC). destruct HI as [HE Hs Hf Ho Hst Hex].
  unfold flow_manager_get_external. rewrite Hst.
  rewrite int_chk_small by (unfold INT_MIN, INT_MAX; lia). cbn [mbind option_bind].
  rewrite (emap_allocated _ _ _ _ HE _ Hi). cbn [mbind option_bind].
  destruct (t_entry t _) as [e|] eqn:Ee; [|done].
  apply t_entry_Some in Ee as [He Hidx]. rewrite <- Hidx.
  destruct (emap_key _ _ _ _ HE e He) as [Hd Hb]. destruct (Z.eqb_spec 1 0); [lia|].
  rewrite Hb. cbn [mbind option_bind]. rewrite Hd. cbn [mbind option_bind].
  destruct (emap_refresh _ _ _ _ HE e now He) as (ch' & -> & HE'). cbn [mbind option_bind].
  eexists. split_and!; [done..|]. by eapply refresh_inv.
Qed.

End manager.

(** ** The handler *)

Section handler.
Context (config : nf_config) (device : Z) (pk : packet) (tail : Z).
Context (h : headers).
Hypothesis HC : config_ok config.
Hypothesis HR : received pk tail.
Hypothesis Htail : 18 ≤ tail.
Hypothesis HP : parsed pk h.
Local Abbreviation l4 := (l4_off (buf pk) (global_total_length pk)).

(** Writing the new fields, the checksums and the addresses of the output. *)
Lemma handler_forward d fa va fp vp :
  0 ≤ d < zlen (device_macs config) → d ≠ device →
  fa = src_addr_off ∨ fa = dst_addr_off → fp = src_port_off ∨ fp = dst_port_off →
  0 ≤ va < 2 ^ 32 → 0 ≤ vp < 2 ^ 16 →
  ∃ pk4 pk5 pk6 dm pk7 em pk8,
    store32 (after_tcpudp pk) (base pk + 14 + fa) va = Some pk4 ∧
    store16 pk4 (base pk + l4 + fp) vp = Some pk5 ∧
    nf_set_rte_ipv4_udptcp_checksum pk5 (base pk + 14) (base pk + l4) = Some pk6 ∧
    rd (device_macs config) d = Some dm ∧ store_bytes pk6 (base pk + s_addr_off) dm = Some pk7 ∧
    rd (endpoint_macs config) d = Some em ∧
    store_bytes pk7 (base pk + d_addr_off) em = Some pk8 ∧
    acted pk device
      (Some (d, Headers (if fa =? src_addr_off then va else h_src_addr h)
                        (if fa =? src_addr_off then h_dst_addr h else va) (h_proto h)
                        (if fp =? src_port_off then vp else h_src_port h)
                        (if fp =? src_port_off then h_dst_port h else vp))) d pk8 ∧
    load_bytes pk8 (base pk + s_addr_off) 6 = Some dm ∧
    load_bytes pk8 (base pk + d_addr_off) 6 = Some em.
Proof.
  intros Hd Hne Hfa Hfp Hva Hvp.
  destruct (mac_at _ d (co_device_macs _ HC)) as (dm & Hdm & Ldm); [done|].
  destruct (mac_at _ d (co_endpoint_macs _ HC)) as (em & Hem & Lem);
    [by rewrite (co_count _ HC)|].
  destruct (after_tcpudp_frame pk) as (Hb & Hbuf & Ht & Hr).
  pose proof (pd_l4 _ _ HP). pose proof (rc_buf _ _ HR).
  destruct (forward_edits (after_tcpudp pk) (base pk + 14) (base pk + l4) h fa va fp vp dm em)
    as (pk4 & pk5 & pk6 & pk7 & pk8 & H4 & H5 & H6 & H7 & H8 & HE & Hs8 & Hd8 & Hh8);
    [rewrite Hb; lia|lia|rewrite Hb, Hbuf; lia| |done..|].
  { rewrite (read_headers_buf pk) by done. apply (pd_read _ _ HP). }
  rewrite u32_small, u16_small in Hh8 by lia. rewrite Hb in H7, H8, Hs8, Hd8.
  exists pk4, pk5, pk6, dm, pk7, em, pk8. split_and!; [done..| |done|done].
  eapply acted_forward; [exact Hb|exact Hbuf|exact Ht|exact Hr|exact HE| |exact Hh8|done].
  intros i. rewrite Hb. unfold rewritten, span, hdr_checksum_off, src_addr_off, dst_addr_off, src_port_off,
    dst_port_off in *. cbn [h_proto]. lia.
Qed.

End handler.

Lemma nat_process_spec config id_p range before now device m t pk tail :
  config_ok config → nat_inv config id_p range m t before → before ≤ now → 0 ≤ now < 2 ^ 63 →
  received pk tail → 18 ≤ tail → 0 ≤ device < zlen (device_macs config) →
  (∀ h, packet_headers pk = Some h → device = wan_device config →
        0 ≤ h_dst_port h - cfg_start_port config < range) →
  let '(t', act) := nat_spec config t device now (packet_headers pk) in
  ∃ dev pk' m', nf_process pow2 config m id_p device now pk = Some (dev, pk', m') ∧
    nat_inv config id_p range m' t' now ∧ acted pk device act dev pk' ∧
    macs_of (device_macs config) (endpoint_macs config) pk pk' act.
Proof.
  intros HC HI0 Hle Hnow HR Htail Hdev Hport.
  destruct (expire_spec config id_p range now m t HC before HI0 Hle Hnow) as (m1 & Hex & HI).
  unfold nf_process, nat_spec. rewrite Hex. cbn [mbind option_bind].
  set (t1 := t_expire t (now - 1000 * cfg_expiration_time config)) in *.
  destruct (parse_cases pk tail HR)
    as (pk1 & He & [(opts & pk2 & Hi & -> & Hact)|[(opts & pk2 & pk3 & Hi & Hnz & Ht & -> & Hact)|
        (opts & pk2 & h & Hi & Hnz & Ht & Hnz4 & HP)]]); rewrite He; osteps.
  { rewrite Z.eqb_refl. eexists _, _, _. split_and!; [done|done|apply Hact|done]. }
  { rewrite (not_null _ Hnz). osteps. rewrite Z.eqb_refl. eexists _, _, _. split_and!; [done|done|apply Hact|done]. }
  rewrite (not_null _ Hnz). osteps. rewrite (not_null _ Hnz4).
  rewrite (pd_headers _ _ HP) in *. specialize (Hport h eq_refl).
  destruct (pd_ranges _ _ HP) as (Hsa & Hda & Hpr & Hsp & Hdp).
  destruct (pd_loads _ _ HP) as (-> & -> & -> & -> & ->). cbn [mbind option_bind].
  pose proof (handler_forward config device pk tail h HC HR Htail HP) as Hfwd.
  destruct (Z.eqb_spec device (wan_device config)) as [Hwan|Hwan].
  - pose proof (get_external_spec config id_p range now m1 t1 HC HI _ Hdp (Hport Hwan)) as Hg.
    destruct (t_entry t1 _) as [e|].
    2: { rewrite Hg. osteps. eexists _, _, _. split_and!; [done..|by eapply parsed_drop|done]. }
    destruct Hg as (m2 & -> & Hin & HI2). cbn [mbind option_bind].
    pose proof (ni_flows _ _ _ _ _ _ HI e Hin) as (Hf1 & Hf2 & Hf3 & Hf4).
    rewrite <- !negb_andb. destruct (_ && (protocol (e_key e) =? h_proto h)); cbn [negb].
    2: { eexists _, _, _. split_and!; [done..|by eapply parsed_drop|done]. }
    edestruct Hfwd as (pk4 & pk5 & pk6 & dm & pk7 & em & pk8 & ? & ? & ? & Hdm & ? & Hem & ? & Hact & Hsm & Hdm');
      [exact Hf3|congruence|by right|by right|exact Hf2|exact Hf1|].
    osteps. eexists _, _, _. split_and!; [done|done|exact Hact|]. simpl. by rewrite Hsm, Hdm', Hdm, Hem.
  - set (f := MkFlowId _ _ _ _ _ _).
    pose proof (get_internal_spec config id_p range now m1 t1 HI f 0) as Hg.
    assert (flow_ok config f) as Hfok by done.
    pose proof (λ i, Hfwd (wan_device config) src_addr_off (external_addr config) src_port_off
      (u16 (cfg_start_port config + i)) (co_wan _ HC) (not_eq_sym Hwan) (or_introl eq_refl)
      (or_introl eq_refl) (co_addr _ HC) (u16_range _)) as Hout.
    destruct (t_lookup t1 f) as [e|] eqn:El.
    + destruct Hg as (m2 & -> & HI2). cbn [mbind option_bind negb].
      destruct (Hout (e_idx e))
        as (pk4 & pk5 & pk6 & dm & pk7 & em & pk8 & ? & ? & ? & Hdm & ? & Hem & ? & Hact & Hsm & Hdm').
      osteps. eexists _, _, _. split_and!; [done|done|exact Hact|]. simpl. by rewrite Hsm, Hdm', Hdm, Hem.
    + rewrite Hg. cbn [mbind option_bind negb].
      pose proof (allocate_flow_spec config id_p range now m1 t1 HI f device 0 El Hfok) as Ha.
      destruct (t_frees t1) as [|i fs]; destruct Ha as (m2 & -> & HI2); cbn [mbind option_bind negb].
      * eexists _, _, _. split_and!; [done..|by eapply parsed_drop|done].
      * destruct (Hout i)
          as (pk4 & pk5 & pk6 & dm & pk7 & em & pk8 & ? & ? & ? & Hdm & ? & Hem & ? & Hact & Hsm & Hdm').
        osteps. eexists _, _, _. split_and!; [done|done|exact Hact|]. simpl. by rewrite Hsm, Hdm', Hdm, Hem.
Qed.

(** The translator's external port of an index, and back. *)
Lemma port_index config i range :
  config_ok config → 0 ≤ i < range → range ≤ 2 ^ 16 - cfg_start_port config →
  u16 (cfg_start_port config + i) - cfg_start_port config = i.
Proof. intros HC Hi Hr. pose proof (co_start _ HC). rewrite u16_small; lia. Qed.

(** An outgoing packet that is forwarded leaves an entry of the current time
    under the index that its external port encodes. *)
Lemma nat_spec_outgoing config id_p range m t device now h t' h' :
  nat_inv config id_p range m t' now →
  device ≠ wan_device config →
  nat_spec config t device now (Some h) = (t', Some (wan_device config, h')) →
  ∃ i, Ent i (MkFlowId (h_src_port h) (h_dst_port h) (h_src_addr h) (h_dst_addr h) device
                (h_proto h)) now ∈ ents t' ∧ 0 ≤ i < range ∧
       h_src_port h' = u16 (cfg_start_port config + i).
Proof.
  intros HI Hd. unfold nat_spec. destruct (Z.eqb_spec device (wan_device config)); [done|].
  set (f := MkFlowId _ _ _ _ _ _). set (t1 := t_expire _ _).
  assert (∀ i, Ent i f now ∈ ents t' → 0 ≤ i < range) as Hrange.
  { intros i Hi. by apply (ent_range _ _ _ _ (ni_emap _ _ _ _ _ _ HI) (Ent i f now)). }
  destruct (t_lookup t1 f) as [e|] eqn:El.
  - intros Heq. injection Heq as <- <-. apply t_lookup_Some in El as [He Hk].
    pose proof (t_refresh_in t1 e now He) as Hin. rewrite Hk in Hin. eauto.
  - destruct (t_frees t1) as [|i fs] eqn:Hf; [done|].
    intros Heq. injection Heq as <- <-. exists i. unfold t_add in *. rewrite Hf in *.
    simpl in *. split_and!; [|apply Hrange..|done]; apply elem_of_app; right; by left.
Qed.

(** *** Flows that stay *)

(** Flow [f] has index [i] and was used at [tm] or later. *)
Definition alive t (i : Z) f (tm : Z) : Prop := ∃ ts, Ent i f ts ∈ ents t ∧ tm ≤ ts.

Lemma alive_expire t i f tm time now : t_sorted t now → time ≤ tm → alive t i f tm →
  alive (t_expire t time) i f tm.
Proof.
  intros Hs Ht (ts & Hin & Hle). exists ts. split; [|done]. eapply t_expire_keeps; [done|done|].
  simpl. lia.
Qed.

Lemma alive_refresh t i f tm j now : tm ≤ now → alive t i f tm → alive (t_refresh t j now) i f tm.
Proof.
  intros Hn (ts & Hin & Hle). destruct (decide (i = j)) as [<-|Hne].
  - exists now. split; [|done]. apply (t_refresh_in t (Ent i f ts) now Hin).
  - exists ts. split; [|done]. unfold t_refresh. simpl. apply elem_of_app. left.
    by apply list_elem_of_filter.
Qed.

Lemma alive_add t i f tm g now : alive t i f tm → alive (t_add t g now) i f tm.
Proof.
  intros (ts & Hin & Hle). exists ts. split; [|done]. unfold t_add.
  destruct (t_frees t); [done|]. simpl. apply elem_of_app. by left.
Qed.

Lemma nat_spec_keeps config t device now hdrs i f tm :
  t_sorted t now → tm ≤ now ≤ tm + 1000 * cfg_expiration_time config → alive t i f tm →
  alive (nat_spec config t device now hdrs).1 i f tm.
Proof.
  intros Hs Hn Ha. unfold nat_spec.
  assert (alive (t_expire t (now - 1000 * cfg_expiration_time config)) i f tm) as Ha1
    by (eapply alive_expire; [done|lia|done]).
  assert (∀ j, alive (t_refresh (t_expire t (now - 1000 * cfg_expiration_time config)) j now) i f tm)
    as Ha2 by (intros j; by apply alive_refresh; [lia|]).
  repeat case_match; cbn [fst]; try done. by apply alive_add.
Qed.

(** A reply to an entry that has not expired is translated back to it. *)
Lemma nat_spec_reply config id_p range m t before now tm f i h :
  nat_inv config id_p range m t before → alive t i f tm →
  now ≤ tm + 1000 * cfg_expiration_time config →
  h_dst_port h - cfg_start_port config = i →
  dst_ip f = h_src_addr h → dst_port f = h_src_port h → protocol f = h_proto h →
  NoDup (e_idx <$> ents (t_expire t (now - 1000 * cfg_expiration_time config))) →
  snd (nat_spec config t (wan_device config) now (Some h)) =
    Some (internal_device f,
          Headers (h_src_addr h) (src_ip f) (h_proto h) (h_src_port h) (src_port f)).
Proof.
  intros HI Ha Hexp Hi H1' H2' H3' Hnd. unfold nat_spec. rewrite Z.eqb_refl, Hi.
  destruct (alive_expire t i f tm (now - 1000 * cfg_expiration_time config) before) as (ts & Hin & _);
    [apply (ni_sorted _ _ _ _ _ _ HI)|lia|done|].
  rewrite (t_entry_elem _ (Ent i f ts) Hnd Hin : t_entry _ i = _). simpl.
  by rewrite H1', H2', H3', !Z.eqb_refl.
Qed.

(** *** Executions *)

Fixpoint nat_run (config : nf_config) (id_p : Z) (m : FlowManager) (evs : list event)
    : option FlowManager :=
  match evs with
  | [] => Some m
  | ev :: evs' =>
      '(_, _, m') ← nf_process pow2 config m id_p (ev_device ev) (ev_now ev) (ev_packet ev);
      nat_run config id_p m' evs'
  end.

(** Any packets on any devices in time order up to a deadline; those from outside have a
    destination port of the translator's range. *)
Fixpoint traffic_ok (config : nf_config) (range before deadline : Z) (evs : list event) : Prop :=
  match evs with
  | [] => True
  | ev :: evs' =>
      before ≤ ev_now ev ≤ deadline ∧ 0 ≤ ev_now ev < 2 ^ 63 ∧
      0 ≤ ev_device ev < zlen (device_macs config) ∧
      (∃ tail, received (ev_packet ev) tail ∧ 18 ≤ tail) ∧
      (∀ h, packet_headers (ev_packet ev) = Some h → ev_device ev = wan_device config →
            0 ≤ h_dst_port h - cfg_start_port config < range) ∧
      traffic_ok config range (ev_now ev) deadline evs'
  end.

Lemma nat_run_keeps config id_p range evs i f tm : ∀ before m t,
  config_ok config → nat_inv config id_p range m t before → tm ≤ before → alive t i f tm →
  traffic_ok config range before (tm + 1000 * cfg_expiration_time config) evs →
  ∃ m' t', nat_run config id_p m evs = Some m' ∧
    nat_inv config id_p range m' t' (last_now before evs) ∧ alive t' i f tm ∧
    tm ≤ last_now before evs.
Proof.
  induction evs as [|ev evs IH]; intros before m t HC HI Hb Ha Hok; [by exists m, t|].
  destruct Hok as (Hle & Hn & Hd & (tail & HR & Ht) & Hp & Hok). cbn [nat_run last_now].
  pose proof (nat_process_spec config id_p range before (ev_now ev) (ev_device ev) m t (ev_packet ev)
    tail HC HI ltac:(lia) Hn HR Ht Hd Hp) as Hs.
  pose proof (nat_spec_keeps config t (ev_device ev) (ev_now ev) (packet_headers (ev_packet ev)) i f tm)
    as Hk.
  destruct (nat_spec _ _ _ _ _) as [t' act]. destruct Hs as (dev & pk' & m' & -> & HI' & _).
  cbn [mbind option_bind]. eapply IH; [done|exact HI'|lia| |done]. apply Hk; [|lia|done].
  eapply t_sorted_mono; [apply (ni_sorted _ _ _ _ _ _ HI)|lia].
Qed.

End proofs.

(** ** Main results *)

(** C11: the translator implements its contract.  From any state that satisfies
    the invariant (coherent flow table, entries in time order, flows of known
    internal devices), for any received packet at a time that has not gone
    back, if a packet from outside has a destination port of the range
    [start_port, start_port + range) of the flow table (otherwise the behaviour
    is undefined, see [nat_port_above_range_undefined]), [nf_process] runs
    without undefined behaviour; the flow table it leaves and the action it
    takes are those of the contract: expire, then for an outgoing packet refresh
    or allocate the flow and rewrite the source to the external address and
    port, for an incoming one refresh the flow of its port and translate the
    destination back unless the sender is not the peer of the flow.  A dropped
    packet is unchanged.  A forwarded one has the addresses and ports of the
    contract and the MAC addresses of its output device, and besides these and
    the two checksums, which DPDK computes, none of its bytes has changed.  The
    invariant holds again. *)
Theorem nat_process_refines_spec `{KeyLaws FlowId} `{Checksums} (pow2 : bool)
    (config : nf_config) (id_p range before now device : Z) (m : FlowManager)
    (t : table FlowId) (pk : packet) (tail : Z) :
  config_ok config → nat_inv pow2 config id_p range m t before →
  before ≤ now → 0 ≤ now < 2 ^ 63 →
  received pk tail → 18 ≤ tail → 0 ≤ device < zlen (device_macs config) →
  (∀ h, packet_headers pk = Some h → device = wan_device config →
        0 ≤ h_dst_port h - cfg_start_port config < range) →
  let '(t', act) := nat_spec config t device now (packet_headers pk) in
  ∃ dev pk' m', nf_process pow2 config m id_p device now pk = Some (dev, pk', m') ∧
    nat_inv pow2 config id_p range m' t' now ∧ acted pk device act dev pk' ∧
    macs_of (device_macs config) (endpoint_macs config) pk pk' act.
Proof. apply nat_process_spec. Qed.

(** C12: replies find their way back.  Let the ports of the flow table fit into 16 bits.  If an
    outgoing packet is forwarded, then after any traffic within the expiration time on any of the
    devices (packets from outside that have a destination port of the translator's range, and any
    packets from inside), a packet that arrives on the external device within the expiration time
    of the outgoing one, from the peer of that flow, to the port that the translator chose, with
    the same protocol, is forwarded to the device the flow came from with the original address and
    port of the flow as its destination. *)
Theorem nat_reply_roundtrip `{KeyLaws FlowId} `{Checksums} (pow2 : bool)
    (config : nf_config) (id_p range before now now' device dev : Z) (m m1 : FlowManager)
    (t : table FlowId) (evs : list event) (pk pk1 pk' : packet) (tail tail' : Z)
    (h h1 h' : headers) :
  config_ok config → nat_inv pow2 config id_p range m t before →
  range ≤ 2 ^ 16 - cfg_start_port config → before ≤ now → 0 ≤ now →
  received pk tail → 18 ≤ tail → packet_headers pk = Some h →
  0 ≤ device < zlen (device_macs config) → device ≠ wan_device config →
  nf_process pow2 config m id_p device now pk = Some (dev, pk1, m1) → dev ≠ device →
  read_headers pk1 (base pk + 14) (base pk + l4_off (buf pk) (global_total_length pk)) = Some h1 →
  traffic_ok config range now (now + 1000 * cfg_expiration_time config) evs →
  last_now now evs ≤ now' ≤ now + 1000 * cfg_expiration_time config → now' < 2 ^ 63 →
  received pk' tail' → 18 ≤ tail' → packet_headers pk' = Some h' →
  h_dst_port h' = h_src_port h1 → h_src_addr h' = h_dst_addr h → h_src_port h' = h_dst_port h →
  h_proto h' = h_proto h →
  ∃ m2 pk2 m3, nat_run pow2 config id_p m1 evs = Some m2 ∧
    nf_process pow2 config m2 id_p (wan_device config) now' pk' = Some (device, pk2, m3) ∧
    read_headers pk2 (base pk' + 14) (base pk' + l4_off (buf pk') (global_total_length pk')) =
      Some (Headers (h_src_addr h') (h_src_addr h) (h_proto h) (h_src_port h') (h_src_port h)).
Proof.
  intros HC HI Hrange Hb Hn HR Ht Hh Hd Hdw Hp1 Hdev Hh1 Htr He Hn' HR' Ht' Hh' Q1 Q2 Q3 Q4.
  assert (0 ≤ now < 2 ^ 63) as Hnow.
  { split; [done|]. destruct evs as [|ev evs]; [simpl in He; lia|]. destruct Htr as (? & ? & _). lia. }
  pose proof (nat_process_spec pow2 config id_p range before now device m t pk tail HC HI Hb
    Hnow HR Ht Hd ltac:(done)) as Hs.
  destruct (nat_spec config t device now (packet_headers pk)) as [t1 act] eqn:Espec.
  destruct Hs as (dev1 & pk1' & m1' & Hp & HI1 & (_ & Hact) & _). rewrite Hp1 in Hp. simplify_eq.
  destruct act as [[d hd]|]; [|by destruct Hact].
  destruct Hact as (-> & _ & Hrd & _). rewrite Hh1 in Hrd. injection Hrd as <-.
  rewrite Hh in Espec.
  assert (d = wan_device config) as ->.
  { unfold nat_spec in Espec. destruct (Z.eqb_spec device (wan_device config)); [done|].
    repeat case_match; by simplify_eq. }
  destruct (nat_spec_outgoing pow2 _ _ _ _ _ _ _ _ _ _ HI1 Hdw Espec) as (i & Hin & Hi & Hport).
  assert (h_dst_port h' - cfg_start_port config = i) as Hidx
    by (rewrite Q1, Hport; by eapply port_index).
  set (f := MkFlowId _ _ _ _ _ _) in Hin.
  destruct (nat_run_keeps pow2 config id_p range evs i f now now m1' t1 HC HI1 ltac:(lia)
    ltac:(by exists now) Htr) as (m2 & t2 & Hrun & HI2 & Ha2 & Hl2).
  assert (0 ≤ wan_device config < zlen (device_macs config)) as Hw by apply HC.
  pose proof (nat_process_spec pow2 config id_p range _ now' (wan_device config) m2 t2 pk' tail'
    HC HI2 ltac:(lia) ltac:(lia) HR' Ht' Hw) as Hs2.
  destruct (expire_spec pow2 config id_p range now' m2 t2 HC _ HI2) as (m4 & _ & HI4); [lia..|].
  rewrite Hh' in Hs2.
  pose proof (nat_spec_reply pow2 config id_p range m2 t2 _ now' now f i h' HI2 Ha2 ltac:(lia) Hidx
    (eq_sym Q2) (eq_sym Q3) (eq_sym Q4) (ent_idx_NoDup _ _ _ _ (ni_emap _ _ _ _ _ _ _ HI4))) as Hrep.
  destruct (nat_spec config t2 (wan_device config) now' (Some h')) as [t3 act2].
  simpl in Hrep. subst act2.
  destruct Hs2 as (dev2 & pk2 & m3 & Hp2 & _ & (_ & -> & _ & Hrd2 & _) & _).
  { intros h0 [= <-] _. lia. }
  exists m2, pk2, m3. split_and!; [done|done|]. rewrite Hrd2, Q4. done.
Qed.

(** An incoming packet to a port above the table is undefined behaviour.
    When a TCP or UDP packet arrives on the external device with a destination
    port at or above [start_port + max_flows], the handler tests an index that
    the chain does not have: the read is out of the bounds of its cells. *)
Theorem nat_port_above_range_undefined `{KeyLaws FlowId} `{Checksums} (pow2 : bool)
    (config : nf_config) (id_p range before now : Z) (m : FlowManager)
    (t : table FlowId) (pk : packet) (tail : Z) (h : headers) :
  config_ok config → nat_inv pow2 config id_p range m t before →
  before ≤ now → 0 ≤ now < 2 ^ 63 → received pk tail →
  packet_headers pk = Some h → range ≤ h_dst_port h - cfg_start_port config →
  nf_process pow2 config m id_p (wan_device config) now pk = None.
Proof.
  intros HC HI0 Hle Hnow HR Hh Hport.
  destruct (expire_spec pow2 config id_p range now m t HC before HI0 Hle Hnow) as (m1 & Hex & HI).
  unfold nf_process. rewrite Hex. cbn [mbind option_bind].
  destruct (parse_cases pk tail HR)
    as (pk1 & He & [(opts & pk2 & Hi & Hn & _)|[(opts & pk2 & pk3 & Hi & Hnz & Ht & Hn & _)|
        (opts & pk2 & h' & Hi & Hnz & Ht & Hnz4 & HP)]]); [congruence..|].
  pose proof (pd_headers _ _ HP) as Hh'. rewrite Hh in Hh'. injection Hh' as <-.
  rewrite He. osteps. rewrite (not_null _ Hnz). osteps. rewrite (not_null _ Hnz4).
  destruct (pd_loads _ _ HP) as (-> & -> & -> & -> & ->). cbn [mbind option_bind].
  destruct (pd_ranges _ _ HP) as (_ & _ & _ & _ & Hdp). pose proof (co_start _ HC).
  rewrite Z.eqb_refl. unfold flow_manager_get_external. rewrite (ni_start _ _ _ _ _ _ _ HI).
  rewrite int_chk_small by (unfold INT_MIN, INT_MAX; lia). cbn [mbind option_bind].
  pose proof (dr_len _ _ _ _ (dc_cells _ _ _ (em_chain _ _ _ _ (ni_emap _ _ _ _ _ _ _ HI)))) as Hl.
  unfold dchain_is_index_allocated, dchain_impl_is_index_allocated, nxt.
  rewrite rd_None; [done|]. unfold INDEX_SHIFT, DCHAIN_RESERVED in *. lia.
Qed.

(** ** Concrete instances *)

Definition demo_flow_ops : KeyOps FlowId := {|
  key_eq := λ a b, bool_decide (a = b);
  key_hash := λ f, src_port f mod 2
|}.

#[local] Existing Instance demo_flow_ops.

#[local] Instance demo_flow_laws : KeyLaws FlowId.
Proof.
  constructor; simpl.
  - intros a b. apply bool_decide_eq_true.
  - intros a. pose proof (Z.mod_pos_bound (src_port a) 2). lia.
Qed.

#[local] Instance demo_checksums : Checksums := {|
  rte_ipv4_udptcp_cksum := λ _ _ _, 7;
  rte_ipv4_cksum := λ _ _, 9
|}.

Definition demo_config : nf_config :=
  MkConfig 1 167772419 [[1;1;1;1;1;1]; [2;2;2;2;2;2]] [[3;3;3;3;3;3]; [4;4;4;4;4;4]] 0 1000 3.

Lemma demo_config_ok : config_ok demo_config.
Proof. constructor; simpl; lia || done || (repeat constructor). Qed.

Definition demo_manager : FlowManager :=
  MkManager (MkState (demo_table 16 (MkFlowId 0 0 0 0 0 0)) 3 0 167772419 1) 1000.

Lemma demo_manager_inv : nat_inv false demo_config 8 3 demo_manager (Table [] [0; 1; 2]) 0.
Proof.
  constructor; simpl; try done.
  - by apply demo_table_ok.
  - split; [constructor|]. intros e He. by apply elem_of_nil in He.
  - intros e He. by apply elem_of_nil in He.
  - intros i Hi. unfold addr. simpl in *. lia.
Qed.

Lemma nat_process_refines_spec_witness :
  ∃ pk' m', nf_process false demo_config demo_manager 8 0 5 demo_packet = Some (1, pk', m').
Proof.
  pose proof (nat_process_refines_spec false demo_config 8 3 0 5 0 demo_manager _ demo_packet 20
    demo_config_ok demo_manager_inv ltac:(lia) ltac:(lia) demo_packet_received ltac:(lia)
    ltac:(done) ltac:(done)) as Hs.
  destruct (nat_spec _ _ _ _ _) as [t' act] eqn:E. destruct Hs as (dev & pk' & m' & Hp & _ & (_ & Hact) & _).
  vm_compute in E. injection E as <- <-. destruct Hact as (-> & _). exists pk', m'. exact Hp.
Defined.

(** The reply to [demo_packet]. *)
Definition demo_reply : packet :=
  Packet 8192 ([2;0;0;0;0;2] ++ [2;0;0;0;0;1] ++ [8;0] ++
    [69;0;0;46;0;0;0;0;64;17;0;0] ++ [10;0;0;2] ++ [10;0;1;3] ++ [0;80;0;0] ++ replicate 42 0)
    60 0 [].

Lemma demo_reply_received : received demo_reply 20.
Proof.
  constructor; try done. cbn.
  repeat (apply List.Forall_cons; [lia|]). apply List.Forall_nil.
Qed.

Lemma demo_traffic_ok :
  traffic_ok demo_config 3 5 1000005 [Event 0 9 demo_packet; Event 1 9 demo_reply].
Proof.
  cbn [traffic_ok ev_now ev_device ev_packet]. split_and!; try lia; try done.
  - exists 20. split; [apply demo_packet_received|lia].
  - exists 20. split; [apply demo_reply_received|lia].
  - intros h Hh _. vm_compute in Hh. injection Hh as <-. simpl. lia.
Qed.

Lemma nat_reply_roundtrip_witness :
  ∃ m1 m2 pk2 m3, nat_run false demo_config 8 m1 [Event 0 9 demo_packet; Event 1 9 demo_reply] = Some m2 ∧
    nf_process false demo_config m2 8 1 500 demo_reply = Some (0, pk2, m3).
Proof.
  edestruct (nat_reply_roundtrip false demo_config 8 3 0 5 500 0 1 demo_manager) with
    (pk := demo_packet) (pk' := demo_reply) (tail := 20) (tail' := 20)
    (evs := [Event 0 9 demo_packet; Event 1 9 demo_reply])
    as (m2 & pk2 & m3 & Hr & Hp & _);
    [apply demo_config_ok|apply demo_manager_inv|done|lia|lia|apply demo_packet_received
    |lia|vm_compute; reflexivity|done|done|vm_compute; reflexivity|done|vm_compute; reflexivity
    |
    |simpl; lia|lia|apply demo_reply_received|lia|vm_compute; reflexivity|reflexivity..|].
  - apply demo_traffic_ok.
  - eexists _, m2, pk2, m3. split; [exact Hr|exact Hp].
Defined.

Lemma nat_port_above_range_undefined_witness :
  nf_process false demo_config demo_manager 8 1 5 demo_packet = None.
Proof.
  eapply (nat_port_above_range_undefined false demo_config 8 3 0 5 demo_manager _ demo_packet 20);
    [apply demo_config_ok|apply demo_manager_inv|lia|lia|apply demo_packet_received
    |vm_compute; reflexivity|done].
Defined.

