(* ===== verification/NatPar.v ===== *)
(** * vignat-parallelizable: the translator that does not refresh on replies

    The directory differs from vignat in one line: [flow_manager_get_external]
    does not rejuvenate the flow, so that incoming packets leave the flow table
    as they find it after expiration.  The handler is related to that of vignat
    path by path, and its contract is derived from the contract of vignat. *)
From stdpp Require Import base list gmap numbers sets.
From Stdlib Require Import ZArith Lia.
From S2P Require Import Prelude.
From S2P Require Import Memory.
From S2P Require Import MapImpl.
From S2P Require Import Map.
From S2P Require Import Vector.
From S2P Require Import DChainImpl.
From S2P Require Import DChain.
From S2P Require Import Emap.
From S2P Require Import Expirator.
From S2P Require Import Packet.
From S2P Require Import Nat.

Section natpar.
Context `{KeyOps FlowId} `{Checksums}.
Variable pow2 : bool.

Definition flow_manager_get_external (m : FlowManager) (external_port time : Z)
    : option (option FlowId * FlowManager) :=
  let o := flows (state m) in
  index ← int_chk (external_port - start_port (state m));
  allocated ← dchain_is_index_allocated (o_chain o) index;
  if allocated =? 0 then Some (None, m) else
  key ← vector_borrow (o_vec o) index;
  out_flow ← deref (o_vec o) key;
  Some (Some out_flow, set_flows m (Objs (o_map o) (vector_return (o_vec o) index key) (o_chain o))).

Definition nf_process (config : nf_config) (m0 : FlowManager) (id_p device now : Z)
    (pk0 : packet) : option (Z * packet * FlowManager) :=
  m ← flow_manager_expire pow2 m0 now;
  '(rte_ether_header, pk1) ← nf_then_get_rte_ether_header pk0;
  '(rte_ipv4_header, ip_options, pk2) ← nf_then_get_rte_ipv4_header pk1 rte_ether_header;
  if rte_ipv4_header =? NULL then Some (device, pk2, m) else
  '(tcpudp_header, pk3) ← nf_then_get_tcpudp_header pk2 rte_ipv4_header;
  if tcpudp_header =? NULL then Some (device, pk3, m) else
  src_addr ← load32 pk3 (rte_ipv4_header + src_addr_off);
  dst_addr ← load32 pk3 (rte_ipv4_header + dst_addr_off);
  next_proto_id ← load8 pk3 (rte_ipv4_header + next_proto_id_off);
  hdr_src_port ← load16 pk3 (tcpudp_header + src_port_off);
  hdr_dst_port ← load16 pk3 (tcpudp_header + dst_port_off);
  r ← (if device =? wan_device config then
         '(found, m1) ← flow_manager_get_external m hdr_dst_port now;
         match found with
         | Some internal_flow =>
             if negb (dst_ip internal_flow =? src_addr) ||
                negb (dst_port internal_flow =? hdr_src_port) ||
                negb (protocol internal_flow =? next_proto_id)
             then Some (Return (device, pk3, m1)) else
             pk4 ← store32 pk3 (rte_ipv4_header + dst_addr_off) (src_ip internal_flow);
             pk5 ← store16 pk4 (tcpudp_header + dst_port_off) (src_port internal_flow);
             Some (Continue (internal_device internal_flow, pk5, m1))
         | None => Some (Return (device, pk3, m1))
         end
       else
         let id := MkFlowId hdr_src_port hdr_dst_port src_addr dst_addr device next_proto_id in
         '(known, external_port, m1) ← flow_manager_get_internal pow2 m id_p id now 0;
         '(ok, external_port, m2) ←
           (if negb known
            then flow_manager_allocate_flow pow2 m1 id_p id device now external_port
            else Some (true, external_port, m1));
         if negb ok then Some (Return (device, pk3, m2)) else
         pk4 ← store32 pk3 (rte_ipv4_header + src_addr_off) (external_addr config);
         pk5 ← store16 pk4 (tcpudp_header + src_port_off) external_port;
         Some (Continue (wan_device config, pk5, m2)));
  match r with
  | Return res => Some res
  | Continue (dst_device, pk5, m') =>
      pk6 ← nf_set_rte_ipv4_udptcp_checksum pk5 rte_ipv4_header tcpudp_header;
      device_mac ← rd (device_macs config) dst_device;
      pk7 ← store_bytes pk6 (rte_ether_header + s_addr_off) device_mac;
      endpoint_mac ← rd (endpoint_macs config) dst_device;
      pk8 ← store_bytes pk7 (rte_ether_header + d_addr_off) endpoint_mac;
      Some (dst_device, pk8, m')
  end.

End natpar.

(** ** The contract: that of vignat, except that an incoming packet only expires *)

Definition natpar_spec (config : nf_config) (t : table FlowId) (device now : Z)
    (hdrs : option headers) : table FlowId * option (Z * headers) :=
  let '(t', act) := nat_spec config t device now hdrs in
  (if device =? wan_device config then t_expire t (now - 1000 * cfg_expiration_time config) else t',
   act).

Section proofs.
Context `{KeyLaws FlowId} `{Checksums}.
Variable pow2 : bool.

(** Both handlers do the same with an outgoing packet. *)
Lemma outgoing_same config m id_p device now pk :
  device ≠ wan_device config →
  nf_process pow2 config m id_p device now pk = Nat.nf_process pow2 config m id_p device now pk.
Proof.
  intros Hd. unfold nf_process, Nat.nf_process.
  by destruct (Z.eqb_spec device (wan_device config)).
Qed.

(** What the external lookup of vignat finds, this one finds in a state that is
    left alone. *)
Lemma get_external_same m port now found m' :
  Nat.flow_manager_get_external m port now = Some (found, m') →
  flow_manager_get_external m port now = Some (found, m).
Proof.
  unfold Nat.flow_manager_get_external, flow_manager_get_external.
  destruct (int_chk _) as [i|]; [|done]. cbn [mbind option_bind].
  destruct (dchain_is_index_allocated _ _) as [a|]; [|done]. cbn [mbind option_bind].
  destruct (a =? 0); [by intros [= <- _]|].
  destruct (vector_borrow _ _) as [k|]; [|done]. cbn [mbind option_bind].
  destruct (deref _ _) as [f|]; [|done]. cbn [mbind option_bind].
  destruct (dchain_rejuvenate_index _ _ _) as [[? ?]|]; [|done]. cbn [mbind option_bind].
  intros [= <- _]. by destruct m as [[[]] ?].
Qed.

(** After the case analysis of an access: the handler goes on when it is defined. *)
Ltac defined := [> cbn [mbind option_bind] | done ].

(** When vignat handles an incoming packet, this handler gives the same packet
    to the same device, and leaves the table as expiration has left it. *)
Lemma incoming_same config m id_p now pk dev pk' m' :
  Nat.nf_process pow2 config m id_p (wan_device config) now pk = Some (dev, pk', m') →
  ∃ m1, flow_manager_expire pow2 m now = Some m1 ∧
    nf_process pow2 config m id_p (wan_device config) now pk = Some (dev, pk', m1).
Proof.
  unfold nf_process, Nat.nf_process. rewrite Z.eqb_refl.
  destruct (flow_manager_expire pow2 m now) as [m1|]; [|done]. cbn [mbind option_bind].
  intros Hp. exists m1. split; [done|]. revert Hp.
  destruct (nf_then_get_rte_ether_header _) as [[eth pk1]|]; defined.
  destruct (nf_then_get_rte_ipv4_header _ _) as [[[ip opts] pk2]|]; defined.
  destruct (ip =? NULL); [by intros [= <- <- _]|].
  destruct (nf_then_get_tcpudp_header _ _) as [[l4 pk3]|]; defined.
  destruct (l4 =? NULL); [by intros [= <- <- _]|].
  destruct (load32 _ (_ + src_addr_off)) as [sa|]; defined. destruct (load32 _ (_ + dst_addr_off)) as [da|]; defined.
  destruct (load8 _ _) as [pr|]; defined. destruct (load16 _ (_ + src_port_off)) as [sp|]; defined.
  destruct (load16 _ (_ + dst_port_off)) as [dp|]; defined.
  destruct (Nat.flow_manager_get_external _ _ _) as [[found m2]|] eqn:E; [|done].
  rewrite (get_external_same _ _ _ _ _ E). cbn [mbind option_bind].
  destruct found as [f|]; [|by intros [= <- <- _]].
  destruct (_ || _); [by intros [= <- <- _]|].
  destruct (store32 _ _ _) as [pk4|]; defined. destruct (store16 _ _ _) as [pk5|]; defined.
  destruct (nf_set_rte_ipv4_udptcp_checksum _ _ _) as [pk6|]; defined. destruct (rd (device_macs _) _) as [dm|]; defined.
  destruct (store_bytes pk6 _ _) as [pk7|]; defined. destruct (rd (endpoint_macs _) _) as [em|]; defined.
  destruct (store_bytes pk7 _ _) as [pk8|]; defined. by intros [= <- <- _].
Qed.

End proofs.

(** ** Main result *)

(** The translator for parallel execution implements its contract.  Under the
    hypotheses of vignat the handler is defined, keeps the invariant, rewrites
    the same headers and sends to the same device; an incoming packet takes no
    flow into the table and refreshes none, so that a flow that only receives
    expires. *)
Theorem natpar_process_refines_spec `{KeyLaws FlowId} `{Checksums} (pow2 : bool)
    (config : nf_config) (id_p range before now device : Z) (m : FlowManager)
    (t : table FlowId) (pk : packet) (tail : Z) :
  config_ok config → nat_inv pow2 config id_p range m t before →
  before ≤ now → 0 ≤ now < 2 ^ 63 →
  received pk tail → 18 ≤ tail → 0 ≤ device < zlen (device_macs config) →
  (∀ h, packet_headers pk = Some h → device = wan_device config →
        0 ≤ h_dst_port h - cfg_start_port config < range) →
  let '(t', act) := natpar_spec config t device now (packet_headers pk) in
  (∃ dev pk' m', nf_process pow2 config m id_p device now pk = Some (dev, pk', m') ∧
    nat_inv pow2 config id_p range m' t' now ∧ acted pk device act dev pk' ∧
    macs_of (device_macs config) (endpoint_macs config) pk pk' act) ∧
  (device = wan_device config → ∀ e, e ∈ ents t' →
     e ∈ ents t ∧ now - 1000 * cfg_expiration_time config ≤ e_time e).
Proof.
  intros HC HI Hle Hnow HR Htail Hdev Hport.
  pose proof (nat_process_spec pow2 config id_p range before now device m t pk tail
    HC HI Hle Hnow HR Htail Hdev Hport) as Hn.
  unfold natpar_spec. destruct (nat_spec config t device now (packet_headers pk)) as [t' act].
  destruct Hn as (dev & pk' & m' & Hp & HI' & Ha).
  destruct (Z.eqb_spec device (wan_device config)) as [->|Hd].
  - destruct (incoming_same pow2 _ _ _ _ _ _ _ _ Hp) as (m1 & He & Hp').
    destruct (expire_spec pow2 config id_p range now m t HC before HI Hle Hnow) as (m2 & He' & HI2).
    rewrite He in He'. injection He' as <-. split; [by exists dev, pk', m1|].
    intros _ e Hin. split; [by eapply t_expire_elem|].
    eapply t_expire_live; [apply (ni_sorted _ _ _ _ _ _ _ HI)|done].
  - split; [|done]. exists dev, pk', m'. by rewrite outgoing_same.
Qed.
