(* ===== verification/Fw.v ===== *)
(** * vigfw: the firewall

    fw_flowmanager.c and fw_main.c: flows that leave through the external
    device are remembered with the device they came from; what arrives on the
    external device passes only as the reply of a remembered flow. *)
From stdpp Require Import base list gmap numbers sets.
From Stdlib Require Import ZArith Lia.
From S2P Require Import Prelude.
From S2P Require Import Memory.
From S2P Require Import MapImpl.
From S2P Require Import Map.
From S2P Require Import Vector.
From S2P Require Import DChainImpl.
From S2P Require Import DChain.
From S2P Require Import Emap.
From S2P Require Import Expirator.
From S2P Require Import Packet.

(** struct FlowId *)
Record FlowId := MkFlowId {
  src_port : Z;
  dst_port : Z;
  src_ip : Z;
  dst_ip : Z;
  protocol : Z
}.

#[export] Instance fw_FlowId_eq_dec : EqDecision FlowId.
Proof. solve_decision. Defined.

#[export] Instance fw_FlowId_countable : Countable FlowId.
Proof.
  apply (inj_countable' (λ f, (src_port f, dst_port f, src_ip f, dst_ip f, protocol f))
    (λ '(a, b, c, d, e), MkFlowId a b c d e)).
  by intros [].
Defined.

(** The fields of struct nf_config that the handler reads. *)
Record nf_config := MkConfig {
  wan_device : Z;
  cfg_expiration_time : Z;
  cfg_max_flows : Z
}.

(** The generated struct State. *)
Record State := MkState {
  flows : emap_objs FlowId;
  int_devices : Vector Z;
  max_flows : Z;
  fw_device : Z
}.

(** struct FlowManager *)
Record FlowManager := MkManager {
  state : State;
  expiration_time : Z
}.

Definition set_tables (m : FlowManager) (o : emap_objs FlowId) (devs : Vector Z) : FlowManager :=
  MkManager (MkState o devs (max_flows (state m)) (fw_device (state m))) (expiration_time m).

Section fw.
Context `{KeyOps FlowId}.
Variable pow2 : bool.
(** The generated allocation function of the state. *)
Variable alloc_state : Z → Z → M (option State).

Definition flow_manager_allocate (fw_device expiration_time max_flows : Z)
    : M (option FlowManager) :=
  manager ← malloc 16;
  if manager =? NULL then mret None else
  st ← alloc_state max_flows fw_device;
  match st with
  | None => mret None
  | Some st => mret (Some (MkManager st expiration_time))
  end.

Definition nf_init (config : nf_config) : M (bool * option FlowManager) :=
  flow_manager ← flow_manager_allocate (wan_device config) (cfg_expiration_time config)
    (cfg_max_flows config);
  mret (match flow_manager with Some _ => true | None => false end, flow_manager).

Definition flow_manager_allocate_or_refresh_flow (m : FlowManager) (id_p : Z) (id : FlowId)
    (internal_device time : Z) : option FlowManager :=
  let o := flows (state m) in
  '(found, index) ← map_get pow2 (with_local (deref (o_vec o)) id_p id) (o_map o) id_p 0;
  if negb (found =? 0) then
    '(_, heap) ← dchain_rejuvenate_index (o_chain o) index time;
    Some (set_tables m (Objs (o_map o) (o_vec o) heap) (int_devices (state m)))
  else
  '(ok, heap, index) ← dchain_allocate_new_index (o_chain o) index time;
  if ok =? 0 then
    Some (set_tables m (Objs (o_map o) (o_vec o) heap) (int_devices (state m)))
  else
  key ← vector_borrow (o_vec o) index;
  fv ← store (o_vec o) key id;
  fm ← map_put pow2 (with_local (deref fv) id_p id) (o_map o) key index;
  let fv := vector_return fv index key in
  int_dev ← vector_borrow (int_devices (state m)) index;
  devs ← store (int_devices (state m)) int_dev internal_device;
  Some (set_tables m (Objs fm fv heap) (vector_return devs index int_dev)).

Definition flow_manager_expire (m : FlowManager) (time : Z) : option FlowManager :=
  _ ← c_assert (0 <=? time);
  let time_u := u64 time in
  us ← int64_chk (expiration_time m * 1000);
  let last_time := s64 (u64 (time_u - u64 us)) in
  let o := flows (state m) in
  '(_, heap, fm) ← expire_items_single_map pow2 (o_chain o) (o_vec o) (o_map o) last_time;
  Some (set_tables m (Objs fm (o_vec o) heap) (int_devices (state m))).

(** The device of the flow when there is one, and the manager.  The log line of the source
    prints [*internal_device] before it is assigned: the caller's variable, whose value is then
    unspecified; it is left out, as all log lines are. *)
Definition flow_manager_get_refresh_flow (m : FlowManager) (id_p : Z) (id : FlowId) (time : Z)
    : option (option Z * FlowManager) :=
  let o := flows (state m) in
  '(found, index) ← map_get pow2 (with_local (deref (o_vec o)) id_p id) (o_map o) id_p 0;
  if found =? 0 then Some (None, m) else
  int_dev ← vector_borrow (int_devices (state m)) index;
  internal_device ← deref (int_devices (state m)) int_dev;
  let devs := vector_return (int_devices (state m)) index int_dev in
  '(_, heap) ← dchain_rejuvenate_index (o_chain o) index time;
  Some (Some internal_device, set_tables m (Objs (o_map o) (o_vec o) heap) devs).

(** Returns the output device, the packet and the manager. *)
Definition nf_process (config : nf_config) (m0 : FlowManager) (id_p device now : Z)
    (pk0 : packet) : option (Z * packet * FlowManager) :=
  m ← flow_manager_expire m0 now;
  '(rte_ether_header, pk1) ← nf_then_get_rte_ether_header pk0;
  '(rte_ipv4_header, ip_options, pk2) ← nf_then_get_rte_ipv4_header pk1 rte_ether_header;
  if rte_ipv4_header =? NULL then Some (device, pk2, m) else
  '(tcpudp_header, pk3) ← nf_then_get_tcpudp_header pk2 rte_ipv4_header;
  if tcpudp_header =? NULL then Some (device, pk3, m) else
  src_addr ← load32 pk3 (rte_ipv4_header + src_addr_off);
  dst_addr ← load32 pk3 (rte_ipv4_header + dst_addr_off);
  next_proto_id ← load8 pk3 (rte_ipv4_header + next_proto_id_off);
  hdr_src_port ← load16 pk3 (tcpudp_header + src_port_off);
  hdr_dst_port ← load16 pk3 (tcpudp_header + dst_port_off);
  if device =? wan_device config then
    let id := MkFlowId hdr_dst_port hdr_src_port dst_addr src_addr next_proto_id in
    '(found, m1) ← flow_manager_get_refresh_flow m id_p id now;
    match found with
    | None => Some (device, pk3, m1)
    | Some dst_device_long => Some (u16 dst_device_long, pk3, m1)
    end
  else
    let id := MkFlowId hdr_src_port hdr_dst_port src_addr dst_addr next_proto_id in
    m1 ← flow_manager_allocate_or_refresh_flow m id_p id device now;
    Some (wan_device config, pk3, m1).

End fw.

(** ** The contract (spec.py)

    The abstract state is the flow table and the devices by index. *)

(** The flow a packet belongs to, seen from the inside. *)
Definition flow_of (config : nf_config) (device : Z) (h : headers) : FlowId :=
  if device =? wan_device config
  then MkFlowId (h_dst_port h) (h_src_port h) (h_dst_addr h) (h_src_addr h) (h_proto h)
  else MkFlowId (h_src_port h) (h_dst_port h) (h_src_addr h) (h_dst_addr h) (h_proto h).

Definition fw_spec (config : nf_config) (s : table FlowId * list Z) (device now : Z)
    (hdrs : option headers) : (table FlowId * list Z) * option (Z * headers) :=
  let '(t, devs) := s in
  let t1 := t_expire t (now - 1000 * cfg_expiration_time config) in
  match hdrs with
  | None => ((t1, devs), None)
  | Some h =>
      let f := flow_of config device h in
      if device =? wan_device config then
        match t_lookup t1 f with
        | Some e =>
            match devs !! Z.to_nat (e_idx e) with
            | Some d => ((t_refresh t1 (e_idx e) now, devs), Some (d, h))
            | None => ((t1, devs), None)
            end
        | None => ((t1, devs), None)
        end
      else
        let s' := match t_lookup t1 f with
                  | Some e => (t_refresh t1 (e_idx e) now, devs)
                  | None =>
                      match t_frees t1 with
                      | [] => (t1, devs)
                      | i :: _ => (t_add t1 f now, <[Z.to_nat i := device]> devs)
                      end
                  end in
        (s', Some (wan_device config, h))
  end.

Section proofs.
Context `{KeyLaws FlowId}.
Variable pow2 : bool.
Implicit Types (m : FlowManager) (t : table FlowId) (f : FlowId).

(** Devices are numbered below [devices]. *)
Record fw_inv (config : nf_config) (devices id_p range : Z) m t (devs : list Z) (now : Z)
    : Prop := FwInv {
  fi_wan : 0 ≤ wan_device config < devices;
  fi_count : devices ≤ 2 ^ 16;
  fi_exp_range : 0 ≤ cfg_expiration_time config < 2 ^ 32;
  fi_emap : emapp pow2 (flows (state m)) range t;
  fi_sorted : t_sorted t now;
  fi_vec : vector_ok (int_devices (state m));
  fi_cells : cells (int_devices (state m)) = devs;
  fi_cap : vec_capacity (int_devices (state m)) = range;
  fi_devs : ∀ e, e ∈ ents t → ∃ d, devs !! Z.to_nat (e_idx e) = Some d ∧
                               0 ≤ d < devices ∧ d ≠ wan_device config;
  fi_stack : outside (o_vec (flows (state m))) id_p;
  fi_exp : expiration_time m = cfg_expiration_time config
}.

Section manager.
Context (config : nf_config) (devices id_p range now : Z) (m : FlowManager) (t : table FlowId).
Context (devs : list Z).

Lemma fw_expire_spec before :
  fw_inv config devices id_p range m t devs before → before ≤ now → 0 ≤ now < 2 ^ 63 →
  ∃ m', flow_manager_expire pow2 m now = Some m' ∧
    fw_inv config devices id_p range m' (t_expire t (now - 1000 * cfg_expiration_time config))
      devs now.
Proof.
  intros HI Hle Hnow. pose proof (fi_exp_range _ _ _ _ _ _ _ _ HI).
  unfold flow_manager_expire. destruct (Z.leb_spec 0 now); [|lia]. cbn [c_assert mbind option_bind].
  rewrite (fi_exp _ _ _ _ _ _ _ _ HI), int64_chk_small by lia. cbn [mbind option_bind].
  rewrite last_time_exact by lia. rewrite (Z.mul_comm (cfg_expiration_time config)).
  destruct (expire_items_single_map_spec pow2 _ _ _ (now - 1000 * cfg_expiration_time config)
    (fi_emap _ _ _ _ _ _ _ _ HI)) as (ch' & M' & -> & HE'). cbn [mbind option_bind].
  eexists. split; [done|]. destruct HI. constructor; simpl; try done.
  - apply t_expire_sorted. by eapply t_sorted_mono.
  - intros e He%t_expire_elem. auto.
Qed.

Hypothesis HI : fw_inv config devices id_p range m t devs now.

Lemma fw_refresh_inv (e : ent FlowId) ch' :
  emapp pow2 (Objs (o_map (flows (state m))) (o_vec (flows (state m))) ch') range
    (t_refresh t (e_idx e) now) →
  fw_inv config devices id_p range
    (set_tables m (Objs (o_map (flows (state m))) (o_vec (flows (state m))) ch')
       (int_devices (state m))) (t_refresh t (e_idx e) now) devs now.
Proof.
  intros HE'. pose proof (ent_idx_NoDup _ _ _ _ (fi_emap _ _ _ _ _ _ _ _ HI)).
  destruct HI. constructor; simpl; try done.
  - by apply t_refresh_sorted.
  - intros e' (e0 & He0 & _ & ->)%t_refresh_elem. auto.
Qed.

Lemma fw_get_refresh_spec f :
  match t_lookup t f with
  | Some e => ∃ d m', flow_manager_get_refresh_flow pow2 m id_p f now = Some (Some d, m') ∧
      devs !! Z.to_nat (e_idx e) = Some d ∧ 0 ≤ d < devices ∧ d ≠ wan_device config ∧
      fw_inv config devices id_p range m' (t_refresh t (e_idx e) now) devs now
  | None => flow_manager_get_refresh_flow pow2 m id_p f now = Some (None, m)
  end.
Proof.
  pose proof (fi_emap _ _ _ _ _ _ _ _ HI) as HE. unfold flow_manager_get_refresh_flow.
  rewrite (emap_get _ _ _ _ HE id_p f 0 (fi_stack _ _ _ _ _ _ _ _ HI)).
  destruct (t_lookup t f) as [e|] eqn:El; [|done]. apply t_lookup_Some in El as [He _].
  pose proof (ent_range _ _ _ _ HE e He) as Hr.
  destruct (fi_devs _ _ _ _ _ _ _ _ HI e He) as (d & Hd & Hrange & Hw).
  cbn [mbind option_bind]. destruct (Z.eqb_spec 1 0); [lia|].
  rewrite vector_borrow_spec
    by (apply HI || rewrite (fi_cap _ _ _ _ _ _ _ _ HI); lia). cbn [mbind option_bind].
  rewrite deref_addr by apply HI.
  rewrite (fi_cells _ _ _ _ _ _ _ _ HI), rd_lookup, Hd by lia. cbn [mbind option_bind].
  destruct (emap_refresh _ _ _ _ HE e now He) as (ch' & -> & HE'). cbn [mbind option_bind].
  eexists _, _. split_and!; [done|done|lia|lia|done|]. by apply fw_refresh_inv.
Qed.

Lemma fw_allocate_spec f dev :
  0 ≤ dev < devices → dev ≠ wan_device config →
  ∃ m', flow_manager_allocate_or_refresh_flow pow2 m id_p f dev now = Some m' ∧
    let '(t', devs') :=
      match t_lookup t f with
      | Some e => (t_refresh t (e_idx e) now, devs)
      | None =>
          match t_frees t with
          | [] => (t, devs)
          | i :: _ => (t_add t f now, <[Z.to_nat i := dev]> devs)
          end
      end in
    fw_inv config devices id_p range m' t' devs' now.
Proof.
  intros Hdev Hw. pose proof (fi_emap _ _ _ _ _ _ _ _ HI) as HE.
  unfold flow_manager_allocate_or_refresh_flow.
  rewrite (emap_get _ _ _ _ HE id_p f 0 (fi_stack _ _ _ _ _ _ _ _ HI)).
  destruct (t_lookup t f) as [e|] eqn:El; cbn [mbind option_bind].
  { destruct (Z.eqb_spec 1 0); [lia|]. cbn [negb]. apply t_lookup_Some in El as [He _].
    destruct (emap_refresh _ _ _ _ HE e now He) as (ch' & -> & HE'). cbn [mbind option_bind].
    eexists. split; [done|]. by apply fw_refresh_inv. }
  rewrite Z.eqb_refl. cbn [negb]. destruct (t_frees t) as [|i fs] eqn:Hfr.
  { destruct (emap_full _ _ _ _ HE 0 now) as (ch' & -> & HE').
    { unfold t_full. by rewrite Hfr. }
    cbn [mbind option_bind]. eexists. split; [done|]. destruct HI. by constructor. }
  destruct (emap_add _ _ _ _ HE f 0 i fs now El Hfr) as (ch' & -> & Hi & Hb & Hst & Hput).
  osteps. destruct (Z.eqb_spec 1 0); [lia|]. osteps.
  destruct (Hput (with_local (deref (vset (o_vec (flows (state m))) i f)) id_p f))
    as (M' & -> & HE'); [apply sees_local; apply (fi_stack _ _ _ _ _ _ _ _ HI)|].
  cbn [mbind option_bind].
  rewrite vector_borrow_spec by (apply HI || rewrite (fi_cap _ _ _ _ _ _ _ _ HI); lia).
  cbn [mbind option_bind].
  rewrite store_addr by (apply HI || rewrite (fi_cap _ _ _ _ _ _ _ _ HI); lia).
  cbn [mbind option_bind]. eexists. split; [done|].
  pose proof (vo_len _ (fi_vec _ _ _ _ _ _ _ _ HI)) as Hlen.
  destruct HI. constructor; simpl; try done.
  - by apply t_add_sorted.
  - by apply vset_ok.
  - by f_equal.
  - unfold t_add. rewrite Hfr. simpl. subst devs. unfold zlen in Hlen.
    assert (i ∈ t_frees t) as Hif by (rewrite Hfr; by left).
    destruct (free_range _ _ _ _ HE i Hif) as [_ Hnin].
    intros e [He|He%list_elem_of_singleton]%elem_of_app.
    + rewrite list_lookup_insert_ne; [by auto|].
      pose proof (ent_range _ _ _ _ HE e He). intros Heq. apply Hnin.
      replace i with (e_idx e) by lia. by apply list_elem_of_fmap_2.
    + subst e. simpl. exists dev. rewrite list_lookup_insert_eq by lia. done.
Qed.

End manager.

Lemma fw_process_spec config devices id_p range before now device m t devs pk tail :
  fw_inv config devices id_p range m t devs before → before ≤ now → 0 ≤ now < 2 ^ 63 →
  received pk tail → 0 ≤ device < devices →
  let '((t', devs'), act) := fw_spec config (t, devs) device now (packet_headers pk) in
  ∃ dev pk' m', nf_process pow2 config m id_p device now pk = Some (dev, pk', m') ∧
    fw_inv config devices id_p range m' t' devs' now ∧ acted pk device act dev pk' ∧
    buf pk' = buf pk.
Proof.
  intros HI0 Hle Hnow HR Hdev.
  destruct (fw_expire_spec config devices id_p range now m t devs before HI0 Hle Hnow)
    as (m1 & Hex & HI).
  unfold nf_process, fw_spec. rewrite Hex. cbn [mbind option_bind].
  set (t1 := t_expire t (now - 1000 * cfg_expiration_time config)) in *.
  destruct (parse_cases pk tail HR)
    as (pk1 & He & [(opts & pk2 & Hi & -> & Hact)|[(opts & pk2 & pk3 & Hi & Hnz & Ht & -> & Hact)|
        (opts & pk2 & h & Hi & Hnz & Ht & Hnz4 & HP)]]); rewrite He; osteps.
  { rewrite Z.eqb_refl. eexists _, _, _. split_and!; [done..|]. by destruct (Hact 0) as (_ & _ & ?). }
  { rewrite (not_null _ Hnz). osteps. rewrite Z.eqb_refl.
    eexists _, _, _. split_and!; [done..|]. by destruct (Hact 0) as (_ & _ & ?). }
  rewrite (not_null _ Hnz). osteps. rewrite (not_null _ Hnz4).
  rewrite (pd_headers _ _ HP) in *.
  destruct (pd_loads _ _ HP) as (-> & -> & -> & -> & ->). cbn [mbind option_bind].
  destruct (after_tcpudp_frame pk) as (Fb & Fbuf & Ft & Fr). unfold flow_of.
  assert (∀ d, d ≠ device → acted pk device (Some (d, h)) d (after_tcpudp pk)) as Hfwd
    by (intros d Hd; by apply parsed_forward).
  destruct (Z.eqb_spec device (wan_device config)) as [Hw|Hw].
  - pose proof (fw_get_refresh_spec config devices id_p range now m1 t1 devs HI
      (MkFlowId (h_dst_port h) (h_src_port h) (h_dst_addr h) (h_src_addr h) (h_proto h))) as Hg.
    destruct (t_lookup t1 _) as [e|].
    + destruct Hg as (d & m2 & -> & -> & Hd & Hdw & HI2). cbn [mbind option_bind].
      pose proof (fi_count _ _ _ _ _ _ _ _ HI). rewrite u16_small by lia.
      eexists _, _, _. split_and!; [done|done|apply Hfwd; congruence|done].
    + rewrite Hg. cbn [mbind option_bind]. eexists _, _, _. split_and!; [done..| |done].
      by eapply parsed_drop.
  - destruct (fw_allocate_spec config devices id_p range now m1 t1 devs HI
      (MkFlowId (h_src_port h) (h_dst_port h) (h_src_addr h) (h_dst_addr h) (h_proto h)) device
      Hdev Hw) as (m2 & -> & HI2). cbn [mbind option_bind].
    destruct (match t_lookup t1 _ with Some _ => _ | None => _ end) as [t' devs'] eqn:Em.
    eexists _, _, _. split_and!; [done|done|apply Hfwd; congruence|done].
Qed.

End proofs.

(** ** Executions *)

Definition event_ok (devices before : Z) (ev : event) : Prop :=
  before ≤ ev_now ev ∧ 0 ≤ ev_now ev < 2 ^ 63 ∧ 0 ≤ ev_device ev < devices ∧
  ∃ tail, received (ev_packet ev) tail.

(** The states the handler reaches from [m0] by processing packets in time order. *)
Inductive fw_reach `{KeyOps FlowId} (pow2 : bool) (config : nf_config) (devices id_p : Z)
    (m0 : FlowManager) : list event → Z → FlowManager → Prop :=
| fw_reach_start : fw_reach pow2 config devices id_p m0 [] 0 m0
| fw_reach_step evs before m ev dev pk' m' :
    fw_reach pow2 config devices id_p m0 evs before m →
    event_ok devices before ev →
    nf_process pow2 config m id_p (ev_device ev) (ev_now ev) (ev_packet ev) =
      Some (dev, pk', m') →
    fw_reach pow2 config devices id_p m0 (evs ++ [ev]) (ev_now ev) m'.

(** Some outgoing packet of [evs] belongs to flow [f] and came from device [d]. *)
Definition solicited (config : nf_config) (evs : list event) (f : FlowId) (d : Z) : Prop :=
  ∃ ev h, ev ∈ evs ∧ ev_device ev ≠ wan_device config ∧ ev_device ev = d ∧
    packet_headers (ev_packet ev) = Some h ∧ flow_of config (ev_device ev) h = f.

Definition all_solicited (config : nf_config) (evs : list event) (t : table FlowId)
    (devs : list Z) : Prop :=
  ∀ e, e ∈ ents t → ∃ d, devs !! Z.to_nat (e_idx e) = Some d ∧ solicited config evs (e_key e) d.

Lemma solicited_mono config evs ev f d :
  solicited config evs f d → solicited config (evs ++ [ev]) f d.
Proof.
  intros (ev' & h & ? & ?). exists ev', h. split; [|done]. apply elem_of_app. by left.
Qed.

Section executions.
Context `{KeyLaws FlowId}.
Variable pow2 : bool.

(** Every step of the contract keeps the entries of the table solicited. *)
Lemma fw_spec_solicited config devices id_p range m t devs evs ev t' devs' act :
  fw_inv pow2 config devices id_p range m t devs (ev_now ev) →
  all_solicited config evs t devs →
  fw_spec config (t, devs) (ev_device ev) (ev_now ev) (packet_headers (ev_packet ev)) =
    ((t', devs'), act) →
  all_solicited config (evs ++ [ev]) t' devs'.
Proof.
  intros HI HS. unfold fw_spec.
  set (t1 := t_expire t _). set (now := ev_now ev).
  assert (all_solicited config (evs ++ [ev]) t1 devs) as HS1.
  { intros e He%t_expire_elem. destruct (HS e He) as (d & ? & ?).
    exists d. split; [done|]. by apply solicited_mono. }
  assert (∀ i, all_solicited config (evs ++ [ev]) (t_refresh t1 i now) devs) as HSr.
  { intros i e (e0 & He0 & -> & ->)%t_refresh_elem. auto. }
  destruct (packet_headers (ev_packet ev)) as [h|] eqn:Hh; [|by intros; simplify_eq].
  destruct (Z.eqb_spec (ev_device ev) (wan_device config)) as [Hw|Hw].
  { repeat case_match; intros; simplify_eq; auto. }
  destruct (t_lookup t1 (flow_of config (ev_device ev) h)) as [e|] eqn:El;
    [by intros; simplify_eq; auto|].
  destruct (t_frees t1) as [|i fs] eqn:Hfr; [by intros; simplify_eq|]. intros; simplify_eq.
  pose proof (expire_items_single_map_spec pow2 _ _ _ (now - 1000 * cfg_expiration_time config)
    (fi_emap _ _ _ _ _ _ _ _ _ HI)) as (ch' & M' & _ & HE). fold t1 in HE.
  assert (i ∈ t_frees t1) as Hif by (rewrite Hfr; by left).
  destruct (free_range _ _ _ _ HE i Hif) as [Hir Hnin].
  unfold t_add. rewrite Hfr. intros e [He|He%list_elem_of_singleton]%elem_of_app.
  - destruct (HS1 e He) as (d & Hd & Hs). exists d. split; [|done].
    rewrite list_lookup_insert_ne; [done|]. pose proof (ent_range _ _ _ _ HE e He).
    intros Heq. apply Hnin. replace i with (e_idx e) by lia. by apply list_elem_of_fmap_2.
  - subst e. simpl. exists (ev_device ev). split.
    + apply list_lookup_insert_eq.
      pose proof (vo_len _ (fi_vec _ _ _ _ _ _ _ _ _ HI)) as Hl.
      rewrite (fi_cells _ _ _ _ _ _ _ _ _ HI), (fi_cap _ _ _ _ _ _ _ _ _ HI) in Hl.
      unfold zlen in Hl. lia.
    + exists ev, h. split_and!; try done. apply elem_of_app. right. by left.
Qed.

(** Reachable states satisfy the invariant with a solicited table. *)
Lemma fw_reach_inv config devices id_p range m0 devs0 evs now m :
  fw_inv pow2 config devices id_p range m0 (Table [] (seqZ 0 range)) devs0 0 →
  fw_reach pow2 config devices id_p m0 evs now m →
  ∃ t devs, fw_inv pow2 config devices id_p range m t devs now ∧ all_solicited config evs t devs.
Proof.
  intros HI0. induction 1 as [|evs before m ev dev pk' m' Hreach IH Hev Hp].
  - exists (Table [] (seqZ 0 range)), devs0. split; [done|]. intros e He. by apply elem_of_nil in He.
  - destruct IH as (t & devs & HI & HS). destruct Hev as (Hb & Hn & Hd & tail & HR).
    pose proof (fw_process_spec pow2 config devices id_p range before (ev_now ev) (ev_device ev)
      m t devs (ev_packet ev) tail HI Hb Hn HR Hd) as Hs.
    destruct (fw_spec _ _ _ _ _) as [[t' devs'] act] eqn:Espec.
    destruct Hs as (dev' & pk1 & m1 & Hp1 & HI1 & _). rewrite Hp in Hp1. simplify_eq.
    exists t', devs'. split; [done|]. eapply fw_spec_solicited; [|exact HS|exact Espec].
    destruct HI. constructor; try done. by eapply t_sorted_mono.
Qed.

End executions.

(** ** Main results *)

(** C14: the firewall implements its contract.  For any received packet,
    [nf_process] runs without undefined behaviour, takes the action of the
    contract (outgoing packets pass and their flow is refreshed or, while there
    is room, remembered with its device; incoming ones pass to the device of
    their flow, which is refreshed, or are dropped), never changes a byte of
    the packet and keeps its invariant. *)
Theorem fw_process_refines_spec `{KeyLaws FlowId} (pow2 : bool) (config : nf_config)
    (devices id_p range before now device : Z) (m : FlowManager) (t : table FlowId)
    (devs : list Z) (pk : packet) (tail : Z) :
  fw_inv pow2 config devices id_p range m t devs before → before ≤ now → 0 ≤ now < 2 ^ 63 →
  received pk tail → 0 ≤ device < devices →
  let '((t', devs'), act) := fw_spec config (t, devs) device now (packet_headers pk) in
  ∃ dev pk' m', nf_process pow2 config m id_p device now pk = Some (dev, pk', m') ∧
    fw_inv pow2 config devices id_p range m' t' devs' now ∧ acted pk device act dev pk' ∧
    buf pk' = buf pk.
Proof. apply fw_process_spec. Qed.

(** C15: only solicited traffic passes.  In every execution from an empty flow
    table, when a packet that arrives on the external device is forwarded, some
    earlier packet of the same flow went out, and the output device is the one
    that packet came from. *)
Theorem fw_only_solicited `{KeyLaws FlowId} (pow2 : bool) (config : nf_config)
    (devices id_p range : Z) (m0 m m' : FlowManager) (devs0 : list Z) (evs : list event)
    (before : Z) (ev : event) (dev : Z) (pk' : packet) :
  fw_inv pow2 config devices id_p range m0 (Table [] (seqZ 0 range)) devs0 0 →
  fw_reach pow2 config devices id_p m0 evs before m → event_ok devices before ev →
  ev_device ev = wan_device config →
  nf_process pow2 config m id_p (ev_device ev) (ev_now ev) (ev_packet ev) = Some (dev, pk', m') →
  dev ≠ wan_device config →
  ∃ h, packet_headers (ev_packet ev) = Some h ∧
       solicited config evs (flow_of config (wan_device config) h) dev.
Proof.
  intros HI0 Hreach (Hb & Hn & Hd & tail & HR) Hw Hp Hdev.
  destruct (fw_reach_inv pow2 config devices id_p range m0 devs0 evs before m HI0 Hreach)
    as (t & devs & HI & HS).
  pose proof (fw_process_spec pow2 config devices id_p range before (ev_now ev) (ev_device ev)
    m t devs (ev_packet ev) tail HI Hb Hn HR Hd) as Hs.
  destruct (fw_spec _ _ _ _ _) as [[t' devs'] act] eqn:Espec.
  destruct Hs as (dev' & pk1 & m1 & Hp1 & _ & (_ & Hact) & _). rewrite Hp in Hp1. simplify_eq.
  destruct act as [[d h']|]; [|destruct Hact; congruence]. destruct Hact as (-> & _).
  unfold fw_spec in Espec. destruct (packet_headers (ev_packet ev)) as [h|]; [|done].
  exists h. split; [done|]. rewrite Hw, Z.eqb_refl in Espec.
  destruct (t_lookup _ _) as [e|] eqn:El; [|done]. apply t_lookup_Some in El as [He Hk].
  apply t_expire_elem in He. destruct (HS e He) as (d' & Hd' & Hs). rewrite Hd' in Espec.
  simplify_eq. rewrite <- Hk. done.
Qed.

(** ** Concrete instances *)

Definition demo_fw_ops : KeyOps FlowId := {|
  key_eq := λ a b, bool_decide (a = b);
  key_hash := λ f, src_port f mod 2
|}.

#[local] Existing Instance demo_fw_ops.

#[local] Instance demo_fw_laws : KeyLaws FlowId.
Proof.
  constructor; simpl.
  - intros a b. apply bool_decide_eq_true.
  - intros a. pose proof (Z.mod_pos_bound (src_port a) 2). lia.
Qed.

Definition demo_fw_config : nf_config := MkConfig 1 1000 3.

Definition demo_fw_manager : FlowManager :=
  MkManager (MkState (demo_table 16 (MkFlowId 0 0 0 0 0)) (MkVector 2000 4 3 [0; 0; 0]) 3 1) 1000.

Lemma demo_fw_inv :
  fw_inv false demo_fw_config 2 8 3 demo_fw_manager (Table [] [0; 1; 2]) [0; 0; 0] 0.
Proof.
  constructor; simpl; try done.
  - by apply demo_table_ok.
  - split; [constructor|]. intros e He. by apply elem_of_nil in He.
  - intros e He. by apply elem_of_nil in He.
  - intros i Hi. unfold addr. simpl in *. lia.
Qed.

Lemma fw_process_refines_spec_witness :
  ∃ pk' m', nf_process false demo_fw_config demo_fw_manager 8 0 5 demo_packet = Some (1, pk', m').
Proof.
  pose proof (fw_process_refines_spec false demo_fw_config 2 8 3 0 5 0 demo_fw_manager _ _
    demo_packet 20 demo_fw_inv ltac:(lia) ltac:(lia) demo_packet_received ltac:(lia)) as Hs.
  destruct (fw_spec _ _ _ _ _) as [[t' devs'] act] eqn:E.
  destruct Hs as (dev & pk' & m' & Hp & _ & (_ & Hact) & _).
  vm_compute in E. injection E as <- <- <-. destruct Hact as (-> & _). exists pk', m'. exact Hp.
Defined.

(** The reply to [demo_packet]. *)
Definition demo_fw_reply : packet :=
  Packet 8192 ([2;0;0;0;0;2] ++ [2;0;0;0;0;1] ++ [8;0] ++
    [69;0;0;46;0;0;0;0;64;17;0;0] ++ [10;0;0;2] ++ [10;0;0;1] ++ [0;80;4;0] ++ replicate 42 0)
    60 0 [].

Lemma demo_fw_reply_received : received demo_fw_reply 20.
Proof.
  constructor; try done. cbn.
  repeat (apply List.Forall_cons; [lia|]). apply List.Forall_nil.
Qed.

Definition demo_fw_manager1 : FlowManager :=
  match nf_process false demo_fw_config demo_fw_manager 8 0 5 demo_packet with
  | Some (_, _, m) => m
  | None => demo_fw_manager
  end.

Lemma fw_only_solicited_witness :
  ∃ h, packet_headers demo_fw_reply = Some h ∧
       solicited demo_fw_config [Event 0 5 demo_packet] (flow_of demo_fw_config 1 h) 0.
Proof.
  eapply (fw_only_solicited false demo_fw_config 2 8 3 demo_fw_manager demo_fw_manager1 _ [0; 0; 0]
    [Event 0 5 demo_packet] 5 (Event 1 6 demo_fw_reply));
    [exact demo_fw_inv| | |reflexivity|vm_compute; reflexivity|done].
  - eapply (fw_reach_step _ _ _ _ _ [] 0 _ (Event 0 5 demo_packet));
      [constructor| |vm_compute; reflexivity].
    split_and!; try done. exists 20. apply demo_packet_received.
  - split_and!; try done. exists 20. apply demo_fw_reply_received.
Defined.
