(* ===== verification/Pol.v ===== *)
(** * vigpol: the traffic policer

    policer_main.c: a token bucket per destination address.  The handler, its
    contract on the abstract table, the refinement between them, and what the
    buckets promise: the bytes forwarded to a destination are bounded by the
    burst and the rate. *)
From stdpp Require Import base list gmap numbers sets.
From Stdlib Require Import ZArith Lia.
From S2P Require Import Prelude.
From S2P Require Import Memory.
From S2P Require Import MapImpl.
From S2P Require Import Map.
From S2P Require Import Vector.
From S2P Require Import DChainImpl.
From S2P Require Import DChain.
From S2P Require Import Emap.
From S2P Require Import Expirator.
From S2P Require Import Packet.

Definition VIGOR_TIME_SECONDS_MULTIPLIER : Z := 1000000000.

(** struct ip_addr *)
Record ip_addr := IpAddr { ip : Z }.

#[export] Instance ip_addr_eq_dec : EqDecision ip_addr.
Proof. solve_decision. Defined.

#[export] Instance ip_addr_countable : Countable ip_addr.
Proof. apply (inj_countable' ip IpAddr). by intros []. Defined.

(** struct DynamicValue *)
Record DynamicValue := MkValue { bucket_size : Z; bucket_time : Z }.

(** struct nf_config *)
Record nf_config := MkConfig {
  lan_device : Z;
  wan_device : Z;
  rate : Z;
  burst : Z;
  dyn_capacity : Z
}.

(** The generated struct State. *)
Record State := MkState {
  dyn : emap_objs ip_addr;
  dyn_vals : Vector DynamicValue
}.

(** Unsigned 64-bit division; by zero it is undefined. *)
Definition u64_div (a b : Z) : option Z := if b =? 0 then None else Some (a / b).

Section policer.
Context `{KeyOps ip_addr}.
Variable pow2 : bool.
(** The generated allocation function of the state. *)
Variable alloc_state : Z → Z → M (option State).
Variable config : nf_config.

Definition nf_init (rte_eth_dev_count_avail : Z) : M (bool * option State) :=
  let capacity := dyn_capacity config in
  dynamic_ft ← alloc_state capacity rte_eth_dev_count_avail;
  mret (match dynamic_ft with Some _ => true | None => false end, dynamic_ft).

(** Returns the number of expired entries and the state. *)
Definition policer_expire_entries (st : State) (time : Z) : option (Z * State) :=
  _ ← c_assert (0 <=? time);
  q ← u64_div (burst config) (rate config);
  let exp_time := s64 (u64 (VIGOR_TIME_SECONDS_MULTIPLIER * q)) in
  let time_u := u64 time in
  let min_time := s64 (u64 (time_u - u64 exp_time)) in
  '(n, heap, map) ← expire_items_single_map pow2 (o_chain (dyn st)) (o_vec (dyn st))
                      (o_map (dyn st)) min_time;
  Some (n, MkState (Objs map (o_vec (dyn st)) heap) (dyn_vals st)).

(** Returns whether to forward, and the state; [dst_p] is the address of the
    argument [dst]. *)
Definition policer_check_tb (st : State) (dst_p dst size time : Z) : option (bool * State) :=
  let o := dyn st in
  '(present, index) ← map_get pow2 (with_local (deref (o_vec o)) dst_p (IpAddr dst)) (o_map o)
                        dst_p (-1);
  if negb (present =? 0) then
    '(_, heap) ← dchain_rejuvenate_index (o_chain o) index time;
    value ← vector_borrow (dyn_vals st) index;
    v ← deref (dyn_vals st) value;
    _ ← c_assert (0 <=? time);
    let time_u := u64 time in
    _ ← c_assert (0 <=? bucket_time v);
    _ ← c_assert (u64 (bucket_time v) <=? time_u);
    let time_diff := u64 (time_u - u64 (bucket_time v)) in
    full ← u64_div (u64 (burst config * VIGOR_TIME_SECONDS_MULTIPLIER)) (rate config);
    size' ← (if time_diff <? full then
               added_tokens ← u64_div (u64 (time_diff * rate config))
                                VIGOR_TIME_SECONDS_MULTIPLIER;
               _ ← c_assert (bucket_size v <=? burst config);
               let bs := u64 (bucket_size v + added_tokens) in
               Some (if burst config <? bs then burst config else bs)
             else Some (burst config));
    let '(fwd, size'') := if size <? size' then (true, u64 (size' - size)) else (false, size') in
    vals ← store (dyn_vals st) value (MkValue size'' (s64 time_u));
    Some (fwd, MkState (Objs (o_map o) (o_vec o) heap) (vector_return vals index value))
  else
    if burst config <? size then Some (false, st) else
    '(allocated, heap, index) ← dchain_allocate_new_index (o_chain o) index time;
    if allocated =? 0 then Some (false, MkState (Objs (o_map o) (o_vec o) heap) (dyn_vals st)) else
    key ← vector_borrow (o_vec o) index;
    value ← vector_borrow (dyn_vals st) index;
    keys ← store (o_vec o) key (IpAddr dst);
    vals ← store (dyn_vals st) value (MkValue (u64 (burst config - size)) time);
    map ← map_put pow2 (with_local (deref keys) dst_p (IpAddr dst)) (o_map o) key index;
    Some (true, MkState (Objs map (vector_return keys index key) heap)
                  (vector_return vals index value)).

(** Returns the output device, the packet and the state. *)
Definition nf_process (st : State) (dst_p device packet_length now : Z) (pk0 : packet)
    : option (Z * packet * State) :=
  '(rte_ether_header, pk1) ← nf_then_get_rte_ether_header pk0;
  '(rte_ipv4_header, ip_options, pk2) ← nf_then_get_rte_ipv4_header pk1 rte_ether_header;
  if rte_ipv4_header =? NULL then Some (device, pk2, st) else
  '(_, st1) ← policer_expire_entries st now;
  if device =? lan_device config then Some (wan_device config, pk2, st1)
  else if device =? wan_device config then
    dst_addr ← load32 pk2 (rte_ipv4_header + dst_addr_off);
    '(fwd, st2) ← policer_check_tb st1 dst_p dst_addr packet_length now;
    if (fwd : bool) then Some (lan_device config, pk2, st2)
    else Some (wan_device config, pk2, st2)
  else Some (device, pk2, st1).

End policer.

(** ** The contract

    The abstract state is the table of destinations and the buckets by index. *)

Definition tokens_per_second : Z := 1000000000.

(** What a packet of [size] bytes at time [now] does to a bucket. *)
Definition tb_update (config : nf_config) (v : DynamicValue) (size now : Z)
    : bool * DynamicValue :=
  let diff := now - bucket_time v in
  let b := if diff <? burst config * tokens_per_second / rate config
           then Z.min (burst config) (bucket_size v + diff * rate config / tokens_per_second)
           else burst config in
  if size <? b then (true, MkValue (b - size) now) else (false, MkValue b now).

Definition pol_check (config : nf_config) (s : table ip_addr * list DynamicValue) (dst : ip_addr)
    (size now : Z) : bool * (table ip_addr * list DynamicValue) :=
  let '(t, vals) := s in
  match t_lookup t dst with
  | Some e =>
      match vals !! Z.to_nat (e_idx e) with
      | Some v =>
          let '(fwd, v') := tb_update config v size now in
          (fwd, (t_refresh t (e_idx e) now, <[Z.to_nat (e_idx e) := v']> vals))
      | None => (false, s)
      end
  | None =>
      if burst config <? size then (false, s) else
      match t_frees t with
      | [] => (false, s)
      | i :: _ => (true, (t_add t dst now,
                          <[Z.to_nat i := MkValue (burst config - size) now]> vals))
      end
  end.

Definition pol_expire (config : nf_config) (t : table ip_addr) (now : Z) : table ip_addr :=
  t_expire t (now - tokens_per_second * (burst config / rate config)).

(** [dst] is the destination address of a well-formed IPv4 packet; the result
    is the output device, which is the input device for a dropped packet. *)
Definition pol_spec (config : nf_config) (s : table ip_addr * list DynamicValue)
    (device size now : Z) (dst : option Z) : Z * (table ip_addr * list DynamicValue) :=
  match dst with
  | None => (device, s)
  | Some a =>
      let s1 := (pol_expire config s.1 now, s.2) in
      if device =? lan_device config then (wan_device config, s1)
      else if device =? wan_device config then
        let '(fwd, s2) := pol_check config s1 (IpAddr a) size now in
        (if fwd then lan_device config else wan_device config, s2)
      else (device, s1)
  end.

(** The destination address of a packet, when it is IPv4. *)
Definition ipv4_dst (pk : packet) : option Z :=
  if ipv4_ok (buf pk) (global_total_length pk)
  then load32 pk (base pk + 14 + dst_addr_off) else None.

(** The handler over a sequence of packets: the output devices and the state. *)
Fixpoint pol_run `{KeyOps ip_addr} (pow2 : bool) (config : nf_config) (dst_p : Z)
    (evs : list event) (st : State) : option (list Z * State) :=
  match evs with
  | [] => Some ([], st)
  | ev :: evs' =>
      '(dev, _, st') ← nf_process pow2 config st dst_p (ev_device ev)
                         (global_total_length (ev_packet ev)) (ev_now ev) (ev_packet ev);
      '(outs, st'') ← pol_run pow2 config dst_p evs' st';
      Some (dev :: outs, st'')
  end.

(** The policed bytes that a packet brings to [dst] when it leaves on [out]. *)
Definition forwarded (config : nf_config) (dst : ip_addr) (device : Z) (pk : packet) (out : Z)
    : Z :=
  if (device =? wan_device config) && (out =? lan_device config) &&
     bool_decide (ipv4_dst pk = Some (ip dst))
  then global_total_length pk else 0.

Fixpoint total_forwarded (config : nf_config) (dst : ip_addr) (evs : list event)
    (outs : list Z) : Z :=
  match evs, outs with
  | ev :: evs', out :: outs' =>
      forwarded config dst (ev_device ev) (ev_packet ev) out +
      total_forwarded config dst evs' outs'
  | _, _ => 0
  end.

Record config_ok (config : nf_config) : Prop := ConfigOk {
  co_rate : 0 < rate config < 2 ^ 64;
  co_burst : 0 ≤ burst config;
  co_fit : burst config * tokens_per_second < 2 ^ 63;
  co_devices : lan_device config ≠ wan_device config
}.

Section proofs.
Context `{KeyLaws ip_addr}.
Variable pow2 : bool.
Variable config : nf_config.
Hypothesis HC : config_ok config.

Record pol_inv (dst_p range : Z) (st : State) (t : table ip_addr) (vals : list DynamicValue)
    (now : Z) : Prop := PolInv {
  pi_emap : emapp pow2 (dyn st) range t;
  pi_sorted : t_sorted t now;
  pi_vec : vector_ok (dyn_vals st);
  pi_cells : cells (dyn_vals st) = vals;
  pi_cap : vec_capacity (dyn_vals st) = range;
  pi_vals : ∀ e, e ∈ ents t → ∃ v, vals !! Z.to_nat (e_idx e) = Some v ∧
              0 ≤ bucket_size v ≤ burst config ∧ bucket_time v = e_time e ∧ 0 ≤ e_time e;
  pi_stack : outside (o_vec (dyn st)) dst_p
}.

Lemma exp_time_bound : 0 ≤ tokens_per_second * (burst config / rate config) < 2 ^ 63.
Proof.
  destruct HC as [Hr Hb Hf _]. unfold tokens_per_second in *.
  pose proof (Z.div_pos (burst config) (rate config)).
  pose proof (Z.div_le_upper_bound (burst config) (rate config) (burst config)). nia.
Qed.

Lemma pol_expire_spec dst_p range st t vals before now :
  pol_inv dst_p range st t vals before → before ≤ now → 0 ≤ now < 2 ^ 63 →
  ∃ n st', policer_expire_entries pow2 config st now = Some (n, st') ∧
    pol_inv dst_p range st' (pol_expire config t now) vals now.
Proof.
  intros HI Hle Hnow. pose proof exp_time_bound as Hb. destruct HC as [Hr _ _ _].
  unfold policer_expire_entries, u64_div, VIGOR_TIME_SECONDS_MULTIPLIER.
  destruct (Z.leb_spec 0 now); [|lia]. destruct (Z.eqb_spec (rate config) 0); [lia|].
  cbn [c_assert mbind option_bind]. change 1000000000 with tokens_per_second.
  rewrite (s64_u64 (tokens_per_second * _)) by lia. rewrite last_time_exact by lia.
  destruct (expire_items_single_map_spec pow2 _ _ _
    (now - tokens_per_second * (burst config / rate config)) (pi_emap _ _ _ _ _ _ HI))
    as (ch' & M' & -> & HE'). cbn [mbind option_bind].
  eexists _, _. split; [done|]. destruct HI. constructor; simpl; try done.
  - apply t_expire_sorted. by eapply t_sorted_mono.
  - intros e He%t_expire_elem. auto.
Qed.

(** The bucket arithmetic of the code is the one of the contract. *)
Lemma tb_update_code v size now :
  0 ≤ bucket_size v ≤ burst config → 0 ≤ bucket_time v ≤ now → now < 2 ^ 63 → 0 ≤ size →
  let time_diff := u64 (u64 now - u64 (bucket_time v)) in
  u64_div (u64 (burst config * VIGOR_TIME_SECONDS_MULTIPLIER)) (rate config) =
    Some (burst config * tokens_per_second / rate config) ∧
  ∃ b, (if time_diff <? burst config * tokens_per_second / rate config then
          added_tokens ← u64_div (u64 (time_diff * rate config)) VIGOR_TIME_SECONDS_MULTIPLIER;
          _ ← c_assert (bucket_size v <=? burst config);
          let bs := u64 (bucket_size v + added_tokens) in
          Some (if burst config <? bs then burst config else bs)
        else Some (burst config)) = Some b ∧ 0 ≤ b ≤ burst config ∧
       tb_update config v size now =
         if size <? b then (true, MkValue (u64 (b - size)) now) else (false, MkValue b now).
Proof.
  intros Hs Ht Hn Hsz time_diff. destruct HC as [Hr Hb Hf _].
  unfold tokens_per_second, VIGOR_TIME_SECONDS_MULTIPLIER in *.
  assert (time_diff = now - bucket_time v) as -> by (subst time_diff; rewrite u64_sub, u64_small; lia).
  unfold u64_div. destruct (Z.eqb_spec (rate config) 0); [lia|].
  rewrite (u64_small (burst config * 1000000000)) by lia. split; [done|].
  unfold tb_update, tokens_per_second.
  destruct (Z.ltb_spec (now - bucket_time v) (burst config * 1000000000 / rate config)) as [Hlt|Hge].
  - assert ((now - bucket_time v) * rate config < burst config * 1000000000) as Hd.
    { pose proof (Z.mul_div_le (burst config * 1000000000) (rate config)). nia. }
    rewrite (u64_small ((now - bucket_time v) * rate config)) by nia.
    cbn [Z.eqb mbind option_bind]. destruct (Z.leb_spec (bucket_size v) (burst config)); [|lia].
    cbn [c_assert mbind option_bind].
    assert (0 ≤ (now - bucket_time v) * rate config / 1000000000 ≤ burst config) as Ha.
    { split; [apply Z.div_pos; nia|]. apply Z.div_le_upper_bound; lia. }
    set (a := (now - bucket_time v) * rate config / 1000000000) in *.
    rewrite u64_small by lia. eexists. split; [done|].
    destruct (Z.ltb_spec (burst config) (bucket_size v + a)).
    + rewrite Z.min_l by lia. split; [lia|].
      destruct (Z.ltb_spec size (burst config)); [|done]. rewrite u64_small by lia. done.
    + rewrite Z.min_r by lia. split; [lia|].
      destruct (Z.ltb_spec size (bucket_size v + a)); [|done]. rewrite u64_small by lia. done.
  - eexists. split; [done|]. split; [lia|].
    destruct (Z.ltb_spec size (burst config)); [|done]. rewrite u64_small by lia. done.
Qed.

Lemma tb_update_bounds v size now fwd v' :
  0 ≤ bucket_size v ≤ burst config → bucket_time v ≤ now → 0 ≤ size →
  tb_update config v size now = (fwd, v') →
  0 ≤ bucket_size v' ≤ burst config ∧ bucket_time v' = now.
Proof.
  intros Hs Ht Hsz. destruct HC as [Hr Hb Hf _]. unfold tb_update.
  assert (0 ≤ (now - bucket_time v) * rate config / tokens_per_second).
  { apply Z.div_pos; [nia|done]. }
  repeat case_match; intros; simplify_eq; simpl; zbool; lia.
Qed.

Section check.
Context (dst_p range now : Z) (st : State) (t : table ip_addr) (vals : list DynamicValue).
Hypothesis HI : pol_inv dst_p range st t vals now.
Hypothesis Hnow : 0 ≤ now < 2 ^ 63.

Lemma vals_length : Z.of_nat (length vals) = range.
Proof.
  pose proof (vo_len _ (pi_vec _ _ _ _ _ _ HI)) as Hl.
  by rewrite (pi_cells _ _ _ _ _ _ HI), (pi_cap _ _ _ _ _ _ HI) in Hl.
Qed.

(** Writing the bucket of one index leaves the buckets of the others. *)
Lemma vals_other i v e :
  0 ≤ i → e ∈ ents t → e_idx e ≠ i →
  (<[Z.to_nat i := v]> vals) !! Z.to_nat (e_idx e) = vals !! Z.to_nat (e_idx e).
Proof.
  intros Hi He Hne. apply list_lookup_insert_ne.
  pose proof (ent_range _ _ _ _ (pi_emap _ _ _ _ _ _ HI) e He). lia.
Qed.

Lemma pol_known_spec dst e v size :
  t_lookup t (IpAddr dst) = Some e → vals !! Z.to_nat (e_idx e) = Some v → 0 ≤ size →
  let '(fwd, v') := tb_update config v size now in
  ∃ st', policer_check_tb pow2 config st dst_p dst size now = Some (fwd, st') ∧
    pol_inv dst_p range st' (t_refresh t (e_idx e) now) (<[Z.to_nat (e_idx e) := v']> vals) now.
Proof.
  intros El Hv Hsz. pose proof (pi_emap _ _ _ _ _ _ HI) as HE.
  destruct (t_lookup_Some _ _ _ El) as [He _]. pose proof (ent_range _ _ _ _ HE e He) as Hr.
  destruct (pi_vals _ _ _ _ _ _ HI e He) as (v0 & Hv0 & Hbs & Hbt & Ht0).
  assert (v0 = v) as -> by congruence. destruct (pi_sorted _ _ _ _ _ _ HI) as [_ Hle].
  specialize (Hle e He).
  destruct (tb_update_code v size now) as (Hfull & b & Hb & Hbr & Htb); [done|lia|lia|done|].
  cbn zeta in Hb. rewrite Htb. unfold policer_check_tb.
  rewrite (emap_get _ _ _ _ HE dst_p (IpAddr dst) (-1) (pi_stack _ _ _ _ _ _ HI)), El.
  cbn [mbind option_bind]. destruct (Z.eqb_spec 1 0); [lia|]. cbn [negb].
  destruct (emap_refresh _ _ _ _ HE e now He) as (ch' & -> & HE'). cbn [mbind option_bind].
  rewrite vector_borrow_spec by (apply HI || rewrite (pi_cap _ _ _ _ _ _ HI); lia).
  cbn [mbind option_bind]. rewrite deref_addr by apply HI.
  rewrite (pi_cells _ _ _ _ _ _ HI), rd_lookup, Hv by lia. cbn [mbind option_bind].
  destruct (Z.leb_spec 0 now); [|lia]. destruct (Z.leb_spec 0 (bucket_time v)); [|lia].
  cbn [c_assert mbind option_bind].
  destruct (Z.leb_spec (u64 (bucket_time v)) (u64 now)) as [_|Hx];
    [|rewrite !u64_small in Hx; lia].
  cbn [c_assert mbind option_bind]. rewrite Hfull. cbn [mbind option_bind].
  rewrite Hb. cbn [mbind option_bind].
  rewrite (u64_small now), (s64_small now) by lia.
  set (res := if size <? b then (true, u64 (b - size)) else (false, b)).
  assert ((if size <? b then (true, MkValue (u64 (b - size)) now) else (false, MkValue b now)) =
          (res.1, MkValue res.2 now)) as -> by (subst res; by case_match).
  assert (0 ≤ res.2 ≤ burst config) as Hres.
  { subst res. destruct (Z.ltb_spec size b); simpl; [|lia].
    rewrite u64_small; [lia|]. destruct HC as [_ _ Hf _]. unfold tokens_per_second in Hf. lia. }
  destruct res as [fwd s'']. cbn [fst snd] in *.
  rewrite store_addr by (apply HI || rewrite (pi_cap _ _ _ _ _ _ HI); lia). cbn [mbind option_bind].
  eexists. split; [done|]. pose proof vals_length.
  pose proof (ent_idx_NoDup _ _ _ _ HE) as Hnd. pose proof (em_keys _ _ _ _ HE') as Hk.
  constructor; simpl; try apply HI; try done.
  - apply t_refresh_sorted; [apply HI|done].
  - apply vset_ok, HI.
  - by rewrite (pi_cells _ _ _ _ _ _ HI).
  - intros e' [[Hne He']%list_elem_of_filter|(e0 & -> & [Hi0 He0]%list_elem_of_filter)
      %list_elem_of_fmap]%elem_of_app.
    + rewrite vals_other by (done || lia). by apply (pi_vals _ _ _ _ _ _ HI).
    + simpl. rewrite Hi0, list_lookup_insert_eq by lia. eexists. split; [done|]. simpl. lia.
Qed.

Lemma pol_new_spec dst size :
  t_lookup t (IpAddr dst) = None → 0 ≤ size →
  ∃ st', policer_check_tb pow2 config st dst_p dst size now =
           Some ((pol_check config (t, vals) (IpAddr dst) size now).1, st') ∧
    pol_inv dst_p range st' (pol_check config (t, vals) (IpAddr dst) size now).2.1
      (pol_check config (t, vals) (IpAddr dst) size now).2.2 now.
Proof.
  intros El Hsz. pose proof (pi_emap _ _ _ _ _ _ HI) as HE. unfold policer_check_tb, pol_check.
  rewrite El, (emap_get _ _ _ _ HE dst_p (IpAddr dst) (-1) (pi_stack _ _ _ _ _ _ HI)), El.
  cbn [mbind option_bind]. rewrite Z.eqb_refl. cbn [negb].
  destruct (Z.ltb_spec (burst config) size); [by eauto|].
  destruct (t_frees t) as [|i fs] eqn:Hfr.
  { destruct (emap_full _ _ _ _ HE (-1) now) as (ch' & -> & HE').
    { unfold t_full. by rewrite Hfr. }
    cbn [mbind option_bind]. eexists. split; [done|]. simpl. destruct HI. by constructor. }
  destruct (emap_add _ _ _ _ HE (IpAddr dst) (-1) i fs now El Hfr)
    as (ch' & -> & Hi & Hb & Hst & Hput).
  osteps. destruct (Z.eqb_spec 1 0); [lia|]. osteps.
  rewrite vector_borrow_spec by (apply HI || rewrite (pi_cap _ _ _ _ _ _ HI); lia). osteps.
  rewrite store_addr by (apply HI || rewrite (pi_cap _ _ _ _ _ _ HI); lia).
  cbn [mbind option_bind].
  destruct (Hput (with_local (deref (vset (o_vec (dyn st)) i (IpAddr dst))) dst_p (IpAddr dst)))
    as (M' & -> & HE'); [apply sees_local; apply (pi_stack _ _ _ _ _ _ HI)|].
  cbn [mbind option_bind]. eexists. split; [done|]. simpl.
  destruct HC as [_ Hb0 Hf0 _]. unfold tokens_per_second in Hf0.
  rewrite u64_small by lia. pose proof vals_length.
  constructor; simpl; try apply HI; try done.
  - apply t_add_sorted, HI.
  - apply vset_ok, HI.
  - by rewrite (pi_cells _ _ _ _ _ _ HI).
  - unfold t_add. rewrite Hfr. simpl. assert (i ∈ t_frees t) as Hif by (rewrite Hfr; by left).
    destruct (free_range _ _ _ _ HE i Hif) as [_ Hnin].
    intros e [He|He%list_elem_of_singleton]%elem_of_app.
    + rewrite vals_other; [by apply (pi_vals _ _ _ _ _ _ HI)|lia|done|].
      intros <-. apply Hnin. by apply list_elem_of_fmap_2.
    + subst e. simpl. rewrite list_lookup_insert_eq by lia. eexists. split; [done|]. simpl. lia.
Qed.

Lemma pol_check_spec dst size :
  0 ≤ size →
  let '(fwd, (t', vals')) := pol_check config (t, vals) (IpAddr dst) size now in
  ∃ st', policer_check_tb pow2 config st dst_p dst size now = Some (fwd, st') ∧
    pol_inv dst_p range st' t' vals' now.
Proof.
  intros Hsz. destruct (t_lookup t (IpAddr dst)) as [e|] eqn:El.
  - destruct (t_lookup_Some _ _ _ El) as [He _].
    destruct (pi_vals _ _ _ _ _ _ HI e He) as (v & Hv & _).
    pose proof (pol_known_spec dst e v size El Hv Hsz) as Hk. unfold pol_check.
    rewrite El, Hv. by destruct (tb_update config v size now).
  - destruct (pol_new_spec dst size El Hsz) as (st' & ? & ?).
    destruct (pol_check _ _ _ _ _) as [fwd [t' vals']]. eauto.
Qed.

End check.

Lemma ipv4_dst_load pk tail :
  received pk tail → ipv4_ok (buf pk) (global_total_length pk) = true →
  ∃ a, ipv4_dst pk = Some a ∧ load32 (after_ipv4 pk) (base pk + 14 + dst_addr_off) = Some a.
Proof.
  intros HR Hip. unfold ipv4_dst. rewrite Hip.
  apply (ipv4_word pk tail); [done|done|unfold dst_addr_off; lia].
Qed.

Lemma pol_process_spec dst_p range before now device st t vals pk tail :
  pol_inv dst_p range st t vals before → before ≤ now → 0 ≤ now < 2 ^ 63 → received pk tail →
  let '(dev, (t', vals')) :=
    pol_spec config (t, vals) device (global_total_length pk) now (ipv4_dst pk) in
  ∃ pk' st', nf_process pow2 config st dst_p device (global_total_length pk) now pk =
               Some (dev, pk', st') ∧
    pol_inv dst_p range st' t' vals' now ∧ buf pk' = buf pk ∧ nf_return_all_chunks pk' = pk.
Proof.
  intros HI0 Hle Hnow HR. unfold nf_process, pol_spec.
  rewrite (ether_header_spec pk tail HR). cbn [mbind option_bind].
  rewrite (ipv4_header_spec pk tail HR). cbn [mbind option_bind].
  destruct (after_ipv4_frame pk) as (Hb & Hbuf & Ht & r & Hr). pose proof (rc_base _ _ HR).
  assert (nf_return_all_chunks (after_ipv4 pk) = pk) as Hret.
  { rewrite (return_chunks_rewinds pk _ r Hb Hr), Hb, Hbuf, Ht. destruct HR, pk; simpl in *; by subst. }
  destruct (ipv4_ok (buf pk) (global_total_length pk)) eqn:Hip.
  2: { unfold ipv4_dst. rewrite Hip, Z.eqb_refl. eexists _, _. split_and!; try done.
       destruct HI0. constructor; try done. by eapply t_sorted_mono. }
  rewrite not_null by (unfold NULL; lia).
  destruct (pol_expire_spec dst_p range st t vals before now HI0 Hle Hnow) as (n & st1 & -> & HI).
  cbn [mbind option_bind]. destruct (ipv4_dst_load pk tail HR Hip) as (a & -> & Hld).
  cbn [fst snd]. destruct (device =? lan_device config); [by eauto 8|].
  destruct (device =? wan_device config); [|by eauto 8].
  rewrite Hld. cbn [mbind option_bind]. pose proof (rc_total _ _ HR).
  pose proof (pol_check_spec dst_p range now st1 _ vals HI Hnow a (global_total_length pk)) as Hc.
  destruct (pol_check _ _ _ _ _) as [fwd [t' vals']]. destruct Hc as (st2 & -> & HI2); [lia|].
  cbn [mbind option_bind]. destruct fwd; eauto 8.
Qed.

(** *** Levels

    The level of a destination at time [T]: what its bucket would hold, a token
    counted as [w] and each nanosecond since its last use as [slope].  The weights
    are such that a bucket is full in this measure whenever the policer takes it
    to be full. *)

Record weights (w slope : Z) : Prop := Weights {
  wt_w : 0 ≤ w;
  wt_slope : 0 ≤ slope;
  wt_refill : w * rate config ≤ tokens_per_second * slope;
  wt_full : w * burst config ≤ slope * (burst config * tokens_per_second / rate config)
}.

Context (w slope : Z).
Hypothesis HW : weights w slope.

Definition full_level : Z := w * burst config.

Definition level (s : table ip_addr * list DynamicValue) (dst : ip_addr) (T : Z) : Z :=
  match t_lookup s.1 dst with
  | Some e =>
      match s.2 !! Z.to_nat (e_idx e) with
      | Some v => Z.min full_level (w * bucket_size v + slope * (T - bucket_time v))
      | None => full_level
      end
  | None => full_level
  end.

Lemma level_le_full s dst T : level s dst T ≤ full_level.
Proof. unfold level. repeat case_match; lia. Qed.

Lemma level_nonneg dst_p range st t vals now dst :
  pol_inv dst_p range st t vals now → 0 ≤ level (t, vals) dst now.
Proof.
  intros HI. unfold level. cbn [fst snd]. destruct HC as [Hr Hb0 _ _], HW as [Hw Hsl _ _].
  unfold full_level.
  destruct (t_lookup t dst) as [e|] eqn:El; [|lia]. apply t_lookup_Some in El as [He _].
  destruct (pi_vals _ _ _ _ _ _ HI e He) as (v & -> & Hbs & Hbt & _).
  pose proof (proj2 (pi_sorted _ _ _ _ _ _ HI) e He). nia.
Qed.

Lemma level_advance s dst T T' :
  T ≤ T' → level s dst T' ≤ level s dst T + slope * (T' - T).
Proof.
  intros HT. destruct HW as [_ Hsl _ _]. unfold level.
  repeat case_match; nia.
Qed.

(** The tokens a bucket has after its refill do not exceed its level. *)
Lemma tb_update_level v size now fwd v' :
  0 ≤ bucket_size v ≤ burst config → bucket_time v ≤ now →
  tb_update config v size now = (fwd, v') →
  w * (if fwd then size else 0) + w * bucket_size v' ≤
    Z.min full_level (w * bucket_size v + slope * (now - bucket_time v)).
Proof.
  intros Hs Ht. unfold tb_update. destruct HW as [Hw Hsl Hre Hfull].
  set (b := if now - bucket_time v <? _ then _ else burst config).
  assert (w * b ≤ Z.min full_level (w * bucket_size v + slope * (now - bucket_time v))) as Hb.
  { subst b. unfold full_level. set (d := now - bucket_time v) in *. assert (0 ≤ d) by (subst d; lia).
    destruct (Z.ltb_spec d (burst config * tokens_per_second / rate config)).
    - set (q := d * rate config / tokens_per_second).
      assert (tokens_per_second * q ≤ d * rate config) as Hq
        by (apply Z.mul_div_le; unfold tokens_per_second; lia).
      assert (w * q ≤ slope * d) as Hwq.
      { apply (Z.mul_le_mono_pos_l _ _ tokens_per_second); [unfold tokens_per_second; lia|].
        transitivity (w * (d * rate config)); [nia|]. nia. }
      apply Z.min_glb; [apply Z.mul_le_mono_nonneg_l; lia|].
      transitivity (w * (bucket_size v + q)); [apply Z.mul_le_mono_nonneg_l; lia|lia].
    - assert (slope * (burst config * tokens_per_second / rate config) ≤ slope * d)
        by (apply Z.mul_le_mono_nonneg_l; lia). apply Z.min_glb; [lia|nia]. }
  destruct (Z.ltb_spec size b); intros; simplify_eq; cbn [bucket_size]; lia.
Qed.

Lemma level_check dst_p range st t vals now dst dst' size fwd t' vals' :
  pol_inv dst_p range st t vals now → 0 ≤ now < 2 ^ 63 → 0 ≤ size →
  pol_check config (t, vals) (IpAddr dst) size now = (fwd, (t', vals')) →
  w * (if fwd && bool_decide (dst' = IpAddr dst) then size else 0) +
    level (t', vals') dst' now ≤ level (t, vals) dst' now.
Proof.
  intros HI Hnow Hsz Hck. pose proof (pi_emap _ _ _ _ _ _ HI) as HE.
  pose proof (pol_check_spec dst_p range now st t vals HI Hnow dst size Hsz) as Hsp.
  rewrite Hck in Hsp. destruct Hsp as (st' & _ & HI').
  pose proof (em_keys _ _ _ _ (pi_emap _ _ _ _ _ _ HI')) as Hnd'.
  pose proof (ent_idx_NoDup _ _ _ _ HE) as Hni.
  pose proof (vals_length dst_p range now st t vals HI) as Hlen.
  unfold pol_check in Hck. destruct (t_lookup t (IpAddr dst)) as [e|] eqn:El.
  - destruct (t_lookup_Some _ _ _ El) as [He Hk].
    destruct (pi_vals _ _ _ _ _ _ HI e He) as (v & Hv & Hbs & Hbt & _).
    pose proof (proj2 (pi_sorted _ _ _ _ _ _ HI) e He) as Hle.
    pose proof (ent_range _ _ _ _ HE e He) as Her.
    rewrite Hv in Hck. destruct (tb_update config v size now) as [f v'] eqn:Etb.
    injection Hck as <- <- <-. unfold level. cbn [fst snd].
    rewrite t_lookup_refresh by done. rewrite Hk. case_decide as Hd.
    + subst dst'. rewrite bool_decide_eq_true_2, andb_true_r by done. cbn [e_idx].
      rewrite list_lookup_insert_eq by lia. rewrite El, Hv.
      pose proof (tb_update_level v size now f v' Hbs ltac:(lia) Etb).
      destruct (tb_update_bounds v size now f v' Hbs ltac:(lia) Hsz Etb) as [_ ->]. lia.
    + rewrite bool_decide_eq_false_2, andb_false_r by done.
      destruct (t_lookup t dst') as [e'|] eqn:El'; [|lia].
      destruct (t_lookup_Some _ _ _ El') as [He' Hk'].
      rewrite (vals_other dst_p range now st t vals HI) by (done || lia || (intros Hi;
        apply Hd; rewrite <- Hk', <- Hk; pose proof (t_entry_elem t e Hni He);
        pose proof (t_entry_elem t e' Hni He'); congruence)). lia.
  - destruct (Z.ltb_spec (burst config) size); [injection Hck as <- <- <-; simpl; lia|].
    destruct (t_frees t) as [|i fs] eqn:Hfr; [injection Hck as <- <- <-; simpl; lia|].
    injection Hck as <- <- <-. assert (i ∈ t_frees t) as Hif by (rewrite Hfr; by left).
    destruct (free_range _ _ _ _ HE i Hif) as [Hir Hnin].
    unfold level. cbn [fst snd andb]. rewrite (t_lookup_add t _ i fs) by done. case_decide as Hd.
    + subst dst'. rewrite bool_decide_eq_true_2 by done. cbn [e_idx].
      rewrite list_lookup_insert_eq, El by lia. cbn [bucket_size bucket_time].
      unfold full_level. lia.
    + rewrite bool_decide_eq_false_2 by done.
      destruct (t_lookup t dst') as [e'|] eqn:El'; [|lia].
      destruct (t_lookup_Some _ _ _ El') as [He' Hk'].
      rewrite (vals_other dst_p range now st t vals HI); [lia|lia|done|].
      intros <-. apply Hnin. by apply list_elem_of_fmap_2.
Qed.

(** A bucket is also full when its entry expires. *)
Hypothesis Hexp : w * burst config ≤ slope * (tokens_per_second * (burst config / rate config)).

(** Expiration forgets only full buckets. *)
Lemma level_expire dst_p range st t vals now dst :
  pol_inv dst_p range st t vals now →
  level (pol_expire config t now, vals) dst now = level (t, vals) dst now.
Proof.
  intros HI. unfold level, pol_expire, t_expire. cbn [fst snd].
  pose proof (drop_old_sorted (ents t) (t_frees t)
    (now - tokens_per_second * (burst config / rate config))
    (proj1 (pi_sorted _ _ _ _ _ _ HI))) as Hents.
  destruct (drop_old _ _ _) as [es fs]. simpl in Hents. subst es.
  rewrite t_lookup_filter by apply (em_keys _ _ _ _ (pi_emap _ _ _ _ _ _ HI)).
  destruct (t_lookup t dst) as [e|] eqn:El; [|done]. case_decide as Hk; [done|].
  apply t_lookup_Some in El as [He _].
  destruct (pi_vals _ _ _ _ _ _ HI e He) as (v & -> & Hbs & Hbt & _).
  rewrite Z.min_l; [done|]. destruct HW as [Hw Hsl _ _]. unfold full_level.
  assert (slope * (tokens_per_second * (burst config / rate config)) ≤ slope * (now - bucket_time v))
    by (apply Z.mul_le_mono_nonneg_l; lia). nia.
Qed.

(** *** Executions *)

Lemma level_process dst_p range before now device st t vals pk tail dst :
  pol_inv dst_p range st t vals before → before ≤ now → 0 ≤ now < 2 ^ 63 → received pk tail →
  let '(dev, s') := pol_spec config (t, vals) device (global_total_length pk) now (ipv4_dst pk) in
  w * forwarded config dst device pk dev + level s' dst now ≤
    level (t, vals) dst before + slope * (now - before).
Proof.
  intros HI Hle Hnow HR. pose proof (level_advance (t, vals) dst before now Hle) as Hadv.
  assert (pol_inv dst_p range st t vals now) as HIn
    by (destruct HI; constructor; try done; by eapply t_sorted_mono).
  pose proof (level_expire dst_p range st t vals now dst HIn) as Hex.
  destruct (pol_expire_spec dst_p range st t vals before now HI Hle Hnow) as (_ & st1 & _ & HI1).
  destruct HC as [_ _ _ Hdev]. unfold pol_spec, forwarded.
  destruct (ipv4_dst pk) as [a|]; [|rewrite !andb_false_r; lia]. cbn [fst snd].
  destruct (Z.eqb_spec device (lan_device config)) as [->|Hl].
  { destruct (Z.eqb_spec (lan_device config) (wan_device config)); [done|]. simpl. lia. }
  destruct (Z.eqb_spec device (wan_device config)) as [->|Hw]; [|simpl; lia].
  pose proof (rc_total _ _ HR) as Ht.
  destruct (pol_check config (pol_expire config t now, vals) (IpAddr a) (global_total_length pk) now)
    as [fwd [t' vals']] eqn:Ec.
  pose proof (level_check dst_p range st1 _ vals now a dst (global_total_length pk) fwd t' vals' HI1 Hnow
    ltac:(lia) Ec) as Hlc.
  destruct fwd; cbn [andb] in *.
  - rewrite Z.eqb_refl. cbn [andb]. destruct (decide (dst = IpAddr a)) as [->|Hne].
    + rewrite bool_decide_eq_true_2 in Hlc by done. rewrite bool_decide_eq_true_2 by done. lia.
    + rewrite bool_decide_eq_false_2 in Hlc by done. rewrite bool_decide_eq_false_2; [lia|].
      destruct dst. simpl. congruence.
  - destruct (Z.eqb_spec (wan_device config) (lan_device config)); [done|]. simpl. lia.
Qed.

(** Over any run of packets the tokens bound the forwarded bytes. *)
Lemma pol_run_level dst_p range evs before st t vals dst :
  pol_inv dst_p range st t vals before → 0 ≤ before → events_ok before evs →
  ∃ outs st' t' vals', pol_run pow2 config dst_p evs st = Some (outs, st') ∧
    pol_inv dst_p range st' t' vals' (last_now before evs) ∧
    w * total_forwarded config dst evs outs + level (t', vals') dst (last_now before evs) ≤
      level (t, vals) dst before + slope * (last_now before evs - before).
Proof.
  revert before st t vals. induction evs as [|ev evs IH]; intros before st t vals HI Hb Hok.
  - exists [], st, t, vals. simpl. split_and!; [done|done|lia].
  - destruct Hok as (Hle & Hn & (tail & HR) & Hok). cbn [pol_run last_now].
    pose proof (pol_process_spec dst_p range before (ev_now ev) (ev_device ev) st t vals
      (ev_packet ev) tail HI Hle ltac:(lia) HR) as Hp.
    pose proof (level_process dst_p range before (ev_now ev) (ev_device ev) st t vals
      (ev_packet ev) tail dst HI Hle ltac:(lia) HR) as Hl.
    destruct (pol_spec _ _ _ _ _ _) as [dev [t1 vals1]].
    destruct Hp as (pk' & st1 & -> & HI1 & _). cbn [mbind option_bind].
    destruct (IH (ev_now ev) st1 t1 vals1 HI1 ltac:(lia) Hok)
      as (outs & st' & t' & vals' & -> & HI' & Hl').
    cbn [mbind option_bind]. eexists _, _, _, _. split_and!; [done|done|].
    cbn [total_forwarded]. lia.
Qed.

End proofs.

(** ** Main results *)

(** C16: the policer implements its contract.  For any received packet,
    [nf_process] runs without undefined behaviour or failed assertion, its
    64-bit bucket arithmetic never wraps, its output device and the table and
    buckets it leaves are those of the contract, the bytes of the packet are
    unchanged, the returned chunks rewind it, and the invariant holds again. *)
Theorem pol_process_refines_spec `{KeyLaws ip_addr} (pow2 : bool) (config : nf_config)
    (dst_p range before now device : Z) (st : State) (t : table ip_addr)
    (vals : list DynamicValue) (pk : packet) (tail : Z) :
  config_ok config → pol_inv pow2 config dst_p range st t vals before → before ≤ now →
  0 ≤ now < 2 ^ 63 → received pk tail →
  let '(dev, (t', vals')) :=
    pol_spec config (t, vals) device (global_total_length pk) now (ipv4_dst pk) in
  ∃ pk' st', nf_process pow2 config st dst_p device (global_total_length pk) now pk =
               Some (dev, pk', st') ∧
    pol_inv pow2 config dst_p range st' t' vals' now ∧ buf pk' = buf pk ∧
    nf_return_all_chunks pk' = pk.
Proof. intros HC. apply (pol_process_spec pow2 config HC). Qed.

(** The weights of the policer: the burst is spread over the time after which entries expire, and,
    when the rate divides the burst, tokens flow at the rate. *)
Lemma expiration_weights config : config_ok config →
  weights config (tokens_per_second * (burst config / rate config)) (burst config).
Proof.
  intros [Hr Hb _ _]. pose proof (Z.mul_div_le (burst config) (rate config) ltac:(lia)) as Hq.
  assert (0 ≤ burst config / rate config) as Hp by (apply Z.div_pos; lia).
  set (q := burst config / rate config) in *. clearbody q.
  constructor; unfold tokens_per_second; [lia|lia|lia|].
  rewrite Z.mul_comm. apply Z.mul_le_mono_nonneg_l; [lia|]. apply Z.div_le_lower_bound; lia.
Qed.

Lemma exact_weights config : config_ok config → (rate config | burst config) →
  weights config tokens_per_second (rate config) ∧
  tokens_per_second * burst config ≤ rate config * (tokens_per_second * (burst config / rate config)).
Proof.
  intros [Hr Hb _ _] [q Hq]. rewrite Hq, Z.div_mul by lia.
  split; [|unfold tokens_per_second; lia].
  constructor; rewrite ?Hq; unfold tokens_per_second; try lia.
  replace (q * rate config * 1000000000) with (q * 1000000000 * rate config) by ring.
  rewrite Z.div_mul by lia. lia.
Qed.

Lemma rate_bound `{KeyLaws ip_addr} (pow2 : bool) (config : nf_config) (w slope : Z)
    (dst_p range before : Z) (st : State) (t : table ip_addr) (vals : list DynamicValue)
    (evs : list event) (dst : ip_addr) :
  config_ok config → weights config w slope →
  w * burst config ≤ slope * (tokens_per_second * (burst config / rate config)) →
  pol_inv pow2 config dst_p range st t vals before → 0 ≤ before → events_ok before evs →
  ∃ outs st', pol_run pow2 config dst_p evs st = Some (outs, st') ∧
    w * total_forwarded config dst evs outs ≤
      w * burst config + slope * (last_now before evs - before).
Proof.
  intros HC HW Hexp HI Hb Hok.
  destruct (pol_run_level pow2 config HC w slope HW Hexp dst_p range evs before st t vals dst HI Hb Hok)
    as (outs & st' & t' & vals' & Hrun & HI' & Hl).
  exists outs, st'. split; [done|].
  pose proof (level_le_full config w slope (t, vals) dst before) as Hf. unfold full_level in Hf.
  pose proof (level_nonneg pow2 config HC w slope HW dst_p range st' t' vals' _ dst HI'). lia.
Qed.

(** C17: the rate is enforced.  Let the two devices differ, the rate be positive
    and the burst be below 2^63 / 10^9 bytes ([config_ok]: the code computes with
    tokens per nanosecond).  For every destination and every sequence of packets
    in time order, whatever the other traffic, the expirations and the
    re-creations of its entry, the bytes that the policer forwards to the
    destination between the first instant and the last are at most the burst
    plus one burst for every [burst / rate] seconds (rounded down) that have
    elapsed.  When the rate divides the burst, this is the burst plus the rate
    times the elapsed time.  When the burst is below the rate, it is no bound,
    and there is none, see [policer_small_burst_unlimited]. *)
Theorem policer_rate_conformance `{KeyLaws ip_addr} (pow2 : bool) (config : nf_config)
    (dst_p range before : Z) (st : State) (t : table ip_addr) (vals : list DynamicValue)
    (evs : list event) (dst : ip_addr) :
  config_ok config → pol_inv pow2 config dst_p range st t vals before → 0 ≤ before →
  events_ok before evs →
  let seconds := burst config / rate config in
  let elapsed := last_now before evs - before in
  ∃ outs st', pol_run pow2 config dst_p evs st = Some (outs, st') ∧
    tokens_per_second * seconds * total_forwarded config dst evs outs ≤
      tokens_per_second * seconds * burst config + burst config * elapsed ∧
    ((rate config | burst config) →
     tokens_per_second * total_forwarded config dst evs outs ≤
       tokens_per_second * burst config + rate config * elapsed).
Proof.
  intros HC HI Hb Hok seconds elapsed.
  destruct (rate_bound pow2 config _ _ dst_p range before st t vals evs dst HC (expiration_weights config HC)
    ltac:(lia) HI Hb Hok) as (outs & st' & Hrun & Hl).
  exists outs, st'. split_and!; [done|exact Hl|]. intros Hdiv.
  destruct (exact_weights config HC Hdiv) as [HW Hexp].
  destruct (rate_bound pow2 config _ _ dst_p range before st t vals evs dst HC HW Hexp HI Hb Hok)
    as (outs2 & st2 & Hrun2 & Hl2). rewrite Hrun in Hrun2. by injection Hrun2 as <- <-.
Qed.

(** A burst below the rate is not policed.  When the burst is smaller than
    the rate, the expiration time that the policer computes is zero, and a
    packet for any destination that is not larger than the burst and arrives
    after the previous one is forwarded, however many have been: the entries
    and their buckets are forgotten before they are looked at. *)
Theorem policer_small_burst_unlimited `{KeyLaws ip_addr} (pow2 : bool) (config : nf_config)
    (dst_p range before now a : Z) (st : State) (t : table ip_addr)
    (vals : list DynamicValue) (pk : packet) (tail : Z) :
  config_ok config → pol_inv pow2 config dst_p range st t vals before → before < now →
  0 ≤ now < 2 ^ 63 → received pk tail → ipv4_dst pk = Some a →
  burst config < rate config → global_total_length pk ≤ burst config →
  ∃ pk' st', nf_process pow2 config st dst_p (wan_device config) (global_total_length pk) now pk =
               Some (lan_device config, pk', st').
Proof.
  intros HC HI Hlt Hnow HR Ha Hbr Hsz.
  pose proof (pol_process_spec pow2 config HC dst_p range before now (wan_device config) st t vals
    pk tail HI ltac:(lia) Hnow HR) as Hp.
  destruct (pol_expire_spec pow2 config HC dst_p range st t vals before now HI ltac:(lia) Hnow)
    as (_ & st1 & _ & HI1).
  unfold pol_spec in Hp. rewrite Ha in Hp. destruct HC as [Hr Hb0 _ Hdev].
  destruct (Z.eqb_spec (wan_device config) (lan_device config)); [congruence|].
  rewrite Z.eqb_refl in Hp. cbn [fst snd] in Hp.
  assert (ents (pol_expire config t now) = []) as Hnil.
  { unfold pol_expire, t_expire. destruct (pi_sorted _ _ _ _ _ _ _ _ HI) as [Hs Hn].
    rewrite drop_old_sorted by done. apply filter_none. intros e He. specialize (Hn e He).
    rewrite Z.div_small by lia. lia. }
  unfold pol_check in Hp. unfold t_lookup in Hp. rewrite Hnil in Hp. simpl in Hp.
  destruct (Z.ltb_spec (burst config) (global_total_length pk)); [lia|].
  pose proof (ents_length _ _ _ _ (pi_emap _ _ _ _ _ _ _ _ HI1)) as Hl. rewrite Hnil in Hl.
  pose proof (emap_capacity _ _ _ _ (pi_emap _ _ _ _ _ _ _ _ HI1)) as [Hpos _].
  destruct (t_frees (pol_expire config t now)) as [|i fs]; [simpl in Hl; lia|].
  destruct Hp as (pk' & st' & Hp & _). eauto.
Qed.

(** ** Concrete instances *)

Definition demo_ip_ops : KeyOps ip_addr := {|
  key_eq := λ a b, bool_decide (a = b);
  key_hash := λ a, ip a mod 2
|}.

#[local] Existing Instance demo_ip_ops.

#[local] Instance demo_ip_laws : KeyLaws ip_addr.
Proof.
  constructor; simpl.
  - intros a b. apply bool_decide_eq_true.
  - intros a. pose proof (Z.mod_pos_bound (ip a) 2). lia.
Qed.

(** A rate of 100 bytes per second with a burst of 200, resp. of 80 bytes. *)
Definition demo_pol_config (burst : Z) : nf_config := MkConfig 0 1 100 burst 3.

Lemma demo_pol_config_ok b : 0 ≤ b ≤ 200 → config_ok (demo_pol_config b).
Proof. intros. constructor; simpl; unfold tokens_per_second; lia. Qed.

Definition demo_pol_state : State :=
  MkState (demo_table 4 (IpAddr 0)) (MkVector 2000 16 3 (replicate 3 (MkValue 0 0))).

Lemma demo_pol_inv config :
  pol_inv false config 8 3 demo_pol_state (Table [] [0; 1; 2]) (replicate 3 (MkValue 0 0)) 0.
Proof.
  constructor; simpl; try done.
  - by apply demo_table_ok.
  - split; [constructor|]. intros e He. by apply elem_of_nil in He.
  - intros e He. by apply elem_of_nil in He.
  - intros i Hi. unfold addr. simpl in *. lia.
Qed.

Lemma pol_process_refines_spec_witness :
  ∃ pk' st', nf_process false (demo_pol_config 200) demo_pol_state 8 1 60 5 demo_packet =
    Some (0, pk', st').
Proof.
  pose proof (pol_process_refines_spec false (demo_pol_config 200) 8 3 0 5 1 demo_pol_state _ _
    demo_packet 20 (demo_pol_config_ok 200 ltac:(lia)) (demo_pol_inv _) ltac:(lia) ltac:(lia)
    demo_packet_received) as Hs.
  destruct (pol_spec _ _ _ _ _ _) as [dev [t' vals']] eqn:E. vm_compute in E. injection E as <- <- <-.
  destruct Hs as (pk' & st' & Hp & _). exists pk', st'. exact Hp.
Defined.

(** Five packets of 60 bytes within 4 ns: the burst lets three of them pass. *)
Definition demo_flood : list event :=
  [Event 1 1 demo_packet; Event 1 2 demo_packet; Event 1 3 demo_packet; Event 1 4 demo_packet;
   Event 1 5 demo_packet].

Lemma policer_rate_conformance_witness :
  ∃ outs st', pol_run false (demo_pol_config 200) 8 demo_flood demo_pol_state = Some (outs, st') ∧
    tokens_per_second *
      total_forwarded (demo_pol_config 200) (IpAddr 33554442) demo_flood outs ≤
      tokens_per_second * 200 + 100 * 5.
Proof.
  destruct (policer_rate_conformance false (demo_pol_config 200) 8 3 0 demo_pol_state
    (Table [] [0; 1; 2]) (replicate 3 (MkValue 0 0)) demo_flood (IpAddr 33554442))
    as (outs & st' & Hr & _ & Hb).
  - by apply demo_pol_config_ok.
  - apply demo_pol_inv.
  - lia.
  - repeat split; simpl; try lia; exists 20; apply demo_packet_received.
  - exists outs, st'. split; [exact Hr|]. apply Hb. by exists 2.
Defined.

Example demo_flood_outputs :
  fst <$> pol_run false (demo_pol_config 200) 8 demo_flood demo_pol_state =
    Some [0; 0; 0; 1; 1].
Proof. vm_compute. reflexivity. Qed.

Lemma policer_small_burst_unlimited_witness :
  ∃ pk' st', nf_process false (demo_pol_config 80) demo_pol_state 8 1 60 5 demo_packet =
    Some (0, pk', st').
Proof.
  eapply (policer_small_burst_unlimited false (demo_pol_config 80) 8 3 0 5 33554442 demo_pol_state
    _ _ demo_packet 20);
    [by apply demo_pol_config_ok|apply demo_pol_inv|lia|lia|apply demo_packet_received|
     vm_compute; reflexivity|simpl; lia|simpl; lia].
Defined.

(** The same five packets all pass when the burst is below the rate. *)
Example demo_flood_unpoliced :
  fst <$> pol_run false (demo_pol_config 80) 8 demo_flood demo_pol_state =
    Some [0; 0; 0; 0; 0].
Proof. vm_compute. reflexivity. Qed.
