(* ===== verification/PoliFw.v ===== *)
(** * vigpolifw and vigpoliupfw: the firewall combined with the policer

    fw_flowmanager.c and fw_main.c of the two functions.  Every TCP or UDP
    packet goes through the firewall and through the policer; it is forwarded
    when both let it pass.  vigpolifw polices what comes from the external
    device, vigpoliupfw what leaves through it; the two flow managers are the
    same text.  The rate and the burst of the configuration are 64 bits wide
    and the policer takes them as 16-bit arguments. *)
From stdpp Require Import base list gmap numbers sets.
From Stdlib Require Import ZArith Lia.
From S2P Require Import Prelude.
From S2P Require Import Memory.
From S2P Require Import MapImpl.
From S2P Require Import Map.
From S2P Require Import Vector.
From S2P Require Import DChainImpl.
From S2P Require Import DChain.
From S2P Require Import Emap.
From S2P Require Import Expirator.
From S2P Require Import Packet.
From S2P Require Import Fw.
From S2P Require Import Pol.

(** struct nf_config *)
Record nf_config := MkConfig {
  wan_device : Z;
  device_macs : list (list Z);
  endpoint_macs : list (list Z);
  cfg_expiration_time : Z;
  cfg_max_flows : Z;
  lan_device : Z;
  rate : Z;
  burst : Z;
  dyn_capacity : Z
}.

(** The generated struct State. *)
Record State := MkState {
  flows : emap_objs FlowId;
  int_devices : Vector Z;
  dyn : emap_objs ip_addr;
  dyn_vals : Vector DynamicValue;
  max_flows : Z;
  fw_device : Z
}.

(** struct FlowManager *)
Record FlowManager := MkManager {
  state : State;
  expiration_time : Z
}.

Definition set_tables (m : FlowManager) (o : emap_objs FlowId) (devs : Vector Z) : FlowManager :=
  MkManager (MkState o devs (dyn (state m)) (dyn_vals (state m)) (max_flows (state m))
               (fw_device (state m))) (expiration_time m).

Definition set_dyn (m : FlowManager) (o : emap_objs ip_addr) (vals : Vector DynamicValue)
    : FlowManager :=
  MkManager (MkState (flows (state m)) (int_devices (state m)) o vals (max_flows (state m))
               (fw_device (state m))) (expiration_time m).

Section polifw.
Context `{KeyOps FlowId} `{KeyOps ip_addr}.
Variable pow2 : bool.
(** The generated allocation function of the state. *)
Variable alloc_state : Z → Z → Z → Z → M (option State).

Definition flow_manager_allocate (fw_device expiration_time max_flows capacity dev_count : Z)
    : M (option FlowManager) :=
  manager ← malloc 16;
  if manager =? NULL then mret None else
  st ← alloc_state max_flows fw_device capacity dev_count;
  match st with
  | None => mret None
  | Some st => mret (Some (MkManager st expiration_time))
  end.

Definition nf_init (config : nf_config) (rte_eth_dev_count_avail : Z)
    : M (bool * option FlowManager) :=
  flow_manager ← flow_manager_allocate (wan_device config) (cfg_expiration_time config)
    (cfg_max_flows config) (dyn_capacity config) rte_eth_dev_count_avail;
  mret (match flow_manager with Some _ => true | None => false end, flow_manager).

Definition flow_manager_allocate_or_refresh_flow (m : FlowManager) (id_p : Z) (id : FlowId)
    (internal_device time : Z) : option FlowManager :=
  let o := flows (state m) in
  '(found, index) ← map_get pow2 (with_local (deref (o_vec o)) id_p id) (o_map o) id_p 0;
  if negb (found =? 0) then
    '(_, heap) ← dchain_rejuvenate_index (o_chain o) index time;
    Some (set_tables m (Objs (o_map o) (o_vec o) heap) (int_devices (state m)))
  else
  '(ok, heap, index) ← dchain_allocate_new_index (o_chain o) index time;
  if ok =? 0 then
    Some (set_tables m (Objs (o_map o) (o_vec o) heap) (int_devices (state m)))
  else
  key ← vector_borrow (o_vec o) index;
  fv ← store (o_vec o) key id;
  fm ← map_put pow2 (with_local (deref fv) id_p id) (o_map o) key index;
  let fv := vector_return fv index key in
  int_dev ← vector_borrow (int_devices (state m)) index;
  devs ← store (int_devices (state m)) int_dev internal_device;
  Some (set_tables m (Objs fm fv heap) (vector_return devs index int_dev)).

Definition flow_manager_expire (m : FlowManager) (time : Z) : option FlowManager :=
  _ ← c_assert (0 <=? time);
  let time_u := u64 time in
  us ← int64_chk (expiration_time m * 1000);
  let last_time := s64 (u64 (time_u - u64 us)) in
  let o := flows (state m) in
  '(_, heap, fm) ← expire_items_single_map pow2 (o_chain o) (o_vec o) (o_map o) last_time;
  Some (set_tables m (Objs fm (o_vec o) heap) (int_devices (state m))).

(** The device of the flow when there is one, and the manager. *)
Definition flow_manager_get_refresh_flow (m : FlowManager) (id_p : Z) (id : FlowId) (time : Z)
    : option (option Z * FlowManager) :=
  let o := flows (state m) in
  '(found, index) ← map_get pow2 (with_local (deref (o_vec o)) id_p id) (o_map o) id_p 0;
  if found =? 0 then Some (None, m) else
  int_dev ← vector_borrow (int_devices (state m)) index;
  internal_device ← deref (int_devices (state m)) int_dev;
  let devs := vector_return (int_devices (state m)) index int_dev in
  '(_, heap) ← dchain_rejuvenate_index (o_chain o) index time;
  Some (Some internal_device, set_tables m (Objs (o_map o) (o_vec o) heap) devs).

(** [burst] and [rate] are 16 bits wide.  Returns the number of expired entries
    and the manager. *)
Definition policer_expire_entries (m : FlowManager) (time burst rate : Z)
    : option (Z * FlowManager) :=
  _ ← c_assert (0 <=? time);
  q ← u64_div burst rate;
  let exp_time := s64 (u64 (VIGOR_TIME_SECONDS_MULTIPLIER * q)) in
  let time_u := u64 time in
  let min_time := s64 (u64 (time_u - u64 exp_time)) in
  let o := dyn (state m) in
  '(n, heap, map) ← expire_items_single_map pow2 (o_chain o) (o_vec o) (o_map o) min_time;
  Some (n, set_dyn m (Objs map (o_vec o) heap) (dyn_vals (state m))).

Definition policer_check_tb (m : FlowManager) (dst_p dst size time burst rate : Z)
    : option (bool * FlowManager) :=
  let o := dyn (state m) in
  let dv := dyn_vals (state m) in
  '(present, index) ← map_get pow2 (with_local (deref (o_vec o)) dst_p (IpAddr dst)) (o_map o)
                        dst_p (-1);
  if negb (present =? 0) then
    '(_, heap) ← dchain_rejuvenate_index (o_chain o) index time;
    value ← vector_borrow dv index;
    v ← deref dv value;
    _ ← c_assert (0 <=? time);
    let time_u := u64 time in
    _ ← c_assert (0 <=? bucket_time v);
    _ ← c_assert (u64 (bucket_time v) <=? time_u);
    let time_diff := u64 (time_u - u64 (bucket_time v)) in
    full ← u64_div (u64 (burst * VIGOR_TIME_SECONDS_MULTIPLIER)) rate;
    size' ← (if time_diff <? full then
               added_tokens ← u64_div (u64 (time_diff * rate)) VIGOR_TIME_SECONDS_MULTIPLIER;
               _ ← c_assert (bucket_size v <=? burst);
               let bs := u64 (bucket_size v + added_tokens) in
               Some (if burst <? bs then burst else bs)
             else Some burst);
    let '(fwd, size'') := if size <? size' then (true, u64 (size' - size)) else (false, size') in
    vals ← store dv value (MkValue size'' (s64 time_u));
    Some (fwd, set_dyn m (Objs (o_map o) (o_vec o) heap) (vector_return vals index value))
  else
    if burst <? size then Some (false, m) else
    '(allocated, heap, index) ← dchain_allocate_new_index (o_chain o) index time;
    if allocated =? 0 then Some (false, set_dyn m (Objs (o_map o) (o_vec o) heap) dv) else
    key ← vector_borrow (o_vec o) index;
    value ← vector_borrow dv index;
    keys ← store (o_vec o) key (IpAddr dst);
    vals ← store dv value (MkValue (u64 (burst - size)) time);
    map ← map_put pow2 (with_local (deref keys) dst_p (IpAddr dst)) (o_map o) key index;
    Some (true, set_dyn m (Objs map (vector_return keys index key) heap)
                  (vector_return vals index value)).

(** The firewall: the device the packet should go to, its own for a drop. *)
Definition nf_process_firewall (config : nf_config) (m0 : FlowManager) (id_p device : Z)
    (pk : packet) (rte_ipv4_header tcpudp_header now : Z) : option (Z * FlowManager) :=
  m ← flow_manager_expire m0 now;
  src_addr ← load32 pk (rte_ipv4_header + src_addr_off);
  dst_addr ← load32 pk (rte_ipv4_header + dst_addr_off);
  next_proto_id ← load8 pk (rte_ipv4_header + next_proto_id_off);
  hdr_src_port ← load16 pk (tcpudp_header + src_port_off);
  hdr_dst_port ← load16 pk (tcpudp_header + dst_port_off);
  if device =? wan_device config then
    let id := MkFlowId hdr_dst_port hdr_src_port dst_addr src_addr next_proto_id in
    '(found, m1) ← flow_manager_get_refresh_flow m id_p id now;
    match found with
    | None => Some (device, m1)
    | Some dst_device_long => Some (u16 dst_device_long, m1)
    end
  else
    let id := MkFlowId hdr_src_port hdr_dst_port src_addr dst_addr next_proto_id in
    m1 ← flow_manager_allocate_or_refresh_flow m id_p id device now;
    Some (wan_device config, m1).

(** The policer of vigpolifw. *)
Definition nf_process_policer (config : nf_config) (m0 : FlowManager) (dst_p device : Z)
    (pk : packet) (rte_ipv4_header now packet_length : Z) : option (Z * FlowManager) :=
  '(_, m) ← policer_expire_entries m0 now (u16 (burst config)) (u16 (rate config));
  if device =? lan_device config then Some (wan_device config, m)
  else if device =? wan_device config then
    dst_addr ← load32 pk (rte_ipv4_header + dst_addr_off);
    '(fwd, m1) ← policer_check_tb m dst_p dst_addr packet_length now (u16 (burst config))
                   (u16 (rate config));
    if (fwd : bool) then Some (lan_device config, m1) else Some (wan_device config, m1)
  else Some (device, m).

(** The policer of vigpoliupfw. *)
Definition nf_process_policer_up (config : nf_config) (m0 : FlowManager) (dst_p device : Z)
    (pk : packet) (rte_ipv4_header now packet_length : Z) : option (Z * FlowManager) :=
  '(_, m) ← policer_expire_entries m0 now (u16 (burst config)) (u16 (rate config));
  if device =? wan_device config then Some (lan_device config, m)
  else if device =? lan_device config then
    dst_addr ← load32 pk (rte_ipv4_header + dst_addr_off);
    '(fwd, m1) ← policer_check_tb m dst_p dst_addr packet_length now (u16 (burst config))
                   (u16 (rate config));
    if (fwd : bool) then Some (wan_device config, m1) else Some (lan_device config, m1)
  else Some (device, m).

(** The handler around its policer.  [id_p] and [dst_p] are the addresses of
    the local flow identifier and of the argument [dst]. *)
Definition nf_process (policer : nf_config → FlowManager → Z → Z → packet → Z → Z → Z →
      option (Z * FlowManager)) (config : nf_config) (m0 : FlowManager)
    (id_p dst_p device packet_length now : Z) (pk0 : packet)
    : option (Z * packet * FlowManager) :=
  '(rte_ether_header, pk1) ← nf_then_get_rte_ether_header pk0;
  _ ← c_assert (negb (rte_ether_header =? NULL));
  '(rte_ipv4_header, ip_options, pk2) ← nf_then_get_rte_ipv4_header pk1 rte_ether_header;
  if rte_ipv4_header =? NULL then Some (device, pk2, m0) else
  '(tcpudp_header, pk3) ← nf_then_get_tcpudp_header pk2 rte_ipv4_header;
  if tcpudp_header =? NULL then Some (device, pk3, m0) else
  '(fw, m1) ← nf_process_firewall config m0 id_p device pk3 rte_ipv4_header tcpudp_header now;
  let dst_device_fw := u16 fw in
  '(pol, m2) ← policer config m1 dst_p device pk3 rte_ipv4_header now packet_length;
  let dst_device_pol := u16 pol in
  if (dst_device_pol =? device) || (dst_device_fw =? device) then Some (device, pk3, m2) else
  _ ← c_assert (dst_device_pol =? dst_device_fw);
  device_mac ← rd (device_macs config) dst_device_pol;
  pk4 ← store_bytes pk3 (rte_ether_header + s_addr_off) device_mac;
  endpoint_mac ← rd (endpoint_macs config) dst_device_pol;
  pk5 ← store_bytes pk4 (rte_ether_header + d_addr_off) endpoint_mac;
  Some (dst_device_pol, pk5, m2).

(** vigpoliupfw *)
Definition nf_process_up := nf_process nf_process_policer_up.

End polifw.

(** ** The two parts of the state

    The flow tables are those of vigfw and the buckets those of vigpol, with
    the burst and the rate cut to 16 bits; vigpoliupfw is the policer with the
    roles of the devices exchanged. *)

Definition fw_of (m : FlowManager) : Fw.FlowManager :=
  Fw.MkManager (Fw.MkState (flows (state m)) (int_devices (state m)) (max_flows (state m))
    (fw_device (state m))) (expiration_time m).

Definition pol_of (m : FlowManager) : Pol.State :=
  Pol.MkState (dyn (state m)) (dyn_vals (state m)).

Definition fw_config (config : nf_config) : Fw.nf_config :=
  Fw.MkConfig (wan_device config) (cfg_expiration_time config) (cfg_max_flows config).

Definition pol_config (up : bool) (config : nf_config) : Pol.nf_config :=
  if up
  then Pol.MkConfig (wan_device config) (lan_device config) (u16 (rate config))
         (u16 (burst config)) (dyn_capacity config)
  else Pol.MkConfig (lan_device config) (wan_device config) (u16 (rate config))
         (u16 (burst config)) (dyn_capacity config).

Definition with_fw (m : FlowManager) (f : Fw.FlowManager) : FlowManager :=
  set_tables m (Fw.flows (Fw.state f)) (Fw.int_devices (Fw.state f)).

Definition with_pol (m : FlowManager) (s : Pol.State) : FlowManager :=
  set_dyn m (Pol.dyn s) (Pol.dyn_vals s).

Section parts.
Context `{KeyOps FlowId} `{KeyOps ip_addr}.
Variable pow2 : bool.
Implicit Types m : FlowManager.

Lemma expire_part m time :
  flow_manager_expire pow2 m time = with_fw m <$> Fw.flow_manager_expire pow2 (fw_of m) time.
Proof. unfold flow_manager_expire, Fw.flow_manager_expire. simpl. by same_calls. Qed.

Lemma allocate_part m id_p id dev time :
  flow_manager_allocate_or_refresh_flow pow2 m id_p id dev time =
    with_fw m <$> Fw.flow_manager_allocate_or_refresh_flow pow2 (fw_of m) id_p id dev time.
Proof.
  unfold flow_manager_allocate_or_refresh_flow, Fw.flow_manager_allocate_or_refresh_flow.
  simpl. by same_calls.
Qed.

Lemma get_refresh_part m id_p f time :
  flow_manager_get_refresh_flow pow2 m id_p f time =
    prod_map id (with_fw m) <$> Fw.flow_manager_get_refresh_flow pow2 (fw_of m) id_p f time.
Proof.
  unfold flow_manager_get_refresh_flow, Fw.flow_manager_get_refresh_flow. simpl.
  destruct m as [[]]. by same_calls.
Qed.

Lemma policer_expire_part (c : Pol.nf_config) m time :
  policer_expire_entries pow2 m time (Pol.burst c) (Pol.rate c) =
    prod_map id (with_pol m) <$> Pol.policer_expire_entries pow2 c (pol_of m) time.
Proof. unfold policer_expire_entries, Pol.policer_expire_entries. simpl. by same_calls. Qed.

Lemma check_part (c : Pol.nf_config) m dst_p dst size time :
  policer_check_tb pow2 m dst_p dst size time (Pol.burst c) (Pol.rate c) =
    prod_map id (with_pol m) <$> Pol.policer_check_tb pow2 c (pol_of m) dst_p dst size time.
Proof.
  unfold policer_check_tb, Pol.policer_check_tb. simpl. destruct m as [[]]. by same_calls.
Qed.

End parts.

(** ** The contract

    A packet passes when the firewall and the policer both let it pass; both
    update their tables in any case. *)

Definition polifw_abs : Type := (table FlowId * list Z) * (table ip_addr * list DynamicValue).

Definition polifw_spec (up : bool) (config : nf_config) (s : polifw_abs) (device size now : Z)
    (hdrs : option headers) : polifw_abs * option (Z * headers) :=
  match hdrs with
  | None => (s, None)
  | Some h =>
      let '(sf, act) := fw_spec (fw_config config) s.1 device now (Some h) in
      let '(d, sp) := pol_spec (pol_config up config) s.2 device size now (Some (h_dst_addr h)) in
      ((sf, sp), if d =? device then None else act)
  end.

(** Two devices, and a rate that survives the cut to 16 bits. *)
Record config_ok (config : nf_config) : Prop := ConfigOk {
  co_wan : 0 ≤ wan_device config < 2;
  co_lan : 0 ≤ lan_device config < 2;
  co_ne : lan_device config ≠ wan_device config;
  co_rate : 0 < u16 (rate config);
  co_devs : zlen (device_macs config) = 2;
  co_ends : zlen (endpoint_macs config) = 2;
  co_device_macs : Forall (λ m, zlen m = 6) (device_macs config);
  co_endpoint_macs : Forall (λ m, zlen m = 6) (endpoint_macs config)
}.

Section proofs.
Context `{KeyLaws FlowId} `{KeyLaws ip_addr}.
Variable pow2 up : bool.
Variable config : nf_config.
Implicit Types (m : FlowManager) (s : polifw_abs).

Record polifw_inv (id_p dst_p range prange : Z) m s (now : Z) : Prop := PolifwInv {
  pf_fw : fw_inv pow2 (fw_config config) 2 id_p range (fw_of m) s.1.1 s.1.2 now;
  pf_pol : pol_inv pow2 (pol_config up config) dst_p prange (pol_of m) s.2.1 s.2.2 now
}.

Hypothesis HC : config_ok config.

Lemma pol_config_ok : Pol.config_ok (pol_config up config).
Proof.
  destruct HC. pose proof (u16_range (rate config)). pose proof (u16_range (burst config)).
  unfold pol_config. destruct up; constructor; simpl; unfold tokens_per_second; lia || congruence.
Qed.

(** The invariant of the firewall speaks of its own part of the state. *)
Lemma fw_inv_with id_p range m f t devs t0 devs0 now now0 :
  fw_inv pow2 (fw_config config) 2 id_p range (fw_of m) t0 devs0 now0 →
  fw_inv pow2 (fw_config config) 2 id_p range f t devs now →
  fw_inv pow2 (fw_config config) 2 id_p range (fw_of (with_fw m f)) t devs now.
Proof.
  intros Hm HI. pose proof (fi_exp _ _ _ _ _ _ _ _ _ Hm). destruct HI. by constructor.
Qed.

Lemma firewall_spec id_p range before now device m t devs pk h :
  fw_inv pow2 (fw_config config) 2 id_p range (fw_of m) t devs before → before ≤ now →
  0 ≤ now < 2 ^ 63 → parsed pk h → 0 ≤ device < 2 →
  let '((t', devs'), act) := fw_spec (fw_config config) (t, devs) device now (Some h) in
  ∃ d m', nf_process_firewall pow2 config m id_p device (after_tcpudp pk) (base pk + 14)
            (base pk + l4_off (buf pk) (global_total_length pk)) now = Some (d, m') ∧
    fw_inv pow2 (fw_config config) 2 id_p range (fw_of m') t' devs' now ∧
    pol_of m' = pol_of m ∧ 0 ≤ d < 2 ∧
    match act with Some (d', h') => d = d' ∧ h' = h ∧ d ≠ device | None => d = device end.
Proof.
  intros HI0 Hle Hnow HP Hdev. unfold nf_process_firewall, fw_spec. rewrite expire_part.
  destruct (fw_expire_spec pow2 (fw_config config) 2 id_p range now (fw_of m) t devs before HI0 Hle Hnow)
    as (f1 & -> & HI1). cbn [fmap option_fmap option_map mbind option_bind].
  apply (fw_inv_with _ _ m _ _ _ _ _ _ _ HI0) in HI1.
  set (t1 := t_expire t _) in *. set (m1 := with_fw m f1) in *.
  destruct (pd_loads _ _ HP) as (-> & -> & -> & -> & ->). cbn [mbind option_bind].
  unfold flow_of. cbn [Fw.wan_device fw_config].
  destruct (Z.eqb_spec device (wan_device config)) as [Hw|Hw].
  - pose proof (fw_get_refresh_spec pow2 _ 2 id_p range now (fw_of m1) t1 devs HI1
      (MkFlowId (h_dst_port h) (h_src_port h) (h_dst_addr h) (h_src_addr h) (h_proto h))) as Hg.
    rewrite get_refresh_part. destruct (t_lookup t1 _) as [e|].
    + destruct Hg as (d & f2 & -> & -> & Hd & Hdw & HI2).
      cbn [fmap option_fmap option_map mbind option_bind prod_map fst snd id].
      simpl in Hdw. rewrite u16_small by lia. eexists _, _.
      split_and!; [done|by eapply fw_inv_with|done|lia|lia|done|done|congruence].
    + rewrite Hg. cbn [fmap option_fmap option_map mbind option_bind prod_map fst snd id].
      eexists _, _. split_and!; [done|by eapply fw_inv_with|done|lia|lia|done].
  - destruct (fw_allocate_spec pow2 _ 2 id_p range now (fw_of m1) t1 devs HI1
      (MkFlowId (h_src_port h) (h_dst_port h) (h_src_addr h) (h_dst_addr h) (h_proto h)) device
      Hdev Hw) as (f2 & Ha & HI2).
    rewrite allocate_part, Ha. cbn [fmap option_fmap option_map mbind option_bind].
    destruct (match t_lookup t1 _ with Some _ => _ | None => _ end) as [t' devs'] eqn:Em.
    destruct HC. eexists _, _.
    split_and!; [done|by eapply fw_inv_with|done|lia|lia|done|done|congruence].
Qed.

(** The policer that the function is built with. *)
Definition policer := if up then nf_process_policer_up pow2 else nf_process_policer pow2.

Lemma policer_eq m dst_p device pk iph now size :
  let c := pol_config up config in
  policer config m dst_p device pk iph now size =
    '(_, m1) ← policer_expire_entries pow2 m now (Pol.burst c) (Pol.rate c);
    if device =? Pol.lan_device c then Some (Pol.wan_device c, m1)
    else if device =? Pol.wan_device c then
      dst_addr ← load32 pk (iph + dst_addr_off);
      '(fwd, m2) ← policer_check_tb pow2 m1 dst_p dst_addr size now (Pol.burst c) (Pol.rate c);
      if (fwd : bool) then Some (Pol.lan_device c, m2) else Some (Pol.wan_device c, m2)
    else Some (device, m1).
Proof. unfold policer, pol_config. by destruct up. Qed.

Lemma pol_devices : 0 ≤ Pol.lan_device (pol_config up config) < 2 ∧
  0 ≤ Pol.wan_device (pol_config up config) < 2.
Proof. destruct HC. unfold pol_config. destruct up; simpl; lia. Qed.

Lemma policer_spec dst_p range before now device m t vals pk h size :
  pol_inv pow2 (pol_config up config) dst_p range (pol_of m) t vals before → before ≤ now →
  0 ≤ now < 2 ^ 63 → parsed pk h → 0 ≤ size → 0 ≤ device < 2 →
  let '(d, (t', vals')) :=
    pol_spec (pol_config up config) (t, vals) device size now (Some (h_dst_addr h)) in
  ∃ m', policer config m dst_p device (after_tcpudp pk) (base pk + 14) now size = Some (d, m') ∧
    pol_inv pow2 (pol_config up config) dst_p range (pol_of m') t' vals' now ∧
    fw_of m' = fw_of m ∧ 0 ≤ d < 2.
Proof.
  intros HI0 Hle Hnow HP Hsz Hdev. pose proof pol_config_ok as HPC.
  pose proof pol_devices as [Hlan Hwan]. rewrite policer_eq. cbn zeta.
  set (c := pol_config up config) in *. rewrite policer_expire_part. unfold pol_spec.
  destruct (pol_expire_spec pow2 c HPC dst_p range (pol_of m) t vals before now HI0 Hle Hnow)
    as (n & st1 & -> & HI1).
  cbn [fmap option_fmap option_map mbind option_bind prod_map fst snd id].
  assert (∀ m' q, pol_of (with_pol m' q) = q) as Hpol by (intros ? []; done).
  destruct (device =? Pol.lan_device c).
  { eexists. split_and!; [done|by rewrite Hpol|done|lia|lia]. }
  destruct (device =? Pol.wan_device c).
  2: { eexists. split_and!; [done|by rewrite Hpol|done|lia|lia]. }
  destruct (pd_loads _ _ HP) as (_ & -> & _). cbn [mbind option_bind]. rewrite check_part, Hpol.
  pose proof (pol_check_spec pow2 c HPC dst_p range now st1 _ vals HI1 Hnow (h_dst_addr h) size Hsz)
    as Hc.
  destruct (pol_check _ _ _ _ _) as [fwd [t' vals']]. destruct Hc as (st2 & -> & HI2).
  cbn [fmap option_fmap option_map mbind option_bind prod_map fst snd id].
  destruct fwd; eexists; split_and!; [done|by rewrite Hpol|done|lia|lia|done|by rewrite Hpol|done|lia|lia].
Qed.

Lemma polifw_inv_mono id_p dst_p range prange m s before now :
  polifw_inv id_p dst_p range prange m s before → before ≤ now →
  polifw_inv id_p dst_p range prange m s now.
Proof.
  intros [[] []] Hle. split; constructor; try done; by eapply t_sorted_mono.
Qed.

Lemma mac_forward pk tail h device d :
  received pk tail → parsed pk h → 0 ≤ d < 2 → d ≠ device →
  ∃ sm dm pk4 pk5, rd (device_macs config) d = Some sm ∧ rd (endpoint_macs config) d = Some dm ∧
    store_bytes (after_tcpudp pk) (base pk + s_addr_off) sm = Some pk4 ∧
    store_bytes pk4 (base pk + d_addr_off) dm = Some pk5 ∧
    acted pk device (Some (d, h)) d pk5 ∧
    macs_of (device_macs config) (endpoint_macs config) pk pk5 (Some (d, h)).
Proof.
  intros HR HP Hd Hne. destruct (after_tcpudp_frame pk) as (Fb & Fbuf & Ft & Fr).
  destruct (mac_at _ d (co_device_macs _ HC)) as (sm & Hsm & Hsl); [by rewrite (co_devs _ HC)|].
  destruct (mac_at _ d (co_endpoint_macs _ HC)) as (dm & Hdm & Hdl); [by rewrite (co_ends _ HC)|].
  pose proof (rc_total _ _ HR). pose proof (rc_buf _ _ HR). pose proof (rc_tail _ _ HR).
  destruct (rewrite_macs (after_tcpudp pk) sm dm) as (pk4 & pk5 & S4 & S5 & E & Ls & Ld);
    [rewrite Fbuf; lia|done..|].
  rewrite Fb in *. exists sm, dm, pk4, pk5. split_and!; [done..| |].
  - pose proof (proj1 (pd_l4 _ _ HP)). 
    eapply acted_forward; [exact Fb|exact Fbuf|exact Ft|exact Fr|exact E| | |done].
    + intros i. unfold rewritten, span. lia.
    + rewrite (edits_read_headers _ _ _ _ _ E) by (intros; unfold span; lia).
      rewrite (read_headers_buf pk) by done. apply (pd_read _ _ HP).
  - simpl. by rewrite Ls, Ld, Hsm, Hdm.
Qed.

Lemma polifw_process_spec id_p dst_p range prange before now device m s pk tail :
  polifw_inv id_p dst_p range prange m s before → before ≤ now → 0 ≤ now < 2 ^ 63 →
  received pk tail → 0 ≤ device < 2 →
  let '(s', act) := polifw_spec up config s device (global_total_length pk) now
                      (packet_headers pk) in
  ∃ dev pk' m', nf_process pow2 policer config m id_p dst_p device (global_total_length pk) now pk =
      Some (dev, pk', m') ∧
    polifw_inv id_p dst_p range prange m' s' now ∧ acted pk device act dev pk' ∧
    macs_of (device_macs config) (endpoint_macs config) pk pk' act.
Proof.
  intros [HF HPo] Hle Hnow HR Hdev. destruct s as [[t devs] [tp vals]]. cbn [fst snd] in *.
  unfold nf_process, polifw_spec. pose proof (rc_base _ _ HR). pose proof (rc_total _ _ HR).
  destruct (parse_cases pk tail HR)
    as (pk1 & He & [(opts & pk2 & Hi & -> & Hact)|[(opts & pk2 & pk3 & Hi & Hnz & Ht & -> & Hact)|
        (opts & pk2 & h & Hi & Hnz & Ht & Hnz4 & HP)]]); rewrite He; osteps;
    rewrite (not_null (base pk)) by (unfold NULL; lia); cbn [negb c_assert]; osteps.
  { rewrite Z.eqb_refl. eexists _, _, _. split_and!; [done|by eapply polifw_inv_mono|done|done]. }
  { rewrite (not_null _ Hnz). osteps. rewrite Z.eqb_refl.
    eexists _, _, _. split_and!; [done|by eapply polifw_inv_mono|done|done]. }
  rewrite (not_null _ Hnz). osteps. rewrite (not_null _ Hnz4), (pd_headers _ _ HP).
  cbn [fst snd].
  pose proof (firewall_spec id_p range before now device m t devs pk h HF Hle Hnow HP Hdev) as Hfw.
  destruct (fw_spec _ _ _ _ _) as [[t' devs'] act].
  destruct Hfw as (d1 & m1 & -> & HF1 & Hp1 & Hd1 & Hact). cbn [mbind option_bind].
  rewrite <- Hp1 in HPo.
  pose proof (policer_spec dst_p prange before now device m1 tp vals pk h (global_total_length pk)
    HPo Hle Hnow HP ltac:(lia) Hdev) as Hpo.
  destruct (pol_spec _ _ _ _ _ _) as [d2 [tp' vals']].
  destruct Hpo as (m2 & -> & HPo2 & Hf2 & Hd2). cbn [mbind option_bind]. rewrite <- Hf2 in HF1.
  rewrite !u16_small by lia.
  destruct (Z.eqb_spec d2 device) as [->|Hne]; cbn [orb].
  { eexists _, _, _. split_and!; [done|done|by eapply parsed_drop|done]. }
  destruct act as [[d h']|]; [destruct Hact as (<- & -> & Hd)|subst d1; rewrite Z.eqb_refl].
  2: { eexists _, _, _. split_and!; [done|done|by eapply parsed_drop|done]. }
  destruct (Z.eqb_spec d1 device); [done|]. assert (d2 = d1) as -> by lia.
  rewrite Z.eqb_refl. cbn [c_assert mbind option_bind].
  destruct (mac_forward pk tail h device d1 HR HP Hd1 Hd)
    as (sm & dm & pk4 & pk5 & -> & -> & S4 & S5 & Ha & Hm).
  cbn [mbind option_bind]. rewrite S4. cbn [mbind option_bind]. rewrite S5.
  eexists _, _, _. split_and!; [done|done|exact Ha|exact Hm].
Qed.

End proofs.

(** ** Main results *)

(** C36: the combined functions refine the combination of the contracts.  With
    two devices and a rate that is not zero modulo 2^16, vigpolifw and
    vigpoliupfw ([up]) process any received packet without undefined behaviour
    and without failing an assertion; the flow table and the buckets become
    those of the firewall contract and of the policer contract (with burst and
    rate modulo 2^16) on that packet; the packet is dropped unchanged when
    either of the two drops it, and otherwise leaves on the device that both
    chose, with the MAC addresses of that device and all else unchanged.
    Buckets are per destination: vigpolifw polices the packets from the external
    device, vigpoliupfw those from the internal device and not those from the
    external one, although its README says that packets from internal devices
    are not policed.  The spec.py of both is that of the firewall alone, so the
    contract is put together from those of the two parts. *)
Theorem polifw_process_refines_spec `{KeyLaws FlowId} `{KeyLaws ip_addr} (pow2 up : bool)
    (config : nf_config) (id_p dst_p range prange before now device : Z) (m : FlowManager)
    (s : polifw_abs) (pk : packet) (tail : Z) :
  config_ok config → polifw_inv pow2 up config id_p dst_p range prange m s before →
  before ≤ now → 0 ≤ now < 2 ^ 63 → received pk tail → 0 ≤ device < 2 →
  let '(s', act) := polifw_spec up config s device (global_total_length pk) now
                      (packet_headers pk) in
  ∃ dev pk' m', (if up then nf_process_up pow2 else nf_process pow2 (nf_process_policer pow2))
      config m id_p dst_p device (global_total_length pk) now pk = Some (dev, pk', m') ∧
    polifw_inv pow2 up config id_p dst_p range prange m' s' now ∧
    acted pk device act dev pk' ∧ macs_of (device_macs config) (endpoint_macs config) pk pk' act.
Proof.
  intros HC HI Hle Hnow HR Hdev.
  pose proof (polifw_process_spec pow2 up config HC id_p dst_p range prange before now device m s
    pk tail HI Hle Hnow HR Hdev) as Hp.
  destruct (polifw_spec _ _ _ _ _ _ _) as [s' act]. by destruct up.
Qed.

(** ** Concrete instances *)

#[local] Existing Instance demo_fw_ops.
#[local] Existing Instance demo_fw_laws.
#[local] Existing Instance demo_ip_ops.
#[local] Existing Instance demo_ip_laws.

Definition demo_polifw_config : nf_config :=
  MkConfig 1 [[2;0;0;0;1;0]; [2;0;0;0;1;1]] [[2;0;0;0;2;0]; [2;0;0;0;2;1]] 1000 3 0 65636 65736 3.

(** A rate and a burst of 65536 more than what the policer uses. *)
Lemma demo_polifw_config_ok : config_ok demo_polifw_config.
Proof. constructor; try done; repeat constructor. Qed.

Definition demo_polifw_manager : FlowManager :=
  MkManager (MkState (demo_table 16 (MkFlowId 0 0 0 0 0)) (MkVector 2000 4 3 [0; 0; 0])
               (demo_table 4 (IpAddr 0)) (MkVector 3000 16 3 (replicate 3 (MkValue 0 0))) 3 1) 1000.

Definition demo_polifw_abs : polifw_abs :=
  ((Table [] [0; 1; 2], [0; 0; 0]), (Table [] [0; 1; 2], replicate 3 (MkValue 0 0))).

Lemma demo_polifw_inv up :
  polifw_inv false up demo_polifw_config 8 8 3 3 demo_polifw_manager demo_polifw_abs 0.
Proof.
  split.
  - destruct demo_fw_inv. constructor; try done.
  - destruct (demo_pol_inv (pol_config up demo_polifw_config)). by constructor.
Qed.

Lemma polifw_process_refines_spec_witness :
  ∃ pk' m', nf_process_up false demo_polifw_config demo_polifw_manager 8 8 0 60 5 demo_packet =
    Some (1, pk', m').
Proof.
  pose proof (polifw_process_refines_spec false true demo_polifw_config 8 8 3 3 0 5 0
    demo_polifw_manager demo_polifw_abs demo_packet 20 demo_polifw_config_ok (demo_polifw_inv true)
    ltac:(lia) ltac:(lia) demo_packet_received ltac:(lia)) as Hs.
  destruct (polifw_spec _ _ _ _ _ _ _) as [s' act] eqn:E.
  destruct Hs as (dev & pk' & m' & Hp & _ & (_ & Hact) & _).
  vm_compute in E. injection E as <- <-. destruct Hact as (-> & _). exists pk', m'. exact Hp.
Defined.

(** The manager after a packet from a third device. *)
Definition demo_polifw_manager2 : FlowManager :=
  match nf_process false (nf_process_policer false) demo_polifw_config demo_polifw_manager
          8 8 2 60 5 demo_packet with
  | Some (_, _, m) => m
  | None => demo_polifw_manager
  end.

(** With a third device the two parts can disagree: the firewall remembers a
    flow from device 2 although the policer drops its packets, so that the reply
    is for device 2 in the one part and for the internal device in the other,
    and the assertion fails. *)
Example polifw_third_device_fails :
  nf_process false (nf_process_policer false) demo_polifw_config demo_polifw_manager2
    8 8 1 60 6 demo_fw_reply = None.
Proof. vm_compute. reflexivity. Qed.
