(* ===== verification/Hhh.v ===== *)
(** * vighhh: the heavy hitter detector

    hhh_main.c: a token bucket per source subnet, for every prefix length that
    the configuration selects.  Nothing is policed; a source whose subnet has
    used up its bucket is reported.  The handler, its contract, and what the
    reports are worth: a subnet that sends more than the burst plus the rate
    times the elapsed time is reported. *)
From stdpp Require Import base list gmap numbers sets.
From Stdlib Require Import ZArith Lia.
From S2P Require Import Prelude.
From S2P Require Import Memory.
From S2P Require Import MapImpl.
From S2P Require Import Map.
From S2P Require Import Vector.
From S2P Require Import DChainImpl.
From S2P Require Import DChain.
From S2P Require Import Emap.
From S2P Require Import Expirator.
From S2P Require Import Packet.
From S2P Require Import Pol.

(** The fields of struct nf_config that the handler reads. *)
Record nf_config := MkConfig {
  lan_device : Z;
  wan_device : Z;
  subnets_mask : Z;
  burst : Z
}.

(** The objects of one prefix length: [subnet_indexers[i]], [subnets[i]],
    [allocators[i]] and [subnet_buckets[i]]. *)
Record subnet_table := MkTable {
  objs : emap_objs ip_addr;
  buckets : Vector DynamicValue
}.

(** struct State *)
Record State := MkState {
  tables : list subnet_table;
  threshold_rate : Z;
  n_subnets : Z
}.

Definition set_table (st : State) (i : Z) (tb : subnet_table) : option State :=
  l ← wr (tables st) i tb;
  Some (MkState l (threshold_rate st) (n_subnets st)).

Definition SWAP_ENDIANNESS_32_BIT (n : Z) : Z :=
  Z.lor (Z.lor (Z.land (Z.shiftr n 24) 255) (Z.land (Z.shiftr n 8) 65280))
    (Z.lor (Z.land (u32 (Z.shiftl n 8)) 16711680) (Z.land (u32 (Z.shiftl n 24)) 4278190080)).

(** hhh_state.c: the number of prefix lengths. *)
Definition calculate_n_subnets (subnets_mask : Z) : option Z :=
  fst <$> for_each 0 32 (λ b '(n, m),
    Some (if Z.land m 1 =? 0 then n else u32 (n + 1), Z.shiftr m 1)) (0, subnets_mask).

Section hhh.
Context `{KeyOps ip_addr}.
Variable pow2 : bool.
Variable config : nf_config.

(** Returns [freed] and the state. *)
Definition expire_entries (st : State) (time : Z) : option (Z * State) :=
  _ ← c_assert (0 <=? time);
  q ← u64_div (u64 (VIGOR_TIME_SECONDS_MULTIPLIER * burst config)) (threshold_rate st);
  let exp_time := s64 q in
  let time_u := u64 time in
  let min_time := s64 (u64 (time_u - u64 exp_time)) in
  for_each 0 (n_subnets st) (λ i '(freed, st),
    tb ← rd (tables st) i;
    '(n, heap, map) ← expire_items_single_map pow2 (o_chain (objs tb)) (o_vec (objs tb))
                        (o_map (objs tb)) min_time;
    st' ← set_table st i (MkTable (Objs map (o_vec (objs tb)) heap) (buckets tb));
    freed' ← int64_chk (freed + n);
    Some (freed', st')) (0, st).

(** [masked_p] is the address of the caller's [masked_src]. *)
Definition allocate (st : State) (masked_p masked_src i_subnet size time : Z)
    : option (bool * State) :=
  tb ← rd (tables st) i_subnet;
  let o := objs tb in
  '(allocated, heap, index) ← dchain_allocate_new_index (o_chain o) (-1) time;
  if allocated =? 0 then
    st' ← set_table st i_subnet (MkTable (Objs (o_map o) (o_vec o) heap) (buckets tb));
    Some (false, st')
  else
  key ← vector_borrow (o_vec o) index;
  value ← vector_borrow (buckets tb) index;
  keys ← store (o_vec o) key (IpAddr masked_src);
  _ ← c_assert (size <=? burst config);
  vals ← store (buckets tb) value (MkValue (u64 (burst config - size)) time);
  map ← map_put pow2 (with_local (deref keys) masked_p (IpAddr masked_src)) (o_map o) key index;
  st' ← set_table st i_subnet (MkTable (Objs map (vector_return keys index key) heap)
                                 (vector_return vals index value));
  Some (true, st').

(** The variables that the loop of [update_buckets] carries. *)
Record walk := Walk {
  subnet_i : Z;
  w_mask : Z;
  w_subnets_mask : Z;
  w_index : Z;
  captured_hh : bool;
  hh : Z;
  hh_subnet_sz : Z;
  w_state : State
}.

(** One iteration of the loop.  The code computes the mask with [1 << 31] on an [int], which C11
    leaves undefined and gcc defines as the sign bit; this is what is taken here. *)
Definition update_subnet (masked_p src size time : Z) (subnet : Z) (w : walk)
    : option (outcome walk State) :=
  let mask := Z.lor (Z.shiftr (w_mask w) 1) (2 ^ 31) in
  let next := Z.shiftr (w_subnets_mask w) 1 in
  if Z.land (w_subnets_mask w) 1 =? 0 then
    Some (Continue (Walk (subnet_i w) mask next (w_index w) (captured_hh w) (hh w)
                      (hh_subnet_sz w) (w_state w)))
  else
  let i := subnet_i w + 1 in
  let st := w_state w in
  let masked_src := Z.land src (SWAP_ENDIANNESS_32_BIT mask) in
  tb ← rd (tables st) i;
  let o := objs tb in
  '(present, index) ← map_get pow2 (with_local (deref (o_vec o)) masked_p (IpAddr masked_src))
                        (o_map o) masked_p (w_index w);
  if present =? 0 then
    '(allocated, st') ← allocate st masked_p masked_src i size time;
    if negb allocated then Some (Return st')
    else Some (Continue (Walk i mask next index (captured_hh w) (hh w) (hh_subnet_sz w) st'))
  else
  '(_, heap) ← dchain_rejuvenate_index (o_chain o) index time;
  value ← vector_borrow (buckets tb) index;
  v ← deref (buckets tb) value;
  _ ← c_assert (0 <=? time);
  let time_u := u64 time in
  _ ← c_assert (0 <=? bucket_time v);
  _ ← c_assert (u64 (bucket_time v) <=? time_u);
  let time_diff := u64 (time_u - u64 (bucket_time v)) in
  full ← u64_div (u64 (burst config * VIGOR_TIME_SECONDS_MULTIPLIER)) (threshold_rate st);
  size' ← (if time_diff <? full then
             added_tokens ← u64_div (u64 (time_diff * threshold_rate st))
                              VIGOR_TIME_SECONDS_MULTIPLIER;
             _ ← c_assert (bucket_size v <=? burst config);
             let bs := u64 (bucket_size v + added_tokens) in
             Some (if burst config <? bs then burst config else bs)
           else Some (burst config));
  let '(fits, size'') := if size <? size' then (true, u64 (size' - size)) else (false, size') in
  vals ← store (buckets tb) value (MkValue size'' (s64 time_u));
  st' ← set_table st i (MkTable (Objs (o_map o) (o_vec o) heap) (vector_return vals index value));
  Some (Continue (Walk i mask next index (captured_hh w || negb fits)
                    (if fits then hh w else masked_src)
                    (if fits then hh_subnet_sz w else subnet + 1) st')).

(** Returns the heavy hitter that is reported, and the state. *)
Definition update_buckets (st : State) (masked_p src size time : Z)
    : option (option (Z * Z) * State) :=
  r ← for_u32 0 32 (update_subnet masked_p src size time)
        (Walk (-1) 0 (subnets_mask config) (-1) false 0 0 st);
  match r with
  | Return st' => Some (None, st')
  | Continue w =>
      Some (if captured_hh w then Some (hh w, hh_subnet_sz w) else None, w_state w)
  end.

(** Returns the output device, the report, the packet and the state. *)
Definition nf_process (st : State) (masked_p device packet_length now : Z) (pk0 : packet)
    : option (Z * option (Z * Z) * packet * State) :=
  '(rte_ether_header, pk1) ← nf_then_get_rte_ether_header pk0;
  '(rte_ipv4_header, ip_options, pk2) ← nf_then_get_rte_ipv4_header pk1 rte_ether_header;
  if rte_ipv4_header =? NULL then Some (device, None, pk2, st) else
  '(_, st1) ← expire_entries st now;
  if device =? lan_device config then Some (wan_device config, None, pk2, st1)
  else if device =? wan_device config then
    src_addr ← load32 pk2 (rte_ipv4_header + src_addr_off);
    '(report, st2) ← update_buckets st1 masked_p src_addr packet_length now;
    Some (lan_device config, report, pk2, st2)
  else Some (device, None, pk2, st1).

End hhh.

(** ** The contract

    The abstract state has a table of subnets and their buckets for every
    selected prefix length.  Bit [p] of the mask selects prefixes of [p + 1]
    bits. *)

Abbreviation hhh_abs := (list (table ip_addr * list DynamicValue)).

(** The policer's buckets, with the threshold as rate. *)
Definition bucket_config (config : nf_config) (rate : Z) : Pol.nf_config :=
  Pol.MkConfig (lan_device config) (wan_device config) rate (burst config) 0.

(** The selected bits from [i] on. *)
Definition selected (config : nf_config) (i : Z) : list Z :=
  filter (λ p, Z.testbit (subnets_mask config) p = true) (seqZ i (32 - i)).

(** The first [p + 1] bits of an address, in its byte order in memory. *)
Definition subnet_of (src p : Z) : Z :=
  Z.land src (SWAP_ENDIANNESS_32_BIT (2 ^ 32 - 2 ^ (31 - p))).

(** One subnet: whether it has used up its bucket; [None] when there is no room
    for it. *)
Definition hhh_subnet (c : Pol.nf_config) (s : table ip_addr * list DynamicValue) (a : ip_addr)
    (size now : Z) : option (bool * (table ip_addr * list DynamicValue)) :=
  let '(fits, s') := pol_check c s a size now in
  match t_lookup s.1 a with
  | Some _ => Some (negb fits, s')
  | None => if fits then Some (false, s') else None
  end.

(** All selected lengths, shortest first; the report is the longest subnet that
    has used up its bucket, and there is none when a table is full. *)
Fixpoint hhh_walk (c : Pol.nf_config) (ps : list Z) (ss : hhh_abs) (src size now : Z)
    (report : option (Z * Z)) : hhh_abs * option (Z * Z) :=
  match ps, ss with
  | p :: ps', s :: ss' =>
      match hhh_subnet c s (IpAddr (subnet_of src p)) size now with
      | None => (ss, None)
      | Some (captured, s') =>
          let '(rest, r) := hhh_walk c ps' ss' src size now
                              (if captured then Some (subnet_of src p, p + 1) else report) in
          (s' :: rest, r)
      end
  | _, _ => (ss, report)
  end.

Definition hhh_expire (c : Pol.nf_config) (ss : hhh_abs) (now : Z) : hhh_abs :=
  (λ s, (t_expire s.1 (now - tokens_per_second * Pol.burst c / Pol.rate c), s.2)) <$> ss.

(** The source address of a packet, when it is IPv4. *)
Definition ipv4_src (pk : packet) : option Z :=
  if ipv4_ok (buf pk) (global_total_length pk)
  then load32 pk (base pk + 14 + src_addr_off) else None.

Definition hhh_spec (config : nf_config) (rate : Z) (ss : hhh_abs) (device size now : Z)
    (src : option Z) : Z * option (Z * Z) * hhh_abs :=
  let c := bucket_config config rate in
  match src with
  | None => (device, None, ss)
  | Some a =>
      let ss1 := hhh_expire c ss now in
      if device =? lan_device config then (wan_device config, None, ss1)
      else if device =? wan_device config then
        let '(ss2, report) := hhh_walk c (selected config 0) ss1 a size now None in
        (lan_device config, report, ss2)
      else (device, None, ss1)
  end.

(** A packet from the external device whose source has the first [p + 1] bits of
    [a], and the bytes of such packets. *)
Definition from_subnet (config : nf_config) (p a : Z) (ev : event) : bool :=
  (ev_device ev =? wan_device config) &&
  match ipv4_src (ev_packet ev) with Some x => bool_decide (subnet_of x p = a) | None => false end.

Fixpoint sent (config : nf_config) (p a : Z) (evs : list event) : Z :=
  match evs with
  | [] => 0
  | ev :: evs' =>
      (if from_subnet config p a ev then global_total_length (ev_packet ev) else 0) +
      sent config p a evs'
  end.

(** The handler over a sequence of packets: the output devices with the reports,
    and the state. *)
Fixpoint hhh_run `{KeyOps ip_addr} (pow2 : bool) (config : nf_config) (masked_p : Z)
    (evs : list event) (st : State) : option (list (Z * option (Z * Z)) * State) :=
  match evs with
  | [] => Some ([], st)
  | ev :: evs' =>
      '(dev, report, _, st') ← nf_process pow2 config st masked_p (ev_device ev)
                                 (global_total_length (ev_packet ev)) (ev_now ev) (ev_packet ev);
      '(outs, st'') ← hhh_run pow2 config masked_p evs' st';
      Some ((dev, report) :: outs, st'')
  end.

(** No packet of the subnet is reported. *)
Fixpoint quiet (config : nf_config) (p a : Z) (evs : list event)
    (outs : list (Z * option (Z * Z))) : Prop :=
  match evs, outs with
  | ev :: evs', (_, r) :: outs' =>
      (from_subnet config p a ev = true → r = None) ∧ quiet config p a evs' outs'
  | _, _ => True
  end.

Lemma hhh_walk_length c ps ss src size now report :
  length (hhh_walk c ps ss src size now report).1 = length ss.
Proof.
  revert ss report. induction ps as [|p ps IH]; intros [|s ss] report; try done. cbn [hhh_walk].
  destruct (hhh_subnet _ _ _ _ _) as [[cap s']|]; [|done].
  specialize (IH ss (if cap then Some (subnet_of src p, p + 1) else report)).
  destruct (hhh_walk _ _ _ _ _ _ _) as [rest r]. simpl in *. lia.
Qed.

Lemma hhh_spec_length config rate ss device size now src :
  length (hhh_spec config rate ss device size now src).2 = length ss.
Proof.
  unfold hhh_spec. destruct src as [a|]; [|done].
  destruct (device =? _); [simpl; apply length_fmap|].
  destruct (device =? _); [|simpl; apply length_fmap].
  pose proof (hhh_walk_length (bucket_config config rate) (selected config 0)
    (hhh_expire (bucket_config config rate) ss now) a size now None) as Hl.
  destruct (hhh_walk _ _ _ _ _ _ _). simpl in *. rewrite Hl. apply length_fmap.
Qed.

(** ** Masks *)

Lemma mask_step i :
  0 ≤ i < 32 → Z.lor (Z.shiftr (2 ^ 32 - 2 ^ (32 - i)) 1) (2 ^ 31) = 2 ^ 32 - 2 ^ (31 - i).
Proof.
  intros Hi.
  assert (forallb (λ i, Z.lor (Z.shiftr (2 ^ 32 - 2 ^ (32 - i)) 1) (2 ^ 31) =?
                        2 ^ 32 - 2 ^ (31 - i)) (seqZ 0 32) = true) as Hall by reflexivity.
  rewrite forallb_forall in Hall. apply Z.eqb_eq, (Hall i), list_elem_of_In, elem_of_seqZ. lia.
Qed.

Lemma selected_step config i :
  0 ≤ i < 32 →
  selected config i =
    if Z.land (Z.shiftr (subnets_mask config) i) 1 =? 0 then selected config (i + 1)
    else i :: selected config (i + 1).
Proof.
  intros Hi. unfold selected. rewrite seqZ_cons by lia.
  replace (Z.pred (32 - i)) with (32 - (i + 1)) by lia. replace (Z.succ i) with (i + 1) by lia.
  assert (Z.land (Z.shiftr (subnets_mask config) i) 1 =
          Z.b2z (Z.testbit (subnets_mask config) i)) as ->.
  { change 1 with (Z.ones 1). rewrite Z.land_ones by lia.
    rewrite <- Z.bit0_mod, Z.shiftr_spec by lia. by rewrite Z.add_0_l. }
  destruct (Z.testbit (subnets_mask config) i) eqn:E; simpl.
  - by rewrite filter_cons_True.
  - rewrite filter_cons_False; [done|]. congruence.
Qed.

Lemma selected_count config : zlen (selected config 0) ≤ 32.
Proof.
  unfold selected, zlen. etrans; [apply inj_le, length_filter|]. rewrite length_seqZ. lia.
Qed.

(** ** One prefix length *)

Definition pol_of (tb : subnet_table) : Pol.State := Pol.MkState (objs tb) (buckets tb).
Definition table_of (s : Pol.State) : subnet_table := MkTable (Pol.dyn s) (Pol.dyn_vals s).

Section proofs.
Context `{KeyLaws ip_addr}.
Variable pow2 : bool.
Variable config : nf_config.
Variable rate : Z.
Local Abbreviation c := (bucket_config config rate).
Hypothesis HC : Pol.config_ok c.

(** The iteration for a selected length in terms of the policer's check. *)
Lemma known_subnet masked_p src size now p w st tb e t range vals :
  w_state w = st → threshold_rate st = rate → Z.land (w_subnets_mask w) 1 ≠ 0 →
  rd (tables st) (subnet_i w + 1) = Some tb →
  pol_inv pow2 c masked_p range (pol_of tb) t vals now →
  let mask := Z.lor (Z.shiftr (w_mask w) 1) (2 ^ 31) in
  let a := Z.land src (SWAP_ENDIANNESS_32_BIT mask) in
  t_lookup t (IpAddr a) = Some e →
  update_subnet pow2 config masked_p src size now p w =
    '(fits, s') ← Pol.policer_check_tb pow2 c (pol_of tb) masked_p a size now;
    st' ← set_table st (subnet_i w + 1) (table_of s');
    Some (Continue (Walk (subnet_i w + 1) mask (Z.shiftr (w_subnets_mask w) 1) (e_idx e)
      (captured_hh w || negb fits) (if fits then hh w else a)
      (if fits then hh_subnet_sz w else p + 1) st')).
Proof.
  intros Hw Hrate Hsel Htb HI mask a El. unfold update_subnet, Pol.policer_check_tb.
  apply Z.eqb_neq in Hsel. rewrite Hsel, Hw, Htb. cbn [mbind option_bind].
  fold mask. fold a. cbn [pol_of Pol.dyn Pol.dyn_vals bucket_config Pol.burst Pol.rate].
  pose proof (pi_emap _ _ _ _ _ _ _ _ HI) as HE. pose proof (pi_stack _ _ _ _ _ _ _ _ HI) as Hs.
  cbn [pol_of Pol.dyn] in HE, Hs.
  rewrite !(emap_get _ _ _ _ HE masked_p (IpAddr a) _ Hs), El. cbn [mbind option_bind].
  change (1 =? 0) with false. cbn [negb]. rewrite Hrate.
  by same_calls_with ltac:(unfold table_of; cbn [Pol.dyn Pol.dyn_vals]).
Qed.

Lemma new_subnet masked_p src size now p w st tb t range vals :
  w_state w = st → Z.land (w_subnets_mask w) 1 ≠ 0 → size ≤ burst config →
  rd (tables st) (subnet_i w + 1) = Some tb →
  pol_inv pow2 c masked_p range (pol_of tb) t vals now →
  let mask := Z.lor (Z.shiftr (w_mask w) 1) (2 ^ 31) in
  let a := Z.land src (SWAP_ENDIANNESS_32_BIT mask) in
  t_lookup t (IpAddr a) = None →
  update_subnet pow2 config masked_p src size now p w =
    '(fits, s') ← Pol.policer_check_tb pow2 c (pol_of tb) masked_p a size now;
    st' ← set_table st (subnet_i w + 1) (table_of s');
    Some (if (fits : bool) then
            Continue (Walk (subnet_i w + 1) mask (Z.shiftr (w_subnets_mask w) 1) (w_index w)
              (captured_hh w) (hh w) (hh_subnet_sz w) st')
          else Return st').
Proof.
  intros Hw Hsel Hsz Htb HI mask a El. unfold update_subnet, Pol.policer_check_tb, allocate.
  apply Z.eqb_neq in Hsel. rewrite Hsel, Hw, Htb. cbn [mbind option_bind].
  fold mask. fold a. cbn [pol_of Pol.dyn Pol.dyn_vals bucket_config Pol.burst Pol.rate].
  pose proof (pi_emap _ _ _ _ _ _ _ _ HI) as HE. pose proof (pi_stack _ _ _ _ _ _ _ _ HI) as Hs.
  cbn [pol_of Pol.dyn] in HE, Hs.
  rewrite !(emap_get _ _ _ _ HE masked_p (IpAddr a) _ Hs), El. cbn [mbind option_bind].
  rewrite Z.eqb_refl. cbn [negb]. destruct (Z.ltb_spec (burst config) size); [lia|].
  destruct (Z.leb_spec size (burst config)); [|lia]. cbn [c_assert mbind option_bind].
  by same_calls_with ltac:(unfold table_of; cbn [Pol.dyn Pol.dyn_vals negb]).
Qed.

Record hhh_inv (masked_p range : Z) (st : State) (ss : hhh_abs) (now : Z) : Prop := HhhInv {
  hi_tables : Forall2 (λ tb s, pol_inv pow2 c masked_p range (pol_of tb) s.1 s.2 now)
                (tables st) ss;
  hi_rate : threshold_rate st = rate;
  hi_count : n_subnets st = zlen ss
}.

(** The objects of one length are replaced. *)
Lemma set_table_spec masked_p range st done s rest now tb' s' :
  hhh_inv masked_p range st (done ++ s :: rest) now →
  pol_inv pow2 c masked_p range (pol_of tb') s'.1 s'.2 now →
  ∃ st', set_table st (zlen done) tb' = Some st' ∧
    hhh_inv masked_p range st' (done ++ s' :: rest) now.
Proof.
  intros [HT Hr Hn] HI. unfold set_table. pose proof (Forall2_length _ _ _ HT) as Hl.
  rewrite wr_Some by (unfold zlen; rewrite Hl, length_app; simpl; lia). cbn [mbind option_bind].
  eexists. split; [done|]. constructor; simpl; [|done|].
  - replace (done ++ s' :: rest) with (<[Z.to_nat (zlen done) := s']> (done ++ s :: rest)).
    { by apply Forall2_insert. }
    unfold zlen. rewrite Nat2Z.id. replace (length done) with (length done + 0)%nat by lia.
    by rewrite insert_app_r.
  - rewrite Hn. unfold zlen. by rewrite !length_app.
Qed.

Lemma table_at masked_p range st done s rest now :
  hhh_inv masked_p range st (done ++ s :: rest) now →
  ∃ tb, rd (tables st) (zlen done) = Some tb ∧
    pol_inv pow2 c masked_p range (pol_of tb) s.1 s.2 now.
Proof.
  intros [HT _ _]. apply Forall2_app_inv_r in HT as (l1 & l2 & H1 & H2 & Heq).
  apply Forall2_cons_inv_r in H2 as (tb & l2' & HI & _ & ->). exists tb. split; [|done].
  rewrite rd_lookup by (unfold zlen; lia). unfold zlen. rewrite Nat2Z.id, Heq.
  apply list_lookup_middle. symmetry. by eapply Forall2_length.
Qed.

(** The iteration for a selected length. *)
Lemma subnet_spec masked_p range src size now p w done s rest :
  hhh_inv masked_p range (w_state w) (done ++ s :: rest) now → 0 ≤ now < 2 ^ 63 →
  0 ≤ size ≤ burst config → Z.land (w_subnets_mask w) 1 ≠ 0 → subnet_i w + 1 = zlen done →
  let mask := Z.lor (Z.shiftr (w_mask w) 1) (2 ^ 31) in
  let a := Z.land src (SWAP_ENDIANNESS_32_BIT mask) in
  match hhh_subnet c s (IpAddr a) size now with
  | Some (captured, s') => ∃ index st',
      update_subnet pow2 config masked_p src size now p w =
        Some (Continue (Walk (zlen done) mask (Z.shiftr (w_subnets_mask w) 1) index
          (captured_hh w || captured) (if captured then a else hh w)
          (if captured then p + 1 else hh_subnet_sz w) st')) ∧
      hhh_inv masked_p range st' (done ++ s' :: rest) now
  | None => ∃ st', update_subnet pow2 config masked_p src size now p w = Some (Return st') ∧
      hhh_inv masked_p range st' (done ++ s :: rest) now
  end.
Proof.
  intros HH Hnow Hsz Hsel Hi mask a. destruct (table_at _ _ _ _ _ _ _ HH) as (tb & Htb & HI).
  pose proof (pol_check_spec pow2 c HC masked_p range now (pol_of tb) s.1 s.2 HI Hnow a size
    (proj1 Hsz)) as Hc.
  rewrite <- surjective_pairing in Hc.
  destruct (pol_check c s (IpAddr a) size now) as [fits [t' vals']] eqn:Ec.
  destruct Hc as (ps & Hps & HI').
  destruct (set_table_spec _ _ _ _ _ _ _ (table_of ps) (t', vals') HH) as (st' & Hst & HH');
    [by destruct ps|].
  unfold hhh_subnet. rewrite Ec. destruct (t_lookup s.1 (IpAddr a)) as [e|] eqn:El.
  - rewrite (known_subnet masked_p src size now p w _ tb e s.1 range s.2 eq_refl
      (hi_rate _ _ _ _ _ HH) Hsel ltac:(by rewrite Hi) HI El).
    fold mask. fold a. rewrite Hps. cbn [mbind option_bind]. rewrite Hi, Hst. cbn [mbind option_bind].
    eexists _, st'. split; [|done]. by destruct fits.
  - rewrite (new_subnet masked_p src size now p w _ tb s.1 range s.2 eq_refl Hsel (proj2 Hsz)
      ltac:(by rewrite Hi) HI El).
    fold mask. fold a. rewrite Hps. cbn [mbind option_bind]. rewrite Hi, Hst. cbn [mbind option_bind].
    destruct fits; [eexists _, st'; by rewrite orb_false_r|]. exists st'. split; [done|].
    assert ((t', vals') = s) as <-; [|done].
    unfold pol_check in Ec. destruct s as [t vals]. cbn [fst] in El. rewrite El in Ec.
    repeat case_match; congruence.
Qed.

(** What the loop has found so far. *)
Definition found (w : walk) : option (Z * Z) :=
  if captured_hh w then Some (hh w, hh_subnet_sz w) else None.

(** Before iteration [i] the lengths below [i] are done, and the contract on the
    rest leads to [target]. *)
Definition walking (masked_p range src size now : Z) (target : hhh_abs * option (Z * Z)) (i : Z)
    (w : walk) : Prop :=
  ∃ done rest, hhh_inv masked_p range (w_state w) (done ++ rest) now ∧
    subnet_i w + 1 = zlen done ∧ w_subnets_mask w = Z.shiftr (subnets_mask config) i ∧
    w_mask w = 2 ^ 32 - 2 ^ (32 - i) ∧ zlen rest = zlen (selected config i) ∧
    (let '(ss', r) := hhh_walk c (selected config i) rest src size now (found w) in
     (done ++ ss', r)) = target.

Lemma walk_step masked_p range src size now target i w :
  walking masked_p range src size now target i w → 0 ≤ now < 2 ^ 63 → 0 ≤ i < 32 →
  0 ≤ size ≤ burst config →
  ∃ o, update_subnet pow2 config masked_p src size now i w = Some o ∧
    match o with
    | Continue w' => walking masked_p range src size now target (i + 1) w'
    | Return st' => hhh_inv masked_p range st' target.1 now ∧ target.2 = None
    end.
Proof.
  intros (done & rest & HH & Hi & Hm & Hmask & Hlen & Htg) Hnow Hir Hsz.
  rewrite (selected_step config i Hir) in Htg, Hlen. rewrite <- Hm in Htg, Hlen.
  assert (Z.lor (Z.shiftr (w_mask w) 1) (2 ^ 31) = 2 ^ 32 - 2 ^ (32 - (i + 1))) as Hmask'.
  { rewrite Hmask, mask_step by done. do 2 f_equal. lia. }
  assert (Z.shiftr (w_subnets_mask w) 1 = Z.shiftr (subnets_mask config) (i + 1)) as Hm'
    by (rewrite Hm, Z.shiftr_shiftr by lia; done).
  destruct (Z.eqb_spec (Z.land (w_subnets_mask w) 1) 0) as [E|Hsel].
  - unfold update_subnet. rewrite E, Z.eqb_refl. eexists. split; [done|]. by exists done, rest.
  - destruct rest as [|s rest]; [exfalso; unfold zlen in Hlen; simpl in Hlen; lia|].
    pose proof (subnet_spec masked_p range src size now i w done s rest HH Hnow Hsz Hsel Hi) as Hs.
    cbn zeta in Hs. cbn [hhh_walk] in Htg. unfold subnet_of in Htg.
    replace (2 ^ 32 - 2 ^ (31 - i)) with (Z.lor (Z.shiftr (w_mask w) 1) (2 ^ 31)) in Htg
      by (rewrite Hmask'; do 2 f_equal; lia).
    set (a := Z.land src _) in *. destruct (hhh_subnet c s (IpAddr a) size now) as [[cap s']|].
    + destruct Hs as (index & st' & -> & HH'). eexists. split; [done|].
      exists (done ++ [s']), rest. rewrite <- app_assoc. simpl. split_and!; [done| |done|done| |].
      * unfold zlen. rewrite length_app. simpl. lia.
      * unfold zlen in *. simpl in Hlen. lia.
      * assert (found (Walk (zlen done) (Z.lor (Z.shiftr (w_mask w) 1) (2 ^ 31))
          (Z.shiftr (w_subnets_mask w) 1) index (captured_hh w || cap) (if cap then a else hh w)
          (if cap then i + 1 else hh_subnet_sz w) st') = if cap then Some (a, i + 1) else found w) as ->.
        { unfold found. simpl. destruct cap; by rewrite ?orb_true_r, ?orb_false_r. }
        destruct (hhh_walk _ _ rest _ _ _ _) as [ss' r]. by rewrite <- app_assoc.
    + destruct Hs as (st' & -> & HH'). eexists. split; [done|]. by subst target.
Qed.

Lemma update_buckets_spec masked_p range st ss src size now :
  hhh_inv masked_p range st ss now → zlen ss = zlen (selected config 0) → 0 ≤ now < 2 ^ 63 →
  0 ≤ size ≤ burst config →
  let '(ss', report) := hhh_walk c (selected config 0) ss src size now None in
  ∃ st', update_buckets pow2 config st masked_p src size now = Some (report, st') ∧
    hhh_inv masked_p range st' ss' now.
Proof.
  intros HH Hlen Hnow Hsz. destruct (hhh_walk _ _ ss _ _ _ _) as [ss' report] eqn:Ew.
  unfold update_buckets.
  edestruct (for_u32_rule (R := State) (walking masked_p range src size now (ss', report))
    (λ st', hhh_inv masked_p range st' ss' now ∧ report = None))
    as (o & -> & Ho); [lia|lia| |intros i w Hi HI; by apply walk_step|].
  - exists [], ss. split_and!; [done..|]. change (found _) with (@None (Z * Z)). by rewrite Ew.
  - cbn [mbind option_bind]. destruct o as [w|st'].
    + destruct Ho as (done & rest & HH' & _ & _ & _ & Hl & Ht).
      assert (rest = []) as -> by (destruct rest; [done|unfold zlen in Hl; simpl in Hl; lia]).
      change (selected config 32) with (@nil Z) in Ht. cbn [hhh_walk] in Ht.
      injection Ht as Hd <-. rewrite app_nil_r in *. subst. by eexists.
    + destruct Ho as [HH' ->]. by eexists.
Qed.

Lemma hhh_inv_mono masked_p range st ss before now :
  hhh_inv masked_p range st ss before → before ≤ now → hhh_inv masked_p range st ss now.
Proof.
  intros [HT Hr Hn] Hle. constructor; [|done..]. eapply Forall2_impl; [exact HT|].
  intros tb s []. constructor; try done. by eapply t_sorted_mono.
Qed.

(** Expiration of one table. *)
Lemma expire_table masked_p range tb (s : table ip_addr * list DynamicValue) now time :
  pol_inv pow2 c masked_p range (pol_of tb) s.1 s.2 now →
  ∃ n ch' M', expire_items_single_map pow2 (o_chain (objs tb)) (o_vec (objs tb)) (o_map (objs tb))
      time = Some (n, ch', M') ∧ 0 ≤ n ≤ range ∧
    pol_inv pow2 c masked_p range (pol_of (MkTable (Objs M' (o_vec (objs tb)) ch') (buckets tb)))
      (t_expire s.1 time) s.2 now.
Proof.
  intros HI. destruct (expire_items_single_map_spec pow2 _ _ _ time (pi_emap _ _ _ _ _ _ _ _ HI))
    as (ch' & M' & Hx & HE'). eexists _, ch', M'. split; [exact Hx|].
  pose proof (ents_length _ _ _ _ (pi_emap _ _ _ _ _ _ _ _ HI)).
  pose proof (ents_length _ _ _ _ HE').
  destruct (drop_old_suffix (ents s.1) (t_frees s.1) time) as (l & Hl).
  apply (f_equal length) in Hl. rewrite length_app in Hl. unfold t_expire in *. split; [lia|].
  destruct HI. constructor; simpl; try done.
  - by apply t_expire_sorted.
  - intros e He%t_expire_elem. auto.
Qed.

Lemma hhh_expire_spec masked_p range st ss before now :
  hhh_inv masked_p range st ss before → zlen ss ≤ 32 → before ≤ now → 0 ≤ now < 2 ^ 63 →
  ∃ freed st', expire_entries pow2 config st now = Some (freed, st') ∧
    hhh_inv masked_p range st' (hhh_expire c ss now) now.
Proof.
  intros HH0 H32 Hle Hnow. pose proof (hhh_inv_mono _ _ _ _ _ _ HH0 Hle) as HH. clear HH0.
  destruct HC as [Hr Hb Hf _]. cbn [bucket_config Pol.rate Pol.burst] in Hr, Hb, Hf.
  unfold expire_entries, u64_div. destruct (Z.leb_spec 0 now); [|lia].
  rewrite (hi_rate _ _ _ _ _ HH). destruct (Z.eqb_spec rate 0); [lia|].
  cbn [c_assert mbind option_bind]. rewrite (u64_small (_ * burst config))
    by (unfold VIGOR_TIME_SECONDS_MULTIPLIER, tokens_per_second in *; lia).
  change VIGOR_TIME_SECONDS_MULTIPLIER with tokens_per_second.
  assert (0 ≤ tokens_per_second * burst config / rate < 2 ^ 63) as Hq.
  { split; [apply Z.div_pos; unfold tokens_per_second; lia|].
    apply Z.div_lt_upper_bound; [lia|]. unfold tokens_per_second in *. nia. }
  rewrite (s64_small (_ / _)) by lia. rewrite last_time_exact by lia.
  set (time := now - tokens_per_second * burst config / rate).
  rewrite (hi_count _ _ _ _ _ HH).
  edestruct (for_each_rule (S := Z * State) (λ j '(freed, st), 0 ≤ freed ≤ j * 2 ^ 32 ∧
     ∃ l1 l2, ss = l1 ++ l2 ∧ zlen l1 = j ∧
       hhh_inv masked_p range st (((λ s, (t_expire s.1 time, s.2)) <$> l1) ++ l2) now) 0 (zlen ss))
    as ([freed st'] & -> & Hfr & l1 & l2 & -> & Hl & HH'); [unfold zlen; lia|lia| | |].
  - split; [lia|]. exists [], ss. by split_and!.
  - intros j [freed st1] Hj (Hfr & l1 & l2 & -> & Hl & HH1).
    destruct l2 as [|s l2]; [exfalso; unfold zlen in *; rewrite app_nil_r in *; lia|].
    set (l1' := (λ s, (t_expire s.1 time, s.2)) <$> l1) in *.
    assert (zlen l1' = j) as Hl1 by (unfold l1', zlen; rewrite length_fmap; done).
    destruct (table_at _ _ _ _ _ _ _ HH1) as (tb & Htb & HI). rewrite Hl1 in Htb. rewrite Htb.
    cbn [mbind option_bind].
    destruct (expire_table masked_p range tb s now time HI) as (n1 & ch' & M' & -> & Hn1 & HI').
    cbn [mbind option_bind].
    destruct (set_table_spec _ _ _ _ _ _ _ _ (t_expire s.1 time, s.2) HH1 HI') as (st2 & Hst & HH2).
    rewrite Hl1 in Hst. rewrite Hst. cbn [mbind option_bind].
    pose proof (dc_range _ _ _ (em_chain _ _ _ _ (pi_emap _ _ _ _ _ _ _ _ HI))) as Hrg.
    unfold IRANG_LIMIT in Hrg. rewrite int64_chk_small by (unfold zlen in *; nia).
    cbn [mbind option_bind]. eexists. split; [done|]. split; [lia|].
    exists (l1 ++ [s]), l2. rewrite <- app_assoc. split_and!; [done| |].
    + unfold zlen in *. rewrite length_app. simpl. lia.
    + rewrite fmap_app, <- app_assoc. exact HH2.
  - eexists _, _. split; [done|]. unfold hhh_expire.
    assert (l2 = []) as ->.
    { destruct l2; [done|]. unfold zlen in *. rewrite length_app in Hl. simpl in Hl. lia. }
    by rewrite !app_nil_r in *.
Qed.

Hypothesis Hburst : 65535 ≤ burst config.

Lemma hhh_process_spec masked_p range before now device st ss pk tail :
  hhh_inv masked_p range st ss before → zlen ss = zlen (selected config 0) → before ≤ now →
  0 ≤ now < 2 ^ 63 → received pk tail →
  let '(dev, report, ss') :=
    hhh_spec config rate ss device (global_total_length pk) now (ipv4_src pk) in
  ∃ pk' st', nf_process pow2 config st masked_p device (global_total_length pk) now pk =
      Some (dev, report, pk', st') ∧
    hhh_inv masked_p range st' ss' now ∧ buf pk' = buf pk ∧ nf_return_all_chunks pk' = pk.
Proof.
  intros HH0 Hlen Hle Hnow HR. unfold nf_process, hhh_spec.
  rewrite (ether_header_spec pk tail HR). cbn [mbind option_bind].
  rewrite (ipv4_header_spec pk tail HR). cbn [mbind option_bind].
  destruct (after_ipv4_frame pk) as (Hb & Hbuf & Ht & r & Hr). pose proof (rc_base _ _ HR).
  assert (nf_return_all_chunks (after_ipv4 pk) = pk) as Hret.
  { rewrite (return_chunks_rewinds pk _ r Hb Hr), Hb, Hbuf, Ht. destruct HR, pk; simpl in *; by subst. }
  unfold ipv4_src. destruct (ipv4_ok (buf pk) (global_total_length pk)) eqn:Hip.
  2: { rewrite Z.eqb_refl. eexists _, _. split_and!; try done. by eapply hhh_inv_mono. }
  rewrite not_null by (unfold NULL; lia).
  assert (zlen ss ≤ 32) as H32 by (rewrite Hlen; apply selected_count).
  destruct (hhh_expire_spec masked_p range st ss before now HH0 H32 Hle Hnow) as (n & st1 & -> & HH).
  cbn [mbind option_bind].
  destruct (ipv4_word pk tail src_addr_off HR Hip) as (a & -> & Hld); [unfold src_addr_off; lia|].
  destruct (device =? lan_device config); [by eauto 8|].
  destruct (device =? wan_device config); [|by eauto 8].
  rewrite Hld. cbn [mbind option_bind]. pose proof (rc_total _ _ HR).
  pose proof (update_buckets_spec masked_p range st1 (hhh_expire c ss now) a (global_total_length pk)
    now HH) as Hu.
  destruct (hhh_walk _ _ _ _ _ _ _) as [ss' report]. destruct Hu as (st2 & -> & HH2);
    [unfold hhh_expire, zlen; by rewrite length_fmap|done|lia|]. cbn [mbind option_bind]. eauto 8.
Qed.

(** *** Levels

    The level of a subnet in its table is the one of the policer, with the burst
    spread over the time that a bucket takes to fill, in nanoseconds. *)

Definition fill_time : Z := tokens_per_second * burst config / rate.

Lemma fill_weights : weights c fill_time (burst config).
Proof.
  destruct HC as [Hr Hb _ _]. cbn [bucket_config Pol.rate Pol.burst] in *. unfold fill_time.
  constructor; cbn [bucket_config Pol.rate Pol.burst].
  - apply Z.div_pos; unfold tokens_per_second; lia.
  - done.
  - rewrite Z.mul_comm. apply Z.mul_div_le. lia.
  - rewrite (Z.mul_comm tokens_per_second). lia.
Qed.

(** Expiration forgets only full buckets. *)
Lemma level_expired masked_p range st t vals now a :
  pol_inv pow2 c masked_p range st t vals now →
  level c fill_time (burst config) (t_expire t (now - fill_time), vals) a now =
    level c fill_time (burst config) (t, vals) a now.
Proof.
  intros HI. unfold level, t_expire. cbn [fst snd].
  pose proof (drop_old_sorted (ents t) (t_frees t)
    (now - fill_time) (proj1 (pi_sorted _ _ _ _ _ _ _ _ HI))) as Hents.
  destruct (drop_old _ _ _) as [es fs]. simpl in Hents. subst es.
  rewrite t_lookup_filter by apply (em_keys _ _ _ _ (pi_emap _ _ _ _ _ _ _ _ HI)).
  destruct (t_lookup t a) as [e|] eqn:El; [|done]. case_decide as Hk; [done|].
  apply t_lookup_Some in El as [He _].
  destruct (pi_vals _ _ _ _ _ _ _ _ HI e He) as (v & -> & Hbs & Hbt & _).
  rewrite Z.min_l; [done|]. destruct fill_weights as [Hw Hsl _ _]. unfold full_level.
  cbn [bucket_config Pol.burst] in *. nia.
Qed.

(** A step on one table that does not capture the subnet pays for its bytes. *)
Lemma level_subnet masked_p range tb (s s' : table ip_addr * list DynamicValue) now x a size cap :
  pol_inv pow2 c masked_p range (pol_of tb) s.1 s.2 now → 0 ≤ now < 2 ^ 63 → 0 ≤ size →
  hhh_subnet c s (IpAddr x) size now = Some (cap, s') →
  fill_time * (if negb cap && bool_decide (x = a) then size else 0) +
    level c fill_time (burst config) s' (IpAddr a) now ≤ level c fill_time (burst config) s (IpAddr a) now.
Proof.
  intros HI Hnow Hsz Hs. unfold hhh_subnet in Hs. destruct s as [t vals]. cbn [fst] in *.
  destruct (pol_check c (t, vals) (IpAddr x) size now) as [fits [t' vals']] eqn:Ec.
  assert (fits = negb cap ∧ s' = (t', vals')) as [-> ->]
    by (destruct (t_lookup t (IpAddr x)), fits; simplify_eq/=; done).
  pose proof (level_check pow2 c HC _ _ fill_weights masked_p range (pol_of tb) t vals now x (IpAddr a) size
    (negb cap) t' vals' HI Hnow Hsz Ec) as Hl.
  assert (bool_decide (IpAddr a = IpAddr x) = bool_decide (x = a)) as <-; [|done].
  apply bool_decide_ext. split; congruence.
Qed.

(** A table with a free index never turns a subnet away. *)
Lemma subnet_room masked_p range tb (s : table ip_addr * list DynamicValue) x size now :
  pol_inv pow2 c masked_p range (pol_of tb) s.1 s.2 now → size ≤ burst config →
  t_frees s.1 ≠ [] →
  ∃ cap s', hhh_subnet c s x size now = Some (cap, s') ∧
    (length (t_frees s.1) ≤ S (length (t_frees s'.1)))%nat.
Proof.
  intros HI Hsz Hfr. destruct s as [t vals]. unfold hhh_subnet, pol_check. cbn [fst snd] in *.
  destruct (t_lookup t x) as [e|] eqn:El.
  - destruct (t_lookup_Some _ _ _ El) as [He _].
    destruct (pi_vals _ _ _ _ _ _ _ _ HI e He) as (v & -> & _).
    destruct (tb_update c v size now) as [f v']. eexists _, _. split; [done|]. simpl. lia.
  - cbn [bucket_config Pol.burst]. destruct (Z.ltb_spec (burst config) size); [lia|].
    destruct (t_frees t) as [|i fs] eqn:E; [done|]. eexists _, _. split; [done|].
    unfold t_add. rewrite E. simpl. lia.
Qed.

(** The walk takes a step in every table, and reports when one captures. *)
Lemma walk_pointwise masked_p range tbs ps ss src size now report ss' r :
  Forall2 (λ tb s, pol_inv pow2 c masked_p range (pol_of tb) s.1 s.2 now) tbs ss →
  length ss = length ps → size ≤ burst config → Forall (λ s, t_frees s.1 ≠ []) ss →
  hhh_walk c ps ss src size now report = (ss', r) →
  (is_Some report → is_Some r) ∧
  ∀ k p s, ps !! k = Some p → ss !! k = Some s → ∃ cap s',
    ss' !! k = Some s' ∧ hhh_subnet c s (IpAddr (subnet_of src p)) size now = Some (cap, s') ∧
    (cap = true → is_Some r) ∧ (length (t_frees s.1) ≤ S (length (t_frees s'.1)))%nat.
Proof.
  intros HT Hl Hsz. revert ps report ss' r Hl.
  induction HT as [|tb s tbs ss HI HT IH]; intros [|p ps] report ss' r Hl Hfr Hw; simplify_eq/=.
  { by split. }
  apply Forall_cons in Hfr as [Hf Hfr].
  destruct (subnet_room masked_p range tb s (IpAddr (subnet_of src p)) size now HI Hsz Hf)
    as (cap & s' & Hs & Hlen). rewrite Hs in Hw.
  destruct (hhh_walk c ps ss _ _ _ _) as [rest r'] eqn:Ew. simplify_eq.
  destruct (IH ps _ rest r Hl Hfr Ew) as [Hrep Hk]. split.
  { intros Hsome. apply Hrep. by destruct cap. }
  intros [|k] p' s0 Hp Hs0; simplify_eq/=; [|by eapply Hk].
  exists cap, s'. split_and!; [done|done| |done]. intros ->. by apply Hrep.
Qed.

Lemma drop_old_frees (es : list (ent ip_addr)) fs time :
  (length fs ≤ length (t_frees (drop_old es fs time)))%nat.
Proof.
  revert fs. induction es as [|e es IH]; intros fs; simpl; [lia|].
  destruct (e_time e <? time); [|simpl; lia]. specialize (IH (e_idx e :: fs)). simpl in IH. lia.
Qed.

(** One packet, seen from one table: it has at most one free index less, and
    unless the packet is reported, its level has paid for the packet. *)
Lemma level_event masked_p range before st ss ev tail k p s a n :
  hhh_inv masked_p range st ss before → zlen ss = zlen (selected config 0) →
  before ≤ ev_now ev → 0 ≤ ev_now ev < 2 ^ 63 → received (ev_packet ev) tail →
  Forall (λ s, S n ≤ length (t_frees s.1))%nat ss →
  selected config 0 !! k = Some p → ss !! k = Some s →
  let '(_, r, ss') := hhh_spec config rate ss (ev_device ev) (global_total_length (ev_packet ev))
                        (ev_now ev) (ipv4_src (ev_packet ev)) in
  ∃ s', ss' !! k = Some s' ∧ (n ≤ length (t_frees s'.1))%nat ∧
    ((from_subnet config p a ev = true → r = None) →
     fill_time *
       (if from_subnet config p a ev then global_total_length (ev_packet ev) else 0) +
       level c fill_time (burst config) s' (IpAddr a) (ev_now ev) ≤
       level c fill_time (burst config) s (IpAddr a) before + burst config * (ev_now ev - before)).
Proof.
  intros HH0 Hlen Hle Hnow HR Hroom Hp Hs. pose proof (rc_total _ _ HR) as Htot.
  pose proof (hhh_inv_mono _ _ _ _ _ _ HH0 Hle) as [HT _ _].
  pose proof (level_advance c _ _ fill_weights s (IpAddr a) before (ev_now ev) Hle) as Hadv.
  unfold hhh_spec, from_subnet.
  destruct (Forall2_lookup_r _ _ _ _ _ HT Hs) as (tb & Htb & HI).
  rewrite Forall_lookup in Hroom. pose proof (Hroom k s Hs) as Hsn.
  destruct (ipv4_src (ev_packet ev)) as [x|]; [|rewrite andb_false_r; exists s; split_and!; [done|lia|lia]].
  set (now := ev_now ev) in *. set (len := global_total_length (ev_packet ev)) in *.
  set (time := now - fill_time).
  assert (hhh_expire c ss now !! k = Some (t_expire s.1 time, s.2)) as Hek.
  { unfold hhh_expire. by rewrite list_lookup_fmap, Hs. }
  pose proof (level_expired masked_p range (pol_of tb) s.1 s.2 now (IpAddr a) HI) as Hex.
  fold time in Hex. rewrite <- surjective_pairing in Hex.
  pose proof (drop_old_frees (ents s.1) (t_frees s.1) time) as Hfe.
  destruct (hhh_expire_spec masked_p range st ss before now HH0) as (_ & st1 & _ & [HTe _ _]);
    [rewrite Hlen; apply selected_count|done..|].
  pose proof (co_devices _ HC) as Hdev. cbn [bucket_config Pol.lan_device Pol.wan_device] in Hdev.
  destruct (Z.eqb_spec (ev_device ev) (lan_device config)) as [El|Hl].
  { destruct (Z.eqb_spec (ev_device ev) (wan_device config)); [congruence|].
    eexists. split; [exact Hek|]. unfold t_expire at 1. cbn [fst andb]. split; [lia|]. intros _. lia. }
  destruct (ev_device ev =? wan_device config); cbn [andb].
  2: { eexists. split; [exact Hek|]. unfold t_expire at 1. cbn [fst]. split; [lia|]. intros _. lia. }
  destruct (hhh_walk c _ _ _ _ _ _) as [ss' r] eqn:Ew.
  destruct (walk_pointwise masked_p range (tables st1) (selected config 0) _ x len now None ss' r
    HTe) as [_ Hk];
    [|unfold len; lia| |exact Ew|].
  { unfold hhh_expire. rewrite length_fmap. unfold zlen in Hlen. lia. }
  { unfold hhh_expire. apply Forall_fmap, Forall_lookup. intros j s0 Hj.
    change (t_frees (t_expire s0.1 time) ≠ []). pose proof (Hroom j s0 Hj). pose proof (drop_old_frees (ents s0.1) (t_frees s0.1) time) as Hf0.
    unfold t_expire. intros E. rewrite E in Hf0. simpl in Hf0. lia. }
  destruct (Hk k p _ Hp Hek) as (cap & s' & Hs' & Hsub & Hcap & Hfr).
  exists s'. split; [done|]. unfold t_expire in Hfr. cbn [fst] in Hfr. split; [lia|]. intros Hq.
  destruct (Forall2_lookup_r _ _ _ _ _ HTe Hek) as (tb1 & _ & HI1).
  pose proof (level_subnet masked_p range tb1 _ s' now (subnet_of x p) a len cap HI1 Hnow
    ltac:(unfold len; lia) Hsub) as Hl'.
  destruct (bool_decide (subnet_of x p = a)); [|rewrite andb_false_r in Hl'; lia].
  destruct cap; cbn [negb andb] in Hl'; [|lia].
  specialize (Hq eq_refl). destruct (Hcap eq_refl). congruence.
Qed.

(** Over any run that the tables have room for, a subnet that is not reported
    has not sent more than its level allows. *)
Lemma hhh_run_level masked_p range evs before st ss :
  hhh_inv masked_p range st ss before → zlen ss = zlen (selected config 0) → 0 ≤ before →
  events_ok before evs → Forall (λ s, length evs ≤ length (t_frees s.1))%nat ss →
  ∃ outs st' ss', hhh_run pow2 config masked_p evs st = Some (outs, st') ∧
    hhh_inv masked_p range st' ss' (last_now before evs) ∧
    ∀ k p s a, selected config 0 !! k = Some p → ss !! k = Some s → quiet config p a evs outs →
      ∃ s', ss' !! k = Some s' ∧
        fill_time * sent config p a evs +
            level c fill_time (burst config) s' (IpAddr a) (last_now before evs) ≤
          level c fill_time (burst config) s (IpAddr a) before +
            burst config * (last_now before evs - before).
Proof.
  revert before st ss. induction evs as [|ev evs IH]; intros before st ss HH Hlen Hb Hok Hroom.
  { exists [], st, ss. split_and!; [done|done|]. intros k p s a _ Hs _. exists s. simpl. split; [done|lia]. }
  destruct Hok as (Hle & Hn & (tail & HR) & Hok). cbn [hhh_run last_now]. simpl in Hroom.
  pose proof (hhh_process_spec masked_p range before (ev_now ev) (ev_device ev) st ss
    (ev_packet ev) tail HH Hlen Hle ltac:(lia) HR) as Hp.
  pose proof (λ k p s a, level_event masked_p range before st ss ev tail k p s a (length evs)
    HH Hlen Hle ltac:(lia) HR Hroom) as Hlev.
  pose proof (hhh_spec_length config rate ss (ev_device ev)
    (global_total_length (ev_packet ev)) (ev_now ev) (ipv4_src (ev_packet ev))) as Hl1.
  destruct (hhh_spec _ _ _ _ _ _ _) as [[dev r] ss1]. destruct Hp as (pk' & st1 & -> & HH1 & _).
  cbn [mbind option_bind]. cbn [snd] in Hl1.
  destruct (IH (ev_now ev) st1 ss1 HH1) as (outs & st' & ss' & -> & HH' & Hq);
    [unfold zlen in *; lia|lia|done| |].
  { apply Forall_lookup. intros k s1 Hs1.
    destruct (lookup_lt_is_Some_2 (selected config 0) k) as [p Hp].
    { apply lookup_lt_Some in Hs1. unfold zlen in Hlen. lia. }
    destruct (lookup_lt_is_Some_2 ss k) as [s Hs].
    { apply lookup_lt_Some in Hs1. lia. }
    destruct (Hlev k p s 0 Hp Hs) as (s' & Hs' & Hfr & _). congruence. }
  cbn [mbind option_bind]. eexists _, _, _. split_and!; [done|done|].
  intros k p s a Hp Hs [Hq1 Hq2]. destruct (Hlev k p s a Hp Hs) as (s1 & Hs1 & _ & Hl).
  destruct (Hq k p s1 a Hp Hs1 Hq2) as (s' & Hs' & Hl'). exists s'. split; [done|].
  specialize (Hl Hq1). cbn [sent]. lia.
Qed.

End proofs.

(** ** Main results *)

(** Either no packet of the subnet is reported, or one is. *)
Lemma quiet_or_reported config p a evs outs :
  quiet config p a evs outs ∨
  ∃ i ev dev hit, evs !! i = Some ev ∧ from_subnet config p a ev = true ∧
    outs !! i = Some (dev, Some hit).
Proof.
  revert outs. induction evs as [|ev evs IH]; intros [|[dev r] outs]; try by left.
  destruct (IH outs) as [Hq|(i & ev' & dev' & hit & Hi)]; [|right; by exists (S i), ev', dev', hit].
  destruct (from_subnet config p a ev) eqn:E; [|left; split; [congruence|done]].
  destruct r as [hit|]; [|left; by split]. right. by exists 0%nat, ev, dev, hit.
Qed.

(** Heavy hitters are reported.  When the threshold rate is positive, the burst
    is at least the largest packet, and every table has as many free indexes as
    there are packets in a run, the handler processes the run without undefined
    behaviour or failed assertion; and for every selected prefix length and every
    subnet of that length which sends more in the run than the burst plus one
    burst for every [fill_time] nanoseconds that have elapsed, some packet of
    that subnet is reported.  The fill time is the burst divided by the rate,
    rounded down to nanoseconds. *)
Theorem hhh_reports_heavy_hitters `{KeyLaws ip_addr} (pow2 : bool) (config : nf_config)
    (rate masked_p range before : Z) (st : State) (ss : hhh_abs) (evs : list event) (p a : Z) :
  Pol.config_ok (bucket_config config rate) → 65535 ≤ burst config →
  hhh_inv pow2 config rate masked_p range st ss before →
  zlen ss = zlen (selected config 0) → 0 ≤ before → events_ok before evs →
  Forall (λ s, length evs ≤ length (t_frees s.1))%nat ss → p ∈ selected config 0 →
  ∃ outs st', hhh_run pow2 config masked_p evs st = Some (outs, st') ∧
    (fill_time config rate * burst config + burst config * (last_now before evs - before) <
       fill_time config rate * sent config p a evs →
     ∃ i ev dev hit, evs !! i = Some ev ∧ from_subnet config p a ev = true ∧
       outs !! i = Some (dev, Some hit)).
Proof.
  intros HC Hb HH Hlen Hbef Hok Hroom [k Hp]%list_elem_of_lookup.
  destruct (hhh_run_level pow2 config rate HC Hb masked_p range evs before st ss HH Hlen Hbef
    Hok Hroom) as (outs & st' & ss' & Hrun & HH' & Hlev).
  exists outs, st'. split; [done|]. intros Hmuch.
  destruct (quiet_or_reported config p a evs outs) as [Hq|Hr]; [exfalso|done].
  destruct (lookup_lt_is_Some_2 ss k) as [s Hs].
  { apply lookup_lt_Some in Hp. unfold zlen in Hlen. lia. }
  destruct (Hlev k p s a Hp Hs Hq) as (s' & Hs' & Hl).
  destruct (Forall2_lookup_r _ _ _ _ _ (hi_tables _ _ _ _ _ _ _ _ HH') Hs') as (tb & _ & HI).
  pose proof (level_nonneg pow2 _ HC _ _ (fill_weights config rate HC Hb) _ _ _ _ _ _ (IpAddr a) HI) as Hpos.
  rewrite <- surjective_pairing in Hpos.
  pose proof (level_le_full (bucket_config config rate) (fill_time config rate) (burst config) s (IpAddr a)
    before) as Hf.
  unfold full_level in Hf. cbn [bucket_config Pol.burst] in Hf. lia.
Qed.

(** ** Concrete instances *)

#[local] Existing Instance demo_ip_ops.
#[local] Existing Instance demo_ip_laws.

(** Prefixes of 8 and of 24 bits, a burst of 65600 bytes and a rate of 100. *)
Definition demo_hhh_config : nf_config := MkConfig 0 1 (2 ^ 7 + 2 ^ 23) 65600.

Definition demo_hhh_state : State :=
  MkState (replicate 2 (MkTable (Pol.dyn demo_pol_state) (Pol.dyn_vals demo_pol_state))) 100 2.

Definition demo_hhh_abs : hhh_abs := replicate 2 (Table [] [0; 1; 2], replicate 3 (MkValue 0 0)).

Lemma demo_hhh_inv : hhh_inv false demo_hhh_config 100 8 3 demo_hhh_state demo_hhh_abs 0.
Proof.
  constructor; [|done..].
  apply Forall2_replicate. exact (demo_pol_inv (bucket_config demo_hhh_config 100)).
Qed.

(** [demo_packet] with a payload that makes it 60000 bytes long. *)
Definition demo_big : packet := Packet 4096 (buf demo_packet ++ replicate (Z.to_nat 60000) 0) 60000 0 [].

Lemma demo_big_received : received demo_big 80.
Proof.
  constructor; try done. cbn [buf demo_big].
  apply Forall_app_2; [exact (rc_bytes _ _ demo_packet_received)|]. apply Forall_replicate. lia.
Qed.

Definition demo_heavy : list event := [Event 1 1 demo_big; Event 1 2 demo_big].

Lemma hhh_reports_heavy_hitters_witness :
  ∃ outs st' i dev hit, hhh_run false demo_hhh_config 8 demo_heavy demo_hhh_state = Some (outs, st') ∧
    outs !! i = Some (dev, Some hit).
Proof.
  destruct (hhh_reports_heavy_hitters false demo_hhh_config 100 8 3 0 demo_hhh_state demo_hhh_abs
    demo_heavy 7 10) as (outs & st' & Hrun & Hhit).
  - constructor; done.
  - done.
  - apply demo_hhh_inv.
  - done.
  - done.
  - repeat split; simpl; try lia; exists 80; apply demo_big_received.
  - repeat constructor.
  - vm_compute. by left.
  - destruct Hhit as (i & ev & dev & hit & _ & _ & Hi); [vm_compute; reflexivity|].
    exists outs, st', i, dev, hit. split; [exact Hrun|exact Hi].
Defined.
