(* ===== verification/Lpm.v ===== *)
(** * lpm-dir-24-8.c

    Longest-prefix match with the DIR-24-8 scheme: a table indexed by the first
    24 bits of an address and groups of 256 entries for longer prefixes.  The
    first table has 2^24 entries, so an array is kept here as its length, the
    entries written so far and the contents of the memory it was allocated in. *)
From stdpp Require Import base list gmap numbers sets.
From Stdlib Require Import ZArith Lia.
From S2P Require Import Prelude.
From S2P Require Import Memory.

(** ** Large arrays of 16-bit entries *)

Record array := MkArray { a_len : Z; a_written : gmap Z Z; a_junk : Z → Z }.

Definition ard (t : array) (i : Z) : option Z :=
  if (0 <=? i) && (i <? a_len t) then Some (default (a_junk t i) (a_written t !! i)) else None.

Definition awr (t : array) (i v : Z) : option array :=
  if (0 <=? i) && (i <? a_len t)
  then Some (MkArray (a_len t) (<[i := v]> (a_written t)) (a_junk t)) else None.

(** ** Constants and data *)

Definition lpm_PLEN_MAX : Z := 32.
Definition BYTE_SIZE : Z := 8.
Definition INVALID : Z := 65535.
Definition lpm_24_FLAG_MASK : Z := 32768.
Definition lpm_24_MAX_ENTRIES : Z := 16777216.
Definition lpm_24_VAL_MASK : Z := 32767.
Definition lpm_LONG_OFFSET_MAX : Z := 256.
Definition lpm_LONG_FACTOR : Z := 256.
Definition lpm_LONG_MAX_ENTRIES : Z := 65536.
Definition MAX_NEXT_HOP_VALUE : Z := 32767.

Record lpm := MkLpm { lpm_24 : array; lpm_long : array; lpm_long_index : Z }.

(** [for (i = first;; i++) { if (i == last) break; t[i] = v; }] with a counter
    of 32 bits; the fuel is one unit per entry and one for the last test. *)
Definition fill_range (t : array) (first last v : Z) : option array :=
  iterate (S (Z.to_nat (last - first)))
    (λ '(i, t), if i =? last then Some (Return t)
                else t' ← awr t i v; Some (Continue (u32 (i + 1), t')))
    (first, t).

Definition fill_invalid (t : array) (size : Z) : option array := fill_range t 0 size INVALID.

(** 0x00000000, 0x80000000, 0xC0000000, ..., 0xFFFFFFFF *)
Definition ip_masks : list Z :=
  [0; 2147483648; 3221225472; 3758096384; 4026531840; 4160749568;
   4227858432; 4261412864; 4278190080; 4286578688; 4290772992; 4292870144;
   4293918720; 4294443008; 4294705152; 4294836224; 4294901760; 4294934528;
   4294950912; 4294959104; 4294963200; 4294965248; 4294966272; 4294966784;
   4294967040; 4294967168; 4294967232; 4294967264; 4294967280; 4294967288;
   4294967292; 4294967294; 4294967295].

Definition build_mask_from_prefixlen (prefixlen : Z) : option Z := rd ip_masks prefixlen.

Definition lpm_24_extract_first_index (data : Z) : Z := Z.shiftr data BYTE_SIZE.

Definition compute_rule_size (prefixlen : Z) : option Z :=
  if prefixlen <? 25 then
    rd [16777216; 8388608; 4194304; 2097152; 1048576; 524288; 262144; 131072; 65536; 32768;
        16384; 8192; 4096; 2048; 1024; 512; 256; 128; 64; 32; 16; 8; 4; 2; 1] prefixlen
  else rd [128; 64; 32; 16; 8; 4; 2; 1] (prefixlen - 25).

Definition lpm_24_entry_flag (entry : Z) : bool := Z.shiftr entry 15 =? 1.

Definition lpm_24_entry_set_flag (entry : Z) : Z := u16 (Z.lor entry lpm_24_FLAG_MASK).

Definition lpm_long_extract_first_index (data prefixlen base_index : Z) : option Z :=
  mask ← build_mask_from_prefixlen prefixlen;
  let masked_data := Z.land data mask in
  let last_byte := u8 (Z.land masked_data 255) in
  Some (u16 (base_index * u16 lpm_LONG_FACTOR + last_byte)).

(** Returns the result, [*lpm_out] and the tables behind it on success. *)
Definition lpm_allocate (lpm_out : Z) : M (Z * Z * option lpm) :=
  _lpm ← malloc 24;
  if _lpm =? NULL then mret (0, lpm_out, None) else
  lpm_24 ← malloc (lpm_24_MAX_ENTRIES * 2);
  if lpm_24 =? NULL then
    _ ← free _lpm;
    mret (0, lpm_out, None) else
  lpm_long ← malloc (lpm_LONG_MAX_ENTRIES * 2);
  if lpm_long =? NULL then
    _ ← free lpm_24; _ ← free _lpm;
    mret (0, lpm_out, None) else
  μ ← (λ μ, Some (μ, μ) : option (mem * mem));
  t24 ← lift (fill_invalid (MkArray lpm_24_MAX_ENTRIES ∅ (λ i, junk μ (lpm_24 + 2 * i)))
                lpm_24_MAX_ENTRIES);
  tlong ← lift (fill_invalid (MkArray lpm_LONG_MAX_ENTRIES ∅ (λ i, junk μ (lpm_long + 2 * i)))
                lpm_LONG_MAX_ENTRIES);
  mret (1, _lpm, Some (MkLpm t24 tlong 0)).

(** The three blocks are the struct and its two tables. *)
Definition lpm_free (lpm_24_p lpm_long_p lpm_p : Z) : M unit :=
  _ ← free lpm_24_p; _ ← free lpm_long_p; free lpm_p.

Definition lpm_lookup_elem (L : lpm) (prefix : Z) : option Z :=
  let index := lpm_24_extract_first_index prefix in
  value ← ard (lpm_24 L) index;
  if negb (value =? INVALID) && lpm_24_entry_flag value then
    let extracted_index := u8 (Z.land value 255) in
    index_long ← lpm_long_extract_first_index prefix 32 extracted_index;
    value_long ← ard (lpm_long L) index_long;
    if value_long =? INVALID then Some INVALID else Some value_long
  else if value =? INVALID then Some INVALID else Some value.

Definition lpm_update_elem (L : lpm) (prefix prefixlen value : Z) : option (Z * lpm) :=
  mask ← build_mask_from_prefixlen prefixlen;
  let masked_ip := Z.land prefix mask in
  if prefixlen <? 25 then
    let first_index := lpm_24_extract_first_index masked_ip in
    rule_size ← compute_rule_size prefixlen;
    let last_index := u32 (first_index + rule_size) in
    t ← fill_range (lpm_24 L) first_index last_index value;
    Some (1, MkLpm t (lpm_long L) (lpm_long_index L))
  else
    let lpm_24_index := lpm_24_extract_first_index prefix in
    lpm_24_value ← ard (lpm_24 L) lpm_24_index;
    let need_new_index :=
      if lpm_24_value =? INVALID then true else negb (lpm_24_entry_flag lpm_24_value) in
    if need_new_index && (lpm_LONG_OFFSET_MAX <=? lpm_long_index L) then Some (0, L) else
    '(base_index, t24, new_long_index) ←
      (if (need_new_index : bool) then
         let base_index := u8 (lpm_long_index L) in
         let new_long_index := u16 (lpm_long_index L + 1) in
         t ← awr (lpm_24 L) lpm_24_index (lpm_24_entry_set_flag base_index);
         Some (base_index, t, new_long_index)
       else Some (u8 (Z.land lpm_24_value 32767), lpm_24 L, lpm_long_index L));
    first_index ← lpm_long_extract_first_index prefix prefixlen base_index;
    rule_size ← compute_rule_size prefixlen;
    let last_index := u32 (first_index + rule_size) in
    t ← fill_range (lpm_long L) first_index last_index value;
    Some (1, MkLpm t24 t new_long_index).

(** ** Arrays *)

Lemma ard_awr t i v t' j :
  awr t i v = Some t' → ard t' j = if (i =? j) then Some v else ard t j.
Proof.
  unfold awr, ard. destruct (Z.leb_spec 0 i), (Z.ltb_spec i (a_len t)); simpl; try done.
  intros [= <-]. simpl. destruct (Z.eqb_spec i j) as [<-|Hne].
  - rewrite lookup_insert_eq. destruct (Z.leb_spec 0 i), (Z.ltb_spec i (a_len t)); simpl; lia || done.
  - by rewrite lookup_insert_ne.
Qed.

Lemma awr_Some t i v :
  0 ≤ i < a_len t → ∃ t', awr t i v = Some t' ∧ a_len t' = a_len t.
Proof.
  intros Hi. unfold awr. destruct (Z.leb_spec 0 i), (Z.ltb_spec i (a_len t)); simpl; try lia. eauto.
Qed.

Lemma ard_range t i v : ard t i = Some v → 0 ≤ i < a_len t.
Proof.
  unfold ard. destruct (Z.leb_spec 0 i), (Z.ltb_spec i (a_len t)); simpl; done || lia.
Qed.

Lemma ard_Some t i : 0 ≤ i < a_len t → ∃ v, ard t i = Some v.
Proof.
  intros. unfold ard. destruct (Z.leb_spec 0 i), (Z.ltb_spec i (a_len t)); simpl; lia || eauto.
Qed.

(** The fill loop terminates and writes exactly its range. *)
Lemma fill_range_spec t first last v :
  0 ≤ first ≤ last → last ≤ a_len t → a_len t < 2 ^ 32 →
  ∃ t', fill_range t first last v = Some t' ∧ a_len t' = a_len t ∧
    ∀ i, ard t' i = if (first <=? i) && (i <? last) then Some v else ard t i.
Proof.
  intros Hf Hl Hlen. unfold fill_range.
  destruct (iterate_rule (S := Z * array) (R := array)
    (λ '(i, t1), first ≤ i ≤ last ∧ a_len t1 = a_len t ∧
       ∀ j, ard t1 j = if (first <=? j) && (j <? i) then Some v else ard t j)
    (λ t1, a_len t1 = a_len t ∧
       ∀ j, ard t1 j = if (first <=? j) && (j <? last) then Some v else ard t j)
    (λ '(i, _), Z.to_nat (last - i))
    (λ '(i, t), if i =? last then Some (Return t)
                else t' ← awr t i v; Some (Continue (u32 (i + 1), t')))
    (S (Z.to_nat (last - first))) (first, t)) as (t' & Ht & Hlen' & Hr).
  - intros [i t1] (Hi & Hlt & Hr). destruct (Z.eqb_spec i last) as [->|Hne].
    { eexists. split; [done|]. split; [done|]. exact Hr. }
    destruct (awr_Some t1 i v) as (t2 & Hw & Hl2); [lia|]. rewrite Hw. cbn [mbind option_bind].
    eexists. split; [done|]. cbn beta iota. rewrite u32_small by lia.
    split; [|lia]. split_and!; [lia|lia|lia|].
    intros j. rewrite (ard_awr _ _ _ _ _ Hw), Hr.
    destruct (Z.eqb_spec i j), (Z.leb_spec first j), (Z.ltb_spec j i), (Z.ltb_spec j (i + 1));
      simpl; lia || done.
  - split_and!; [lia|lia|done|]. intros j.
    destruct (Z.leb_spec first j), (Z.ltb_spec j first); simpl; lia || done.
  - lia.
  - eauto.
Qed.

(** ** Bit arithmetic *)

Lemma build_mask_spec len :
  0 ≤ len ≤ 32 →
  build_mask_from_prefixlen len = Some (Z.shiftl (Z.ones len) (32 - len)).
Proof.
  intros Hl. assert (∃ n, len = Z.of_nat n ∧ (n ≤ 32)%nat) as (n & -> & Hn)
    by (exists (Z.to_nat len); lia). clear Hl.
  do 33 (destruct n as [|n]; [reflexivity|]). lia.
Qed.

Lemma land_prefix x len :
  0 ≤ len ≤ 32 → 0 ≤ x < 2 ^ 32 →
  Z.land x (Z.shiftl (Z.ones len) (32 - len)) = 2 ^ (32 - len) * (x / 2 ^ (32 - len)).
Proof.
  intros Hl Hx. set (k := 32 - len).
  assert (Z.land x (Z.shiftl (Z.ones len) k) = Z.shiftl (Z.land (Z.shiftr x k) (Z.ones len)) k) as ->.
  { apply Z.bits_inj'. intros n Hn. rewrite Z.land_spec, !Z.shiftl_spec by done.
    destruct (Z.lt_ge_cases n k).
    - rewrite !Z.testbit_neg_r with (n := n - k) by lia. apply andb_false_r.
    - rewrite Z.land_spec, Z.shiftr_spec by lia. by replace (n - k + k) with n by lia. }
  rewrite Z.shiftl_mul_pow2, Z.land_ones, Z.shiftr_div_pow2 by lia.
  rewrite Z.mod_small; [lia|]. split; [apply Z.div_pos; lia|].
  apply Z.div_lt_upper_bound; [lia|]. subst k. rewrite <- Z.pow_add_r by lia.
  replace (32 - len + len) with 32 by lia. lia.
Qed.

Lemma rule_size_short len : 0 ≤ len ≤ 24 → compute_rule_size len = Some (2 ^ (24 - len)).
Proof.
  intros Hl. assert (∃ n, len = Z.of_nat n ∧ (n ≤ 24)%nat) as (n & -> & Hn)
    by (exists (Z.to_nat len); lia). clear Hl.
  do 25 (destruct n as [|n]; [reflexivity|]). lia.
Qed.

Lemma rule_size_long len : 25 ≤ len ≤ 32 → compute_rule_size len = Some (2 ^ (32 - len)).
Proof.
  intros Hl. assert (∃ n, len = 25 + Z.of_nat n ∧ (n ≤ 7)%nat) as (n & -> & Hn)
    by (exists (Z.to_nat (len - 25)); lia). clear Hl.
  do 8 (destruct n as [|n]; [reflexivity|]). lia.
Qed.

Lemma first_index_spec x : lpm_24_extract_first_index x = x / 256.
Proof. unfold lpm_24_extract_first_index, BYTE_SIZE. by rewrite Z.shiftr_div_pow2. Qed.

Lemma land_255 x : Z.land x 255 = x mod 256.
Proof. change 255 with (Z.ones 8). by rewrite Z.land_ones. Qed.

(** The first entry of a rule in its group. *)
Lemma long_index_spec data len b :
  0 ≤ data < 2 ^ 32 → 24 ≤ len ≤ 32 → 0 ≤ b < 256 →
  lpm_long_extract_first_index data len b =
    Some (256 * b + 2 ^ (32 - len) * (data mod 256 / 2 ^ (32 - len))).
Proof.
  intros Hd Hl Hb. unfold lpm_long_extract_first_index, lpm_LONG_FACTOR.
  rewrite build_mask_spec by lia. cbn [mbind option_bind].
  rewrite land_prefix, land_255 by lia.
  assert (2 ^ (32 - len) * (data / 2 ^ (32 - len)) mod 256 =
          2 ^ (32 - len) * (data mod 256 / 2 ^ (32 - len))) as ->.
  { set (p := 2 ^ (32 - len)). assert (0 < p) by (apply Z.pow_pos_nonneg; lia).
    assert (256 = p * 2 ^ (len - 24)) as Hp.
    { subst p. rewrite <- Z.pow_add_r by lia. by replace (32 - len + (len - 24)) with 8 by lia. }
    assert (0 < 2 ^ (len - 24)) by (apply Z.pow_pos_nonneg; lia).
    rewrite Hp, Z.mul_mod_distr_l by lia. f_equal.
    set (q := 2 ^ (len - 24)) in *. pose proof (Z.div_mod data (p * q) ltac:(lia)) as Hdm.
    pose proof (Z.mod_pos_bound data (p * q) ltac:(lia)).
    set (A := data / (p * q)) in *. set (r := data mod (p * q)) in *.
    replace data with (q * A * p + r) by lia.
    rewrite Z.div_add_l by lia. rewrite (Z.mul_comm q), Z.add_comm, Z.mod_add by lia.
    apply Z.mod_small. split; [apply Z.div_pos; lia|]. apply Z.div_lt_upper_bound; lia. }
  assert (0 ≤ 2 ^ (32 - len) * (data mod 256 / 2 ^ (32 - len)) < 256) as Hr.
  { assert (0 < 2 ^ (32 - len)) by (apply Z.pow_pos_nonneg; lia).
    pose proof (Z.mod_pos_bound data 256 ltac:(lia)).
    pose proof (Z.mul_div_le (data mod 256) (2 ^ (32 - len)) ltac:(lia)).
    assert (0 ≤ data mod 256 / 2 ^ (32 - len)) by (apply Z.div_pos; lia). nia. }
  change (u16 256) with 256. rewrite u8_small by lia. rewrite u16_small by lia. f_equal. lia.
Qed.

Lemma flag_spec v : 0 ≤ v < 2 ^ 16 → lpm_24_entry_flag v = (32768 <=? v).
Proof.
  intros Hv. unfold lpm_24_entry_flag. rewrite Z.shiftr_div_pow2 by lia.
  change (2 ^ 15) with 32768. change (2 ^ 16) with 65536 in Hv.
  destruct (Z.eqb_spec (v / 32768) 1), (Z.leb_spec 32768 v); try done;
    Z.div_mod_to_equations; lia.
Qed.

Lemma set_flag_spec b : 0 ≤ b < 256 → lpm_24_entry_set_flag b = 32768 + b.
Proof.
  intros Hb. unfold lpm_24_entry_set_flag, lpm_24_FLAG_MASK.
  rewrite Z.lor_comm. change 32768 with (Z.shiftl 1 15).
  assert (Z.lor (Z.shiftl 1 15) b = 2 ^ 15 * 1 + b) as ->.
  { assert (Z.land (Z.shiftl 1 15) b = 0) as Hl.
    { change (Z.shiftl 1 15) with (2 ^ 15). apply Z.bits_inj'. intros n Hn.
      rewrite Z.land_spec, Z.bits_0. destruct (Z.eq_dec n 15) as [->|Hne].
      - rewrite (Z.bits_above_log2 b 15); [apply andb_false_r|lia|].
        destruct (Z.eq_dec b 0) as [->|]; [done|]. apply Z.log2_lt_pow2; lia.
      - rewrite Z.pow2_bits_false by lia. done. }
    pose proof (Z.add_lor_land (Z.shiftl 1 15) b) as Ha. rewrite Hl in Ha.
    change (Z.shiftl 1 15) with 32768 in *. lia. }
  rewrite u16_small; [|lia]. done.
Qed.

(** ** Invariant and lookups *)

Record lpm_ok (L : lpm) : Prop := LpmOk {
  lo_24 : a_len (lpm_24 L) = lpm_24_MAX_ENTRIES;
  lo_long : a_len (lpm_long L) = lpm_LONG_MAX_ENTRIES;
  lo_index : 0 ≤ lpm_long_index L ≤ lpm_LONG_OFFSET_MAX;
  (** an entry is invalid, a next hop, or the flagged number of a group in use *)
  lo_entry : ∀ i v, ard (lpm_24 L) i = Some v →
    v = INVALID ∨ 0 ≤ v ≤ MAX_NEXT_HOP_VALUE ∨
    ∃ b, 0 ≤ b < lpm_long_index L ∧ v = lpm_24_FLAG_MASK + b;
  (** no two entries share a group *)
  lo_inj : ∀ i j b, 0 ≤ b < 256 → ard (lpm_24 L) i = Some (lpm_24_FLAG_MASK + b) →
    ard (lpm_24 L) j = Some (lpm_24_FLAG_MASK + b) → i = j;
  lo_long_entry : ∀ i v, ard (lpm_long L) i = Some v →
    v = INVALID ∨ 0 ≤ v ≤ MAX_NEXT_HOP_VALUE;
  lo_fresh : ∀ i, 256 * lpm_long_index L ≤ i < lpm_LONG_MAX_ENTRIES →
    ard (lpm_long L) i = Some INVALID
}.

(** The rule [prefix/len] applies to address [a]. *)
Definition covers (prefix len a : Z) : bool :=
  a / 2 ^ (32 - len) =? prefix / 2 ^ (32 - len).

(** The first 24 bits lead to a group. *)
Definition grouped (L : lpm) (i : Z) : bool :=
  match ard (lpm_24 L) i with
  | Some v => negb (v =? INVALID) && lpm_24_entry_flag v
  | None => false
  end.

Ltac lpm_const :=
  unfold INVALID, lpm_24_FLAG_MASK, MAX_NEXT_HOP_VALUE, lpm_24_MAX_ENTRIES,
    lpm_LONG_MAX_ENTRIES, lpm_LONG_OFFSET_MAX in *.

Section invariant.
Context (L : lpm).
Hypothesis HL : lpm_ok L.

Lemma addr_index a : 0 ≤ a < 2 ^ 32 → 0 ≤ a / 256 < lpm_24_MAX_ENTRIES.
Proof. lpm_const. change (2 ^ 32) with 4294967296. Z.div_mod_to_equations. lia. Qed.

(** A plain entry is the answer. *)
Lemma lookup_plain a v :
  ard (lpm_24 L) (a / 256) = Some v → v = INVALID ∨ 0 ≤ v ≤ MAX_NEXT_HOP_VALUE →
  lpm_lookup_elem L a = Some v ∧ grouped L (a / 256) = false.
Proof.
  intros Hv Hcase. unfold lpm_lookup_elem, grouped. rewrite first_index_spec, Hv.
  cbn [mbind option_bind]. destruct Hcase as [->|Hr].
  - by rewrite Z.eqb_refl.
  - lpm_const. destruct (Z.eqb_spec v 65535); [lia|]. rewrite flag_spec by lia.
    destruct (Z.leb_spec 32768 v); [lia|]. done.
Qed.

(** A flagged entry leads to an entry of its group. *)
Lemma lookup_group a b :
  0 ≤ a < 2 ^ 32 → 0 ≤ b < 256 → ard (lpm_24 L) (a / 256) = Some (lpm_24_FLAG_MASK + b) →
  lpm_lookup_elem L a = ard (lpm_long L) (256 * b + a mod 256) ∧ grouped L (a / 256) = true.
Proof.
  intros Ha Hb Hv. unfold lpm_lookup_elem, grouped. rewrite first_index_spec, Hv.
  cbn [mbind option_bind]. lpm_const. rewrite flag_spec by lia.
  destruct (Z.eqb_spec (32768 + b) 65535); [lia|]. destruct (Z.leb_spec 32768 (32768 + b)); [|lia].
  cbn [negb andb]. split; [|done]. rewrite land_255.
  replace ((32768 + b) mod 256) with b by (Z.div_mod_to_equations; lia).
  rewrite u8_small by lia. rewrite long_index_spec by lia. cbn [mbind option_bind].
  replace (2 ^ (32 - 32)) with 1 by done. rewrite Z.div_1_r, Z.mul_1_l.
  destruct (ard_Some (lpm_long L) (256 * b + a mod 256)) as [w Hw].
  { rewrite (lo_long _ HL). lpm_const. pose proof (Z.mod_pos_bound a 256). lia. }
  rewrite Hw. cbn [mbind option_bind]. destruct (Z.eqb_spec w 65535) as [->|]; done.
Qed.

(** Every lookup returns a next hop or [INVALID]. *)
Lemma lookup_total a :
  0 ≤ a < 2 ^ 32 → ∃ v, lpm_lookup_elem L a = Some v ∧ (v = INVALID ∨ 0 ≤ v ≤ MAX_NEXT_HOP_VALUE).
Proof.
  intros Ha. destruct (ard_Some (lpm_24 L) (a / 256)) as [v Hv].
  { rewrite (lo_24 _ HL). by apply addr_index. }
  destruct (lo_entry _ HL _ _ Hv) as [Hi|[Hr|(b & Hb & ->)]].
  - exists v. split; [|by left]. apply lookup_plain; auto.
  - exists v. split; [|by right]. apply lookup_plain; auto.
  - pose proof (lo_index _ HL). lpm_const.
    destruct (lookup_group a b) as [-> _]; [done|lia|done|].
    destruct (ard_Some (lpm_long L) (256 * b + a mod 256)) as [w Hw].
    { rewrite (lo_long _ HL). lpm_const. pose proof (Z.mod_pos_bound a 256). lia. }
    exists w. split; [done|]. by apply (lo_long_entry _ HL) in Hw.
Qed.

(** A grouped index holds the number of its group. *)
Lemma grouped_true i :
  grouped L i = true → ∃ b, 0 ≤ b < lpm_long_index L ∧ ard (lpm_24 L) i = Some (lpm_24_FLAG_MASK + b).
Proof.
  unfold grouped. destruct (ard (lpm_24 L) i) as [v|] eqn:Hv; [|done].
  intros [Hi Hf]%andb_true_iff. zbool.
  destruct (lo_entry _ HL _ _ Hv) as [?|[Hr|(b & Hb & ->)]]; [done| |by eauto].
  lpm_const. rewrite flag_spec in Hf by lia. zbool. lia.
Qed.

Lemma grouped_false i v :
  grouped L i = false → ard (lpm_24 L) i = Some v → v = INVALID ∨ 0 ≤ v ≤ MAX_NEXT_HOP_VALUE.
Proof.
  unfold grouped. intros Hg Hv. rewrite Hv in Hg.
  destruct (lo_entry _ HL _ _ Hv) as [?|[Hr|(b & Hb & ->)]]; [by left|by right|].
  pose proof (lo_index _ HL). lpm_const.
  destruct (Z.eqb_spec (32768 + b) 65535); [lia|]. rewrite flag_spec in Hg by lia.
  simpl in Hg. zbool. lia.
Qed.

(** *** Updates with a prefix of at most 24 bits *)

Lemma update_short prefix len v :
  0 ≤ prefix < 2 ^ 32 → 0 ≤ len ≤ 24 → 0 ≤ v ≤ MAX_NEXT_HOP_VALUE →
  ∃ L', lpm_update_elem L prefix len v = Some (1, L') ∧ lpm_ok L' ∧
    lpm_long_index L' = lpm_long_index L ∧
    (∀ a, 0 ≤ a < 2 ^ 32 → lpm_lookup_elem L' a =
            if covers prefix len a then Some v else lpm_lookup_elem L a) ∧
    (∀ i, grouped L i = false → grouped L' i = false).
Proof.
  intros Hp Hlen Hv. unfold lpm_update_elem. rewrite build_mask_spec by lia.
  cbn [mbind option_bind]. destruct (Z.ltb_spec len 25); [|lia].
  rewrite first_index_spec, land_prefix, rule_size_short by lia. cbn [mbind option_bind].
  set (P := prefix / 2 ^ (32 - len)). set (w := 2 ^ (24 - len)).
  assert (0 < w) by (apply Z.pow_pos_nonneg; lia).
  assert (2 ^ (32 - len) = 256 * w) as H256.
  { subst w. change 256 with (2 ^ 8). rewrite <- Z.pow_add_r by lia. f_equal. lia. }
  rewrite H256. replace (256 * w * P) with (w * P * 256) by lia. rewrite Z.div_mul by lia.
  assert (0 ≤ P ∧ w * (P + 1) ≤ 2 ^ 24) as [HP0 HP1].
  { subst P. rewrite H256. split; [apply Z.div_pos; lia|].
    assert (w * 2 ^ len = 2 ^ 24) as Hw
      by (subst w; rewrite <- Z.pow_add_r by lia; f_equal; lia).
    rewrite <- Hw. apply Z.mul_le_mono_nonneg_l; [lia|].
    assert (prefix / (256 * w) < 2 ^ len); [|lia]. apply Z.div_lt_upper_bound; [lia|].
    rewrite <- Z.mul_assoc, Hw. lia. }
  rewrite u32_small by lia.
  destruct (fill_range_spec (lpm_24 L) (w * P) (w * P + w) v) as (t' & -> & Hl' & Hr);
    [lia|rewrite (lo_24 _ HL); lpm_const; lia|rewrite (lo_24 _ HL); done|].
  cbn [mbind option_bind]. eexists. split; [done|]. set (L' := MkLpm t' _ _).
  assert (∀ a, 0 ≤ a < 2 ^ 32 →
    (w * P <=? a / 256) && (a / 256 <? w * P + w) = covers prefix len a) as Hcov.
  { intros a Ha. unfold covers. fold P. rewrite H256, <- Z.div_div by lia.
    set (i := a / 256).
    destruct (Z.leb_spec (w * P) i), (Z.ltb_spec i (w * P + w)), (Z.eqb_spec (i / w) P);
      simpl; try done; exfalso; Z.div_mod_to_equations; nia. }
  assert (lpm_ok L') as HL'.
  { constructor; simpl; try apply HL.
    - rewrite Hl'. apply HL.
    - intros i x. rewrite Hr. destruct (_ && _); [intros [= <-]; auto|apply (lo_entry _ HL)].
    - intros i j b Hb. rewrite !Hr. lpm_const.
      destruct (_ && _); [intros [= ?]; lia|]. destruct (_ && _); [intros _ [= ?]; lia|].
      by apply (lo_inj _ HL). }
  split_and!; [done|done| |].
  - intros a Ha. rewrite <- Hcov by done.
    destruct (_ && _) eqn:Ein.
    + assert (lpm_lookup_elem L' a = Some v ∧ grouped L' (a / 256) = false) as [? _]; [|done].
      unfold lpm_lookup_elem, grouped. rewrite first_index_spec. simpl. rewrite Hr, Ein.
      cbn [mbind option_bind]. lpm_const. rewrite flag_spec by lia.
      destruct (Z.eqb_spec v 65535); [lia|]. destruct (Z.leb_spec 32768 v); [lia|done].
    + unfold lpm_lookup_elem. rewrite first_index_spec. simpl. by rewrite Hr, Ein.
  - intros i Hg. unfold grouped in *. simpl. rewrite Hr. destruct (_ && _); [|done].
    lpm_const. rewrite flag_spec by lia. destruct (Z.leb_spec 32768 v); [lia|].
    apply andb_false_r.
Qed.

End invariant.

(** *** Updates with a longer prefix *)

Section groups.
Context (L : lpm).
Hypothesis HL : lpm_ok L.

(** A fresh group for index [i]: its 256 addresses have no route any more. *)
Lemma open_group i :
  0 ≤ i < lpm_24_MAX_ENTRIES → grouped L i = false → lpm_long_index L < lpm_LONG_OFFSET_MAX →
  ∃ t, awr (lpm_24 L) i (lpm_24_entry_set_flag (u8 (lpm_long_index L))) = Some t ∧
    let L1 := MkLpm t (lpm_long L) (u16 (lpm_long_index L + 1)) in
    lpm_ok L1 ∧ lpm_long_index L1 = lpm_long_index L + 1 ∧
    ard (lpm_24 L1) i = Some (lpm_24_FLAG_MASK + lpm_long_index L) ∧
    (∀ a, 0 ≤ a < 2 ^ 32 → lpm_lookup_elem L1 a =
            if a / 256 =? i then Some INVALID else lpm_lookup_elem L a) ∧
    (∀ j, j ≠ i → grouped L1 j = grouped L j).
Proof.
  intros Hi Hg Hx. pose proof (lo_index _ HL) as Hidx. pose proof (lo_24 _ HL) as Hl24.
  lpm_const. rewrite u8_small, set_flag_spec, u16_small by lia.
  destruct (awr_Some (lpm_24 L) i (32768 + lpm_long_index L)) as (t & Hw & Hlt); [lia|].
  exists t. split; [done|]. cbn zeta. set (L1 := MkLpm t (lpm_long L) (lpm_long_index L + 1)).
  assert (∀ j, ard t j = if i =? j then Some (32768 + lpm_long_index L) else ard (lpm_24 L) j) as Hr
    by (intros; by eapply ard_awr).
  assert (lpm_ok L1) as HL1.
  { constructor; simpl; lpm_const; try apply HL; try lia.
    - intros j w. rewrite Hr. destruct (i =? j).
      + intros [= <-]. right. right. exists (lpm_long_index L). lia.
      + intros Hj. destruct (lo_entry _ HL _ _ Hj) as [?|[?|(b & ? & ?)]]; [auto..|].
        lpm_const. right. right. exists b. lia.
    - intros j1 j2 b Hb. rewrite !Hr.
      assert (∀ j, ard (lpm_24 L) j = Some (32768 + b) → b < lpm_long_index L) as Hlt'.
      { intros j Hj. destruct (lo_entry _ HL _ _ Hj) as [?|[?|(b' & ? & ?)]]; lpm_const; lia. }
      destruct (Z.eqb_spec i j1), (Z.eqb_spec i j2); [congruence| | |by apply (lo_inj _ HL)].
      + intros [= ?] Hj. apply Hlt' in Hj. lia.
      + intros Hj [= ?]. apply Hlt' in Hj. lia.
    - intros j Hj. apply (lo_fresh _ HL). lpm_const. lia. }
  assert (ard t i = Some (32768 + lpm_long_index L)) as Hti by (rewrite Hr; by rewrite Z.eqb_refl).
  split_and!; [done|done|done| |].
  - intros a Ha. destruct (Z.eqb_spec (a / 256) i) as [<-|Hne].
    + destruct (lookup_group L1 HL1 a (lpm_long_index L)) as [-> _]; [done|lia|done|]. simpl.
      apply (lo_fresh _ HL). lpm_const. pose proof (Z.mod_pos_bound a 256). lia.
    + unfold lpm_lookup_elem. rewrite first_index_spec. simpl. rewrite Hr.
      destruct (Z.eqb_spec i (a / 256)); [congruence|done].
  - intros j Hj. unfold grouped. simpl. rewrite Hr. destruct (Z.eqb_spec i j); [congruence|done].
Qed.

(** Writing a rule into the group of its first 24 bits. *)
Lemma write_group prefix len v b :
  0 ≤ prefix < 2 ^ 32 → 25 ≤ len ≤ 32 → 0 ≤ v ≤ MAX_NEXT_HOP_VALUE →
  0 ≤ b < lpm_long_index L → ard (lpm_24 L) (prefix / 256) = Some (lpm_24_FLAG_MASK + b) →
  let first := 256 * b + 2 ^ (32 - len) * (prefix mod 256 / 2 ^ (32 - len)) in
  ∃ t, fill_range (lpm_long L) first (u32 (first + 2 ^ (32 - len))) v = Some t ∧
    let L' := MkLpm (lpm_24 L) t (lpm_long_index L) in
    lpm_ok L' ∧
    ∀ a, 0 ≤ a < 2 ^ 32 → lpm_lookup_elem L' a =
           if covers prefix len a then Some v else lpm_lookup_elem L a.
Proof.
  intros Hp Hlen Hv Hb Hent first. pose proof (lo_index _ HL) as Hidx. pose proof (lo_long _ HL) as Hll.
  set (w := 2 ^ (32 - len)) in *. assert (0 < w) by (apply Z.pow_pos_nonneg; lia).
  set (q := 2 ^ (len - 24)). assert (0 < q) by (apply Z.pow_pos_nonneg; lia).
  assert (256 = w * q) as Hwq
    by (subst w q; rewrite <- Z.pow_add_r by lia; change 256 with (2 ^ 8); f_equal; lia).
  assert (0 ≤ prefix mod 256 / w < q) as Hd.
  { pose proof (Z.mod_pos_bound prefix 256). split; [apply Z.div_pos; lia|].
    apply Z.div_lt_upper_bound; lia. }
  lpm_const. assert (256 * b ≤ first ∧ first + w ≤ 256 * b + 256) as [Hf1 Hf2] by (subst first; nia).
  rewrite u32_small by lia.
  destruct (fill_range_spec (lpm_long L) first (first + w) v) as (t & -> & Hlt & Hr); [lia..|].
  exists t. split; [done|]. cbn zeta. set (L' := MkLpm (lpm_24 L) t (lpm_long_index L)).
  assert (lpm_ok L') as HL'.
  { constructor; simpl; lpm_const; try apply HL; [lia| |].
    - intros i x. rewrite Hr. destruct (_ && _); [intros [= <-]; auto|apply (lo_long_entry _ HL)].
    - intros i Hi. rewrite Hr. destruct (Z.leb_spec first i), (Z.ltb_spec i (first + w));
        simpl; try lia; apply (lo_fresh _ HL); lpm_const; lia. }
  split; [done|]. intros a Ha.
  assert (covers prefix len a = true → a / 256 = prefix / 256) as Hsame.
  { unfold covers. fold w. intros Hc. zbool. rewrite Hwq, <- !Z.div_div by lia. by rewrite Hc. }
  destruct (Z.eq_dec (a / 256) (prefix / 256)) as [Heq|Hne].
  - assert (ard (lpm_24 L) (a / 256) = Some (32768 + b)) as Ha24 by (by rewrite Heq).
    destruct (lookup_group L' HL' a b) as [-> _]; [done|lia|done|].
    destruct (lookup_group L HL a b) as [-> _]; [done|lia|done|]. simpl. rewrite Hr.
    assert ((first <=? 256 * b + a mod 256) && (256 * b + a mod 256 <? first + w) =
            covers prefix len a) as ->; [|done].
    unfold covers. fold w. pose proof (Z.mod_pos_bound a 256 ltac:(lia)) as Hma.
    pose proof (Z.div_mod a 256 ltac:(lia)) as Da. pose proof (Z.div_mod prefix 256 ltac:(lia)) as Dp.
    assert (a / w = q * (a / 256) + a mod 256 / w) as ->.
    { rewrite Da at 1. replace (256 * (a / 256)) with (q * (a / 256) * w) by nia.
      by rewrite Z.div_add_l by lia. }
    assert (prefix / w = q * (prefix / 256) + prefix mod 256 / w) as ->.
    { rewrite Dp at 1. replace (256 * (prefix / 256)) with (q * (prefix / 256) * w) by nia.
      by rewrite Z.div_add_l by lia. }
    rewrite Heq. subst first. set (x := a mod 256) in *. set (y := prefix mod 256 / w) in *.
    destruct (Z.leb_spec (256 * b + w * y) (256 * b + x)),
      (Z.ltb_spec (256 * b + x) (256 * b + w * y + w)),
      (Z.eqb_spec (q * (prefix / 256) + x / w) (q * (prefix / 256) + y)); simpl; try done;
      exfalso; clearbody x y; Z.div_mod_to_equations; nia.
  - destruct (covers prefix len a) eqn:Hc; [by destruct Hne; apply Hsame|].
    destruct (ard_Some (lpm_24 L) (a / 256)) as [x Hx].
    { rewrite (lo_24 _ HL). by apply addr_index. }
    destruct (lo_entry _ HL _ _ Hx) as [Hi|[Hrr|(b' & Hb' & ->)]].
    + destruct (lookup_plain L' a x Hx (or_introl Hi)) as [-> _].
      by destruct (lookup_plain L a x Hx (or_introl Hi)) as [-> _].
    + destruct (lookup_plain L' a x Hx (or_intror Hrr)) as [-> _].
      by destruct (lookup_plain L a x Hx (or_intror Hrr)) as [-> _].
    + lpm_const. destruct (lookup_group L' HL' a b') as [-> _]; [done|lia|done|].
      destruct (lookup_group L HL a b') as [-> _]; [done|lia|done|]. simpl. rewrite Hr.
      assert (b' ≠ b) by (intros ->; apply Hne; eapply (lo_inj _ HL _ _ b); lpm_const; [lia|done..]).
      pose proof (Z.mod_pos_bound a 256 ltac:(lia)).
      destruct (Z.leb_spec first (256 * b' + a mod 256)),
        (Z.ltb_spec (256 * b' + a mod 256) (first + w)); simpl; try done; lia.
Qed.

End groups.

Section updates.
Context (L : lpm).
Hypothesis HL : lpm_ok L.

Lemma update_long prefix len v :
  0 ≤ prefix < 2 ^ 32 → 25 ≤ len ≤ 32 → 0 ≤ v ≤ MAX_NEXT_HOP_VALUE →
  let i := prefix / 256 in
  if negb (grouped L i) && (lpm_LONG_OFFSET_MAX <=? lpm_long_index L)
  then lpm_update_elem L prefix len v = Some (0, L)
  else ∃ L', lpm_update_elem L prefix len v = Some (1, L') ∧ lpm_ok L' ∧
    lpm_long_index L' = lpm_long_index L + (if grouped L i then 0 else 1) ∧
    (∀ a, 0 ≤ a < 2 ^ 32 → lpm_lookup_elem L' a =
       if covers prefix len a then Some v
       else if negb (grouped L i) && (a / 256 =? i) then Some INVALID
       else lpm_lookup_elem L a) ∧
    grouped L' i = true ∧ (∀ j, j ≠ i → grouped L' j = grouped L j).
Proof.
  intros Hp Hlen Hv i. pose proof (addr_index prefix Hp) as Hi.
  pose proof (lo_index _ HL) as Hidx.
  destruct (ard_Some (lpm_24 L) i) as [x Hx]; [by rewrite (lo_24 _ HL)|].
  unfold lpm_update_elem. rewrite build_mask_spec by lia. cbn [mbind option_bind].
  destruct (Z.ltb_spec len 25); [lia|]. rewrite first_index_spec. fold i. rewrite Hx.
  cbn [mbind option_bind].
  assert ((if x =? INVALID then true else negb (lpm_24_entry_flag x)) = negb (grouped L i)) as ->.
  { unfold grouped. rewrite Hx. destruct (x =? INVALID); done. }
  rewrite rule_size_long by lia.
  destruct (grouped L i) eqn:Hg; cbn [negb andb].
  - destruct (grouped_true L HL i Hg) as (b & Hb & Hxb). rewrite Hx in Hxb. injection Hxb as ->.
    cbn [mbind option_bind]. change 32767 with (Z.ones 15). lpm_const.
    rewrite Z.land_ones by lia.
    replace ((32768 + b) mod 2 ^ 15) with b by (change (2 ^ 15) with 32768; Z.div_mod_to_equations; lia).
    rewrite u8_small by lia. rewrite long_index_spec by lia. cbn [mbind option_bind].
    destruct (write_group L HL prefix len v b) as (t & Hft & HL' & Hlk); [done..|].
    rewrite Hft. cbn [mbind option_bind]. eexists. split; [done|].
    split_and!; [done|simpl; lia|done|done|done].
  - destruct (Z.leb_spec lpm_LONG_OFFSET_MAX (lpm_long_index L)); [done|].
    destruct (open_group L HL i Hi Hg) as (t1 & -> & HL1 & Hi1 & He1 & Hlk1 & Hg1); [done|].
    cbn [mbind option_bind]. lpm_const. rewrite (u8_small (lpm_long_index L)) by lia.
    rewrite long_index_spec by lia. cbn [mbind option_bind].
    destruct (write_group _ HL1 prefix len v (lpm_long_index L)) as (t & Hft & HL' & Hlk);
      [done..|rewrite Hi1; lia|done|].
    cbn [lpm_long] in Hft. rewrite Hft. cbn [mbind option_bind]. eexists. split; [done|].
    split_and!; [done|exact Hi1| | |].
    + intros a Ha. rewrite Hlk by done. destruct (covers prefix len a); [done|]. by rewrite Hlk1.
    + unfold grouped. simpl. cbn [lpm_24] in He1. rewrite He1. lpm_const.
      destruct (Z.eqb_spec (32768 + lpm_long_index L) 65535); [lia|].
      rewrite flag_spec by lia. destruct (Z.leb_spec 32768 (32768 + lpm_long_index L)); [done|lia].
    + exact Hg1.
Qed.

End updates.

(** ** Tables built from rules *)

(** struct rule *)
Record rule := Rule { ipv4 : Z; prefixlen : Z; route : Z }.

Definition rule_ok (r : rule) : Prop :=
  0 ≤ ipv4 r < 2 ^ 32 ∧ 0 ≤ prefixlen r ≤ lpm_PLEN_MAX ∧ 0 ≤ route r ≤ MAX_NEXT_HOP_VALUE.

Definition applies (r : rule) (a : Z) : bool := covers (ipv4 r) (prefixlen r) a.

(** The longest rule that applies, the later one among equals. *)
Definition better (a : Z) (best : option rule) (r : rule) : option rule :=
  if applies r a then
    match best with
    | Some b => if prefixlen b <=? prefixlen r then Some r else best
    | None => Some r
    end
  else best.

Definition longest_match (rules : list rule) (a : Z) : Z :=
  match foldl (better a) None rules with Some r => route r | None => INVALID end.

(** Inserting rules in order; the results of the calls and the table. *)
Fixpoint lpm_insert (L : lpm) (rules : list rule) : option (list Z * lpm) :=
  match rules with
  | [] => Some ([], L)
  | r :: rules' =>
      '(ret, L1) ← lpm_update_elem L (ipv4 r) (prefixlen r) (route r);
      '(rets, L2) ← lpm_insert L1 rules';
      Some (ret :: rets, L2)
  end.

Definition lpm_empty (L : lpm) : Prop :=
  lpm_ok L ∧ lpm_long_index L = 0 ∧
  ∀ i, 0 ≤ i < lpm_24_MAX_ENTRIES → ard (lpm_24 L) i = Some INVALID.

Lemma lpm_insert_snoc L rules r rets L1 ret L2 :
  lpm_insert L rules = Some (rets, L1) →
  lpm_update_elem L1 (ipv4 r) (prefixlen r) (route r) = Some (ret, L2) →
  lpm_insert L (rules ++ [r]) = Some (rets ++ [ret], L2).
Proof.
  revert L rets. induction rules as [|r0 rules IH]; intros L rets Hi Hu.
  - injection Hi as <- <-. simpl. by rewrite Hu.
  - cbn [lpm_insert app] in *. destruct (lpm_update_elem L _ _ _) as [[ret0 L0]|]; [|done].
    cbn [mbind option_bind] in *.
    destruct (lpm_insert L0 rules) as [[rets0 L3]|] eqn:E; [|done]. cbn [mbind option_bind] in Hi.
    injection Hi as <- <-. rewrite (IH L0 rets0 E Hu). done.
Qed.

(** Rules of at most 24 bits do not tell apart the addresses of a group. *)
Lemma applies_same_24 r a b :
  0 ≤ prefixlen r ≤ 24 → a / 256 = b / 256 → applies r a = applies r b.
Proof.
  intros Hl Hab. unfold applies, covers.
  assert (2 ^ (32 - prefixlen r) = 256 * 2 ^ (24 - prefixlen r)) as ->.
  { change 256 with (2 ^ 8). rewrite <- Z.pow_add_r by lia. f_equal. lia. }
  assert (0 < 2 ^ (24 - prefixlen r)) by (apply Z.pow_pos_nonneg; lia).
  rewrite <- !(Z.div_div _ 256) by lia. by rewrite Hab.
Qed.

Lemma applies_long_24 r a : 25 ≤ prefixlen r ≤ 32 → applies r a = true → a / 256 = ipv4 r / 256.
Proof.
  unfold applies, covers. intros Hl Hc. zbool.
  set (w := 2 ^ (32 - prefixlen r)) in *. set (q := 2 ^ (prefixlen r - 24)).
  assert (0 < w) by (apply Z.pow_pos_nonneg; lia). assert (0 < q) by (apply Z.pow_pos_nonneg; lia).
  assert (256 = w * q) as ->
    by (subst w q; rewrite <- Z.pow_add_r by lia; change 256 with (2 ^ 8); f_equal; lia).
  rewrite <- !Z.div_div by lia. by rewrite Hc.
Qed.

Lemma foldl_better_none a rules :
  (∀ r, r ∈ rules → applies r a = false) → foldl (better a) None rules = None.
Proof.
  induction rules as [|r rules IH]; intros Hr; [done|]. simpl. unfold better at 2.
  rewrite Hr by (by left). apply IH. intros. apply Hr. by right.
Qed.

Lemma foldl_better_elem a rules b :
  foldl (better a) None rules = Some b → b ∈ rules.
Proof.
  induction rules as [|r rules IH] using rev_ind; [done|]. rewrite foldl_app. simpl.
  unfold better at 1. rewrite elem_of_app. destruct (applies r a); [|by left; auto].
  destruct (foldl _ _ _) as [b'|]; [|intros [= ->]; right; by left].
  destruct (_ <=? _); intros [= ->]; [right; by left|left; auto].
Qed.

(** In lists of increasing length the last rule that applies is the longest. *)
Lemma longest_match_snoc rules r a :
  (∀ r', r' ∈ rules → prefixlen r' ≤ prefixlen r) →
  longest_match (rules ++ [r]) a = if applies r a then route r else longest_match rules a.
Proof.
  intros Hs. unfold longest_match. rewrite foldl_app. simpl. unfold better at 1.
  destruct (applies r a); [|done].
  destruct (foldl (better a) None rules) as [b|] eqn:E; [|done].
  apply foldl_better_elem in E. destruct (Z.leb_spec (prefixlen b) (prefixlen r)); [done|].
  specialize (Hs b E). lia.
Qed.

(** The rules do not shadow each other: no rule of at most 24 bits contains the
    first 24 bits of a longer one. *)
Definition unshadowed (rules : list rule) : Prop :=
  ∀ r r', r ∈ rules → r' ∈ rules → prefixlen r ≤ 24 → 25 ≤ prefixlen r' →
    applies r (ipv4 r') = false.

Definition long_rules (rules : list rule) : nat := length (filter (λ r, 25 ≤ prefixlen r) rules).

(** The state after inserting [rules] into an empty table. *)
Record built (rules : list rule) (L : lpm) : Prop := Built {
  bl_ok : lpm_ok L;
  bl_index : lpm_long_index L ≤ Z.of_nat (long_rules rules);
  bl_lookup : ∀ a, 0 ≤ a < 2 ^ 32 → lpm_lookup_elem L a = Some (longest_match rules a);
  bl_group : ∀ r, r ∈ rules → 25 ≤ prefixlen r → grouped L (ipv4 r / 256) = true
}.

Lemma built_step rules r L :
  built rules L → rule_ok r → (∀ r', r' ∈ rules → prefixlen r' ≤ prefixlen r ∧ rule_ok r') →
  unshadowed (rules ++ [r]) → (long_rules (rules ++ [r]) ≤ 256)%nat →
  ∃ L', lpm_update_elem L (ipv4 r) (prefixlen r) (route r) = Some (1, L') ∧
        built (rules ++ [r]) L'.
Proof.
  intros [Hok Hidx Hlk Hgr] (Hip & Hlen & Hv) Hsort Hsh Hcnt. unfold lpm_PLEN_MAX in Hlen.
  unfold long_rules in Hcnt. rewrite filter_app, length_app in Hcnt.
  assert (∀ r', r' ∈ rules → prefixlen r' ≤ prefixlen r) as Hs by (intros; by apply Hsort).
  destruct (Z.le_gt_cases (prefixlen r) 24) as [Hshort|Hlong].
  - destruct (update_short L Hok (ipv4 r) (prefixlen r) (route r)) as (L' & Hu & HL' & Hi & Hl & _);
      [done|lia|done|].
    exists L'. split; [done|]. constructor; [done| | |].
    + rewrite Hi. unfold long_rules in *. rewrite filter_app, length_app. lia.
    + intros a Ha. rewrite Hl by done. rewrite longest_match_snoc by done. unfold applies.
      destruct (covers _ _ _); [done|]. by apply Hlk.
    + intros r' [Hr'|Hr'%list_elem_of_singleton]%elem_of_app ?; [specialize (Hs r' Hr'); lia|].
      subst. lia.
  - rewrite (filter_cons_True _ r []) in Hcnt by lia. simpl in Hcnt.
    pose proof (update_long L Hok (ipv4 r) (prefixlen r) (route r) Hip ltac:(lia) Hv) as Hu.
    cbn zeta in Hu. unfold long_rules in Hidx.
    destruct (negb (grouped L (ipv4 r / 256)) && _) eqn:Efull.
    { apply andb_true_iff in Efull as [_ Hfull]. zbool. lpm_const. lia. }
    destruct Hu as (L' & Hu & HL' & Hi & Hl & Hg1 & Hg2). exists L'. split; [done|].
    constructor; [done| | |].
    + rewrite Hi. unfold long_rules. rewrite filter_app, length_app, (filter_cons_True _ r []) by lia.
      simpl. destruct (grouped L (ipv4 r / 256)); lia.
    + intros a Ha. rewrite Hl by done. rewrite longest_match_snoc by done. fold (applies r a).
      destruct (applies r a); [done|].
      destruct (negb (grouped L (ipv4 r / 256)) && (a / 256 =? ipv4 r / 256)) eqn:En;
        [|by apply Hlk].
      apply andb_true_iff in En as [Hng Heq]. zbool. unfold longest_match.
      rewrite foldl_better_none; [done|]. intros r' Hr'.
      destruct (applies r' a) eqn:Happ; [|done]. destruct (Hsort r' Hr') as [_ (? & Hr'len & ?)].
      unfold lpm_PLEN_MAX in Hr'len.
      destruct (Z.le_gt_cases (prefixlen r') 24).
      * assert (applies r' (ipv4 r) = false) as Hno
          by (apply Hsh; [set_solver|set_solver|lia|lia]).
        rewrite (applies_same_24 r' a (ipv4 r)) in Happ by (done || lia). congruence.
      * apply applies_long_24 in Happ; [|lia]. rewrite Heq in Happ.
        rewrite Happ, (Hgr r' Hr') in Hng by lia. done.
    + intros r' [Hr'|Hr'%list_elem_of_singleton]%elem_of_app Hlen'; [|by subst].
      destruct (Z.eq_dec (ipv4 r' / 256) (ipv4 r / 256)) as [->|Hne]; [done|].
      rewrite Hg2 by done. by apply Hgr.
Qed.

Lemma built_empty L : lpm_empty L → built [] L.
Proof.
  intros (Hok & Hi & He). constructor; [done|simpl; lia| |].
  - intros a Ha. apply lookup_plain; [|by left]. apply He. by apply addr_index.
  - intros r Hr. by apply elem_of_nil in Hr.
Qed.

(** ** Allocation *)

Lemma lpm_allocate_spec lpm_out μ :
  mem_ok μ →
  ∃ res μ', lpm_allocate lpm_out μ = Some (res, μ') ∧
    ((res = (0, lpm_out, None) ∧ live μ' = live μ) ∨
     (∃ out L b1 b2, res = (1, out, Some L) ∧ out ≠ NULL ∧ live μ' = [b1; b2; out] ++ live μ ∧
        lpm_empty L)).
Proof.
  intros Hok. unfold lpm_allocate. malloc_all. mpure.
  destruct (fill_range_spec (MkArray lpm_24_MAX_ENTRIES ∅ (λ i, junk μ2 (p0 + 2 * i))) 0
    lpm_24_MAX_ENTRIES INVALID) as (t24 & H24 & Hl24 & Hr24); [lpm_const; lia|cbn [a_len]; lia|cbn [a_len]; lpm_const; lia|].
  destruct (fill_range_spec (MkArray lpm_LONG_MAX_ENTRIES ∅ (λ i, junk μ2 (p1 + 2 * i))) 0
    lpm_LONG_MAX_ENTRIES INVALID) as (tl & Hl & Hll & Hrl); [lpm_const; lia|cbn [a_len]; lia|cbn [a_len]; lpm_const; lia|].
  unfold fill_invalid. mlift H24. mlift Hl. clear H24 Hl.
  eexists _, _. split; [reflexivity|]. right.
  eexists p, _, p1, p0. split_and!; [reflexivity|done|simpl; congruence|].
  assert (∀ i v, ard t24 i = Some v → v = INVALID) as H24'.
  { intros i v Hv. pose proof (ard_range _ _ _ Hv) as Hi. rewrite Hl24 in Hi. simpl in Hi.
    rewrite Hr24 in Hv. destruct (Z.leb_spec 0 i), (Z.ltb_spec i lpm_24_MAX_ENTRIES); try lia.
    simpl in Hv. congruence. }
  assert (∀ i, 0 ≤ i < lpm_LONG_MAX_ENTRIES → ard tl i = Some INVALID) as Hl'.
  { intros i Hi. rewrite Hrl. destruct (Z.leb_spec 0 i), (Z.ltb_spec i lpm_LONG_MAX_ENTRIES);
      lia || done. }
  unfold lpm_empty. split_and!; [|reflexivity|].
  - constructor; cbn [lpm_24 lpm_long lpm_long_index];
      [exact Hl24|exact Hll|lpm_const; lia|..].
    + intros i v ?%H24'. by left.
    + intros i j b Hb Hi. apply H24' in Hi. lpm_const. lia.
    + intros i v Hv. pose proof (ard_range _ _ _ Hv) as Hi. rewrite Hll in Hi. simpl in Hi.
      rewrite Hl' in Hv by done. left. congruence.
    + intros i Hi. apply Hl'. lia.
  - intros i Hi. simpl. rewrite Hr24.
    destruct (Z.leb_spec 0 i), (Z.ltb_spec i lpm_24_MAX_ENTRIES); lia || done.
Qed.

(** ** Main results *)

(** The effect of an update.  On every well-formed table and for every
    prefix, length and next hop of the contract, [lpm_update_elem] terminates
    within the tables.  It refuses (and changes nothing) exactly when a new
    group is needed and all 256 are in use; otherwise it reports 1, keeps the
    tables well formed, and afterwards the addresses of the rule have its next
    hop, the other addresses of a newly opened group have none, and all other
    addresses have the next hop they had. *)
Theorem lpm_update_effect (L : lpm) (prefix len v : Z) :
  lpm_ok L → 0 ≤ prefix < 2 ^ 32 → 0 ≤ len ≤ lpm_PLEN_MAX → 0 ≤ v ≤ MAX_NEXT_HOP_VALUE →
  let opens := (24 <? len) && negb (grouped L (prefix / 256)) in
  if opens && (lpm_LONG_OFFSET_MAX <=? lpm_long_index L)
  then lpm_update_elem L prefix len v = Some (0, L)
  else ∃ L', lpm_update_elem L prefix len v = Some (1, L') ∧ lpm_ok L' ∧
    ∀ a, 0 ≤ a < 2 ^ 32 → lpm_lookup_elem L' a =
      if covers prefix len a then Some v
      else if opens && (a / 256 =? prefix / 256) then Some INVALID
      else lpm_lookup_elem L a.
Proof.
  intros HL Hp Hlen Hv. unfold lpm_PLEN_MAX in Hlen. cbn zeta. destruct (Z.ltb_spec 24 len).
  - pose proof (update_long L HL prefix len v Hp ltac:(lia) Hv) as Hu. cbn zeta in Hu.
    cbn [andb]. destruct (negb _ && _); [done|]. destruct Hu as (L' & ? & ? & _ & ? & _). eauto.
  - destruct (update_short L HL prefix len v Hp ltac:(lia) Hv) as (L' & ? & ? & _ & ? & _).
    cbn [andb]. eauto.
Qed.

Definition demo_lpm : lpm :=
  MkLpm (MkArray 16777216 ∅ (λ _, 65535)) (MkArray 65536 ∅ (λ _, 65535)) 0.

Lemma demo_ard n i : 0 ≤ i < n → ard (MkArray n ∅ (λ _, 65535)) i = Some 65535.
Proof.
  intros. unfold ard. cbn [a_len a_written a_junk].
  destruct (Z.leb_spec 0 i), (Z.ltb_spec i n); cbn [andb]; try lia. by rewrite lookup_empty.
Qed.

Lemma demo_lpm_empty : lpm_empty demo_lpm.
Proof.
  assert (∀ n i v, ard (MkArray n ∅ (λ _, 65535)) i = Some v → v = 65535) as Hinv.
  { intros n i v Hv. pose proof (ard_range _ _ _ Hv) as Hi. cbn [a_len] in Hi.
    rewrite demo_ard in Hv by done. congruence. }
  unfold lpm_empty, demo_lpm. split_and!; [|reflexivity|].
  - constructor; cbn [lpm_24 lpm_long lpm_long_index a_len];
      [reflexivity|reflexivity|lpm_const; lia|..].
    + intros i v ?%Hinv. by left.
    + intros i j b Hb Hi. apply Hinv in Hi. lpm_const. lia.
    + intros i v ?%Hinv. by left.
    + intros i Hi. apply demo_ard. lpm_const. lia.
  - intros i Hi. cbn [lpm_24]. apply demo_ard. lpm_const. lia.
Qed.

Lemma lpm_update_effect_witness :
  ∃ L', lpm_update_elem demo_lpm 167772288 25 7 = Some (1, L') ∧
    lpm_lookup_elem L' 167772289 = Some 7 ∧ lpm_lookup_elem L' 167772161 = Some INVALID.
Proof.
  destruct (lpm_update_effect demo_lpm 167772288 25 7 (proj1 demo_lpm_empty)) as (L' & Hu & _ & Hl);
    [lia|unfold lpm_PLEN_MAX; lia|unfold MAX_NEXT_HOP_VALUE; lia|].
  exists L'. split; [exact Hu|]. rewrite !Hl by lia. split; vm_compute; reflexivity.
Defined.

(** C20: longest-prefix match.  When rules are inserted into an empty table in
    the order of their lengths, at most 256 of them are longer than 24 bits,
    and no rule of at most 24 bits contains the first 24 bits of a longer one,
    then every insertion succeeds and every lookup returns the next hop of the
    longest rule that applies to the address, or [INVALID] when none does. *)
Theorem lpm_longest_prefix_match (L : lpm) (rules : list rule) :
  lpm_empty L → (∀ r, r ∈ rules → rule_ok r) →
  (∀ i j r r', (i < j)%nat → rules !! i = Some r → rules !! j = Some r' →
     prefixlen r ≤ prefixlen r') →
  unshadowed rules → (long_rules rules ≤ 256)%nat →
  ∃ rets L', lpm_insert L rules = Some (rets, L') ∧ Forall (λ x, x = 1) rets ∧ lpm_ok L' ∧
    ∀ a, 0 ≤ a < 2 ^ 32 → lpm_lookup_elem L' a = Some (longest_match rules a).
Proof.
  intros HL Hok Hsort Hsh Hcnt.
  assert (∃ rets L', lpm_insert L rules = Some (rets, L') ∧ Forall (λ x, x = 1) rets ∧
            built rules L') as (rets & L' & ? & ? & [? _ ? _]); [|by eauto 6].
  induction rules as [|r rules IH] using rev_ind.
  { exists [], L. split_and!; [done|constructor|by apply built_empty]. }
  destruct IH as (rets & L1 & Hi & Hrets & HB).
  - intros r' Hr'. apply Hok. set_solver.
  - intros i j r1 r2 Hij H1 H2.
    eapply Hsort; [exact Hij|apply lookup_app_l_Some; exact H1|apply lookup_app_l_Some; exact H2].
  - intros r1 r2 H1 H2. apply Hsh; set_solver.
  - unfold long_rules in *. rewrite filter_app, length_app in Hcnt. lia.
  - destruct (built_step rules r L1 HB) as (L2 & Hu & HB2); [apply Hok; set_solver| |done|done|].
    { intros r' Hr'. split; [|apply Hok; set_solver].
      apply list_elem_of_lookup in Hr' as [i Hi'].
      eapply (Hsort i (length rules) r' r); [by eapply lookup_lt_Some|by apply lookup_app_l_Some|].
      by apply list_lookup_middle. }
    exists (rets ++ [1]), L2. split_and!; [by eapply lpm_insert_snoc| |done].
    apply Forall_app. split; [done|]. repeat constructor.
Qed.

(** 10.0.0.0/8 to hop 1, 11.1.0.0/16 to hop 2, 12.0.0.0/25 to hop 3 and the
    address 12.0.0.5 to hop 4. *)
Definition demo_rules : list rule :=
  [Rule 167772160 8 1; Rule 184614912 16 2; Rule 201326592 25 3; Rule 201326597 32 4].

Lemma lpm_longest_prefix_match_witness :
  ∃ rets L', lpm_insert demo_lpm demo_rules = Some (rets, L') ∧
    lpm_lookup_elem L' 201326597 = Some 4 ∧ lpm_lookup_elem L' 201326598 = Some 3 ∧
    lpm_lookup_elem L' 167772161 = Some 1 ∧ lpm_lookup_elem L' 1 = Some INVALID.
Proof.
  destruct (lpm_longest_prefix_match demo_lpm demo_rules demo_lpm_empty)
    as (rets & L' & Hi & _ & _ & Hl).
  - intros r Hr. repeat (apply elem_of_cons in Hr as [->|Hr];
      [unfold rule_ok, lpm_PLEN_MAX, MAX_NEXT_HOP_VALUE; simpl; lia|]). by apply elem_of_nil in Hr.
  - intros i j r r' Hij Hi Hj.
    destruct i as [|[|[|[|]]]], j as [|[|[|[|]]]]; simplify_eq/=; lia.
  - intros r r' Hr Hr' Hs Hg.
    repeat (apply elem_of_cons in Hr as [->|Hr]; [simpl in Hs;
      repeat (apply elem_of_cons in Hr' as [->|Hr']; [simpl in Hg; lia || reflexivity|]);
      by apply elem_of_nil in Hr'|]). by apply elem_of_nil in Hr.
  - vm_compute. lia.
  - exists rets, L'. split; [exact Hi|]. rewrite !Hl by lia.
    split_and!; vm_compute; reflexivity.
Defined.

(** A longer rule hides the shorter one around it.  When a rule of more
    than 24 bits is inserted where the first 24 bits have a route but no group
    yet, the call reports success, and every other address with these 24 bits
    loses the route it had: the new group starts out invalid instead of with
    the old next hop, so the longest rule that applies is not found. *)
Theorem lpm_covering_route_lost (L : lpm) (prefix len v a old : Z) :
  lpm_ok L → 0 ≤ prefix < 2 ^ 32 → 25 ≤ len ≤ 32 → 0 ≤ v ≤ MAX_NEXT_HOP_VALUE →
  grouped L (prefix / 256) = false → lpm_long_index L < lpm_LONG_OFFSET_MAX →
  0 ≤ a < 2 ^ 32 → a / 256 = prefix / 256 → covers prefix len a = false →
  lpm_lookup_elem L a = Some old → old ≠ INVALID →
  ∃ L', lpm_update_elem L prefix len v = Some (1, L') ∧ lpm_lookup_elem L' a = Some INVALID.
Proof.
  intros HL Hp Hlen Hv Hg Hx Ha Hsame Hcov _ _.
  pose proof (update_long L HL prefix len v Hp Hlen Hv) as Hu. cbn zeta in Hu.
  rewrite Hg in Hu. destruct (Z.leb_spec lpm_LONG_OFFSET_MAX (lpm_long_index L)); [lia|].
  cbn [negb andb] in Hu. destruct Hu as (L' & Hu & _ & _ & Hl & _). exists L'. split; [done|].
  rewrite Hl by done. rewrite Hcov, Hsame, Z.eqb_refl. done.
Qed.

(** 10.0.0.0/24 to hop 5. *)
Definition demo_lpm_24 : lpm :=
  match lpm_update_elem demo_lpm 167772160 24 5 with Some (_, L) => L | None => demo_lpm end.

Lemma demo_lpm_24_ok : lpm_ok demo_lpm_24.
Proof.
  destruct (update_short demo_lpm (proj1 demo_lpm_empty) 167772160 24 5) as (L' & Hu & HL' & _);
    [lia|lia|unfold MAX_NEXT_HOP_VALUE; lia|].
  unfold demo_lpm_24. by rewrite Hu.
Qed.

(** After 10.0.0.128/25 to hop 7, address 10.0.0.1 has no route any more. *)
Lemma lpm_covering_route_lost_witness :
  lpm_lookup_elem demo_lpm_24 167772161 = Some 5 ∧
  ∃ L', lpm_update_elem demo_lpm_24 167772288 25 7 = Some (1, L') ∧
        lpm_lookup_elem L' 167772161 = Some INVALID.
Proof.
  split; [vm_compute; reflexivity|].
  eapply (lpm_covering_route_lost demo_lpm_24 167772288 25 7 167772161 5);
    [exact demo_lpm_24_ok|lia|lia|unfold MAX_NEXT_HOP_VALUE; lia|vm_compute; reflexivity|
     vm_compute; reflexivity|lia|vm_compute; reflexivity|vm_compute; reflexivity|
     vm_compute; reflexivity|vm_compute; discriminate].
Defined.
