(* ===== verification/Cht.v ===== *)
(** * cht.c

    The consistent hashing table of the load balancer (Maglev).  For each of
    [cht_height] buckets a row lists the backends in the order in which they
    are preferred for that bucket. *)
From stdpp Require Import base list numbers sets.
From Stdlib Require Import ZArith Lia.
From S2P Require Import Prelude.
From S2P Require Import Memory.
From S2P Require Import Vector.
From S2P Require Import DChainImpl.
From S2P Require Import DChain.

Definition MAX_CHT_HEIGHT : Z := 40000.

(** [k % capacity]; a remainder by zero is undefined. *)
Definition loop (k capacity : Z) : option Z :=
  if capacity =? 0 then None else Some (k mod capacity).

(** The first loop: for each backend a permutation of the buckets. *)
Definition fill_permutations (permutations : list Z) (cht_height backend_capacity : Z)
    : option (list Z) :=
  for_each 0 backend_capacity (λ i permutations,
    let offset_absolut := u32 (i * 31) in
    offset ← loop offset_absolut cht_height;
    base_shift ← loop i (u32 (cht_height - 1));
    let shift := u64 (base_shift + 1) in
    for_each 0 cht_height (λ j permutations,
      permut ← loop (u64 (offset + u64 (shift * j))) cht_height;
      wr permutations (u32 (u32 (i * cht_height) + j)) (s32 permut)) permutations)
    permutations.

Definition init_next (next : list Z) (cht_height : Z) : option (list Z) :=
  for_each 0 cht_height (λ i next, wr next i 0) next.

(** The last loop: backends claim the next free place of their buckets in turn. *)
Definition fill_rows (permutations next : list Z) (cht : Vector Z)
    (cht_height backend_capacity : Z) : option (list Z * Vector Z) :=
  for_each 0 cht_height (λ i s,
    for_each 0 backend_capacity (λ j '(next, cht),
      let index := u32 (u32 (j * cht_height) + i) in
      bucket_id ← rd permutations index;
      priority ← rd next bucket_id;
      priority' ← int_chk (priority + 1);
      next' ← wr next bucket_id priority';
      let slot := s32 (u32 (u32 (backend_capacity * u32 bucket_id) + u32 priority)) in
      value ← vector_borrow cht slot;
      cht' ← store cht value j;
      Some (next', vector_return cht' slot value)) s)
    (next, cht).

(** Returns the result and the table. *)
Definition cht_fill_cht (cht : Vector Z) (cht_height backend_capacity : Z)
    : M (Z * Vector Z) :=
  permutations ← malloc (u64 (4 * s32 (u32 (cht_height * backend_capacity))));
  if permutations =? NULL then mret (0, cht) else
  perms ← junk_array 4 permutations (u32 (cht_height * backend_capacity));
  perms ← lift (fill_permutations perms cht_height backend_capacity);
  next ← malloc (u64 (4 * s32 cht_height));
  if next =? NULL then
    _ ← free permutations;
    mret (0, cht) else
  nexts ← junk_array 4 next cht_height;
  nexts ← lift (init_next nexts cht_height);
  '(_, cht') ← lift (fill_rows perms nexts cht cht_height backend_capacity);
  _ ← free next;
  _ ← free permutations;
  mret (1, cht').

(** Returns the result and [*chosen_backend]. *)
Definition cht_find_preferred_available_backend (hash : Z) (cht : Vector Z)
    (active_backends : DoubleChain) (cht_height backend_capacity chosen_backend : Z)
    : option (Z * Z) :=
  start ← loop hash cht_height;
  o ← for_u32 (S := unit) 0 backend_capacity (λ i _,
        let candidate_idx := u64 (u64 (start * backend_capacity) + i) in
        p ← vector_borrow cht (s32 candidate_idx);
        candidate ← deref cht p;
        allocated ← dchain_is_index_allocated active_backends (s32 candidate);
        if negb (allocated =? 0) then Some (Return (1, s32 candidate))
        else Some (Continue tt)) tt;
  match o with
  | Return r => Some r
  | Continue _ => Some (0, chosen_backend)
  end.

Lemma loop_Some k capacity : capacity ≠ 0 → loop k capacity = Some (k mod capacity).
Proof. intros. unfold loop. by destruct (Z.eqb_spec capacity 0). Qed.

(** ** Permutations *)

(** The bucket that backend [j] prefers at position [i]. *)
Definition preference (h j i : Z) : Z := (31 * j mod h + (j mod (h - 1) + 1) * i) mod h.

(** The table has a height and a number of backends of the contract. *)
Record cht_dims (h cap : Z) : Prop := ChtDims {
  cd_prime : Z.prime h;
  cd_height : h < MAX_CHT_HEIGHT;
  cd_cap : 0 < cap < h;
  cd_size : h * cap ≤ VECTOR_CAPACITY_UPPER_LIMIT
}.

Section permutations.
Context (h cap : Z).
Hypothesis HD : cht_dims h cap.

Lemma height_ge : 1 < h < 40000.
Proof. destruct HD as [[? _] ? ? _]. unfold MAX_CHT_HEIGHT in *. lia. Qed.

Lemma shift_range j : 0 < j mod (h - 1) + 1 < h.
Proof.
  pose proof height_ge. destruct HD as [_ _ ? _].
  destruct (Z.eq_dec h 2) as [->|]; [simpl; rewrite Z.mod_1_r; lia|].
  pose proof (Z.mod_pos_bound j (h - 1)). lia.
Qed.

Lemma preference_range j i : 0 ≤ preference h j i < h.
Proof. pose proof height_ge. apply Z.mod_pos_bound. lia. Qed.

(** A backend prefers each bucket at one position at most ... *)
Lemma preference_inj j i i' :
  0 ≤ i < h → 0 ≤ i' < h → preference h j i = preference h j i' → i = i'.
Proof.
  intros Hi Hi' Heq. pose proof height_ge. pose proof (shift_range j) as Hs.
  unfold preference in Heq. set (s := j mod (h - 1) + 1) in *. set (o := 31 * j mod h) in *.
  assert ((h | s * (i - i'))) as Hdiv.
  { apply Z.mod_divide; [lia|].
    replace (s * (i - i')) with ((o + s * i) - (o + s * i')) by lia.
    rewrite Zminus_mod, Heq, Z.sub_diag. apply Z.mod_0_l. lia. }
  apply (Z.divide_prime_mul _ _ _ (cd_prime _ _ HD)) in Hdiv as [Hd|Hd].
  - apply Z.divide_pos_le in Hd; lia.
  - destruct Hd as [k Hk]. destruct (Z.lt_trichotomy k 0) as [|[->|]]; [|lia|];
      exfalso; clear Heq; clearbody s o; nia.
Qed.

(** ... and at one at least. *)
Lemma preference_surj j b :
  0 ≤ b < h → ∃ i, 0 ≤ i < h ∧ preference h j i = b.
Proof.
  intros Hb. pose proof height_ge. pose proof (shift_range j) as Hs.
  unfold preference. set (s := j mod (h - 1) + 1) in *. set (o := 31 * j mod h) in *.
  assert (Z.coprime h s) as Hrp by (apply Z.coprime_prime_small; [apply HD|lia]).
  apply Z.Bezout_coprime in Hrp as (v & u & Huv).
  exists ((u * (b - o)) mod h). split; [apply Z.mod_pos_bound; lia|].
  rewrite <- (Z.mod_small b h) at 2 by done.
  rewrite Zplus_mod, Zmult_mod_idemp_r, <- Zplus_mod.
  replace (o + s * (u * (b - o))) with (b + (- v * (b - o)) * h)
    by (replace (s * (u * (b - o))) with ((1 - v * h) * (b - o)) by (rewrite <- Huv; ring); ring).
  apply Z.mod_add. lia.
Qed.

(** *** The permutation array *)

Lemma size_bounds i j :
  0 ≤ i < cap → 0 ≤ j < h → 0 ≤ i * h + j < h * cap ∧ h * cap ≤ 140000.
Proof.
  intros Hi Hj. destruct HD as [_ _ _ Hsz]. unfold VECTOR_CAPACITY_UPPER_LIMIT in Hsz.
  pose proof (row_index_range h cap i j Hj Hi). lia.
Qed.

Lemma permutation_step i j :
  0 ≤ i < cap → 0 ≤ j < h →
  loop (u64 ((u32 (i * 31)) mod h + u64 (u64 (i mod u32 (h - 1) + 1) * j))) h =
    Some (preference h i j).
Proof.
  intros Hi Hj. pose proof height_ge as Hh. pose proof (shift_range i) as Hs.
  destruct HD as [_ _ Hc _]. unfold loop. destruct (Z.eqb_spec h 0); [lia|].
  rewrite (u32_small (i * 31)), (u32_small (h - 1)) by lia.
  rewrite (u64_small (i mod (h - 1) + 1)) by lia.
  pose proof (Z.mod_pos_bound (i * 31) h ltac:(lia)).
  assert (0 ≤ (i mod (h - 1) + 1) * j ≤ 40000 * 40000) by nia.
  rewrite (u64_small ((i mod (h - 1) + 1) * j)), u64_small by lia.
  unfold preference. by rewrite (Z.mul_comm 31).
Qed.

Lemma fill_permutations_spec p :
  zlen p = h * cap →
  ∃ p', fill_permutations p h cap = Some p' ∧ zlen p' = h * cap ∧
    ∀ i j, 0 ≤ i < cap → 0 ≤ j < h → rd p' (i * h + j) = Some (preference h i j).
Proof.
  intros Hlen. pose proof height_ge as Hh. pose proof (cd_cap _ _ HD) as Hc.
  unfold fill_permutations.
  destruct (for_each_rule (S := list Z) (λ i p, zlen p = h * cap ∧
    ∀ i' j, 0 ≤ i' < i → 0 ≤ j < h → rd p (i' * h + j) = Some (preference h i' j)) 0 cap
    (λ i permutations,
      offset ← loop (u32 (i * 31)) h; base_shift ← loop i (u32 (h - 1));
      for_each 0 h (λ j permutations,
        permut ← loop (u64 (offset + u64 (u64 (base_shift + 1) * j))) h;
        wr permutations (u32 (u32 (i * h) + j)) (s32 permut)) permutations) p)
    as (p' & Hp' & Hlen' & Hr); [lia|lia|split; [done|lia]| |by eauto].
  intros i q Hi [Hlq Hq]. rewrite (loop_Some (u32 (i * 31)) h) by lia. cbn [mbind option_bind].
  rewrite (u32_small (h - 1)), (loop_Some i (h - 1)) by lia. cbn [mbind option_bind].
  destruct (for_each_rule (S := list Z) (λ j p, zlen p = h * cap ∧
    (∀ i' j', 0 ≤ i' < i → 0 ≤ j' < h → rd p (i' * h + j') = Some (preference h i' j')) ∧
    (∀ j', 0 ≤ j' < j → rd p (i * h + j') = Some (preference h i j'))) 0 h
    (λ j permutations,
      permut ← loop (u64 (u32 (i * 31) mod h + u64 (u64 (i mod (h - 1) + 1) * j))) h;
      wr permutations (u32 (u32 (i * h) + j)) (s32 permut)) q)
    as (q' & -> & Hlq' & Hq1 & Hq2); [lia|lia|split_and!; [done|done|lia]| |].
  - intros j r Hj (Hlr & Hr1 & Hr2).
    pose proof (permutation_step i j Hi Hj) as Hst. rewrite (u32_small (h - 1)) in Hst by lia.
    rewrite Hst. cbn [mbind option_bind]. destruct (size_bounds i j Hi Hj) as [Hb1 Hb2].
    assert (0 ≤ i * h) by nia.
    rewrite (u32_small (i * h)), u32_small by lia.
    pose proof (preference_range i j).
    rewrite s32_small by (unfold INT_MIN, INT_MAX; lia).
    rewrite wr_Some by lia. eexists. split; [done|]. rewrite zlen_insert.
    split_and!; [done| |].
    + intros i' j' Hi' Hj'. rewrite rd_insert_ne by
        (try lia; intros Heq; apply row_index_inj in Heq; lia). by apply Hr1.
    + intros j' Hj'. destruct (Z.eq_dec j' j) as [->|].
      * apply rd_insert_eq. lia.
      * rewrite rd_insert_ne by lia. apply Hr2. lia.
  - eexists. split; [done|]. split; [done|]. intros i' j' Hi' Hj'.
    destruct (Z.eq_dec i' i) as [->|]; [by apply Hq2|]. apply Hq1; lia.
Qed.

Lemma init_next_spec nx :
  zlen nx = h →
  ∃ nx', init_next nx h = Some nx' ∧ zlen nx' = h ∧ ∀ b, 0 ≤ b < h → rd nx' b = Some 0.
Proof.
  intros Hlen. pose proof height_ge as Hh. unfold init_next.
  destruct (for_each_rule (λ i nx, zlen nx = h ∧ ∀ b, 0 ≤ b < i → rd nx b = Some 0) 0 h
    (λ i next, wr next i 0) nx) as (nx' & -> & Hl & Hr); [lia|lia|split; [done|lia]| |by eauto].
  intros i n Hi [Hl Hr]. rewrite wr_Some by lia. eexists. split; [done|].
  rewrite zlen_insert. split; [done|]. intros b Hb.
  destruct (Z.eq_dec b i) as [->|]; [apply rd_insert_eq; lia|].
  rewrite rd_insert_ne by lia. apply Hr. lia.
Qed.

(** *** Filling the rows *)

(** A list of backends is in the order of their claims on bucket [b]: by the
    position at which they prefer the bucket, then by number. *)
Definition claim_order (b : Z) (l : list Z) : Prop :=
  ∀ p q x y i j, l !! p = Some x → l !! q = Some y → (p < q)%nat →
    0 ≤ i < h → 0 ≤ j < h → preference h x i = b → preference h y j = b →
    i < j ∨ (i = j ∧ x < y).

Lemma claim_order_snoc b l x i :
  claim_order b l → 0 ≤ i < h → preference h x i = b →
  (∀ y j, y ∈ l → 0 ≤ j < h → preference h y j = b → j < i ∨ (j = i ∧ y < x)) →
  claim_order b (l ++ [x]).
Proof.
  intros Hl Hi Hx Hlast p q y z j k Hy Hz Hpq Hj Hk Hpy Hpz.
  pose proof (lookup_lt_Some _ _ _ Hz) as Hq. rewrite length_app in Hq. simpl in Hq.
  rewrite lookup_app_l in Hy by lia.
  destruct (decide (q = length l)) as [->|].
  - rewrite list_lookup_middle in Hz by done. injection Hz as [= <-].
    assert (k = i) as -> by (apply (preference_inj x); congruence).
    apply Hlast; [by eapply list_elem_of_lookup_2|done..].
  - rewrite lookup_app_l in Hz by lia. by apply (Hl p q y z).
Qed.

(** After the first [i] positions, and the first [j] backends of the next, the
    backends that have claimed a place in bucket [b] are listed in [V b], in
    the order of their claims. *)
Record filling (i j : Z) (nx : list Z) (v : Vector Z) (V : Z → list Z) : Prop := Filling {
  fl_next_len : zlen nx = h;
  fl_next : ∀ b, 0 ≤ b < h → rd nx b = Some (zlen (V b));
  fl_vec : vector_ok v;
  fl_size : vec_capacity v = h * cap;
  fl_cells : ∀ b p x, 0 ≤ b < h → V b !! p = Some x →
    rd (cells v) (b * cap + Z.of_nat p) = Some x;
  fl_NoDup : ∀ b, 0 ≤ b < h → NoDup (V b);
  fl_elem : ∀ b x, 0 ≤ b < h → x ∈ V b ↔
    0 ≤ x < cap ∧ ∃ i', 0 ≤ i' < h ∧ preference h x i' = b ∧ (i' < i ∨ (i' = i ∧ x < j));
  fl_order : ∀ b, 0 ≤ b < h → claim_order b (V b)
}.

(** The bucket a backend is about to claim still has room. *)
Lemma filling_room i j nx v V b :
  filling i j nx v V → 0 ≤ i < h → 0 ≤ j < cap → b = preference h j i →
  zlen (V b) < cap ∧ j ∉ V b.
Proof.
  intros HF Hi Hj ->. pose proof (preference_range j i) as Hb.
  assert (j ∉ V (preference h j i)) as Hnin.
  { rewrite (fl_elem _ _ _ _ _ HF) by done. intros (_ & i' & Hi' & Hp & Hlt).
    apply preference_inj in Hp; [|done|done]. lia. }
  split; [|done].
  assert (j :: V (preference h j i) ⊆+ seqZ 0 cap) as Hsub.
  { apply NoDup_submseteq.
    - apply NoDup_cons. split; [done|]. by apply (fl_NoDup _ _ _ _ _ HF).
    - intros x [->|Hx]%elem_of_cons; apply elem_of_seqZ; [lia|].
      apply (fl_elem _ _ _ _ _ HF) in Hx as [? _]; [|done]. lia. }
  apply submseteq_length in Hsub. rewrite length_seqZ in Hsub. simpl in Hsub. unfold zlen. lia.
Qed.

Lemma filling_step i j nx v V perms :
  filling i j nx v V → 0 ≤ i < h → 0 ≤ j < cap →
  (∀ i j, 0 ≤ i < cap → 0 ≤ j < h → rd perms (i * h + j) = Some (preference h i j)) →
  ∃ s', (bucket_id ← rd perms (u32 (u32 (j * h) + i));
         priority ← rd nx bucket_id;
         priority' ← int_chk (priority + 1);
         next' ← wr nx bucket_id priority';
         let slot := s32 (u32 (u32 (cap * u32 bucket_id) + u32 priority)) in
         value ← vector_borrow v slot;
         cht' ← store v value j;
         Some (next', vector_return cht' slot value)) = Some s' ∧
    ∃ V', filling i (j + 1) s'.1 s'.2 V'.
Proof.
  intros HF Hi Hj Hperm. pose proof height_ge as Hh. pose proof (cd_cap _ _ HD) as Hc.
  destruct (size_bounds j i Hj Hi) as [Hb1 Hb2].
  assert (0 ≤ j * h) by nia. rewrite (u32_small (j * h)), u32_small by lia.
  rewrite Hperm by done. cbn [mbind option_bind]. pose proof (preference_range j i) as Hb.
  destruct (filling_room i j nx v V _ HF Hi Hj eq_refl) as [Hroom Hnin].
  set (b := preference h j i) in *. assert (0 ≤ zlen (V b)) by (unfold zlen; lia).
  rewrite (fl_next _ _ _ _ _ HF) by done. cbn [mbind option_bind].
  rewrite int_chk_small by (unfold INT_MIN, INT_MAX; lia). cbn [mbind option_bind].
  rewrite wr_Some by (rewrite (fl_next_len _ _ _ _ _ HF); lia). cbn [mbind option_bind].
  pose proof (row_index_range cap h b (zlen (V b)) ltac:(lia) Hb) as Hslot.
  assert (0 ≤ b * cap) by nia.
  rewrite (u32_small b), (u32_small (zlen (V b))), (Z.mul_comm cap b) by lia.
  rewrite (u32_small (b * cap)), u32_small by lia.
  rewrite s32_small by (unfold INT_MIN, INT_MAX; lia).
  rewrite vector_borrow_spec by (apply HF || rewrite (fl_size _ _ _ _ _ HF); lia).
  cbn [mbind option_bind].
  rewrite store_addr by (apply HF || rewrite (fl_size _ _ _ _ _ HF); lia). cbn [mbind option_bind].
  eexists. split; [done|]. exists (λ b', if b' =? b then V b ++ [j] else V b').
  pose proof (vo_len _ (fl_vec _ _ _ _ _ HF)) as Hvl. rewrite (fl_size _ _ _ _ _ HF) in Hvl.
  constructor; simpl.
  - rewrite zlen_insert. apply HF.
  - intros b' Hb'. rewrite rd_insert by (rewrite (fl_next_len _ _ _ _ _ HF); lia).
    destruct (Z.eqb_spec b b') as [<-|Hne].
    + rewrite Z.eqb_refl. unfold zlen. rewrite length_app. simpl. f_equal. lia.
    + destruct (Z.eqb_spec b' b); [congruence|]. by apply HF.
  - apply vset_ok, HF.
  - apply HF.
  - intros b' p x Hb' Hx. rewrite rd_insert by lia.
    destruct (Z.eqb_spec b' b) as [->|Hne].
    + apply lookup_app_Some in Hx as [Hx|[Hge Hx]].
      * pose proof (lookup_lt_Some _ _ _ Hx).
        destruct (Z.eqb_spec (b * cap + zlen (V b)) (b * cap + Z.of_nat p)) as [He|_];
          [unfold zlen in He; lia|]. by apply (fl_cells _ _ _ _ _ HF).
      * destruct (p - length (V b))%nat as [|n] eqn:En; [|by destruct n]. simpl in Hx.
        destruct (Z.eqb_spec (b * cap + zlen (V b)) (b * cap + Z.of_nat p)) as [_|Hne'];
          [done|]. unfold zlen in Hne'. lia.
    + assert (0 ≤ Z.of_nat p < cap) as Hp.
      { pose proof (lookup_lt_Some _ _ _ Hx). split; [lia|].
        assert (V b' ⊆+ seqZ 0 cap) as Hsub.
        { apply NoDup_submseteq; [by apply HF|]. intros y Hy. apply elem_of_seqZ.
          apply (fl_elem _ _ _ _ _ HF) in Hy as [? _]; [|done]. lia. }
        apply submseteq_length in Hsub. rewrite length_seqZ in Hsub. lia. }
      destruct (Z.eqb_spec (b * cap + zlen (V b)) (b' * cap + Z.of_nat p)) as [He|_];
        [apply row_index_inj in He; lia|]. by apply (fl_cells _ _ _ _ _ HF).
  - intros b' Hb'. destruct (Z.eqb_spec b' b) as [->|]; [|by apply HF].
    apply NoDup_app. split_and!; [by apply HF| |apply NoDup_singleton].
    intros x Hx ->%list_elem_of_singleton. done.
  - intros b' x Hb'. pose proof (fl_elem _ _ _ _ _ HF b' x Hb') as He.
    destruct (Z.eqb_spec b' b) as [->|Hne].
    + rewrite elem_of_app, list_elem_of_singleton, He. split.
      * intros [(? & i' & ? & ? & ?)| ->].
        -- split; [done|]. exists i'. split_and!; [lia|lia|done|lia].
        -- split; [done|]. exists i. split_and!; [lia|lia|done|lia].
      * intros (? & i' & ? & Hp & ?). destruct (Z.eq_dec x j) as [->|]; [by right|].
        left. split; [done|]. exists i'. split_and!; [lia|lia|done|lia].
    + rewrite He. split.
      * intros (? & i' & ? & Hp & ?). split; [done|]. exists i'. split_and!; [lia|lia|done|lia].
      * intros (? & i' & ? & Hp & ?). split; [done|]. exists i'. split_and!; [lia|lia|done|].
        destruct (Z.eq_dec x j) as [->|]; [|lia].
        destruct (Z.eq_dec i' i) as [->|]; [by destruct Hne|lia].
  - intros b' Hb'. destruct (Z.eqb_spec b' b) as [->|]; [|by apply HF].
    apply (claim_order_snoc b _ j i); [by apply HF|done..|]. intros y k Hy Hk Hp.
    apply (fl_elem _ _ _ _ _ HF) in Hy as (_ & i' & Hi' & Hp' & Hlt); [|done].
    assert (k = i') as -> by (apply (preference_inj y); congruence). done.
Qed.

(** A row of the table. *)
Definition row (v : Vector Z) (b : Z) : list Z :=
  take (Z.to_nat cap) (drop (Z.to_nat (b * cap)) (cells v)).

(** Every row lists every backend once, in the order of the claims. *)
Definition valid_cht (v : Vector Z) : Prop :=
  vector_ok v ∧ vec_capacity v = h * cap ∧ ∀ b, 0 ≤ b < h → row v b ≡ₚ seqZ 0 cap ∧ claim_order b (row v b).

Lemma filling_done nx v V : filling h 0 nx v V → valid_cht v.
Proof.
  intros HF. pose proof height_ge as Hh. pose proof (cd_cap _ _ HD) as Hc.
  split_and!; [apply HF|apply HF|]. intros b Hb.
  assert (V b ≡ₚ seqZ 0 cap) as HV.
  { apply NoDup_Permutation; [by apply HF|apply NoDup_seqZ|]. intros x.
    rewrite (fl_elem _ _ _ _ _ HF), elem_of_seqZ by done. split; [intros [? _]; lia|].
    intros Hx. split; [lia|]. destruct (preference_surj x b Hb) as (i & Hi & Hp).
    exists i. split_and!; [lia|lia|done|lia]. }
  assert (row v b = V b) as ->; [|split; [done|by apply HF]].
  pose proof (vo_len _ (fl_vec _ _ _ _ _ HF)) as Hvl. rewrite (fl_size _ _ _ _ _ HF) in Hvl.
  assert (length (V b) = Z.to_nat cap) as HlV by (rewrite HV; apply length_seqZ).
  pose proof (row_index_range cap h b 0 ltac:(lia) Hb).
  pose proof (row_index_range cap h b (cap - 1) ltac:(lia) Hb).
  assert (length (row v b) = Z.to_nat cap) as Hlr.
  { unfold row. rewrite length_take, length_drop. unfold zlen in Hvl. lia. }
  apply list_eq. intros p. destruct (V b !! p) as [x|] eqn:Hx.
  - pose proof (lookup_lt_Some _ _ _ Hx). pose proof (fl_cells _ _ _ _ _ HF b p x Hb Hx) as Hr.
    unfold row. rewrite lookup_take_lt, lookup_drop by lia.
    rewrite rd_lookup in Hr by lia. rewrite <- Hr. f_equal. lia.
  - apply lookup_ge_None in Hx. apply lookup_ge_None. lia.
Qed.

Lemma fill_rows_spec perms nx v :
  (∀ i j, 0 ≤ i < cap → 0 ≤ j < h → rd perms (i * h + j) = Some (preference h i j)) →
  zlen nx = h → (∀ b, 0 ≤ b < h → rd nx b = Some 0) →
  vector_ok v → vec_capacity v = h * cap →
  ∃ nx' v', fill_rows perms nx v h cap = Some (nx', v') ∧ valid_cht v'.
Proof.
  intros Hperm Hlen Hz Hv Hcap. pose proof height_ge as Hh. pose proof (cd_cap _ _ HD) as Hc.
  unfold fill_rows.
  match goal with |- context [for_each 0 h ?b _] =>
    destruct (for_each_rule (S := list Z * Vector Z) (λ i s, ∃ V, filling i 0 s.1 s.2 V) 0 h b (nx, v))
      as ([nx' v'] & -> & V & HF) end; [lia|lia| | |].
  - exists (λ _, []). constructor; simpl; try done.
    + intros b _. apply NoDup_nil_2.
    + intros b x Hb. split; [intros Hx; by apply elem_of_nil in Hx|]. intros (? & i' & ? & ? & ?). lia.
  - intros i s Hi (V & HF).
    match goal with |- context [for_each 0 cap ?b s] =>
      destruct (for_each_rule (S := list Z * Vector Z) (λ j s, ∃ V, filling i j s.1 s.2 V) 0 cap b s)
        as (s' & -> & V' & HF') end; [lia|lia|by eauto| |].
    + intros j [nx1 v1] Hj (V1 & HF1). by apply (filling_step i j nx1 v1 V1 perms).
    + exists s'. split; [done|]. exists V'. destruct HF'. constructor; try done.
      intros b x Hb. rewrite fl_elem0 by done.
      split; intros (? & i' & ? & ? & ?); (split; [done|]); exists i';
        (split_and!; [lia|lia|done|lia]).
  - exists nx', v'. split; [done|]. by eapply filling_done.
Qed.

Lemma cht_fill_spec v μ :
  mem_ok μ → vector_ok v → vec_capacity v = h * cap →
  ∃ ret v' μ', cht_fill_cht v h cap μ = Some ((ret, v'), μ') ∧ live μ' = live μ ∧
    ((ret = 0 ∧ v' = v) ∨ (ret = 1 ∧ valid_cht v')).
Proof.
  intros Hok Hv Hcap. pose proof height_ge as Hh. pose proof (cd_cap _ _ HD) as Hc.
  destruct (size_bounds 0 0) as [Hs1 Hs2]; [lia..|].
  unfold cht_fill_cht. rewrite (u32_small (h * cap)) by lia. mcase.
  { rewrite Z.eqb_refl. eexists _, _, _. split_and!; [done|done|by left]. }
  rewrite not_null by done. mpure.
  destruct (fill_permutations_spec ((λ i, junk μ0 (p + 4 * i)) <$> seqZ 0 (h * cap)))
    as (perms & Hp & _ & Hperm); [apply zlen_fmap_seqZ; lia|].
  mlift Hp. mcase.
  { rewrite Z.eqb_refl. mfree. eexists _, _, _. split_and!; [done|done|by left]. }
  rewrite not_null by done. mpure.
  destruct (init_next_spec ((λ i, junk μ1 (p0 + 4 * i)) <$> seqZ 0 h)) as (nx & Hn & Hnl & Hn0);
    [apply zlen_fmap_seqZ; lia|].
  mlift Hn. destruct (fill_rows_spec perms nx v Hperm Hnl Hn0 Hv Hcap) as (nx' & v' & Hf & Hval).
  mlift Hf. cbv beta iota. mfree. mfree. eexists _, _, _. split_and!; [done|done|by right].
Qed.

End permutations.

Arguments claim_order h b l : clear implicits.
Arguments row cap v b : clear implicits.
Arguments valid_cht h cap v : clear implicits.

(** ** Finding a backend *)

(** The first backend of a list that is allocated. *)
Definition first_active (s : lru) (l : list Z) : option Z :=
  head (filter (λ x, lru_allocated s x) l).

Lemma first_active_app s l x l' :
  (∀ y, y ∈ l → lru_allocated s y = false) → lru_allocated s x = true →
  first_active s (l ++ x :: l') = Some x.
Proof.
  intros Hl Hx. unfold first_active. rewrite filter_app, filter_cons_True by (by rewrite Hx).
  replace (filter (λ y, lru_allocated s y) l) with (@nil Z); [done|].
  symmetry. apply filter_none. intros y Hy. rewrite Hl by done. by intros [].
Qed.

Lemma first_active_none s l :
  (∀ y, y ∈ l → lru_allocated s y = false) → first_active s l = None.
Proof.
  intros Hl. unfold first_active. rewrite filter_none; [done|]. intros y Hy. rewrite Hl by done. by intros [].
Qed.

(** What the answer is: an active backend before which none is active. *)
Lemma first_active_Some s l x :
  first_active s l = Some x →
  ∃ l1 l2, l = l1 ++ x :: l2 ∧ lru_allocated s x = true ∧
    ∀ y, y ∈ l1 → lru_allocated s y = false.
Proof.
  unfold first_active. induction l as [|y l IH]; [done|]. rewrite filter_cons.
  case_decide as Hy.
  - intros [= ->]. exists [], l. split_and!; [done|by apply Is_true_true_1|].
    intros z Hz. by apply elem_of_nil in Hz.
  - intros (l1 & l2 & -> & Hx & Hl1)%IH. exists (y :: l1), l2. split_and!; [done..|].
    intros z [->|Hz]%elem_of_cons; [by destruct (lru_allocated s y)|auto].
Qed.

Lemma first_active_None s l :
  first_active s l = None → ∀ x, x ∈ l → lru_allocated s x = false.
Proof.
  unfold first_active. intros Hn x Hx. apply head_None in Hn.
  destruct (lru_allocated s x) eqn:E; [|done]. exfalso.
  apply (elem_of_nil x). rewrite <- Hn. apply list_elem_of_filter. by rewrite E.
Qed.

Lemma row_lookup h cap v b i :
  valid_cht h cap v → 0 ≤ b < h → 0 ≤ i < cap →
  ∃ x, row cap v b !! Z.to_nat i = Some x ∧ rd (cells v) (b * cap + i) = Some x ∧ 0 ≤ x < cap.
Proof.
  intros (Hv & Hcap & Hrow) Hb Hi. destruct (Hrow b Hb) as [Hr _].
  assert (length (row cap v b) = Z.to_nat cap) as Hlen by (rewrite Hr; apply length_seqZ).
  destruct (lookup_lt_is_Some_2 (row cap v b) (Z.to_nat i)) as [x Hx]; [lia|].
  exists x. split_and!; [done| | |].
  - pose proof (row_index_range cap h b i Hi Hb). assert (0 ≤ b * cap) by nia.
    unfold row in Hx. rewrite lookup_take_lt, lookup_drop in Hx by lia.
    rewrite rd_lookup by lia. rewrite <- Hx. f_equal. lia.
  - apply list_elem_of_lookup_2 in Hx. rewrite Hr in Hx. apply elem_of_seqZ in Hx. lia.
  - apply list_elem_of_lookup_2 in Hx. rewrite Hr in Hx. apply elem_of_seqZ in Hx. lia.
Qed.

Lemma cht_find_spec h cap v ch range s hash chosen :
  cht_dims h cap → valid_cht h cap v → double_chainp ch range s → cap ≤ range →
  0 ≤ hash < 2 ^ 64 →
  cht_find_preferred_available_backend hash v ch h cap chosen =
    Some match first_active s (row cap v (hash mod h)) with
         | Some x => (1, x)
         | None => (0, chosen)
         end.
Proof.
  intros HD HV HC Hrange Hhash. pose proof (height_ge h cap HD) as Hh.
  pose proof (cd_cap _ _ HD) as Hc. destruct (size_bounds h cap HD 0 0) as [_ Hsz]; [lia..|].
  pose proof (Z.mod_pos_bound hash h ltac:(lia)) as Hb.
  unfold cht_find_preferred_available_backend. rewrite loop_Some by lia. cbn [mbind option_bind].
  set (b := hash mod h) in *. set (l := row cap v b).
  match goal with |- context [for_u32 0 cap ?body tt] =>
    destruct (for_u32_rule (S := unit)
      (λ i _, ∀ y, y ∈ take (Z.to_nat i) l → lru_allocated s y = false)
      (λ r, ∃ x, first_active s l = Some x ∧ r = (1, x)) 0 cap body tt) as (o & -> & Ho) end;
    [lia|lia| | |].
  - intros y Hy. by apply elem_of_nil in Hy.
  - intros i [] Hi HI. destruct (row_lookup h cap v b i HV Hb Hi) as (x & Hx & Hrd & Hxr).
    pose proof (row_index_range cap h b i Hi Hb) as Hix. assert (0 ≤ b * cap) by nia.
    rewrite (u64_small (b * cap)), u64_small, s32_small by (unfold INT_MIN, INT_MAX; lia).
    destruct HV as (Hv & Hcap & _).
    rewrite vector_borrow_spec by (done || lia). cbn [mbind option_bind].
    rewrite deref_addr, Hrd by done. cbn [mbind option_bind].
    rewrite s32_small by (unfold INT_MIN, INT_MAX; lia).
    rewrite (is_allocated_refines _ _ _ HC) by lia. cbn [mbind option_bind].
    destruct (lru_allocated s x) eqn:Ex; simpl; (eexists; split; [done|]); simpl.
    + exists x. split; [|done]. rewrite <- (take_drop_middle l (Z.to_nat i) x Hx).
      by apply first_active_app.
    + intros y. replace (Z.to_nat (i + 1)) with (S (Z.to_nat i)) by lia.
      erewrite take_S_r by done.
      intros [Hy|Hy]%elem_of_app; [auto|by apply list_elem_of_singleton in Hy as ->].
  - destruct o as [[]|r]; simpl.
    + rewrite first_active_none; [done|]. intros y Hy. apply Ho. rewrite take_ge; [done|].
      unfold l, row. rewrite length_take. lia.
    + by destruct Ho as (x & -> & ->).
Qed.

(** ** Claims *)

(** C22: [cht_fill_cht] on a table of prime height either fails for want of
    memory, leaving the table as it was, or answers 1 and makes every row a
    permutation of the backends, ordered by the position at which a backend
    prefers the bucket and then by its number.  Both temporary arrays are freed
    on every path, and no write leaves an array. *)
Theorem cht_fill_rows_ordered h cap v μ :
  cht_dims h cap → mem_ok μ → vector_ok v → vec_capacity v = h * cap →
  ∃ ret v' μ', cht_fill_cht v h cap μ = Some ((ret, v'), μ') ∧ live μ' = live μ ∧
    ((ret = 0 ∧ v' = v) ∨
     (ret = 1 ∧ ∀ b, 0 ≤ b < h →
        row cap v' b ≡ₚ seqZ 0 cap ∧ claim_order h b (row cap v' b))).
Proof.
  intros HD Hok Hv Hcap.
  destruct (cht_fill_spec h cap HD v μ Hok Hv Hcap) as (ret & v' & μ' & Hf & Hl & Hr).
  exists ret, v', μ'. split_and!; [done..|].
  destruct Hr as [?|[? (_ & _ & Hrow)]]; [by left|by right].
Qed.

Lemma demo_dims : cht_dims 5 3.
Proof.
  constructor; [|done|done|done]. split; [done|]. intros n Hn [k Hk].
  assert (k = 0 ∨ k = 1 ∨ k = 2 ∨ k = 3 ∨ k = 4) as Hc by nia. lia.
Qed.

Definition demo_table_vector : Vector Z := MkVector 4096 4 15 (replicate 15 0).

Definition demo_cht_mem : mem := Mem [] [true; true] 8192 (λ _, 7).

Definition demo_cht : Vector Z :=
  match cht_fill_cht demo_table_vector 5 3 demo_cht_mem with
  | Some ((_, v), _) => v
  | None => demo_table_vector
  end.

Lemma cht_fill_rows_ordered_witness :
  row 3 demo_cht 1 = [1; 0; 2] ∧ claim_order 5 1 (row 3 demo_cht 1).
Proof.
  destruct (cht_fill_rows_ordered 5 3 demo_table_vector demo_cht_mem demo_dims)
    as (ret & v' & μ' & Hf & _ & Hr); [done|by constructor|done|].
  assert (demo_cht = v' ∧ ret = 1) as [-> ->].
  { unfold demo_cht. rewrite Hf. split; [done|]. vm_compute in Hf. by injection Hf. }
  destruct Hr as [[[=] _]|[_ Hr]]. split; [|apply Hr; lia].
  vm_compute in Hf. injection Hf as <- _. reflexivity.
Defined.

Lemma demo_cht_valid : valid_cht 5 3 demo_cht.
Proof.
  destruct (cht_fill_spec 5 3 demo_dims demo_table_vector demo_cht_mem)
    as (ret & v' & μ' & Hf & _ & Hr); [done|by constructor|done|].
  unfold demo_cht. rewrite Hf. destruct Hr as [[-> _]|[_ Hr]]; [|exact Hr].
  vm_compute in Hf. discriminate Hf.
Qed.

(** On a filled table, [cht_find_preferred_available_backend] answers 0
    and leaves its output alone exactly when no backend of the table is active;
    otherwise it answers 1 with an active backend, the first of the row of the
    hash's bucket: the backends listed before it are all inactive. *)
Theorem cht_find_first_active h cap v ch range s hash chosen :
  cht_dims h cap → valid_cht h cap v → double_chainp ch range s → cap ≤ range →
  0 ≤ hash < 2 ^ 64 →
  (cht_find_preferred_available_backend hash v ch h cap chosen = Some (0, chosen) ∧
   ∀ x, 0 ≤ x < cap → lru_allocated s x = false) ∨
  (∃ x l1 l2, cht_find_preferred_available_backend hash v ch h cap chosen = Some (1, x) ∧
   0 ≤ x < cap ∧ lru_allocated s x = true ∧ row cap v (hash mod h) = l1 ++ x :: l2 ∧
   ∀ y, y ∈ l1 → lru_allocated s y = false).
Proof.
  intros HD HV HC Hr Hh. rewrite (cht_find_spec h cap v ch range s) by done.
  pose proof (height_ge h cap HD). destruct HV as (_ & _ & Hrow).
  destruct (Hrow (hash mod h)) as [Hp _]; [apply Z.mod_pos_bound; lia|].
  destruct (first_active s (row cap v (hash mod h))) as [x|] eqn:E.
  - right. apply first_active_Some in E as (l1 & l2 & Hl & Hx & Hl1).
    exists x, l1, l2. split_and!; try done.
    all: assert (x ∈ seqZ 0 cap) as Hin%elem_of_seqZ by (rewrite <- Hp, Hl; set_solver); lia.
  - left. split; [done|]. intros x Hx. apply first_active_None with (1 := E).
    rewrite Hp. apply elem_of_seqZ. lia.
Qed.

Lemma cht_find_first_active_witness :
  cht_find_preferred_available_backend 11 demo_cht demo_chain 5 3 42 = Some (0, 42).
Proof.
  destruct (cht_find_first_active 5 3 demo_cht demo_chain 3 (lru_init 3) 11 42 demo_dims
    demo_cht_valid demo_chain_ok) as [[H _]|(x & _ & _ & _ & _ & H & _)]; [lia|lia|done|].
  vm_compute in H. discriminate H.
Defined.

(** C24: consistency.  If the hash was sent to backend [x] under one set of
    active backends and [x] is active under another, then under the second it
    is sent to [x] again or to a backend that was not active under the first:
    a backend that leaves disturbs only the flows it served, and a backend that
    joins only takes flows for itself. *)
Theorem cht_minimal_disruption h cap v ch range s ch' range' s' hash c c' x :
  cht_dims h cap → valid_cht h cap v →
  double_chainp ch range s → cap ≤ range → double_chainp ch' range' s' → cap ≤ range' →
  0 ≤ hash < 2 ^ 64 →
  cht_find_preferred_available_backend hash v ch h cap c = Some (1, x) →
  lru_allocated s' x = true →
  ∃ y, cht_find_preferred_available_backend hash v ch' h cap c' = Some (1, y) ∧
    (y = x ∨ (lru_allocated s' y = true ∧ lru_allocated s y = false)).
Proof.
  intros HD HV HC Hr HC' Hr' Hh. rewrite (cht_find_spec h cap v ch range s) by done.
  rewrite (cht_find_spec h cap v ch' range' s') by done.
  destruct (first_active s (row cap v (hash mod h))) as [z|] eqn:E; [intros [= ->] Hx|done].
  apply first_active_Some in E as (l1 & l2 & Hl & _ & Hl1).
  destruct (first_active s' (row cap v (hash mod h))) as [y|] eqn:E'.
  - exists y. split; [done|]. apply first_active_Some in E' as (m1 & m2 & Hm & Hy & Hm1).
    rewrite Hl in Hm. apply app_eq_inv in Hm as [(k & -> & Hk)|(k & -> & Hk)].
    + destruct k as [|a k]; [left; by injection Hk|]. injection Hk as -> _.
      right. split; [done|]. apply Hl1. set_solver.
    + destruct k as [|a k]; [left; by injection Hk|]. injection Hk as -> _.
      rewrite Hm1 in Hx; [done|]. set_solver.
  - exfalso. assert (x ∈ row cap v (hash mod h)) as Hin by (rewrite Hl; set_solver).
    by rewrite (first_active_None _ _ E' x Hin) in Hx.
Qed.

(** The demonstration chain with one backend, resp. two, alive. *)
Lemma demo_backends_ok :
  ∃ ch1 ch2,
    double_chainp ch1 3 (Lru [(0, 10)] [1; 2]) ∧
    double_chainp ch2 3 (Lru [(0, 10); (1, 10)] [2]).
Proof.
  destruct (run_dchain_refines [DAllocate 0 10] _ _ _ [[1; 0]] _ demo_chain_ok eq_refl)
    as (ch1 & _ & H1).
  destruct (run_dchain_refines [DAllocate 0 10; DAllocate 0 10] _ _ _ [[1; 0]; [1; 1]] _
    demo_chain_ok eq_refl) as (ch2 & _ & H2).
  by exists ch1, ch2.
Qed.

Lemma cht_minimal_disruption_witness :
  ∃ ch1 ch2, cht_find_preferred_available_backend 11 demo_cht ch1 5 3 9 = Some (1, 0) ∧
    cht_find_preferred_available_backend 11 demo_cht ch2 5 3 9 = Some (1, 1) ∧
    cht_find_preferred_available_backend 10 demo_cht ch1 5 3 9 = Some (1, 0) ∧
    cht_find_preferred_available_backend 10 demo_cht ch2 5 3 9 = Some (1, 0).
Proof.
  destruct demo_backends_ok as (ch1 & ch2 & H1 & H2). exists ch1, ch2.
  assert (cht_find_preferred_available_backend 10 demo_cht ch1 5 3 9 = Some (1, 0)) as Hx.
  { rewrite (cht_find_spec 5 3 _ _ 3 _ _ _ demo_dims demo_cht_valid H1) by lia. reflexivity. }
  destruct (cht_minimal_disruption 5 3 demo_cht ch1 3 _ ch2 3 _ 10 9 9 0 demo_dims
    demo_cht_valid H1 ltac:(lia) H2 ltac:(lia) ltac:(lia) Hx eq_refl) as (y & Hy & _).
  split_and!; [| |exact Hx|].
  - rewrite (cht_find_spec 5 3 _ _ 3 _ _ _ demo_dims demo_cht_valid H1) by lia. reflexivity.
  - rewrite (cht_find_spec 5 3 _ _ 3 _ _ _ demo_dims demo_cht_valid H2) by lia. reflexivity.
  - rewrite (cht_find_spec 5 3 _ _ 3 _ _ _ demo_dims demo_cht_valid H2) in Hy by lia.
    rewrite (cht_find_spec 5 3 _ _ 3 _ _ _ demo_dims demo_cht_valid H2) by lia.
    vm_compute in Hy |- *. done.
Defined.
