(* ===== verification/Lb.v ===== *)
(** * viglb: the load balancer

    lb_balancer.c and lb_main.c.  Backends announce themselves with heartbeats
    on the internal devices; a flow that arrives on the external device is sent
    to the backend it was assigned to, and a new flow to the first live backend
    of its row of the consistent hashing table. *)
From stdpp Require Import base list gmap numbers sets.
From Stdlib Require Import ZArith Lia.
From S2P Require Import Prelude.
From S2P Require Import Memory.
From S2P Require Import MapImpl.
From S2P Require Import Map.
From S2P Require Import Vector.
From S2P Require Import DChainImpl.
From S2P Require Import DChain.
From S2P Require Import Emap.
From S2P Require Import Expirator.
From S2P Require Import Packet.
From S2P Require Import Cht.

(** struct LoadBalancedFlow *)
Record LoadBalancedFlow := MkFlow {
  src_ip : Z;
  dst_ip : Z;
  src_port : Z;
  dst_port : Z;
  protocol : Z
}.

#[export] Instance LoadBalancedFlow_eq_dec : EqDecision LoadBalancedFlow.
Proof. solve_decision. Defined.

#[export] Instance LoadBalancedFlow_countable : Countable LoadBalancedFlow.
Proof.
  apply (inj_countable' (λ f, (src_ip f, dst_ip f, src_port f, dst_port f, protocol f))
    (λ '(a, b, c, d, e), MkFlow a b c d e)).
  by intros [].
Defined.

(** struct ip_addr *)
Record ip_addr := IpAddr { ip_of : Z }.

#[export] Instance lb_ip_addr_eq_dec : EqDecision ip_addr.
Proof. solve_decision. Defined.

#[export] Instance lb_ip_addr_countable : Countable ip_addr.
Proof. apply (inj_countable' ip_of IpAddr). by intros []. Defined.

(** struct LoadBalancedBackend; a MAC address is a list of six bytes. *)
Record LoadBalancedBackend := MkBackend { nic : Z; mac : list Z; ip : Z }.

(** The fields of struct nf_config that the handler reads. *)
Record nf_config := MkConfig {
  device_macs : list (list Z);
  flow_capacity : Z;
  cfg_flow_expiration_time : Z;
  backend_capacity : Z;
  cht_height : Z;
  cfg_backend_expiration_time : Z;
  wan_device : Z
}.

(** The generated struct State: flow_to_flow_id, flow_heap and flow_chain;
    flow_id_to_backend_id; ip_to_backend_id, backend_ips and active_backends;
    backends; the consistent hashing table and the constants. *)
Record State := MkState {
  flows : emap_objs LoadBalancedFlow;
  flow_id_to_backend_id : Vector Z;
  backend_ips : emap_objs ip_addr;
  backends : Vector LoadBalancedBackend;
  cht : Vector Z;
  st_cht_height : Z;
  st_backend_capacity : Z
}.

(** struct LoadBalancer *)
Record LoadBalancer := MkBalancer {
  flow_expiration_time : Z;
  backend_expiration_time : Z;
  state : State
}.

Definition set_flows (b : LoadBalancer) (o : emap_objs LoadBalancedFlow) (ids : Vector Z)
    : LoadBalancer :=
  let st := state b in
  MkBalancer (flow_expiration_time b) (backend_expiration_time b)
    (MkState o ids (backend_ips st) (backends st) (cht st) (st_cht_height st)
       (st_backend_capacity st)).

Definition set_backends (b : LoadBalancer) (o : emap_objs ip_addr)
    (bs : Vector LoadBalancedBackend) : LoadBalancer :=
  let st := state b in
  MkBalancer (flow_expiration_time b) (backend_expiration_time b)
    (MkState (flows st) (flow_id_to_backend_id st) o bs (cht st) (st_cht_height st)
       (st_backend_capacity st)).

(** Without symbolic execution [concretize_devices] does nothing. *)
Definition concretize_devices (device count : Z) : Z := device.

Section lb.
Context `{KeyOps LoadBalancedFlow} `{KeyOps ip_addr} `{Checksums}.
Variable pow2 : bool.
(** The generated allocation function of the state, and DPDK's device count. *)
Variable alloc_state : Z → Z → Z → M (option State).
Variable rte_eth_dev_count_avail : Z.

(** The result of [calloc] is written to without a test. *)
Definition lb_allocate_balancer (flow_capacity backend_capacity cht_height
    backend_expiration_time flow_expiration_time : Z) : M (option LoadBalancer) :=
  balancer ← malloc 24;
  if balancer =? NULL then lift None else
  st ← alloc_state backend_capacity flow_capacity cht_height;
  match st with
  | None => mret None
  | Some st => mret (Some (MkBalancer flow_expiration_time backend_expiration_time st))
  end.

Definition nf_init (config : nf_config) : M (bool * option LoadBalancer) :=
  balancer ← lb_allocate_balancer (flow_capacity config) (backend_capacity config)
    (cht_height config) (cfg_backend_expiration_time config) (cfg_flow_expiration_time config);
  mret (match balancer with Some _ => true | None => false end, balancer).

(** [flow_p] is the address of the caller's flow; [backend] is the local
    variable, whose fields are not initialised.  The recursive call is made
    after the flow has been erased. *)
Fixpoint lb_get_backend (fuel : nat) (b : LoadBalancer) (flow_p : Z) (flow : LoadBalancedFlow)
    (now wan_device : Z) (backend : LoadBalancedBackend)
    : option (LoadBalancedBackend * LoadBalancer) :=
  match fuel with
  | O => None
  | S fuel =>
  let st := state b in let o := flows st in
  '(found, flow_index) ← map_get pow2 (with_local (deref (o_vec o)) flow_p flow) (o_map o) flow_p 0;
  if found =? 0 then
    '(found, backend_index) ← cht_find_preferred_available_backend (u64 (key_hash flow)) (cht st)
       (o_chain (backend_ips st)) (st_cht_height st) (st_backend_capacity st) 0;
    if negb (found =? 0) then
      '(ok, chain, flow_index) ← dchain_allocate_new_index (o_chain o) flow_index now;
      b1 ← (if negb (ok =? 0) then
              vec_flow ← vector_borrow (o_vec o) flow_index;
              heap ← store (o_vec o) vec_flow flow;
              vec_id ← vector_borrow (flow_id_to_backend_id st) flow_index;
              ids ← store (flow_id_to_backend_id st) vec_id (u32 backend_index);
              let ids := vector_return ids flow_index vec_id in
              fm ← map_put pow2 (with_local (deref heap) flow_p flow) (o_map o) vec_flow flow_index;
              Some (set_flows b (Objs fm (vector_return heap flow_index vec_flow) chain) ids)
            else Some (set_flows b (Objs (o_map o) (o_vec o) chain) (flow_id_to_backend_id st)));
      vec_backend ← vector_borrow (backends st) backend_index;
      backend ← deref (backends st) vec_backend;
      Some (backend, b1)
    else Some (MkBackend wan_device (mac backend) (ip backend), b)
  else
    vec_backend_index ← vector_borrow (flow_id_to_backend_id st) flow_index;
    backend_index ← deref (flow_id_to_backend_id st) vec_backend_index;
    allocated ← dchain_is_index_allocated (o_chain (backend_ips st)) (s32 backend_index);
    if 0 =? allocated then
      flow_key ← vector_borrow (o_vec o) flow_index;
      '(fm, flow_key) ← map_erase pow2 (with_local (deref (o_vec o)) flow_p flow) (o_map o)
         flow_p flow_key;
      '(_, chain) ← dchain_free_index (o_chain o) flow_index;
      let b1 := set_flows b (Objs fm (vector_return (o_vec o) flow_index flow_key) chain)
                  (flow_id_to_backend_id st) in
      lb_get_backend fuel b1 flow_p flow now wan_device backend
    else
      '(_, chain) ← dchain_rejuvenate_index (o_chain o) flow_index now;
      vec_backend ← vector_borrow (backends st) (s32 backend_index);
      backend ← deref (backends st) vec_backend;
      Some (backend, set_flows b (Objs (o_map o) (o_vec o) chain) (flow_id_to_backend_id st))
  end.

(** [&flow->src_ip] is the address of the flow. *)
Definition lb_process_heartbit (b : LoadBalancer) (flow_p : Z) (flow : LoadBalancedFlow)
    (mac_addr : list Z) (nic now : Z) : option LoadBalancer :=
  let st := state b in let o := backend_ips st in
  let local := λ v, with_local (deref v) flow_p (IpAddr (src_ip flow)) in
  '(found, backend_index) ← map_get pow2 (local (o_vec o)) (o_map o) flow_p 0;
  if found =? 0 then
    '(ok, active, backend_index) ← dchain_allocate_new_index (o_chain o) backend_index now;
    if negb (0 =? ok) then
      new_backend ← vector_borrow (backends st) backend_index;
      bs ← store (backends st) new_backend (MkBackend (u16 nic) mac_addr (src_ip flow));
      let bs := vector_return bs backend_index new_backend in
      ip ← vector_borrow (o_vec o) backend_index;
      ips ← store (o_vec o) ip (IpAddr (src_ip flow));
      bm ← map_put pow2 (local ips) (o_map o) ip backend_index;
      Some (set_backends b (Objs bm (vector_return ips backend_index ip) active) bs)
    else Some (set_backends b (Objs (o_map o) (o_vec o) active) (backends st))
  else
    '(_, active) ← dchain_rejuvenate_index (o_chain o) backend_index now;
    Some (set_backends b (Objs (o_map o) (o_vec o) active) (backends st)).

Definition lb_expire_flows (b : LoadBalancer) (time : Z) : option LoadBalancer :=
  _ ← c_assert (0 <=? time);
  let time_u := u64 time in
  let vigor_time_expiration := flow_expiration_time b in
  us ← int64_chk (vigor_time_expiration * 1000);
  let last_time := s64 (u64 (time_u - u64 us)) in
  let o := flows (state b) in
  '(_, chain, fm) ← expire_items_single_map pow2 (o_chain o) (o_vec o) (o_map o) last_time;
  Some (set_flows b (Objs fm (o_vec o) chain) (flow_id_to_backend_id (state b))).

Definition lb_expire_backends (b : LoadBalancer) (time : Z) : option LoadBalancer :=
  _ ← c_assert (0 <=? time);
  let time_u := u64 time in
  let vigor_time_expiration := backend_expiration_time b in
  us ← int64_chk (vigor_time_expiration * 1000);
  let last_time := s64 (u64 (time_u - u64 us)) in
  let o := backend_ips (state b) in
  '(_, chain, bm) ← expire_items_single_map pow2 (o_chain o) (o_vec o) (o_map o) last_time;
  Some (set_backends b (Objs bm (o_vec o) chain) (backends (state b))).

(** Returns the output device, the packet and the balancer.  [backend0] is the
    initial content of the local [backend] of [lb_get_backend]. *)
Definition nf_process (config : nf_config) (b0 : LoadBalancer) (flow_p device now : Z)
    (backend0 : LoadBalancedBackend) (pk0 : packet) : option (Z * packet * LoadBalancer) :=
  b1 ← lb_expire_flows b0 now;
  b2 ← lb_expire_backends b1 now;
  '(rte_ether_header, pk1) ← nf_then_get_rte_ether_header pk0;
  '(rte_ipv4_header, ip_options, pk2) ← nf_then_get_rte_ipv4_header pk1 rte_ether_header;
  if rte_ipv4_header =? NULL then Some (device, pk2, b2) else
  '(tcpudp_header, pk3) ← nf_then_get_tcpudp_header pk2 rte_ipv4_header;
  if tcpudp_header =? NULL then Some (device, pk3, b2) else
  src_addr ← load32 pk3 (rte_ipv4_header + src_addr_off);
  dst_addr ← load32 pk3 (rte_ipv4_header + dst_addr_off);
  hdr_src_port ← load16 pk3 (tcpudp_header + src_port_off);
  hdr_dst_port ← load16 pk3 (tcpudp_header + dst_port_off);
  next_proto_id ← load8 pk3 (rte_ipv4_header + next_proto_id_off);
  let flow := MkFlow src_addr dst_addr hdr_src_port hdr_dst_port next_proto_id in
  if negb (device =? wan_device config) then
    s_addr ← load_bytes pk3 (rte_ether_header + s_addr_off) 6;
    b3 ← lb_process_heartbit b2 flow_p flow s_addr device now;
    Some (device, pk3, b3)
  else
  '(backend, b3) ← lb_get_backend 2 b2 flow_p flow now (wan_device config) backend0;
  let backend_nic := concretize_devices (nic backend) rte_eth_dev_count_avail in
  if negb (backend_nic =? wan_device config) then
    pk4 ← store32 pk3 (rte_ipv4_header + dst_addr_off) (ip backend);
    device_mac ← rd (device_macs config) backend_nic;
    pk5 ← store_bytes pk4 (rte_ether_header + s_addr_off) device_mac;
    pk6 ← store_bytes pk5 (rte_ether_header + d_addr_off) (mac backend);
    pk7 ← nf_set_rte_ipv4_udptcp_checksum pk6 rte_ipv4_header tcpudp_header;
    Some (backend_nic, pk7, b3)
  else Some (backend_nic, pk3, b3).

End lb.

(** ** The contract (spec.py) *)

(** The flow table, the backend of each flow index, the table of live backends
    and the backend of each backend index. *)
Record lb_abs := LbAbs {
  a_flows : table LoadBalancedFlow;
  a_ids : list Z;
  a_ips : table ip_addr;
  a_backends : list LoadBalancedBackend
}.

Section contract.
Context `{KeyOps LoadBalancedFlow}.
(** The filled table of the configuration. *)
Variable tbl : Vector Z.
Variable config : nf_config.
Implicit Types (s : lb_abs) (f : LoadBalancedFlow).

Definition lb_expire s (now : Z) : lb_abs :=
  LbAbs (t_expire (a_flows s) (now - 1000 * cfg_flow_expiration_time config)) (a_ids s)
    (t_expire (a_ips s) (now - 1000 * cfg_backend_expiration_time config)) (a_backends s).

(** The live backend that the table prefers for a flow. *)
Definition lb_choose s f : option Z :=
  first_active (t_lru (a_ips s))
    (row (backend_capacity config) tbl (key_hash f mod cht_height config)).

(** A flow without a live backend: choose one and remember it if there is room. *)
Definition lb_assign s f (now : Z) : lb_abs * option Z :=
  match lb_choose s f with
  | None => (s, None)
  | Some b =>
      match t_frees (a_flows s) with
      | [] => (s, Some b)
      | i :: _ => (LbAbs (t_add (a_flows s) f now) (<[Z.to_nat i := b]> (a_ids s)) (a_ips s)
                     (a_backends s), Some b)
      end
  end.

Definition lb_get s f (now : Z) : lb_abs * option Z :=
  match t_lookup (a_flows s) f with
  | None => lb_assign s f now
  | Some e =>
      let b := a_ids s !!! Z.to_nat (e_idx e) in
      match t_entry (a_ips s) b with
      | Some _ => (LbAbs (t_refresh (a_flows s) (e_idx e) now) (a_ids s) (a_ips s) (a_backends s),
                   Some b)
      | None => lb_assign (LbAbs (t_remove (a_flows s) (e_idx e)) (a_ids s) (a_ips s)
                             (a_backends s)) f now
      end
  end.

Definition lb_heartbeat s (f : LoadBalancedFlow) (smac : list Z) (device now : Z) : lb_abs :=
  match t_lookup (a_ips s) (IpAddr (src_ip f)) with
  | Some e => LbAbs (a_flows s) (a_ids s) (t_refresh (a_ips s) (e_idx e) now) (a_backends s)
  | None =>
      match t_frees (a_ips s) with
      | [] => s
      | i :: _ => LbAbs (a_flows s) (a_ids s) (t_add (a_ips s) (IpAddr (src_ip f)) now)
                    (<[Z.to_nat i := MkBackend device smac (src_ip f)]> (a_backends s))
      end
  end.

Definition flow_of (h : headers) : LoadBalancedFlow :=
  MkFlow (h_src_addr h) (h_dst_addr h) (h_src_port h) (h_dst_port h) (h_proto h).

(** The action: drop, or send to a backend. *)
Definition lb_spec s (device now : Z) (smac : list Z) (hdrs : option headers)
    : lb_abs * option LoadBalancedBackend :=
  let s1 := lb_expire s now in
  match hdrs with
  | None => (s1, None)
  | Some h =>
      if device =? wan_device config then
        let '(s2, b) := lb_get s1 (flow_of h) now in
        (s2, match b with Some b => a_backends s2 !! Z.to_nat b | None => None end)
      else (lb_heartbeat s1 (flow_of h) smac device now, None)
  end.

End contract.

(** ** Invariant *)

Record config_ok (config : nf_config) : Prop := ConfigOk {
  co_dims : cht_dims (cht_height config) (backend_capacity config);
  co_flow_exp : 0 ≤ cfg_flow_expiration_time config < 2 ^ 32;
  co_backend_exp : 0 ≤ cfg_backend_expiration_time config < 2 ^ 32;
  co_wan : 0 ≤ wan_device config < zlen (device_macs config);
  co_count : zlen (device_macs config) ≤ 2 ^ 16;
  co_macs : Forall (λ m, zlen m = 6) (device_macs config)
}.

(** A backend that a heartbeat may have registered. *)
Definition backend_ok (config : nf_config) (k : LoadBalancedBackend) : Prop :=
  0 ≤ nic k < zlen (device_macs config) ∧ nic k ≠ wan_device config ∧ zlen (mac k) = 6 ∧
  0 ≤ ip k < 2 ^ 32.

Section proofs.
Context `{KeyLaws LoadBalancedFlow} `{KeyLaws ip_addr}.
Variable pow2 : bool.
Variable tbl : Vector Z.
Variable config : nf_config.
Hypothesis HC : config_ok config.
Variable flow_p : Z.
Implicit Types (b : LoadBalancer) (s : lb_abs) (f : LoadBalancedFlow).

(** The flow table with the backend of each flow. *)
Record flows_inv (o : emap_objs LoadBalancedFlow) (ids : Vector Z) (t : table LoadBalancedFlow)
    (l : list Z) (now : Z) : Prop := FlowsInv {
  fi_emap : emapp pow2 o (flow_capacity config) t;
  fi_sorted : t_sorted t now;
  fi_vec : vector_ok ids;
  fi_cap : vec_capacity ids = flow_capacity config;
  fi_cells : cells ids = l;
  fi_ids : ∀ e, e ∈ ents t → ∃ k, l !! Z.to_nat (e_idx e) = Some k ∧
                              0 ≤ k < backend_capacity config;
  fi_stack : outside (o_vec o) flow_p
}.

(** The table of live backends with their records. *)
Record backends_inv (o : emap_objs ip_addr) (bs : Vector LoadBalancedBackend)
    (t : table ip_addr) (l : list LoadBalancedBackend) (now : Z) : Prop := BackendsInv {
  bi_emap : emapp pow2 o (backend_capacity config) t;
  bi_sorted : t_sorted t now;
  bi_vec : vector_ok bs;
  bi_cap : vec_capacity bs = backend_capacity config;
  bi_cells : cells bs = l;
  bi_ok : ∀ e, e ∈ ents t → ∃ k, l !! Z.to_nat (e_idx e) = Some k ∧ backend_ok config k ∧
                             ip k = ip_of (e_key e);
  bi_stack : outside (o_vec o) flow_p
}.

Record lb_inv b s (now : Z) : Prop := LbInv {
  li_flows : flows_inv (flows (state b)) (flow_id_to_backend_id (state b)) (a_flows s) (a_ids s) now;
  li_backends : backends_inv (backend_ips (state b)) (backends (state b)) (a_ips s)
                  (a_backends s) now;
  li_cht : valid_cht (cht_height config) (backend_capacity config) tbl;
  li_tbl : cht (state b) = tbl;
  li_height : st_cht_height (state b) = cht_height config;
  li_capacity : st_backend_capacity (state b) = backend_capacity config;
  li_flow_exp : flow_expiration_time b = cfg_flow_expiration_time config;
  li_backend_exp : backend_expiration_time b = cfg_backend_expiration_time config
}.

(** *** Expiration *)

Lemma lb_expire_spec b s before now :
  lb_inv b s before → before ≤ now → 0 ≤ now < 2 ^ 63 →
  ∃ b1 b2, lb_expire_flows pow2 b now = Some b1 ∧ lb_expire_backends pow2 b1 now = Some b2 ∧
    lb_inv b2 (lb_expire config s now) now.
Proof.
  intros [HF HB Hc Ht Hh Hcap He1 He2] Hle Hnow.
  pose proof (co_flow_exp _ HC). pose proof (co_backend_exp _ HC).
  unfold lb_expire_flows, lb_expire_backends.
  destruct (Z.leb_spec 0 now); [|lia]. cbn [c_assert mbind option_bind].
  rewrite He1, int64_chk_small by lia. cbn [mbind option_bind].
  rewrite last_time_exact by lia.
  destruct (expire_items_single_map_spec pow2 _ _ _
    (now - cfg_flow_expiration_time config * 1000) (fi_emap _ _ _ _ _ HF))
    as (ch1 & M1 & Hx1 & HE1).
  destruct (expire_items_single_map_spec pow2 _ _ _
    (now - cfg_backend_expiration_time config * 1000) (bi_emap _ _ _ _ _ HB))
    as (ch2 & M2 & Hx2 & HE2).
  rewrite Hx1. cbn [mbind option_bind]. eexists _, _. split; [done|]. simpl.
  rewrite He2, int64_chk_small by lia. cbn [mbind option_bind]. rewrite last_time_exact by lia.
  rewrite Hx2. cbn [mbind option_bind]. split; [done|]. unfold lb_expire.
  rewrite (Z.mul_comm 1000), (Z.mul_comm 1000).
  constructor; simpl; try done; [destruct HF|destruct HB]; constructor; simpl; try done.
  - apply t_expire_sorted. by eapply t_sorted_mono.
  - intros e He%t_expire_elem. auto.
  - apply t_expire_sorted. by eapply t_sorted_mono.
  - intros e He%t_expire_elem. auto.
Qed.

Context (b : LoadBalancer) (s : lb_abs) (now : Z).
Hypothesis HI : lb_inv b s now.

(** *** Heartbeats *)

Lemma heartbeat_spec f smac device :
  0 ≤ device < zlen (device_macs config) → device ≠ wan_device config → zlen smac = 6 →
  0 ≤ src_ip f < 2 ^ 32 →
  ∃ b', lb_process_heartbit pow2 b flow_p f smac device now = Some b' ∧
    lb_inv b' (lb_heartbeat s f smac device now) now.
Proof.
  intros Hdev Hw Hmac Hip. destruct HI as [HF HB Hc Ht Hh Hcap He1 He2].
  pose proof (co_count _ HC). pose proof (bi_emap _ _ _ _ _ HB) as HE.
  unfold lb_process_heartbit, lb_heartbeat.
  rewrite (emap_get _ _ _ _ HE flow_p _ 0 (bi_stack _ _ _ _ _ HB)).
  destruct (t_lookup (a_ips s) _) as [e|] eqn:El; cbn [mbind option_bind].
  { destruct (Z.eqb_spec 1 0); [lia|]. apply t_lookup_Some in El as [He _].
    destruct (emap_refresh _ _ _ _ HE e now He) as (ch' & -> & HE'). cbn [mbind option_bind].
    eexists. split; [done|]. constructor; simpl; try done.
    pose proof (ent_idx_NoDup _ _ _ _ HE).
    destruct HB. constructor; simpl; try done; [by apply t_refresh_sorted|].
    intros e' (e0 & He0 & -> & ->)%t_refresh_elem. auto. }
  rewrite Z.eqb_refl. destruct (t_frees (a_ips s)) as [|i fs] eqn:Hfr.
  { destruct (emap_full _ _ _ _ HE 0 now) as (ch' & -> & HE').
    { unfold t_full. by rewrite Hfr. }
    cbn [mbind option_bind]. eexists. split; [done|]. constructor; simpl; try done.
    destruct HB. by constructor. }
  destruct (emap_add _ _ _ _ HE (IpAddr (src_ip f)) 0 i fs now El Hfr)
    as (ch' & -> & Hi & Hb & Hst & Hput).
  osteps. destruct (Z.eqb_spec 0 1); [lia|]. cbn [negb].
  rewrite vector_borrow_spec by (apply HB || rewrite (bi_cap _ _ _ _ _ HB); lia).
  cbn [mbind option_bind].
  rewrite store_addr by (apply HB || rewrite (bi_cap _ _ _ _ _ HB); lia).
  osteps.
  destruct (Hput (with_local (deref (vset (o_vec (backend_ips (state b))) i (IpAddr (src_ip f))))
    flow_p (IpAddr (src_ip f)))) as (M' & -> & HE'); [apply sees_local, (bi_stack _ _ _ _ _ HB)|].
  cbn [mbind option_bind]. eexists. split; [done|]. constructor; simpl; try done.
  pose proof (vo_len _ (bi_vec _ _ _ _ _ HB)) as Hlen. rewrite u16_small by lia.
  destruct HB. constructor; simpl; try done.
  - by apply t_add_sorted.
  - by apply vset_ok.
  - by f_equal.
  - unfold t_add. rewrite Hfr. simpl. rewrite bi_cells0, bi_cap0 in Hlen. unfold zlen in Hlen.
    intros e [He|He%list_elem_of_singleton]%elem_of_app.
    + rewrite list_lookup_insert_ne; [by auto|]. eapply fresh_index_ne; [exact HE|exact Hfr|done].
    + subst e. simpl. eexists. rewrite list_lookup_insert_eq by lia. split_and!; done.
Qed.

(** *** Choosing a backend *)

(** What [lb_get_backend] has returned for a choice of the contract. *)
Definition chosen (s' : lb_abs) (k : option Z) (wan : Z) (backend : LoadBalancedBackend) : Prop :=
  match k with
  | Some i => a_backends s' !! Z.to_nat i = Some backend ∧ backend_ok config backend
  | None => nic backend = wan
  end.

Lemma choose_range f k : lb_choose tbl config s f = Some k → ∃ e, e ∈ ents (a_ips s) ∧ e_idx e = k.
Proof.
  intros (l1 & l2 & _ & Ha & _)%first_active_Some. unfold lru_allocated in Ha.
  apply bool_decide_eq_true in Ha. simpl in Ha. rewrite <- list_fmap_compose in Ha.
  apply list_elem_of_fmap in Ha as (e & -> & He). eauto.
Qed.

(** The record of a live backend. *)
Lemma backend_read e :
  e ∈ ents (a_ips s) →
  ∃ k, vector_borrow (backends (state b)) (e_idx e) = Some (addr (backends (state b)) (e_idx e)) ∧
    deref (backends (state b)) (addr (backends (state b)) (e_idx e)) = Some k ∧
    a_backends s !! Z.to_nat (e_idx e) = Some k ∧ backend_ok config k ∧
    0 ≤ e_idx e < backend_capacity config.
Proof.
  intros He. pose proof (li_backends _ _ _ HI) as HB. destruct (bi_ok _ _ _ _ _ HB e He) as (k & Hk & Hok & _).
  pose proof (ent_range _ _ _ _ (bi_emap _ _ _ _ _ HB) e He) as Hr.
  exists k. split_and!; [|..|done|done|lia|lia].
  - apply vector_borrow_spec; [apply HB|by rewrite (bi_cap _ _ _ _ _ HB)].
  - rewrite deref_addr by apply HB. rewrite (bi_cells _ _ _ _ _ HB), rd_lookup by lia. done.
Qed.

(** A flow that is not in the table. *)
Lemma get_backend_new fuel f backend0 :
  t_lookup (a_flows s) f = None →
  let '(s', k) := lb_assign tbl config s f now in
  ∃ backend b', lb_get_backend pow2 (S fuel) b flow_p f now (wan_device config) backend0 =
                  Some (backend, b') ∧
    lb_inv b' s' now ∧ chosen s' k (wan_device config) backend.
Proof.
  intros El. pose proof HI as [HF HB Hc Ht Hh Hcap He1 He2].
  pose proof (fi_emap _ _ _ _ _ HF) as HE. cbn [lb_get_backend].
  rewrite (emap_get _ _ _ _ HE flow_p _ 0 (fi_stack _ _ _ _ _ HF)), El.
  cbn [mbind option_bind]. rewrite Z.eqb_refl.
  pose proof (key_hash_range f). rewrite u64_small by lia. rewrite Ht, Hh, Hcap.
  rewrite (cht_find_spec _ _ tbl _ (backend_capacity config) (t_lru (a_ips s)) _ _ (co_dims _ HC))
    by (apply HB || done || lia).
  unfold lb_assign. fold (lb_choose tbl config s f).
  destruct (lb_choose tbl config s f) as [k|] eqn:Ek; cbn [mbind option_bind].
  2: { rewrite Z.eqb_refl. cbn [negb]. eexists _, _. split_and!; done. }
  destruct (choose_range f k Ek) as (e & He & <-).
  destruct (backend_read e He) as (kb & Hbb & Hbd & Hbk & Hok & Hr).
  destruct (Z.eqb_spec 1 0); [lia|]. cbn [negb].
  destruct (t_frees (a_flows s)) as [|i fs] eqn:Hfr.
  { destruct (emap_full _ _ _ _ HE 0 now) as (ch' & -> & HE'); [unfold t_full; by rewrite Hfr|].
    cbn [mbind option_bind]. rewrite Z.eqb_refl. cbn [negb mbind option_bind].
    rewrite Hbb. cbn [mbind option_bind]. rewrite Hbd. cbn [mbind option_bind].
    eexists _, _. split_and!; [done| |done]. constructor; simpl; try done.
    destruct HF. by constructor. }
  destruct (emap_add _ _ _ _ HE f 0 i fs now El Hfr) as (ch' & -> & Hi & Hb & Hst & Hput).
  cbn [mbind option_bind]. destruct (Z.eqb_spec 1 0); [lia|]. cbn [negb]. osteps.
  rewrite vector_borrow_spec by (apply HF || rewrite (fi_cap _ _ _ _ _ HF); lia).
  cbn [mbind option_bind].
  rewrite store_addr by (apply HF || rewrite (fi_cap _ _ _ _ _ HF); lia).
  cbn [mbind option_bind].
  destruct (Hput (with_local (deref (vset (o_vec (flows (state b))) i f)) flow_p f))
    as (M' & -> & HE'); [apply sees_local, (fi_stack _ _ _ _ _ HF)|].
  cbn [mbind option_bind]. eexists _, _. split_and!; [done| |done].
  pose proof (cd_height _ _ (co_dims _ HC)). pose proof (cd_cap _ _ (co_dims _ HC)).
  unfold MAX_CHT_HEIGHT in *. rewrite u32_small by lia.
  constructor; simpl; try done. pose proof (vo_len _ (fi_vec _ _ _ _ _ HF)) as Hlen.
  destruct HF. constructor; simpl; try done.
  - by apply t_add_sorted.
  - by apply vset_ok.
  - by f_equal.
  - unfold t_add. rewrite Hfr. simpl. rewrite fi_cells0, fi_cap0 in Hlen. unfold zlen in Hlen.
    intros e' [He'|He'%list_elem_of_singleton]%elem_of_app.
    + rewrite list_lookup_insert_ne; [by auto|]. eapply fresh_index_ne; [exact HE|exact Hfr|done].
    + subst e'. simpl. eexists. rewrite list_lookup_insert_eq by lia. split_and!; done || lia.
Qed.

End proofs.

Section handler.
Context `{KeyLaws LoadBalancedFlow} `{KeyLaws ip_addr} `{Checksums}.
Variable pow2 : bool.
Variable tbl : Vector Z.
Variable config : nf_config.
Hypothesis HC : config_ok config.
Variable flow_p : Z.
Implicit Types (b : LoadBalancer) (s : lb_abs) (f : LoadBalancedFlow).

(** One recursive call at most: two calls are enough. *)
Lemma get_backend_spec b s now f backend0 :
  lb_inv pow2 tbl config flow_p b s now →
  let '(s', k) := lb_get tbl config s f now in
  ∃ backend b', lb_get_backend pow2 2 b flow_p f now (wan_device config) backend0 =
                  Some (backend, b') ∧
    lb_inv pow2 tbl config flow_p b' s' now ∧ chosen config s' k (wan_device config) backend.
Proof.
  intros HI. unfold lb_get. destruct (t_lookup (a_flows s) f) as [e|] eqn:El.
  2: { by apply (get_backend_new pow2 tbl config HC flow_p b s now HI 1). }
  pose proof HI as [HF HB Hc Ht Hh Hcap He1 He2]. pose proof (fi_emap _ _ _ _ _ _ _ _ HF) as HE.
  set (n := 1%nat). change 2%nat with (S n). cbn [lb_get_backend].
  rewrite (emap_get _ _ _ _ HE flow_p _ 0 (fi_stack _ _ _ _ _ _ _ _ HF)), El.
  cbn [mbind option_bind]. destruct (Z.eqb_spec 1 0); [lia|]. apply t_lookup_Some in El as [He Hk].
  destruct (fi_ids _ _ _ _ _ _ _ _ HF e He) as (k & Hk' & Hkr).
  pose proof (ent_range _ _ _ _ HE e He) as Hr.
  rewrite (vector_borrow_spec (flow_id_to_backend_id (state b)))
    by (apply HF || rewrite (fi_cap _ _ _ _ _ _ _ _ HF); lia).
  cbn [mbind option_bind]. rewrite deref_addr by apply HF.
  rewrite (fi_cells _ _ _ _ _ _ _ _ HF), rd_lookup, Hk' by lia. cbn [mbind option_bind].
  rewrite (list_lookup_total_correct _ _ _ Hk').
  pose proof (cd_height _ _ (co_dims _ HC)). pose proof (cd_cap _ _ (co_dims _ HC)).
  unfold MAX_CHT_HEIGHT in *. rewrite !s32_small by (unfold INT_MIN, INT_MAX; lia).
  rewrite (emap_allocated _ _ _ _ (bi_emap _ _ _ _ _ _ _ _ HB)) by lia. cbn [mbind option_bind].
  destruct (t_entry (a_ips s) k) as [ek|] eqn:Eb.
  - destruct (Z.eqb_spec 0 1); [lia|]. apply t_entry_Some in Eb as [Hek <-].
    destruct (emap_refresh _ _ _ _ HE e now He) as (ch' & -> & HE'). cbn [mbind option_bind].
    destruct (backend_read pow2 tbl config flow_p b s now HI ek Hek)
      as (kb & Hbb & Hbd & Hbk & Hok & _).
    rewrite Hbb. cbn [mbind option_bind]. rewrite Hbd. cbn [mbind option_bind].
    eexists _, _. split_and!; [done| |done]. constructor; simpl; try done.
    pose proof (ent_idx_NoDup _ _ _ _ HE).
    destruct HF. constructor; simpl; try done; [by apply t_refresh_sorted|].
    intros e' (e0 & He0 & _ & ->)%t_refresh_elem. auto.
  - rewrite Z.eqb_refl. destruct (emap_key _ _ _ _ HE e He) as [_ ->]. cbn [mbind option_bind].
    destruct (emap_remove _ _ _ _ HE e flow_p (addr (o_vec (flows (state b))) (e_idx e))
      (with_local (deref (o_vec (flows (state b)))) flow_p f) He) as (M' & ch' & -> & Hfree & HE');
      [apply sees_local, HF|rewrite with_local_at; by f_equal|].
    cbn [mbind option_bind]. rewrite Hfree. cbn [mbind option_bind].
    refine (get_backend_new pow2 tbl config HC flow_p _ _ now _ 0 f backend0 _).
    + constructor; simpl; try done. destruct HF. constructor; simpl; try done.
      * by apply t_remove_sorted.
      * intros e' [_ He']%list_elem_of_filter. auto.
    + destruct (t_lookup _ f) as [e'|] eqn:E'; [|done]. exfalso.
      apply t_lookup_Some in E' as [He' Hk2]. simpl in He'. apply list_elem_of_filter in He' as [Hne He'].
      apply Hne. f_equal. pose proof (t_lookup_elem (a_flows s) e (em_keys _ _ _ _ HE) He) as H1'.
      pose proof (t_lookup_elem (a_flows s) e' (em_keys _ _ _ _ HE) He') as H2'. congruence.
Qed.

End handler.

Section process.
Context `{KeyLaws LoadBalancedFlow} `{KeyLaws ip_addr} `{Checksums}.
Variable pow2 : bool.
Variable tbl : Vector Z.
Variable config : nf_config.
Hypothesis HC : config_ok config.
Variables flow_p devices_avail : Z.
Implicit Types (b : LoadBalancer) (s : lb_abs) (f : LoadBalancedFlow).

(** What the handler must have done for an action of the contract: a packet
    that is not for a backend is dropped unchanged; a forwarded one leaves by
    the backend's device, addressed to the backend's IP and MAC address and
    from the device's MAC address, with the other header fields and the payload
    as they were. *)
Definition delivered (pk : packet) (device : Z) (h : option headers)
    (act : option LoadBalancedBackend) (dev : Z) (pk' : packet) : Prop :=
  match act, h with
  | Some k, Some h =>
      acted pk device (Some (nic k, Headers (h_src_addr h) (ip k) (h_proto h) (h_src_port h)
                                      (h_dst_port h))) dev pk' ∧
      load_bytes pk' (base pk + d_addr_off) 6 = Some (mac k) ∧
      load_bytes pk' (base pk + s_addr_off) 6 = rd (device_macs config) (nic k)
  | _, _ => acted pk device None dev pk'
  end.

Lemma lb_forward pk tail h k device :
  received pk tail → 14 ≤ tail → parsed pk h → backend_ok config k → nic k ≠ device →
  let l4 := base pk + l4_off (buf pk) (global_total_length pk) in
  ∃ pk4 dm pk5 pk6 pk7,
    store32 (after_tcpudp pk) (base pk + 14 + dst_addr_off) (ip k) = Some pk4 ∧
    rd (device_macs config) (nic k) = Some dm ∧
    store_bytes pk4 (base pk + s_addr_off) dm = Some pk5 ∧
    store_bytes pk5 (base pk + d_addr_off) (mac k) = Some pk6 ∧
    nf_set_rte_ipv4_udptcp_checksum pk6 (base pk + 14) l4 = Some pk7 ∧
    delivered pk device (Some h) (Some k) (nic k) pk7.
Proof.
  intros HR Htail HP (Hnic & Hw & Hmac & Hip) Hdev l4.
  destruct (after_tcpudp_frame pk) as (Hb & Hbuf & Ht & Hr).
  pose proof (pd_l4 _ _ HP) as Hl4. pose proof (rc_buf _ _ HR).
  set (pk3 := after_tcpudp pk) in *. assert (zlen (buf pk3) = zlen (buf pk)) by congruence.
  unfold dst_addr_off, s_addr_off, d_addr_off in *.
  destruct (mac_at _ _ (co_macs _ HC) Hnic) as (dm & Hdm & Hdl).
  destruct (store32_edits pk3 (base pk + 14 + 16) (ip k)) as (pk4 & S4 & E4 & V4);
    [rewrite Hb; lia|rewrite Hb, Hbuf; lia|].
  pose proof (ed_base _ _ _ E4). pose proof (ed_len _ _ _ E4).
  destruct (store_bytes_edits pk4 (base pk + 6) dm) as (pk5 & S5 & E5 & V5);
    [lia|lia|].
  pose proof (ed_base _ _ _ E5). pose proof (ed_len _ _ _ E5).
  destruct (store_bytes_edits pk5 (base pk + 0) (mac k)) as (pk6 & S6 & E6 & V6);
    [lia|lia|].
  pose proof (ed_base _ _ _ E6). pose proof (ed_len _ _ _ E6).
  pose proof (edits_trans _ _ _ _ _ E4 (edits_trans _ _ _ _ _ E5 E6)) as E46.
  assert (read_headers pk3 (base pk + 14) l4 = Some h) as Hh3.
  { rewrite (read_headers_buf pk) by done. apply (pd_read _ _ HP). }
  pose proof Hh3 as Hl. unfold read_headers in Hl. opt_inv.
  pose proof (transport_cksum_cases z1) as Hck.
  destruct (set_checksum_edits pk6 (base pk + 14) l4 z1) as (pk7 & S7 & E7);
    [unfold l4 in *; lia..| |].
  { rewrite (ed_frame _ _ _ E46); [done|]. rewrite Hdl, Hmac. unfold span, next_proto_id_off. lia. }
  exists pk4, dm, pk5, pk6, pk7. split_and!; [done..|]. unfold delivered.
  pose proof (edits_trans _ _ _ _ _ E46 E7) as E47. split_and!.
  - eapply (acted_forward pk pk3 pk7); [exact Hb|exact Hbuf|exact Ht|exact Hr|exact E47| | |done].
    { intros i. rewrite Hdl, Hmac. unfold rewritten, span, hdr_checksum_off, src_addr_off, l4.
      cbn [h_proto]. lia. }
    pose proof (edits_trans _ _ _ _ _ E5 (edits_trans _ _ _ _ _ E6 E7)) as E57.
    fold l4. rewrite (edits_read_headers _ pk4 pk7 (base pk + 14) l4 E57);
      [|intros i ? ? ?; rewrite Hdl, Hmac; unfold span, l4; lia
       |intros i ?; rewrite Hdl, Hmac; unfold span, l4; lia].
    unfold read_headers, dst_addr_off. rewrite V4, u32_small by lia.
    rewrite (edits_load32 _ _ _ _ E4), (ed_frame _ _ _ E4), !(edits_load16 _ _ _ _ E4)
      by (intros; unfold span, l4, src_addr_off, next_proto_id_off, src_port_off, dst_port_off; lia).
    by rewrite E, E1, E2, E3.
  - unfold d_addr_off. replace 6%nat with (length (mac k)) by (unfold zlen in Hmac; lia).
    apply load_bytes_spec. eapply edits_load_bytes; [exact E7| |exact V6].
    intros j Hj. unfold span, l4. lia.
  - unfold s_addr_off. rewrite Hdm. replace 6%nat with (length dm) by (unfold zlen in Hdl; lia).
    apply load_bytes_spec. eapply edits_load_bytes; [exact (edits_trans _ _ _ _ _ E6 E7)| |exact V5].
    intros j Hj. rewrite Hmac. unfold span, l4. lia.
Qed.

Lemma lb_process_spec b s before now device backend0 pk tail :
  lb_inv pow2 tbl config flow_p b s before → before ≤ now → 0 ≤ now < 2 ^ 63 →
  received pk tail → 14 ≤ tail → 0 ≤ device < zlen (device_macs config) →
  let smac := default [] (load_bytes pk (base pk + s_addr_off) 6) in
  let '(s', act) := lb_spec tbl config s device now smac (packet_headers pk) in
  ∃ dev pk' b', nf_process pow2 devices_avail config b flow_p device now backend0 pk =
                  Some (dev, pk', b') ∧
    lb_inv pow2 tbl config flow_p b' s' now ∧
    delivered pk device (packet_headers pk) act dev pk' ∧ 0 ≤ dev < zlen (device_macs config).
Proof.
  intros HI0 Hle Hnow HR Htail Hdev smac.
  destruct (lb_expire_spec pow2 tbl config HC flow_p b s before now HI0 Hle Hnow)
    as (b1 & b2 & Hx1 & Hx2 & HI).
  unfold nf_process, lb_spec. rewrite Hx1. cbn [mbind option_bind]. rewrite Hx2.
  cbn [mbind option_bind]. set (s1 := lb_expire config s now) in *.
  destruct (parse_cases pk tail HR)
    as (pk1 & He & [(opts & pk2 & Hi & -> & Hact)|[(opts & pk2 & pk3 & Hi & Hnz & Ht & -> & Hact)|
        (opts & pk2 & h & Hi & Hnz & Ht & Hnz4 & HP)]]); rewrite He; osteps.
  { rewrite Z.eqb_refl. eexists _, _, _. split; [done|]. split; [done|]. split; [apply Hact|done]. }
  { rewrite (not_null _ Hnz). osteps. rewrite Z.eqb_refl.
    eexists _, _, _. split; [done|]. split; [done|]. split; [apply Hact|done]. }
  rewrite (not_null _ Hnz). osteps. rewrite (not_null _ Hnz4). rewrite (pd_headers _ _ HP) in *.
  destruct (pd_ranges _ _ HP) as (Hsa & _).
  destruct (pd_loads _ _ HP) as (-> & -> & -> & -> & ->). cbn [mbind option_bind].
  destruct (after_tcpudp_frame pk) as (Fb & Fbuf & _ & _). fold (flow_of h).
  destruct (Z.eqb_spec device (wan_device config)) as [Hw|Hw]; cbn [negb].
  - pose proof (get_backend_spec pow2 tbl config HC flow_p b2 s1 now (flow_of h) backend0 HI) as Hg.
    destruct (lb_get tbl config s1 (flow_of h) now) as [s2 [k|]];
      destruct Hg as (kb & b3 & -> & HI3 & Hch); cbn [mbind option_bind]; unfold concretize_devices.
    + destruct Hch as [-> Hok]. pose proof Hok as (Hnr & Hnw & _).
      destruct (Z.eqb_spec (nic kb) (wan_device config)); [done|]. cbn [negb].
      destruct (lb_forward pk tail h kb device HR Htail HP Hok ltac:(congruence))
        as (pk4 & dm & pk5 & pk6 & pk7 & ? & ? & ? & ? & ? & Hdel).
      osteps. eauto 7.
    + simpl in Hch. rewrite Hch, Z.eqb_refl. cbn [negb]. eexists _, _, _.
      split; [done|]. split; [done|]. simpl. rewrite <- Hw. split; [by eapply parsed_drop|done].
  - rewrite (load_bytes_buf pk) by done.
    destruct (load_bytes_total pk tail s_addr_off 6 HR) as (bs & Hbs & Hlen);
      [done|pose proof (rc_total _ _ HR); unfold s_addr_off; lia|].
    unfold smac. rewrite Hbs. cbn [mbind option_bind default].
    destruct (heartbeat_spec pow2 tbl config HC flow_p b2 s1 now HI (flow_of h) bs device)
      as (b3 & -> & HI3); [done..|]. cbn [mbind option_bind].
    eexists _, _, _. split; [done|]. split; [done|]. split; [by eapply parsed_drop|done].
Qed.

End process.

(** ** Executions *)

Definition smac_of (pk : packet) : list Z := default [] (load_bytes pk (base pk + s_addr_off) 6).

Fixpoint lb_run `{KeyOps LoadBalancedFlow} `{KeyOps ip_addr} `{Checksums} (pow2 : bool)
    (devices_avail : Z) (config : nf_config) (flow_p : Z) (backend0 : LoadBalancedBackend)
    (b : LoadBalancer) (evs : list event) : option LoadBalancer :=
  match evs with
  | [] => Some b
  | ev :: evs' =>
      '(_, _, b') ← nf_process pow2 devices_avail config b flow_p (ev_device ev) (ev_now ev)
        backend0 (ev_packet ev);
      lb_run pow2 devices_avail config flow_p backend0 b' evs'
  end.

(** The same on the abstract state. *)
Fixpoint lb_abs_run `{KeyOps LoadBalancedFlow} (tbl : Vector Z) (config : nf_config) (s : lb_abs)
    (evs : list event) : lb_abs :=
  match evs with
  | [] => s
  | ev :: evs' =>
      lb_abs_run tbl config
        (lb_spec tbl config s (ev_device ev) (ev_now ev) (smac_of (ev_packet ev))
           (packet_headers (ev_packet ev))).1 evs'
  end.

(** Events in time order, none of them later than [deadline] nor a packet of
    flow [f] from outside. *)
Fixpoint others_ok (config : nf_config) (f : LoadBalancedFlow) (before deadline : Z)
    (evs : list event) : Prop :=
  match evs with
  | [] => True
  | ev :: evs' =>
      before ≤ ev_now ev ≤ deadline ∧ 0 ≤ ev_now ev < 2 ^ 63 ∧
      0 ≤ ev_device ev < zlen (device_macs config) ∧
      (∃ tail, received (ev_packet ev) tail ∧ 14 ≤ tail) ∧
      (ev_device ev = wan_device config →
         ∀ h, packet_headers (ev_packet ev) = Some h → flow_of h ≠ f) ∧
      others_ok config f (ev_now ev) deadline evs'
  end.

(** Flow [f] has index [j], was used at [tm] or later and belongs to backend [k]. *)
Definition assigned (s : lb_abs) (f : LoadBalancedFlow) (j tm k : Z) : Prop :=
  ∃ t, Ent j f t ∈ ents (a_flows s) ∧ tm ≤ t ∧ a_ids s !! Z.to_nat j = Some k.

Section executions.
Context `{KeyLaws LoadBalancedFlow} `{KeyLaws ip_addr} `{Checksums}.
Variable pow2 : bool.
Variable tbl : Vector Z.
Variable config : nf_config.
Hypothesis HC : config_ok config.
Variables flow_p devices_avail : Z.
Variable backend0 : LoadBalancedBackend.
Implicit Types (b : LoadBalancer) (s : lb_abs) (f g : LoadBalancedFlow).

Lemma assign_keeps s g now f j tm k :
  (∀ i fs, t_frees (a_flows s) = i :: fs → Z.to_nat i ≠ Z.to_nat j) →
  assigned s f j tm k → assigned (lb_assign tbl config s g now).1 f j tm k.
Proof.
  intros Hne (t & Hin & Ht & Hk). unfold lb_assign, t_add.
  destruct (lb_choose tbl config s g); [|by exists t].
  destruct (t_frees (a_flows s)) as [|i fs] eqn:Hf; [by exists t|]. exists t. simpl.
  split_and!; [|done|].
  - apply elem_of_app. by left.
  - rewrite list_lookup_insert_ne; [done|]. by apply (Hne i fs).
Qed.

(** Traffic of other flows, and heartbeats, leave the assignment of a flow. *)
Lemma lb_get_keeps b s g now f j tm k :
  lb_inv pow2 tbl config flow_p b s now → g ≠ f → assigned s f j tm k →
  assigned (lb_get tbl config s g now).1 f j tm k.
Proof.
  intros HI Hgf Ha. pose proof (fi_emap _ _ _ _ _ _ _ _ (li_flows _ _ _ _ _ _ _ HI)) as HE.
  pose proof Ha as (t & Hin & Ht & Hk). unfold lb_get.
  destruct (t_lookup (a_flows s) g) as [e|] eqn:El.
  - apply t_lookup_Some in El as [He Hke].
    destruct (ent_position _ _ _ _ HE e _ He Hin) as [Hi Hp]; [by rewrite Hke|]. simpl in Hi, Hp.
    destruct (t_entry _ _).
    + exists t. split_and!; [|done..]. simpl. apply elem_of_app. left.
      apply list_elem_of_filter. by split.
    + apply assign_keeps; simpl.
      * by intros i fs [= <- _].
      * exists t. split_and!; [|done..]. simpl. apply list_elem_of_filter. by split.
  - apply assign_keeps; [|done]. intros i fs Hf.
    by apply (fresh_index_ne _ _ _ _ HE i fs (Ent j f t)).
Qed.

Lemma lb_spec_keeps b s ev f j tm k :
  lb_inv pow2 tbl config flow_p b (lb_expire config s (ev_now ev)) (ev_now ev) →
  t_sorted (a_flows s) (ev_now ev) →
  assigned s f j tm k → ev_now ev ≤ tm + 1000 * cfg_flow_expiration_time config →
  (ev_device ev = wan_device config →
     ∀ h, packet_headers (ev_packet ev) = Some h → flow_of h ≠ f) →
  assigned (lb_spec tbl config s (ev_device ev) (ev_now ev) (smac_of (ev_packet ev))
              (packet_headers (ev_packet ev))).1 f j tm k.
Proof.
  intros HI Hs (t & Hin & Ht & Hk) Hd Hne. unfold lb_spec.
  set (s1 := lb_expire config s (ev_now ev)) in *.
  assert (assigned s1 f j tm k) as Ha.
  { exists t. split_and!; [|done..]. simpl. eapply t_expire_keeps; [exact Hs|done|]. simpl. lia. }
  destruct (packet_headers (ev_packet ev)) as [h|] eqn:Eh; [|done].
  destruct (Z.eqb_spec (ev_device ev) (wan_device config)) as [Hw|Hw].
  - pose proof (lb_get_keeps _ _ _ _ _ _ _ _ HI (Hne Hw h eq_refl) Ha) as Hg.
    by destruct (lb_get tbl config s1 (flow_of h) (ev_now ev)).
  - unfold lb_heartbeat. repeat case_match; done.
Qed.

Lemma lb_run_keeps evs b s before f j tm k :
  lb_inv pow2 tbl config flow_p b s before → assigned s f j tm k →
  others_ok config f before (tm + 1000 * cfg_flow_expiration_time config) evs →
  let s' := lb_abs_run tbl config s evs in
  ∃ b', lb_run pow2 devices_avail config flow_p backend0 b evs = Some b' ∧
    lb_inv pow2 tbl config flow_p b' s' (last_now before evs) ∧ assigned s' f j tm k.
Proof.
  revert b s before. induction evs as [|ev evs IH]; intros b s before HI Ha Hev; [by exists b|].
  destruct Hev as (Hb & Hn & Hd & (tail & HR & Htail) & Hf & Hevs).
  destruct (lb_expire_spec pow2 tbl config HC flow_p b s before (ev_now ev) HI ltac:(lia) Hn)
    as (b1 & b2 & _ & _ & HI1).
  pose proof (lb_process_spec pow2 tbl config HC flow_p devices_avail b s before (ev_now ev)
    (ev_device ev) backend0 (ev_packet ev) tail HI ltac:(lia) Hn HR Htail Hd) as Hp.
  pose proof (lb_spec_keeps b2 s ev f j tm k HI1) as Hkeep. cbn zeta in Hp. cbn [lb_abs_run].
  fold (smac_of (ev_packet ev)) in Hp.
  destruct (lb_spec tbl config s _ _ _ _) as [s' act]. destruct Hp as (dev & pk' & b' & Hp & HI' & _).
  destruct (IH b' s' (ev_now ev) HI') as (b'' & Hr & HI'' & Ha''); [|done|].
  { apply Hkeep; [|done|lia|done]. eapply t_sorted_mono; [|apply Hb].
    apply (fi_sorted _ _ _ _ _ _ _ _ (li_flows _ _ _ _ _ _ _ HI)). }
  exists b''. cbn [lb_run]. rewrite Hp. cbn [mbind option_bind]. done.
Qed.

End executions.

(** ** Main results *)

(** C25: the load balancer implements its contract.  For any received packet
    on any device, [nf_process] runs without undefined behaviour (its recursion
    needs two calls at most) and does what the contract says: expire flows and
    backends; register or refresh the backend of a heartbeat; send a packet of
    a known flow to its backend while that is alive, and otherwise choose the
    first live backend of the row of the flow's hash, remembering the choice
    when there is room; drop the packet when no backend is alive.  A forwarded
    packet carries the backend's addresses, the other fields and the payload
    are unchanged, and the invariant is kept. *)
Theorem lb_process_refines_spec `{KeyLaws LoadBalancedFlow} `{KeyLaws ip_addr} `{Checksums}
    (pow2 : bool) (tbl : Vector Z) (config : nf_config) (flow_p devices_avail : Z)
    (b : LoadBalancer) (s : lb_abs) (before now device : Z) (backend0 : LoadBalancedBackend)
    (pk : packet) (tail : Z) :
  config_ok config → lb_inv pow2 tbl config flow_p b s before → before ≤ now →
  0 ≤ now < 2 ^ 63 → received pk tail → 14 ≤ tail →
  0 ≤ device < zlen (device_macs config) →
  let '(s', act) := lb_spec tbl config s device now (smac_of pk) (packet_headers pk) in
  ∃ dev pk' b', nf_process pow2 devices_avail config b flow_p device now backend0 pk =
                  Some (dev, pk', b') ∧
    lb_inv pow2 tbl config flow_p b' s' now ∧
    delivered config pk device (packet_headers pk) act dev pk'.
Proof.
  intros HC HI Hle Hn HR Ht Hd.
  pose proof (lb_process_spec pow2 tbl config HC flow_p devices_avail b s before now device backend0
    pk tail HI Hle Hn HR Ht Hd) as Hp. cbn zeta in Hp. fold (smac_of pk) in Hp.
  destruct (lb_spec _ _ _ _ _ _ _) as [s' act]. destruct Hp as (dev & pk' & b' & ? & ? & ? & _).
  by exists dev, pk', b'.
Qed.

(** C26: flow affinity.  Suppose flow [f] is in the table with backend [k] and
    last used at [tm].  After any sequence of other traffic and heartbeats up
    to the flow's expiration time, the next packet of the flow in that time is
    sent to the backend registered under [k], provided this one is still alive
    (it has sent a heartbeat within the backends' expiration time). *)
Theorem lb_flow_affinity `{KeyLaws LoadBalancedFlow} `{KeyLaws ip_addr} `{Checksums}
    (pow2 : bool) (tbl : Vector Z) (config : nf_config) (flow_p devices_avail : Z)
    (backend0 : LoadBalancedBackend) (b : LoadBalancer) (s : lb_abs) (before : Z)
    (e : ent LoadBalancedFlow) (k : Z) (evs : list event) (now : Z) (pk : packet) (tail : Z)
    (h : headers) :
  config_ok config → lb_inv pow2 tbl config flow_p b s before →
  e ∈ ents (a_flows s) → a_ids s !! Z.to_nat (e_idx e) = Some k →
  others_ok config (e_key e) before (e_time e + 1000 * cfg_flow_expiration_time config) evs →
  last_now before evs ≤ now ≤ e_time e + 1000 * cfg_flow_expiration_time config →
  0 ≤ now < 2 ^ 63 → received pk tail → 14 ≤ tail →
  packet_headers pk = Some h → flow_of h = e_key e →
  let s' := lb_abs_run tbl config s evs in
  is_Some (t_entry (a_ips (lb_expire config s' now)) k) →
  ∃ b' kb pk' b'', lb_run pow2 devices_avail config flow_p backend0 b evs = Some b' ∧
    a_backends s' !! Z.to_nat k = Some kb ∧
    nf_process pow2 devices_avail config b' flow_p (wan_device config) now backend0 pk =
      Some (nic kb, pk', b'') ∧
    delivered config pk (wan_device config) (Some h) (Some kb) (nic kb) pk'.
Proof.
  intros HC HI He Hk Hev Hnow Hn HR Htail Hh Hf s' [eb Heb].
  assert (assigned s (e_key e) (e_idx e) (e_time e) k) as Ha.
  { exists (e_time e). split_and!; [by destruct e|lia|done]. }
  destruct (lb_run_keeps pow2 tbl config HC flow_p devices_avail backend0 evs b s before
    (e_key e) _ _ _ HI Ha Hev) as (b' & Hr & HI' & (t & Hin & Ht & Hk')).
  fold s' in HI', Hin, Hk'.
  pose proof (lb_process_spec pow2 tbl config HC flow_p devices_avail b' s' _ now
    (wan_device config) backend0 pk tail HI' ltac:(lia) Hn HR Htail (co_wan _ HC)) as Hp.
  cbn zeta in Hp. rewrite Hh in Hp. unfold lb_spec in Hp. rewrite Z.eqb_refl, Hf in Hp.
  destruct (lb_expire_spec pow2 tbl config HC flow_p b' s' _ now HI' ltac:(lia) Hn)
    as (b1 & b2 & _ & _ & HI1).
  pose proof (li_flows _ _ _ _ _ _ _ HI1) as HF1. pose proof (li_flows _ _ _ _ _ _ _ HI') as HF'.
  assert (t_lookup (a_flows (lb_expire config s' now)) (e_key e) = Some (Ent (e_idx e) (e_key e) t))
    as Hl.
  { apply (t_lookup_elem _ (Ent (e_idx e) (e_key e) t)); [apply (em_keys _ _ _ _ (fi_emap _ _ _ _ _ _ _ _ HF1))|].
    simpl. eapply t_expire_keeps; [apply (fi_sorted _ _ _ _ _ _ _ _ HF')|done|]. simpl. lia. }
  unfold lb_get in Hp. rewrite Hl in Hp. cbn [e_idx] in Hp. simpl (a_ids _) in Hp.
  rewrite (list_lookup_total_correct _ _ _ Hk'), Heb in Hp. cbn [a_backends lb_expire] in Hp.
  apply t_entry_Some in Heb as [Hin' <-].
  destruct (bi_ok _ _ _ _ _ _ _ _ (li_backends _ _ _ _ _ _ _ HI1) eb Hin') as (kb & Hkb & _).
  simpl in Hkb. rewrite Hkb in Hp. destruct Hp as (dev & pk' & b'' & Hp & _ & Hdel & _).
  assert (dev = nic kb) as -> by (destruct Hdel as ((_ & -> & _) & _); done).
  exists b', kb, pk', b''. split_and!; [done..|]. exact Hdel.
Qed.

(** ** Concrete instances *)

Definition demo_lb_flow_ops : KeyOps LoadBalancedFlow := {|
  key_eq := λ a b, bool_decide (a = b);
  key_hash := λ f, src_port f mod 7
|}.

Definition demo_lb_ip_ops : KeyOps ip_addr := {|
  key_eq := λ a b, bool_decide (a = b);
  key_hash := λ a, ip_of a mod 7
|}.

#[local] Existing Instance demo_lb_flow_ops.
#[local] Existing Instance demo_lb_ip_ops.

#[local] Instance demo_lb_flow_laws : KeyLaws LoadBalancedFlow.
Proof.
  constructor; simpl.
  - intros a b. apply bool_decide_eq_true.
  - intros a. pose proof (Z.mod_pos_bound (src_port a) 7). lia.
Qed.

#[local] Instance demo_lb_ip_laws : KeyLaws ip_addr.
Proof.
  constructor; simpl.
  - intros a b. apply bool_decide_eq_true.
  - intros a. pose proof (Z.mod_pos_bound (ip_of a) 7). lia.
Qed.

#[local] Instance demo_lb_checksums : Checksums := {|
  rte_ipv4_udptcp_cksum := λ _ _ _, 4660;
  rte_ipv4_cksum := λ _ _, 22136
|}.

Definition demo_lb_config : nf_config :=
  MkConfig [[2;0;0;0;1;0]; [2;0;0;0;1;1]] 3 1000 3 5 1000 1.

Lemma demo_lb_config_ok : config_ok demo_lb_config.
Proof. constructor; try done; [apply demo_dims|repeat constructor]. Qed.

Definition demo_backend0 : LoadBalancedBackend := MkBackend 9 [9;9;9;9;9;9] 9.

Definition demo_balancer : LoadBalancer :=
  MkBalancer 1000 1000
    (MkState (demo_table 16 (MkFlow 0 0 0 0 0)) (MkVector 2000 4 3 [0; 0; 0])
       (demo_table 4 (IpAddr 0)) (MkVector 3000 12 3 (replicate 3 demo_backend0)) demo_cht 5 3).

Definition demo_lb_abs : lb_abs :=
  LbAbs (Table [] [0; 1; 2]) [0; 0; 0] (Table [] [0; 1; 2]) (replicate 3 demo_backend0).

Lemma t_sorted_nil {K} (l : list Z) now : t_sorted (Table (K := K) [] l) now.
Proof. split; [constructor|]. intros e He. by apply elem_of_nil in He. Qed.

Lemma demo_balancer_inv : lb_inv false demo_cht demo_lb_config 8 demo_balancer demo_lb_abs 0.
Proof.
  constructor; [| |exact demo_cht_valid|reflexivity..].
  - constructor; [by apply demo_table_ok|apply t_sorted_nil|by constructor|done|done| |].
    + intros e He. by apply elem_of_nil in He.
    + intros i Hi. unfold addr. simpl in *. lia.
  - constructor; [by apply demo_table_ok|apply t_sorted_nil|by constructor|done|done| |].
    + intros e He. by apply elem_of_nil in He.
    + intros i Hi. unfold addr. simpl in *. lia.
Qed.

(** After a heartbeat from device 0 at time 5, and after a first packet of a
    flow on the external device at time 6. *)
Definition demo_after (b : LoadBalancer) (device now : Z) : LoadBalancer :=
  match nf_process false 2 demo_lb_config b 8 device now demo_backend0 demo_packet with
  | Some (_, _, b') => b'
  | None => b
  end.

Definition demo_abs_after (s : lb_abs) (device now : Z) : lb_abs :=
  (lb_spec demo_cht demo_lb_config s device now (smac_of demo_packet)
     (packet_headers demo_packet)).1.

Lemma demo_after_inv b s before device now :
  lb_inv false demo_cht demo_lb_config 8 b s before → before ≤ now → 0 ≤ now < 2 ^ 63 →
  0 ≤ device < 2 →
  lb_inv false demo_cht demo_lb_config 8 (demo_after b device now) (demo_abs_after s device now) now.
Proof.
  intros HI Hle Hn Hd.
  pose proof (lb_process_spec false demo_cht demo_lb_config demo_lb_config_ok 8 2 b s before now
    device demo_backend0 demo_packet 20 HI Hle Hn demo_packet_received ltac:(lia) Hd) as Hp.
  unfold demo_abs_after, demo_after, smac_of. cbn zeta in Hp.
  destruct (lb_spec _ _ _ _ _ _) as [s' act]. by destruct Hp as (dev & pk' & b' & -> & HI' & _).
Qed.

Definition demo_lb1 : LoadBalancer := demo_after demo_balancer 0 5.
Definition demo_abs1 : lb_abs := demo_abs_after demo_lb_abs 0 5.
Definition demo_lb2 : LoadBalancer := demo_after demo_lb1 1 6.
Definition demo_abs2 : lb_abs := demo_abs_after demo_abs1 1 6.

Lemma demo_lb1_inv : lb_inv false demo_cht demo_lb_config 8 demo_lb1 demo_abs1 5.
Proof. by apply (demo_after_inv _ _ 0 _ _ demo_balancer_inv). Qed.

Lemma demo_lb2_inv : lb_inv false demo_cht demo_lb_config 8 demo_lb2 demo_abs2 6.
Proof. by apply (demo_after_inv _ _ 5 _ _ demo_lb1_inv). Qed.

(** A packet from outside is forwarded to the backend that has announced itself. *)
Lemma lb_process_refines_spec_witness :
  ∃ pk' b', nf_process false 2 demo_lb_config demo_lb1 8 1 6 demo_backend0 demo_packet =
    Some (0, pk', b').
Proof.
  pose proof (lb_process_refines_spec false demo_cht demo_lb_config 8 2 demo_lb1 demo_abs1 5 6 1
    demo_backend0 demo_packet 20 demo_lb_config_ok demo_lb1_inv ltac:(lia) ltac:(lia)
    demo_packet_received ltac:(lia) ltac:(done)) as Hp.
  destruct (lb_spec _ _ _ _ _ _ _) as [s' act] eqn:E.
  destruct Hp as (dev & pk' & b' & Hp & _ & Hd).
  vm_compute in E. injection E as _ <-. destruct Hd as ((_ & -> & _) & _). exists pk', b'. exact Hp.
Defined.

(** The flow stays with its backend after another heartbeat. *)
Lemma lb_flow_affinity_witness :
  ∃ b' pk' b'', lb_run false 2 demo_lb_config 8 demo_backend0 demo_lb2 [Event 0 7 demo_packet] =
      Some b' ∧
    nf_process false 2 demo_lb_config b' 8 1 8 demo_backend0 demo_packet = Some (0, pk', b'').
Proof.
  edestruct (lb_flow_affinity false demo_cht demo_lb_config 8 2 demo_backend0 demo_lb2 demo_abs2 6
    (Ent 0 (MkFlow 16777226 33554442 4 20480 17) 6) 0 [Event 0 7 demo_packet] 8 demo_packet 20)
    as (b' & kb & pk' & b'' & Hr & Hkb & Hp & _);
    [apply demo_lb_config_ok|apply demo_lb2_inv|vm_compute; by left|vm_compute; reflexivity
    | |simpl; lia|lia|apply demo_packet_received|lia|vm_compute; reflexivity|reflexivity
    |vm_compute; by eexists|].
  - split_and!; try done. exists 20. split; [apply demo_packet_received|lia].
  - exists b', pk', b''. split; [exact Hr|]. vm_compute in Hkb. injection Hkb as <-. exact Hp.
Defined.
