(* ===== verification/Ether.v ===== *)
(** * ether.c

    MAC addresses as keys: comparison, initialisation and hash, and the proof
    that they meet the contract the hash table asks of its keys. *)
From stdpp Require Import base list gmap numbers countable.
From Stdlib Require Import ZArith Lia.
From S2P Require Import Prelude.
From S2P Require Import MapImpl.

(** struct rte_ether_addr: six bytes. *)
Record rte_ether_addr := EtherAddr {
  byte0 : Z; byte1 : Z; byte2 : Z; byte3 : Z; byte4 : Z; byte5 : Z
}.

#[export] Instance rte_ether_addr_eq_dec : EqDecision rte_ether_addr.
Proof. solve_decision. Defined.

#[export] Instance rte_ether_addr_countable : Countable rte_ether_addr.
Proof.
  apply (inj_countable' (λ a, (byte0 a, byte1 a, byte2 a, byte3 a, byte4 a, byte5 a))
    (λ '(a, b, c, d, e, f), EtherAddr a b c d e f)).
  by intros [].
Defined.

(** The crc32 instruction on a 32-bit word: accumulator and data to a new
    accumulator. *)
Class Crc32 := {
  crc32si : Z → Z → Z;
  crc32si_range : ∀ acc data, 0 ≤ crc32si acc data < 2 ^ 32
}.

Definition rte_ether_addr_eq (id1 id2 : rte_ether_addr) : bool :=
  (byte0 id1 =? byte0 id2) && (byte1 id1 =? byte1 id2) && (byte2 id1 =? byte2 id2) &&
  (byte3 id1 =? byte3 id2) && (byte4 id1 =? byte4 id2) && (byte5 id1 =? byte5 id2).

Definition rte_ether_addr_allocate : rte_ether_addr := EtherAddr 0 0 0 0 0 0.

Definition rte_ether_addr_hash `{Crc32} (id : rte_ether_addr) : Z :=
  let hash := 0 in
  let hash := crc32si hash (byte0 id) in
  let hash := crc32si hash (byte1 id) in
  let hash := crc32si hash (byte2 id) in
  let hash := crc32si hash (byte3 id) in
  let hash := crc32si hash (byte4 id) in
  crc32si hash (byte5 id).

#[export] Instance ether_key_ops `{Crc32} : KeyOps rte_ether_addr := {|
  key_eq := rte_ether_addr_eq;
  key_hash := rte_ether_addr_hash
|}.

(** The functions of ether.c discharge the contract of the table's keys. *)
#[export] Instance ether_key_laws `{Crc32} : KeyLaws rte_ether_addr.
Proof.
  constructor; simpl.
  - intros [] []. unfold rte_ether_addr_eq. simpl. rewrite !andb_true_iff, !Z.eqb_eq.
    split; [by intros (((((-> & ->) & ->) & ->) & ->) & ->)|]. intros Heq. by simplify_eq.
  - intros a. apply crc32si_range.
Qed.

(** ** The instruction itself

    CRC-32C (reflected polynomial 0x82F63B78) of 32 bits of data. *)

Definition crc32c_step (c : Z) : Z :=
  if Z.odd c then Z.lxor (Z.shiftr c 1) 2197175160 else Z.shiftr c 1.

Definition crc32c (acc data : Z) : Z := u32 (Nat.iter 32 crc32c_step (Z.lxor acc (u32 data))).

#[export] Instance sse42_crc32 : Crc32.
Proof. refine {| crc32si := crc32c |}. intros acc data. apply u32_range. Defined.

(** Two values of the instruction, from its reference implementation. *)
Lemma crc32c_values : crc32c 0 1 = 3712330424 ∧ crc32c 0 0 = 0.
Proof. vm_compute. split; reflexivity. Qed.
