(* ===== verification/Double.v ===== *)
(** * Arithmetic with doubles

    vighhh computes its threshold with the C type [double], IEEE 754 binary64,
    whose operations are those of [SpecFloat] with 53 digits and exponents
    below 1024.  The lemmas bound the error of a conversion and of a
    multiplication on positive numbers of moderate size. *)
From stdpp Require Import base list numbers.
From Stdlib Require Import ZArith Lia SpecFloat.
From S2P Require Import Prelude.

Abbreviation double := spec_float.

(** The conversion of an integer. *)
Definition double_of_Z (z : Z) : double := binary_normalize 53 1024 z 0 false.

Definition double_mul (x y : double) : double := SFmul 53 1024 x y.

(** The conversion to [uint64_t] drops the fraction; it is undefined when the
    rest is not in the range. *)
Definition uint64_of_double (x : double) : option Z :=
  match x with
  | S754_zero _ => Some 0
  | S754_finite s m e =>
      let z := Z.shiftl (Zpos m) e in
      if s then (if z =? 0 then Some 0 else None) else (if z <? 2 ^ 64 then Some z else None)
  | _ => None
  end.

(** ** Digits *)

Lemma digits2_bounds p : 2 ^ (Zpos (digits2_pos p) - 1) ≤ Zpos p < 2 ^ Zpos (digits2_pos p).
Proof.
  induction p as [p IH|p IH|]; cbn [digits2_pos]; [..|by vm_compute];
    rewrite !Pos2Z.inj_succ; (replace (Z.succ (Zpos (digits2_pos p)) - 1) with (Zpos (digits2_pos p)) by lia);
    rewrite Z.pow_succ_r by lia;
    (replace (2 ^ Zpos (digits2_pos p)) with (2 * 2 ^ (Zpos (digits2_pos p) - 1)) in *
       by (rewrite <- Z.pow_succ_r by lia; f_equal; lia)); lia.
Qed.

Lemma digits2_unique m d : 0 < d → 2 ^ (d - 1) ≤ m < 2 ^ d → Zdigits2 m = d.
Proof.
  intros Hd Hm. assert (0 < m) as H0 by (pose proof (Z.pow_pos_nonneg 2 (d - 1)); lia).
  destruct m as [|p|p]; try lia. cbn [Zdigits2]. pose proof (digits2_bounds p) as Hp.
  destruct (Z.lt_trichotomy (Zpos (digits2_pos p)) d) as [Hlt|[->|Hgt]]; [|done|].
  - pose proof (Z.pow_le_mono_r 2 (Zpos (digits2_pos p)) (d - 1)). lia.
  - pose proof (Z.pow_le_mono_r 2 d (Zpos (digits2_pos p) - 1)). lia.
Qed.

(** ** Rounding *)

Lemma shr_1_m r : 0 ≤ shr_m r → shr_m (shr_1 r) = shr_m r / 2.
Proof.
  destruct r as [m r s]. cbn [shr_m]. intros Hm. destruct m as [|[p|p|]|p]; try done; cbn [shr_1 shr_m].
  - rewrite Pos2Z.inj_xI. apply (Z.div_unique _ _ _ 1); lia.
  - rewrite Pos2Z.inj_xO. apply (Z.div_unique _ _ _ 0); lia.
Qed.

Lemma shr_iter_m n : ∀ r, 0 ≤ shr_m r → shr_m (iter_pos shr_1 n r) = shr_m r / 2 ^ Zpos n.
Proof.
  assert (∀ x k, 0 ≤ x → 0 ≤ x / 2 ^ Zpos k) as Hpos.
  { intros x k Hx. by apply Z.div_pos; [|apply Z.pow_pos_nonneg; lia]. }
  induction n as [n IH|n IH|]; intros r Hr; cbn [iter_pos].
  - assert (0 ≤ shr_m (shr_1 r)) as H1 by (rewrite shr_1_m by done; apply Z.div_pos; lia).
    rewrite IH by (rewrite IH by done; by apply Hpos). rewrite IH, shr_1_m by done.
    rewrite !Z.div_div by lia. f_equal.
    replace (Zpos n~1) with (1 + Zpos n + Zpos n) by lia. rewrite !Z.pow_add_r by lia. ring.
  - rewrite IH by (rewrite IH by done; by apply Hpos). rewrite IH by done. rewrite Z.div_div by lia.
    f_equal. replace (Zpos n~0) with (Zpos n + Zpos n) by lia. by rewrite Z.pow_add_r by lia.
  - by rewrite shr_1_m.
Qed.

Lemma shr_m_spec m e n : 0 ≤ m → 0 ≤ n →
  shr_m (shr (shr_record_of_loc m loc_Exact) e n).1 = m / 2 ^ n ∧
  (shr (shr_record_of_loc m loc_Exact) e n).2 = e + n.
Proof.
  intros Hm Hn. destruct n as [|n|n]; [|by split; [apply shr_iter_m|]|lia].
  cbn. rewrite Z.div_1_r. split; [done|lia].
Qed.

Lemma round_even_cases m l : round_nearest_even m l = m ∨ round_nearest_even m l = m + 1.
Proof. destruct l as [|[]]; simpl; [auto| |auto|auto]. destruct (Z.even m); auto. Qed.

(** The exponent of a normal number with [d] digits. *)
Lemma shr_fexp_normal m e d :
  2 ^ (d - 1) ≤ m < 2 ^ d → 53 ≤ d → -1074 ≤ d + e - 53 →
  ∃ r, shr_fexp 53 1024 m e loc_Exact = (r, e + (d - 53)) ∧ shr_m r = m / 2 ^ (d - 53).
Proof.
  intros Hm Hd He. pose proof (Z.pow_pos_nonneg 2 (d - 1)) as Hp.
  unfold shr_fexp. rewrite (digits2_unique m d) by lia.
  replace (fexp 53 1024 (d + e) - e) with (d - 53) by (unfold fexp, SpecFloat.emin; lia).
  destruct (shr_m_spec m e (d - 53)) as [H1 H2]; [lia|lia|].
  destruct (shr _ _ _) as [r e']. cbn [fst snd] in *. exists r. by rewrite H2, H1.
Qed.

(** Rounding to 53 digits changes a number by at most one part in 2^52. *)
Lemma round_normal m e d :
  2 ^ (d - 1) ≤ Zpos m < 2 ^ d → 53 ≤ d → -1074 ≤ d + e - 53 → d + e ≤ 1000 →
  ∃ m' e', binary_round_aux 53 1024 false (Zpos m) e loc_Exact = S754_finite false m' e' ∧
    2 ^ 52 ≤ Zpos m' < 2 ^ 53 ∧ e ≤ e' ∧ d + e - 53 ≤ e' ≤ d + e - 52 ∧
    2 ^ 52 * Z.abs (Zpos m' * 2 ^ (e' - e) - Zpos m) ≤ Zpos m.
Proof.
  intros Hm Hd He Hmax. unfold binary_round_aux.
  destruct (shr_fexp_normal (Zpos m) e d Hm Hd He) as (r & -> & Hr). cbv beta iota.
  set (x := round_nearest_even _ _).
  assert (x = Zpos m / 2 ^ (d - 53) ∨ x = Zpos m / 2 ^ (d - 53) + 1) as Hx.
  { subst x. rewrite <- Hr. apply round_even_cases. }
  clearbody x. clear r Hr. set (q := Zpos m / 2 ^ (d - 53)) in *.
  pose proof (Z.pow_pos_nonneg 2 (d - 53)) as Hp.
  assert (2 ^ (d - 1) = 2 ^ (d - 53) * 2 ^ 52) as E1 by (rewrite <- Z.pow_add_r by lia; f_equal; lia).
  assert (2 ^ d = 2 ^ (d - 53) * 2 ^ 53) as E2 by (rewrite <- Z.pow_add_r by lia; f_equal; lia).
  assert (2 ^ 52 ≤ q < 2 ^ 53) as Hq.
  { subst q. split; [apply Z.div_le_lower_bound|apply Z.div_lt_upper_bound]; lia. }
  assert (2 ^ (d - 53) * q ≤ Zpos m < 2 ^ (d - 53) * (q + 1)) as Hdiv.
  { subst q. pose proof (Z.mod_pos_bound (Zpos m) (2 ^ (d - 53))).
    pose proof (Z.div_mod (Zpos m) (2 ^ (d - 53))). lia. }
  clearbody q.
  assert (2 ^ 52 * Z.abs (x * 2 ^ (d - 53) - Zpos m) ≤ Zpos m) as Herr.
  { assert (Z.abs (x * 2 ^ (d - 53) - Zpos m) ≤ 2 ^ (d - 53)) by (destruct Hx as [-> | ->]; lia). nia. }
  destruct (Z.eq_dec x (2 ^ 53)) as [->|Hne].
  - destruct (shr_fexp_normal (2 ^ 53) (e + (d - 53)) 54) as (r' & -> & Hr'); [lia|lia|lia|].
    rewrite Hr'. change (2 ^ 53 / 2 ^ (54 - 53)) with (2 ^ 52).
    destruct (Z.leb_spec (e + (d - 53) + (54 - 53)) (1024 - 53)); [|lia].
    exists (2 ^ 52)%positive, (e + (d - 53) + (54 - 53)). split; [done|].
    change (Zpos (2 ^ 52)) with (2 ^ 52). split_and!; try lia.
    replace (e + (d - 53) + (54 - 53) - e) with (Z.succ (d - 53)) by lia.
    rewrite Z.pow_succ_r by lia. replace (2 ^ 52 * (2 * 2 ^ (d - 53))) with (2 ^ 53 * 2 ^ (d - 53)) by lia.
    exact Herr.
  - destruct (shr_fexp_normal x (e + (d - 53)) 53) as (r' & -> & Hr'); [lia|lia|lia|].
    rewrite Hr'. change (53 - 53) with 0. rewrite Z.pow_0_r, Z.div_1_r.
    destruct x as [|x|x]; try lia. destruct (Z.leb_spec (e + (d - 53) + 0) (1024 - 53)); [|lia].
    exists x, (e + (d - 53) + 0). split; [done|]. split_and!; try lia.
    replace (e + (d - 53) + 0 - e) with (d - 53) by lia. exact Herr.
Qed.

(** ** Errors

    [V] is the value of a positive normal number in units of 2^-200; [lo] and [hi] bound its
    exponent. *)
Definition has_value (lo hi : Z) (x : double) (V : Z) : Prop :=
  ∃ m e, x = S754_finite false m e ∧ 2 ^ 52 ≤ Zpos m < 2 ^ 53 ∧ lo ≤ e ≤ hi ∧
    V = Zpos m * 2 ^ (e + 200).

(** Within one part in 2^52. *)
Definition near (x y : Z) : Prop := 2 ^ 52 * Z.abs (x - y) ≤ y.

Lemma near_scale x y k : 0 ≤ k → near x y → near (x * k) (y * k).
Proof. unfold near. intros Hk Hn. rewrite <- Z.mul_sub_distr_r, Z.abs_mul, (Z.abs_eq k) by done. nia. Qed.

Lemma has_value_pos lo hi x V : -200 ≤ lo → has_value lo hi x V → 0 < V.
Proof.
  intros Hlo (m & e & _ & Hm & He & ->). pose proof (Z.pow_pos_nonneg 2 (e + 200)). nia.
Qed.

(** The rounded number in the common unit. *)
Lemma round_value m e d lo hi :
  2 ^ (d - 1) ≤ Zpos m < 2 ^ d → 53 ≤ d → -200 ≤ e → lo ≤ d + e - 53 → d + e - 52 ≤ hi ≤ 900 →
  ∃ U, has_value lo hi (binary_round_aux 53 1024 false (Zpos m) e loc_Exact) U ∧
    near U (Zpos m * 2 ^ (e + 200)).
Proof.
  intros Hm Hd He Hlo Hhi.
  destruct (round_normal m e d Hm Hd) as (m' & e' & -> & Hm' & Hle & Hr & Herr); [lia|lia|].
  exists (Zpos m' * 2 ^ (e' + 200)). split; [exists m', e'; split_and!; (done || lia)|].
  replace (e' + 200) with ((e' - e) + (e + 200)) by lia. rewrite Z.pow_add_r, Z.mul_assoc by lia.
  apply near_scale; [apply Z.pow_nonneg; lia|exact Herr].
Qed.

Lemma iter_xO p n : Zpos (Pos.iter xO p n) = Zpos p * 2 ^ Zpos n.
Proof.
  induction n as [|n IH] using Pos.peano_ind; [change (2 ^ 1) with 2; simpl; lia|].
  rewrite Pos.iter_succ, Pos2Z.inj_xO, IH, Pos2Z.inj_succ, Z.pow_succ_r by lia. ring.
Qed.

Lemma double_of_Z_near z : 0 < z < 2 ^ 64 →
  ∃ V, has_value (-52) 12 (double_of_Z z) V ∧ near V (z * 2 ^ 200).
Proof.
  intros Hz. destruct z as [|p|p]; try lia. unfold double_of_Z. cbn [binary_normalize].
  pose proof (digits2_bounds p) as Hd. set (d := Zpos (digits2_pos p)) in *. assert (0 < d) by done.
  assert (d ≤ 64).
  { destruct (Z.le_gt_cases d 64); [done|]. pose proof (Z.pow_le_mono_r 2 64 (d - 1)). lia. }
  unfold binary_round. fold d. replace (fexp 53 1024 (d + 0)) with (d - 53)
    by (unfold fexp, SpecFloat.emin; lia).
  unfold shl_align. destruct (d - 53 - 0) as [|k|k] eqn:Ek; cbv beta iota.
  1,2: apply (round_value p 0 d); (done || lia).
  destruct (round_value (Pos.iter xO p k) (d - 53) 53 (-52) 12) as (V & HV & Hn); try lia.
  { rewrite iter_xO. replace (Zpos k) with (53 - d) by lia.
    replace (2 ^ (53 - 1)) with (2 ^ (d - 1) * 2 ^ (53 - d)) by (rewrite <- Z.pow_add_r by lia; f_equal; lia).
    replace (2 ^ 53) with (2 ^ d * 2 ^ (53 - d)) by (rewrite <- Z.pow_add_r by lia; f_equal; lia).
    pose proof (Z.pow_pos_nonneg 2 (53 - d)). nia. }
  exists V. split; [done|]. revert Hn. rewrite iter_xO, <- Z.mul_assoc, <- Z.pow_add_r by lia.
  by replace (Zpos k + (d - 53 + 200)) with 200 by lia.
Qed.

Lemma double_mul_near lo1 hi1 lo2 hi2 x y V W :
  has_value lo1 hi1 x V → has_value lo2 hi2 y W →
  -200 ≤ lo1 → -200 ≤ lo2 → -200 ≤ lo1 + lo2 → hi1 + hi2 ≤ 500 →
  ∃ U, has_value (lo1 + lo2 + 52) (hi1 + hi2 + 54) (double_mul x y) U ∧ near (U * 2 ^ 200) (V * W).
Proof.
  intros (m1 & e1 & -> & Hm1 & He1 & ->) (m2 & e2 & -> & Hm2 & He2 & ->) H1 H2 Hlo Hhi.
  unfold double_mul. cbn [SFmul xorb].
  assert (2 ^ 104 ≤ Zpos (m1 * m2) < 2 ^ 106) as Hm by (rewrite Pos2Z.inj_mul; nia).
  assert (∃ d, 105 ≤ d ≤ 106 ∧ 2 ^ (d - 1) ≤ Zpos (m1 * m2) < 2 ^ d) as (d & Hd & Hmd).
  { destruct (Z.lt_ge_cases (Zpos (m1 * m2)) (2 ^ 105)); [exists 105|exists 106]; lia. }
  destruct (round_value (m1 * m2) (e1 + e2) d (lo1 + lo2 + 52) (hi1 + hi2 + 54)) as (U & HU & Hn); try lia.
  exists U. split; [done|].
  replace (Zpos m1 * 2 ^ (e1 + 200) * (Zpos m2 * 2 ^ (e2 + 200)))
    with (Zpos (m1 * m2) * 2 ^ (e1 + e2 + 200) * 2 ^ 200).
  2: { rewrite <- Z.mul_assoc, <- Z.pow_add_r by lia.
       replace (e1 + e2 + 200 + 200) with ((e1 + 200) + (e2 + 200)) by lia.
       rewrite Pos2Z.inj_mul, Z.pow_add_r by lia. ring. }
  by apply near_scale.
Qed.

Lemma uint64_of_value lo hi x V : -200 ≤ lo → has_value lo hi x V → V < 2 ^ 264 →
  uint64_of_double x = Some (V / 2 ^ 200).
Proof.
  intros Hlo (m & e & -> & Hm & He & HV) Hlt. unfold uint64_of_double.
  assert (Z.shiftl (Zpos m) e = V / 2 ^ 200) as ->.
  { subst V. destruct (Z.le_gt_cases 0 e) as [H0|H0].
    - rewrite Z.shiftl_mul_pow2, Z.pow_add_r, Z.mul_assoc by lia. by rewrite Z.div_mul.
    - rewrite Z.shiftl_div_pow2 by lia.
      replace (2 ^ 200) with (2 ^ (- e) * 2 ^ (e + 200)) by (rewrite <- Z.pow_add_r by lia; f_equal; lia).
      rewrite Z.div_mul_cancel_r; [done|..]; apply Z.pow_nonzero; lia. }
  destruct (Z.ltb_spec (V / 2 ^ 200) (2 ^ 64)) as [|Hge]; [done|].
  assert (V / 2 ^ 200 < 2 ^ 64); [apply Z.div_lt_upper_bound; lia|lia].
Qed.
