(* ===== verification/HhhInit.v ===== *)
(** * vighhh: from the configuration to the tables

    hhh_state.c and [nf_init] of hhh_main.c: the number of prefix lengths, the
    threshold in bytes per second, which is computed with doubles, and the
    tables; then the detector as a whole, from its start. *)
From stdpp Require Import base list gmap numbers sets.
From Stdlib Require Import ZArith Lia SpecFloat.
From S2P Require Import Prelude.
From S2P Require Import Memory.
From S2P Require Import MapImpl.
From S2P Require Import Map.
From S2P Require Import Vector.
From S2P Require Import DChainImpl.
From S2P Require Import DChain.
From S2P Require Import Emap.
From S2P Require Import Expirator.
From S2P Require Import Packet.
From S2P Require Import Ether.
From S2P Require Import Pol.
From S2P Require Import Hhh.
From S2P Require Import Double.

(** ** ip_addr.c and dynamic_value.c *)

Definition ip_addr_eq (a b : ip_addr) : bool := ip a =? ip b.

Definition ip_addr_hash `{Crc32} (a : ip_addr) : Z := crc32si 0 (ip a).

Definition DynamicValue_allocate : DynamicValue := MkValue 0 0.

(** ** The threshold *)

(** The constant 0.01. *)
Definition hundredth : double := S754_finite false 5764607523034235 (-59).

Definition compute_threshold_rate (link_capacity threshold : Z) : option Z :=
  uint64_of_double (double_mul (double_of_Z (link_capacity / 8))
                      (double_mul (double_of_Z threshold) hundredth)).

Lemma near_bounds x y : near x y → (2 ^ 52 - 1) * y ≤ 2 ^ 52 * x ≤ (2 ^ 52 + 1) * y.
Proof. unfold near. lia. Qed.

(** What four roundings make of a product. *)
Lemma four_roundings E S C T H A B P R :
  1 < E → 0 < S → 0 ≤ C → 0 ≤ T → 0 ≤ H → 0 ≤ A → 0 ≤ B → 0 ≤ P → 0 ≤ R →
  (E - 1) * (C * S) ≤ E * A ≤ (E + 1) * (C * S) → (E - 1) * (T * S) ≤ E * B ≤ (E + 1) * (T * S) →
  (E - 1) * (B * H) ≤ E * (P * S) ≤ (E + 1) * (B * H) →
  (E - 1) * (A * P) ≤ E * (R * S) ≤ (E + 1) * (A * P) →
  (E - 1) ^ 4 * (C * T * H) ≤ E ^ 4 * R ≤ (E + 1) ^ 4 * (C * T * H).
Proof.
  intros HE HS HC HT HH HA HB HP HR [Al Au] [Bl Bu] [Pl Pu] [Rl Ru].
  assert (∀ x y, x * (S * S) ≤ y * (S * S) → x ≤ y) as cancel.
  { intros x y. apply Z.mul_le_mono_pos_r. nia. }
  split; apply cancel.
  - transitivity ((E - 1) * ((E * A) * ((E - 1) * (B * H))) * E).
    + replace ((E - 1) ^ 4 * (C * T * H) * (S * S))
        with ((E - 1) * (((E - 1) * (C * S)) * ((E - 1) * H * ((E - 1) * (T * S))))) by ring.
      replace ((E - 1) * (E * A * ((E - 1) * (B * H))) * E)
        with ((E - 1) * ((E * A) * ((E - 1) * H * (E * B)))) by ring.
      apply Z.mul_le_mono_nonneg_l; [lia|]. apply Z.mul_le_mono_nonneg; [nia|done|nia|].
      apply Z.mul_le_mono_nonneg_l; [nia|done].
    + transitivity ((E - 1) * ((E * A) * (E * (P * S))) * E).
      * apply Z.mul_le_mono_nonneg_r; [lia|]. apply Z.mul_le_mono_nonneg_l; [lia|].
        apply Z.mul_le_mono_nonneg_l; [nia|done].
      * replace ((E - 1) * (E * A * (E * (P * S))) * E) with (E * E * E * S * ((E - 1) * (A * P))) by ring.
        replace (E ^ 4 * R * (S * S)) with (E * E * E * S * (E * (R * S))) by ring.
        apply Z.mul_le_mono_nonneg_l; [nia|done].
  - transitivity ((E + 1) * ((E * A) * (E * (P * S))) * E).
    + replace (E ^ 4 * R * (S * S)) with (E * E * E * S * (E * (R * S))) by ring.
      replace ((E + 1) * (E * A * (E * (P * S))) * E) with (E * E * E * S * ((E + 1) * (A * P))) by ring.
      apply Z.mul_le_mono_nonneg_l; [nia|done].
    + transitivity ((E + 1) * ((E * A) * ((E + 1) * (B * H))) * E).
      * apply Z.mul_le_mono_nonneg_r; [lia|]. apply Z.mul_le_mono_nonneg_l; [lia|].
        apply Z.mul_le_mono_nonneg_l; [nia|done].
      * replace ((E + 1) ^ 4 * (C * T * H) * (S * S))
          with ((E + 1) * (((E + 1) * (C * S)) * ((E + 1) * H * ((E + 1) * (T * S))))) by ring.
        replace ((E + 1) * (E * A * ((E + 1) * (B * H))) * E)
          with ((E + 1) * ((E * A) * ((E + 1) * H * (E * B)))) by ring.
        apply Z.mul_le_mono_nonneg_l; [lia|]. apply Z.mul_le_mono_nonneg; [nia|done|nia|].
        apply Z.mul_le_mono_nonneg_l; [nia|done].
Qed.

(** The threshold is the wanted share of the capacity in bytes, up to one byte and one part in
    2^49; in particular the conversions are defined for all capacities and percentages. *)
Theorem threshold_rate_near link_capacity threshold :
  0 ≤ link_capacity < 2 ^ 64 → 0 ≤ threshold < 2 ^ 8 →
  ∃ r, compute_threshold_rate link_capacity threshold = Some r ∧ 0 ≤ r < 2 ^ 64 ∧
    (link_capacity / 8) * threshold * (2 ^ 49 - 1) ≤ 100 * (r + 1) * 2 ^ 49 ∧
    100 * r * 2 ^ 49 ≤ (link_capacity / 8) * threshold * (2 ^ 49 + 1).
Proof.
  intros HL HT. unfold compute_threshold_rate.
  assert (0 ≤ link_capacity / 8 < 2 ^ 61) as HC
    by (split; [apply Z.div_pos; lia|apply Z.div_lt_upper_bound; lia]).
  generalize dependent (link_capacity / 8). intros C HC. clear HL link_capacity. rename threshold into T.
  destruct (Z.eq_dec T 0) as [->|HT0].
  { exists 0. split; [|lia]. change (double_mul (double_of_Z 0) hundredth) with (S754_zero false).
    destruct (Z.eq_dec C 0) as [->|]; [done|].
    destruct (double_of_Z_near C) as (A & (m & e & -> & _) & _); [lia|done]. }
  destruct (double_of_Z_near T) as (B & HB & NB); [lia|].
  assert (has_value (-59) (-59) hundredth (5764607523034235 * 2 ^ 141)) as HH
    by (exists 5764607523034235%positive, (-59); split_and!; (done || lia)).
  destruct (double_mul_near _ _ _ _ _ _ _ _ HB HH) as (P & HP & NP); [lia..|].
  destruct (Z.eq_dec C 0) as [->|HC0].
  { exists 0. split; [|lia]. by destruct HP as (m & e & -> & _). }
  destruct (double_of_Z_near C) as (A & HA & NA); [lia|].
  destruct (double_mul_near _ _ _ _ _ _ _ _ HA HP) as (R & HR & NR); [lia..|].
  assert (0 < A) by (eapply has_value_pos; [|exact HA]; lia).
  assert (0 < B) by (eapply has_value_pos; [|exact HB]; lia).
  assert (0 < P) by (eapply has_value_pos; [|exact HP]; lia).
  assert (0 < R) by (eapply has_value_pos; [|exact HR]; lia).
  pose proof (four_roundings (2 ^ 52) (2 ^ 200) C T (5764607523034235 * 2 ^ 141) A B P R
    ltac:(lia) ltac:(lia) ltac:(lia) ltac:(lia) ltac:(lia) ltac:(lia) ltac:(lia) ltac:(lia) ltac:(lia)
    (near_bounds _ _ NA) (near_bounds _ _ NB) (near_bounds _ _ NP) (near_bounds _ _ NR)) as [Hl Hu].
  assert (0 ≤ C * T < 2 ^ 69) as HCT by nia.
  set (x := C * T) in *. clearbody x.
  let k := eval vm_compute in ((2 ^ 52 - 1) ^ 4) in change ((2 ^ 52 - 1) ^ 4) with k in Hl.
  let k := eval vm_compute in ((2 ^ 52 + 1) ^ 4) in change ((2 ^ 52 + 1) ^ 4) with k in Hu.
  let k := eval vm_compute in ((2 ^ 52) ^ 4) in change ((2 ^ 52) ^ 4) with k in Hl, Hu.
  erewrite (uint64_of_value _ _ _ R); [|..|exact HR|]; [|lia|lia].
  exists (R / 2 ^ 200). split; [done|].
  pose proof (Z.div_mod R (2 ^ 200)) as HD. pose proof (Z.mod_pos_bound R (2 ^ 200)).
  set (r := R / 2 ^ 200) in *. clearbody r. lia.
Qed.

Example threshold_of_defaults : compute_threshold_rate 10000000 50 = Some 625000.
Proof. reflexivity. Qed.

#[export] Instance hhh_ip_ops `{Crc32} : KeyOps ip_addr := {|
  key_eq := ip_addr_eq; key_hash := ip_addr_hash
|}.

#[export] Instance hhh_ip_laws `{Crc32} : KeyLaws ip_addr.
Proof.
  constructor; simpl.
  - intros [] []. unfold ip_addr_eq. simpl. rewrite Z.eqb_eq. split; congruence.
  - intros a. apply crc32si_range.
Qed.

(** ** hhh_state.c *)

Section init.
Context `{Crc32}.
Variable pow2 : bool.

(** The loop over the prefix lengths.  The four arrays were allocated without a test, and a store
    through a null pointer is undefined.  [ip_addr_allocate] does nothing, so the keys are what
    the memory held. *)
Fixpoint allocate_tables (subnet_indexers allocators subnet_buckets subnets : Z) (capacity : Z)
    (n : nat) : M (option (list subnet_table)) :=
  match n with
  | O => mret (Some [])
  | S n' =>
      _ ← lift (c_assert (negb (subnet_indexers =? NULL)));
      '(_, _, m) ← map_allocate pow2 capacity NULL;
      match m with None => mret None | Some map =>
      _ ← lift (c_assert (negb (allocators =? NULL)));
      '(_, _, c) ← dchain_allocate capacity NULL;
      match c with None => mret None | Some chain =>
      _ ← lift (c_assert (negb (subnet_buckets =? NULL)));
      '(_, _, v) ← vector_allocate 16 capacity (λ _, DynamicValue_allocate) NULL;
      match v with None => mret None | Some vals =>
      _ ← lift (c_assert (negb (subnets =? NULL)));
      '(_, _, v) ← (λ μ, vector_allocate 4 capacity (λ a, IpAddr (junk μ a)) NULL μ);
      match v with None => mret None | Some keys =>
      rest ← allocate_tables subnet_indexers allocators subnet_buckets subnets capacity n';
      mret (cons (MkTable (Objs map keys chain) vals) <$> rest)
      end end end end
  end.

(** The first call: there is no allocated state yet. *)
Definition alloc_state (link_capacity threshold subnets_mask capacity dev_count : Z)
    : M (option State) :=
  ret ← malloc 56;
  if ret =? NULL then mret None else
  n ← lift (calculate_n_subnets subnets_mask);
  let n_subnets := u8 n in
  threshold_rate ← lift (compute_threshold_rate link_capacity threshold);
  subnet_indexers ← malloc (8 * n_subnets);
  allocators ← malloc (8 * n_subnets);
  subnet_buckets ← malloc (8 * n_subnets);
  subnets ← malloc (8 * n_subnets);
  tables ← allocate_tables subnet_indexers allocators subnet_buckets subnets capacity
             (Z.to_nat n_subnets);
  mret (match tables with Some tables => Some (MkState tables threshold_rate n_subnets) | None => None end).


End init.

(** The arrays are not tested: when memory runs out at the second of them, the first store is
    undefined. *)
Example unchecked_array :
  alloc_state false 10000000 50 8421504 16 2
    (Mem [] (true :: true :: false :: replicate 20 true) 4096 (λ _, 0)) = None.
Proof. reflexivity. Qed.

(** ** The initial state *)



Section initial.
Context `{Crc32}.
Context (pow2 : bool) (c : Pol.nf_config).




End initial.

Section start.
Context `{Crc32}.
Context (pow2 : bool) (config : nf_config) (link_capacity threshold capacity rate devs masked_p : Z).
Hypothesis Hrate : compute_threshold_rate link_capacity threshold = Some rate.
Hypothesis Hcap : 0 < capacity ≤ VECTOR_CAPACITY_UPPER_LIMIT.


End start.

(** ** Main result *)



(** A slow link gives the threshold 0, and the handler divides by it. *)
Example slow_link_divides_by_zero :
  compute_threshold_rate 100 1 = Some 0 ∧
  ∀ tbs n time, expire_entries false demo_hhh_config (MkState tbs 0 n) time = None.
Proof. split; [reflexivity|]. intros tbs n time. unfold expire_entries. by destruct (0 <=? time). Qed.
