(* ===== verification/NfParse.v ===== *)
(** * Strings: nf-parse.h and the conversions of nf-util.c

    A C string is the list of its bytes before the final zero.  The functions of
    the C library that the sources use on strings are modelled here as the
    standard describes them: [strtoimax] (which [strtol] is, for 64-bit longs),
    the conversions of [sscanf] and [fscanf], and those of [snprintf].  Then come
    the parsers and printers of addresses and numbers. *)
From stdpp Require Import base list numbers strings.
From Stdlib Require Import ZArith Lia Ascii.
From S2P Require Import Prelude.
From S2P Require Import Memory.
From S2P Require Import Ether.

(** The bytes of a literal. *)
Fixpoint bytes (s : string) : list Z :=
  match s with
  | EmptyString => []
  | String c s' => Z.of_N (N_of_ascii c) :: bytes s'
  end.

(** ** The C library *)

Definition isspace (c : Z) : bool := (c =? 32) || ((9 <=? c) && (c <=? 13)).

Fixpoint skip_space (s : list Z) : list Z :=
  match s with
  | c :: s' => if isspace c then skip_space s' else s
  | [] => []
  end.

(** The value of a digit. *)
Definition digit (base c : Z) : option Z :=
  let d := if (48 <=? c) && (c <=? 57) then c - 48
           else if (65 <=? c) && (c <=? 90) then c - 55
           else if (97 <=? c) && (c <=? 122) then c - 87
           else base in
  if d <? base then Some d else None.

(** At most [w] digits, and what follows them. *)
Fixpoint take_digits (base : Z) (w : nat) (s : list Z) : list Z * list Z :=
  match w, s with
  | S w', c :: s' =>
      match digit base c with
      | Some d => let '(ds, rest) := take_digits base w' s' in (d :: ds, rest)
      | None => ([], s)
      end
  | _, _ => ([], s)
  end.

Definition digits_value (base : Z) (ds : list Z) : Z := foldl (λ v d, v * base + d) 0 ds.

(** An optional sign: whether it is a minus, the width left, the rest. *)
Definition take_sign (w : nat) (s : list Z) : bool * nat * list Z :=
  match w, s with
  | S w', c :: s' => if (c =? 45) || (c =? 43) then (c =? 45, w', s') else (false, w, s)
  | _, _ => (false, w, s)
  end.

(** The prefix 0x of hexadecimal numbers, which [strtoimax] skips when a digit
    follows. *)
Definition skip_prefix (base : Z) (s : list Z) : list Z :=
  match s with
  | c :: x :: d :: _ =>
      if (base =? 16) && (c =? 48) && ((x =? 120) || (x =? 88)) then
        match digit base d with Some _ => drop 2 s | None => s end
      else s
  | _ => s
  end.

(** [strtoimax(s, &end, base)]: the number and the string at [end]; [None] when
    there is no number, for which the value is 0 and [end] is [s]. *)
Definition strtoimax (s : list Z) (base : Z) : option (Z * list Z) :=
  let '(neg, w, s1) := take_sign (length s) (skip_space s) in
  let '(ds, rest) := take_digits base w (skip_prefix base s1) in
  match ds with
  | [] => None
  | _ :: _ =>
      let v := digits_value base ds in
      Some (if (neg : bool) then Z.max (- v) (- 2 ^ 63) else Z.min v (2 ^ 63 - 1), rest)
  end.

(** The same prefix for [scanf], which does not take its characters back: after
    them a digit must follow. *)
Definition take_prefix (base : Z) (w : nat) (s : list Z) : nat * list Z :=
  match w, s with
  | S (S w'), c :: x :: s' =>
      if (base =? 16) && (c =? 48) && ((x =? 120) || (x =? 88)) then (w', s') else (w, s)
  | _, _ => (w, s)
  end.

(** The conversions %u and %X of [scanf] with maximal width [w] to an unsigned
    long; [None]: the input does not match. *)
Definition scan_unsigned (base : Z) (w : nat) (s : list Z) : option (Z * list Z) :=
  let '(neg, w1, s1) := take_sign w (skip_space s) in
  let '(w2, s2) := take_prefix base w1 s1 in
  let '(ds, rest) := take_digits base w2 s2 in
  match ds with
  | [] => None
  | _ :: _ =>
      let v := Z.min (digits_value base ds) (2 ^ 64 - 1) in
      Some (if (neg : bool) then u64 (- v) else v, rest)
  end.

(** [n] conversions to [unsigned char] that are separated by the character
    [sep]: the bytes that are stored before the first mismatch.  A number that
    an [unsigned char] does not hold is undefined behaviour. *)
Fixpoint scan_bytes (base : Z) (w : option nat) (sep : Z) (n : nat) (s : list Z)
    : option (list Z) :=
  match n with
  | O => Some []
  | S n' =>
      match scan_unsigned base (default (length s) w) s with
      | None => Some []
      | Some (v, rest) =>
          if v <? 256 then
            match n', rest with
            | S _, c :: rest' =>
                if c =? sep then cons v <$> scan_bytes base w sep n' rest' else Some [v]
            | _, _ => Some [v]
            end
          else None
      end
  end.

(** [fscanf(file, "%<w>s", word)] on the rest of a file: the word and what is
    left; [None] is [EOF]. *)
Fixpoint take_word (w : nat) (s : list Z) : list Z * list Z :=
  match w, s with
  | S w', c :: s' =>
      if isspace c then ([], s) else let '(cs, rest) := take_word w' s' in (c :: cs, rest)
  | _, _ => ([], s)
  end.

Definition fscanf_word (w : nat) (s : list Z) : option (list Z * list Z) :=
  match skip_space s with
  | [] => None
  | s' => Some (take_word w s')
  end.

(** The string that an array of characters holds. *)
Fixpoint c_str (cs : list Z) : list Z :=
  match cs with
  | c :: cs' => if c =? 0 then [] else c :: c_str cs'
  | [] => []
  end.

(** The conversions %02X and %u of [snprintf] on bytes. *)
Definition hex_digit (d : Z) : Z := if d <? 10 then 48 + d else 55 + d.

Definition print_hex2 (b : Z) : list Z := [hex_digit (b / 16); hex_digit (b mod 16)].

Definition print_u8 (b : Z) : list Z :=
  (if 100 <=? b then [48 + b / 100] else []) ++
  (if 10 <=? b then [48 + b / 10 mod 10] else []) ++ [48 + b mod 10].

(** ** nf-parse.h and nf-util.c *)

(** The first bytes of an address replaced. *)
Definition put_addr_bytes (bs : list Z) (a : rte_ether_addr) : rte_ether_addr :=
  let get i old := default old (bs !! i) in
  EtherAddr (get 0%nat (byte0 a)) (get 1%nat (byte1 a)) (get 2%nat (byte2 a))
    (get 3%nat (byte3 a)) (get 4%nat (byte4 a)) (get 5%nat (byte5 a)).

(** The result and [*addr]. *)
Definition nf_parse_etheraddr (str : list Z) (addr : rte_ether_addr)
    : option (bool * rte_ether_addr) :=
  bs ← scan_bytes 16 (Some 2%nat) 58 6 str;
  Some (zlen bs =? 6, put_addr_bytes bs addr).

Definition nf_parse_ipv4addr (str : list Z) (addr : Z) : option (bool * Z) :=
  bs ← scan_bytes 10 None 46 4 str;
  match bs with
  | [a; b; c; d] =>
      Some (true, Z.lor (Z.lor (Z.lor (u32 (Z.shiftl a 24)) (u32 (Z.shiftl b 16)))
                           (u32 (Z.shiftl c 8))) (u32 (Z.shiftl d 0)))
  | _ => Some (false, addr)
  end.

(** [Return] is the call of [rte_exit]; the end of a string reads as zero. *)
Definition nf_util_parse_int (str : list Z) (base next : Z) : outcome Z unit :=
  match strtoimax str base with
  | None => Return tt
  | Some (result, temp) => if hd 0 temp =? next then Continue (u64 result) else Return tt
  end.

Definition nf_mac_to_str (addr : rte_ether_addr) : M (outcome (list Z) unit) :=
  let buffer_size := 6 * 2 + 5 + 1 in
  buffer ← malloc buffer_size;
  if buffer =? NULL then mret (Return tt) else
  mret (Continue (take (Z.to_nat (buffer_size - 1))
    (print_hex2 (byte0 addr) ++ [58] ++ print_hex2 (byte1 addr) ++ [58] ++
     print_hex2 (byte2 addr) ++ [58] ++ print_hex2 (byte3 addr) ++ [58] ++
     print_hex2 (byte4 addr) ++ [58] ++ print_hex2 (byte5 addr)))).

Definition nf_rte_ipv4_to_str (addr : Z) : M (outcome (list Z) unit) :=
  let buffer_size := 4 * 3 + 3 + 1 in
  buffer ← malloc buffer_size;
  if buffer =? NULL then mret (Return tt) else
  mret (Continue (take (Z.to_nat (buffer_size - 1))
    (print_u8 (Z.land addr 255) ++ [46] ++ print_u8 (Z.land (Z.shiftr addr 8) 255) ++ [46] ++
     print_u8 (Z.land (Z.shiftr addr 16) 255) ++ [46] ++ print_u8 (Z.land (Z.shiftr addr 24) 255)))).

(** ** Numbers *)

Section numbers.
Variable base : Z.

Lemma take_digits_app (chr : Z → Z) w ds rest :
  Forall (λ d, digit base (chr d) = Some d) ds → (length ds ≤ w)%nat →
  match rest with c :: _ => digit base c = None | [] => True end →
  take_digits base w ((chr <$> ds) ++ rest) = (ds, rest).
Proof.
  intros Hds Hw Hrest. revert w Hw. induction Hds as [|d ds Hd Hds IH]; intros w Hw; simpl in *.
  - destruct w, rest; simpl; try done. by rewrite Hrest.
  - destruct w as [|w]; simpl; [lia|]. by rewrite Hd, IH by lia.
Qed.

End numbers.

(** What the scanner needs to know about the characters of a number. *)
Definition plain (c : Z) : Prop :=
  isspace c = false ∧ (c =? 45) || (c =? 43) = false ∧ (c =? 120) || (c =? 88) = false.

Lemma hex_digit_spec d : 0 ≤ d < 16 → digit 16 (hex_digit d) = Some d ∧ plain (hex_digit d).
Proof.
  intros Hd. assert (Forall (λ d, digit 16 (hex_digit d) = Some d ∧ plain (hex_digit d)) (seqZ 0 16))
    as HF by (vm_compute; by repeat constructor).
  rewrite Forall_forall in HF. apply HF, elem_of_seqZ. lia.
Qed.

Lemma dec_digit_spec d : 0 ≤ d < 10 → digit 10 (48 + d) = Some d ∧ plain (48 + d).
Proof.
  intros Hd. assert (Forall (λ d, digit 10 (48 + d) = Some d ∧ plain (48 + d)) (seqZ 0 10))
    as HF by (vm_compute; by repeat constructor).
  rewrite Forall_forall in HF. apply HF, elem_of_seqZ. lia.
Qed.

(** A number without sign or prefix is read back. *)
Lemma scan_unsigned_plain base (chr : Z → Z) w d ds rest :
  Forall (λ d, digit base (chr d) = Some d ∧ plain (chr d)) (d :: ds) → (length (d :: ds) ≤ w)%nat →
  match rest with c :: _ => digit base c = None ∧ (c =? 120) || (c =? 88) = false | [] => True end →
  0 ≤ digits_value base (d :: ds) < 2 ^ 64 →
  scan_unsigned base w ((chr <$> d :: ds) ++ rest) = Some (digits_value base (d :: ds), rest).
Proof.
  intros HF Hw Hrest Hv. unfold scan_unsigned.
  assert (plain (chr d)) as (Hsp & Hsg & Hx) by by inversion HF as [|?? []].
  assert (skip_space ((chr <$> d :: ds) ++ rest) = (chr <$> d :: ds) ++ rest) as ->
    by (simpl; by rewrite Hsp).
  assert (take_sign w ((chr <$> d :: ds) ++ rest) = (false, w, (chr <$> d :: ds) ++ rest)) as ->
    by (destruct w; simpl; by rewrite ?Hsg).
  assert (take_prefix base w ((chr <$> d :: ds) ++ rest) = (w, (chr <$> d :: ds) ++ rest)) as ->.
  { destruct w as [|[|w]]; [done..|]. simpl in HF |- *.
    destruct ds as [|d' ds]; simpl; [destruct rest as [|c rest]; [done|]; destruct Hrest as [_ ->]|].
    - by rewrite andb_false_r.
    - rewrite !Forall_cons in HF. destruct HF as (_ & (_ & _ & _ & ->) & _). by rewrite andb_false_r. }
  rewrite take_digits_app; [|eapply Forall_impl; [exact HF|tauto]|done|by destruct rest; [|destruct Hrest]].
  by rewrite Z.min_l by lia.
Qed.

(** A decimal number that the expected character follows. *)
Lemma parse_int_plain d ds next s :
  Forall (λ d, 0 ≤ d < 10) (d :: ds) → digit 10 next = None → digits_value 10 (d :: ds) < 2 ^ 63 →
  0 ≤ digits_value 10 (d :: ds) →
  nf_util_parse_int (((λ d, 48 + d) <$> d :: ds) ++ next :: s) 10 next =
    Continue (digits_value 10 (d :: ds)).
Proof.
  intros HF Hn Hv Hv0. unfold nf_util_parse_int, strtoimax.
  set (str := ((λ d, 48 + d) <$> d :: ds) ++ next :: s).
  assert (plain (48 + d)) as (Hsp & Hsg & _) by (apply dec_digit_spec; by inversion HF).
  assert (skip_space str = str) as -> by (unfold str; simpl; by rewrite Hsp).
  assert (take_sign (length str) str = (false, length str, str)) as ->
    by (unfold str; simpl; by rewrite Hsg).
  assert (skip_prefix 10 str = str) as -> by (unfold skip_prefix; repeat case_match; done).
  unfold str. rewrite take_digits_app.
  - rewrite Z.min_l by lia. simpl hd. by rewrite Z.eqb_refl, u64_small by lia.
  - eapply Forall_impl; [exact HF|]. intros x Hx. by apply dec_digit_spec.
  - rewrite length_app, length_fmap. lia.
  - done.
Qed.

(** A printed byte is read back. *)
Lemma scan_hex2 b rest :
  0 ≤ b < 256 →
  match rest with c :: _ => digit 16 c = None ∧ (c =? 120) || (c =? 88) = false | [] => True end →
  scan_unsigned 16 2 (print_hex2 b ++ rest) = Some (b, rest).
Proof.
  intros Hb Hr.
  pose proof (scan_unsigned_plain 16 hex_digit 2 (b / 16) [b mod 16] rest) as H.
  assert (digits_value 16 [b / 16; b mod 16] = b) as Hv
    by (unfold digits_value; simpl; Z.div_mod_to_equations; lia).
  rewrite Hv in H. apply H; [|simpl; lia|done|lia].
  repeat constructor; apply hex_digit_spec; Z.div_mod_to_equations; lia.
Qed.

Definition dec_digits (b : Z) : list Z :=
  (if 100 <=? b then [b / 100] else []) ++ (if 10 <=? b then [b / 10 mod 10] else []) ++ [b mod 10].

Lemma scan_u8 b w rest :
  0 ≤ b < 256 → (length (print_u8 b) ≤ w)%nat →
  match rest with c :: _ => digit 10 c = None ∧ (c =? 120) || (c =? 88) = false | [] => True end →
  scan_unsigned 10 w (print_u8 b ++ rest) = Some (b, rest).
Proof.
  intros Hb Hw Hr.
  assert (print_u8 b = (λ d, 48 + d) <$> dec_digits b) as Hp.
  { unfold print_u8, dec_digits. by destruct (100 <=? b), (10 <=? b). }
  rewrite Hp in *. rewrite length_fmap in Hw.
  assert (digits_value 10 (dec_digits b) = b ∧ Forall (λ d, 0 ≤ d < 10) (dec_digits b) ∧
          dec_digits b ≠ []) as (Hv & HF & Hne).
  { unfold dec_digits, digits_value.
    destruct (Z.leb_spec 100 b), (Z.leb_spec 10 b); simpl; split_and!; try lia; try done;
      repeat constructor; Z.div_mod_to_equations; lia. }
  destruct (dec_digits b) as [|d ds] eqn:E; [done|].
  rewrite (scan_unsigned_plain 10 _ w d ds rest), Hv; [done| |lia|done|lia].
  eapply Forall_impl; [exact HF|]. apply dec_digit_spec.
Qed.

(** ** Words of a file *)

Definition blank (sp : list Z) : Prop := Forall (λ c, isspace c = true) sp.

(** A word that is read as it is into an array of [w + 1] characters. *)
Definition word (w : nat) (cs : list Z) : Prop :=
  cs ≠ [] ∧ (length cs ≤ w)%nat ∧ Forall (λ c, isspace c = false ∧ c ≠ 0) cs.

Lemma take_word_app w cs rest :
  Forall (λ c, isspace c = false) cs → (length cs ≤ w)%nat →
  match rest with c :: _ => isspace c = true | [] => True end →
  take_word w (cs ++ rest) = (cs, rest).
Proof.
  intros Hcs. revert w. induction Hcs as [|c cs Hc Hcs IH]; intros w Hw Hr; simpl in *.
  - destruct w, rest; simpl; try done. by rewrite Hr.
  - destruct w as [|w]; simpl; [lia|]. by rewrite Hc, IH by (done || lia).
Qed.

Lemma fscanf_word_app w sp cs rest :
  blank sp → word w cs → match rest with c :: _ => isspace c = true | [] => True end →
  fscanf_word w (sp ++ cs ++ rest) = Some (cs, rest).
Proof.
  intros Hsp (Hne & Hw & Hcs) Hr. unfold fscanf_word.
  assert (Forall (λ c, isspace c = false) cs) as Hns by (eapply Forall_impl; [exact Hcs|by intros ? []]).
  assert (skip_space (sp ++ cs ++ rest) = cs ++ rest) as ->.
  { induction Hsp as [|c sp Hc Hsp IH]; simpl; [|by rewrite Hc].
    destruct Hns as [|c cs' Hc]; [done|]. simpl. by rewrite Hc. }
  pose proof (take_word_app w cs rest Hns Hw Hr) as Ht.
  destruct (cs ++ rest) eqn:E; [by destruct cs|by rewrite Ht].
Qed.

Lemma fscanf_word_eof w sp : blank sp → fscanf_word w sp = None.
Proof.
  intros Hsp. unfold fscanf_word. assert (skip_space sp = []) as ->; [|done].
  induction Hsp as [|c sp Hc Hsp IH]; simpl; [done|]. by rewrite Hc.
Qed.

(** A word that has been read is not empty, and leaves less to read. *)
Lemma fscanf_word_shorter w s cs rest :
  fscanf_word (S w) s = Some (cs, rest) → (length rest < length s)%nat.
Proof.
  assert (∀ s, (length (skip_space s) ≤ length s)%nat ∧
            ∀ c t, skip_space s = c :: t → isspace c = false) as Hsk.
  { clear. induction s as [|c s [IH1 IH2]]; simpl; [done|]. destruct (isspace c) eqn:Hc.
    - split; [lia|done].
    - split; [simpl; lia|congruence]. }
  assert (∀ w s, (length (take_word w s).2 ≤ length s)%nat) as Htw.
  { clear. induction w as [|w IH]; intros [|c s]; simpl; try lia. destruct (isspace c); simpl; [lia|].
    specialize (IH s). destruct (take_word w s). simpl in *. lia. }
  unfold fscanf_word. destruct (Hsk s) as [Hl Hns].
  destruct (skip_space s) as [|c t]; [done|]. cbn [take_word].
  rewrite (Hns c t) by done. pose proof (Htw w t) as Ht. destruct (take_word w t). simpl in *.
  intros [= <- <-]. lia.
Qed.

Lemma c_str_word w cs : word w cs → c_str cs = cs.
Proof.
  intros (_ & _ & Hcs). induction Hcs as [|c cs [_ Hc] Hcs IH]; simpl; [done|].
  destruct (Z.eqb_spec c 0); [done|]. by rewrite IH.
Qed.

(** ** Addresses *)

Definition ether_bytes (a : rte_ether_addr) : list Z :=
  [byte0 a; byte1 a; byte2 a; byte3 a; byte4 a; byte5 a].

Definition ether_ok (a : rte_ether_addr) : Prop := Forall (λ b, 0 ≤ b < 256) (ether_bytes a).

(** The printed form of a MAC address. *)
Definition mac_str (a : rte_ether_addr) : list Z :=
  print_hex2 (byte0 a) ++ 58 :: print_hex2 (byte1 a) ++ 58 :: print_hex2 (byte2 a) ++
  58 :: print_hex2 (byte3 a) ++ 58 :: print_hex2 (byte4 a) ++ 58 :: print_hex2 (byte5 a).

Lemma scan_bytes_next base w sep n s v rest :
  scan_unsigned base (default (length s) w) s = Some (v, sep :: rest) → v < 256 →
  scan_bytes base w sep (S (S n)) s = cons v <$> scan_bytes base w sep (S n) rest.
Proof.
  intros Hs Hv. cbn [scan_bytes]. rewrite Hs. destruct (Z.ltb_spec v 256); [|lia].
  by rewrite Z.eqb_refl.
Qed.

Lemma scan_bytes_last base w sep s v rest :
  scan_unsigned base (default (length s) w) s = Some (v, rest) → v < 256 →
  scan_bytes base w sep 1 s = Some [v].
Proof. intros Hs Hv. cbn [scan_bytes]. rewrite Hs. by destruct (Z.ltb_spec v 256); [|lia]. Qed.

(** The scanner reads the printed bytes of an address, whatever the memory held. *)
Lemma parse_mac_str a old :
  ether_ok a → nf_parse_etheraddr (mac_str a) old = Some (true, a).
Proof.
  unfold ether_ok, ether_bytes. rewrite !Forall_cons. intros (H0 & H1 & H2 & H3 & H4 & H5 & _).
  unfold nf_parse_etheraddr, mac_str.
  do 5 (erewrite scan_bytes_next; [|by apply scan_hex2|lia]).
  rewrite <- (app_nil_r (print_hex2 (byte5 a))).
  erewrite scan_bytes_last; [|by apply scan_hex2|lia]. by destruct a.
Qed.

(** The printer exits exactly when its buffer cannot be allocated. *)
Lemma mac_to_str_cases a μ :
  mem_ok μ →
  ∃ μ', nf_mac_to_str a μ =
    Some (if hd false (answers μ) then Continue (mac_str a) else Return tt, μ').
Proof.
  unfold mem_ok. intros Hok. unfold nf_mac_to_str, malloc, mbind, M_bind.
  destruct (answers μ) as [|[] rest]; cbn [hd]; [by eexists| |by eexists].
  rewrite (proj2 (Z.eqb_neq (brk μ) NULL)) by (unfold NULL; lia). by eexists.
Qed.

(** The dotted form of four bytes. *)
Definition ip_str (a b c d : Z) : list Z :=
  print_u8 a ++ 46 :: print_u8 b ++ 46 :: print_u8 c ++ 46 :: print_u8 d.

(** The first number of the string becomes the high byte. *)
Lemma parse_ip_str a b c d old :
  0 ≤ a < 256 → 0 ≤ b < 256 → 0 ≤ c < 256 → 0 ≤ d < 256 →
  nf_parse_ipv4addr (ip_str a b c d) old =
    Some (true, 2 ^ 24 * a + (2 ^ 16 * b + (2 ^ 8 * c + d))).
Proof.
  intros Ha Hb Hc Hd. unfold nf_parse_ipv4addr, ip_str.
  do 3 (erewrite scan_bytes_next; [|apply scan_u8; [done|simpl; rewrite !length_app; lia|done]|lia]).
  rewrite <- (app_nil_r (print_u8 d)).
  erewrite scan_bytes_last; [|apply scan_u8; [done|simpl; rewrite length_app; lia|done]|lia]. simpl.
  rewrite Z.shiftl_0_r, !u32_small, <- !Z.lor_assoc by (rewrite ?Z.shiftl_mul_pow2; lia).
  do 2 f_equal.
  rewrite (lor_shiftl_add c d 8), (lor_shiftl_add b _ 16), (lor_shiftl_add a _ 24) by lia. done.
Qed.

(** The printer takes the low byte first, the parser the high byte. *)
Lemma ipv4_to_str_spec addr μ :
  mem_ok μ → 0 ≤ addr < 2 ^ 32 →
  (∃ μ', nf_rte_ipv4_to_str addr μ = Some (Return tt, μ')) ∨
  (∃ μ', nf_rte_ipv4_to_str addr μ = Some (Continue
     (ip_str (addr mod 256) (addr / 2 ^ 8 mod 256) (addr / 2 ^ 16 mod 256) (addr / 2 ^ 24)), μ')).
Proof.
  intros Hok Ha. unfold nf_rte_ipv4_to_str. mcase; [rewrite Z.eqb_refl; left; by eexists|].
  rewrite not_null by done. right. eexists. do 2 f_equal.
  change 255 with (Z.ones 8). rewrite !Z.land_ones, !Z.shiftr_div_pow2 by lia.
  rewrite (Z.mod_small (addr / 2 ^ 24)) by (Z.div_mod_to_equations; lia).
  rewrite take_ge; [done|]. unfold print_u8.
  rewrite !length_app. repeat case_match; simpl; lia.
Qed.
