(* ===== verification/Bridge.v ===== *)
(** * vigbridge: the learning bridge

    bridge_main.c: the source address of every frame is learned with the device
    it came from; a frame goes to the device a static rule or the learned table
    gives for its destination, and to all devices when there is none. *)
From stdpp Require Import base list gmap numbers sets.
From Stdlib Require Import ZArith Lia.
From S2P Require Import Prelude.
From S2P Require Import Memory.
From S2P Require Import MapImpl.
From S2P Require Import Map.
From S2P Require Import Vector.
From S2P Require Import DChainImpl.
From S2P Require Import DChain.
From S2P Require Import Emap.
From S2P Require Import Expirator.
From S2P Require Import Packet.
From S2P Require Import Ether.

(** struct StaticKey *)
Record StaticKey := MkStaticKey { sk_addr : rte_ether_addr; sk_device : Z }.

#[export] Instance StaticKey_eq_dec : EqDecision StaticKey.
Proof. solve_decision. Defined.

#[export] Instance StaticKey_countable : Countable StaticKey.
Proof.
  apply (inj_countable' (λ k, (sk_addr k, sk_device k)) (λ '(a, d), MkStaticKey a d)).
  by intros [].
Defined.

(** struct DynamicValue *)
Record DynamicValue := MkValue { device : Z }.

(** The fields of struct nf_config that are read. *)
Record nf_config := MkConfig { expiration_time : Z; dyn_capacity : Z }.

(** The generated struct State. *)
Record State := MkState {
  dyn : emap_objs rte_ether_addr;
  dyn_vals : Vector DynamicValue;
  st_map : Map;
  st_vec : Vector StaticKey
}.

Definition set_dyn (st : State) (o : emap_objs rte_ether_addr) (vals : Vector DynamicValue)
    : State := MkState o vals (st_map st) (st_vec st).

(** The six bytes at an address of the packet. *)
Definition load_ether_addr (pk : packet) (a : Z) : option rte_ether_addr :=
  b0 ← load8 pk a; b1 ← load8 pk (a + 1); b2 ← load8 pk (a + 2);
  b3 ← load8 pk (a + 3); b4 ← load8 pk (a + 4); b5 ← load8 pk (a + 5);
  Some (EtherAddr b0 b1 b2 b3 b4 b5).

Section bridge.
Context `{Crc32} `{KeyOps StaticKey}.
Variable pow2 : bool.
Variable config : nf_config.

Definition bridge_expire_entries (st : State) (time : Z) : option (Z * State) :=
  _ ← c_assert (0 <=? time);
  let time_u := u64 time in
  let vigor_time_expiration := expiration_time config in
  us ← int64_chk (vigor_time_expiration * 1000);
  let last_time := s64 (u64 (time_u - u64 us)) in
  let o := dyn st in
  '(n, heap, map) ← expire_items_single_map pow2 (o_chain o) (o_vec o) (o_map o) last_time;
  Some (n, set_dyn st (Objs map (o_vec o) heap) (dyn_vals st)).

(** [dst_p] is the address of the destination in the frame, [k_p] the one of
    the local key. *)
Definition bridge_get_device (st : State) (k_p dst_p : Z) (dst : rte_ether_addr)
    (src_device : Z) : option Z :=
  let k := MkStaticKey dst src_device in
  '(present, device') ← map_get pow2 (with_local (deref (st_vec st)) k_p k) (st_map st) k_p (-1);
  if negb (present =? 0) then Some device' else
  let o := dyn st in
  '(present, index) ← map_get pow2 (with_local (deref (o_vec o)) dst_p dst) (o_map o) dst_p (-1);
  if negb (present =? 0) then
    value ← vector_borrow (dyn_vals st) index;
    v ← deref (dyn_vals st) value;
    Some (device v)
  else Some (-1).

Definition bridge_put_update_entry (st : State) (src_p : Z) (src : rte_ether_addr)
    (src_device time : Z) : option State :=
  let o := dyn st in
  '(present, index) ← map_get pow2 (with_local (deref (o_vec o)) src_p src) (o_map o) src_p (-1);
  if negb (present =? 0) then
    '(_, heap) ← dchain_rejuvenate_index (o_chain o) index time;
    Some (set_dyn st (Objs (o_map o) (o_vec o) heap) (dyn_vals st))
  else
  '(allocated, heap, index) ← dchain_allocate_new_index (o_chain o) index time;
  if allocated =? 0 then Some (set_dyn st (Objs (o_map o) (o_vec o) heap) (dyn_vals st)) else
  key ← vector_borrow (o_vec o) index;
  value ← vector_borrow (dyn_vals st) index;
  keys ← store (o_vec o) key src;
  vals ← store (dyn_vals st) value (MkValue src_device);
  map ← map_put pow2 (with_local (deref keys) src_p src) (o_map o) key index;
  let keys := vector_return keys index key in
  let vals := vector_return vals index value in
  Some (set_dyn st (Objs map keys heap) vals).

(** Returns the result, the packet and the tables. *)
Definition nf_process (st0 : State) (k_p device now : Z) (pk0 : packet)
    : option (Z * packet * State) :=
  '(rte_ether_header, pk1) ← nf_then_get_rte_ether_header pk0;
  '(_, st1) ← bridge_expire_entries st0 now;
  src ← load_ether_addr pk1 (rte_ether_header + s_addr_off);
  st2 ← bridge_put_update_entry st1 (rte_ether_header + s_addr_off) src device now;
  dst ← load_ether_addr pk1 (rte_ether_header + d_addr_off);
  forward_to ← bridge_get_device st2 k_p (rte_ether_header + d_addr_off) dst device;
  if forward_to =? -1 then Some (FLOOD_FRAME, pk1, st2) else
  if forward_to =? -2 then Some (device, pk1, st2) else
  Some (forward_to, pk1, st2).

End bridge.

(** ** The contract (spec.py) *)

Inductive action := Flood | Drop | Forward (device : Z).

(** The learned addresses and the device of each index. *)
Definition bridge_abs : Type := table rte_ether_addr * list DynamicValue.

Section contract.
Variable config : nf_config.
Variable statics : gmap StaticKey Z.
Implicit Types (s : bridge_abs).

Definition bridge_expire s (now : Z) : bridge_abs :=
  (t_expire s.1 (now - 1000 * expiration_time config), s.2).

Definition bridge_learn s (src : rte_ether_addr) (device now : Z) : bridge_abs :=
  match t_lookup s.1 src with
  | Some e => (t_refresh s.1 (e_idx e) now, s.2)
  | None =>
      match t_frees s.1 with
      | [] => s
      | i :: _ => (t_add s.1 src now, <[Z.to_nat i := MkValue device]> s.2)
      end
  end.

(** Where a frame goes: [None] is everywhere. *)
Definition bridge_target s (dst : rte_ether_addr) (dev : Z) : option Z :=
  match statics !! MkStaticKey dst dev with
  | Some target => Some target
  | None =>
      match t_lookup s.1 dst with
      | Some e => device <$> s.2 !! Z.to_nat (e_idx e)
      | None => None
      end
  end.

(** A target that is the device of the frame, or the filter value -2, drops it. *)
Definition bridge_action (dev : Z) (target : option Z) : action :=
  match target with
  | None => Flood
  | Some d => if (d =? -2) || (d =? dev) then Drop else Forward d
  end.

Definition bridge_spec s (dev now : Z) (src dst : rte_ether_addr) : bridge_abs * action :=
  let s1 := bridge_learn (bridge_expire s now) src dev now in
  (s1, bridge_action dev (bridge_target s1 dst dev)).

(** The result that the main loop takes for an action. *)
Definition action_result (dev : Z) (a : action) : Z :=
  match a with Flood => FLOOD_FRAME | Drop => dev | Forward d => d end.

End contract.

Section proofs.
Context `{Crc32} `{KeyLaws StaticKey}.
Variable pow2 : bool.
Variable config : nf_config.
Variable statics : gmap StaticKey Z.
Variables devices k_p range : Z.
Implicit Types (st : State) (s : bridge_abs).

(** Static rules point to a device or filter; learned entries are on a device. *)
Record bridge_inv st s (now : Z) : Prop := BridgeInv {
  bi_exp : 0 ≤ expiration_time config < 2 ^ 32;
  bi_count : devices < 2 ^ 16;
  bi_emap : emapp pow2 (dyn st) range s.1;
  bi_sorted : t_sorted s.1 now;
  bi_vec : vector_ok (dyn_vals st);
  bi_cap : vec_capacity (dyn_vals st) = range;
  bi_cells : cells (dyn_vals st) = s.2;
  bi_vals : ∀ e, e ∈ ents s.1 → ∃ d, s.2 !! Z.to_nat (e_idx e) = Some (MkValue d) ∧ 0 ≤ d < devices;
  bi_static : ∃ addrs, mapp pow2 (deref (st_vec st)) (st_map st) statics addrs ∧
                       ∀ k p, addrs !! k = Some p → p ≠ k_p;
  bi_targets : ∀ k d, statics !! k = Some d → d = -2 ∨ 0 ≤ d < devices
}.

Lemma bridge_expire_spec st s before now :
  bridge_inv st s before → before ≤ now → 0 ≤ now < 2 ^ 63 →
  ∃ n st', bridge_expire_entries pow2 config st now = Some (n, st') ∧
    bridge_inv st' (bridge_expire config s now) now ∧ o_vec (dyn st') = o_vec (dyn st).
Proof.
  intros HI Hle Hnow. pose proof (bi_exp _ _ _ HI). unfold bridge_expire_entries.
  destruct (Z.leb_spec 0 now); [|lia]. cbn [c_assert mbind option_bind].
  rewrite int64_chk_small by lia. cbn [mbind option_bind]. rewrite last_time_exact by lia.
  rewrite (Z.mul_comm (expiration_time config)).
  destruct (expire_items_single_map_spec pow2 _ _ _ (now - 1000 * expiration_time config)
    (bi_emap _ _ _ HI)) as (ch' & M' & -> & HE'). cbn [mbind option_bind].
  eexists _, _. split; [done|]. split; [|done]. destruct HI. constructor; simpl; try done.
  - apply t_expire_sorted. by eapply t_sorted_mono.
  - intros e He%t_expire_elem. auto.
Qed.

Context (st : State) (s : bridge_abs) (now : Z).
Hypothesis HI : bridge_inv st s now.

Lemma bridge_learn_spec src_p src dev :
  outside (o_vec (dyn st)) src_p → 0 ≤ dev < devices →
  ∃ st', bridge_put_update_entry pow2 st src_p src dev now = Some st' ∧
    bridge_inv st' (bridge_learn s src dev now) now ∧
    ∀ a, outside (o_vec (dyn st)) a → outside (o_vec (dyn st')) a.
Proof.
  intros Hsrc Hdev. pose proof (bi_emap _ _ _ HI) as HE.
  unfold bridge_put_update_entry, bridge_learn. rewrite (emap_get _ _ _ _ HE src_p src (-1) Hsrc).
  destruct (t_lookup s.1 src) as [e|] eqn:El; cbn [mbind option_bind].
  { destruct (Z.eqb_spec 1 0); [lia|]. cbn [negb]. apply t_lookup_Some in El as [He _].
    destruct (emap_refresh _ _ _ _ HE e now He) as (ch' & -> & HE'). cbn [mbind option_bind].
    eexists. split; [done|]. split; [|done].
    pose proof (ent_idx_NoDup _ _ _ _ HE). destruct HI. constructor; simpl; try done.
    - by apply t_refresh_sorted.
    - intros e' (e0 & He0 & _ & ->)%t_refresh_elem. auto. }
  rewrite Z.eqb_refl. cbn [negb]. destruct (t_frees s.1) as [|i fs] eqn:Hfr.
  { destruct (emap_full _ _ _ _ HE (-1) now) as (ch' & -> & HE'); [unfold t_full; by rewrite Hfr|].
    cbn [mbind option_bind]. eexists. split; [done|]. split; [|done].
    destruct HI. by constructor. }
  destruct (emap_add _ _ _ _ HE src (-1) i fs now El Hfr) as (ch' & -> & Hi & Hb & Hst & Hput).
  osteps. destruct (Z.eqb_spec 1 0); [lia|]. osteps.
  rewrite vector_borrow_spec by (apply HI || rewrite (bi_cap _ _ _ HI); lia).
  osteps. rewrite store_addr by (apply HI || rewrite (bi_cap _ _ _ HI); lia). cbn [mbind option_bind].
  destruct (Hput (with_local (deref (vset (o_vec (dyn st)) i src)) src_p src))
    as (M' & -> & HE'); [by apply sees_local|].
  cbn [mbind option_bind]. eexists. split; [done|]. split; [|done].
  pose proof (vo_len _ (bi_vec _ _ _ HI)) as Hlen. rewrite (bi_cap _ _ _ HI) in Hlen.
  destruct HI. constructor; simpl; try done.
  - by apply t_add_sorted.
  - by apply vset_ok.
  - by f_equal.
  - unfold t_add. rewrite Hfr. simpl. rewrite bi_cells0 in Hlen. unfold zlen in Hlen.
    intros e [He|He%list_elem_of_singleton]%elem_of_app.
    + rewrite list_lookup_insert_ne; [by auto|]. eapply fresh_index_ne; [exact HE|exact Hfr|done].
    + subst e. simpl. eexists. rewrite list_lookup_insert_eq by lia. done.
Qed.

Lemma bridge_device_spec dst_p dst dev :
  outside (o_vec (dyn st)) dst_p →
  bridge_get_device pow2 st k_p dst_p dst dev =
    Some (match bridge_target statics s dst dev with Some d => d | None => -1 end).
Proof.
  intros Hdst. pose proof (bi_emap _ _ _ HI) as HE. unfold bridge_get_device, bridge_target.
  destruct (bi_static _ _ _ HI) as (addrs & HM & Hk).
  rewrite (map_get_spec pow2 _ _ statics addrs k_p (MkStaticKey dst dev)).
  2: { eapply mapp_frame; [exact HM|]. intros k p Hp. unfold with_local.
       destruct (Z.eqb_spec p k_p); [by destruct (Hk k p)|done]. }
  2: { apply with_local_at. }
  destruct (statics !! MkStaticKey dst dev) as [d|]; cbn [mbind option_bind]; [done|].
  rewrite Z.eqb_refl. cbn [negb]. rewrite (emap_get _ _ _ _ HE dst_p dst (-1) Hdst).
  destruct (t_lookup s.1 dst) as [e|] eqn:El; cbn [mbind option_bind]; [|done].
  destruct (Z.eqb_spec 1 0); [lia|]. cbn [negb]. apply t_lookup_Some in El as [He _].
  pose proof (ent_range _ _ _ _ HE e He) as Hr.
  rewrite vector_borrow_spec by (apply HI || rewrite (bi_cap _ _ _ HI); lia).
  cbn [mbind option_bind]. rewrite deref_addr by apply HI.
  destruct (bi_vals _ _ _ HI e He) as (d & Hd & _).
  rewrite (bi_cells _ _ _ HI), rd_lookup, Hd by lia. done.
Qed.

Lemma bridge_target_range dst dev d :
  bridge_target statics s dst dev = Some d → d = -2 ∨ 0 ≤ d < devices.
Proof.
  unfold bridge_target. destruct (statics !! _) as [d'|] eqn:Es.
  - intros [= ->]. by apply (bi_targets _ _ _ HI) in Es.
  - destruct (t_lookup s.1 dst) as [e|] eqn:El; [|done]. apply t_lookup_Some in El as [He _].
    destruct (bi_vals _ _ _ HI e He) as (d' & -> & Hr). intros [= ->]. by right.
Qed.

End proofs.

(** ** The handler *)

(** The destination and source of a received frame. *)
Definition dst_mac (pk : packet) : option rte_ether_addr := load_ether_addr pk (base pk + d_addr_off).
Definition src_mac (pk : packet) : option rte_ether_addr := load_ether_addr pk (base pk + s_addr_off).

Lemma frame_macs pk tail :
  received pk tail → ∃ src dst, src_mac pk = Some src ∧ dst_mac pk = Some dst.
Proof.
  intros HR. pose proof (rc_total _ _ HR) as Ht.
  assert (∀ i, 0 ≤ i < 14 → load8 pk (base pk + i) = Some (byte_at (buf pk) i)) as Hl
    by (intros; apply (received_byte pk tail HR); done || lia).
  unfold src_mac, dst_mac, load_ether_addr, s_addr_off, d_addr_off.
  rewrite <- !Z.add_assoc. simpl. rewrite !Hl by lia. simpl. by eexists _, _.
Qed.

Section handler.
Context `{Crc32} `{KeyLaws StaticKey}.
Variable pow2 : bool.
Variable config : nf_config.
Variable statics : gmap StaticKey Z.
Variables devices k_p range : Z.
Implicit Types (st : State) (s : bridge_abs).

(** The frame is not inside the vector of keys. *)
Definition apart st (pk : packet) : Prop := ∀ i, 0 ≤ i < 14 → outside (o_vec (dyn st)) (base pk + i).

Lemma bridge_process_spec st s before now dev pk tail src dst :
  bridge_inv pow2 config statics devices k_p range st s before → before ≤ now →
  0 ≤ now < 2 ^ 63 → received pk tail → apart st pk → 0 ≤ dev < devices →
  src_mac pk = Some src → dst_mac pk = Some dst →
  let '(s', act) := bridge_spec config statics s dev now src dst in
  ∃ pk' st', nf_process pow2 config st k_p dev now pk = Some (action_result dev act, pk', st') ∧
    bridge_inv pow2 config statics devices k_p range st' s' now ∧
    nf_return_all_chunks pk' = pk ∧
    (∀ q, apart st q → apart st' q) ∧
    match act with Forward d => d ≠ dev ∧ 0 ≤ d < devices | _ => True end.
Proof.
  intros HI0 Hle Hnow HR Hap Hdev Hsrc Hdst. unfold nf_process.
  rewrite (ether_header_spec pk tail HR). cbn [mbind option_bind].
  destruct (bridge_expire_spec pow2 config statics devices k_p range st s before now HI0 Hle Hnow)
    as (n & st1 & -> & HI1 & Hv1). cbn [mbind option_bind].
  assert (∀ a, load_ether_addr (at_read pk 14 [base pk]) a = load_ether_addr pk a) as Hld by done.
  rewrite !Hld. unfold src_mac, dst_mac in *. rewrite Hsrc. cbn [mbind option_bind].
  assert (∀ q, apart st q → ∀ i, 0 ≤ i < 14 → outside (o_vec (dyn st1)) (base q + i)) as Hap1
    by (intros q Hq i Hi; rewrite Hv1; by apply Hq).
  destruct (bridge_learn_spec pow2 config statics devices k_p range st1 _ now HI1
    (base pk + s_addr_off) src dev) as (st2 & -> & HI2 & Hout);
    [apply Hap1; [done|unfold s_addr_off; lia]|done|].
  cbn [mbind option_bind]. rewrite Hdst. cbn [mbind option_bind].
  rewrite (bridge_device_spec pow2 config statics devices k_p range st2 _ now HI2)
    by (apply Hout, Hap1; [done|unfold d_addr_off; lia]).
  cbn [mbind option_bind]. unfold bridge_spec.
  set (s2 := bridge_learn _ src dev now) in *.
  pose proof (bridge_target_range pow2 config statics devices k_p range st2 s2 now HI2 dst dev) as Htr.
  assert (nf_return_all_chunks (at_read pk 14 [base pk]) = pk) as Hret.
  { rewrite (return_chunks_rewinds pk (at_read pk 14 [base pk]) []) by done.
    destruct HR, pk; simpl in *; by subst. }
  assert (∀ q, apart st q → apart st2 q) as Hkeep.
  { intros q Hq i Hi. apply Hout, Hap1; done. }
  destruct (bridge_target statics s2 dst dev) as [d|]; simpl.
  2: { eexists _, _. split_and!; [done..| |done]. exact Hkeep. }
  specialize (Htr d eq_refl). destruct (Z.eqb_spec d (-2)) as [->|]; simpl.
  { eexists _, _. split_and!; [done..| |done]. exact Hkeep. }
  destruct (Z.eqb_spec d (-1)); [lia|]. destruct (Z.eqb_spec d dev) as [->|]; simpl.
  - eexists _, _. split_and!; [done..| |done]. exact Hkeep.
  - eexists _, _. split_and!; [done..| |done|lia|lia]. exact Hkeep.
Qed.

End handler.

(** ** Executions *)

Fixpoint bridge_run `{Crc32} `{KeyOps StaticKey} (pow2 : bool) (config : nf_config) (k_p : Z)
    (st : State) (evs : list event) : option State :=
  match evs with
  | [] => Some st
  | ev :: evs' =>
      '(_, _, st') ← nf_process pow2 config st k_p (ev_device ev) (ev_now ev) (ev_packet ev);
      bridge_run pow2 config k_p st' evs'
  end.

(** Frames in time order up to [deadline], none inside the vector of keys. *)
Fixpoint frames_ok (devices : Z) (st : State) (before deadline : Z) (evs : list event) : Prop :=
  match evs with
  | [] => True
  | ev :: evs' =>
      before ≤ ev_now ev ≤ deadline ∧ 0 ≤ ev_now ev < 2 ^ 63 ∧ 0 ≤ ev_device ev < devices ∧
      (∃ tail, received (ev_packet ev) tail) ∧ apart st (ev_packet ev) ∧
      frames_ok devices st (ev_now ev) deadline evs'
  end.

(** Address [a] has index [j], was seen at [tm] or later and is on device [d]. *)
Definition learned (s : bridge_abs) (a : rte_ether_addr) (j tm d : Z) : Prop :=
  ∃ t, Ent j a t ∈ ents s.1 ∧ tm ≤ t ∧ s.2 !! Z.to_nat j = Some (MkValue d).

Section executions.
Context `{Crc32} `{KeyLaws StaticKey}.
Variable pow2 : bool.
Variable config : nf_config.
Variable statics : gmap StaticKey Z.
Variables devices k_p range : Z.
Implicit Types (st : State) (s : bridge_abs).

(** A frame of any station, also of [a] itself, leaves the device of [a]. *)
Lemma bridge_learn_keeps st s src dev now a j tm d :
  bridge_inv pow2 config statics devices k_p range st s now → tm ≤ now →
  learned s a j tm d → learned (bridge_learn s src dev now) a j tm d.
Proof.
  intros HI Htm (t & Hin & Ht & Hd). pose proof (bi_emap _ _ _ _ _ _ _ _ _ HI) as HE.
  unfold bridge_learn. destruct (t_lookup s.1 src) as [e|] eqn:El.
  - apply t_lookup_Some in El as [He Hk]. destruct (decide (e_idx e = j)) as [Hj|Hj].
    + exists now. split_and!; [|done..]. simpl.
      pose proof (t_entry_elem s.1 e (ent_idx_NoDup _ _ _ _ HE) He) as H1'.
      pose proof (t_entry_elem s.1 _ (ent_idx_NoDup _ _ _ _ HE) Hin) as H2'. simpl in H2'.
      rewrite Hj in *. assert (e = Ent j a t) as -> by congruence.
      apply (t_refresh_in s.1 (Ent j a t) now Hin).
    + exists t. split_and!; [|done..]. simpl. apply elem_of_app. left.
      apply list_elem_of_filter. split; [|done]. simpl. congruence.
  - destruct (t_frees s.1) as [|i fs] eqn:Hf; [by exists t|].
    pose proof (fresh_index_ne _ _ _ _ HE i fs _ Hf Hin) as Hne. simpl in Hne.
    exists t. unfold t_add. rewrite Hf. simpl. split_and!; [|done|].
    + apply elem_of_app. by left.
    + by rewrite list_lookup_insert_ne.
Qed.

Lemma bridge_expire_keeps s now a j tm d before :
  t_sorted s.1 before → now ≤ tm + 1000 * expiration_time config →
  learned s a j tm d → learned (bridge_expire config s now) a j tm d.
Proof.
  intros Hs Hn (t & Hin & Ht & Hd). exists t. split_and!; [|done..]. simpl.
  eapply t_expire_keeps; [exact Hs|done|]. simpl. lia.
Qed.

Lemma bridge_run_keeps evs st s before a j tm d :
  bridge_inv pow2 config statics devices k_p range st s before → learned s a j tm d → tm ≤ before →
  frames_ok devices st before (tm + 1000 * expiration_time config) evs →
  ∃ st' s', bridge_run pow2 config k_p st evs = Some st' ∧
    bridge_inv pow2 config statics devices k_p range st' s' (last_now before evs) ∧
    learned s' a j tm d ∧ ∀ q, apart st q → apart st' q.
Proof.
  revert st s before. induction evs as [|ev evs IH]; intros st s before HI Hl Htm Hev;
    [by exists st, s|].
  destruct Hev as (Hb & Hn & Hd & (tail & HR) & Hap & Hevs).
  destruct (frame_macs _ _ HR) as (src & dst & Hsrc & Hdst).
  pose proof (bridge_process_spec pow2 config statics devices k_p range st s before (ev_now ev)
    (ev_device ev) (ev_packet ev) tail src dst HI ltac:(lia) Hn HR Hap Hd Hsrc Hdst) as Hp.
  destruct (bridge_expire_spec pow2 config statics devices k_p range st s before (ev_now ev) HI
    ltac:(lia) Hn) as (n & st1 & _ & HI1 & _).
  unfold bridge_spec in Hp.
  destruct Hp as (pk' & st' & Hp & HI' & _ & Hapart & _).
  assert (learned (bridge_learn (bridge_expire config s (ev_now ev)) src (ev_device ev) (ev_now ev))
            a j tm d) as Hl'.
  { eapply bridge_learn_keeps; [exact HI1|lia|].
    eapply bridge_expire_keeps; [apply (bi_sorted _ _ _ _ _ _ _ _ _ HI)|lia|done]. }
  assert (frames_ok devices st' (ev_now ev) (tm + 1000 * expiration_time config) evs) as Hevs'.
  { clear -Hevs Hapart. revert Hevs. generalize (ev_now ev).
    induction evs as [|e evs IH]; intros b; [done|]. intros (? & ? & ? & ? & ? & ?).
    split_and!; try done; auto; lia. }
  destruct (IH st' _ (ev_now ev) HI' Hl' ltac:(lia) Hevs') as (st'' & s'' & Hr & HI'' & Hl'' & Ha'').
  exists st'', s''. cbn [bridge_run]. rewrite Hp. cbn [mbind option_bind]. split_and!; auto.
Qed.

End executions.

(** ** Main results *)

(** C27: the bridge implements its contract.  For any received frame,
    [nf_process] runs without undefined behaviour and does what the contract
    says: forget the addresses that have not been seen for the expiration time,
    refresh the source address or, while there is room, learn it with its
    device, and send the frame where the static rules, or else the learned
    table, have its destination: to all devices when neither has it, nowhere
    when the rule filters it or it is already there, and never back to the
    device it came from.  The frame is unchanged and the invariant is kept. *)
Theorem bridge_process_refines_spec `{Crc32} `{KeyLaws StaticKey} (pow2 : bool)
    (config : nf_config) (statics : gmap StaticKey Z) (devices k_p range : Z) (st : State)
    (s : bridge_abs) (before now dev : Z) (pk : packet) (tail : Z) :
  bridge_inv pow2 config statics devices k_p range st s before → before ≤ now →
  0 ≤ now < 2 ^ 63 → received pk tail → apart st pk → 0 ≤ dev < devices →
  ∃ src dst, src_mac pk = Some src ∧ dst_mac pk = Some dst ∧
    let '(s', act) := bridge_spec config statics s dev now src dst in
    ∃ pk' st', nf_process pow2 config st k_p dev now pk = Some (action_result dev act, pk', st') ∧
      bridge_inv pow2 config statics devices k_p range st' s' now ∧
      nf_return_all_chunks pk' = pk ∧
      match act with Forward d => d ≠ dev ∧ 0 ≤ d < devices | _ => True end.
Proof.
  intros HI Hle Hn HR Hap Hd. destruct (frame_macs _ _ HR) as (src & dst & Hsrc & Hdst).
  exists src, dst. split_and!; [done..|].
  pose proof (bridge_process_spec pow2 config statics devices k_p range st s before now dev pk tail
    src dst HI Hle Hn HR Hap Hd Hsrc Hdst) as Hp.
  destruct (bridge_spec _ _ _ _ _ _ _) as [s' act].
  destruct Hp as (pk' & st' & Hp & HI' & Hret & _ & Hact). by exists pk', st'.
Qed.

(** A learned location lasts, and does not move.  Suppose station [a] has
    been learned on device [d] and was last seen at [tm].  After any sequence
    of frames in the expiration time, those that [a] itself sends from another
    device included, a frame to [a] for which there is no static rule is sent
    to [d] (dropped if it comes from [d]), not flooded. *)
Theorem bridge_learned_location `{Crc32} `{KeyLaws StaticKey} (pow2 : bool) (config : nf_config)
    (statics : gmap StaticKey Z) (devices k_p range : Z) (st : State) (s : bridge_abs)
    (before now dev d : Z) (e : ent rte_ether_addr) (evs : list event) (pk : packet) (tail : Z) :
  bridge_inv pow2 config statics devices k_p range st s before →
  e ∈ ents s.1 → s.2 !! Z.to_nat (e_idx e) = Some (MkValue d) →
  frames_ok devices st before (e_time e + 1000 * expiration_time config) evs →
  last_now before evs ≤ now ≤ e_time e + 1000 * expiration_time config →
  0 ≤ now < 2 ^ 63 → received pk tail → apart st pk → 0 ≤ dev < devices →
  dst_mac pk = Some (e_key e) → statics !! MkStaticKey (e_key e) dev = None →
  ∃ st' pk' st'', bridge_run pow2 config k_p st evs = Some st' ∧
    nf_process pow2 config st' k_p dev now pk = Some (d, pk', st'').
Proof.
  intros HI He Hd Hev Hnow Hn HR Hap Hdev Hdst Hst.
  assert (learned s (e_key e) (e_idx e) (e_time e) d) as Hl.
  { exists (e_time e). split_and!; [by destruct e|lia|done]. }
  destruct (bi_sorted _ _ _ _ _ _ _ _ _ HI) as [_ Htm]. specialize (Htm e He).
  destruct (bridge_run_keeps pow2 config statics devices k_p range evs st s before _ _ _ _ HI Hl Htm Hev)
    as (st' & s' & Hr & HI' & Hl' & Hap').
  destruct (frame_macs _ _ HR) as (src & dst & Hsrc & Hdst'). rewrite Hdst in Hdst'. simplify_eq.
  pose proof (bridge_process_spec pow2 config statics devices k_p range st' s' _ now dev pk tail
    src (e_key e) HI' ltac:(lia) Hn HR (Hap' _ Hap) Hdev Hsrc Hdst) as Hp.
  destruct (bridge_expire_spec pow2 config statics devices k_p range st' s' _ now HI'
    ltac:(lia) Hn) as (n & st1 & _ & HI1 & _).
  unfold bridge_spec in Hp. set (s1 := bridge_learn _ src dev now) in *.
  assert (learned s1 (e_key e) (e_idx e) (e_time e) d) as (t & Hin & _ & Hv).
  { eapply bridge_learn_keeps; [exact HI1| |].
    - pose proof (proj2 (bi_sorted _ _ _ _ _ _ _ _ _ HI1)) as Hs.
      eapply bridge_expire_keeps in Hl' as (t & Hin & Ht & _);
        [|apply (bi_sorted _ _ _ _ _ _ _ _ _ HI')|apply Hnow]. specialize (Hs _ Hin). simpl in Hs. lia.
    - eapply bridge_expire_keeps; [apply (bi_sorted _ _ _ _ _ _ _ _ _ HI')|lia|done]. }
  destruct Hp as (pk' & st'' & Hp & HI'' & _).
  assert (bridge_target statics s1 (e_key e) dev = Some d) as Htg.
  { unfold bridge_target. rewrite Hst.
    rewrite (t_lookup_elem s1.1 (Ent (e_idx e) (e_key e) t)
      (em_keys _ _ _ _ (bi_emap _ _ _ _ _ _ _ _ _ HI'')) Hin : t_lookup s1.1 (e_key e) = _).
    simpl. by rewrite Hv. }
  rewrite Htg in Hp. exists st', pk', st''. split; [done|]. rewrite Hp. do 2 f_equal. f_equal.
  unfold bridge_action. destruct (bi_vals _ _ _ _ _ _ _ _ _ HI'' _ Hin) as (d' & Hd' & Hr').
  simpl in Hd'. rewrite Hv in Hd'. simplify_eq. destruct (Z.eqb_spec d' (-2)); [lia|].
  destruct (Z.eqb_spec d' dev); [by subst|done].
Qed.

(** ** Concrete instances *)

Definition demo_static_ops : KeyOps StaticKey := {|
  key_eq := λ a b, bool_decide (a = b);
  key_hash := λ k, rte_ether_addr_hash (sk_addr k)
|}.

#[local] Existing Instance demo_static_ops.

#[local] Instance demo_static_laws : KeyLaws StaticKey.
Proof.
  constructor.
  - intros a b. apply bool_decide_eq_true.
  - intros a. apply u32_range.
Qed.

Definition demo_bridge_config : nf_config := MkConfig 1000 3.

Definition demo_static_vec : Vector StaticKey :=
  o_vec (demo_table 8 (MkStaticKey (EtherAddr 0 0 0 0 0 0) 0)).

Definition demo_bridge : State :=
  MkState (demo_table 6 (EtherAddr 0 0 0 0 0 0)) (MkVector 2000 2 3 (replicate 3 (MkValue 0)))
    demo_map demo_static_vec.

Lemma demo_bridge_inv :
  bridge_inv false demo_bridge_config ∅ 2 8 3 demo_bridge
    (Table [] [0; 1; 2], replicate 3 (MkValue 0)) 0.
Proof.
  constructor; [done|done|by apply demo_table_ok| |by constructor|done|done| | |].
  - split; [constructor|]. intros e He. by apply elem_of_nil in He.
  - intros e He. by apply elem_of_nil in He.
  - exists ∅. split; [|by intros k p Hp; rewrite lookup_empty in Hp].
    apply (em_map _ _ _ _ (demo_table_ok 8 (MkStaticKey (EtherAddr 0 0 0 0 0 0) 0) ltac:(lia))).
  - intros k d Hd. by rewrite lookup_empty in Hd.
Qed.

Lemma demo_bridge_apart pk : 4096 ≤ base pk → apart demo_bridge pk.
Proof. intros Hb i Hi j Hj. unfold addr. simpl in *. lia. Qed.

(** The first frame is flooded. *)
Lemma bridge_process_refines_spec_witness :
  ∃ pk' st', nf_process false demo_bridge_config demo_bridge 8 0 5 demo_packet =
    Some (65535, pk', st').
Proof.
  destruct (bridge_process_refines_spec false demo_bridge_config ∅ 2 8 3 demo_bridge _ 0 5 0
    demo_packet 20 demo_bridge_inv ltac:(lia) ltac:(lia) demo_packet_received
    (demo_bridge_apart demo_packet ltac:(done)) ltac:(lia)) as (src & dst & Hs & Hd & Hp).
  vm_compute in Hs, Hd. simplify_eq.
  destruct (bridge_spec _ _ _ _ _ _ _) as [s' act] eqn:E. vm_compute in E. simplify_eq.
  destruct Hp as (pk' & st' & Hp & _). by exists pk', st'.
Defined.

(** The tables after [demo_packet] has been learned on device 0. *)
Definition demo_bridge1 : State :=
  match nf_process false demo_bridge_config demo_bridge 8 0 5 demo_packet with
  | Some (_, _, st) => st
  | None => demo_bridge
  end.

Definition demo_abs1 : bridge_abs :=
  (Table [Ent 0 (EtherAddr 2 0 0 0 0 2) 5] [1; 2], [MkValue 0; MkValue 0; MkValue 0]).

Lemma demo_bridge1_ok :
  bridge_inv false demo_bridge_config ∅ 2 8 3 demo_bridge1 demo_abs1 5 ∧
  ∀ q, apart demo_bridge q → apart demo_bridge1 q.
Proof.
  destruct (frame_macs _ _ demo_packet_received) as (src & dst & Hs & Hd).
  pose proof (bridge_process_spec false demo_bridge_config ∅ 2 8 3 demo_bridge _ 0 5 0 demo_packet
    20 src dst demo_bridge_inv ltac:(lia) ltac:(lia) demo_packet_received
    (demo_bridge_apart demo_packet ltac:(done)) ltac:(lia) Hs Hd) as Hp.
  vm_compute in Hs, Hd. simplify_eq.
  destruct (bridge_spec _ _ _ _ _ _ _) as [s' act] eqn:E. vm_compute in E. simplify_eq.
  destruct Hp as (pk' & st' & Hp & HI & _ & Ha & _). unfold demo_bridge1. rewrite Hp.
  split; [exact HI|exact Ha].
Qed.

(** A frame to the station learned above, from device 1. *)
Definition demo_answer : packet :=
  Packet 8192 ([2;0;0;0;0;2] ++ [2;0;0;0;0;1] ++ [8;0] ++ replicate 66 0) 60 0 [].

Lemma demo_answer_received : received demo_answer 20.
Proof.
  constructor; try done. cbn.
  repeat (apply List.Forall_cons; [lia|]). apply List.Forall_nil.
Qed.

(** The station has sent from device 1 in the meantime; its frames still go to
    device 0. *)
Lemma bridge_learned_location_witness :
  ∃ st' pk' st'', bridge_run false demo_bridge_config 8 demo_bridge1 [Event 1 6 demo_packet] =
      Some st' ∧
    nf_process false demo_bridge_config st' 8 1 7 demo_answer = Some (0, pk', st'').
Proof.
  destruct demo_bridge1_ok as [HI Ha].
  eapply (bridge_learned_location false demo_bridge_config ∅ 2 8 3 demo_bridge1 demo_abs1 5 7 1 0
    (Ent 0 (EtherAddr 2 0 0 0 0 2) 5) [Event 1 6 demo_packet] demo_answer 20 HI);
    [by left|done| |simpl; lia|lia|apply demo_answer_received
    |by apply Ha, demo_bridge_apart|lia|reflexivity|apply lookup_empty].
  split; [simpl; lia|]. split; [simpl; lia|]. split; [simpl; lia|].
  split; [exists 20; apply demo_packet_received|]. split; [by apply Ha, demo_bridge_apart|exact I].
Defined.
