(* ===== verification/BridgeInit.v ===== *)
(** * vigbridge: initialisation

    [nf_init] of bridge_main.c and the two ways in which it fills the table of
    static rules: from the file that the configuration names, and from an array
    in the program (NFOS).  A file is the list of its bytes. *)
From stdpp Require Import base list gmap numbers strings sets.
From Stdlib Require Import ZArith Lia.
From S2P Require Import Prelude.
From S2P Require Import Memory.
From S2P Require Import MapImpl.
From S2P Require Import Map.
From S2P Require Import Vector.
From S2P Require Import DChainImpl.
From S2P Require Import DChain.
From S2P Require Import Emap.
From S2P Require Import Packet.
From S2P Require Import Ether.
From S2P Require Import NfParse.
From S2P Require Import Bridge.

Definition CAPACITY_UPPER_LIMIT : Z := 140000.

(** The loop that counts the newlines.  [ch] is a signed [char], so a byte 255
    is taken for the end of the file. *)
Fixpoint count_lines (number_of_lines : Z) (file : list Z) : Z :=
  match file with
  | [] => number_of_lines
  | ch :: rest =>
      if ch =? 255 then number_of_lines
      else count_lines (if ch =? 10 then u32 (number_of_lines + 1) else number_of_lines) rest
  end.

(** The variables of the loop over the rules: the unread part of the file, the
    number of rules, the map and the vector of keys. *)
Record reader := Reader {
  unread : list Z;
  count : Z;
  rd_map : Map;
  rd_keys : Vector StaticKey
}.

Section init.
Context `{KeyOps StaticKey}.
Variable pow2 : bool.

(** [key->device = from; map_put(stat_map, &key->addr, to); ++count;
    assert(count < capacity)], at the end of both loops. *)
Definition add_rule (capacity key device_from device_to : Z) (s : reader) : option reader :=
  k ← deref (rd_keys s) key;
  keys ← store (rd_keys s) key (MkStaticKey (sk_addr k) (u16 device_from));
  map ← map_put pow2 (deref keys) (rd_map s) key device_to;
  let keys := vector_return keys (count s) key in
  count' ← int_chk (count s + 1);
  _ ← c_assert (u32 count' <? capacity);
  Some (Reader (unread s) count' map keys).

(** [strtol] into an [int], with the test of the end of the string. *)
Definition parse_device (str : list Z) : option Z :=
  match strtoimax str 10 with
  | Some (device, []) => Some (s32 device)
  | _ => None
  end.

(** One iteration: [Return] leaves the loop. *)
Definition read_rule (capacity : Z) (s : reader)
    : option (outcome reader (Map * Vector StaticKey)) :=
  let done' := Return (rd_map s, rd_keys s) in
  match fscanf_word 18 (unread s) with
  | None => Some done'
  | Some (mac_addr_str, file) =>
  match fscanf_word 9 file with
  | None => Some done'
  | Some (source_str, file) =>
  match fscanf_word 9 file with
  | None => Some done'
  | Some (target_str, file) =>
      key ← vector_borrow (rd_keys s) (count s);
      k ← deref (rd_keys s) key;
      '(result, a) ← nf_parse_etheraddr (c_str mac_addr_str) (sk_addr k);
      keys ← store (rd_keys s) key (MkStaticKey a (sk_device k));
      let s := Reader file (count s) (rd_map s) keys in
      if Z.b2z result <? 0 then Some (Continue s) else
      match parse_device (c_str source_str), parse_device (c_str target_str) with
      | Some device_from, Some device_to =>
          s ← add_rule capacity key device_from device_to s; Some (Continue s)
      | _, _ => Some (Continue s)
      end
  end end end.

(** [fopen] gives the contents of a file; [Return] is a call of [rte_exit]. *)
Definition read_static_ft_from_file (fopen : list Z → option (list Z)) (fname : list Z)
    (stat_map : Map) (stat_keys : Vector StaticKey) (stat_capacity : Z)
    : option (outcome (Map * Vector StaticKey) unit) :=
  if hd 0 fname =? 0 then Some (Continue (stat_map, stat_keys)) else
  match fopen fname with
  | None => Some (Return tt)
  | Some file =>
      let capacity := u32 (count_lines 0 file * 2) in
      if stat_capacity <=? capacity then Some (Return tt) else
      r ← iterate (S (length file)) (read_rule capacity) (Reader file 0 stat_map stat_keys);
      Some (Continue r)
  end.

(** The rules of the program: MAC address, source and target. *)
Definition static_rules : list (list Z * Z * Z) := [(bytes "00:00:00:00:00:00", 0, 0)].

Definition read_static_ft_from_array (stat_map : Map) (stat_keys : Vector StaticKey)
    (stat_capacity : Z) : option (outcome (Map * Vector StaticKey) unit) :=
  let number_of_entries := zlen static_rules in
  let capacity := u32 (number_of_entries * 2) in
  if stat_capacity <=? capacity then Some (Return tt) else
  s ← for_each 0 number_of_entries (λ idx s,
    '(mac_addr, device_from, device_to) ← rd static_rules idx;
    key ← vector_borrow (rd_keys s) (count s);
    k ← deref (rd_keys s) key;
    '(result, a) ← nf_parse_etheraddr mac_addr (sk_addr k);
    keys ← store (rd_keys s) key (MkStaticKey a (sk_device k));
    let s := Reader (unread s) (count s) (rd_map s) keys in
    if Z.b2z result <? 0 then Some s else
    add_rule capacity key device_from device_to s) (Reader [] 0 stat_map stat_keys);
  Some (Continue (rd_map s, rd_keys s)).

Section nf_init.
Variable alloc_state : Z → Z → Z → M (option State).
Variable fopen : list Z → option (list Z).
Variable NFOS : bool.

(** The result and [mac_tables]; [Return] is a call of [rte_exit]. *)
Definition nf_init (config : nf_config) (static_config_fname : list Z)
    (rte_eth_dev_count_avail : Z) : M (outcome (bool * option State) unit) :=
  let stat_capacity := 8192 in
  _ ← lift (c_assert (stat_capacity <? CAPACITY_UPPER_LIMIT - 1));
  mac_tables ← alloc_state (dyn_capacity config) stat_capacity rte_eth_dev_count_avail;
  match mac_tables with
  | None => mret (Continue (false, None))
  | Some st =>
      r ← lift (if NFOS then read_static_ft_from_array (st_map st) (st_vec st) stat_capacity
                else read_static_ft_from_file fopen static_config_fname (st_map st) (st_vec st)
                       stat_capacity);
      mret (match r with
            | Return _ => Return tt
            | Continue (map, vec) =>
                Continue (true, Some (MkState (dyn st) (dyn_vals st) map vec))
            end)
  end.

End nf_init.
End init.

(** ** vigbridge-static

    The same initialisation; frames go by the static rules alone. *)

Module Static.

Definition bridge_get_device `{KeyOps StaticKey} (pow2 : bool) (st : State) (k_p : Z)
    (dst : rte_ether_addr) (src_device : Z) : option Z :=
  let k := MkStaticKey dst src_device in
  '(present, device') ← map_get pow2 (with_local (deref (st_vec st)) k_p k) (st_map st) k_p (-1);
  if negb (present =? 0) then Some device' else Some (-1).

Definition nf_process `{KeyOps StaticKey} (pow2 : bool) (st : State) (k_p device : Z) (pk0 : packet)
    : option (Z * packet * State) :=
  '(rte_ether_header, pk1) ← nf_then_get_rte_ether_header pk0;
  dst ← load_ether_addr pk1 (rte_ether_header + d_addr_off);
  forward_to ← bridge_get_device pow2 st k_p dst device;
  if forward_to =? -1 then Some (FLOOD_FRAME, pk1, st) else
  if forward_to =? -2 then Some (device, pk1, st) else
  Some (forward_to, pk1, st).

End Static.

(** ** Files of rules *)

(** A rule: frames to an address from a device go to a target. *)
Definition rule : Type := StaticKey * Z.

(** A line of the file that says a rule: three words between blanks. *)
Definition says (r : rule) (line : list Z) : Prop :=
  ∃ mac sp1 source sp2 target,
    line = mac ++ sp1 ++ source ++ sp2 ++ target ++ [10] ∧
    word 18 mac ∧ word 9 source ∧ word 9 target ∧ blank sp1 ∧ blank sp2 ∧ sp1 ≠ [] ∧ sp2 ≠ [] ∧
    Forall (λ c, c ≠ 10 ∧ c ≠ 255) (mac ++ sp1 ++ source ++ sp2 ++ target) ∧
    (∀ old, nf_parse_etheraddr mac old = Some (true, sk_addr r.1)) ∧
    parse_device source = Some (sk_device r.1) ∧ 0 ≤ sk_device r.1 < 2 ^ 16 ∧
    parse_device target = Some r.2.

Lemma count_lines_app n cs rest :
  Forall (λ c, c ≠ 10 ∧ c ≠ 255) cs → count_lines n (cs ++ rest) = count_lines n rest.
Proof.
  induction 1 as [|c cs [H1 H2] _ IH]; simpl; [done|].
  destruct (Z.eqb_spec c 255); [done|]. by destruct (Z.eqb_spec c 10).
Qed.

(** The newlines are as many as the rules. *)
Lemma count_lines_rules rules lines n :
  Forall2 says rules lines → 0 ≤ n → n + zlen rules < 2 ^ 32 →
  count_lines n (concat lines) = n + zlen rules.
Proof.
  intros Hl. revert n. induction Hl as [|r line rules lines Hr _ IH]; intros n Hn Hlen.
  { unfold zlen. simpl. lia. }
  destruct Hr as (mac & sp1 & src & sp2 & tgt & -> & _ & _ & _ & _ & _ & _ & _ & Hc & _).
  replace (zlen (r :: rules)) with (1 + zlen rules) in * by (unfold zlen; simpl; lia).
  assert (0 ≤ zlen rules) by (unfold zlen; lia). cbn [concat].
  assert ((mac ++ sp1 ++ src ++ sp2 ++ tgt ++ [10]) ++ concat lines =
          (mac ++ sp1 ++ src ++ sp2 ++ tgt) ++ 10 :: concat lines) as -> by by rewrite <- !app_assoc.
  rewrite count_lines_app by done. simpl.
  rewrite u32_small by lia. rewrite IH; lia.
Qed.

(** ** Reading the rules *)

Section reading.
Context `{KeyLaws StaticKey}.
Variable pow2 : bool.

(** Every iteration that goes on has read from the file. *)
Lemma read_rule_shorter capacity s s' :
  read_rule pow2 capacity s = Some (Continue s') → (length (unread s') < length (unread s))%nat.
Proof.
  unfold read_rule.
  destruct (fscanf_word 18 _) as [[mac f1]|] eqn:E1; [|done].
  destruct (fscanf_word 9 f1) as [[src f2]|] eqn:E2; [|done].
  destruct (fscanf_word 9 f2) as [[tgt f3]|] eqn:E3; [|done].
  apply fscanf_word_shorter in E1, E2, E3. intros Hs.
  assert (unread s' = f3) as ->; [|lia].
  destruct (vector_borrow _ _) as [key|]; [|done]. cbn [mbind option_bind] in Hs.
  destruct (deref _ _) as [k|]; [|done]. cbn [mbind option_bind] in Hs.
  destruct (nf_parse_etheraddr _ _) as [[res a]|]; [|done]. cbn [mbind option_bind] in Hs.
  destruct (store _ _ _) as [keys|]; [|done]. cbn [mbind option_bind] in Hs.
  destruct (_ <? _); [by simplify_eq|].
  destruct (parse_device _); [|by simplify_eq]. destruct (parse_device _); [|by simplify_eq].
  unfold add_rule in Hs. opt_inv. done.
Qed.

(** The table holds the first rules, with their keys in the first cells. *)
Record holds (cap : Z) (keys0 : Vector StaticKey) (statics : gmap StaticKey Z) (s : reader)
    : Prop := Holds {
  ho_vec : vector_ok (rd_keys s);
  ho_same : data (rd_keys s) = data keys0 ∧ elem_size (rd_keys s) = elem_size keys0 ∧
            vec_capacity (rd_keys s) = vec_capacity keys0;
  ho_cap : vec_capacity keys0 = cap ∧ capacity (rd_map s) = cap;
  ho_count : count s = Z.of_nat (size statics);
  ho_map : ∃ addrs, mapp pow2 (deref (rd_keys s)) (rd_map s) statics addrs ∧
             ∀ k p, addrs !! k = Some p → ∃ i, 0 ≤ i < count s ∧ p = addr keys0 i
}.

(** The next cell is filled with the key of a new rule, in any state of the cell. *)
Lemma add_rule_spec cap keys0 statics s f r x capacity :
  holds cap keys0 statics s → cap ≤ 8192 → statics !! r.1 = None → count s + 1 < capacity ≤ cap →
  sk_addr x = sk_addr r.1 → 0 ≤ sk_device r.1 < 2 ^ 16 →
  ∃ s', add_rule pow2 capacity (addr (rd_keys s) (count s)) (sk_device r.1) r.2
          (Reader f (count s) (rd_map s) (vset (rd_keys s) (count s) x)) = Some s' ∧
    holds cap keys0 (<[r.1 := r.2]> statics) s' ∧ unread s' = f.
Proof.
  intros [Hv (Hd & He & Hvc) [Hc Hmc] Hn (addrs & HM & Ha)] Hcap Hnew Hlt Hx Hr.
  destruct s as [u n map keys]; simpl in *. assert (0 ≤ n < vec_capacity keys) as Hin by lia.
  set (keys1 := vset keys n x). assert (vector_ok keys1) as Hv1 by by apply vset_ok.
  assert (addr keys n = addr keys0 n) as Hadr by (unfold addr; congruence).
  unfold add_rule. simpl rd_keys. simpl count. simpl rd_map. simpl unread.
  assert (deref keys1 (addr keys n) = Some x) as ->.
  { unfold keys1. rewrite deref_vset by done. by rewrite Z.eqb_refl. }
  cbn [mbind option_bind]. rewrite u16_small by done. change (addr keys n) with (addr keys1 n).
  rewrite store_addr by done. cbn [mbind option_bind].
  assert (MkStaticKey (sk_addr x) (sk_device r.1) = r.1) as -> by (rewrite Hx; by destruct (r.1)).
  set (keys2 := vset keys1 n r.1). change (addr keys1 n) with (addr keys n).
  assert (∀ j, deref keys2 (addr keys j) = if n =? j then Some r.1 else deref keys (addr keys j)) as Hk2.
  { intros j. unfold keys2. change (addr keys j) with (addr keys1 j) at 1.
    rewrite deref_vset by done. unfold keys1. destruct (Z.eqb_spec n j) as [|Hj]; [done|].
    change (addr (vset keys n x) j) with (addr keys j). rewrite deref_vset by done.
    by destruct (Z.eqb_spec n j). }
  destruct (map_put_spec pow2 (deref keys2) map statics addrs (addr keys n) r.1 r.2)
    as (map' & -> & Hmc' & HM'); [|by rewrite Hk2, Z.eqb_refl|done|lia|].
  { eapply mapp_frame; [exact HM|]. intros k p Hp. destruct (Ha k p Hp) as (i & Hi & ->).
    assert (addr keys0 i = addr keys i) as -> by (unfold addr; congruence).
    rewrite Hk2. by destruct (Z.eqb_spec n i); [lia|]. }
  cbn [mbind option_bind]. rewrite int_chk_small by (unfold INT_MIN, INT_MAX; lia). cbn [mbind option_bind].
  rewrite u32_small by lia. destruct (Z.ltb_spec (n + 1) capacity); [|lia].
  cbn [c_assert mbind option_bind]. eexists. split; [done|]. split; [|done].
  constructor; simpl; [by apply vset_ok|done|lia| |].
  - rewrite map_size_insert_None by done. lia.
  - exists (<[r.1 := addr keys n]> addrs). split; [done|]. intros k p Hp.
    apply lookup_insert_Some in Hp as [[<- <-]|[_ Hp]].
    + exists n. split; [lia|done].
    + destruct (Ha k p Hp) as (i & Hi & ->). exists i. split; [lia|done].
Qed.

Lemma read_rule_spec cap keys0 statics s r line sp rest capacity :
  holds cap keys0 statics s → cap ≤ 8192 → blank sp →
  unread s = sp ++ line ++ rest → says r line → statics !! r.1 = None →
  count s + 1 < capacity ≤ cap →
  ∃ s', read_rule pow2 capacity s = Some (Continue s') ∧
    holds cap keys0 (<[r.1 := r.2]> statics) s' ∧ unread s' = 10 :: rest.
Proof.
  intros HI Hcap Hsp Hu
    (mac & sp1 & src & sp2 & tgt & -> & Hw1 & Hw2 & Hw3 & Hb1 & Hb2 & Hn1 & Hn2 & _ & Hmac & Hsrc & Hr & Htgt)
    Hnew Hlt.
  pose proof (ho_vec _ _ _ _ HI) as Hv. destruct (ho_same _ _ _ _ HI) as (_ & _ & Hvc).
  destruct (ho_cap _ _ _ _ HI) as [Hc _]. pose proof (ho_count _ _ _ _ HI) as Hn.
  destruct s as [u n map keys]; simpl in *. unfold read_rule. simpl unread. rewrite Hu.
  rewrite <- !app_assoc.
  rewrite fscanf_word_app by (done || by destruct Hb1).
  rewrite fscanf_word_app by (done || by destruct Hb2).
  rewrite fscanf_word_app by (done || by destruct Hb2).
  simpl rd_keys. simpl count. assert (0 ≤ n < vec_capacity keys) as Hin by lia.
  rewrite vector_borrow_spec by done. cbn [mbind option_bind].
  destruct (rd_Some (cells keys) n) as [k Hk]; [by rewrite (vo_len _ Hv)|].
  rewrite deref_addr, Hk by done. cbn [mbind option_bind].
  rewrite !(c_str_word _ _ Hw1), Hmac. cbn [mbind option_bind].
  rewrite store_addr by done. cbn [mbind option_bind Z.b2z count rd_map Z.ltb Z.compare].
  rewrite (c_str_word _ _ Hw2), (c_str_word _ _ Hw3), Hsrc, Htgt.
  destruct (add_rule_spec cap keys0 statics (Reader u n map keys) (10 :: rest) r
    (MkStaticKey (sk_addr r.1) (sk_device k)) capacity HI Hcap Hnew Hlt eq_refl Hr)
    as (s' & Hs & HI' & Hu'). simpl in Hs. change ([10] ++ rest) with (10 :: rest). rewrite Hs. cbn [mbind option_bind]. by exists s'.
Qed.

(** The loop over a file of rules. *)
Lemma read_rules_spec cap keys0 rules lines statics sp s fuel capacity :
  Forall2 says rules lines → NoDup rules.*1 → (∀ r, r ∈ rules → statics !! r.1 = None) →
  holds cap keys0 statics s → cap ≤ 8192 → blank sp → unread s = sp ++ concat lines →
  (rules ≠ [] → count s + zlen rules < capacity) → capacity ≤ cap →
  (length (unread s) < fuel)%nat →
  ∃ s', iterate fuel (read_rule pow2 capacity) s = Some (rd_map s', rd_keys s') ∧
    holds cap keys0 (list_to_map rules ∪ statics) s'.
Proof.
  intros Hl. revert statics sp s fuel.
  induction Hl as [|r line rules lines Hr Hl IH]; 
    intros statics sp s fuel Hnd Hnew HI Hcap Hsp Hu Hc Hcc Hf.
  - destruct fuel as [|fuel]; [lia|]. cbn [iterate]. unfold read_rule. simpl in Hu.
    rewrite app_nil_r in Hu. rewrite Hu, fscanf_word_eof by done.
    exists s. split; [done|]. simpl. by rewrite (left_id_L ∅ (∪)).
  - specialize (Hc ltac:(done)).
    replace (zlen (r :: rules)) with (1 + zlen rules) in Hc by (unfold zlen; simpl; lia).
    assert (0 ≤ zlen rules) by (unfold zlen; lia).
    destruct (read_rule_spec cap keys0 statics s r line sp (concat lines) capacity)
      as (s1 & Hs1 & HI1 & Hu1); [done..|apply Hnew; by left|lia|].
    pose proof (read_rule_shorter _ _ _ Hs1) as Hshort.
    destruct fuel as [|fuel]; [lia|]. cbn [iterate]. rewrite Hs1. cbn [mbind option_bind].
    apply NoDup_cons in Hnd as [Hr1 Hnd].
    assert (count s1 = count s + 1) as Hcnt.
    { rewrite (ho_count _ _ _ _ HI1), (ho_count _ _ _ _ HI), map_size_insert_None; [lia|].
      apply Hnew. by left. }
    destruct (IH (<[r.1 := r.2]> statics) [10] s1 fuel) as (s' & Hs' & HI');
      [done| |done|done|by repeat constructor|done|lia|lia|lia|].
    + intros r' Hr'. rewrite lookup_insert_ne; [apply Hnew; by right|].
      intros Heq. apply Hr1. rewrite Heq. by apply list_elem_of_fmap_2.
    + exists s'. split; [done|]. destruct r as [k d]. simpl in *.
      rewrite <- insert_union_r in HI' by by apply not_elem_of_list_to_map.
      by rewrite <- insert_union_l.
Qed.

End reading.

(** ** Main results *)

Section results.
Context `{Crc32} `{KeyLaws StaticKey}.
Variable pow2 : bool.
Variable config : nf_config.
Variables devices k_p range : Z.

(** The static table as it is allocated, outside of the stack. *)
Definition no_rules (st : State) : Prop :=
  holds pow2 8192 (st_vec st) ∅ (Reader [] 0 (st_map st) (st_vec st)) ∧ outside (st_vec st) k_p.

(** The target of a rule is a device, or filters. *)
Definition target_ok (r : rule) : Prop := r.2 = -2 ∨ 0 ≤ r.2 < devices.

(** The configuration names a file whose lines say rules, one for each key. *)
Record rules_file (fopen : list Z → option (list Z)) (fname : list Z) (rules : list rule)
    (lines : list (list Z)) : Prop := RulesFile {
  rf_name : hd 0 fname ≠ 0;
  rf_open : fopen fname = Some (concat lines);
  rf_says : Forall2 says rules lines;
  rf_keys : NoDup rules.*1;
  rf_targets : Forall target_ok rules
}.

Lemma read_file_spec fopen fname st rules lines :
  no_rules st → rules_file fopen fname rules lines → zlen rules < 2 ^ 31 →
  if zlen rules <? 4096 then
    ∃ s', read_static_ft_from_file pow2 fopen fname (st_map st) (st_vec st) 8192 =
        Some (Continue (rd_map s', rd_keys s')) ∧
      holds pow2 8192 (st_vec st) (list_to_map rules) s'
  else read_static_ft_from_file pow2 fopen fname (st_map st) (st_vec st) 8192 = Some (Return tt).
Proof.
  intros [HI _] [Hf Ho Hl Hnd _] Hlen. unfold read_static_ft_from_file.
  destruct (Z.eqb_spec (hd 0 fname) 0) as [|_]; [done|]. rewrite Ho.
  assert (0 ≤ zlen rules) by (unfold zlen; lia).
  rewrite (count_lines_rules rules), Z.add_0_l, u32_small by (done || lia).
  destruct (Z.ltb_spec (zlen rules) 4096), (Z.leb_spec 8192 (zlen rules * 2)); try lia; [|done].
  destruct (read_rules_spec pow2 8192 (st_vec st) rules lines ∅ []
    (Reader (concat lines) 0 (st_map st) (st_vec st)) (S (length (concat lines))) (zlen rules * 2))
    as (s' & -> & HI'); simpl; [done|done| |by destruct HI|lia|constructor|done| |lia|lia|].
  - intros r _. apply lookup_empty.
  - intros Hne. assert (zlen rules ≠ 0) by (by destruct rules). lia.
  - cbn [mbind option_bind]. exists s'. split; [done|]. by rewrite (right_id_L ∅ (∪)) in HI'.
Qed.

(** The rules become the static part of the invariant. *)
Lemma rules_inv st s before rules s' :
  bridge_inv pow2 config ∅ devices k_p range st s before → no_rules st →
  Forall target_ok rules → NoDup rules.*1 → holds pow2 8192 (st_vec st) (list_to_map rules) s' →
  bridge_inv pow2 config (list_to_map rules) devices k_p range
    (MkState (dyn st) (dyn_vals st) (rd_map s') (rd_keys s')) s before.
Proof.
  intros [] [_ Hout] Ht Hnd HI. constructor; simpl; try done.
  - destruct (ho_map _ _ _ _ _ HI) as (addrs & HM & Ha). exists addrs. split; [done|].
    intros k p Hp. destruct (Ha k p Hp) as (i & Hi & ->). intros Heq. apply (Hout i); [|done].
    destruct (ho_cap _ _ _ _ _ HI) as [Hc Hm]. rewrite (ho_count _ _ _ _ _ HI) in Hi.
    pose proof (mapping_size_le _ _ _ _ _ (mpp_mapping _ _ _ _ _ HM)). lia.
  - intros k d Hd. apply elem_of_list_to_map in Hd; [|done].
    rewrite Forall_forall in Ht. by apply (Ht (k, d)).
Qed.

(** Where a rule sends a frame of device [dev]. *)
Definition rule_result (dev target : Z) : Z := if target =? -2 then dev else target.

(** The static bridge in a state that has the rules. *)
Lemma static_process_spec st' rules pk tail dst dev :
  (∃ addrs, mapp pow2 (deref (st_vec st')) (st_map st') (list_to_map rules) addrs ∧
            ∀ k p, addrs !! k = Some p → p ≠ k_p) →
  Forall target_ok rules → NoDup rules.*1 → received pk tail → dst_mac pk = Some dst →
  ∃ pk', Static.nf_process pow2 st' k_p dev pk =
      Some (match (list_to_map rules : gmap StaticKey Z) !! MkStaticKey dst dev with
            | Some d => rule_result dev d
            | None => FLOOD_FRAME
            end, pk', st') ∧ nf_return_all_chunks pk' = pk.
Proof.
  intros (addrs & HM & Hk) Ht Hnd HR Hdst. unfold Static.nf_process.
  rewrite (ether_header_spec pk tail HR). cbn [mbind option_bind].
  change (load_ether_addr (at_read pk 14 [base pk]) (base pk + d_addr_off)) with (dst_mac pk).
  rewrite Hdst. cbn [mbind option_bind]. unfold Static.bridge_get_device.
  rewrite (map_get_spec pow2 _ _ (list_to_map rules) addrs k_p (MkStaticKey dst dev)).
  2: { eapply mapp_frame; [exact HM|]. intros k p Hp. unfold with_local.
       destruct (Z.eqb_spec p k_p); [by destruct (Hk k p)|done]. }
  2: { apply with_local_at. }
  assert (nf_return_all_chunks (at_read pk 14 [base pk]) = pk) as Hret.
  { rewrite (return_chunks_rewinds pk (at_read pk 14 [base pk]) []) by done.
    destruct HR, pk; simpl in *; by subst. }
  destruct (list_to_map rules !! MkStaticKey dst dev) as [d|] eqn:E; cbn [mbind option_bind].
  2: { by eexists. }
  apply elem_of_list_to_map in E; [|done]. rewrite Forall_forall in Ht. specialize (Ht _ E).
  unfold target_ok in Ht. simpl in *. unfold rule_result.
  destruct (Z.eqb_spec d (-1)); [lia|]. destruct (Z.eqb_spec d (-2)); by eexists.
Qed.

End results.

(** C31: the static rules take effect.  Let the configuration name a file whose
    lines say rules, one for each pair of an address and a device, with targets
    that are devices or filter, and let [alloc_state] give empty tables.  Then
    [nf_init] has defined behaviour.  With less than 4096 rules it returns a
    state that keeps the invariant of the bridge with exactly those rules, so
    the first frame from the device of a rule to its address goes to the target
    of the rule, or nowhere when the rule filters; with 4096 or more rules the
    program exits. *)
Theorem bridge_init_installs_rules `{Crc32} `{KeyLaws StaticKey} (pow2 : bool) (config : nf_config)
    (devices k_p range : Z) (alloc_state : Z → Z → Z → M (option State))
    (fopen : list Z → option (list Z)) (fname : list Z) (nb before : Z) (μ μ' : mem)
    (st : State) (s : bridge_abs) (rules : list rule) (lines : list (list Z)) :
  alloc_state (dyn_capacity config) 8192 nb μ = Some (Some st, μ') →
  bridge_inv pow2 config ∅ devices k_p range st s before → no_rules pow2 k_p st →
  rules_file devices fopen fname rules lines →
  zlen rules < 2 ^ 31 →
  let run := nf_init pow2 alloc_state fopen false config fname nb μ in
  if zlen rules <? 4096 then
    ∃ st', run = Some (Continue (true, Some st'), μ') ∧
      bridge_inv pow2 config (list_to_map rules) devices k_p range st' s before ∧
      ∀ k d now pk tail, (k, d) ∈ rules → before ≤ now → 0 ≤ now < 2 ^ 63 → received pk tail →
        apart st pk → 0 ≤ sk_device k < devices → dst_mac pk = Some (sk_addr k) →
        ∃ pk' st'', nf_process pow2 config st' k_p (sk_device k) now pk =
          Some (rule_result (sk_device k) d, pk', st'')
  else run = Some (Return tt, μ').
Proof.
  intros Ha HI Hno HF Hlen run. pose proof HF as [_ _ _ Hnd Ht].
  pose proof (read_file_spec pow2 devices k_p fopen fname st rules lines Hno HF Hlen) as Hr.
  unfold run, nf_init. mlift (eq_refl : c_assert (8192 <? CAPACITY_UPPER_LIMIT - 1) = Some tt).
  rewrite (M_bind_Some _ _ _ _ _ Ha). cbn beta iota.
  destruct (zlen rules <? 4096); [|by mlift Hr].
  destruct Hr as (s' & Hr & HI'). mlift Hr. eexists. split; [done|].
  pose proof (rules_inv pow2 config devices k_p range st s before rules s' HI Hno Ht Hnd HI') as HI1.
  split; [done|]. intros k d now pk tail Hk Hb Hn HR Hap Hd Hdst.
  destruct (frame_macs _ _ HR) as (src & dst & Hsrc & Hdst').
  pose proof (bridge_process_spec pow2 config _ devices k_p range _ s before now (sk_device k) pk tail
    src (sk_addr k) HI1 Hb Hn HR Hap Hd Hsrc Hdst) as Hp.
  unfold bridge_spec, bridge_target in Hp.
  rewrite (elem_of_list_to_map_1 rules (MkStaticKey (sk_addr k) (sk_device k)) d) in Hp
    by (done || by destruct k).
  destruct Hp as (pk' & st'' & Hp & _). exists pk', st''. rewrite Hp. do 2 f_equal. f_equal.
  unfold bridge_action, rule_result. destruct (Z.eqb_spec d (-2)); [done|]. simpl.
  by destruct (Z.eqb_spec d (sk_device k)).
Qed.

(** C23: the static bridge goes by the rules alone.  After an initialisation as
    above, every received frame is sent to the target that a rule has for its
    destination and device, nowhere when the rule filters, and to all devices
    when there is no rule; the frame and the tables are unchanged, so this holds
    for any sequence of frames. *)
Theorem static_bridge_follows_rules `{Crc32} `{KeyLaws StaticKey} (pow2 : bool)
    (config : nf_config) (devices k_p range : Z) (alloc_state : Z → Z → Z → M (option State))
    (fopen : list Z → option (list Z)) (fname : list Z) (nb before : Z) (μ μ' : mem)
    (st : State) (s : bridge_abs) (rules : list rule) (lines : list (list Z)) :
  alloc_state (dyn_capacity config) 8192 nb μ = Some (Some st, μ') →
  bridge_inv pow2 config ∅ devices k_p range st s before → no_rules pow2 k_p st →
  rules_file devices fopen fname rules lines →
  zlen rules < 4096 →
  ∃ st', nf_init pow2 alloc_state fopen false config fname nb μ =
      Some (Continue (true, Some st'), μ') ∧
    ∀ pk tail dst dev, received pk tail → dst_mac pk = Some dst →
      ∃ pk', Static.nf_process pow2 st' k_p dev pk =
          Some (match (list_to_map rules : gmap StaticKey Z) !! MkStaticKey dst dev with
                | Some d => rule_result dev d
                | None => FLOOD_FRAME
                end, pk', st') ∧ nf_return_all_chunks pk' = pk.
Proof.
  intros Ha HI Hno HF Hlen. pose proof HF as [_ _ _ Hnd Ht].
  pose proof (read_file_spec pow2 devices k_p fopen fname st rules lines Hno HF ltac:(lia)) as Hr.
  unfold nf_init. mlift (eq_refl : c_assert (8192 <? CAPACITY_UPPER_LIMIT - 1) = Some tt).
  rewrite (M_bind_Some _ _ _ _ _ Ha). cbn beta iota.
  destruct (Z.ltb_spec (zlen rules) 4096); [|lia].
  destruct Hr as (s' & Hr & HI'). mlift Hr. eexists. split; [done|].
  pose proof (rules_inv pow2 config devices k_p range st s before rules s' HI Hno Ht Hnd HI') as HI1.
  intros pk tail dst dev HR Hdst.
  eapply static_process_spec; [apply (bi_static _ _ _ _ _ _ _ _ _ HI1)|done..].
Qed.

(** C29: reading the rules terminates on every file.  Whatever bytes the file
    holds, the loop over its rules is left after at most one iteration more than
    the file has bytes, by returning or by an iteration that fails an assertion
    or has undefined behaviour, because each iteration that goes on has consumed
    some of the file; and the function gives what the loop is left with. *)
Theorem static_rules_terminate `{KeyOps StaticKey} (pow2 : bool) (stat_capacity : Z)
    (fopen : list Z → option (list Z)) (fname file : list Z) (stat_map : Map)
    (stat_keys : Vector StaticKey) :
  hd 0 fname ≠ 0 → fopen fname = Some file → u32 (count_lines 0 file * 2) < stat_capacity →
  ∃ n o, leaves (read_rule pow2 (u32 (count_lines 0 file * 2))) (Reader file 0 stat_map stat_keys) n o ∧
    (n ≤ S (length file))%nat ∧
    read_static_ft_from_file pow2 fopen fname stat_map stat_keys stat_capacity =
      (r ← o; Some (Continue r)).
Proof.
  intros Hf Ho Hc. set (step := read_rule pow2 _).
  destruct (measure_leaves (λ s, length (unread s)) step (Reader file 0 stat_map stat_keys))
    as (n & o & Hl & Hn); [apply read_rule_shorter|]. cbn [unread] in Hn.
  exists n, o. split_and!; [done|done|]. unfold read_static_ft_from_file.
  rewrite (proj2 (Z.eqb_neq _ _) Hf), Ho, (proj2 (Z.leb_gt _ _) Hc).
  fold step. by rewrite (leaves_iterate _ _ _ _ _ Hl Hn).
Qed.

(** ** Concrete instances *)

#[local] Existing Instances demo_static_ops demo_static_laws.

Definition demo_key0 : StaticKey := MkStaticKey rte_ether_addr_allocate 0.

(** [demo_bridge] with a static table of the size that the bridge allocates. *)
Definition demo_fresh : State :=
  MkState (dyn demo_bridge) (dyn_vals demo_bridge) (MkMap (demo_empty 8192) 8192 0)
    (MkVector 100000 8 8192 (replicate (Z.to_nat 8192) demo_key0)).

Definition demo_alloc_state (capacity stat_capacity dev_count : Z) : M (option State) :=
  mret (Some demo_fresh).

(** A file of two rules. *)
Definition demo_lines : list (list Z) :=
  [bytes "02:00:00:00:00:02 1 0" ++ [10]; bytes "0:0:0:0:0:aA" ++ [9; 32] ++ bytes "0 -2" ++ [10]].

Definition demo_rules : list rule :=
  [(MkStaticKey (EtherAddr 2 0 0 0 0 2) 1, 0); (MkStaticKey (EtherAddr 0 0 0 0 0 170) 0, -2)].

Definition demo_fopen (fname : list Z) : option (list Z) := Some (concat demo_lines).

Lemma demo_no_rules : no_rules false 8 demo_fresh.
Proof.
  assert (zlen (replicate (Z.to_nat 8192) demo_key0) = 8192) as Hlen by apply zlen_replicate.
  split.
  - constructor; [by constructor|done|done|done|].
    exists ∅. split; [|by intros k p Hp; rewrite lookup_empty in Hp].
    constructor; [|done|by split_and!]. simpl arrays. simpl capacity.
    destruct (map_impl_init_spec (deref (st_vec demo_fresh)) 8192 (demo_blank 8192))
      as (A & HA & HM); [done|done|apply zlen_replicate..|].
    unfold demo_empty. by rewrite HA.
  - intros i Hi. unfold addr. simpl in *. lia.
Qed.

Lemma demo_fresh_inv :
  bridge_inv false demo_bridge_config ∅ 2 8 3 demo_fresh
    (Table [] [0; 1; 2], replicate 3 (MkValue 0)) 0.
Proof.
  destruct demo_bridge_inv. constructor; try done.
  destruct demo_no_rules as [HI Ho]. destruct (ho_map _ _ _ _ _ HI) as (addrs & HM & Ha).
  exists addrs. split; [done|]. intros k p Hp. destruct (Ha k p Hp) as (i & Hi & _). simpl in Hi. lia.
Qed.

(** Decides a proposition by evaluation. *)
Ltac by_decide := apply (bool_decide_unpack _); vm_compute; exact I.

Lemma demo_file : rules_file 2 demo_fopen (bytes "rules") demo_rules demo_lines.
Proof.
  constructor; [done|done| | |].
  - apply Forall2_cons. split; [|apply Forall2_cons; split; [|constructor]].
    + exists (bytes "02:00:00:00:00:02"), [32], (bytes "1"), [32], (bytes "0").
      split_and!; try done; by_decide.
    + exists (bytes "0:0:0:0:0:aA"), [9; 32], (bytes "0"), [32], (bytes "-2").
      split_and!; try done; by_decide.
  - by_decide.
  - repeat constructor; unfold target_ok; simpl; lia.
Qed.

(** The frame of [demo_answer] goes to device 0 by the first rule, although its
    destination has not been learned. *)
Lemma bridge_init_installs_rules_witness :
  ∃ st' pk' st'',
    nf_init false demo_alloc_state demo_fopen false demo_bridge_config (bytes "rules") 2 (demo_mem []) =
      Some (Continue (true, Some st'), demo_mem []) ∧
    nf_process false demo_bridge_config st' 8 1 7 demo_answer = Some (0, pk', st'').
Proof.
  destruct (bridge_init_installs_rules false demo_bridge_config 2 8 3 demo_alloc_state demo_fopen
    (bytes "rules") 2 0 (demo_mem []) (demo_mem []) demo_fresh _ demo_rules demo_lines eq_refl
    demo_fresh_inv demo_no_rules demo_file ltac:(done)) as (st' & Hi & _ & Hf).
  destruct (Hf (MkStaticKey (EtherAddr 2 0 0 0 0 2) 1) 0 7 demo_answer 20) as (pk' & st'' & Hp);
    [by left|lia|lia|apply demo_answer_received|by apply (demo_bridge_apart demo_answer)
    |simpl; lia|reflexivity|].
  exists st', pk', st''. split; [exact Hi|exact Hp].
Defined.

(** The same frame and one that no rule is about. *)
Lemma static_bridge_follows_rules_witness :
  ∃ st', nf_init false demo_alloc_state demo_fopen false demo_bridge_config (bytes "rules") 2
      (demo_mem []) = Some (Continue (true, Some st'), demo_mem []) ∧
    (∃ pk', Static.nf_process false st' 8 1 demo_answer = Some (0, pk', st')) ∧
    (∃ pk', Static.nf_process false st' 8 0 demo_answer = Some (FLOOD_FRAME, pk', st')).
Proof.
  destruct (static_bridge_follows_rules false demo_bridge_config 2 8 3 demo_alloc_state demo_fopen
    (bytes "rules") 2 0 (demo_mem []) (demo_mem []) demo_fresh _ demo_rules demo_lines eq_refl
    demo_fresh_inv demo_no_rules demo_file ltac:(done)) as (st' & Hi & Hf).
  exists st'. split; [exact Hi|].
  destruct (Hf demo_answer 20 (EtherAddr 2 0 0 0 0 2) 1 demo_answer_received eq_refl) as (pk1 & H1 & _).
  destruct (Hf demo_answer 20 (EtherAddr 2 0 0 0 0 2) 0 demo_answer_received eq_refl) as (pk2 & H2 & _).
  split; [exists pk1; exact H1|exists pk2; exact H2].
Defined.

(** A line of two words and no newline. *)
Lemma static_rules_terminate_witness :
  ∃ n o, leaves (read_rule false 0) (Reader (bytes "02:0 x") 0 (st_map demo_fresh) (st_vec demo_fresh)) n o ∧
    (n ≤ 7)%nat ∧ o = Some (st_map demo_fresh, st_vec demo_fresh).
Proof.
  destruct (static_rules_terminate false 8192 (λ _, Some (bytes "02:0 x")) (bytes "rules") (bytes "02:0 x")
    (st_map demo_fresh) (st_vec demo_fresh) ltac:(done) eq_refl ltac:(vm_compute; reflexivity))
    as (n & o & Hl & Hn & _).
  exists n, o. split; [exact Hl|]. split; [exact Hn|]. symmetry. by eapply (leaves_iterate _ _ n _ 7 Hl).
Defined.

(** ** Limits of the reader *)

(** What the reader makes of a file, with an empty table of eight rules: the
    keys in use and the number of rules. *)
Definition demo_read (file : list Z) : option (outcome (list StaticKey * Z) unit) :=
  o ← read_static_ft_from_file false (λ _, Some file) (bytes "rules") (MkMap (demo_empty 8) 8 0)
        (MkVector 100000 8 8 (replicate 8 demo_key0)) 8;
  Some (match o with
        | Continue (map, keys) => Continue (take (Z.to_nat (map_size map)) (cells keys), map_size map)
        | Return _ => Return tt
        end).

(** A rule is read when its line ends, and fails the assertion when the file ends
    without a newline. *)
Example last_line_needs_newline :
  demo_read (bytes "02:00:00:00:00:02 1 0" ++ [10]) =
    Some (Continue ([MkStaticKey (EtherAddr 2 0 0 0 0 2) 1], 1)) ∧
  demo_read (bytes "02:00:00:00:00:02 1 0") = None.
Proof. vm_compute. split; reflexivity. Qed.

(** A line whose MAC address cannot be parsed is not skipped: the rule is added
    for the bytes that were in the cell. *)
Example invalid_mac_is_added :
  demo_read (bytes "zz 1 0" ++ [10]) = Some (Continue ([MkStaticKey (EtherAddr 0 0 0 0 0 0) 1], 1)).
Proof. vm_compute. reflexivity. Qed.
