(* ===== verification/Sketch.v ===== *)
(** * sketch.c

    The sketch of the connection limiter: rows of counters that are indexed by
    hashes of a key, with a map from hash values to counters and an index
    allocator per row.  The code leaves its loop over the rows after the first
    one when it counts, so that only the first row is ever used; the rows share
    the map, so that the other rows are read all the same. *)
From stdpp Require Import base list gmap numbers countable sets.
From Stdlib Require Import ZArith Lia.
From S2P Require Import Prelude.
From S2P Require Import Memory.
From S2P Require Import MapImpl.
From S2P Require Import Map.
From S2P Require Import Vector.
From S2P Require Import DChainImpl.
From S2P Require Import DChain.
From S2P Require Import Emap.
From S2P Require Import Expirator.
From S2P Require Import Ether.

Definition SKETCH_HASHES : Z := 8.

Definition SKETCH_SALTS_BANK_SIZE : Z := 64.

Definition SKETCH_SALTS : list Z := [
  0x9b78350f; 0x9bcf144c; 0x8ab29a3e; 0x34d48bf5; 0x78e47449; 0xd6e4af1d;
  0x32ed75e2; 0xb1eb5a08; 0x9cc7fbdf; 0x65b811ea; 0x41fd5ed9; 0x2e6a6782;
  0x3549661d; 0xbb211240; 0x78daa2ae; 0x8ce2d11f; 0x52911493; 0xc2497bd5;
  0x83c232dd; 0x3e413e9f; 0x8831d191; 0x6770ac67; 0xcd1c9141; 0xad35861a;
  0xb79cd83d; 0xce3ec91f; 0x360942d1; 0x905000fa; 0x28bb469a; 0xdb239a17;
  0x615cf3ae; 0xec9f7807; 0x271dcc3c; 0x47b98e44; 0x33ff4a71; 0x02a063f8;
  0xb051ebf2; 0x6f938d98; 0x2279abc3; 0xd55b01db; 0xaa99e301; 0x95d0587c;
  0xaee8684e; 0x24574971; 0x4b1e79a6; 0x4a646938; 0xa68d67f4; 0xb87839e6;
  0x8e3d388b; 0xed2af964; 0x541b83e3; 0xcb7fc8da; 0xe1140f8c; 0xe9724fd6;
  0x616a78fa; 0x610cd51c; 0x10f9173e; 0x8e180857; 0xa8f0b843; 0xd429a973;
  0xceee91e5; 0x1d4c6b18; 0x2a80e6df; 0x396f4d23
].

(** struct hash *)
Record hash := MkHash { hash_value : Z }.

#[export] Instance hash_eq_dec : EqDecision hash.
Proof. solve_decision. Defined.

#[export] Instance hash_countable : Countable hash.
Proof. by apply (inj_countable' hash_value MkHash); intros []. Defined.

Definition hash_eq (id1 id2 : hash) : bool := hash_value id1 =? hash_value id2.

Definition hash_allocate : hash := MkHash 0.

Definition hash_hash `{Crc32} (id : hash) : Z := crc32si 0 (hash_value id).

#[export] Instance hash_key_ops `{Crc32} : KeyOps hash := {|
  key_eq := hash_eq;
  key_hash := hash_hash
|}.

#[export] Instance hash_key_laws `{Crc32} : KeyLaws hash.
Proof.
  constructor; simpl.
  - intros [a] [b]. unfold hash_eq. simpl. rewrite Z.eqb_eq. split; [by intros ->|by intros [= ->]].
  - intros a. apply crc32si_range.
Qed.

(** struct internal_data *)
Record internal_data := Internal {
  hashes : list Z;
  present : list Z;
  buckets_indexes : list Z
}.

(** struct Sketch; [sk_addr] is its address. *)
Record Sketch := MkSketch {
  sk_addr : Z;
  clients : Map;
  keys : Vector hash;
  buckets : Vector Z;
  allocators : list DoubleChain;
  sk_capacity : Z;
  threshold : Z;
  internal : internal_data
}.

Definition set_internal (sk : Sketch) (d : internal_data) : Sketch :=
  MkSketch (sk_addr sk) (clients sk) (keys sk) (buckets sk) (allocators sk) (sk_capacity sk)
    (threshold sk) d.

Definition set_row (sk : Sketch) (o : emap_objs hash) (bs : Vector Z) (i : Z) : option Sketch :=
  al ← wr (allocators sk) i (o_chain o);
  Some (MkSketch (sk_addr sk) (o_map o) (o_vec o) bs al (sk_capacity sk) (threshold sk) (internal sk)).

(** The address of [internal.hashes[i]]. *)
Definition hashes_p (sk : Sketch) (i : Z) : Z := sk_addr sk + 104 + 4 * i.

(** Memory as the map sees it when it is given that address. *)
Definition hash_heap (sk : Sketch) (i h : Z) : heap hash :=
  with_local (deref (keys sk)) (hashes_p sk i) (MkHash h).

(** The position of a counter of row [i]. *)
Definition offseted (sk : Sketch) (index i : Z) : Z := s32 (u32 (index + u32 (sk_capacity sk * i))).

Definition find_next_power_of_2_bigger_than (d : Z) : option Z :=
  _ ← c_assert (d <=? 0x80000000);
  iterate 33 (λ n, if n <? d then Some (Continue (u32 (n * 2))) else Some (Return n)) 1.

Section sketch.
Context `{Crc32}.
Variable pow2 : bool.

(** The chains of the rows from [i] on; [None] when one cannot be allocated. *)
Fixpoint allocate_rows (capacity : Z) (n : nat) : M (option (list DoubleChain)) :=
  match n with
  | O => mret (Some [])
  | S n' =>
      '(ok, _, ch) ← dchain_allocate capacity NULL;
      match ch with
      | Some ch =>
          rest ← allocate_rows capacity n';
          mret (cons ch <$> rest)
      | None => mret None
      end
  end.

(** Returns the result, [*sketch_out] and the sketch behind it on success.  The
    counters are left as the allocator gave them, and so are the fields of
    [internal]. *)
Definition sketch_allocate (capacity thr sketch_out : Z) : M (Z * Z * option Sketch) :=
  _ ← lift (c_assert (SKETCH_HASHES <=? SKETCH_SALTS_BANK_SIZE));
  sketch_alloc ← malloc 200;
  if sketch_alloc =? NULL then mret (0, sketch_out, None) else
  total_sketch_capacity ← lift (find_next_power_of_2_bigger_than (u32 (capacity * SKETCH_HASHES)));
  '(_, _, m) ← map_allocate pow2 total_sketch_capacity NULL;
  match m with None => mret (0, sketch_alloc, None) | Some clients =>
  '(_, _, v) ← vector_allocate 4 total_sketch_capacity (λ _, hash_allocate) NULL;
  match v with None => mret (0, sketch_alloc, None) | Some keys =>
  fresh ← (λ μ, Some (λ p, u32 (junk μ p), μ)) : M (Z → Z);
  '(_, _, b) ← vector_allocate 4 total_sketch_capacity fresh NULL;
  match b with None => mret (0, sketch_alloc, None) | Some buckets =>
  rows ← allocate_rows capacity (Z.to_nat SKETCH_HASHES);
  match rows with None => mret (0, sketch_alloc, None) | Some allocators =>
  hs ← junk_array 4 (sketch_alloc + 104) SKETCH_HASHES;
  ps ← junk_array 4 (sketch_alloc + 136) SKETCH_HASHES;
  bi ← junk_array 4 (sketch_alloc + 168) SKETCH_HASHES;
  mret (1, sketch_alloc, Some (MkSketch sketch_alloc clients keys buckets allocators capacity thr
                                 (Internal hs ps bi)))
  end end end end.

(** [kh] is the hash of the key, the value of [sketch->kh(key)]. *)
Definition sketch_compute_hashes (sk : Sketch) (kh : Z) : option Sketch :=
  for_each 0 SKETCH_HASHES (λ i sk,
    let d := internal sk in
    bi ← wr (buckets_indexes d) i (-1);
    ps ← wr (present d) i 0;
    salt ← rd SKETCH_SALTS i;
    let h := crc32si 0 salt in
    let h := crc32si h kh in
    _ ← c_assert (negb (sk_capacity sk =? 0));
    hs ← wr (hashes d) i (h mod sk_capacity sk);
    Some (set_internal sk (Internal hs ps bi))) sk.

Definition sketch_refresh (sk : Sketch) (now : Z) : option Sketch :=
  for_each 0 SKETCH_HASHES (λ i sk,
    let d := internal sk in
    h ← rd (hashes d) i;
    index ← rd (buckets_indexes d) i;
    '(_, index) ← map_get pow2 (hash_heap sk i h) (clients sk) (hashes_p sk i) index;
    bi ← wr (buckets_indexes d) i index;
    let sk := set_internal sk (Internal (hashes d) (present d) bi) in
    chain ← rd (allocators sk) i;
    '(_, chain) ← dchain_rejuvenate_index chain index now;
    set_row sk (Objs (clients sk) (keys sk) chain) (buckets sk) i) sk.

(** Returns the result and the sketch. *)
Definition sketch_fetch (sk : Sketch) : option (Z * Sketch) :=
  '(sk, bucket_min_set, bucket_min) ← for_each 0 SKETCH_HASHES (λ i '(sk, bucket_min_set, bucket_min),
    let d := internal sk in
    h ← rd (hashes d) i;
    index ← rd (buckets_indexes d) i;
    '(found, index) ← map_get pow2 (hash_heap sk i h) (clients sk) (hashes_p sk i) index;
    ps ← wr (present d) i found;
    bi ← wr (buckets_indexes d) i index;
    let sk := set_internal sk (Internal (hashes d) ps bi) in
    if found =? 0 then Some (sk, bucket_min_set, bucket_min) else
    p ← vector_borrow (buckets sk) (offseted sk index i);
    value ← deref (buckets sk) p;
    if negb bucket_min_set || (value <? bucket_min)
    then Some (sk, true, value) else Some (sk, bucket_min_set, bucket_min)) (sk, false, 0);
  Some (Z.b2z (bucket_min_set && (threshold sk <? bucket_min)), sk).

(** The body of the loop of [sketch_touch_buckets]: every path returns. *)
Definition touch_row (now i : Z) (sk : Sketch) : option (outcome Sketch (Z * Sketch)) :=
  h ← rd (hashes (internal sk)) i;
  '(found, bucket_index) ← map_get pow2 (hash_heap sk i h) (clients sk) (hashes_p sk i) (-1);
  chain ← rd (allocators sk) i;
  if found =? 0 then
    '(allocated, chain, bucket_index) ← dchain_allocate_new_index chain bucket_index now;
    if allocated =? 0 then
      sk ← set_row sk (Objs (clients sk) (keys sk) chain) (buckets sk) i;
      Some (Return (0, sk))
    else
    let off := offseted sk bucket_index i in
    saved_hash ← vector_borrow (keys sk) off;
    saved_bucket ← vector_borrow (buckets sk) off;
    ks ← store (keys sk) saved_hash (MkHash h);
    bs ← store (buckets sk) saved_bucket 0;
    m ← map_put pow2 (with_local (deref ks) (hashes_p sk i) (MkHash h)) (clients sk) saved_hash
          bucket_index;
    sk ← set_row sk (Objs m (vector_return ks off saved_hash) chain)
           (vector_return bs off saved_bucket) i;
    Some (Return (1, sk))
  else
    '(_, chain) ← dchain_rejuvenate_index chain bucket_index now;
    let off := offseted sk bucket_index i in
    p ← vector_borrow (buckets sk) off;
    value ← deref (buckets sk) p;
    bs ← store (buckets sk) p (u32 (value + 1));
    sk ← set_row sk (Objs (clients sk) (keys sk) chain) (vector_return bs off p) i;
    Some (Return (1, sk)).

(** Falling off the end would leave the result undefined. *)
Definition sketch_touch_buckets (sk : Sketch) (now : Z) : option (Z * Sketch) :=
  o ← for_u32 0 SKETCH_HASHES (touch_row now) sk;
  match o with
  | Return r => Some r
  | Continue _ => None
  end.

(** The inner loop frees an index of the chain in each iteration, so one
    iteration per index and the last test are enough fuel. *)
Definition sketch_expire (sk : Sketch) (time : Z) : option Sketch :=
  '(sk, _) ← for_each 0 SKETCH_HASHES (λ i '(sk, index),
    let offset := s32 (u32 (i * sk_capacity sk)) in
    iterate (S (Z.to_nat (sk_capacity sk))) (λ '(sk, index),
      chain ← rd (allocators sk) i;
      '(expired, chain, index) ← dchain_expire_one_index chain index time;
      if expired =? 0 then
        sk ← set_row sk (Objs (clients sk) (keys sk) chain) (buckets sk) i;
        Some (Return (sk, index))
      else
      off ← int_chk (index + offset);
      key ← vector_borrow (keys sk) off;
      '(m, key) ← map_erase pow2 (deref (keys sk)) (clients sk) key key;
      sk ← set_row sk (Objs m (vector_return (keys sk) off key) chain) (buckets sk) i;
      Some (Continue (sk, index))) (sk, index)) (sk, -1);
  Some sk.

End sketch.

(** ** The contract

    The abstract sketch is the table of the hash values that are present, with
    the index of their counter, and the counters of all rows. *)

Section contract.
Context `{Crc32}.
Implicit Types (t : table hash) (bs : list Z).

(** The hash of a key in row [i]; [kh] is the hash of the key itself. *)
Definition sk_hash (cap kh i : Z) : hash :=
  MkHash (crc32si (crc32si 0 (default 0 (SKETCH_SALTS !! Z.to_nat i))) kh mod cap).

Definition sk_refresh t (cap kh now : Z) : table hash :=
  match t_lookup t (sk_hash cap kh 0) with
  | Some e => t_refresh t (e_idx e) now
  | None => t
  end.

(** The counters that a key reads: one for every row whose hash is present. *)
Definition sk_counter t bs (cap kh i : Z) : option Z :=
  e ← t_lookup t (sk_hash cap kh i);
  bs !! Z.to_nat (e_idx e + cap * i).

Definition sk_counters t bs (cap kh n : Z) : list Z :=
  omap (sk_counter t bs cap kh) (seqZ 0 n).

(** The key is over the threshold: it reads a counter, and all are above it. *)
Definition sk_over t bs (cap kh thr : Z) : bool :=
  let vs := sk_counters t bs cap kh SKETCH_HASHES in
  match vs with
  | [] => false
  | _ :: _ => forallb (Z.ltb thr) vs
  end.

Definition sk_touch t bs (cap kh now : Z) : table hash * list Z :=
  match t_lookup t (sk_hash cap kh 0) with
  | Some e =>
      (t_refresh t (e_idx e) now,
       <[Z.to_nat (e_idx e) := u32 (default 0 (bs !! Z.to_nat (e_idx e)) + 1)]> bs)
  | None =>
      match t_frees t with
      | [] => (t, bs)
      | i :: _ => (t_add t (sk_hash cap kh 0) now, <[Z.to_nat i := 0]> bs)
      end
  end.

End contract.

Section proofs.
Context `{Crc32}.
Variable pow2 : bool.
Implicit Types (sk : Sketch) (t : table hash) (bs : list Z).

(** The first row is coherent with the map and the key vector; the allocators
    of the other rows have never been used. *)
Record sketch_inv (cap thr : Z) sk t bs (now : Z) : Prop := SketchInv {
  si_cap : sk_capacity sk = cap;
  si_thr : threshold sk = thr;
  si_bound : 0 < cap ≤ 16384;
  si_rows : ∃ ch rest, allocators sk = ch :: rest ∧ length rest = 7%nat ∧
              emapp pow2 (Objs (clients sk) (keys sk) ch) cap t ∧
              Forall (λ ch, double_chainp ch cap (lru_init cap)) rest;
  si_sorted : t_sorted t now;
  si_buckets : vector_ok (buckets sk);
  si_cells : cells (buckets sk) = bs;
  si_room : 8 * cap ≤ vec_capacity (buckets sk);
  si_hashes : length (hashes (internal sk)) = 8%nat;
  si_present : length (present (internal sk)) = 8%nat;
  si_indexes : length (buckets_indexes (internal sk)) = 8%nat;
  si_outside : ∀ i, 0 ≤ i < 8 → outside (keys sk) (hashes_p sk i)
}.

(** The hashes of the key are computed; from row [i] on, no index is known. *)
Definition hashed (cap kh : Z) sk : Prop :=
  ∀ j, 0 ≤ j < 8 → rd (hashes (internal sk)) j = Some (hash_value (sk_hash cap kh j)).

Definition blank (i : Z) sk : Prop :=
  ∀ j, i ≤ j < 8 → 0 ≤ j → rd (buckets_indexes (internal sk)) j = Some (-1).

Lemma offseted_spec cap thr sk t bs now index i :
  sketch_inv cap thr sk t bs now → 0 ≤ index < cap → 0 ≤ i < 8 →
  offseted sk index i = index + cap * i.
Proof.
  intros HI Hx Hi. unfold offseted. rewrite (si_cap _ _ _ _ _ _ HI).
  pose proof (si_bound _ _ _ _ _ _ HI). rewrite (u32_small (cap * i)), u32_small by nia.
  apply s32_small. unfold INT_MIN, INT_MAX. nia.
Qed.

Lemma set_internal_inv cap thr sk t bs now d :
  sketch_inv cap thr sk t bs now → length (hashes d) = 8%nat → length (present d) = 8%nat →
  length (buckets_indexes d) = 8%nat → sketch_inv cap thr (set_internal sk d) t bs now.
Proof. intros [] ???. by constructor. Qed.

Lemma compute_hashes_spec cap thr sk t bs now kh :
  sketch_inv cap thr sk t bs now →
  ∃ sk', sketch_compute_hashes sk kh = Some sk' ∧ sketch_inv cap thr sk' t bs now ∧
    hashed cap kh sk' ∧ blank 0 sk'.
Proof.
  intros HI. unfold sketch_compute_hashes.
  match goal with |- context [for_each 0 _ ?f _] =>
    destruct (for_each_rule (λ i sk', sketch_inv cap thr sk' t bs now ∧
      (∀ j, 0 ≤ j < i → rd (hashes (internal sk')) j = Some (hash_value (sk_hash cap kh j))) ∧
      (∀ j, 0 ≤ j < i → rd (buckets_indexes (internal sk')) j = Some (-1)))
      0 SKETCH_HASHES f sk) as (sk' & -> & HI' & Hh & Hb) end;
    [done|done|split_and!; [done|lia..]| |].
  - intros i sk1 Hi (HI1 & Hh & Hb). unfold SKETCH_HASHES in Hi. destruct HI1 eqn:EI.
    rewrite !wr_Some by (unfold zlen; lia). cbn [mbind option_bind].
    destruct (rd_Some SKETCH_SALTS i) as [salt Hs]; [change (zlen SKETCH_SALTS) with 64; lia|]. rewrite Hs. cbn [mbind option_bind].
    destruct (Z.eqb_spec (sk_capacity sk1) 0); [lia|]. cbn [negb c_assert mbind option_bind].
    rewrite wr_Some by (unfold zlen; lia). cbn [mbind option_bind].
    eexists. split; [done|]. split; [apply set_internal_inv; simpl; rewrite ?length_insert; done|].
    simpl. split; intros j Hj; rewrite rd_insert by (unfold zlen; lia);
      (destruct (Z.eqb_spec i j) as [<-|]; [|by auto with lia]); [|done].
    rewrite rd_lookup in Hs by lia. unfold sk_hash. rewrite Hs. simpl. by subst.
  - exists sk'. split_and!; [done..|]. intros j Hj Hj0. auto with lia.
Qed.

Lemma sk_get cap thr sk t bs now i h v0 :
  sketch_inv cap thr sk t bs now → 0 ≤ i < 8 →
  map_get pow2 (hash_heap sk i h) (clients sk) (hashes_p sk i) v0 =
    Some (match t_lookup t (MkHash h) with Some e => (1, e_idx e) | None => (0, v0) end).
Proof.
  intros HI Hi. destruct (si_rows _ _ _ _ _ _ HI) as (ch & rest & _ & _ & HE & _).
  exact (emap_get _ _ _ _ HE (hashes_p sk i) (MkHash h) v0 (si_outside _ _ _ _ _ _ HI i Hi)).
Qed.

Lemma sk_index cap thr sk t bs now k e :
  sketch_inv cap thr sk t bs now → t_lookup t k = Some e → e ∈ ents t ∧ 0 ≤ e_idx e < cap.
Proof.
  intros HI He. destruct (si_rows _ _ _ _ _ _ HI) as (ch & rest & _ & _ & HE & _).
  apply t_lookup_Some in He as [He _]. split; [done|]. by apply (ent_range _ _ _ _ HE).
Qed.

(** The allocator of a row that is not the first one. *)
Lemma other_row cap thr sk t bs now i :
  sketch_inv cap thr sk t bs now → 1 ≤ i < 8 →
  ∃ ch, rd (allocators sk) i = Some ch ∧ double_chainp ch cap (lru_init cap).
Proof.
  intros HI Hi. destruct (si_rows _ _ _ _ _ _ HI) as (ch & rest & Hal & Hlen & _ & Hrest).
  rewrite Hal, rd_lookup by lia.
  destruct (lookup_lt_is_Some_2 rest (Z.to_nat (i - 1))) as [ch' Hch']; [lia|].
  exists ch'. split; [|exact (Forall_lookup_1 _ _ _ _ Hrest Hch')].
  by replace (Z.to_nat i) with (S (Z.to_nat (i - 1))) by lia.
Qed.

Lemma set_other_row cap thr sk t bs now i ch' :
  sketch_inv cap thr sk t bs now → 1 ≤ i < 8 → double_chainp ch' cap (lru_init cap) →
  ∃ sk', set_row sk (Objs (clients sk) (keys sk) ch') (buckets sk) i = Some sk' ∧
    sketch_inv cap thr sk' t bs now ∧ internal sk' = internal sk.
Proof.
  intros HI Hi HC. destruct (si_rows _ _ _ _ _ _ HI) as (ch & rest & Hal & Hlen & HE & Hrest).
  unfold set_row. rewrite Hal, wr_Some by (unfold zlen; simpl; lia). cbn [mbind option_bind].
  replace (Z.to_nat i) with (S (Z.to_nat (i - 1))) by lia. simpl.
  eexists. split; [done|]. split; [|done]. destruct HI. constructor; simpl; try done.
  eexists _, _. split; [done|]. split_and!; [by rewrite length_insert|done|].
  by apply Forall_insert.
Qed.

(** Replacing the first row by one that stands for [t']. *)
Lemma set_first_row cap thr sk t bs now t' m ks ch' bv now' :
  sketch_inv cap thr sk t bs now → emapp pow2 (Objs m ks ch') cap t' → t_sorted t' now' →
  vector_ok bv → vec_capacity bv = vec_capacity (buckets sk) →
  data ks = data (keys sk) → elem_size ks = elem_size (keys sk) →
  vec_capacity ks = vec_capacity (keys sk) →
  ∃ sk', set_row sk (Objs m ks ch') bv 0 = Some sk' ∧
    sketch_inv cap thr sk' t' (cells bv) now' ∧ internal sk' = internal sk.
Proof.
  intros HI HE' Hs Hv Hc Hd Hes Hvc.
  destruct (si_rows _ _ _ _ _ _ HI) as (ch & rest & Hal & Hlen & HE & Hrest).
  unfold set_row. rewrite Hal, wr_Some by (unfold zlen; simpl; lia). cbn [mbind option_bind].
  eexists. split; [done|]. split; [|done]. destruct HI. constructor; simpl; try done.
  - by eexists _, _.
  - by rewrite Hc.
  - intros i Hi j Hj. unfold hashes_p, addr in *. simpl. rewrite Hd, Hes.
    apply (si_outside0 i Hi j). simpl in Hj. lia.
Qed.

Lemma first_row cap thr sk t bs now :
  sketch_inv cap thr sk t bs now →
  ∃ ch, rd (allocators sk) 0 = Some ch ∧ emapp pow2 (Objs (clients sk) (keys sk) ch) cap t.
Proof.
  intros HI. destruct (si_rows _ _ _ _ _ _ HI) as (ch & rest & Hal & _ & HE & _).
  exists ch. by rewrite Hal.
Qed.

(** Rejuvenating what the map gives for another row changes nothing. *)
Lemma rejuvenate_unused ch cap (index time : Z) :
  double_chainp ch cap (lru_init cap) → index = -1 ∨ 0 ≤ index < cap →
  ∃ ch', dchain_rejuvenate_index ch index time = Some (0, ch') ∧
    double_chainp ch' cap (lru_init cap).
Proof.
  intros HC [->|Hr].
  - exists ch. split; [|done]. by eapply rejuvenate_none.
  - pose proof (rejuvenate_refines _ _ _ HC index time Hr) as Hx. unfold lru_rejuvenate in Hx.
    exact Hx.
Qed.

(** The body of the loop of [sketch_refresh] after the lookup. *)
Lemma refresh_first cap thr sk t bs now o :
  sketch_inv cap thr sk t bs now → (∀ e, o = Some e → e ∈ ents t) →
  ∃ ch ch' sk' r, rd (allocators sk) 0 = Some ch ∧
    dchain_rejuvenate_index ch (match o with Some e => e_idx e | None => -1 end) now = Some (r, ch') ∧
    set_row sk (Objs (clients sk) (keys sk) ch') (buckets sk) 0 = Some sk' ∧
    sketch_inv cap thr sk' (match o with Some e => t_refresh t (e_idx e) now | None => t end) bs now ∧
    internal sk' = internal sk.
Proof.
  intros HI Ho. destruct (first_row _ _ _ _ _ _ HI) as (ch & Hch & HE). exists ch.
  assert (∃ r ch', dchain_rejuvenate_index ch (match o with Some e => e_idx e | None => -1 end) now =
    Some (r, ch') ∧ emapp pow2 (Objs (clients sk) (keys sk) ch') cap
      (match o with Some e => t_refresh t (e_idx e) now | None => t end) ∧
    t_sorted (match o with Some e => t_refresh t (e_idx e) now | None => t end) now)
    as (r & ch' & Hr & HE' & Hs).
  { destruct o as [e|].
    - destruct (emap_refresh _ _ _ _ HE e now (Ho e eq_refl)) as (ch' & Hr & HE').
      exists 1, ch'. split_and!; [done..|].
      apply t_refresh_sorted; [apply HI|apply (ent_idx_NoDup _ _ _ _ HE)].
    - exists 0, ch. split_and!; [|done|apply HI]. exact (rejuvenate_none _ _ _ (em_chain _ _ _ _ HE) now). }
  destruct (set_first_row _ _ _ _ _ _ _ _ _ _ (buckets sk) now HI HE' Hs) as (sk' & Hsk & HI' & Hint);
    [apply HI|done..|].
  rewrite (si_cells _ _ _ _ _ _ HI) in HI'. exists ch', sk', r. done.
Qed.

Lemma refresh_other cap thr sk t bs now i index :
  sketch_inv cap thr sk t bs now → 1 ≤ i < 8 → index = -1 ∨ 0 ≤ index < cap →
  ∃ ch ch' sk' r, rd (allocators sk) i = Some ch ∧
    dchain_rejuvenate_index ch index now = Some (r, ch') ∧
    set_row sk (Objs (clients sk) (keys sk) ch') (buckets sk) i = Some sk' ∧
    sketch_inv cap thr sk' t bs now ∧ internal sk' = internal sk.
Proof.
  intros HI Hi Hidx. destruct (other_row _ _ _ _ _ _ i HI Hi) as (ch & Hch & HC).
  destruct (rejuvenate_unused ch cap index now HC Hidx) as (ch' & Hr & HC').
  destruct (set_other_row _ _ _ _ _ _ i ch' HI Hi HC') as (sk' & Hsk & HI' & Hint).
  by exists ch, ch', sk', 0.
Qed.

Lemma sketch_refresh_spec cap thr sk t bs now kh :
  sketch_inv cap thr sk t bs now → hashed cap kh sk → blank 0 sk →
  ∃ sk', sketch_refresh pow2 sk now = Some sk' ∧
    sketch_inv cap thr sk' (sk_refresh t cap kh now) bs now.
Proof.
  intros HI Hh Hb. unfold sketch_refresh. set (t' := sk_refresh t cap kh now).
  match goal with |- context [for_each 0 _ ?f _] =>
    destruct (for_each_rule (λ i sk', sketch_inv cap thr sk' (if i =? 0 then t else t') bs now ∧
      hashed cap kh sk' ∧ blank i sk') 0 SKETCH_HASHES f sk) as (sk' & -> & HI' & _) end;
    [done|done|done| |by eauto].
  intros i sk1 Hi (HI1 & Hh1 & Hb1). unfold SKETCH_HASHES in Hi.
  rewrite (Hh1 i), (Hb1 i) by lia. cbn [mbind option_bind].
  rewrite (sk_get _ _ _ _ _ _ i _ (-1) HI1) by lia. change (MkHash _) with (sk_hash cap kh i).
  destruct (t_lookup _ (sk_hash cap kh i)) as [e|] eqn:Eo; cbn [mbind option_bind];
    (rewrite wr_Some by (pose proof (si_indexes _ _ _ _ _ _ HI1); unfold zlen; lia));
    cbn [mbind option_bind].
  all: set (sk2 := set_internal sk1 _).
  all: assert (sketch_inv cap thr sk2 (if i =? 0 then t else t') bs now) as HI2
    by (apply set_internal_inv; simpl; rewrite ?length_insert; (done || apply HI1)).
  all: assert (hashed cap kh sk2 ∧ blank (i + 1) sk2) as [Hh2 Hb2]
    by (split; [exact Hh1|]; intros j Hj Hj0; simpl; rewrite rd_insert_ne by lia; apply Hb1; lia).
  all: replace (i + 1 =? 0) with false by (symmetry; apply Z.eqb_neq; lia).
  all: destruct (Z.eqb_spec i 0) as [->|Hne].
  - destruct (refresh_first _ _ _ _ _ _ (Some e) HI2) as (ch & ch' & sk3 & r & -> & Hr & Hs & HI3 & Hint).
    { intros e' [= <-]. apply (sk_index _ _ _ _ _ _ _ _ HI1 Eo). }
    osteps. eexists. split; [done|]. unfold hashed, blank in *. rewrite Hint.
    unfold t', sk_refresh. rewrite Eo. done.
  - destruct (refresh_other _ _ _ _ _ now i (e_idx e) HI2) as (ch & ch' & sk3 & r & -> & Hr & Hs & HI3 & Hint).
    { lia. } { right. apply (sk_index _ _ _ _ _ _ _ _ HI1 Eo). }
    osteps. eexists. split; [done|]. unfold hashed, blank in *. rewrite Hint. done.
  - destruct (refresh_first _ _ _ _ _ _ None HI2) as (ch & ch' & sk3 & r & -> & Hr & Hs & HI3 & Hint); [done|].
    osteps. eexists. split; [done|]. unfold hashed, blank in *. rewrite Hint.
    unfold t', sk_refresh. rewrite Eo. done.
  - destruct (refresh_other _ _ _ _ _ now i (-1) HI2) as (ch & ch' & sk3 & r & -> & Hr & Hs & HI3 & Hint).
    { lia. } { by left. }
    osteps. eexists. split; [done|]. unfold hashed, blank in *. rewrite Hint. done.
Qed.

(** The minimum of the counters read so far, and whether there is one. *)
Definition min_step (acc : bool * Z) (v : Z) : bool * Z :=
  if negb acc.1 || (v <? acc.2) then (true, v) else acc.

Definition minimum (vs : list Z) : bool * Z := fold_left min_step vs (false, 0).

Lemma minimum_over thr vs :
  (minimum vs).1 && (thr <? (minimum vs).2) =
  match vs with [] => false | _ => forallb (Z.ltb thr) vs end.
Proof.
  assert (∀ vs m, (fold_left min_step vs (true, m)).1 && (thr <? (fold_left min_step vs (true, m)).2) =
    (thr <? m) && forallb (Z.ltb thr) vs) as Hgen.
  { clear. intros vs. induction vs as [|v vs IH]; intros m; simpl; [by rewrite andb_true_r|].
    unfold min_step at 2 4. simpl. destruct (Z.ltb_spec v m); rewrite IH;
      destruct (Z.ltb_spec thr v), (Z.ltb_spec thr m); simpl; lia || done. }
  destruct vs as [|v vs]; [done|]. exact (Hgen vs v).
Qed.

Lemma counters_snoc t bs cap kh i :
  0 ≤ i → sk_counters t bs cap kh (i + 1) =
  sk_counters t bs cap kh i ++ match sk_counter t bs cap kh i with Some v => [v] | None => [] end.
Proof.
  intros Hi. unfold sk_counters. rewrite seqZ_app by lia. rewrite omap_app. done.
Qed.

(** The counter at an index of a row. *)
Lemma read_counter cap thr sk t bs now index i :
  sketch_inv cap thr sk t bs now → 0 ≤ index < cap → 0 ≤ i < 8 →
  ∃ p v, vector_borrow (buckets sk) (offseted sk index i) = Some p ∧
    deref (buckets sk) p = Some v ∧ bs !! Z.to_nat (index + cap * i) = Some v ∧
    p = addr (buckets sk) (index + cap * i) ∧ 0 ≤ index + cap * i < vec_capacity (buckets sk).
Proof.
  intros HI Hx Hi. rewrite (offseted_spec _ _ _ _ _ _ _ _ HI Hx Hi).
  pose proof (si_room _ _ _ _ _ _ HI). pose proof (si_buckets _ _ _ _ _ _ HI) as Hv.
  assert (0 ≤ index + cap * i < vec_capacity (buckets sk)) as Hr by nia.
  rewrite vector_borrow_spec by done.
  destruct (rd_Some (cells (buckets sk)) (index + cap * i)) as [v Hv']; [by rewrite (vo_len _ Hv)|].
  exists (addr (buckets sk) (index + cap * i)), v. rewrite deref_addr by done.
  split_and!; [done..| |done|lia|lia].
  rewrite <- (si_cells _ _ _ _ _ _ HI). by rewrite rd_lookup in Hv' by lia.
Qed.

Lemma sketch_fetch_spec cap thr sk t bs now kh :
  sketch_inv cap thr sk t bs now → hashed cap kh sk →
  ∃ sk', sketch_fetch pow2 sk = Some (Z.b2z (sk_over t bs cap kh thr), sk') ∧
    sketch_inv cap thr sk' t bs now ∧ hashed cap kh sk'.
Proof.
  intros HI Hh. unfold sketch_fetch.
  match goal with |- context [for_each 0 _ ?f _] =>
    destruct (for_each_rule (S := Sketch * bool * Z) (λ i '(sk', set, m),
      sketch_inv cap thr sk' t bs now ∧ hashed cap kh sk' ∧
      (set, m) = minimum (sk_counters t bs cap kh i)) 0 SKETCH_HASHES f (sk, false, 0))
      as ([[sk' set] m] & -> & HI' & Hh' & Hm) end;
    [done|done|by split_and!| |].
  2: { cbn [mbind option_bind]. exists sk'. split; [|done].
    pose proof (minimum_over thr (sk_counters t bs cap kh SKETCH_HASHES)) as Ho. rewrite <- Hm in Ho.
    cbn [fst snd] in Ho. rewrite (si_thr _ _ _ _ _ _ HI'), Ho. reflexivity. }
  intros i [[sk1 set] m] Hi (HI1 & Hh1 & Hm). unfold SKETCH_HASHES in Hi.
  rewrite (Hh1 i) by lia. cbn [mbind option_bind].
  pose proof (si_indexes _ _ _ _ _ _ HI1) as Hl1. pose proof (si_present _ _ _ _ _ _ HI1) as Hl2.
  destruct (rd_Some (buckets_indexes (internal sk1)) i) as [idx0 ->]; [unfold zlen; lia|].
  cbn [mbind option_bind].
  rewrite (sk_get _ _ _ _ _ _ i _ idx0 HI1) by lia. change (MkHash _) with (sk_hash cap kh i).
  assert (sk_counters t bs cap kh (i + 1) = sk_counters t bs cap kh i ++
    match sk_counter t bs cap kh i with Some v => [v] | None => [] end) as Hsnoc
    by (apply counters_snoc; lia).
  unfold sk_counter in Hsnoc. unfold minimum in Hm |- *.
  destruct (t_lookup t (sk_hash cap kh i)) as [e|] eqn:Eo; cbn [mbind option_bind] in Hsnoc |- *;
    rewrite !wr_Some by (unfold zlen; lia); cbn [mbind option_bind].
  all: set (sk2 := set_internal sk1 _).
  all: assert (sketch_inv cap thr sk2 t bs now) as HI2
    by (apply set_internal_inv; simpl; rewrite ?length_insert; (done || apply HI1)).
  - destruct (sk_index _ _ _ _ _ _ _ _ HI1 Eo) as [_ Hx].
    destruct (read_counter _ _ _ _ _ _ (e_idx e) i HI2 Hx) as (p & v & -> & Hd & Hv & _); [lia|].
    osteps. rewrite Hv in Hsnoc. rewrite Hsnoc, fold_left_app, <- Hm. cbn [fold_left].
    unfold min_step. cbn [fst snd].
    destruct (negb set || (v <? m)); eexists; (split; [done|]); done.
  - eexists. split; [done|]. rewrite Hsnoc, app_nil_r. done.
Qed.

Lemma sketch_touch_spec cap thr sk t bs now kh :
  sketch_inv cap thr sk t bs now → hashed cap kh sk →
  ∃ r sk', sketch_touch_buckets pow2 sk now = Some (r, sk') ∧
    sketch_inv cap thr sk' (sk_touch t bs cap kh now).1 (sk_touch t bs cap kh now).2 now.
Proof.
  intros HI Hh. unfold sketch_touch_buckets.
  cut (∃ r sk', touch_row pow2 now 0 sk = Some (Return (r, sk')) ∧
    sketch_inv cap thr sk' (sk_touch t bs cap kh now).1 (sk_touch t bs cap kh now).2 now).
  { intros (r & sk' & Ht & HI'). exists r, sk'. unfold for_u32. cbn [for_loop].
    destruct (Z.ltb_spec 0 SKETCH_HASHES); [|done]. rewrite Ht. done. }
  unfold touch_row. rewrite (Hh 0) by lia. cbn [mbind option_bind].
  rewrite (sk_get _ _ _ _ _ _ 0 _ (-1) HI) by lia. change (MkHash _) with (sk_hash cap kh 0).
  destruct (first_row _ _ _ _ _ _ HI) as (ch & -> & HE). unfold sk_touch.
  pose proof (si_buckets _ _ _ _ _ _ HI) as Hbv.
  destruct (t_lookup t (sk_hash cap kh 0)) as [e|] eqn:Eo; cbn [mbind option_bind].
  - destruct (sk_index _ _ _ _ _ _ _ _ HI Eo) as [He Hx].
    destruct (emap_refresh _ _ _ _ HE e now He) as (ch' & Hr & HE'). cbn [o_chain o_map o_vec] in *.
    destruct (Z.eqb_spec 1 0); [done|]. osteps.
    destruct (read_counter _ _ _ _ _ _ (e_idx e) 0 HI Hx) as (p & v & -> & Hd & Hv & -> & Hrange); [lia|].
    osteps. rewrite store_addr by done. osteps. unfold vector_return.
    rewrite Z.mul_0_r, Z.add_0_r in *.
    destruct (set_first_row _ _ _ _ _ _ _ _ _ _ (vset (buckets sk) (e_idx e) (u32 (v + 1))) now HI HE')
      as (sk' & -> & HI' & _); [|by apply vset_ok|done..|].
    { apply t_refresh_sorted; [apply HI|apply (ent_idx_NoDup _ _ _ _ HE)]. }
    eexists _, _. split; [done|]. rewrite Hv. simpl. simpl in HI'.
    rewrite (si_cells _ _ _ _ _ _ HI) in HI'. done.
  - rewrite Z.eqb_refl. destruct (t_frees t) as [|i fs] eqn:Hfr.
    + destruct (emap_full _ _ _ _ HE (-1) now) as (ch' & Hal & HE'); [unfold t_full; by rewrite Hfr|].
      cbn [o_chain o_map o_vec] in *. osteps.
      destruct (set_first_row _ _ _ _ _ _ _ _ _ _ (buckets sk) now HI HE') as (sk' & -> & HI' & _);
        [apply HI|done..|].
      rewrite (si_cells _ _ _ _ _ _ HI) in HI'. eexists _, _. done.
    + destruct (emap_add _ _ _ _ HE (sk_hash cap kh 0) (-1) i fs now Eo Hfr)
        as (ch' & Hal & Hi & Hb & Hst & Hput). cbn [o_chain o_map o_vec] in *. osteps.
      destruct (Z.eqb_spec 1 0); [done|].
      rewrite (offseted_spec _ _ _ _ _ _ i 0 HI Hi), Z.mul_0_r, Z.add_0_r by lia. osteps.
      pose proof (si_room _ _ _ _ _ _ HI).
      rewrite vector_borrow_spec by (done || lia). osteps. rewrite store_addr by (done || lia). osteps.
      destruct (Hput (with_local (deref (vset (keys sk) i (sk_hash cap kh 0))) (hashes_p sk 0)
        (sk_hash cap kh 0))) as (M' & Hm & HE').
      { apply sees_local. apply (si_outside _ _ _ _ _ _ HI 0). lia. }
      change (MkHash (hash_value (sk_hash cap kh 0))) with (sk_hash cap kh 0). osteps.
      unfold vector_return.
      destruct (set_first_row _ _ _ _ _ _ _ _ _ _ (vset (buckets sk) i 0) now HI HE')
        as (sk' & -> & HI' & _); [apply t_add_sorted, HI|by apply vset_ok|done..|].
      eexists _, _. split; [done|]. simpl in HI' |- *. rewrite (si_cells _ _ _ _ _ _ HI) in HI'. done.
Qed.

(** The inner loop of [sketch_expire]. *)
Definition expire_step (time i offset : Z) : Sketch * Z → option (outcome (Sketch * Z) (Sketch * Z)) :=
  λ '(sk, index),
    chain ← rd (allocators sk) i;
    '(expired, chain, index) ← dchain_expire_one_index chain index time;
    if expired =? 0 then
      sk ← set_row sk (Objs (clients sk) (keys sk) chain) (buckets sk) i;
      Some (Return (sk, index))
    else
    off ← int_chk (index + offset);
    key ← vector_borrow (keys sk) off;
    '(m, key) ← map_erase pow2 (deref (keys sk)) (clients sk) key key;
    sk ← set_row sk (Objs m (vector_return (keys sk) off key) chain) (buckets sk) i;
    Some (Continue (sk, index)).

Lemma expire_step_stop cap thr bs now time t sk index :
  sketch_inv cap thr sk t bs now → (∀ e, head (ents t) = Some e → time ≤ e_time e) →
  ∃ sk' index', expire_step time 0 0 (sk, index) = Some (Return (sk', index')) ∧
    sketch_inv cap thr sk' t bs now.
Proof.
  intros HI Hhd. unfold expire_step. destruct (first_row _ _ _ _ _ _ HI) as (ch & -> & HE).
  destruct (expire_stop _ _ _ _ index time HE Hhd) as (ch' & index' & Hd & HE' & _).
  cbn [o_chain o_vec o_map] in *. osteps. rewrite Z.eqb_refl.
  destruct (set_first_row _ _ _ _ _ _ _ _ _ _ (buckets sk) now HI HE') as (sk' & -> & HI' & _);
    [apply HI|apply HI|done..|].
  rewrite (si_cells _ _ _ _ _ _ HI) in HI'. by eexists _, _.
Qed.

Lemma expire_step_go cap thr bs now time e es fs sk index :
  sketch_inv cap thr sk (Table (e :: es) fs) bs now → e_time e < time →
  ∃ sk', expire_step time 0 0 (sk, index) = Some (Continue (sk', e_idx e)) ∧
    sketch_inv cap thr sk' (Table es (e_idx e :: fs)) bs now.
Proof.
  intros HI Ht. unfold expire_step. destruct (first_row _ _ _ _ _ _ HI) as (ch & -> & HE).
  destruct (expire_head _ _ _ _ _ _ index HE eq_refl time Ht) as (ch' & M' & Hd & Hb & Hm & HE1).
  cbn [o_chain o_vec o_map] in *. osteps. destruct (Z.eqb_spec 1 0); [done|].
  assert (0 ≤ e_idx e < cap) by (apply (ent_range _ _ _ _ HE); by left).
  pose proof (si_bound _ _ _ _ _ _ HI).
  rewrite Z.add_0_r, int_chk_small by (unfold INT_MIN, INT_MAX; lia). osteps. unfold vector_return.
  destruct (set_first_row _ _ _ _ _ _ _ _ _ _ (buckets sk) now HI HE1) as (sk' & -> & HI' & _);
    [|apply HI|done..|].
  { destruct (si_sorted _ _ _ _ _ _ HI) as [Hs Hn]. simpl in *.
    split; [by inversion Hs|]. intros e' He'. apply Hn. by right. }
  rewrite (si_cells _ _ _ _ _ _ HI) in HI'. by eexists.
Qed.

Lemma expire_first_row cap thr bs now time es fs sk index fuel :
  sketch_inv cap thr sk (Table es fs) bs now → (length es < fuel)%nat →
  ∃ sk' index', iterate fuel (expire_step time 0 0) (sk, index) = Some (sk', index') ∧
    sketch_inv cap thr sk' (drop_old es fs time) bs now.
Proof.
  revert fs sk index fuel. induction es as [|e es IH]; intros fs sk index fuel HI Hf;
    (destruct fuel as [|fuel]; [simpl in Hf; lia|]); cbn [iterate drop_old].
  - destruct (expire_step_stop _ _ _ _ time _ _ index HI) as (sk' & index' & -> & HI'); [done|].
    by eexists _, _.
  - destruct (Z.ltb_spec (e_time e) time) as [Ht|Ht].
    + destruct (expire_step_go _ _ _ _ time _ _ _ _ index HI Ht) as (sk' & -> & HI').
      cbn [mbind option_bind]. apply IH; [done|simpl in Hf; lia].
    + destruct (expire_step_stop _ _ _ _ time _ _ index HI) as (sk' & index' & -> & HI').
      { by intros e' [= <-]. }
      by eexists _, _.
Qed.

Lemma expire_other_row cap thr sk t bs now time i offset index fuel :
  sketch_inv cap thr sk t bs now → 1 ≤ i < 8 →
  ∃ sk' index', iterate (S fuel) (expire_step time i offset) (sk, index) = Some (sk', index') ∧
    sketch_inv cap thr sk' t bs now.
Proof.
  intros HI Hi. cbn [iterate]. unfold expire_step.
  destruct (other_row _ _ _ _ _ _ i HI Hi) as (ch & -> & HC).
  pose proof (expire_one_refines _ _ _ HC index time) as Hx. simpl in Hx.
  destruct Hx as (ch' & Hd & HC'). osteps. rewrite Z.eqb_refl.
  destruct (set_other_row _ _ _ _ _ _ i ch' HI Hi HC') as (sk' & -> & HI' & _). by eexists _, _.
Qed.

Lemma sketch_expire_spec cap thr sk t bs now time :
  sketch_inv cap thr sk t bs now →
  ∃ sk', sketch_expire pow2 sk time = Some sk' ∧
    sketch_inv cap thr sk' (t_expire t time) bs now.
Proof.
  intros HI. unfold sketch_expire.
  match goal with |- context [for_each 0 _ ?f _] =>
    destruct (for_each_rule (S := Sketch * Z) (λ i '(sk', _),
      sketch_inv cap thr sk' (if i =? 0 then t else t_expire t time) bs now)
      0 SKETCH_HASHES f (sk, -1)) as ([sk' index'] & -> & HI') end; [done|done|done| |by eauto].
  intros i [sk1 index] Hi HI1. unfold SKETCH_HASHES in Hi.
  fold (expire_step time i (s32 (u32 (i * sk_capacity sk1)))).
  replace (i + 1 =? 0) with false by (symmetry; apply Z.eqb_neq; lia).
  destruct (Z.eqb_spec i 0) as [->|Hne].
  - change (s32 (u32 (0 * sk_capacity sk1))) with 0. destruct t as [es fs].
    destruct (first_row _ _ _ _ _ _ HI1) as (ch & _ & HE). pose proof (ents_length _ _ _ _ HE) as Hl.
    destruct (expire_first_row _ _ _ _ time _ _ _ index (S (Z.to_nat (sk_capacity sk1))) HI1)
      as (sk2 & index2 & Hit & HI2).
    { rewrite (si_cap _ _ _ _ _ _ HI1). simpl in Hl. lia. }
    exists (sk2, index2). split; [exact Hit|done].
  - destruct (expire_other_row _ _ _ _ _ _ time i (s32 (u32 (i * sk_capacity sk1))) index
      (Z.to_nat (sk_capacity sk1)) HI1) as (sk2 & index2 & Hit & HI2); [lia|].
    exists (sk2, index2). split; [exact Hit|done].
Qed.

End proofs.

(** ** Allocation *)

(** The loop ends, with the least power of two that is not below [d]. *)
Lemma next_power_spec d :
  0 ≤ d ≤ 2 ^ 31 →
  ∃ k, find_next_power_of_2_bigger_than d = Some (2 ^ k) ∧ 0 ≤ k ≤ 31 ∧ d ≤ 2 ^ k ∧
    ∀ j, 0 ≤ j → d ≤ 2 ^ j → k ≤ j.
Proof.
  intros Hd. unfold find_next_power_of_2_bigger_than.
  destruct (Z.leb_spec d 0x80000000); [|lia]. cbn [c_assert mbind option_bind].
  destruct (iterate_rule (S := Z) (R := Z)
    (λ n, ∃ k, n = 2 ^ k ∧ 0 ≤ k ≤ 31 ∧ ∀ j, 0 ≤ j → d ≤ 2 ^ j → k ≤ j)
    (λ n, ∃ k, n = 2 ^ k ∧ 0 ≤ k ≤ 31 ∧ d ≤ 2 ^ k ∧ ∀ j, 0 ≤ j → d ≤ 2 ^ j → k ≤ j)
    (λ n, Z.to_nat (31 - Z.log2 n))
    (λ n, if n <? d then Some (Continue (u32 (n * 2))) else Some (Return n)) 33 1)
    as (n & -> & k & -> & Hk & Hdk & Hmin).
  - intros n (k & -> & Hk & Hmin). destruct (Z.ltb_spec (2 ^ k) d) as [Hlt|Hge].
    + assert (k < 31) by (apply (Z.pow_lt_mono_r_iff 2); lia).
      eexists. split; [done|]. simpl.
      replace (2 ^ k * 2) with (2 ^ (k + 1)) by (rewrite Z.pow_add_r by lia; lia).
      rewrite u32_small by (split; [lia|apply Z.pow_lt_mono_r; lia]).
      rewrite !Z.log2_pow2 by lia. split; [|lia]. exists (k + 1). split_and!; [done|lia|lia|].
      intros j Hj Hdj. pose proof (Hmin j Hj Hdj).
      destruct (Z.eq_dec j k) as [->|]; lia.
    + eexists. split; [done|]. by exists k.
  - exists 0. split_and!; [done|lia|lia|]. intros; lia.
  - simpl. lia.
  - by exists k.
Qed.

Section allocation.
Context `{Crc32}.
Variable pow2 : bool.

Lemma allocate_rows_spec cap n μ :
  mem_ok μ → 0 < cap ≤ 16384 →
  ∃ rows μ', allocate_rows cap n μ = Some (rows, μ') ∧ mem_ok μ' ∧ brk μ ≤ brk μ' ∧
    ∀ l, rows = Some l → length l = n ∧ Forall (λ ch, double_chainp ch cap (lru_init cap)) l.
Proof.
  revert μ. induction n as [|n IH]; intros μ Hok Hcap.
  { eexists _, μ. split; [done|]. split_and!; [done|lia|]. intros l [= <-]. by split. }
  cbn [allocate_rows].
  destruct (dchain_allocate_spec cap NULL μ Hok) as (res & μ1 & Ha & Hres); [unfold IRANG_LIMIT; lia|].
  pose proof (grows_ok _ _ _ _ (dchain_allocate_grows cap NULL) Ha Hok) as Hok1.
  pose proof (dchain_allocate_grows cap NULL _ _ _ Ha) as [Hb1 _].
  mstep. destruct Hres as [[-> _]|(out & ch & b1 & b2 & -> & _ & _ & HC)].
  { eexists _, μ1. split; [done|]. by split_and!. }
  destruct (IH μ1 Hok1 Hcap) as (rows & μ2 & Hr & Hok2 & Hb2 & Hl). mstep.
  eexists _, μ2. split; [done|]. split_and!; [done|lia|].
  intros l Hl'. destruct rows as [l0|]; [|done]. injection Hl' as <-.
  destruct (Hl l0 eq_refl) as [Hn Hf]. split; [simpl; lia|by constructor].
Qed.

(** An allocation has defined behaviour; when it succeeds, the sketch is empty
    and lies below the blocks that were allocated after it. *)
Lemma sketch_allocate_spec cap thr out μ :
  mem_ok μ → 0 < cap ≤ 16384 →
  ∃ r out' o μ', sketch_allocate pow2 cap thr out μ = Some ((r, out', o), μ') ∧ mem_ok μ' ∧
    (r = 0 ∧ o = None ∨
     ∃ sk bs, r = 1 ∧ o = Some sk ∧
       sketch_inv pow2 cap thr sk (Table [] (seqZ 0 cap)) bs 0).
Proof.
  intros Hok Hcap. unfold sketch_allocate. erewrite M_bind_Some by reflexivity. cbn beta.
  mcase; [rewrite Z.eqb_refl; eexists _, _, _, _; split; [done|]; by auto|].
  rewrite not_null by done.
  destruct (next_power_spec (cap * 8)) as (k & Hk & Hk31 & Hge & Hmin); [lia|].
  assert (2 ^ k ≤ 2 ^ 17) as Hle by (apply Z.pow_le_mono_r; [lia|apply Hmin; lia]).
  change (cap * SKETCH_HASHES) with (cap * 8). rewrite (u32_small (cap * 8)) by lia. mlift Hk.
  destruct (map_allocate_spec (K := hash) pow2 (2 ^ k) NULL μ0) as (rm & μ1 & Ha & Hres);
    [done|lia|unfold INT_MAX; lia|].
  pose proof (grows_ok _ _ _ _ (map_allocate_grows pow2 (2 ^ k) NULL) Ha Hok0) as Hok1.
  pose proof (map_allocate_grows pow2 (2 ^ k) NULL _ _ _ Ha) as [Hb1 _]. mstep.
  destruct Hres as [[-> _]|(o1 & M & ? & ? & ? & ? & ? & -> & _ & HMc & _ & HM)];
    [eexists _, _, _, _; split; [done|]; by auto|].
  destruct (vector_allocate_spec (λ _, hash_allocate) 4 (2 ^ k) NULL μ1 Hok1) as (rv & μ2 & Hv & Hok2 & Hres);
    [lia|unfold VECTOR_CAPACITY_UPPER_LIMIT; lia|]. mstep.
  destruct Hres as [[-> _]|(o2 & ks & -> & _ & _ & Hdata & Hks & Hes & Hkc & _)];
    [eexists _, _, _, _; split; [done|]; by auto|].
  mpure.
  destruct (vector_allocate_spec (λ q, u32 (junk μ2 q)) 4 (2 ^ k) NULL μ2 Hok2)
    as (rb & μ3 & Hbv & Hok3 & Hres); [lia|unfold VECTOR_CAPACITY_UPPER_LIMIT; lia|]. mstep.
  destruct Hres as [[-> _]|(o3 & bv & -> & _ & _ & _ & Hbok & _ & Hbc & _)];
    [eexists _, _, _, _; split; [done|]; by auto|].
  destruct (allocate_rows_spec cap 8 μ3 Hok3 Hcap) as (rows & μ4 & Hr & Hok4 & _ & Hl).
  change (Z.to_nat SKETCH_HASHES) with 8%nat. mstep.
  destruct rows as [l|]; [|eexists _, _, _, _; split; [done|]; by auto].
  destruct (Hl l eq_refl) as [Hlen Hrows]. destruct l as [|ch rest]; [done|].
  apply Forall_cons in Hrows as [HC Hrest].
  do 3 mpure. eexists _, _, _, _. split; [done|]. split; [done|]. right.
  eexists _, (cells bv). split; [done|]. split; [done|].
  constructor; simpl; try done.
  - exists ch, rest. simpl in Hlen. split_and!; [done|lia| |done].
    apply emap_fresh; [done|lia|done|lia|done].
  - split; [constructor|]. intros e He. by apply elem_of_nil in He.
  - lia.
  - intros i Hi j Hj. unfold hashes_p, addr. simpl. nia.
Qed.

End allocation.
