(* ===== verification/Cl.v ===== *)
(** * vigcl: the connection limiter

    cl_main.c, cl_state.c, flow.c and client.c: connections that arrive on the
    external device are remembered by their flow; a new one is refused when the
    sketch has counted too many connections between its two addresses. *)
From stdpp Require Import base list gmap numbers countable sets.
From Stdlib Require Import ZArith Lia.
From S2P Require Import Prelude.
From S2P Require Import Memory.
From S2P Require Import MapImpl.
From S2P Require Import Map.
From S2P Require Import Vector.
From S2P Require Import DChainImpl.
From S2P Require Import DChain.
From S2P Require Import Emap.
From S2P Require Import Expirator.
From S2P Require Import Packet.
From S2P Require Import Ether.
From S2P Require Import Sketch.

(** struct flow *)
Record flow := MkFlow {
  src_port : Z;
  dst_port : Z;
  src_ip : Z;
  dst_ip : Z;
  protocol : Z
}.

#[export] Instance cl_flow_eq_dec : EqDecision flow.
Proof. solve_decision. Defined.

#[export] Instance cl_flow_countable : Countable flow.
Proof.
  apply (inj_countable' (λ f, (src_port f, dst_port f, src_ip f, dst_ip f, protocol f))
    (λ '(a, b, c, d, e), MkFlow a b c d e)).
  by intros [].
Defined.

Definition flow_eq (id1 id2 : flow) : bool :=
  (src_port id1 =? src_port id2) && (dst_port id1 =? dst_port id2) &&
  (src_ip id1 =? src_ip id2) && (dst_ip id1 =? dst_ip id2) && (protocol id1 =? protocol id2).

Definition flow_allocate : flow := MkFlow 0 0 0 0 0.

Definition flow_hash `{Crc32} (id : flow) : Z :=
  let hash := 0 in
  let hash := crc32si hash (src_port id) in
  let hash := crc32si hash (dst_port id) in
  let hash := crc32si hash (src_ip id) in
  let hash := crc32si hash (dst_ip id) in
  crc32si hash (protocol id).

#[export] Instance flow_key_ops `{Crc32} : KeyOps flow := {|
  key_eq := flow_eq;
  key_hash := flow_hash
|}.

#[export] Instance flow_key_laws `{Crc32} : KeyLaws flow.
Proof.
  constructor; simpl.
  - intros [] []. unfold flow_eq. simpl. rewrite !andb_true_iff, !Z.eqb_eq.
    split; [by intros ((((-> & ->) & ->) & ->) & ->)|]. intros Heq. by simplify_eq.
  - intros a. apply crc32si_range.
Qed.

(** struct client *)
Record client := MkClient { cl_src_ip : Z; cl_dst_ip : Z }.

Definition client_hash `{Crc32} (id : client) : Z :=
  let hash := 0 in
  let hash := crc32si hash (cl_src_ip id) in
  crc32si hash (cl_dst_ip id).

(** struct nf_config *)
Record nf_config := MkConfig {
  lan_device : Z;
  wan_device : Z;
  cfg_max_flows : Z;
  sketch_capacity : Z;
  max_clients : Z;
  flow_expiration_time : Z;
  client_expiration_time : Z
}.

(** struct State *)
Record State := MkState {
  flows : emap_objs flow;
  sketch : Sketch;
  max_flows : Z;
  dev_count : Z
}.

Definition set_flows (st : State) (o : emap_objs flow) : State :=
  MkState o (sketch st) (max_flows st) (dev_count st).

Definition set_sketch (st : State) (sk : Sketch) : State :=
  MkState (flows st) sk (max_flows st) (dev_count st).

Section cl.
Context `{Crc32}.
Variable pow2 : bool.

(** The first call: there is no allocated state yet. *)
Definition alloc_state (max_flows sketch_capacity max_clients dev_count : Z) : M (option State) :=
  ret ← malloc 40;
  if ret =? NULL then mret None else
  '(_, _, m) ← map_allocate pow2 max_flows NULL;
  match m with None => mret None | Some flows =>
  '(_, _, v) ← vector_allocate 16 max_flows (λ _, flow_allocate) NULL;
  match v with None => mret None | Some flows_keys =>
  '(_, _, c) ← dchain_allocate max_flows NULL;
  match c with None => mret None | Some flow_allocator =>
  '(_, _, s) ← sketch_allocate pow2 sketch_capacity max_clients NULL;
  match s with None => mret None | Some sk =>
  mret (Some (MkState (Objs flows flows_keys flow_allocator) sk max_flows dev_count))
  end end end end.

Definition nf_init (config : nf_config) (rte_eth_dev_count_avail : Z) : M (bool * option State) :=
  state ← alloc_state (cfg_max_flows config) (sketch_capacity config) (u16 (max_clients config))
            rte_eth_dev_count_avail;
  mret (match state with Some _ => true | None => false end, state).

Definition expire_entries (config : nf_config) (st : State) (time : Z) : option State :=
  _ ← c_assert (0 <=? time);
  let time_u := u64 time in
  let flow_expiration_time_ns := u64 (flow_expiration_time config * 1000) in
  let client_expiration_time_ns := u64 (client_expiration_time config * 1000) in
  let flow_last_time := s64 (u64 (time_u - flow_expiration_time_ns)) in
  let client_last_time := s64 (u64 (time_u - client_expiration_time_ns)) in
  let o := flows st in
  '(_, chain, m) ← expire_items_single_map pow2 (o_chain o) (o_vec o) (o_map o) flow_last_time;
  let st := set_flows st (Objs m (o_vec o) chain) in
  sk ← sketch_expire pow2 (sketch st) client_last_time;
  Some (set_sketch st sk).

(** [flow_p] is the address of [f] on the stack. *)
Definition allocate_flow (st : State) (flow_p : Z) (f : flow) (time : Z) : option (bool * State) :=
  let o := flows st in
  '(allocated, chain, flow_index) ← dchain_allocate_new_index (o_chain o) (-1) time;
  if allocated =? 0 then Some (false, set_flows st (Objs (o_map o) (o_vec o) chain)) else
  new_flow ← vector_borrow (o_vec o) flow_index;
  fv ← store (o_vec o) new_flow f;
  m ← map_put pow2 (with_local (deref fv) flow_p f) (o_map o) new_flow flow_index;
  Some (true, set_flows st (Objs m (vector_return fv flow_index new_flow) chain)).

(** False when the packet should be dropped. *)
Definition limit_clients (st : State) (flow_p : Z) (f : flow) (now : Z) : option (bool * State) :=
  let o := flows st in
  '(present, flow_index) ← map_get pow2 (with_local (deref (o_vec o)) flow_p f) (o_map o) flow_p (-1);
  let client := MkClient (src_ip f) (dst_ip f) in
  sk ← sketch_compute_hashes (sketch st) (client_hash client);
  let st := set_sketch st sk in
  if negb (present =? 0) then
    '(_, chain) ← dchain_rejuvenate_index (o_chain o) flow_index now;
    let st := set_flows st (Objs (o_map o) (o_vec o) chain) in
    sk ← sketch_refresh pow2 (sketch st) now;
    Some (true, set_sketch st sk)
  else
  '(allocated_flow, st) ← allocate_flow st flow_p f now;
  if negb allocated_flow then Some (true, st) else
  '(overflow, sk) ← sketch_fetch pow2 (sketch st);
  let st := set_sketch st sk in
  if negb (overflow =? 0) then Some (false, st) else
  '(_, sk) ← sketch_touch_buckets pow2 (sketch st) now;
  Some (true, set_sketch st sk).

(** Returns the output device, the packet and the state. *)
Definition nf_process (config : nf_config) (st0 : State) (flow_p device now : Z) (pk0 : packet)
    : option (Z * packet * State) :=
  '(rte_ether_header, pk1) ← nf_then_get_rte_ether_header pk0;
  '(rte_ipv4_header, ip_options, pk2) ← nf_then_get_rte_ipv4_header pk1 rte_ether_header;
  if rte_ipv4_header =? NULL then Some (device, pk2, st0) else
  '(tcpudp_header, pk3) ← nf_then_get_tcpudp_header pk2 rte_ipv4_header;
  if tcpudp_header =? NULL then Some (device, pk3, st0) else
  st ← expire_entries config st0 now;
  if device =? lan_device config then Some (wan_device config, pk3, st) else
  if device =? wan_device config then
    src_addr ← load32 pk3 (rte_ipv4_header + src_addr_off);
    dst_addr ← load32 pk3 (rte_ipv4_header + dst_addr_off);
    next_proto_id ← load8 pk3 (rte_ipv4_header + next_proto_id_off);
    hdr_src_port ← load16 pk3 (tcpudp_header + src_port_off);
    hdr_dst_port ← load16 pk3 (tcpudp_header + dst_port_off);
    let f := MkFlow hdr_src_port hdr_dst_port src_addr dst_addr next_proto_id in
    '(fwd, st) ← limit_clients st flow_p f now;
    if (fwd : bool) then Some (lan_device config, pk3, st) else Some (device, pk3, st)
  else Some (device, pk3, st).

End cl.

(** ** The contract

    The abstract state is the flow table, the table of hash values and the
    counters. *)

Definition cl_abs : Type := table flow * table hash * list Z.

Definition cl_flow (h : headers) : flow :=
  MkFlow (h_src_port h) (h_dst_port h) (h_src_addr h) (h_dst_addr h) (h_proto h).

Section contract.
Context `{Crc32}.

Definition cl_expire (config : nf_config) (s : cl_abs) (now : Z) : cl_abs :=
  let '(tf, ts, bs) := s in
  (t_expire tf (now - 1000 * flow_expiration_time config),
   t_expire ts (now - 1000 * client_expiration_time config), bs).

(** What happens to a packet of flow [f] from outside: whether it passes. *)
Definition cl_limit (config : nf_config) (s : cl_abs) (f : flow) (now : Z) : bool * cl_abs :=
  let '(tf, ts, bs) := s in
  let cap := sketch_capacity config in
  let kh := client_hash (MkClient (src_ip f) (dst_ip f)) in
  match t_lookup tf f with
  | Some e => (true, (t_refresh tf (e_idx e) now, sk_refresh ts cap kh now, bs))
  | None =>
      match t_frees tf with
      | [] => (true, s)
      | _ :: _ =>
          if sk_over ts bs cap kh (max_clients config)
          then (false, (t_add tf f now, ts, bs))
          else (true, (t_add tf f now, (sk_touch ts bs cap kh now).1, (sk_touch ts bs cap kh now).2))
      end
  end.

Definition cl_spec (config : nf_config) (s : cl_abs) (device now : Z) (hdrs : option headers)
    : cl_abs * option (Z * headers) :=
  match hdrs with
  | None => (s, None)
  | Some h =>
      let s1 := cl_expire config s now in
      if device =? lan_device config then (s1, Some (wan_device config, h)) else
      if device =? wan_device config then
        let '(fwd, s2) := cl_limit config s1 (cl_flow h) now in
        (s2, if (fwd : bool) then Some (lan_device config, h) else None)
      else (s1, None)
  end.

End contract.

(** ** Refinement *)

Record config_ok (config : nf_config) : Prop := ConfigOk {
  co_devices : lan_device config ≠ wan_device config;
  co_clients : 0 ≤ max_clients config < 2 ^ 16;
  co_flow_time : 0 ≤ 1000 * flow_expiration_time config < 2 ^ 63;
  co_client_time : 0 ≤ 1000 * client_expiration_time config < 2 ^ 63
}.

Section proofs.
Context `{Crc32}.
Variable pow2 : bool.
Variable config : nf_config.
Hypothesis HC : config_ok config.
Implicit Types (st : State) (s : cl_abs) (f : flow).

Record cl_inv (flow_p range : Z) st s (now : Z) : Prop := ClInv {
  ci_flows : emapp pow2 (flows st) range s.1.1;
  ci_sorted : t_sorted s.1.1 now;
  ci_sketch : sketch_inv pow2 (sketch_capacity config) (max_clients config) (sketch st) s.1.2 s.2 now;
  ci_stack : outside (o_vec (flows st)) flow_p
}.

Lemma sketch_inv_mono cap thr sk t bs now now' :
  sketch_inv pow2 cap thr sk t bs now → now ≤ now' → sketch_inv pow2 cap thr sk t bs now'.
Proof. intros [] Hle. constructor; try done. by eapply t_sorted_mono. Qed.

Lemma cl_inv_mono flow_p range st s now now' :
  cl_inv flow_p range st s now → now ≤ now' → cl_inv flow_p range st s now'.
Proof.
  intros [] Hle. constructor; try done; [by eapply t_sorted_mono|by eapply sketch_inv_mono].
Qed.

Lemma cl_expire_spec flow_p range st s before now :
  cl_inv flow_p range st s before → before ≤ now → 0 ≤ now < 2 ^ 63 →
  ∃ st', expire_entries pow2 config st now = Some st' ∧
    cl_inv flow_p range st' (cl_expire config s now) now.
Proof.
  intros HI Hle Hnow. apply (cl_inv_mono _ _ _ _ _ now) in HI as [HE Hs HK Ho]; [|done].
  destruct s as [[tf ts] bs]. simpl in *. unfold expire_entries.
  destruct (Z.leb_spec 0 now); [|lia]. cbn [c_assert mbind option_bind].
  destruct HC as [_ _ Hf Hc]. rewrite !last_time_exact by lia. rewrite !(Z.mul_comm _ 1000).
  destruct (expire_items_single_map_spec pow2 _ _ _ (now - 1000 * flow_expiration_time config) HE)
    as (ch' & M' & -> & HE'). cbn [mbind option_bind]. simpl.
  destruct (sketch_expire_spec pow2 _ _ _ _ _ _ (now - 1000 * client_expiration_time config) HK)
    as (sk' & -> & HK'). cbn [mbind option_bind].
  eexists. split; [done|]. constructor; simpl; try done. by apply t_expire_sorted.
Qed.

Lemma cl_allocate_flow_spec flow_p range st s f now :
  cl_inv flow_p range st s now → t_lookup s.1.1 f = None →
  ∃ ok st', allocate_flow pow2 st flow_p f now = Some (ok, st') ∧ sketch st' = sketch st ∧
    match t_frees s.1.1 with
    | [] => ok = false ∧ cl_inv flow_p range st' s now
    | _ :: _ => ok = true ∧ cl_inv flow_p range st' (t_add s.1.1 f now, s.1.2, s.2) now
    end.
Proof.
  intros [HE Hs HK Ho] El. unfold allocate_flow. destruct (t_frees s.1.1) as [|i fs] eqn:Hfr.
  - destruct (emap_full _ _ _ _ HE (-1) now) as (ch' & -> & HE'); [unfold t_full; by rewrite Hfr|].
    cbn [mbind option_bind]. rewrite Z.eqb_refl. eexists _, _. by split_and!.
  - destruct (emap_add _ _ _ _ HE f (-1) i fs now El Hfr) as (ch' & -> & Hi & Hb & Hst & Hput).
    osteps. destruct (Z.eqb_spec 1 0); [lia|]. osteps.
    destruct (Hput (with_local (deref (vset (o_vec (flows st)) i f)) flow_p f)) as (M' & -> & HE');
      [by apply sees_local|].
    cbn [mbind option_bind]. eexists _, _. split_and!; [done..|].
    constructor; simpl; try done. by apply t_add_sorted.
Qed.

Lemma cl_limit_spec flow_p range st s f now :
  cl_inv flow_p range st s now →
  ∃ st', limit_clients pow2 st flow_p f now = Some ((cl_limit config s f now).1, st') ∧
    cl_inv flow_p range st' (cl_limit config s f now).2 now.
Proof.
  intros HI. pose proof HI as [HE Hs HK Ho]. unfold limit_clients.
  rewrite (emap_get _ _ _ _ HE flow_p f (-1) Ho). set (kh := client_hash _).
  destruct (compute_hashes_spec _ _ _ _ _ _ _ kh HK) as (sk1 & -> & HK1 & Hh & Hb).
  destruct s as [[tf ts] bs]. simpl in HE, Hs, HK, HK1. unfold cl_limit. simpl. fold kh.
  destruct (t_lookup tf f) as [e|] eqn:El; cbn [mbind option_bind].
  - destruct (Z.eqb_spec 1 0); [lia|]. cbn [negb]. apply t_lookup_Some in El as [He _].
    destruct (emap_refresh _ _ _ _ HE e now He) as (ch' & -> & HE'). cbn [mbind option_bind].
    destruct (sketch_refresh_spec _ _ _ _ _ _ _ kh HK1 Hh Hb) as (sk2 & Hr & HK2). simpl. rewrite Hr.
    cbn [mbind option_bind]. eexists. split; [done|]. constructor; simpl; try done.
    apply t_refresh_sorted; [done|apply (ent_idx_NoDup _ _ _ _ HE)].
  - rewrite Z.eqb_refl. cbn [negb].
    destruct (cl_allocate_flow_spec flow_p range (set_sketch st sk1) (tf, ts, bs) f now)
      as (ok & st2 & -> & Hsk & Hal); [by constructor|done|].
    cbn [mbind option_bind fst snd] in *. destruct (t_frees tf) as [|i fs].
    { destruct Hal as [-> HI2]. cbn [negb]. by eexists. }
    destruct Hal as [-> HI2]. cbn [negb]. rewrite Hsk. simpl.
    destruct (sketch_fetch_spec _ _ _ _ _ _ _ kh HK1 Hh) as (sk3 & -> & HK3 & Hh3). cbn [mbind option_bind].
    destruct (sk_over ts bs (sketch_capacity config) kh (max_clients config)); simpl.
    + eexists. split; [done|]. destruct HI2. by constructor.
    + destruct (sketch_touch_spec _ _ _ _ _ _ _ kh HK3 Hh3) as (r & sk4 & Ht & HK4). rewrite Ht.
      cbn [mbind option_bind]. eexists. split; [done|]. destruct HI2. by constructor.
Qed.

Lemma cl_process_spec flow_p range before now device st s pk tail :
  cl_inv flow_p range st s before → before ≤ now → 0 ≤ now < 2 ^ 63 → received pk tail →
  let '(s', act) := cl_spec config s device now (packet_headers pk) in
  ∃ dev pk' st', nf_process pow2 config st flow_p device now pk = Some (dev, pk', st') ∧
    cl_inv flow_p range st' s' now ∧ acted pk device act dev pk' ∧ buf pk' = buf pk.
Proof.
  intros HI0 Hle Hnow HR. unfold nf_process, cl_spec.
  destruct (parse_cases pk tail HR)
    as (pk1 & He & [(opts & pk2 & Hi & -> & Hact)|[(opts & pk2 & pk3 & Hi & Hnz & Ht & -> & Hact)|
        (opts & pk2 & h & Hi & Hnz & Ht & Hnz4 & HP)]]); rewrite He; osteps.
  { rewrite Z.eqb_refl. eexists _, _, _. split_and!; [done|by eapply cl_inv_mono|done|].
    by destruct (Hact 0) as (_ & _ & ?). }
  { rewrite (not_null _ Hnz). osteps. rewrite Z.eqb_refl.
    eexists _, _, _. split_and!; [done|by eapply cl_inv_mono|done|].
    by destruct (Hact 0) as (_ & _ & ?). }
  rewrite (not_null _ Hnz). osteps. rewrite (not_null _ Hnz4). rewrite (pd_headers _ _ HP) in *.
  destruct (cl_expire_spec flow_p range st s before now HI0 Hle Hnow) as (st1 & -> & HI1).
  cbn [mbind option_bind]. destruct (after_tcpudp_frame pk) as (Fb & Fbuf & Ft & Fr).
  assert (∀ d, d ≠ device → acted pk device (Some (d, h)) d (after_tcpudp pk)) as Hfwd
    by (intros d Hd; by apply parsed_forward).
  pose proof (co_devices _ HC).
  destruct (Z.eqb_spec device (lan_device config)) as [Hl|Hl].
  { eexists _, _, _. split_and!; [done|done|apply Hfwd; congruence|done]. }
  destruct (Z.eqb_spec device (wan_device config)) as [Hw|Hw].
  2: { eexists _, _, _. split_and!; [done|done|by eapply parsed_drop|done]. }
  destruct (pd_loads _ _ HP) as (-> & -> & -> & -> & ->). cbn [mbind option_bind].
  destruct (cl_limit_spec flow_p range st1 _ (cl_flow h) now HI1) as (st2 & Hlim & HI2).
  unfold cl_flow in Hlim at 1. rewrite Hlim. cbn [mbind option_bind].
  destruct (cl_limit config (cl_expire config s now) (cl_flow h) now) as [[] s2]; simpl in *;
    eexists _, _, _; (split_and!; [done|done| |done]); [apply Hfwd; congruence|by eapply parsed_drop].
Qed.

End proofs.

(** ** Initialisation *)

Section initialisation.
Context `{Crc32}.
Variable pow2 : bool.
Variable config : nf_config.

(** The bounds of the data structures. *)
Definition sizes_ok : Prop :=
  0 < cfg_max_flows config ≤ VECTOR_CAPACITY_UPPER_LIMIT ∧ 0 < sketch_capacity config ≤ 16384.

(** The empty state. *)
Definition cl_empty (bs : list Z) : cl_abs :=
  (Table [] (seqZ 0 (cfg_max_flows config)), Table [] (seqZ 0 (sketch_capacity config)), bs).

(** [nf_init] has defined behaviour, and establishes the invariant when it
    succeeds, for a flow on the stack, below the memory of the allocator. *)
Lemma nf_init_spec flow_p devs μ :
  config_ok config → sizes_ok → mem_ok μ → flow_p < brk μ →
  ∃ ok o μ', nf_init pow2 config devs μ = Some ((ok, o), μ') ∧
    match o with
    | Some st => ok = true ∧ ∃ bs, cl_inv pow2 config flow_p (cfg_max_flows config) st (cl_empty bs) 0
    | None => ok = false
    end.
Proof.
  intros HC [Hf Hs] Hok Hp. unfold VECTOR_CAPACITY_UPPER_LIMIT in Hf.
  cut (yields (alloc_state pow2 (cfg_max_flows config) (sketch_capacity config)
         (u16 (max_clients config)) devs) (λ o _, ∀ st, o = Some st →
           ∃ bs, cl_inv pow2 config flow_p (cfg_max_flows config) st (cl_empty bs) 0) μ).
  { intros (o & μ' & Ha & Ho). unfold nf_init. mstep.
    destruct o as [st|]; eexists _, _, _; (split; [done|]); [|done]. split; [done|]. by apply Ho. }
  rewrite u16_small by apply HC. unfold alloc_state.
  apply yields_malloc; [done|by intros; apply yields_ret|]. intros p μ0 Hp0 _ (Hok0 & Hb0 & _).
  rewrite not_null by done.
  apply (yields_map_allocate (K := flow)); [done|lia|unfold INT_MAX; lia|by intros; apply yields_ret|].
  intros _ M μ1 (Hok1 & Hb1 & _) HMc HM. cbv beta iota.
  apply yields_vector_allocate; [done|lia|unfold VECTOR_CAPACITY_UPPER_LIMIT; lia
    |by intros; apply yields_ret|].
  intros _ ks μ2 (Hok2 & Hb2 & _) Hks Hes Hkc Hdata _. cbv beta iota.
  apply yields_dchain_allocate; [done|unfold IRANG_LIMIT; lia|by intros; apply yields_ret|].
  intros _ ch μ3 (Hok3 & Hb3 & _) HCh. cbv beta iota.
  destruct (sketch_allocate_spec pow2 (sketch_capacity config) (max_clients config) NULL μ3 Hok3 Hs)
    as (r & out & o & μ4 & Hk & _ & Hres). eapply yields_bind; [exact Hk|].
  destruct Hres as [[-> ->]|(sk & bs & -> & -> & HK)]; [by apply yields_ret|]. apply yields_ret.
  intros st [= <-]. exists bs. constructor; simpl.
  - apply emap_fresh; [done|lia|done|lia|done].
  - split; [constructor|]. intros e He. by apply elem_of_nil in He.
  - done.
  - intros i Hi. unfold addr. simpl in Hi. nia.
Qed.

End initialisation.

(** ** Executions *)

(** The handler over a sequence of packets, and the contract. *)
Fixpoint cl_run `{Crc32} (pow2 : bool) (config : nf_config) (flow_p : Z) (evs : list event)
    (st : State) : option (list Z * State) :=
  match evs with
  | [] => Some ([], st)
  | ev :: evs' =>
      '(dev, _, st') ← nf_process pow2 config st flow_p (ev_device ev) (ev_now ev) (ev_packet ev);
      '(outs, st'') ← cl_run pow2 config flow_p evs' st';
      Some (dev :: outs, st'')
  end.

Fixpoint cl_spec_run `{Crc32} (config : nf_config) (evs : list event) (s : cl_abs)
    : list Z * cl_abs :=
  match evs with
  | [] => ([], s)
  | ev :: evs' =>
      let '(s', act) := cl_spec config s (ev_device ev) (ev_now ev) (packet_headers (ev_packet ev)) in
      let '(outs, s'') := cl_spec_run config evs' s' in
      ((match act with Some (d, _) => d | None => ev_device ev end) :: outs, s'')
  end.

Lemma cl_run_spec `{Crc32} (pow2 : bool) config flow_p range evs before st s :
  config_ok config → cl_inv pow2 config flow_p range st s before → 0 ≤ before →
  events_ok before evs →
  ∃ st', cl_run pow2 config flow_p evs st = Some ((cl_spec_run config evs s).1, st') ∧
    cl_inv pow2 config flow_p range st' (cl_spec_run config evs s).2 (last_now before evs).
Proof.
  intros HC. revert before st s. induction evs as [|ev evs IH]; intros before st s HI Hb Hok.
  { exists st. done. }
  destruct Hok as (Hn & Hn2 & (tail & HR) & Hok). cbn [cl_run cl_spec_run last_now].
  pose proof (cl_process_spec pow2 config HC flow_p range before (ev_now ev) (ev_device ev) st s
    (ev_packet ev) tail HI Hn ltac:(lia) HR) as Hp.
  destruct (cl_spec _ _ _ _ _) as [s1 act]. destruct Hp as (dev & pk' & st1 & -> & HI1 & (_ & Hact) & _).
  cbn [mbind option_bind]. destruct (IH _ _ _ HI1 ltac:(lia) Hok) as (st2 & -> & HI2).
  cbn [mbind option_bind]. destruct (cl_spec_run config evs s1) as [outs s2]. simpl in *.
  exists st2. split; [|done]. repeat f_equal. destruct act as [[d h]|]; by destruct Hact.
Qed.

(** ** Main results *)

(** C10: the connection limiter from its start.  For sizes within the bounds of
    the data structures, [nf_init] has defined behaviour, whatever the allocator
    answers.  When it succeeds, the handler then processes any sequence of
    packets without undefined behaviour, and its outputs are those of the
    contract from the empty state: outgoing packets pass; of the packets from
    outside, those of a known flow pass and refresh it and its counter, a new
    flow is remembered while there is room, and refused when every counter that
    its addresses read is above the limit. *)
Theorem cl_refines_from_start `{Crc32} (pow2 : bool) (config : nf_config) (flow_p devs : Z) (μ : mem)
    (evs : list event) :
  config_ok config → sizes_ok config → mem_ok μ → flow_p < brk μ → events_ok 0 evs →
  ∃ ok o μ', nf_init pow2 config devs μ = Some ((ok, o), μ') ∧
    match o with
    | None => ok = false
    | Some st => ok = true ∧ ∃ bs st',
        cl_run pow2 config flow_p evs st = Some ((cl_spec_run config evs (cl_empty config bs)).1, st')
    end.
Proof.
  intros HC Hs Hok Hp Hevs.
  destruct (nf_init_spec pow2 config flow_p devs μ HC Hs Hok Hp) as (ok & o & μ' & Hi & Ho).
  exists ok, o, μ'. split; [done|]. destruct o as [st|]; [|done]. destruct Ho as [-> (bs & HI)].
  split; [done|]. destruct (cl_run_spec pow2 config flow_p _ evs 0 st _ HC HI ltac:(lia) Hevs)
    as (st' & Hr & _). eauto.
Qed.

(** A refused connection passes on the second attempt.  When the limiter
    drops a TCP or UDP packet from outside, the flow of the packet has been
    entered into the flow table before the limit was tested; the next packet of
    the same flow, within the expiration time, is forwarded. *)
Theorem cl_refused_flow_passes_next `{Crc32} (pow2 : bool) (config : nf_config)
    (flow_p range before now now2 : Z) (st st1 : State) (s : cl_abs) (pk pk1 pk2 : packet)
    (h h2 : headers) (tail tail2 : Z) :
  config_ok config → cl_inv pow2 config flow_p range st s before → before ≤ now →
  0 ≤ now < 2 ^ 63 → received pk tail → packet_headers pk = Some h →
  nf_process pow2 config st flow_p (wan_device config) now pk = Some (wan_device config, pk1, st1) →
  now ≤ now2 ≤ now + 1000 * flow_expiration_time config → now2 < 2 ^ 63 →
  received pk2 tail2 → packet_headers pk2 = Some h2 → cl_flow h2 = cl_flow h →
  ∃ pk3 st3, nf_process pow2 config st1 flow_p (wan_device config) now2 pk2 =
    Some (lan_device config, pk3, st3).
Proof.
  intros HC HI Hle Hnow HR Hh Hp Hn2 Hb2 HR2 Hh2 Hflow. pose proof (co_devices _ HC) as Hd.
  pose proof (cl_process_spec pow2 config HC flow_p range before now (wan_device config) st s pk tail
    HI Hle Hnow HR) as Hs1. rewrite Hh in Hs1. unfold cl_spec in Hs1.
  destruct (Z.eqb_spec (wan_device config) (lan_device config)); [lia|]. rewrite Z.eqb_refl in Hs1.
  destruct (cl_limit config (cl_expire config s now) (cl_flow h) now) as [fwd s2] eqn:El.
  destruct Hs1 as (dev & pk' & st' & Hp' & HI1 & (_ & Hact) & _). rewrite Hp in Hp'.
  revert Hflow. simplify_eq. intros Hflow.
  destruct fwd; [by destruct Hact|]. unfold cl_limit in El.
  destruct (cl_expire config s now) as [[tf ts] bs].
  destruct (t_lookup tf (cl_flow h)); [done|]. destruct (t_frees tf) as [|i fs] eqn:Hfr; [done|].
  destruct (sk_over _ _ _ _ _); [|done]. injection El as <-.
  pose proof (cl_process_spec pow2 config HC flow_p range now now2 (wan_device config) st' _ pk2 tail2
    HI1 ltac:(lia) ltac:(lia) HR2) as Hs2. rewrite Hh2 in Hs2. unfold cl_spec, cl_limit, cl_expire in Hs2.
  destruct (Z.eqb_spec (wan_device config) (lan_device config)); [lia|]. rewrite Z.eqb_refl in Hs2.
  rewrite Hflow in Hs2.
  assert (Ent i (cl_flow h) now ∈ ents (t_expire (t_add tf (cl_flow h) now)
            (now2 - 1000 * flow_expiration_time config))) as Hin.
  { eapply t_expire_keeps; [apply (ci_sorted _ _ _ _ _ _ _ HI1)| |simpl; lia].
    unfold t_add. rewrite Hfr. set_solver. }
  destruct (t_lookup _ (cl_flow h)) as [e|] eqn:Ee; [|by destruct (t_lookup_None _ _ Ee _ Hin)].
  destruct Hs2 as (dev2 & pk3 & st3 & Hp2 & _ & (_ & Hact2) & _). destruct Hact2 as (-> & _). eauto.
Qed.

(** ** Concrete instances *)

#[local] Existing Instance sse42_crc32.

(** Three flows, a sketch of two counters per row, and a limit of 0. *)
Definition demo_cl_config : nf_config := MkConfig 0 1 3 2 0 1000 1000.

Definition demo_cl_mem : mem := demo_mem (replicate 60 true).

Lemma demo_cl_config_ok : config_ok demo_cl_config.
Proof. constructor; simpl; lia. Qed.

Lemma demo_cl_sizes_ok : sizes_ok demo_cl_config.
Proof. split; vm_compute; split; done. Qed.

(** [demo_packet] with another source port. *)
Definition demo_conn (port : Z) : packet :=
  Packet 4096 (<[35%nat := port]> (buf demo_packet)) 60 0 [].

Lemma demo_conn_received port : 0 ≤ port < 256 → received (demo_conn port) 20.
Proof.
  intros Hp. constructor; try done. unfold demo_conn. simpl.
  repeat (apply List.Forall_cons; [lia|]). apply List.Forall_nil.
Qed.

(** Four packets of three connections between the same addresses. *)
Definition demo_conns : list event :=
  [Event 1 5 (demo_conn 1); Event 1 6 (demo_conn 2); Event 1 7 (demo_conn 3); Event 1 8 (demo_conn 3)].

Lemma demo_conns_ok : events_ok 0 demo_conns.
Proof. simpl. repeat split; try lia; exists 20; apply demo_conn_received; lia. Qed.

(** The outputs of a run after an initialisation. *)
Definition outputs {A B C} (init : option (bool * option A * C)) (run : A → option (list Z * B))
    : option (list Z) :=
  '(_, o, _) ← init; st ← o; fst <$> run st.

Lemma outputs_run {A B C} (init : option (bool * option A * C)) (run : A → option (list Z * B))
    ok st μ outs st' vs :
  outputs init run = Some vs → init = Some (ok, Some st, μ) → run st = Some (outs, st') → outs = vs.
Proof. unfold outputs. intros Ho -> Hr. simpl in Ho. rewrite Hr in Ho. by injection Ho. Qed.

(** The third connection is refused, and passes on its second packet. *)
Lemma demo_cl_outputs :
  outputs (nf_init false demo_cl_config 2 demo_cl_mem) (cl_run false demo_cl_config 8 demo_conns) =
  Some [0; 0; 1; 0].
Proof. vm_compute. reflexivity. Qed.

Lemma cl_refines_from_start_witness :
  ∃ st μ' st', nf_init false demo_cl_config 2 demo_cl_mem = Some ((true, Some st), μ') ∧
    cl_run false demo_cl_config 8 demo_conns st = Some ([0; 0; 1; 0], st').
Proof.
  destruct (cl_refines_from_start false demo_cl_config 8 2 demo_cl_mem demo_conns demo_cl_config_ok
    demo_cl_sizes_ok ltac:(reflexivity) ltac:(reflexivity) demo_conns_ok) as (ok & o & μ' & Hi & Ho).
  pose proof demo_cl_outputs as Hv. destruct o as [st|].
  - destruct Ho as (-> & bs & st' & Hr). exists st, μ', st'. split; [exact Hi|].
    pose proof (outputs_run _ _ _ _ _ _ _ _ Hv Hi Hr) as Heq. rewrite <- Heq. exact Hr.
  - exfalso. rewrite Hi in Hv. discriminate Hv.
Defined.

(** The output of one more packet. *)
Definition next_output {A B C} (init : option (bool * option A * C)) (run : A → option (B * A))
    (step : A → option (Z * packet * A)) : option Z :=
  '(_, o, _) ← init; st ← o; '(_, st) ← run st; '(dev, _, _) ← step st; Some dev.

Lemma next_output_step {A B C} (init : option (bool * option A * C)) (run : A → option (B * A))
    (step : A → option (Z * packet * A)) ok st μ outs st2 dev :
  next_output init run step = Some dev → init = Some (ok, Some st, μ) → run st = Some (outs, st2) →
  ∃ pk st3, step st2 = Some (dev, pk, st3).
Proof.
  unfold next_output. intros Ho -> Hr. simpl in Ho. rewrite Hr in Ho. simpl in Ho.
  destruct (step st2) as [[[dev' pk] st3]|]; [|done]. injection Ho as ->. eauto.
Qed.

Definition demo_first_conns : list event := [Event 1 5 (demo_conn 1); Event 1 6 (demo_conn 2)].

Lemma demo_first_conns_ok : events_ok 0 demo_first_conns.
Proof. simpl. repeat split; try lia; exists 20; apply demo_conn_received; lia. Qed.

Lemma demo_third_refused :
  next_output (nf_init false demo_cl_config 2 demo_cl_mem)
    (cl_run false demo_cl_config 8 demo_first_conns)
    (λ st, nf_process false demo_cl_config st 8 1 7 (demo_conn 3)) = Some 1.
Proof. vm_compute. reflexivity. Qed.

Lemma cl_refused_flow_passes_next_witness :
  ∃ st pk1 st1 pk3 st3,
    nf_process false demo_cl_config st 8 1 7 (demo_conn 3) = Some (1, pk1, st1) ∧
    nf_process false demo_cl_config st1 8 1 8 (demo_conn 3) = Some (0, pk3, st3).
Proof.
  destruct (nf_init_spec false demo_cl_config 8 2 demo_cl_mem demo_cl_config_ok demo_cl_sizes_ok
    ltac:(reflexivity) ltac:(reflexivity)) as (ok & o & μ' & Hi & Ho).
  pose proof demo_third_refused as Hv.
  destruct o as [st|]; [|exfalso; rewrite Hi in Hv; discriminate Hv].
  destruct Ho as (_ & bs & HI).
  destruct (cl_run_spec false demo_cl_config 8 _ demo_first_conns 0 st _ demo_cl_config_ok HI
    ltac:(lia) demo_first_conns_ok) as (st2 & Hr & HI2).
  destruct (next_output_step _ _ _ _ _ _ _ _ _ Hv Hi Hr) as (pk1 & st1 & H3).
  destruct (packet_headers (demo_conn 3)) as [h|] eqn:Hh; [|exfalso; vm_compute in Hh; discriminate Hh].
  destruct (cl_refused_flow_passes_next false demo_cl_config 8 _ _ 7 8 st2 st1 _ (demo_conn 3) pk1
    (demo_conn 3) h h 20 20 demo_cl_config_ok HI2) as (pk3 & st3 & H4);
    [simpl; lia|lia|apply demo_conn_received; lia|exact Hh|exact H3|simpl; lia|lia|
     apply demo_conn_received; lia|exact Hh|reflexivity|].
  exists st2, pk1, st1, pk3, st3. split; [exact H3|exact H4].
Defined.
