(* ===== verification/Fwd.v ===== *)
(** * vignop and vigfwd: the stateless functions

    Both send what comes from the external device to the internal one and the
    rest to the external one; vigfwd also rewrites the MAC addresses. *)
From stdpp Require Import base list numbers.
From Stdlib Require Import ZArith Lia.
From S2P Require Import Prelude.
From S2P Require Import Packet.

Module Nop.

(** struct nf_config of vignop *)
Record nop_config := MkConfig { lan_device : Z; wan_device : Z }.

Definition nop_process (config : nop_config) (device : Z) : Z :=
  if device =? wan_device config then lan_device config else wan_device config.

End Nop.

Module Fwd.

(** struct nf_config of vigfwd *)
Record fwd_config := MkConfig {
  lan_device : Z;
  wan_device : Z;
  device_macs : list (list Z);
  endpoint_macs : list (list Z)
}.

(** Returns the output device and the packet. *)
Definition fwd_process (config : fwd_config) (device : Z) (pk0 : packet) : option (Z * packet) :=
  let dst_device :=
    if device =? wan_device config then lan_device config else wan_device config in
  '(rte_ether_header, pk1) ← nf_then_get_rte_ether_header pk0;
  device_mac ← rd (device_macs config) dst_device;
  pk2 ← store_bytes pk1 (rte_ether_header + s_addr_off) device_mac;
  endpoint_mac ← rd (endpoint_macs config) dst_device;
  pk3 ← store_bytes pk2 (rte_ether_header + d_addr_off) endpoint_mac;
  Some (dst_device, nf_return_chunk pk3).

Record config_ok (config : fwd_config) : Prop := ConfigOk {
  fc_lan : 0 ≤ lan_device config < zlen (device_macs config);
  fc_wan : 0 ≤ wan_device config < zlen (device_macs config);
  fc_count : zlen (endpoint_macs config) = zlen (device_macs config);
  fc_device_macs : Forall (λ m, zlen m = 6) (device_macs config);
  fc_endpoint_macs : Forall (λ m, zlen m = 6) (endpoint_macs config)
}.

Lemma fwd_process_spec config device pk tail :
  config_ok config → received pk tail →
  let d := if device =? wan_device config then lan_device config else wan_device config in
  ∃ pk' sm dm, fwd_process config device pk = Some (d, pk') ∧
    rd (device_macs config) d = Some sm ∧ rd (endpoint_macs config) d = Some dm ∧
    load_bytes pk' (base pk + s_addr_off) 6 = Some sm ∧
    load_bytes pk' (base pk + d_addr_off) 6 = Some dm ∧
    (∀ i, 12 ≤ i → load8 pk' (base pk + i) = load8 pk (base pk + i)) ∧
    pk' = Packet (base pk) (buf pk') (global_total_length pk) 0 [].
Proof.
  intros HC HR d. assert (0 ≤ d < zlen (device_macs config)) as Hd.
  { unfold d. destruct (device =? wan_device config); [apply (fc_lan _ HC)|apply (fc_wan _ HC)]. }
  pose proof (rc_total _ _ HR). pose proof (rc_buf _ _ HR). pose proof (rc_tail _ _ HR).
  destruct (mac_at _ d (fc_device_macs _ HC) Hd) as (sm & Hsm & Hsl).
  destruct (mac_at _ d (fc_endpoint_macs _ HC)) as (dm & Hdm & Hdl); [by rewrite (fc_count _ HC)|].
  unfold fwd_process. fold d. rewrite (ether_header_spec pk tail HR). cbn [mbind option_bind].
  set (pk1 := at_read pk 14 [base pk]). rewrite Hsm. cbn [mbind option_bind].
  destruct (rewrite_macs pk1 sm dm) as (pk2 & pk3 & S2 & S3 & E & Ls & Ld); [simpl; lia|done..|].
  change (base pk1) with (base pk) in *. rewrite S2. cbn [mbind option_bind].
  rewrite Hdm. cbn [mbind option_bind]. rewrite S3. cbn [mbind option_bind].
  pose proof (ed_chunks _ _ _ E) as Hch. pose proof (ed_base _ _ _ E) as Hb3. simpl in Hch, Hb3.
  eexists _, sm, dm. split_and!; [done..| | | |]; unfold nf_return_chunk; rewrite Hch; simpl.
  - exact Ls.
  - exact Ld.
  - intros i Hi. transitivity (load8 pk3 (base pk + i)); [done|].
    rewrite (ed_frame _ _ _ E) by (unfold span; lia). done.
  - rewrite Hb3, (ed_total _ _ _ E). simpl. by rewrite Hch, Z.sub_diag.
Qed.

(** vigfwd rewrites the MAC addresses and nothing else.  For any received
    frame the function returns the device on the other side; the frame has that
    device's address as its source and the endpoint's as its destination; all
    bytes from the Ethernet type on are as they were; and no chunk is left
    borrowed. *)
Theorem fwd_rewrites_macs_only (config : fwd_config) (device : Z) (pk : packet) (tail : Z) :
  config_ok config → received pk tail →
  let d := if device =? wan_device config then lan_device config else wan_device config in
  ∃ pk' sm dm, fwd_process config device pk = Some (d, pk') ∧
    rd (device_macs config) d = Some sm ∧ rd (endpoint_macs config) d = Some dm ∧
    load_bytes pk' (base pk + s_addr_off) 6 = Some sm ∧
    load_bytes pk' (base pk + d_addr_off) 6 = Some dm ∧
    (∀ i, 12 ≤ i → load8 pk' (base pk + i) = load8 pk (base pk + i)) ∧
    pk' = Packet (base pk) (buf pk') (global_total_length pk) 0 [].
Proof. apply fwd_process_spec. Qed.

Definition demo_fwd_config : fwd_config :=
  MkConfig 0 1 [[2;0;0;0;1;0]; [2;0;0;0;1;1]] [[2;0;0;0;2;0]; [2;0;0;0;2;1]].

Lemma fwd_rewrites_macs_only_witness :
  ∃ pk', fwd_process demo_fwd_config 0 demo_packet = Some (1, pk') ∧
    load_bytes pk' 4096 6 = Some [2;0;0;0;2;1].
Proof.
  destruct (fwd_rewrites_macs_only demo_fwd_config 0 demo_packet 20)
    as (pk' & sm & dm & Hp & _ & Hdm & _ & Hl & _);
    [constructor; try done; repeat constructor|apply demo_packet_received|].
  exists pk'. split; [exact Hp|]. vm_compute in Hdm. injection Hdm as <-. exact Hl.
Defined.

End Fwd.
