(* ===== verification/MainLoop.v ===== *)
(** * nf.c: the main loop

    The loop receives packets from the devices, hands each to the network
    function and frees, transmits or floods it.  DPDK is seen through its
    calls: what it answers to receive and transmit requests are parameters, and
    the calls that move or release packet buffers are recorded. *)
From stdpp Require Import base list numbers sets.
From Stdlib Require Import ZArith Lia.
From S2P Require Import Prelude.
From S2P Require Import Packet.
From S2P Require Import Fwd.

(** A packet buffer of DPDK: its identity, the address and contents of its
    data, the length of the packet and the port it was received on. *)
Record mbuf := Mbuf {
  m_id : Z;
  m_data : Z;
  m_buf : list Z;
  pkt_len : Z;
  m_port : Z
}.

(** The calls to DPDK that concern buffers. *)
Inductive io :=
| Receive (device id : Z)
| Transmit (device id : Z) (bytes : list Z) (accepted : bool)
| SetRefcnt (id n : Z)
| FreeMbuf (id : Z).

(** The number of requests made so far, and the calls. *)
Record world := World { rx_calls : nat; tx_calls : nat; trace : list io }.

(** The interface of a network function (nf.h): [nf_process] on the device, the
    packet length, the time and the packet, with its state. *)
Record NF := MkNF {
  nf_state : Type;
  nf_process : nf_state → Z → Z → Z → packet → option (Z * packet * nf_state)
}.

Section dpdk.
(** What the [n]-th receive request finds on a device, and whether the [n]-th
    transmit request is accepted. *)
Variable rx : nat → Z → option mbuf.
Variable tx : nat → bool.

Definition rte_eth_rx_burst (w : world) (device : Z) : option mbuf * world :=
  let r := rx (rx_calls w) device in
  (r, World (S (rx_calls w)) (tx_calls w)
        (trace w ++ match r with Some mb => [Receive device (m_id mb)] | None => [] end)).

(** The number of packets sent, 0 or 1. *)
Definition rte_eth_tx_burst (w : world) (device id : Z) (bytes : list Z) : Z * world :=
  let ok := tx (tx_calls w) in
  (Z.b2z ok, World (rx_calls w) (S (tx_calls w)) (trace w ++ [Transmit device id bytes ok])).

Definition rte_mbuf_refcnt_set (w : world) (id n : Z) : world :=
  World (rx_calls w) (tx_calls w) (trace w ++ [SetRefcnt id n]).

Definition rte_pktmbuf_free (w : world) (id : Z) : world :=
  World (rx_calls w) (tx_calls w) (trace w ++ [FreeMbuf id]).

(** [bytes] are the contents of the packet, [port] the port it came from. *)
Definition flood (w : world) (id port : Z) (bytes : list Z) (nb_devices : Z) : option world :=
  let w := rte_mbuf_refcnt_set w id (u16 (nb_devices - 1)) in
  let skip_device := port in
  '(total_sent, w) ← for_each 0 nb_devices (λ device '(total_sent, w),
     if negb (device =? skip_device) then
       let '(n, w') := rte_eth_tx_burst w device id bytes in
       total_sent' ← int_chk (total_sent + n);
       Some (total_sent', w')
     else Some (total_sent, w)) (0, w);
  if negb (total_sent =? nb_devices - 1)
  then Some (rte_pktmbuf_free (rte_mbuf_refcnt_set w id 1) id)
  else Some w.

Section loop.
Variable nf : NF.

(** The state of the network function, the globals of packet-io.c and nf-util.h
    and DPDK. *)
Record loop_state := LoopState {
  ls_nf : nf_state nf;
  ls_total : Z;
  ls_read : Z;
  ls_chunks : list Z;
  ls_world : world
}.

(** The body of the loop for one device; [Return] is the call of [abort] after a
    transmission that was refused. *)
Definition worker_body (VIGOR_DEVICES_COUNT VIGOR_DEVICE VIGOR_NOW : Z) (s : loop_state)
    : option (outcome loop_state world) :=
  let '(got, w) := rte_eth_rx_burst (ls_world s) VIGOR_DEVICE in
  match got with
  | None => Some (Continue (LoopState (ls_nf s) (ls_total s) (ls_read s) (ls_chunks s) w))
  | Some mb =>
      let pk0 := packet_state_total_length
                   (Packet (m_data mb) (m_buf mb) (ls_total s) (ls_read s) (ls_chunks s))
                   (pkt_len mb) in
      '(r, pk1, nfs) ← nf_process nf (ls_nf s) (m_port mb) (u16 (pkt_len mb)) VIGOR_NOW pk0;
      let dst_device := u16 r in
      let pk2 := nf_return_all_chunks pk1 in
      let next := LoopState nfs (global_total_length pk2) (global_read_length pk2)
                    (chunks_borrowed pk2) in
      if dst_device =? VIGOR_DEVICE then Some (Continue (next (rte_pktmbuf_free w (m_id mb)))) else
      if dst_device =? FLOOD_FRAME then
        w' ← flood w (m_id mb) (m_port mb) (buf pk2) (u16 VIGOR_DEVICES_COUNT);
        Some (Continue (next w'))
      else
        let '(sent, w') := rte_eth_tx_burst w dst_device (m_id mb) (buf pk2) in
        if negb (sent =? 1) then Some (Return w') else Some (Continue (next w'))
  end.

(** One round over the devices; the counter has 16 bits. *)
Definition worker_round (count now : Z) (s : loop_state) : option (outcome loop_state world) :=
  iterate (S (Z.to_nat count)) (λ '(device, s),
    if device <? count then
      o ← worker_body count device now s;
      match o with
      | Continue s' => Some (Continue (u16 (device + 1), s'))
      | Return r => Some (Return (Return r))
      end
    else Some (Return (Continue s))) (0, s).

(** The first rounds of the endless loop, by the times they start at. *)
Fixpoint worker_main (count : Z) (times : list Z) (s : loop_state)
    : option (outcome loop_state world) :=
  match times with
  | [] => Some (Continue s)
  | now :: times' =>
      o ← worker_round count now s;
      match o with
      | Continue s' => worker_main count times' s'
      | Return r => Some (Return r)
      end
  end.

End loop.
End dpdk.

Arguments LoopState {nf} _ _ _ _ _.
Arguments ls_nf {nf} _.
Arguments ls_total {nf} _.
Arguments ls_read {nf} _.
Arguments ls_chunks {nf} _.
Arguments ls_world {nf} _.
Arguments worker_body rx tx {nf} _ _ _ _.
Arguments worker_round rx tx {nf} _ _ _.
Arguments worker_main rx tx {nf} _ _ _.

(** ** Interface

    What the loop relies on: for packets that satisfy [pkt_ok], on any of the
    [devices] and at times that do not go back, the network function runs,
    keeps its invariant, returns a device or [FLOOD_FRAME] and leaves the
    packet where its chunks can be returned. *)
Class NFContract (nf : NF) (devices : Z) (inv : nf_state nf → Z → Prop)
    (pkt_ok : Z → packet → Z → Prop) : Prop := {
  nf_step : ∀ st before now device pk tail,
    inv st before → before ≤ now → 0 ≤ now < 2 ^ 63 → received pk tail → pkt_ok device pk tail →
    0 ≤ device < devices →
    ∃ r pk' st', nf_process nf st device (global_total_length pk) now pk = Some (r, pk', st') ∧
      inv st' now ∧ (0 ≤ r < devices ∨ r = FLOOD_FRAME) ∧
      nf_return_all_chunks pk' = Packet (base pk) (buf pk') (global_total_length pk) 0 []
}.

(** ** Ownership *)

(** The devices that a flooded packet goes to. *)
Definition others (port n : Z) : list Z := filter (λ d, d ≠ port) (seqZ 0 n).

(** The calls for a flooded packet, by the answers of the devices. *)
Definition flood_ios (count device id : Z) (bytes : list Z) (answers : list bool) : list io :=
  SetRefcnt id (count - 1) ::
  zip_with (λ d a, Transmit d id bytes a) (others device count) answers ++
  (if forallb (λ a, a) answers then [] else [SetRefcnt id 1; FreeMbuf id]).

(** What may happen to a buffer received on a device: it is freed; or one other
    device accepts it; or it is flooded. *)
Inductive disposed (count device id : Z) : list io → Prop :=
| disposed_free : disposed count device id [FreeMbuf id]
| disposed_send d bytes :
    0 ≤ d < count → d ≠ device → disposed count device id [Transmit d id bytes true]
| disposed_flood bytes answers :
    length answers = length (others device count) →
    disposed count device id (flood_ios count device id bytes answers).

(** The references to a buffer: how many there are after the calls, when there was one before, and
    how many were given away, to devices that accepted the buffer or by freeing it. *)
Definition references (ios : list io) : Z :=
  foldl (λ n c, match c with SetRefcnt _ n' => n' | _ => n end) 1 ios.

Definition gives (c : io) : bool :=
  match c with Transmit _ _ _ true | FreeMbuf _ => true | _ => false end.

Definition given (ios : list io) : Z := Z.of_nat (length (filter (λ c, gives c = true) ios)).

(** The buffer goes back to its pool exactly once: every reference is given away, and no more. *)
Definition released (ios : list io) : bool := (given ios =? references ios) && (0 <? given ios).

(** Some devices accepted the packet and others refused it. *)
Definition partly (ios : list io) : bool :=
  existsb (λ c, match c with Transmit _ _ _ true => true | _ => false end) ios &&
  existsb (λ c, match c with Transmit _ _ _ false => true | _ => false end) ios.

(** Each reception is followed at once by the disposal of its buffer, which is released exactly
    once unless it was flooded to devices of which some accepted and some refused it. *)
Inductive handled (count : Z) : list io → Prop :=
| handled_nil : handled count []
| handled_step tr device id ios :
    handled count tr → 0 ≤ device < count → disposed count device id ios →
    released ios = negb (partly ios) → handled count (tr ++ Receive device id :: ios).

(** The program was aborted: the last call is a transmission that was refused, of a buffer that
    was just received. *)
Definition aborted (count : Z) (tr : list io) : Prop :=
  ∃ tr' device id d bytes, tr = tr' ++ [Receive device id; Transmit d id bytes false] ∧
    handled count tr' ∧ 0 ≤ device < count ∧ 0 ≤ d < count ∧ d ≠ device.

(** What the loop gives: it goes on, with the invariant of the network function, nothing borrowed
    and every buffer disposed of; or a transmission was refused and the program aborted. *)
Definition runs_ok {nf : NF} (devices : Z) (inv : nf_state nf → Z → Prop) (tx : nat → bool)
    (o : outcome (loop_state nf) world) : Prop :=
  match o with
  | Continue s => (∃ t, inv (ls_nf s) t) ∧ ls_read s = 0 ∧ ls_chunks s = [] ∧
      handled devices (trace (ls_world s))
  | Return w => aborted devices (trace w) ∧ ∃ n, tx n = false
  end.

(** ** Proofs *)

Lemma seqZ_snoc i : 0 ≤ i → seqZ 0 (i + 1) = seqZ 0 i ++ [i].
Proof. intros. rewrite seqZ_app by lia. by rewrite Z.add_0_l. Qed.

Lemma others_length port n : 0 ≤ port < n → Z.of_nat (length (others port n)) = n - 1.
Proof.
  intros Hp. unfold others.
  replace n with (port + (1 + (n - port - 1))) by lia. rewrite !seqZ_app by lia.
  rewrite !filter_app, !length_app. change (seqZ (0 + port) 1) with [0 + port].
  rewrite filter_cons_False, filter_nil by lia.
  rewrite !filter_all by (intros x Hx%elem_of_seqZ; lia). rewrite !length_seqZ. cbn [length]. lia.
Qed.

(** A disposal releases the buffer unless it is a flooding that was partly refused. *)
Lemma disposed_released count device id ios :
  1 < count → 0 ≤ device < count → disposed count device id ios → released ios = negb (partly ios).
Proof.
  intros Hc Hd [|d bytes _ _|bytes answers Hlen]; [done|done|].
  pose proof (others_length device count Hd) as Ho. unfold flood_ios.
  set (tx := zip_with _ _ _).
  assert (given tx = Z.of_nat (length (filter (λ a, a = true) answers)) ∧
    (∀ n, foldl (λ n c, match c with SetRefcnt _ n' => n' | _ => n end) n tx = n) ∧
    existsb (λ c, match c with Transmit _ _ _ true => true | _ => false end) tx = existsb (λ a, a) answers ∧
    existsb (λ c, match c with Transmit _ _ _ false => true | _ => false end) tx = negb (forallb (λ a, a) answers))
    as (Hg & Hr & Hx & Hy).
  { subst tx. revert Hlen. generalize (others device count). intros l. clear. revert l.
    induction answers as [|a answers IH]; intros [|d l]; simpl; try done. intros [= Hlen].
    destruct (IH l Hlen) as (Hg & Hr & Hx & Hy). unfold given in *.
    rewrite !filter_cons. destruct a; simpl; rewrite ?Hx, ?Hy; split_and!; try done; lia. }
  unfold released, partly, given, references. cbn [foldl existsb orb]. rewrite filter_cons_False by done.
  rewrite filter_app, length_app, foldl_app, !existsb_app, Hr, Hx, Hy. unfold given in Hg.
  apply Nat2Z.inj in Hg. rewrite Hg.
  destruct (forallb (λ a, a) answers) eqn:Hall; cbn [negb].
  - assert (filter (λ a, a = true) answers = answers) as ->.
    { apply filter_all. intros a Ha%list_elem_of_In. rewrite forallb_forall in Hall. by apply Hall. }
    simpl. rewrite !orb_false_r, andb_false_r. simpl. rewrite Nat.add_0_r. lia.
  - rewrite !filter_cons_False, filter_cons_True by done. simpl. rewrite !orb_false_r, andb_true_r.
    destruct (existsb (λ a, a) answers) eqn:Hany; cbn [negb].
    + apply existsb_exists in Hany as (a & Ha%list_elem_of_In & ->).
      assert (true ∈ filter (λ a, a = true) answers) as Hin by (by apply list_elem_of_filter).
      destruct (filter _ answers); [by apply elem_of_nil in Hin|]. cbn [length].
      destruct (Z.eqb_spec (Z.of_nat (S (length l) + 1)) 1); [lia|done].
    + assert (filter (λ a, a = true) answers = []) as ->; [|done].
      apply filter_none. intros a Ha -> . apply not_true_iff_false in Hany. apply Hany, existsb_exists.
      exists true. split; [by apply list_elem_of_In|done].
Qed.

Section flooding.
Variable tx : nat → bool.

(** The transmissions of a packet to devices, from the [c]-th request on. *)
Definition sends (c : nat) (id : Z) (bytes : list Z) (ds : list Z) : list io :=
  imap (λ k d, Transmit d id bytes (tx (c + k))) ds.

(** How many of the first [n] are accepted. *)
Definition accepted (c n : nat) : Z := ncount (λ k, tx (c + Z.to_nat k)) n.

Lemma flood_loop w id port bytes nb :
  0 ≤ nb < 2 ^ 16 →
  ∃ w', for_each 0 nb (λ device '(total_sent, w),
     if negb (device =? port) then
       let '(n, w') := rte_eth_tx_burst tx w device id bytes in
       total_sent' ← int_chk (total_sent + n);
       Some (total_sent', w')
     else Some (total_sent, w)) (0, w) =
    Some (accepted (tx_calls w) (length (others port nb)), w') ∧
    rx_calls w' = rx_calls w ∧
    trace w' = trace w ++ sends (tx_calls w) id bytes (others port nb).
Proof.
  intros Hnb. match goal with |- context [for_each 0 nb ?b _] =>
    destruct (for_each_rule (S := Z * world) (λ i '(sent, w'),
      sent = accepted (tx_calls w) (length (others port i)) ∧ rx_calls w' = rx_calls w ∧
      tx_calls w' = (tx_calls w + length (others port i))%nat ∧
      trace w' = trace w ++ sends (tx_calls w) id bytes (others port i)) 0 nb b (0, w))
      as ([sent w'] & -> & -> & ? & ? & ?) end; [lia|lia| | |by eauto].
  { unfold others. simpl. split_and!; [done|done|lia|]. by rewrite app_nil_r. }
  intros i [sent w1] Hi (-> & Hrx & Htx & Htr). 
  assert (others port (i + 1) = others port i ++ filter (λ d, d ≠ port) [i]) as ->
    by (unfold others; by rewrite seqZ_snoc, filter_app by lia).
  destruct (Z.eqb_spec i port) as [->|Hne]; cbn [negb].
  { eexists. split; [done|]. simpl. rewrite filter_cons_False by lia. rewrite app_nil_r. done. }
  assert (Z.of_nat (length (others port i)) ≤ i) as Hlen.
  { unfold others. pose proof (length_filter (λ d, d ≠ port) (seqZ 0 i)) as Hl.
    rewrite length_seqZ in Hl. lia. }
  pose proof (ncount_range (λ k, tx (tx_calls w + Z.to_nat k)) (length (others port i))) as Hr.
  fold (accepted (tx_calls w) (length (others port i))) in Hr.
  unfold rte_eth_tx_burst. rewrite int_chk_small; cycle 1.
  { unfold INT_MIN, INT_MAX. destruct (tx (tx_calls w1)); simpl; lia. }
  cbn [mbind option_bind]. eexists. split; [done|]. simpl.
  rewrite filter_cons_True, filter_nil by done. rewrite length_app. simpl.
  split_and!; [|done|lia|].
  - rewrite Nat.add_1_r. unfold accepted. simpl. rewrite Htx, Nat2Z.id. done.
  - unfold sends. rewrite imap_app. simpl. rewrite Nat.add_0_r, Htr, Htx, <- app_assoc. done.
Qed.

(** Flooding, whatever the devices answer. *)
Lemma flood_spec w id port bytes nb :
  0 ≤ port < nb → nb < 2 ^ 16 →
  ∃ w', flood tx w id port bytes nb = Some w' ∧ rx_calls w' = rx_calls w ∧
    trace w' = trace w ++ SetRefcnt id (nb - 1) :: sends (tx_calls w) id bytes (others port nb) ++
      (if accepted (tx_calls w) (length (others port nb)) =? nb - 1
       then [] else [SetRefcnt id 1; FreeMbuf id]).
Proof.
  intros Hp Hnb. unfold flood. rewrite u16_small by lia.
  destruct (flood_loop (rte_mbuf_refcnt_set w id (nb - 1)) id port bytes nb)
    as (w' & -> & Hrx & Htr); [lia|]. cbn [mbind option_bind]. simpl in Hrx, Htr.
  destruct (accepted _ _ =? nb - 1); cbn [negb]; (eexists; split; [done|]); simpl;
    (split; [done|]); rewrite Htr, <- app_assoc; simpl; rewrite <- ?app_assoc, ?app_nil_r; done.
Qed.

(** Flooding is a disposal. *)
Lemma flood_disposes w id port bytes nb :
  0 ≤ port < nb → nb < 2 ^ 16 →
  ∃ w' ios, flood tx w id port bytes nb = Some w' ∧ rx_calls w' = rx_calls w ∧
    trace w' = trace w ++ ios ∧ disposed nb port id ios.
Proof.
  intros Hp Hnb. destruct (flood_spec w id port bytes nb Hp Hnb) as (w' & Hf & Hrx & Htr).
  set (answers := (λ k, tx (tx_calls w + k)) <$> seq 0 (length (others port nb))).
  exists w', (flood_ios nb port id bytes answers). split_and!; [done|done| |].
  2: { apply disposed_flood. unfold answers. by rewrite length_fmap, length_seq. }
  rewrite Htr. unfold flood_ios. do 2 f_equal. f_equal.
  - unfold sends, answers. generalize (tx_calls w). generalize (others port nb). clear.
    intros l. induction l as [|d l IH]; intros c; [done|]. cbn [imap length seq fmap list_fmap zip_with].
    rewrite Nat.add_0_r. f_equal. rewrite <- fmap_S_seq, <- list_fmap_compose.
    specialize (IH (S c)). unfold compose in *.
    replace (imap (λ k d0, Transmit d0 id bytes (tx (c + S k))) l)
      with (imap (λ k d0, Transmit d0 id bytes (tx (S c + k))) l)
      by (apply imap_ext; intros; f_equal; f_equal; lia).
    rewrite IH. f_equal. apply list_fmap_ext. intros k x _. f_equal. lia.
  - assert (accepted (tx_calls w) (length (others port nb)) = nb - 1 ↔
            forallb (λ a, a) answers = true) as Hiff.
    { rewrite <- (others_length port nb Hp). unfold accepted, answers.
      generalize (length (others port nb)). intros n. rewrite forallb_forall. split.
      - intros Heq a Ha%list_elem_of_In. apply list_elem_of_fmap in Ha as (k & -> & Hk%elem_of_seq).
        pose proof (ncount_full _ _ Heq (Z.of_nat k) ltac:(lia)) as Hx. simpl in Hx.
        by rewrite Nat2Z.id in Hx.
      - intros Hall. induction n as [|n IH]; [done|]. cbn [ncount]. rewrite IH, Nat2Z.id.
        + rewrite (Hall (tx (tx_calls w + n))); [simpl; lia|]. apply list_elem_of_In.
          apply (list_elem_of_fmap_2 (λ k, tx (tx_calls w + k))), elem_of_seq. lia.
        + intros a Ha%list_elem_of_In. apply list_elem_of_fmap in Ha as (k & -> & Hk%elem_of_seq).
          apply Hall, list_elem_of_In. apply (list_elem_of_fmap_2 (λ k, tx (tx_calls w + k))), elem_of_seq.
          lia. }
    destruct (Z.eqb_spec (accepted (tx_calls w) (length (others port nb))) (nb - 1)) as [Heq|Hne];
      destruct (forallb (λ a, a) answers); tauto || (exfalso; naive_solver).
Qed.

End flooding.

Section running.
Context (nf : NF) (devices : Z) (inv : nf_state nf → Z → Prop) (pkt_ok : Z → packet → Z → Prop).
Context `{!NFContract nf devices inv pkt_ok}.
Variable rx : nat → Z → option mbuf.
Variable tx : nat → bool.
Implicit Types (s : loop_state nf).

(** The packet of a buffer when nothing of it has been read. *)
Definition mbuf_packet (mb : mbuf) : packet := Packet (m_data mb) (m_buf mb) (pkt_len mb) 0 [].

(** DPDK delivers packets of the right port that the network function admits. *)
Definition rx_ok : Prop := ∀ n device mb,
  rx n device = Some mb → m_port mb = device ∧
    ∃ tail, received (mbuf_packet mb) tail ∧ pkt_ok device (mbuf_packet mb) tail.

Hypothesis Hdev : 1 < devices < 2 ^ 16.
Hypothesis Hrx : rx_ok.

(** Between two packets: the invariant of the network function, nothing
    borrowed, and every buffer received so far disposed of. *)
Record loop_ok s (now : Z) : Prop := LoopOk {
  lo_inv : ∃ t, t ≤ now ∧ inv (ls_nf s) t;
  lo_read : ls_read s = 0;
  lo_chunks : ls_chunks s = [];
  lo_handled : handled devices (trace (ls_world s))
}.

(** How the loop may go on or end. *)
Definition ends_ok (o : outcome (loop_state nf) world) (now : Z) : Prop :=
  match o with
  | Continue s => loop_ok s now
  | Return w => aborted devices (trace w) ∧ ∃ n, tx n = false
  end.

Lemma body_spec s now device :
  loop_ok s now → 0 ≤ now < 2 ^ 63 → 0 ≤ device < devices →
  ∃ o, worker_body rx tx devices device now s = Some o ∧ ends_ok o now.
Proof.
  intros [(t & Ht & HI) Hread Hch Hh] Hnow Hd. unfold worker_body, rte_eth_rx_burst.
  destruct (rx (rx_calls (ls_world s)) device) as [mb|] eqn:Er.
  2: { eexists. split; [done|]. constructor; simpl; [by eauto|done..|by rewrite app_nil_r]. }
  destruct (Hrx _ _ _ Er) as (Hport & tail & HR & Hok).
  assert (packet_state_total_length (Packet (m_data mb) (m_buf mb) (ls_total s) (ls_read s)
            (ls_chunks s)) (pkt_len mb) = mbuf_packet mb) as ->.
  { unfold packet_state_total_length, mbuf_packet. simpl. by rewrite Hread, Hch. }
  destruct (nf_step (ls_nf s) t now device (mbuf_packet mb) tail HI Ht Hnow HR Hok Hd)
    as (r & pk' & st' & Hp & HI' & Hr & Hret).
  pose proof (rc_total _ _ HR) as Hlen. simpl in Hlen, Hp.
  rewrite Hport, (u16_small (pkt_len mb)), Hp by lia. cbn [mbind option_bind]. rewrite Hret. simpl.
  set (w := World _ _ _).
  assert (∀ tr, disposed devices device (m_id mb) tr →
            handled devices (trace w ++ tr)) as Hstep.
  { intros tr Hdis. unfold w. simpl. rewrite <- app_assoc. apply handled_step; try done.
    by eapply disposed_released; [apply Hdev|..]. }
  assert (0 ≤ r < 2 ^ 16) as Hrr by (destruct Hr as [?| ->]; [lia|done]). rewrite u16_small by lia.
  destruct (Z.eqb_spec r device) as [->|Hne].
  { eexists. split; [done|]. constructor; simpl; [by exists now|done..|].
    apply (Hstep [FreeMbuf (m_id mb)]). constructor. }
  destruct (Z.eqb_spec r FLOOD_FRAME) as [->|Hnf].
  - rewrite u16_small by lia.
    destruct (flood_disposes tx w (m_id mb) device (buf pk') devices Hd ltac:(lia))
      as (w' & ios & -> & _ & Htr & Hdis). cbn [mbind option_bind].
    eexists. split; [done|]. constructor; simpl; [by exists now|done..|]. rewrite Htr.
    by apply Hstep.
  - destruct Hr as [Hr|]; [|done]. unfold rte_eth_tx_burst.
    cbv zeta. simpl (tx_calls w). destruct (tx (tx_calls (ls_world s))) eqn:Et; (eexists; split; [done|]).
    + constructor; simpl; [by exists now|done..|].
      apply (Hstep [Transmit r (m_id mb) (buf pk') true]). by constructor.
    + split; [|by eexists]. exists (trace (ls_world s)), device, (m_id mb), r, (buf pk'). simpl.
      split_and!; try done; try lia. by rewrite <- app_assoc.
Qed.

Lemma round_spec s now :
  loop_ok s now → 0 ≤ now < 2 ^ 63 →
  ∃ o, worker_round rx tx devices now s = Some o ∧ ends_ok o now.
Proof.
  intros Hok Hnow. unfold worker_round.
  match goal with |- context [iterate _ ?f _] =>
    destruct (iterate_rule (S := Z * loop_state nf) (λ '(device, s), 0 ≤ device ≤ devices ∧ loop_ok s now)
      (λ o, ends_ok o now) (λ '(device, _), Z.to_nat (devices - device))
      f (S (Z.to_nat devices)) (0, s)) as (o & -> & Ho) end; [|by split; [lia|]|lia|by eauto].
  intros [device s1] [Hd Hs1]. destruct (Z.ltb_spec device devices).
  - destruct (body_spec s1 now device Hs1 Hnow) as (o & -> & Ho); [lia|].
    cbn [mbind option_bind]. destruct o as [s2|w]; [|by eexists]. rewrite u16_small by lia.
    eexists. split; [done|]. simpl. split; [split; [lia|done]|lia].
  - eexists. split; [done|]. done.
Qed.

(** Times that start at or after [before] and do not go back. *)
Fixpoint times_ok (before : Z) (times : list Z) : Prop :=
  match times with
  | [] => True
  | now :: times' => before ≤ now ∧ 0 ≤ now < 2 ^ 63 ∧ times_ok now times'
  end.

Lemma loop_ok_mono s now now' : loop_ok s now → now ≤ now' → loop_ok s now'.
Proof. intros [(t & ? & ?) ? ? ?] Hle. constructor; [exists t; split; [lia|done]|done..]. Qed.

Lemma main_spec times before s :
  loop_ok s before → times_ok before times →
  ∃ o now, worker_main rx tx devices times s = Some o ∧ ends_ok o now.
Proof.
  revert before s. induction times as [|now times IH]; intros before s Hok Ht; [by eauto|].
  destruct Ht as (Hb & Hn & Ht). cbn [worker_main].
  destruct (round_spec s now) as (o & -> & Ho); [by eapply loop_ok_mono|done|].
  cbn [mbind option_bind]. destruct o as [s1|w]; [by eauto|]. by exists (Return w), now.
Qed.

Lemma worker_main_spec st before total times :
  inv st before → times_ok before times →
  ∃ o, worker_main rx tx devices times (LoopState st total 0 [] (World 0 0 [])) = Some o ∧
    runs_ok devices inv tx o.
Proof.
  intros HI Ht. destruct (main_spec times before (LoopState st total 0 [] (World 0 0 [])))
    as (o & now & Hm & Ho); [|done|].
  - constructor; [exists before; split; [lia|done]|done..|constructor].
  - exists o. split; [done|]. destruct o as [s'|w]; [|done].
    destruct Ho as [(t & _ & HI') ? ? ?]. split_and!; try done. by exists t.
Qed.

End running.

(** ** Main results *)

(** C30: what becomes of every buffer.  Let a network function keep its contract on at least two
    devices, and let DPDK deliver packets that the function admits, with the right port.  Whatever
    DPDK answers to the transmissions, any number of rounds over the devices runs without undefined
    behaviour.  Between packets no chunk is borrowed and the invariant holds, and every received
    buffer was disposed of at once: freed, or accepted by one other device, or flooded to each of
    the others; it goes back to its pool exactly once, unless it was flooded and some devices
    accepted it and others refused it.  The loop is left only by [abort], at the first
    transmission to a single device that is refused; when none is refused it goes on. *)
Theorem worker_loses_no_buffer (nf : NF) (devices : Z) (inv : nf_state nf → Z → Prop)
    (pkt_ok : Z → packet → Z → Prop) (rx : nat → Z → option mbuf) (tx : nat → bool)
    (st : nf_state nf) (before total : Z) (times : list Z) :
  NFContract nf devices inv pkt_ok → 1 < devices < 2 ^ 16 →
  rx_ok pkt_ok rx → inv st before → times_ok before times →
  ∃ o, worker_main rx tx devices times (LoopState st total 0 [] (World 0 0 [])) = Some o ∧
    runs_ok devices inv tx o.
Proof. intros HN Hd Hrx HI Ht. by apply (worker_main_spec nf devices inv pkt_ok rx tx Hd Hrx st before). Qed.

(** Flooding frees a buffer that is still being sent.  When some but not
    all of the other devices accept a flooded packet, [flood] sets the
    reference count to one and frees the buffer, although at least one device
    has accepted it and not released it. *)
Theorem flood_frees_in_flight (tx : nat → bool) (w : world) (id port nb i j : Z)
    (bytes : list Z) :
  0 ≤ port < nb → nb < 2 ^ 16 →
  0 ≤ i < nb - 1 → 0 ≤ j < nb - 1 →
  tx (tx_calls w + Z.to_nat i)%nat = true → tx (tx_calls w + Z.to_nat j)%nat = false →
  ∃ w' ios d, flood tx w id port bytes nb = Some w' ∧
    trace w' = trace w ++ ios ++ [SetRefcnt id 1; FreeMbuf id] ∧
    d ≠ port ∧ Transmit d id bytes true ∈ ios.
Proof.
  intros Hp Hnb Hi Hj Htrue Hfalse. pose proof (others_length port nb Hp) as Hlen.
  destruct (flood_spec tx w id port bytes nb Hp Hnb) as (w' & Hf & _ & Htr).
  destruct (lookup_lt_is_Some_2 (others port nb) (Z.to_nat i)) as [d Hd]; [lia|].
  assert ((accepted tx (tx_calls w) (length (others port nb)) =? nb - 1) = false) as Hacc.
  { apply Z.eqb_neq. intros Heq. unfold accepted in Heq. rewrite <- Hlen in Heq.
    pose proof (ncount_full _ _ Heq j ltac:(lia)) as Hx. simpl in Hx. congruence. }
  rewrite Hacc in Htr.
  exists w', (SetRefcnt id (nb - 1) :: sends tx (tx_calls w) id bytes (others port nb)), d.
  split_and!; [done|done| |].
  - apply list_elem_of_lookup_2, list_elem_of_filter in Hd. by destruct Hd.
  - apply elem_of_cons. right. apply list_elem_of_lookup. exists (Z.to_nat i).
    unfold sends. rewrite list_lookup_imap, Hd. simpl. by rewrite Htrue.
Qed.

(** ** Concrete instances *)

(** vignop as a network function. *)
Definition nop_nf (config : Nop.nop_config) : NF :=
  MkNF unit (λ _ device _ _ pk, Some (Nop.nop_process config device, pk, tt)).

Lemma nop_contract config devices :
  0 ≤ Nop.lan_device config < devices → 0 ≤ Nop.wan_device config < devices →
  NFContract (nop_nf config) devices (λ _ _, True) (λ _ _ _, True).
Proof.
  intros Hl Hw. constructor. intros st before now device pk tail _ _ _ HR _ _.
  eexists _, _, _. split_and!; [done|done| |].
  - left. unfold Nop.nop_process. by destruct (device =? _).
  - destruct HR, pk; simpl in *; by subst.
Qed.

(** One packet arrives on device 0 at the first request. *)
Definition demo_rx (n : nat) (device : Z) : option mbuf :=
  match n, device with
  | O, 0 => Some (Mbuf 77 4096 (buf demo_packet) 60 0)
  | _, _ => None
  end.

Lemma demo_rx_ok : rx_ok (λ _ _ _, True) demo_rx.
Proof.
  intros n device mb. destruct n, device; simpl; try done. intros [= <-].
  split; [done|]. exists 20. split; [apply demo_packet_received|done].
Qed.

(** The device accepts the packet, or refuses it, which ends the program. *)
Lemma worker_loses_no_buffer_witness :
  (∃ s', worker_main demo_rx (λ _, true) 2 [5; 6]
      (LoopState (nf := nop_nf (Nop.MkConfig 0 1)) tt 0 0 [] (World 0 0 [])) = Some (Continue s') ∧
    trace (ls_world s') = [Receive 0 77; Transmit 1 77 (buf demo_packet) true]) ∧
  (∃ w, worker_main demo_rx (λ _, false) 2 [5; 6]
      (LoopState (nf := nop_nf (Nop.MkConfig 0 1)) tt 0 0 [] (World 0 0 [])) = Some (Return w) ∧
    aborted 2 (trace w)).
Proof.
  pose proof (λ tx, worker_loses_no_buffer (nop_nf (Nop.MkConfig 0 1)) 2 _ _ demo_rx tx tt 0 0
    [5; 6] (nop_contract (Nop.MkConfig 0 1) 2 ltac:(simpl; lia) ltac:(simpl; lia))
    ltac:(lia) demo_rx_ok ltac:(done) ltac:(simpl; lia)) as Hw. split.
  - destruct (Hw (λ _, true)) as ([s'|w] & Hm & Ho); [|by destruct Ho as [_ [_ [=]]]].
    exists s'. split; [exact Hm|]. vm_compute in Hm. injection Hm as <-. reflexivity.
  - destruct (Hw (λ _, false)) as ([s'|w] & Hm & Ho); [exfalso; vm_compute in Hm; discriminate Hm|].
    exists w. split; [exact Hm|]. apply Ho.
Defined.

(** Three devices, of which the first accepts and the second refuses. *)
Lemma flood_frees_in_flight_witness :
  ∃ w' ios d, flood (λ n, Nat.eqb n 0) (World 0 0 []) 77 0 [1; 2; 3] 3 = Some w' ∧
    trace w' = [] ++ ios ++ [SetRefcnt 77 1; FreeMbuf 77] ∧ d ≠ 0 ∧
    Transmit d 77 [1; 2; 3] true ∈ ios.
Proof. apply (flood_frees_in_flight _ (World 0 0 []) 77 0 3 0 1 [1; 2; 3]); simpl; lia || done. Defined.
