(* ===== verification/Batch.v ===== *)
(** * nf.c: the batched main loop

    The loop that is compiled when [VIGOR_BATCH_SIZE] is not 1.  With exactly
    two devices, it receives a batch of packets, hands each to the network
    function, and sends those that are not dropped to the other device with
    one request.  What the request does not take is freed, and the file states
    exactly when the right buffers are. *)
From stdpp Require Import base list numbers sets.
From Stdlib Require Import ZArith Lia.
From S2P Require Import Prelude.
From S2P Require Import Packet.
From S2P Require Import Fwd.
From S2P Require Import MainLoop.

Section batch.
Variable nf : NF.
(** What the [n]-th receive request finds, how many packets the [n]-th transmit
    request takes, and what the [n]-th call of [current_time] returns. *)
Variable rx : nat → Z → list mbuf.
Variable tx : nat → nat.
Variable clock : nat → Z.
Variable VIGOR_BATCH_SIZE : Z.

(** The state of the loop, with the number of readings of the clock. *)
Record batch_state := BatchState {
  bs_nf : nf_state nf;
  bs_total : Z;
  bs_read : Z;
  bs_chunks : list Z;
  bs_clock : nat;
  bs_world : world
}.

Definition set_world (s : batch_state) (w : world) : batch_state :=
  BatchState (bs_nf s) (bs_total s) (bs_read s) (bs_chunks s) (bs_clock s) w.

(** [rte_eth_rx_burst] for at most [VIGOR_BATCH_SIZE] packets. *)
Definition rx_burst (w : world) (device : Z) : list mbuf * world :=
  let mbs := take (Z.to_nat VIGOR_BATCH_SIZE) (rx (rx_calls w) device) in
  (mbs, World (S (rx_calls w)) (tx_calls w)
          (trace w ++ ((λ mb, Receive device (m_id mb)) <$> mbs))).

(** [rte_eth_tx_burst]: the buffers are offered in order, and the device takes
    a prefix of them. *)
Definition tx_burst (w : world) (device : Z) (pkts : list (Z * list Z)) : Z * world :=
  let sent := Nat.min (tx (tx_calls w)) (length pkts) in
  (Z.of_nat sent, World (rx_calls w) (S (tx_calls w))
     (trace w ++ imap (λ k '(id, bytes), Transmit device id bytes (Nat.ltb k sent)) pkts)).

(** The body of the loop over the received packets; [mbufs_to_send] with the
    contents of its packets has [VIGOR_BATCH_SIZE] places. *)
Definition batch_packet (mbufs : list mbuf) (VIGOR_DEVICE n : Z)
    '((s, mbufs_to_send) : batch_state * list (Z * list Z))
    : option (batch_state * list (Z * list Z)) :=
  mb ← rd mbufs n;
  let pk0 := packet_state_total_length
               (Packet (m_data mb) (m_buf mb) (bs_total s) (bs_read s) (bs_chunks s))
               (pkt_len mb) in
  let VIGOR_NOW := clock (bs_clock s) in
  '(r, pk1, nfs) ← nf_process nf (bs_nf s) (m_port mb) (u16 (pkt_len mb)) VIGOR_NOW pk0;
  let dst_device := u16 r in
  let pk2 := nf_return_all_chunks pk1 in
  let next := BatchState nfs (global_total_length pk2) (global_read_length pk2)
                (chunks_borrowed pk2) (S (bs_clock s)) in
  if dst_device =? VIGOR_DEVICE then
    Some (next (rte_pktmbuf_free (bs_world s) (m_id mb)), mbufs_to_send)
  else
    _ ← c_assert (zlen mbufs_to_send <? VIGOR_BATCH_SIZE);
    Some (next (bs_world s), mbufs_to_send ++ [(m_id mb, buf pk2)]).

(** The body of the loop over the devices. *)
Definition batch_body (VIGOR_DEVICE : Z) (s : batch_state) : option batch_state :=
  let '(mbufs, w) := rx_burst (bs_world s) VIGOR_DEVICE in
  let rx_count := u16 (zlen mbufs) in
  '(s, mbufs_to_send) ← for_each 0 rx_count (batch_packet mbufs VIGOR_DEVICE) (set_world s w, []);
  let tx_count := u16 (zlen mbufs_to_send) in
  let '(sent_count, w) := tx_burst (bs_world s) (u16 (1 - VIGOR_DEVICE)) mbufs_to_send in
  w ← for_each sent_count tx_count (λ n w,
        mb ← rd mbufs n; Some (rte_pktmbuf_free w (m_id mb))) w;
  Some (set_world s w).

(** The first rounds of the endless loop. *)
Fixpoint batch_rounds (rounds : nat) (s : batch_state) : option batch_state :=
  match rounds with
  | O => Some s
  | S rounds' =>
      s' ← for_each 0 2 batch_body s;
      batch_rounds rounds' s'
  end.

(** [worker_main] after [nf_init]: [Return] is the call of [exit]. *)
Definition worker_batched (VIGOR_DEVICES_COUNT : Z) (rounds : nat) (s : batch_state)
    : option (outcome batch_state unit) :=
  if negb (VIGOR_DEVICES_COUNT =? 2) then Some (Return tt) else
  s' ← batch_rounds rounds s;
  Some (Continue s').

End batch.

Arguments BatchState {nf} _ _ _ _ _ _.
Arguments bs_nf {nf} _.
Arguments bs_total {nf} _.
Arguments bs_read {nf} _.
Arguments bs_chunks {nf} _.
Arguments bs_clock {nf} _.
Arguments bs_world {nf} _.
Arguments set_world {nf} _ _.

(** ** Release of buffers *)

(** The buffer that a call gives away: a free, or an accepted transmission. *)
Definition release (i : io) : option Z :=
  match i with
  | FreeMbuf id => Some id
  | Transmit _ id _ true => Some id
  | _ => None
  end.

Definition reception (i : io) : option Z :=
  match i with Receive _ id => Some id | _ => None end.

Definition released (tr : list io) : list Z := omap release tr.
Definition receptions (tr : list io) : list Z := omap reception tr.

(** The buffers that are offered for transmission. *)
Definition offer (i : io) : option Z :=
  match i with Transmit _ id _ _ => Some id | _ => None end.

Definition offered (tr : list io) : list Z := omap offer tr.

(** The elements of [ids] whose mark is [b]. *)
Fixpoint marked (b : bool) (ks : list bool) (ids : list Z) : list Z :=
  match ks, ids with
  | k :: ks', x :: ids' => if Bool.eqb k b then x :: marked b ks' ids' else marked b ks' ids'
  | _, _ => []
  end.

Lemma marked_app b ks1 ks2 ids1 ids2 :
  length ks1 = length ids1 →
  marked b (ks1 ++ ks2) (ids1 ++ ids2) = marked b ks1 ids1 ++ marked b ks2 ids2.
Proof.
  revert ids1. induction ks1 as [|k ks1 IH]; intros [|x ids1] Hlen; try done.
  simpl. rewrite IH by (simpl in Hlen; lia). by destruct (Bool.eqb k b).
Qed.

Lemma marked_partition ks ids :
  length ks = length ids → ids ≡ₚ marked false ks ids ++ marked true ks ids.
Proof.
  revert ids. induction ks as [|k ks IH]; intros [|x ids] Hlen; try done.
  simpl in *. rewrite (IH ids) at 1 by lia. destruct k; simpl; [apply Permutation_middle|done].
Qed.

Lemma marked_elem b ks ids x : x ∈ marked b ks ids → x ∈ ids.
Proof.
  revert ids. induction ks as [|k ks IH]; intros [|y ids]; simpl;
    try (by intros Hx; apply elem_of_nil in Hx).
  intros Hx. destruct (Bool.eqb k b); [|by right; apply IH].
  apply elem_of_cons in Hx as [->|Hx]; [left|right; by apply IH].
Qed.

Lemma marked_length b ks ids : (length (marked b ks ids) ≤ length ids)%nat.
Proof.
  revert ids. induction ks as [|k ks IH]; intros [|y ids]; simpl; try lia.
  pose proof (IH ids). destruct (Bool.eqb k b); simpl; lia.
Qed.

(** All marks are set exactly when nothing is left out. *)
Lemma marked_all ks ids :
  length ks = length ids → Forall (eq true) ks → marked true ks ids = ids.
Proof.
  intros Hlen Hall. revert ids Hlen.
  induction Hall as [|k ks <- _ IH]; intros [|y ids] Hlen; try done. simpl in *. by rewrite IH by lia.
Qed.

Lemma marked_full ks ids :
  length ks = length ids → length (marked true ks ids) = length ids → Forall (eq true) ks.
Proof.
  revert ids. induction ks as [|k ks IH]; intros [|y ids] Hlen Hfull; try done.
  simpl in *. pose proof (marked_length true ks ids).
  destruct k; simpl in Hfull; [|lia]. constructor; [done|]. apply (IH ids); lia.
Qed.

(** The marked elements among the first [m] and among the others. *)
Lemma marked_split ks ids m :
  length ks = length ids →
  marked true (take m ks) (take m ids) ++ marked true (drop m ks) (drop m ids) = marked true ks ids.
Proof.
  intros Hlen. rewrite <- marked_app by (rewrite !length_take; lia). by rewrite !take_drop.
Qed.

(** When as many first elements as there are marked ones are marked, these are
    the marked ones. *)
Lemma marked_prefix ks ids :
  length ks = length ids → let m := length (marked true ks ids) in
  Forall (eq true) (take m ks) → take m ids = marked true ks ids.
Proof.
  intros Hlen m Hall. pose proof (marked_length true ks ids) as Hm. fold m in Hm.
  pose proof (marked_split ks ids m Hlen) as Hsplit.
  rewrite marked_all in Hsplit by (done || rewrite !length_take; lia).
  apply (f_equal length) in Hsplit as Hl. rewrite length_app, length_take in Hl. fold m in Hl.
  destruct (marked true (drop m ks) (drop m ids)); [by rewrite app_nil_r in Hsplit|].
  simpl in Hl. lia.
Qed.

(** This is so when the last marked one is among them. *)
Lemma marked_last ks ids z :
  length ks = length ids → NoDup ids → let m := length (marked true ks ids) in
  last (marked true ks ids) = Some z → z ∈ take m ids → Forall (eq true) (take m ks).
Proof.
  intros Hlen Hnd m Hlast Hz. pose proof (marked_length true ks ids) as Hm. fold m in Hm.
  pose proof (marked_split ks ids m Hlen) as Hsplit.
  destruct (marked true (drop m ks) (drop m ids)) as [|x l] eqn:E.
  - apply (marked_full _ (take m ids)); [rewrite !length_take; lia|].
    rewrite app_nil_r in Hsplit. rewrite Hsplit, length_take. fold m. lia.
  - exfalso. rewrite <- Hsplit, last_app_cons in Hlast.
    assert (z ∈ drop m ids) as Hz'.
    { apply (marked_elem true (drop m ks)). rewrite E. by apply last_Some_elem_of. }
    rewrite <- (take_drop m ids) in Hnd. apply NoDup_app in Hnd as (_ & Hd & _).
    exact (Hd z Hz Hz').
Qed.

(** Freeing the buffers of the batch at the positions from [sent] to [m], where
    [m] are to be sent, frees those that were not sent exactly when all have
    been sent or the first [m] are the ones to be sent. *)
Lemma rest_released ks ids sent :
  length ks = length ids → NoDup ids → let out := marked true ks ids in
  let m := length out in (sent ≤ m)%nat →
  marked false ks ids ++ take sent out ++ take (m - sent) (drop sent ids) ≡ₚ ids ↔
  sent = m ∨ Forall (eq true) (take m ks).
Proof.
  intros Hlen Hnd out m Hs. pose proof (marked_length true ks ids) as Hm. fold out m in Hm.
  assert (take (m - sent) (drop sent ids) = drop sent (take m ids)) as ->
    by (symmetry; apply skipn_firstn_comm).
  transitivity (Permutation (drop sent (take m ids)) (drop sent out)).
  { pose proof (marked_partition ks ids Hlen) as Hall. fold out in Hall.
    rewrite <- (take_drop sent out) in Hall at 1. split; intros Hp.
    - apply (transitivity (R := Permutation) Hp) in Hall.
      by do 2 apply Permutation_app_inv_l in Hall.
    - etransitivity; [|symmetry; exact Hall]. by rewrite Hp. }
  split.
  - intros Hp. destruct (decide (sent = m)) as [|Hne]; [by left|]. right.
    destruct (last out) as [z|] eqn:Ez; [|apply last_None in Ez; unfold m in *; rewrite Ez in *; simpl in *; lia].
    apply (marked_last ks ids z); [done..|].
    assert (z ∈ drop sent (take m ids)) as Hz; [|by apply (subseteq_drop sent)].
    rewrite Hp. apply last_Some in Ez as [l' Hl']. rewrite Hl', drop_app_le; [set_solver|].
    unfold m in *. rewrite Hl', length_app in *. simpl in *. lia.
  - intros [->|Hall]; [rewrite !drop_ge; [done|unfold m; lia|rewrite length_take; lia]|].
    unfold m, out in *. by rewrite marked_prefix.
Qed.

(** ** The loop *)

Section running.
Context (nf : NF) (inv : nf_state nf → Z → Prop) (pkt_ok : Z → packet → Z → Prop).
Context `{!NFContract nf 2 inv pkt_ok}.
Variable rx : nat → Z → list mbuf.
Variable tx : nat → nat.
Variable clock : nat → Z.
Variable size : Z.
Implicit Types (s : batch_state nf).

(** A buffer that was received on [device]. *)
Definition mbuf_ok (device : Z) (mb : mbuf) : Prop :=
  m_port mb = device ∧
  ∃ tail, received (mbuf_packet mb) tail ∧ pkt_ok device (mbuf_packet mb) tail.

(** The clock does not go back. *)
Definition clock_ok : Prop := ∀ n, 0 ≤ clock n < 2 ^ 63 ∧ clock n ≤ clock (S n).

Hypothesis Hsize : 0 < size < 2 ^ 16.
Hypothesis Hclock : clock_ok.
Hypothesis Hrx : ∀ n device, Forall (mbuf_ok device) (rx n device).

Record batch_ok s : Prop := BatchOk {
  bo_inv : ∃ t, t ≤ clock (bs_clock s) ∧ inv (bs_nf s) t;
  bo_read : bs_read s = 0;
  bo_chunks : bs_chunks s = []
}.

(** One packet: [k] tells whether it is to be sent. *)
Lemma packet_spec s mbs device n mb pkts :
  batch_ok s → 0 ≤ device < 2 → rd mbs n = Some mb → mbuf_ok device mb → zlen pkts < size →
  ∃ (k : bool) s' bytes, batch_packet nf clock size mbs device n (s, pkts) =
      Some (s', if k then pkts ++ [(m_id mb, bytes)] else pkts) ∧ batch_ok s' ∧
    bs_world s' = if k then bs_world s else rte_pktmbuf_free (bs_world s) (m_id mb).
Proof.
  intros [(t & Ht & HI) Hread Hch] Hd Hn (Hport & tail & HR & Hok) Hp.
  unfold batch_packet. rewrite Hn. cbn [mbind option_bind].
  assert (packet_state_total_length (Packet (m_data mb) (m_buf mb) (bs_total s) (bs_read s)
            (bs_chunks s)) (pkt_len mb) = mbuf_packet mb) as ->.
  { unfold packet_state_total_length, mbuf_packet. simpl. by rewrite Hread, Hch. }
  destruct (Hclock (bs_clock s)) as [Hnow Hmono].
  destruct (nf_step (bs_nf s) t (clock (bs_clock s)) device (mbuf_packet mb) tail HI Ht Hnow HR Hok
    Hd) as (r & pk' & st' & Hpr & HI' & _ & Hret).
  pose proof (rc_total _ _ HR) as Hlen. simpl in Hlen, Hpr.
  rewrite Hport, (u16_small (pkt_len mb)), Hpr by lia. cbn [mbind option_bind]. rewrite Hret. simpl.
  destruct (u16 r =? device).
  - exists false. eexists _, []. split; [done|]. split; [|done].
    constructor; simpl; [by eauto|done..].
  - unfold c_assert. destruct (Z.ltb_spec (zlen pkts) size); [|lia]. cbn [mbind option_bind].
    exists true. eexists _, _. split; [done|]. split; [|done].
    constructor; simpl; [by eauto|done..].
Qed.

(** All packets of a batch. *)
Lemma packets_spec s mbs device :
  batch_ok s → 0 ≤ device < 2 → Forall (mbuf_ok device) mbs → zlen mbs ≤ size →
  let ids := m_id <$> mbs in
  ∃ s' pkts ks, for_each 0 (zlen mbs) (batch_packet nf clock size mbs device) (s, []) =
      Some (s', pkts) ∧ batch_ok s' ∧ length ks = length ids ∧ pkts.*1 = marked true ks ids ∧
    trace (bs_world s') = trace (bs_world s) ++ (FreeMbuf <$> marked false ks ids) ∧
    tx_calls (bs_world s') = tx_calls (bs_world s).
Proof.
  intros Hok Hd Hmbs Hlen ids.
  match goal with |- context [for_each 0 _ ?b _] =>
    destruct (for_each_rule (S := batch_state nf * list (Z * list Z)) (λ i '(s', pkts),
      batch_ok s' ∧ tx_calls (bs_world s') = tx_calls (bs_world s) ∧
      ∃ ks, length ks = Z.to_nat i ∧ pkts.*1 = marked true ks (take (Z.to_nat i) ids) ∧
        trace (bs_world s') =
          trace (bs_world s) ++ (FreeMbuf <$> marked false ks (take (Z.to_nat i) ids)))
      0 (zlen mbs) b (s, [])) as ([s' pkts] & -> & Hs' & Htx & ks & Hks & Hp & Htr) end.
  - unfold zlen. lia.
  - lia.
  - split_and!; [done|done|]. exists []. simpl. by rewrite app_nil_r.
  - intros i [s1 pkts] Hi (Hs1 & Htx & ks & Hks & Hp & Htr).
    destruct (rd_Some mbs i Hi) as [mb Hmb].
    assert (mbs !! Z.to_nat i = Some mb) as Hmb' by (rewrite rd_lookup in Hmb; [done|lia]).
    destruct (packet_spec s1 mbs device i mb pkts) as (k & s2 & bytes & -> & Hs2 & Hw);
      [done|done|done|by eapply Forall_lookup_1| |].
    { apply (f_equal length) in Hp. rewrite length_fmap in Hp.
      pose proof (marked_length true ks (take (Z.to_nat i) ids)) as Hm.
      rewrite length_take in Hm. unfold zlen. lia. }
    eexists. split; [done|]. simpl. split; [done|]. split; [destruct k; by rewrite Hw|].
    exists (ks ++ [k]). rewrite length_app. simpl. split; [lia|].
    assert (take (Z.to_nat (i + 1)) ids = take (Z.to_nat i) ids ++ [m_id mb]) as ->.
    { rewrite Z2Nat.inj_add, Nat.add_1_r by lia. apply take_S_r. unfold ids.
      by rewrite list_lookup_fmap, Hmb'. }
    assert (length ks = length (take (Z.to_nat i) ids)) as Hlt.
    { rewrite length_take. unfold ids. rewrite length_fmap. unfold zlen in Hi. lia. }
    rewrite !marked_app by done. rewrite Hw. destruct k; simpl; rewrite ?app_nil_r.
    + rewrite fmap_app. simpl. by rewrite Hp.
    + rewrite Hp, Htr, fmap_app, app_assoc. done.
  - exists s', pkts, ks. unfold zlen in *. rewrite Nat2Z.id in *.
    rewrite take_ge in Hp, Htr by (unfold ids; rewrite length_fmap; lia).
    unfold ids. rewrite length_fmap. done.
Qed.

(** The last loop. *)
Lemma free_loop w mbs a b :
  0 ≤ a ≤ b → b ≤ zlen mbs → b < 2 ^ 16 →
  ∃ w', for_each a b (λ n w, mb ← rd mbs n; Some (rte_pktmbuf_free w (m_id mb))) w = Some w' ∧
    trace w' = trace w ++ (FreeMbuf <$> take (Z.to_nat (b - a)) (drop (Z.to_nat a) (m_id <$> mbs))).
Proof.
  intros Hab Hb Hb2.
  match goal with |- context [for_each a b ?f _] =>
    destruct (for_each_rule (λ i w', trace w' = trace w ++
      (FreeMbuf <$> take (Z.to_nat (i - a)) (drop (Z.to_nat a) (m_id <$> mbs)))) a b f w)
      as (w' & -> & Htr) end; [lia|lia| | |by eauto].
  - rewrite Z.sub_diag. simpl. by rewrite app_nil_r.
  - intros i w1 Hi Htr. destruct (rd_Some mbs i) as [mb Hmb]; [lia|]. rewrite Hmb.
    eexists. split; [done|]. simpl. rewrite Htr, <- app_assoc. f_equal.
    replace (Z.to_nat (i + 1 - a)) with (S (Z.to_nat (i - a))) by lia.
    rewrite (take_S_r _ _ (m_id mb)), fmap_app; [done|].
    rewrite lookup_drop, list_lookup_fmap. rewrite rd_lookup in Hmb by lia.
    replace (Z.to_nat a + Z.to_nat (i - a))%nat with (Z.to_nat i) by lia. by rewrite Hmb.
Qed.

(** The calls of one batch: all packets are received, those to be dropped are
    freed, the others are offered, and the buffers at the positions that the
    device did not take are freed. *)
Definition batch_calls (device : Z) (ids : list Z) (ks : list bool) (pkts : list (Z * list Z))
    (sent : nat) : list io :=
  (Receive device <$> ids) ++ (FreeMbuf <$> marked false ks ids) ++
  imap (λ k '(id, bytes), Transmit (1 - device) id bytes (Nat.ltb k sent)) pkts ++
  (FreeMbuf <$> take (length pkts - sent) (drop sent ids)).

(** The buffers that the next batch from a device will hold. *)
Definition next_ids (w : world) (device : Z) : list Z :=
  m_id <$> take (Z.to_nat size) (rx (rx_calls w) device).

Lemma body_calls s device :
  batch_ok s → 0 ≤ device < 2 → let ids := next_ids (bs_world s) device in
  ∃ s' ks pkts, batch_body nf rx tx clock size device s = Some s' ∧ batch_ok s' ∧
    length ks = length ids ∧ pkts.*1 = marked true ks ids ∧
    trace (bs_world s') = trace (bs_world s) ++ batch_calls device ids ks pkts
      (Nat.min (tx (tx_calls (bs_world s))) (length pkts)).
Proof.
  intros Hok Hd ids. unfold batch_body, rx_burst. cbv beta iota zeta.
  set (mbs := take (Z.to_nat size) (rx (rx_calls (bs_world s)) device)).
  assert (zlen mbs ≤ size) as Hlen by (unfold zlen, mbs; rewrite length_take; lia).
  assert (Forall (mbuf_ok device) mbs) as Hmbs by (apply Forall_take, Hrx).
  set (s0 := set_world s _). assert (batch_ok s0) as Hs0 by (destruct Hok; by constructor).
  rewrite (u16_small (zlen mbs)) by (unfold zlen in *; lia).
  destruct (packets_spec s0 mbs device Hs0 Hd Hmbs Hlen)
    as (s1 & pkts & ks & -> & Hs1 & Hks & Hp & Htr & Htx). cbn [mbind option_bind].
  assert (zlen pkts ≤ zlen mbs) as Hpl.
  { pose proof (marked_length true ks (m_id <$> mbs)) as Hm.
    rewrite <- Hp, !length_fmap in Hm. unfold zlen. lia. }
  unfold tx_burst. rewrite !u16_small by (unfold zlen in *; lia).
  set (sent := Nat.min _ _).
  assert (sent ≤ length pkts)%nat as Hsent by (unfold sent; lia).
  destruct (free_loop (World (rx_calls (bs_world s1)) (S (tx_calls (bs_world s1)))
    (trace (bs_world s1) ++ imap (λ k '(id, bytes), Transmit (1 - device) id bytes (Nat.ltb k sent))
      pkts)) mbs (Z.of_nat sent) (zlen pkts)) as (w' & -> & Hw'); [unfold zlen in *; lia..|].
  cbn [mbind option_bind]. eexists _, ks, pkts. split; [done|]. unfold next_ids in ids.
  split; [destruct Hs1; by constructor|]. split_and!; [done|done|]. simpl. rewrite Hw'. simpl.
  rewrite Htr. unfold batch_calls, s0, sent, ids. simpl. rewrite Htx. simpl. fold mbs.
  rewrite Nat2Z.id. unfold zlen. rewrite <- Nat2Z.inj_sub, Nat2Z.id by lia.
  rewrite <- list_fmap_compose, <- !app_assoc. done.
Qed.

End running.

(** What the calls of a batch receive, offer and release. *)
Lemma released_free (l : list Z) : released (FreeMbuf <$> l) = l.
Proof. unfold released. induction l as [|x l IH]; [done|]. simpl. f_equal. exact IH. Qed.

Lemma released_app tr1 tr2 : released (tr1 ++ tr2) = released tr1 ++ released tr2.
Proof. apply omap_app. Qed.

Lemma receptions_app tr1 tr2 : receptions (tr1 ++ tr2) = receptions tr1 ++ receptions tr2.
Proof. apply omap_app. Qed.

Lemma released_sends d (pkts : list (Z * list Z)) sent :
  released (imap (λ k '(id, bytes), Transmit d id bytes (Nat.ltb k sent)) pkts) =
  take sent pkts.*1.
Proof.
  unfold released. revert sent. induction pkts as [|[id bytes] pkts IH]; intros [|sent]; [done..| |].
  - exact (IH O).
  - simpl. f_equal. exact (IH sent).
Qed.

Lemma omap_none {A} (f : io → option Z) (g : A → io) (l : list A) :
  (∀ x, f (g x) = None) → omap f (g <$> l) = [].
Proof. intros Hf. induction l as [|x l IH]; [done|]. simpl. rewrite Hf. exact IH. Qed.

Lemma sends_offered d (pkts : list (Z * list Z)) (f : nat → bool) :
  offered (imap (λ k '(id, bytes), Transmit d id bytes (f k)) pkts) = pkts.*1 ∧
  receptions (imap (λ k '(id, bytes), Transmit d id bytes (f k)) pkts) = [].
Proof.
  unfold offered, receptions. revert f.
  induction pkts as [|[id bytes] pkts IH]; intros f; [done|].
  destruct (IH (λ k, f (S k))) as [H1 H2]. simpl. split; [f_equal; exact H1|exact H2].
Qed.

Lemma receives_received device ids : receptions (Receive device <$> ids) = ids.
Proof. unfold receptions. induction ids as [|x l IH]; [done|]. simpl. f_equal. exact IH. Qed.

Lemma batch_calls_effect device ids ks pkts sent :
  pkts.*1 = marked true ks ids → let m := length (marked true ks ids) in
  receptions (batch_calls device ids ks pkts sent) = ids ∧
  offered (batch_calls device ids ks pkts sent) = marked true ks ids ∧
  released (batch_calls device ids ks pkts sent) =
    marked false ks ids ++ take sent (marked true ks ids) ++ take (m - sent) (drop sent ids).
Proof.
  intros Hp m. assert (length pkts = m) as Hm by (unfold m; by rewrite <- Hp, length_fmap).
  destruct (sends_offered (1 - device) pkts (λ k, Nat.ltb k sent)) as [Hoff Hrec].
  unfold batch_calls, receptions, offered, released in *. rewrite !omap_app, Hoff, Hrec.
  rewrite Hm, !(omap_none reception FreeMbuf), !(omap_none offer FreeMbuf),
    (omap_none offer (Receive device)), (omap_none release (Receive device)) by done.
  pose proof (receives_received device ids) as Hr. unfold receptions in Hr. rewrite Hr.
  pose proof (released_sends (1 - device) pkts sent) as Hs. unfold released in Hs. rewrite Hs, Hp.
  rewrite !app_nil_r. split_and!; [done..|]. simpl. f_equal; [apply released_free|].
  f_equal. apply released_free.
Qed.

(** While the devices take everything, releases and receptions stay the same. *)
Section conservation.
Context (nf : NF) (inv : nf_state nf → Z → Prop) (pkt_ok : Z → packet → Z → Prop).
Context `{!NFContract nf 2 inv pkt_ok}.
Context (rx : nat → Z → list mbuf) (tx : nat → nat) (clock : nat → Z) (size : Z).
Context (Hsize : 0 < size < 2 ^ 16) (Hclock : clock_ok clock).
Context (Hrx : ∀ n device, Forall (mbuf_ok pkt_ok device) (rx n device)).
Implicit Types (s : batch_state nf).

Definition conserved s : Prop :=
  (∀ n, size ≤ Z.of_nat (tx n)) →
  released (trace (bs_world s)) ≡ₚ receptions (trace (bs_world s)).

Lemma body_conserves device s :
  0 ≤ device < 2 → batch_ok nf inv clock s ∧ conserved s →
  ∃ s', batch_body nf rx tx clock size device s = Some s' ∧ batch_ok nf inv clock s' ∧ conserved s'.
Proof.
  intros Hd [Hok Hr].
  destruct (body_calls nf inv pkt_ok rx tx clock size Hsize Hclock Hrx s device Hok Hd)
    as (s' & ks & pkts & Hb & Hs' & Hks & Hp & Htr).
  exists s'. split_and!; [done..|]. intros Hall. rewrite Htr, released_app, receptions_app.
  destruct (batch_calls_effect device _ _ _ (tx (tx_calls (bs_world s)) `min` length pkts)%nat Hp)
    as (-> & _ & ->). rewrite (Hr Hall). f_equiv.
  pose proof (marked_length true ks (next_ids rx size (bs_world s) device)) as Hm.
  unfold next_ids in Hm at 2. rewrite length_fmap, length_take in Hm.
  pose proof (Hall (tx_calls (bs_world s))) as Hn. apply (f_equal length) in Hp as Hp'.
  rewrite length_fmap in Hp'.
  rewrite Nat.min_r, Hp', Nat.sub_diag, firstn_all, app_nil_r by lia.
  symmetry. by apply marked_partition.
Qed.

Lemma rounds_conserve rounds s :
  batch_ok nf inv clock s ∧ conserved s →
  ∃ s', batch_rounds nf rx tx clock size rounds s = Some s' ∧ batch_ok nf inv clock s' ∧ conserved s'.
Proof.
  revert s. induction rounds as [|rounds IH]; intros s HP; [by exists s|]. cbn [batch_rounds].
  destruct (for_each_rule (λ _ s, batch_ok nf inv clock s ∧ conserved s) 0 2
    (batch_body nf rx tx clock size) s) as (s1 & -> & HP1);
    [lia|lia|done|intros; by apply body_conserves|]. exact (IH s1 HP1).
Qed.

End conservation.

(** ** Main results *)

(** C7: what one batch releases.  Let a network function keep its contract for
    two devices.  Then the handling of a batch runs without undefined
    behaviour, whatever the device takes; it receives the buffers of the batch
    and offers those that the function does not drop, marked by [ks].  And it
    releases every received buffer exactly once if and only if the device takes
    all that is offered, or no dropped packet comes before a packet to be sent:
    otherwise the buffers that are freed at the end are the wrong ones. *)
Theorem batch_releases_exactly (nf : NF) (inv : nf_state nf → Z → Prop)
    (pkt_ok : Z → packet → Z → Prop) (rx : nat → Z → list mbuf) (tx : nat → nat) (clock : nat → Z)
    (size device : Z) (s : batch_state nf) :
  NFContract nf 2 inv pkt_ok → 0 < size < 2 ^ 16 → clock_ok clock →
  (∀ n device, Forall (mbuf_ok pkt_ok device) (rx n device)) →
  batch_ok nf inv clock s → 0 ≤ device < 2 → NoDup (next_ids rx size (bs_world s) device) →
  let ids := next_ids rx size (bs_world s) device in
  ∃ s' ks ios, batch_body nf rx tx clock size device s = Some s' ∧ batch_ok nf inv clock s' ∧
    trace (bs_world s') = trace (bs_world s) ++ ios ∧ length ks = length ids ∧
    receptions ios = ids ∧ offered ios = marked true ks ids ∧
    (released ios ≡ₚ ids ↔
     (length (offered ios) ≤ tx (tx_calls (bs_world s)))%nat ∨
     Forall (eq true) (take (length (offered ios)) ks)).
Proof.
  intros HN Hsize Hclock Hrx Hok Hd Hnd ids.
  destruct (body_calls nf inv pkt_ok rx tx clock size Hsize Hclock Hrx s device Hok Hd)
    as (s' & ks & pkts & Hb & Hs' & Hks & Hp & Htr).
  set (sent := Nat.min _ _) in Htr. fold ids in Hks, Hp, Htr.
  destruct (batch_calls_effect device ids ks pkts sent Hp) as (Hrec & Hoff & Hrel).
  exists s', ks, (batch_calls device ids ks pkts sent). rewrite Hrec, Hoff, Hrel. split_and!; [done..|].
  apply (f_equal length) in Hp. rewrite length_fmap in Hp.
  rewrite rest_released by (done || unfold sent; lia). unfold sent. rewrite Hp.
  split; (intros [?|?]; [left; lia|by right]).
Qed.

(** The batched loop loses no buffer while the devices keep up.  With a
    network function that keeps its contract, any number of rounds over the two
    devices runs without undefined behaviour; and when every transmit request
    is taken as a whole, every received buffer has been freed or handed to a
    device exactly once. *)
Theorem worker_batched_loses_no_buffer (nf : NF) (inv : nf_state nf → Z → Prop)
    (pkt_ok : Z → packet → Z → Prop) (rx : nat → Z → list mbuf) (tx : nat → nat) (clock : nat → Z)
    (size total : Z) (st : nf_state nf) (rounds : nat) :
  NFContract nf 2 inv pkt_ok → 0 < size < 2 ^ 16 → clock_ok clock →
  (∀ n device, Forall (mbuf_ok pkt_ok device) (rx n device)) → inv st (clock 0%nat) →
  ∃ s', worker_batched nf rx tx clock size 2 rounds (BatchState st total 0 [] 0 (World 0 0 [])) =
      Some (Continue s') ∧ batch_ok nf inv clock s' ∧
    ((∀ n, size ≤ Z.of_nat (tx n)) →
     released (trace (bs_world s')) ≡ₚ receptions (trace (bs_world s'))).
Proof.
  intros HN Hsize Hclock Hrx HI.
  destruct (rounds_conserve nf inv pkt_ok rx tx clock size Hsize Hclock Hrx rounds
    (BatchState st total 0 [] 0 (World 0 0 []))) as (s' & Hr & Hs' & Hc).
  - split; [|by intros _]. constructor; [|done..]. exists (clock 0%nat). split; [simpl; lia|done].
  - exists s'. unfold worker_batched. simpl. rewrite Hr. done.
Qed.

(** ** Concrete instances *)

(** A network function that drops a packet when its first byte is 255 and sends
    the others to the other device. *)
Definition picky_nf : NF :=
  MkNF unit (λ _ device _ _ pk,
    Some (if default 0 (buf pk !! 0%nat) =? 255 then device else 1 - device, pk, tt)).

Lemma picky_contract : NFContract picky_nf 2 (λ _ _, True) (λ _ _ _, True).
Proof.
  constructor. intros st before now device pk tail _ _ _ HR _ Hd.
  eexists _, _, _. split_and!; [done|done| |].
  - left. destruct (_ =? 255); lia.
  - destruct HR, pk; simpl in *; by subst.
Qed.

(** Two packets wait on device 0, the first of which is to be dropped. *)
Definition demo_mbuf (id : Z) (bytes : list Z) : mbuf := Mbuf id 4096 bytes 14 0.

Definition demo_batch_rx (n : nat) (device : Z) : list mbuf :=
  match n, device with
  | O, 0 => [demo_mbuf 77 (255 :: replicate 13 0); demo_mbuf 78 (replicate 14 0)]
  | _, _ => []
  end.

Lemma demo_batch_rx_ok n device : Forall (mbuf_ok (λ _ _ _, True) device) (demo_batch_rx n device).
Proof.
  destruct n, device; simpl; try constructor; [|constructor; [|constructor]];
    (split; [done|]; exists 0; split; [|done]; constructor; try done; simpl;
     repeat (apply List.Forall_cons; [lia|]); apply List.Forall_nil).
Qed.

Lemma demo_clock_ok : clock_ok (λ n, 5).
Proof. intros n. lia. Qed.

Definition demo_batch : batch_state picky_nf := BatchState (nf := picky_nf) tt 0 0 [] 0 (World 0 0 []).

(** The device takes nothing: the dropped buffer is freed twice. *)
Lemma batch_releases_exactly_witness :
  ∃ s', batch_body picky_nf demo_batch_rx (λ _, 0%nat) (λ _, 5) 32 0 demo_batch = Some s' ∧
    released (trace (bs_world s')) = [77; 77].
Proof.
  destruct (batch_releases_exactly picky_nf (λ _ _, True) (λ _ _ _, True) demo_batch_rx (λ _, 0%nat)
    (λ _, 5) 32 0 demo_batch picky_contract) as (s' & ks & ios & Hb & _).
  - lia.
  - exact demo_clock_ok.
  - exact demo_batch_rx_ok.
  - constructor; [exists 0; split; [lia|exact I]|reflexivity..].
  - lia.
  - vm_compute. by repeat constructor; rewrite ?elem_of_cons, ?elem_of_nil; naive_solver.
  - exists s'. split; [exact Hb|]. vm_compute in Hb. injection Hb as <-. reflexivity.
Defined.

Lemma worker_batched_loses_no_buffer_witness :
  ∃ s', worker_batched picky_nf demo_batch_rx (λ _, 32%nat) (λ _, 5) 32 2 3 demo_batch =
      Some (Continue s') ∧ released (trace (bs_world s')) = [77; 78].
Proof.
  destruct (worker_batched_loses_no_buffer picky_nf (λ _ _, True) (λ _ _ _, True) demo_batch_rx
    (λ _, 32%nat) (λ _, 5) 32 0 tt 3 picky_contract) as (s' & Hb & _).
  - lia.
  - exact demo_clock_ok.
  - exact demo_batch_rx_ok.
  - exact I.
  - exists s'. split; [exact Hb|]. vm_compute in Hb. injection Hb as <-. reflexivity.
Defined.
