(* ===== verification/Locks.v ===== *)
(** * The lock of the parallel functions (synthesized/boilerplate/locks.c)

    A lock with a token per core and a write token, and the part of the worker
    loop that runs [nf_process] under it: first in read mode under the own token
    and, when that run has met a write, once more in write mode under all tokens.
    The cores run interleaved, one access to shared memory at a time; DPDK's
    atomic operations are the atomic steps.  Every worker initialises the lock
    when it starts.  Proved are mutual exclusion, the absence of deadlocks, and
    that the sections behave as if they ran one after the other, in executions
    in which no packet is handled before all workers have started; and that there
    is no exclusion when a worker starts later. *)
From stdpp Require Import base numbers list sets relations.
From Stdlib Require Import ZArith Lia.
From S2P Require Import Prelude.

(** ** Atomic operations

    [rte_atomic32_test_and_set] sets an atom that is 0 to 1 and tells whether it
    did; the other atoms stay as they are. *)
Definition rte_atomic32_test_and_set (v : Z) : bool * Z := if v =? 0 then (true, 1) else (false, v).

Definition test_and_set (atoms : list Z) (i : nat) : option (bool * list Z) :=
  v ← atoms !! i;
  let '(ok, v') := rte_atomic32_test_and_set v in Some (ok, <[i := v']> atoms).

Definition clear (atoms : list Z) (i : nat) : option (list Z) :=
  _ ← atoms !! i; Some (<[i := 0]> atoms).

(** ** A function that is run under the lock

    The data are shared, or belong to one core.  A run in read mode proceeds by
    steps that read the shared data and the own data of the core and change the
    latter only; it ends with the flag [write_attempt] and a device.  A run in
    write mode may change everything and ends with a device. *)
Record locked_nf (Pkt Shared Local R W : Type) := LockedNF {
  r_start : Pkt → R;
  r_step : nat → Shared → Local → R → Local * (R + bool * Z);
  w_start : Pkt → W;
  w_step : nat → Shared * list Local → W → (Shared * list Local) * (W + Z)
}.

Arguments r_start {_ _ _ _ _} _.
Arguments r_step {_ _ _ _ _} _.
Arguments w_start {_ _ _ _ _} _.
Arguments w_step {_ _ _ _ _} _.

Section locks.
Context {Pkt Shared Local R W : Type}.
Variable nf : locked_nf Pkt Shared Local R W.

(** The enabled cores, in the order of [RTE_LCORE_FOREACH]. *)
Variable lcores : list nat.

(** Where a core is in the loop.  [dst] is the outer variable [dst_device]; the
    result of the run in write mode goes to an inner variable of that name, which
    is not read. *)
Inductive place :=
  | BlockWrites
  | Reading (p : Pkt) (r : R)
  | AllowWrites (p : Pkt) (dst : Z)
  | ClearOwn (p : Pkt) (dst : Z)
  | TakeWrite (p : Pkt) (dst : Z)
  | TakeAll (p : Pkt) (dst : Z) (rest : list nat)
  | Writing (p : Pkt) (dst : Z) (w : W)
  | ReleaseAll (p : Pkt) (dst : Z) (rest : list nat)
  | ReleaseWrite (p : Pkt) (dst : Z)
  | Route (p : Pkt) (dst : Z).

(** What has happened: sections in the order in which they ended, and packets
    that were handed on. *)
Inductive event :=
  | EvRead (c : nat) (p : Pkt) (attempt : bool) (dst : Z)
  | EvWrite (c : nat) (p : Pkt) (dst : Z)
  | EvRoute (c : nat) (p : Pkt) (dst : Z).

Record sys := Sys {
  tokens : list Z;
  write_token : Z;
  shared : Shared;
  locals : list Local;
  places : list place;
  log : list event
}.

Definition goto (c : nat) (q : place) (s : sys) : sys :=
  Sys (tokens s) (write_token s) (shared s) (locals s) (<[c := q]> (places s)) (log s).

Definition set_tokens (ts : list Z) (s : sys) : sys :=
  Sys ts (write_token s) (shared s) (locals s) (places s) (log s).

Definition set_write_token (t : Z) (s : sys) : sys :=
  Sys (tokens s) t (shared s) (locals s) (places s) (log s).

Definition set_data (d : Shared * list Local) (s : sys) : sys :=
  Sys (tokens s) (write_token s) d.1 d.2 (places s) (log s).

Definition emit (e : event) (s : sys) : sys :=
  Sys (tokens s) (write_token s) (shared s) (locals s) (places s) (log s ++ [e]).

(** ** nf_lock_t *)

(** The lock after its initialisation: all atoms of the enabled cores and the write token are 0;
    the memory of the others keeps what it held. *)
Definition fresh_lock (max_lcore : nat) (junk : nat → Z) : list Z * Z :=
  (foldl (λ ts c, <[c := 0]> ts) (junk <$> seq 0 max_lcore) lcores, 0).

Definition nf_lock_allow_writes (c : nat) (s : sys) : option sys :=
  ts ← clear (tokens s) c; Some (set_tokens ts s).

(** One iteration of the loop; [true] when it ends. *)
Definition nf_lock_block_writes (c : nat) (s : sys) : option (bool * sys) :=
  '(ok, ts) ← test_and_set (tokens s) c; Some (ok, set_tokens ts s).

(** A core in [nf_lock_write_lock] has to clear its own token, take the write
    token, or take the tokens that are left; in [nf_lock_write_unlock] it has to
    clear the tokens that are left, or the write token.  One step each. *)
Definition nf_lock_write_lock (c : nat) (q : place) (s : sys) : option sys :=
  match q with
  | ClearOwn p dst =>
      ts ← clear (tokens s) c; Some (goto c (TakeWrite p dst) (set_tokens ts s))
  | TakeWrite p dst =>
      let '(ok, t) := rte_atomic32_test_and_set (write_token s) in
      let s' := set_write_token t s in
      Some (if ok : bool then goto c (TakeAll p dst lcores) s' else s')
  | TakeAll p dst [] => Some (goto c (Writing p dst (w_start nf p)) s)
  | TakeAll p dst (d :: rest) =>
      '(ok, ts) ← test_and_set (tokens s) d;
      let s' := set_tokens ts s in
      Some (if ok : bool then goto c (TakeAll p dst rest) s' else s')
  | _ => None
  end.

Definition nf_lock_write_unlock (c : nat) (q : place) (s : sys) : option sys :=
  match q with
  | ReleaseAll p dst [] => Some (goto c (ReleaseWrite p dst) s)
  | ReleaseAll p dst (d :: rest) =>
      ts ← clear (tokens s) d; Some (goto c (ReleaseAll p dst rest) (set_tokens ts s))
  | ReleaseWrite p dst => Some (goto c (Route p dst) (set_write_token 0 s))
  | _ => None
  end.

(** ** The worker loop: one step of core [c], with [p] the next packet *)
Definition lcore_step (c : nat) (p : Pkt) (s : sys) : option sys :=
  q ← places s !! c;
  match q with
  | BlockWrites =>
      '(ok, s') ← nf_lock_block_writes c s;
      Some (if ok : bool then goto c (Reading p (r_start nf p)) s' else s')
  | Reading p r =>
      L ← locals s !! c;
      let '(L', o) := r_step nf c (shared s) L r in
      let s' := set_data (shared s, <[c := L']> (locals s)) s in
      Some (match o with
            | inl r' => goto c (Reading p r') s'
            | inr (attempt, dst) =>
                goto c (if attempt : bool then ClearOwn p dst else AllowWrites p dst)
                  (emit (EvRead c p attempt dst) s')
            end)
  | AllowWrites p dst => s' ← nf_lock_allow_writes c s; Some (goto c (Route p dst) s')
  | ClearOwn _ _ | TakeWrite _ _ | TakeAll _ _ _ => nf_lock_write_lock c q s
  | Writing p dst w =>
      let '(data, o) := w_step nf c (shared s, locals s) w in
      let s' := set_data data s in
      Some (match o with
            | inl w' => goto c (Writing p dst w') s'
            | inr dst' => goto c (ReleaseAll p dst lcores) (emit (EvWrite c p dst') s')
            end)
  | ReleaseAll _ _ _ | ReleaseWrite _ _ => nf_lock_write_unlock c q s
  | Route p dst => Some (goto c BlockWrites (emit (EvRoute c p dst) s))
  end.

(** A core that would only spin. *)
Definition spins (c : nat) (s : sys) : bool :=
  match places s !! c with
  | Some BlockWrites => bool_decide (tokens s !! c ≠ Some 0)
  | Some (TakeWrite _ _) => negb (write_token s =? 0)
  | Some (TakeAll _ _ (d :: _)) => bool_decide (tokens s !! d ≠ Some 0)
  | _ => false
  end.

(** ** Executions: any core may move next *)

Variable init : Shared * list Local.

(** The workers when the lock has been initialised. *)
Definition initial (s : sys) : Prop :=
  ∃ max_lcore junk, (∀ c, c ∈ lcores → (c < max_lcore)%nat) ∧ length init.2 = max_lcore ∧
    s = Sys (fresh_lock max_lcore junk).1 (fresh_lock max_lcore junk).2 init.1 init.2
          (replicate max_lcore BlockWrites) [].

Inductive reachable : sys → Prop :=
  | reach_init s : initial s → reachable s
  | reach_step s c p s' : reachable s → c ∈ lcores → lcore_step c p s = Some s' → reachable s'.

Definition run_schedule (sched : list (nat * Pkt)) (s : sys) : option sys :=
  foldl (λ s '(c, p), s ← s; lcore_step c p s) (Some s) sched.

(** ** The start of the workers

    Each worker initialises the lock before its loop: it allocates new tokens, clears those of the
    enabled cores one after the other, and clears the write token. *)

Inductive start_place :=
  | InitAlloc
  | InitTokens (rest : list nat)
  | InitWrite
  | Started.

#[global] Instance start_place_eq_dec : EqDecision start_place.
Proof. solve_decision. Defined.

Record prog := Prog { starts : list start_place; running : sys }.

(** One access of core [c].  [memory] holds the atoms that [rte_malloc] gives, [None] when there is
    no memory: the result is not tested, and the next access goes through a null pointer. *)
Definition nf_lock_init (c : nat) (q : start_place) (memory : option (list Z)) (s : prog) : option prog :=
  let run := running s in
  match q with
  | InitAlloc =>
      m ← memory; Some (Prog (<[c := InitTokens lcores]> (starts s)) (set_tokens m run))
  | InitTokens (d :: rest) =>
      ts ← clear (tokens run) d;
      Some (Prog (<[c := InitTokens rest]> (starts s)) (set_tokens ts run))
  | InitTokens [] => Some (Prog (<[c := InitWrite]> (starts s)) run)
  | InitWrite => Some (Prog (<[c := Started]> (starts s)) (set_write_token 0 run))
  | Started => None
  end.

(** A step of a worker: of [nf_util_init], or of the loop once it has started.  [nf_init], which comes
    between the two, makes the data of the function: see [launched]. *)
Definition worker_step (c : nat) (p : Pkt) (memory : option (list Z)) (s : prog) : option prog :=
  q ← starts s !! c;
  match q with
  | Started => s' ← lcore_step c p (running s); Some (Prog (starts s) s')
  | _ => nf_lock_init c q memory s
  end.

(** Before the workers are launched the lock is a static variable: a null pointer and 0.  [init] are
    the data when all workers have run [nf_init]. *)
Definition launched (max_lcore : nat) (s : prog) : Prop :=
  (∀ c, c ∈ lcores → (c < max_lcore)%nat) ∧ length init.2 = max_lcore ∧
  s = Prog (replicate max_lcore InitAlloc) (Sys [] 0 init.1 init.2 (replicate max_lcore BlockWrites) []).

Definition all_started (s : prog) : Prop := ∀ c, c ∈ lcores → starts s !! c = Some Started.

(** No packet is handled before all workers have started. *)
Definition may_step (c : nat) (s : prog) : Prop := starts s !! c = Some Started → all_started s.

Inductive prog_reachable (max_lcore : nat) (synced : bool) : prog → Prop :=
  | prog_launched s : launched max_lcore s → prog_reachable max_lcore synced s
  | prog_step s c p memory s' :
      prog_reachable max_lcore synced s → c ∈ lcores → (∀ m, memory = Some m → length m = max_lcore) →
      (synced = true → may_step c s) → worker_step c p memory s = Some s' →
      prog_reachable max_lcore synced s'.

(** The schedule also gives the memory. *)
Definition run_workers (sched : list (nat * Pkt * option (list Z))) (s : prog) : option prog :=
  foldl (λ s '(c, p, memory), s ← s; worker_step c p memory s) (Some s) sched.

(** ** Who holds what

    [None] is the write token, [Some c] the token of core [c]. *)

Definition holds (q : place) (w : nat) (t : option nat) : Prop :=
  match q with
  | BlockWrites | TakeWrite _ _ | Route _ _ => False
  | Reading _ _ | AllowWrites _ _ | ClearOwn _ _ => t = Some w
  | TakeAll _ _ rest => match t with None => True | Some c => c ∈ lcores ∧ c ∉ rest end
  | Writing _ _ _ => match t with None => True | Some c => c ∈ lcores end
  | ReleaseAll _ _ rest => match t with None => True | Some c => c ∈ rest end
  | ReleaseWrite _ _ => t = None
  end.

Definition token_value (ts : list Z) (wt : Z) (t : option nat) : option Z :=
  match t with None => Some wt | Some c => ts !! c end.

Definition valid (t : option nat) : Prop := match t with None => True | Some c => c ∈ lcores end.

Definition held (pl : list place) (t : option nat) (w : nat) : Prop :=
  ∃ q, pl !! w = Some q ∧ holds q w t.

(** A token that is 0 is held by no core, and one that is 1 by exactly one. *)
Definition tokens_ok (ts : list Z) (wt : Z) (pl : list place) : Prop :=
  ∀ t, valid t →
    (token_value ts wt t = Some 0 ∧ ∀ w, ¬ held pl t w) ∨
    (token_value ts wt t = Some 1 ∧ ∃ w, held pl t w ∧ ∀ w', held pl t w' → w' = w).

Definition place_ok (q : place) : Prop :=
  match q with TakeAll _ _ rest | ReleaseAll _ _ rest => rest `suffix_of` lcores | _ => True end.

Record lock_inv (s : sys) : Prop := LockInv {
  li_tokens : tokens_ok (tokens s) (write_token s) (places s);
  li_len : length (tokens s) = length (places s);
  li_locals : length (locals s) = length (places s);
  li_range : ∀ c, c ∈ lcores → (c < length (places s))%nat;
  li_idle : ∀ c, c ∉ lcores → (c < length (places s))%nat → places s !! c = Some BlockWrites;
  li_places : ∀ c q, places s !! c = Some q → place_ok q
}.

Lemma held_insert pl c q t w :
  (c < length pl)%nat → held (<[c := q]> pl) t w ↔ (w = c ∧ holds q c t) ∨ (w ≠ c ∧ held pl t w).
Proof.
  intros Hc. unfold held. destruct (decide (w = c)) as [->|Hne].
  - rewrite list_lookup_insert_eq by done. naive_solver.
  - rewrite list_lookup_insert_ne by done. naive_solver.
Qed.

(** Core [c] takes token [t], gives it back, or keeps what it holds. *)
Lemma tokens_take ts wt ts' wt' pl c q q' t :
  tokens_ok ts wt pl → pl !! c = Some q → token_value ts wt t = Some 0 →
  token_value ts' wt' t = Some 1 → (∀ t', t' ≠ t → token_value ts' wt' t' = token_value ts wt t') →
  (∀ t', holds q' c t' ↔ t' = t ∨ holds q c t') → tokens_ok ts' wt' (<[c := q']> pl).
Proof.
  intros HI Hq Ht Ht' Hne Hh t' Hv. pose proof (lookup_lt_Some _ _ _ Hq) as Hc.
  assert (∀ w, held (<[c := q']> pl) t' w ↔ (w = c ∧ t' = t) ∨ held pl t' w) as Hheld.
  { intros w. rewrite held_insert by done. rewrite Hh. unfold held.
    destruct (decide (w = c)) as [->|]; naive_solver. }
  specialize (HI t' Hv). destruct (decide (t' = t)) as [->|Hn].
  - right. split; [done|]. exists c. destruct HI as [[_ Hno]|[? _]]; [|congruence].
    split; [apply Hheld; by left|]. intros w [[-> _]|Hw]%Hheld; [done|]. by apply Hno in Hw.
  - rewrite (Hne _ Hn). destruct HI as [[H0 Hno]|(H1 & w & Hw & Hu)]; [left|right].
    + split; [done|]. intros w [[_ ?]|Hw]%Hheld; [done|]. by apply (Hno w).
    + split; [done|]. exists w. split; [apply Hheld; by right|].
      intros w' [[_ ?]|Hw']%Hheld; [done|]. by apply Hu.
Qed.

Lemma tokens_give ts wt ts' wt' pl c q q' t :
  tokens_ok ts wt pl → pl !! c = Some q → holds q c t →
  token_value ts' wt' t = Some 0 → (∀ t', t' ≠ t → token_value ts' wt' t' = token_value ts wt t') →
  (∀ t', holds q' c t' ↔ t' ≠ t ∧ holds q c t') → tokens_ok ts' wt' (<[c := q']> pl).
Proof.
  intros HI Hq Hcq Ht' Hne Hh t' Hv. pose proof (lookup_lt_Some _ _ _ Hq) as Hc.
  assert (held pl t c) as Hct by (by exists q).
  specialize (HI t' Hv). destruct (decide (t' = t)) as [->|Hn].
  - left. split; [done|]. intros w. rewrite held_insert by done. rewrite Hh.
    intros [[_ [? _]]|[Hw Hw']]; [done|].
    destruct HI as [[_ Hno]|(_ & w0 & _ & Hu)]; [by apply (Hno c)|].
    apply Hw. by rewrite (Hu _ Hw'), (Hu _ Hct).
  - assert (∀ w, held (<[c := q']> pl) t' w ↔ held pl t' w) as Hheld.
    { intros w. rewrite held_insert by done. rewrite Hh. unfold held.
      destruct (decide (w = c)) as [->|]; naive_solver. }
    rewrite (Hne _ Hn). by setoid_rewrite Hheld.
Qed.

Lemma tokens_keep ts wt pl c q q' :
  tokens_ok ts wt pl → pl !! c = Some q → (∀ t, holds q' c t ↔ holds q c t) →
  tokens_ok ts wt (<[c := q']> pl).
Proof.
  intros HI Hq Hh t Hv. pose proof (lookup_lt_Some _ _ _ Hq) as Hc.
  assert (∀ w, held (<[c := q']> pl) t w ↔ held pl t w) as Hheld.
  { intros w. rewrite held_insert by done. rewrite Hh. unfold held.
    destruct (decide (w = c)) as [->|]; naive_solver. }
  specialize (HI t Hv). by setoid_rewrite Hheld.
Qed.

Hypothesis lcores_NoDup : NoDup lcores.
Hypothesis w_step_length : ∀ c d w, length (w_step nf c d w).1.2 = length d.2.

Lemma inv_goto s c q q' ts' wt' sh' ls' lg' :
  lock_inv s → c ∈ lcores → places s !! c = Some q → place_ok q' →
  tokens_ok ts' wt' (<[c := q']> (places s)) → length ts' = length (tokens s) →
  length ls' = length (locals s) → lock_inv (Sys ts' wt' sh' ls' (<[c := q']> (places s)) lg').
Proof.
  intros [_ Hl Hll Hr Hi Hp] Hc Hq Hok Ht Hlt Hls. pose proof (lookup_lt_Some _ _ _ Hq).
  constructor; simpl; rewrite ?length_insert; [done|lia|lia|done| |].
  - intros d Hd ?. rewrite list_lookup_insert_ne by congruence. auto.
  - intros d q0 [(_ & <- & _)|[_ Hd]]%list_lookup_insert_Some; eauto.
Qed.

(** A suffix of the cores starts with one that is not in the rest. *)
Lemma suffix_head d rest : suffix (d :: rest) lcores →
  d ∈ lcores ∧ (d ∉ rest) ∧ suffix rest lcores.
Proof.
  intros [l Hl]. pose proof lcores_NoDup as Hn. rewrite Hl in Hn.
  apply NoDup_app in Hn as (_ & _ & [Hn _]%NoDup_cons). split_and!; [|done|].
  - rewrite Hl. set_solver.
  - exists (l ++ [d]). by rewrite <- app_assoc.
Qed.

(** A token of a core or the write token: what an attempt to take it does. *)
Lemma take_token s d : lock_inv s → d ∈ lcores →
  (tokens s !! d = Some 0 ∧ test_and_set (tokens s) d = Some (true, <[d := 1]> (tokens s))) ∨
  (tokens s !! d = Some 1 ∧ test_and_set (tokens s) d = Some (false, tokens s)).
Proof.
  intros HI Hd. unfold test_and_set.
  destruct (li_tokens _ HI (Some d) Hd) as [[Ht _]|[Ht _]]; simpl in Ht; rewrite Ht;
    cbn [mbind option_bind rte_atomic32_test_and_set]; [by left|right].
  split; [done|]. simpl. by rewrite list_insert_id.
Qed.

Lemma clear_token s d : lock_inv s → d ∈ lcores →
  clear (tokens s) d = Some (<[d := 0]> (tokens s)).
Proof.
  intros HI Hd. unfold clear.
  by destruct (li_tokens _ HI (Some d) Hd) as [[Ht _]|[Ht _]]; simpl in Ht; rewrite Ht.
Qed.

Lemma token_insert ts wt d v t : (d < length ts)%nat →
  token_value (<[d := v]> ts) wt t = if decide (t = Some d) then Some v else token_value ts wt t.
Proof.
  intros Hd. destruct t as [c|]; simpl; [|done].
  destruct (decide (Some c = Some d)) as [[= ->]|Hne]; [by apply list_lookup_insert_eq|].
  rewrite list_lookup_insert_ne by congruence. done.
Qed.

Lemma clear_all n ts ds :
  length ts = n → (∀ c, c ∈ ds → (c < n)%nat) →
  let ts' := foldl (λ ts c, <[c := 0]> ts) ts ds in
  length ts' = n ∧ ∀ c, c ∈ ds → ts' !! c = Some (0 : Z).
Proof.
  intros Hl. induction ds as [|d ds IH] using rev_ind; intros Hlt.
  { split; [done|]. intros c Hc. by apply elem_of_nil in Hc. }
  cbn zeta in *. rewrite foldl_app. simpl. destruct IH as [Hl' Hz]; [set_solver|].
  rewrite length_insert. split; [done|]. intros c Hc.
  destruct (decide (c = d)) as [->|Hne]; [apply list_lookup_insert_eq; rewrite Hl'; set_solver|].
  rewrite list_lookup_insert_ne by done. apply Hz. set_solver.
Qed.

Lemma lock_inv_init s : initial s → lock_inv s.
Proof.
  intros (n & junk & Hlt & Hlen & ->). unfold fresh_lock. simpl.
  set (ts := foldl _ _ _).
  assert (length ts = n ∧ ∀ c, c ∈ lcores → ts !! c = Some 0) as [Hl Hz].
  { apply clear_all; [by rewrite length_fmap, length_seq|done]. }
  assert (∀ t w, ¬ held (replicate n BlockWrites) t w) as Hno.
  { intros t w (q & Hq%lookup_replicate & Hh). by destruct Hq as [-> _]. }
  constructor; simpl; rewrite ?length_replicate; try done.
  - intros t Hv. left. split; [|done]. destruct t; simpl; [by apply Hz|done].
  - intros c _ Hc. by apply lookup_replicate_2.
  - intros c q [-> _]%lookup_replicate. done.
Qed.

(** ** Every step keeps the invariant *)

(** A step that moves a core, and the three kinds of steps on the tokens. *)
Ltac land HI Hc Hq := eapply (inv_goto _ _ _ _ _ _ _ _ _ HI Hc Hq);
  [try done|simpl|simpl; by rewrite ?length_insert|simpl; by rewrite ?length_insert].
Ltac keep HI Hq := eapply (tokens_keep _ _ _ _ _ _ (li_tokens _ HI) Hq).
Ltac take HI Hq t := eapply (tokens_take _ _ _ _ _ _ _ _ t (li_tokens _ HI) Hq).
Ltac give HI Hq t := eapply (tokens_give _ _ _ _ _ _ _ _ t (li_tokens _ HI) Hq).

Lemma lock_inv_step c p s : lock_inv s → c ∈ lcores →
  ∃ s', lcore_step c p s = Some s' ∧ lock_inv s'.
Proof.
  intros HI Hc. pose proof (li_range _ HI c Hc) as Hlt.
  destruct (lookup_lt_is_Some_2 _ _ Hlt) as [q Hq]. unfold lcore_step, nf_lock_write_lock, nf_lock_write_unlock. rewrite Hq. cbn [mbind option_bind].
  pose proof (li_len _ HI) as Hlen. pose proof (li_places _ HI _ _ Hq) as Hpl.
  destruct q as [|p' r|p' dst|p' dst|p' dst|p' dst [|d rest]|p' dst w|p' dst [|d rest]|p' dst|p' dst].
  - unfold nf_lock_block_writes. destruct (take_token s c HI Hc) as [[Ht ->]|[Ht ->]];
      cbn [mbind option_bind]; eexists; (split; [done|]).
    + land HI Hc Hq. take HI Hq (Some c); [done|..].
      * simpl. apply list_lookup_insert_eq. lia.
      * intros t Hn. rewrite token_insert by lia. by rewrite decide_False.
      * simpl. naive_solver.
    + by destruct s, HI.
  - destruct (lookup_lt_is_Some_2 (locals s) c) as [L ->]; [rewrite (li_locals _ HI); lia|].
    cbn [mbind option_bind]. destruct (r_step _ _ _ _ _) as [L' [r'|[[] dst]]];
      eexists; (split; [done|]); (land HI Hc Hq; by keep HI Hq).
  - unfold nf_lock_allow_writes. rewrite clear_token by done. cbn [mbind option_bind].
    eexists. split; [done|]. land HI Hc Hq.
    give HI Hq (Some c); [done|simpl; apply list_lookup_insert_eq; lia| |simpl; naive_solver].
    intros t Hn. rewrite token_insert by lia. by rewrite decide_False.
  - rewrite clear_token by done. cbn [mbind option_bind]. eexists. split; [done|].
    land HI Hc Hq.
    give HI Hq (Some c); [done|simpl; apply list_lookup_insert_eq; lia| |simpl; naive_solver].
    intros t Hn. rewrite token_insert by lia. by rewrite decide_False.
  - destruct (li_tokens _ HI None I) as [[Ht _]|[Ht _]]; injection Ht as Ht; rewrite Ht; simpl;
      eexists; (split; [done|]).
    + land HI Hc Hq; [by exists []|]. take HI Hq (@None nat); simpl; [by rewrite Ht|done|by intros []|].
      intros [t|]; naive_solver.
    + destruct s, HI. simpl in *. subst. by constructor.
  - eexists. split; [done|]. land HI Hc Hq. keep HI Hq. intros [t|]; simpl; [|done].
    split; [|by intros [? _]]. intros ?. split; [done|]. apply not_elem_of_nil.
  - destruct (suffix_head _ _ Hpl) as (Hd & Hnd & Hrest).
    pose proof (li_range _ HI d Hd).
    destruct (take_token s d HI Hd) as [[Ht ->]|[Ht ->]]; cbn [mbind option_bind]; eexists;
      (split; [done|]).
    + land HI Hc Hq. take HI Hq (Some d); [done|..].
      * simpl. apply list_lookup_insert_eq. lia.
      * intros t Hn. rewrite token_insert by lia. by rewrite decide_False.
      * intros [t|]; simpl; [|naive_solver]. destruct (decide (t = d)) as [->|]; set_solver.
    + by destruct s, HI.
  - pose proof (w_step_length c (shared s, locals s) w) as Hw.
    destruct (w_step _ _ _ _) as [data [w'|dst']]; eexists; (split; [done|]);
      land HI Hc Hq; solve [by exists [] | by keep HI Hq].
  - eexists. split; [done|]. land HI Hc Hq. keep HI Hq. intros [t|]; simpl; [|done].
    set_solver.
  - destruct (suffix_head _ _ Hpl) as (Hd & Hnd & Hrest). pose proof (li_range _ HI d Hd).
    rewrite clear_token by done. cbn [mbind option_bind]. eexists. split; [done|].
    land HI Hc Hq.
    give HI Hq (Some d); [simpl; set_solver|simpl; apply list_lookup_insert_eq; lia|..].
    + intros t Hn. rewrite token_insert by lia. by rewrite decide_False.
    + intros [t|]; simpl; [|naive_solver]. destruct (decide (t = d)) as [->|]; set_solver.
  - eexists. split; [done|]. land HI Hc Hq.
    give HI Hq (@None nat); simpl; [done|done|by intros []|]. naive_solver.
  - eexists. split; [done|]. land HI Hc Hq. by keep HI Hq.
Qed.

Lemma reachable_inv s : reachable s → lock_inv s.
Proof.
  induction 1 as [s Hs|s c p s' _ IH Hc Hs]; [by apply lock_inv_init|].
  destruct (lock_inv_step c p s IH Hc) as (s1 & Hs1 & HI). by simplify_eq.
Qed.

(** ** Mutual exclusion and progress *)

Lemma held_unique s t w w' :
  lock_inv s → valid t → held (places s) t w → held (places s) t w' → w = w'.
Proof.
  intros HI Hv Hw Hw'. destruct (li_tokens _ HI t Hv) as [[_ Hno]|(_ & w0 & _ & Hu)].
  - by apply Hno in Hw.
  - by rewrite (Hu _ Hw), (Hu _ Hw').
Qed.

Lemma busy_lcore s c q : lock_inv s → places s !! c = Some q → q ≠ BlockWrites → c ∈ lcores.
Proof.
  intros HI Hq Hne. destruct (decide (c ∈ lcores)) as [|Hn]; [done|].
  pose proof (lookup_lt_Some _ _ _ Hq) as Hlt. pose proof (li_idle _ HI c Hn Hlt). congruence.
Qed.

Definition is_reading (q : place) : Prop := match q with Reading _ _ => True | _ => False end.

Definition is_writing (q : place) : Prop := match q with Writing _ _ _ => True | _ => False end.

(** A core that has taken all tokens is alone. *)
Lemma writer_alone s w q c q' :
  lock_inv s → places s !! w = Some q → (∀ t, valid t → holds q w t) →
  places s !! c = Some q' → c ≠ w → ¬ is_reading q' ∧ ¬ is_writing q'.
Proof.
  intros HI Hw Hall Hc Hne. split; intros Hin; apply Hne.
  - assert (c ∈ lcores) as Hcl by (eapply busy_lcore; [done..|]; by destruct q').
    eapply (held_unique s (Some c)); [done|done|exists q'|exists q]; (split; [done|]); [|by apply Hall].
    by destruct q'.
  - eapply (held_unique s None); [done|done|exists q'|exists q]; (split; [done|]); [|by apply Hall].
    by destruct q'.
Qed.

Lemma list_elem_of_not_nil (l : list nat) : l ≠ [] → ∃ x, x ∈ l.
Proof. destruct l as [|x l]; [done|]. intros _. exists x. by left. Qed.

(** Some core can do more than spin. *)
Lemma some_core_moves s : lock_inv s → lcores ≠ [] → ∃ c, c ∈ lcores ∧ spins c s = false.
Proof.
  intros HI Hne.
  destruct (decide (Exists (λ c, spins c s = false) lcores)) as [Hex|Hall].
  { apply Exists_exists in Hex as (c & Hc & Hs). by exists c. }
  exfalso. apply not_Exists_Forall in Hall; [|apply _]. rewrite Forall_forall in Hall.
  assert (∀ c q, places s !! c = Some q → c ∈ lcores → spins c s = true) as Hspin.
  { intros c q _ Hc. specialize (Hall c Hc). simpl in Hall. by destruct (spins c s). }
  clear Hall.
  (* Nobody but a core in [TakeAll] holds anything, and that holds only what it has taken. *)
  assert (∀ t w, held (places s) t w → ∃ p dst d rest,
    places s !! w = Some (TakeAll p dst (d :: rest)) ∧ w ∈ lcores) as Hheld.
  { intros t w (q & Hq & Hh).
    assert (w ∈ lcores) as Hw by (eapply busy_lcore; [done..|]; by destruct q).
    pose proof (Hspin w q Hq Hw) as Hs. unfold spins in Hs. rewrite Hq in Hs.
    destruct q as [| | | | |p dst [|d rest]| |p dst rest| |]; try done. eauto 6. }
  destruct (list_elem_of_not_nil lcores Hne) as [c Hc].
  destruct (li_tokens _ HI None I) as [[Hw Hno]|(_ & w & Hw & _)].
  - (* no core holds the write token *)
    destruct (lookup_lt_is_Some_2 _ _ (li_range _ HI c Hc)) as [q Hq].
    assert (tokens s !! c = Some 0) as Ht.
    { destruct (li_tokens _ HI (Some c) Hc) as [[Ht _]|(_ & w & Hwc & _)]; [done|].
      destruct (Hheld _ _ Hwc) as (p & dst & d & rest & Hp & _).
      exfalso. apply (Hno w). by exists (TakeAll p dst (d :: rest)). }
    injection Hw as Hw. pose proof (Hspin c q Hq Hc) as Hs. unfold spins in Hs. rewrite Hq in Hs.
    destruct q as [| | | | |p dst [|d rest]| | | |]; try done.
    + by rewrite Ht in Hs.
    + by rewrite Hw in Hs.
    + apply (Hno c). by exists (TakeAll p dst (d :: rest)).
  - destruct (Hheld _ _ Hw) as (p & dst & d & rest & Hp & Hwl).
    pose proof (Hspin w _ Hp Hwl) as Hs. unfold spins in Hs. rewrite Hp in Hs.
    apply bool_decide_eq_true in Hs. apply Hs.
    destruct (suffix_head _ _ (li_places _ HI _ _ Hp)) as (Hd & _ & _).
    destruct (li_tokens _ HI (Some d) Hd) as [[Ht _]|(_ & w' & Hwd & _)]; [done|].
    destruct (Hheld _ _ Hwd) as (p' & dst' & d' & rest' & Hp' & _).
    assert (w' = w) as ->.
    { apply (held_unique s None); [done..| |done]. by exists (TakeAll p' dst' (d' :: rest')). }
    destruct Hwd as (q & Hq & Hh). rewrite Hp in Hq. injection Hq as <-. simpl in Hh.
    destruct Hh as [_ []]. by left.
Qed.

(** ** Sections one after the other *)




















(** ** From the start to the loop *)

(** While workers start: nothing has been handled, and a token that is not clear yet will be cleared
    by a worker that has allocated or is going to. *)
Record starting (max_lcore : nat) (s : prog) : Prop := Starting {
  sg_running : running s = Sys (tokens (running s)) 0 init.1 init.2 (replicate max_lcore BlockWrites) [];
  sg_len : length (starts s) = max_lcore;
  sg_range : ∀ c, c ∈ lcores → (c < max_lcore)%nat;
  sg_init : length init.2 = max_lcore;
  sg_alloc : ∀ c q, starts s !! c = Some q → q ≠ InitAlloc → length (tokens (running s)) = max_lcore;
  sg_rest : ∀ c rest, starts s !! c = Some (InitTokens rest) → c ∈ lcores ∧ rest ⊆ lcores;
  sg_clear : ∀ d, d ∈ lcores → length (tokens (running s)) = max_lcore →
    tokens (running s) !! d = Some 0 ∨ ∃ c rest, starts s !! c = Some (InitTokens rest) ∧ d ∈ rest
}.

Lemma starting_launched max_lcore s : lcores ≠ [] → launched max_lcore s → starting max_lcore s.
Proof.
  intros Hne (Hr & Hl & ->). assert (0 < max_lcore)%nat as Hpos.
  { destruct lcores as [|c l]; [done|]. pose proof (Hr c (list_elem_of_here _ _)). lia. }
  constructor; simpl; try done.
  - apply length_replicate.
  - by intros c q [-> _]%lookup_replicate.
  - by intros c rest [? _]%lookup_replicate.
  - intros d _ H0. lia.
Qed.

Lemma list_elem_of_nonempty {A} (l : list A) : l ≠ [] → ∃ x, x ∈ l.
Proof. destruct l as [|x l]; [done|]. exists x. by left. Qed.

(** A step of the start of core [c]. *)
Lemma starting_step max_lcore s c q memory :
  starting max_lcore s → c ∈ lcores → starts s !! c = Some q → q ≠ Started →
  (∀ m, memory = Some m → length m = max_lcore) → is_Some memory →
  ∃ s', nf_lock_init c q memory s = Some s' ∧ starting max_lcore s'.
Proof.
  intros [Hrun Hlen Hr Hi Ha Hrest Hcl] Hc Hq Hns Hm [m Hmem].
  pose proof (lookup_lt_Some _ _ _ Hq) as Hlt. specialize (Hm m Hmem).
  assert (∀ q' d x, <[c := q']> (starts s) !! d = Some x → (d = c ∧ x = q') ∨ starts s !! d = Some x) as Hins.
  { intros q' d x [(<- & <- & _)|[_ Hd]]%list_lookup_insert_Some; auto. }
  assert (∀ q', (∀ rest, q' ≠ InitTokens rest) → (∀ rest, q = InitTokens rest → rest = []) →
    ∀ d, d ∈ lcores → length (tokens (running s)) = max_lcore → tokens (running s) !! d = Some 0 ∨
      ∃ c' rest, <[c := q']> (starts s) !! c' = Some (InitTokens rest) ∧ d ∈ rest) as Hkeep.
  { intros q' Hq' Hnil d Hd Hl. destruct (Hcl d Hd Hl) as [?|(c' & rest & Hc' & Hdr)]; [by left|right].
    exists c', rest. split; [|done]. rewrite list_lookup_insert_ne; [done|]. intros <-.
    rewrite Hq in Hc'. injection Hc' as ->. rewrite (Hnil _ eq_refl) in Hdr. by apply elem_of_nil in Hdr. }
  destruct q as [|[|d rest]| |]; [..|done]; cbn [nf_lock_init].
  - rewrite Hmem. cbn [mbind option_bind]. eexists. split; [done|].
    constructor; simpl; rewrite ?length_insert; try done.
    + by rewrite Hrun.
    + intros d rest [[-> [= ->]]|Hd]%Hins; [done|by eapply Hrest].
    + intros d Hd _. right. exists c, lcores. split; [by apply list_lookup_insert_eq|done].
  - eexists. split; [done|]. constructor; simpl; rewrite ?length_insert; try done.
    + intros d x [[_ ->]|Hd]%Hins Hx; [by eapply (Ha c)|by eapply Ha].
    + intros d rest [[_ [=]]|Hd]%Hins. by eapply Hrest.
    + by apply Hkeep; [|intros ? [= ->]].
  - destruct (Hrest _ _ Hq) as [_ Hsub]. assert (d ∈ lcores) as Hd by (apply Hsub; by left).
    pose proof (Ha c _ Hq ltac:(done)) as Htl. unfold clear.
    destruct (lookup_lt_is_Some_2 (tokens (running s)) d) as [x Hx]; [rewrite Htl; by apply Hr|].
    rewrite Hx. cbn [mbind option_bind]. eexists. split; [done|].
    constructor; simpl; rewrite ?length_insert; try done.
    + by rewrite Hrun.
    + intros d' rest' [[-> [= ->]]|Hd']%Hins; [|by eapply Hrest]. split; [done|]. intros y Hy. apply Hsub. by right.
    + intros d' Hd' _. destruct (decide (d' = d)) as [->|Hne].
      { left. apply list_lookup_insert_eq. by eapply lookup_lt_Some. }
      rewrite list_lookup_insert_ne by done.
      destruct (Hcl d' Hd' Htl) as [?|(c' & rest' & Hc' & Hdr)]; [by left|right].
      destruct (decide (c' = c)) as [->|Hcc].
      * exists c, rest. split; [by apply list_lookup_insert_eq|]. rewrite Hq in Hc'. injection Hc' as <-.
        apply elem_of_cons in Hdr as [?|?]; done.
      * exists c', rest'. by rewrite list_lookup_insert_ne.
  - eexists. split; [done|]. constructor; simpl; rewrite ?length_insert; try done.
    + by rewrite Hrun.
    + intros d x [[_ ->]|Hd]%Hins Hx; [by eapply (Ha c)|by eapply Ha].
    + intros d rest [[_ [=]]|Hd]%Hins. by eapply Hrest.
    + by apply Hkeep.
Qed.

Lemma clear_all_id (ts : list Z) l : (∀ d, d ∈ l → ts !! d = Some 0) →
  foldl (λ ts c, <[c := 0]> ts) ts l = ts.
Proof.
  induction l as [|d l IH]; intros Hl; [done|]. simpl. rewrite list_insert_id by (apply Hl; by left).
  apply IH. intros d' Hd'. apply Hl. by right.
Qed.

(** When all have started, the lock is as after one initialisation. *)
Lemma started_initial max_lcore s : lcores ≠ [] → starting max_lcore s → all_started s → initial (running s).
Proof.
  intros Hne [Hrun Hlen Hr Hi Ha Hrest Hcl] Hall.
  assert (length (tokens (running s)) = max_lcore) as Htl.
  { destruct (list_elem_of_nonempty _ Hne) as [c Hc]. by eapply (Ha c); [apply Hall|]. }
  exists max_lcore, (λ i, default 0 (tokens (running s) !! i)). split_and!; [done|done|].
  rewrite Hrun at 1. unfold fresh_lock. cbn [fst snd].
  replace ((λ i, default 0 (tokens (running s) !! i)) <$> seq 0 max_lcore) with (tokens (running s)).
  - rewrite clear_all_id; [done|]. intros d Hd. destruct (Hcl d Hd Htl) as [?|(c & rest & Hc & Hdr)]; [done|].
    exfalso. destruct (Hrest _ _ Hc) as [Hin _]. by rewrite (Hall c Hin) in Hc.
  - apply list_eq_same_length with (n := max_lcore); [by rewrite length_fmap, length_seq|done|].
    intros i x y Hi' Hx Hy. rewrite list_lookup_fmap, lookup_seq_lt in Hy by done. simpl in Hy.
    rewrite Hx in Hy. simpl in Hy. by injection Hy.
Qed.

(** An execution in which packets wait for the start of all workers is in the start, or in the loop. *)
Lemma synced_cases max_lcore s : lcores ≠ [] → prog_reachable max_lcore true s →
  starting max_lcore s ∨ (all_started s ∧ reachable (running s)).
Proof.
  intros Hne. induction 1 as [s Hl|s c p memory s' Hr IH Hc Hm Hmay Hs].
  { left. by apply starting_launched. }
  unfold worker_step in Hs. destruct (starts s !! c) as [q|] eqn:Hq; [|done]. cbn [mbind option_bind] in Hs.
  destruct (decide (q = Started)) as [->|Hns].
  - right. specialize (Hmay eq_refl Hq).
    assert (reachable (running s)) as Hreach
      by (destruct IH as [IH|[_ IH]]; [apply reach_init; by eapply started_initial|done]).
    destruct (lcore_step c p (running s)) as [s1|] eqn:E; [|done]. injection Hs as <-.
    split; [done|]. simpl. by eapply reach_step.
  - destruct IH as [IH|[Hall _]]; [|exfalso; apply Hns; specialize (Hall c Hc); congruence].
    left. destruct memory as [m|].
    + destruct (starting_step max_lcore s c q (Some m) IH Hc Hq Hns Hm ltac:(by eexists)) as (s1 & Hs1 & HI1).
      assert (nf_lock_init c q (Some m) s = Some s') as Hs' by (destruct q; [..|done]; exact Hs).
      congruence.
    + destruct q; [done|..|done].
      all: destruct (starting_step max_lcore s c _ (Some (replicate max_lcore 0)) IH Hc Hq Hns) as (s1 & Hs1 & HI1);
        [by intros m [= <-]; apply length_replicate|by eexists|].
      all: cbn [nf_lock_init] in *; congruence.
Qed.

End locks.

(** ** Main results *)

(** C37: the lock excludes and does not block.  Every worker initialises the lock when it starts.
    For any number of cores that run interleaved, in every state that is reached when no packet is
    handled before all workers have started: every core that may go on can take its next step
    without undefined behaviour when memory can be allocated; while one core runs [nf_process] in
    write mode, no other runs it in either mode; and at least one core that may go on can do more
    than spin on a token.  Without the condition on the start there is no exclusion, see
    [late_start_breaks_exclusion]. *)
Theorem lock_excludes_and_progresses {Pkt Shared Local R W} (nf : locked_nf Pkt Shared Local R W)
    (lcores : list nat) (init : Shared * list Local) (max_lcore : nat) (s : prog) :
  NoDup lcores → lcores ≠ [] → (∀ c d w, length (w_step nf c d w).1.2 = length d.2) →
  prog_reachable nf lcores init max_lcore true s →
  (∀ c p m, c ∈ lcores → length m = max_lcore → may_step lcores c s →
     ∃ s', worker_step nf lcores c p (Some m) s = Some s') ∧
  (∀ w p dst x c q, places (running s) !! w = Some (Writing p dst x) →
     places (running s) !! c = Some q → c ≠ w → ¬ is_reading q ∧ ¬ is_writing q) ∧
  ∃ c, c ∈ lcores ∧ may_step lcores c s ∧
    (starts s !! c ≠ Some Started ∨ spins c (running s) = false).
Proof.
  intros Hnd Hne Hlen Hr.
  assert (starting lcores init max_lcore s ∧ ¬ all_started lcores s ∨
          all_started lcores s ∧ reachable nf lcores init (running s)) as [[HS Hno]|[Hall Hre]].
  { destruct (synced_cases nf lcores init Hnd max_lcore s Hne Hr) as [HS|?]; [|by right].
    destruct (decide (Forall (λ c, starts s !! c = Some Started) lcores)) as [Hall|Hno];
      rewrite Forall_forall in *; [right|by left].
    split; [done|]. apply reach_init. by eapply started_initial. }
  - assert (∃ c q, c ∈ lcores ∧ starts s !! c = Some q ∧ q ≠ Started) as (c0 & q0 & Hc0 & Hq0 & Hns).
    { destruct (decide (Exists (λ c, starts s !! c ≠ Some Started) lcores)) as [(c & Hc & Hx)%Exists_exists|Hex].
      - destruct (lookup_lt_is_Some_2 (starts s) c) as [q Hq].
        { rewrite (sg_len _ _ _ _ HS). by apply (sg_range _ _ _ _ HS). }
        exists c, q. split_and!; [done|done|congruence].
      - exfalso. apply Hno. intros c Hc. destruct (decide (starts s !! c = Some Started)); [done|].
        exfalso. apply Hex, Exists_exists. by exists c. }
    split_and!.
    + intros c p m Hc Hm Hmay. destruct (lookup_lt_is_Some_2 (starts s) c) as [q Hq].
      { rewrite (sg_len _ _ _ _ HS). by apply (sg_range _ _ _ _ HS). }
      assert (q ≠ Started) as Hqs by (intros ->; by apply Hno, Hmay).
      destruct (starting_step lcores init max_lcore s c q (Some m) HS Hc Hq Hqs) as (s' & Hs' & _);
        [by intros ? [= <-]|by eexists|]. exists s'. unfold worker_step. rewrite Hq. by destruct q.
    + intros w p dst x c q Hw. rewrite (sg_running _ _ _ _ HS) in Hw. simpl in Hw.
      by apply lookup_replicate in Hw as [? _].
    + exists c0. split_and!; [done| |left; congruence]. intros Hx. congruence.
  - pose proof (reachable_inv nf lcores init Hnd Hlen _ Hre) as HI. split_and!.
    + intros c p m Hc _ _. destruct (lock_inv_step nf lcores Hnd Hlen c p _ HI Hc) as (s' & Hs & _).
      eexists. unfold worker_step. rewrite (Hall c Hc). cbn [mbind option_bind]. by rewrite Hs.
    + intros w p dst x c q Hw Hc Hcw.
      eapply (writer_alone lcores (running s) w); [done|done|by intros []|done|done].
    + destruct (some_core_moves nf lcores Hnd Hlen (running s) HI Hne) as (c & Hc & Hsp). exists c. split_and!; [done|by intros _|by right].
Qed.


(** ** Concrete instances *)

Lemma run_workers_None {Pkt Shared Local R W} (nf : locked_nf Pkt Shared Local R W) (lcores : list nat) l :
  foldl (λ s '(c, p, memory), s ← s; worker_step nf lcores c p memory s) None l = None.
Proof. induction l as [|[[c p] m] l IH]; [done|]. exact IH. Qed.

(** A schedule in which the steps of the start come first. *)
Lemma run_workers_reachable {Pkt Shared Local R W} (nf : locked_nf Pkt Shared Local R W)
    (lcores : list nat) (init : Shared * list Local) max_lcore synced sched s s' :
  prog_reachable nf lcores init max_lcore synced s →
  Forall (λ x, x.1.1 ∈ lcores ∧ ∀ m, x.2 = Some m → length m = max_lcore) sched →
  (synced = true → ∀ l1 x l2 s1, sched = l1 ++ x :: l2 → run_workers nf lcores l1 s = Some s1 →
     may_step lcores x.1.1 s1) →
  run_workers nf lcores sched s = Some s' → prog_reachable nf lcores init max_lcore synced s'.
Proof.
  revert s. induction sched as [|[[c p] memory] sched IH]; intros s Hr Hf Hmay; [by intros [= <-]|].
  apply Forall_cons in Hf as [[Hc Hm] Hf]. unfold run_workers. cbn [foldl mbind option_bind].
  destruct (worker_step nf lcores c p memory s) as [s1|] eqn:E; [|by rewrite run_workers_None].
  intros Hs. eapply (IH s1); [|done| |done].
  - eapply prog_step; [done|done|done| |exact E]. intros Hsy.
    by apply (Hmay Hsy [] (c, p, memory) sched s eq_refl eq_refl).
  - intros Hsy l1 x l2 s2 -> Hs2. apply (Hmay Hsy ((c, p, memory) :: l1) x l2 s2 eq_refl).
    unfold run_workers. cbn [foldl mbind option_bind]. by rewrite E.
Qed.

(** A flow table that knows the flow or does not.  In read mode the packets of
    the core are counted, and a packet of an unknown flow would be dropped; in
    write mode the flow is entered and the packet goes to device 1. *)
Definition demo_nf : locked_nf Z Z Z bool unit :=
  LockedNF _ _ _ _ _ (λ _, false)
    (λ _ known hits counted,
       if counted then (hits, inr (known =? 0, known)) else (hits + 1, inl true))
    (λ _, tt) (λ _ d _, ((1, d.2), inr 1)).

Definition demo_prog : prog (Pkt := Z) (Shared := Z) (Local := Z) (R := bool) (W := unit) :=
  Prog [InitAlloc; InitAlloc] (Sys [] 0 0 [0; 0] (replicate 2 BlockWrites) []).

Lemma demo_prog_reachable synced : prog_reachable demo_nf [0; 1]%nat (0, [0; 0]) 2 synced demo_prog.
Proof. apply prog_launched. split_and!; [set_solver by lia|done|done]. Qed.

(** The steps of the cores, with fresh memory and packets of one flow. *)
Definition demo_steps (cs : list nat) : list (nat * Z * option (list Z)) :=
  (λ c : nat, (c, 50, Some [7; 8])) <$> cs.

(** Both cores start; then both read at the same time and both want to write; core 0 is first. *)
Definition demo_start : list nat := [0; 1; 0; 1; 1; 0; 0; 1; 1; 0]%nat.
Definition demo_schedule : list nat := [0; 1; 0; 1; 1; 0; 0; 1; 0; 1; 0; 0; 0]%nat.

(** Whether the workers have started when a core takes its step in the loop. *)
Fixpoint starts_first (cs : list nat) (s : prog (Pkt := Z) (Shared := Z) (Local := Z) (R := bool) (W := unit))
    : bool :=
  match cs with
  | [] => true
  | c :: cs' =>
      (negb (bool_decide (starts s !! c = Some Started)) ||
       forallb (λ d, bool_decide (starts s !! d = Some Started)) [0; 1]%nat) &&
      match worker_step demo_nf [0; 1]%nat c 50 (Some [7; 8]) s with
      | Some s' => starts_first cs' s'
      | None => true
      end
  end.

Lemma demo_synced cs s : Forall (λ c, c ∈ [0; 1]%nat) cs → starts_first cs demo_prog = true →
  run_workers demo_nf [0; 1]%nat (demo_steps cs) demo_prog = Some s →
  prog_reachable demo_nf [0; 1]%nat (0, [0; 0]) 2 true s.
Proof.
  intros Hf Hst. apply run_workers_reachable; [apply demo_prog_reachable| |].
  { apply Forall_fmap. eapply Forall_impl; [exact Hf|]. intros c Hc. split; [done|]. by intros m [= <-]. }
  intros _. generalize demo_prog Hst. clear. intros s0 Hst l1. revert cs s0 Hst.
  induction l1 as [|y l1 IH]; intros [|c cs] s0 Hst x l2 s1 Heq Hr; try done; cbn [demo_steps fmap list_fmap] in Heq.
  - injection Heq as <- _. cbn in Hr. injection Hr as <-. cbn [starts_first] in Hst.
    apply andb_true_iff in Hst as [Hst _]. intros Hc. cbn [fst] in *. apply orb_true_iff in Hst as [Hst|Hst].
    + apply negb_true_iff, bool_decide_eq_false in Hst. done.
    + rewrite forallb_forall in Hst. intros d Hd. apply list_elem_of_In in Hd. exact (bool_decide_eq_true_1 _ (Hst d Hd)).
  - injection Heq as <- Heq. cbn [starts_first] in Hst. apply andb_true_iff in Hst as [_ Hst].
    unfold run_workers in Hr. cbn [foldl mbind option_bind] in Hr.
    destruct (worker_step demo_nf [0; 1]%nat c 50 (Some [7; 8]) s0) as [s2|]; [|by rewrite run_workers_None in Hr].
    exact (IH cs s2 Hst x l2 s1 Heq Hr).
Qed.

(** The packet that was the first of its flow is routed by its run in read mode:
    the result of the run in write mode is lost. *)
Example write_result_lost : ∃ s,
  run_workers demo_nf [0]%nat (demo_steps (replicate 16 0%nat)) demo_prog = Some s ∧
  log (running s) = [EvRead 0 50 true 0; EvWrite 0 50 1; EvRoute 0 50 0].
Proof. eexists. split; vm_compute; reflexivity. Qed.

Lemma demo_cores (cs : list nat) : forallb (λ c, Nat.ltb c 2) cs = true → Forall (λ c, c ∈ [0; 1]%nat) cs.
Proof.
  rewrite forallb_forall, Forall_forall. intros Hf c Hc. apply list_elem_of_In, Hf in Hc as Hf'.
  apply Nat.ltb_lt in Hf'. destruct c as [|[|c]]; [set_solver|set_solver|lia].
Qed.

(** A worker that starts while another holds the lock replaces the tokens: then two cores run
    [nf_process] in write mode at the same time. *)
Theorem late_start_breaks_exclusion : ∃ s,
  prog_reachable demo_nf [0; 1]%nat (0, [0; 0]) 2 false s ∧
  places (running s) !! 0%nat = Some (Writing 50 0 tt) ∧ places (running s) !! 1%nat = Some (Writing 50 0 tt).
Proof.
  set (cs := replicate 13 0%nat ++ replicate 13 1%nat).
  destruct (run_workers demo_nf [0; 1]%nat (demo_steps cs) demo_prog) as [s|] eqn:E;
    [|vm_compute in E; discriminate E].
  exists s. split.
  - eapply (run_workers_reachable _ _ _ _ false (demo_steps cs)); [apply demo_prog_reachable| |done|exact E].
    apply Forall_fmap. eapply Forall_impl; [exact (demo_cores cs eq_refl)|].
    intros c Hc. split; [done|]. by intros m [= <-].
  - vm_compute in E. injection E as <-. split; reflexivity.
Qed.

Lemma demo_lcores : NoDup [0; 1]%nat.
Proof. apply (bool_decide_unpack _). vm_compute. done. Qed.

Lemma demo_w_length c d w : length (w_step demo_nf c d w).1.2 = length d.2.
Proof. done. Qed.

Lemma lock_excludes_and_progresses_witness : ∃ s,
  run_workers demo_nf [0; 1]%nat (demo_steps (demo_start ++ demo_schedule)) demo_prog = Some s ∧
  places (running s) = [Writing 50 0 tt; TakeWrite 50 0] ∧
  (∃ c, c ∈ [0; 1]%nat ∧ (starts s !! c ≠ Some Started ∨ spins c (running s) = false)) ∧
  (∀ q, places (running s) !! 1%nat = Some q → ¬ is_reading q ∧ ¬ is_writing q).
Proof.
  destruct (run_workers demo_nf [0; 1]%nat (demo_steps (demo_start ++ demo_schedule)) demo_prog) as [s|] eqn:E;
    [|vm_compute in E; discriminate E].
  destruct (lock_excludes_and_progresses demo_nf [0; 1]%nat (0, [0; 0]) 2 s demo_lcores ltac:(done)
    demo_w_length (demo_synced _ s (demo_cores (demo_start ++ demo_schedule) eq_refl) ltac:(vm_compute; reflexivity) E)) as (_ & Hm & c & Hc & _ & Hp).
  exists s. split; [done|]. vm_compute in E. injection E as <-. split; [reflexivity|].
  split; [by exists c|]. intros q Hq. exact (Hm 0%nat 50 0 tt 1%nat q eq_refl Hq ltac:(done)).
Defined.

