(* ===== verification/ParStart.v ===== *)
(** * The start of the parallel functions (synthesized/boilerplate/locks.c)

    [set_reta], [nf_init_device] and [MAIN] of the programs that run on several
    cores: a memory pool and a receive queue for every core, the table that
    spreads the packets over the queues, and the launch of the workers.  The
    calls to DPDK are recorded; its answers and constants, and the tables that
    the generated [init_retas] fills, are parameters. *)
From stdpp Require Import base list numbers sets.
From Stdlib Require Import ZArith Lia.
From S2P Require Import Prelude.

(** struct rte_eth_rss_reta_entry64 *)
Record reta_entry := RetaEntry { reta_mask : Z; reta : list Z }.

(** retas_t *)
Record retas_t := Retas { reta_tables : list (list Z); reta_set : bool }.

(** The calls that are made, in order.  [RSS] stands for the entry of [rss_conf]. *)
Inductive call (RSS : Type) :=
| CreatePool (index count cache_size : Z)
| Configure (device rx_queues tx_queues : Z) (rss : RSS)
| TxQueue (device queue size : Z)
| RxQueue (device queue size pool : Z)
| Start (device : Z)
| Promiscuous (device : Z)
| RetaUpdate (device : Z) (conf : list reta_entry) (size : Z)
| Launch (lcore : nat).
Arguments CreatePool {RSS} _ _ _.
Arguments Configure {RSS} _ _ _ _.
Arguments TxQueue {RSS} _ _ _.
Arguments RxQueue {RSS} _ _ _ _.
Arguments Start {RSS} _.
Arguments Promiscuous {RSS} _.
Arguments RetaUpdate {RSS} _ _ _.
Arguments Launch {RSS} _.

(** What DPDK answers about a device; queues are set up one by one. *)
Record device_answers := DeviceAnswers {
  rte_eth_dev_configure : Z;
  rte_eth_tx_queue_setup : Z → Z;
  rte_eth_rx_queue_setup : Z → Z;
  rte_eth_dev_start : Z;
  rte_eth_promiscuous_get : Z;
  dev_info_reta_size : Z
}.

Definition RX_QUEUE_SIZE : Z := 256.
Definition TX_QUEUE_SIZE : Z := 256.

Definition MEMPOOL_BUFFER_COUNT : Z := 512.

Definition MBUF_CACHE_SIZE : Z := 256.

Definition UINT64_MAX : Z := 2 ^ 64 - 1.

Section start.
Context {RSS : Type}.
(** DPDK's constants [RTE_RETA_GROUP_SIZE] and [ETH_RSS_RETA_SIZE_512]. *)
Variable RTE_RETA_GROUP_SIZE : Z.
Variable ETH_RSS_RETA_SIZE_512 : Z.

(** The enabled cores in the order of [RTE_LCORE_FOREACH], and the one that runs [MAIN]. *)
Variable lcores : list nat.
Variable master : nat.

Definition rte_lcore_count : Z := zlen lcores.

Definition RETA_CONF_SIZE : Z := ETH_RSS_RETA_SIZE_512 / RTE_RETA_GROUP_SIZE.

(** What the table of a device is filled with. *)
Definition fill_reta (table : list Z) (reta_size : Z) : option (list reta_entry) :=
  let zero := RetaEntry 0 (replicate (Z.to_nat RTE_RETA_GROUP_SIZE) 0) in
  conf ← for_each 0 reta_size (λ bucket conf,
      e ← rd conf (bucket / RTE_RETA_GROUP_SIZE);
      wr conf (bucket / RTE_RETA_GROUP_SIZE) (RetaEntry UINT64_MAX (reta e)))
    (replicate (Z.to_nat RETA_CONF_SIZE) zero);
  for_each 0 reta_size (λ bucket conf,
      let reta_id := bucket / RTE_RETA_GROUP_SIZE in
      let reta_pos := bucket mod RTE_RETA_GROUP_SIZE in
      e ← rd conf reta_id;
      q ← rd table bucket;
      r ← wr (reta e) reta_pos q;
      wr conf reta_id (RetaEntry (reta_mask e) r)) conf.

(** Returns the calls made so far. *)
Definition set_reta (retas_per_device : list retas_t) (a : device_answers) (device : Z)
    (log : list (call RSS)) : option (list (call RSS)) :=
  if rte_lcore_count <=? 1 then Some log else
  retas ← rd retas_per_device device;
  if negb (reta_set retas) then Some log else
  table ← rd (reta_tables retas) (rte_lcore_count - 2);
  conf ← fill_reta table (dev_info_reta_size a);
  Some (log ++ [RetaUpdate device conf (dev_info_reta_size a)]).

(** The loop over the transmit queues: [Return] leaves the function. *)
Definition setup_tx (a : device_answers) (device num_queues : Z) (log : list (call RSS))
    : option (outcome (list (call RSS)) (Z * list (call RSS))) :=
  for_u32 0 num_queues (λ txq log,
    let log := log ++ [TxQueue device txq TX_QUEUE_SIZE] in
    let retval := rte_eth_tx_queue_setup a txq in
    if negb (retval =? 0) then Some (Return (retval, log)) else Some (Continue log)) log.

(** The loop over the cores; [lcores_conf] is the array of the queues of the cores. *)
Fixpoint setup_rx (a : device_answers) (device : Z) (mbuf_pools : list Z) (cs : list nat) (rxq : Z)
    (lcores_conf : list Z) (log : list (call RSS))
    : option (outcome (list Z * list (call RSS)) (Z * list Z * list (call RSS))) :=
  match cs with
  | [] => Some (Continue (lcores_conf, log))
  | c :: cs' =>
      lcores_conf ← wr lcores_conf (Z.of_nat c) (u16 rxq);
      pool ← rd mbuf_pools rxq;
      let log := log ++ [RxQueue device rxq RX_QUEUE_SIZE pool] in
      let retval := rte_eth_rx_queue_setup a rxq in
      if negb (retval =? 0) then Some (Return (retval, lcores_conf, log)) else
      rxq ← int_chk (rxq + 1);
      setup_rx a device mbuf_pools cs' rxq lcores_conf log
  end.

(** Returns the code, the queues of the cores and the calls made so far. *)
Definition nf_init_device (rss_conf : list RSS) (retas_per_device : list retas_t) (a : device_answers)
    (device : Z) (mbuf_pools lcores_conf : list Z) (log : list (call RSS))
    : option (Z * list Z * list (call RSS)) :=
  let num_queues := u16 rte_lcore_count in
  rss ← rd rss_conf device;
  let log := log ++ [Configure device num_queues num_queues rss] in
  let retval := rte_eth_dev_configure a in
  if negb (retval =? 0) then Some (retval, lcores_conf, log) else
  o ← setup_tx a device num_queues log;
  match o with Return (retval, log) => Some (retval, lcores_conf, log) | Continue log =>
  o ← setup_rx a device mbuf_pools lcores 0 lcores_conf log;
  match o with Return r => Some r | Continue (lcores_conf, log) =>
  let log := log ++ [Start device] in
  let retval := rte_eth_dev_start a in
  if negb (retval =? 0) then Some (retval, lcores_conf, log) else
  let log := log ++ [Promiscuous device] in
  if negb (rte_eth_promiscuous_get a =? 1) then Some (retval, lcores_conf, log) else
  log ← set_reta retas_per_device a device log;
  Some (0, lcores_conf, log)
  end end.

(** The loop of [MAIN] over the cores that creates the pools: [pools] holds what was created so
    far, [pool_create] gives the address of the pool with the given number; [Return] is
    [rte_exit]. *)
Fixpoint create_pools (pool_create : Z → option Z) (nb_devices : Z) (cs : list nat) (lcore_idx : Z)
    (pools : list Z) (log : list (call RSS)) : outcome (list Z * list (call RSS)) (list (call RSS)) :=
  match cs with
  | [] => Continue (pools, log)
  | _ :: cs' =>
      let log := log ++ [CreatePool lcore_idx (u32 (MEMPOOL_BUFFER_COUNT * nb_devices)) MBUF_CACHE_SIZE] in
      match pool_create lcore_idx with
      | None => Return log
      | Some p => create_pools pool_create nb_devices cs' (u32 (lcore_idx + 1)) (pools ++ [p]) log
      end
  end.

(** The loop of [MAIN] over the devices, with the number of those left. *)
Fixpoint init_devices (rss_conf : list RSS) (retas_per_device : list retas_t)
    (answers : Z → device_answers) (device : Z) (left : nat) (mbuf_pools lcores_conf : list Z)
    (log : list (call RSS)) : option (outcome (list Z * list (call RSS)) (list (call RSS))) :=
  match left with
  | O => Some (Continue (lcores_conf, log))
  | S left' =>
      '(ret, lcores_conf, log) ←
        nf_init_device rss_conf retas_per_device (answers device) device mbuf_pools lcores_conf log;
      if ret =? 0
      then init_devices rss_conf retas_per_device answers (u16 (device + 1)) left' mbuf_pools lcores_conf log
      else Some (Return log)
  end.

(** [MAIN] up to the start of the workers: [Return] is a call of [rte_exit]; otherwise the queues
    of the cores and the calls, which end with the launch of the other cores. [malloc_ok] tells
    whether the array of pools could be allocated; the first store to it is not tested. *)
Definition MAIN (rte_eal_init : Z) (nb_devices : Z) (malloc_ok : bool) (pool_create : Z → option Z)
    (rss_conf : list RSS) (retas_per_device : list retas_t) (answers : Z → device_answers)
    (lcores_conf : list Z) : option (outcome (list Z * list (call RSS)) (list (call RSS))) :=
  if rte_eal_init <? 0 then Some (Return []) else
  _ ← c_assert malloc_ok;
  match create_pools pool_create nb_devices lcores 0 [] [] with
  | Return log => Some (Return log)
  | Continue (mbuf_pools, log) =>
      o ← init_devices rss_conf retas_per_device answers 0 (Z.to_nat nb_devices) mbuf_pools lcores_conf log;
      match o with
      | Return log => Some (Return log)
      | Continue (lcores_conf, log) =>
          Some (Continue (lcores_conf, log ++ (Launch <$> filter (λ c, c ≠ master) lcores)))
      end
  end.

End start.

(** ** The table of a device *)

Section reta_table.
Context (G E : Z).
Hypothesis HG : 0 < G.
Hypothesis HE : (G | E) ∧ 0 < E < 2 ^ 16.

Lemma bucket_group b : 0 ≤ b < E → 0 ≤ b / G < RETA_CONF_SIZE G E.
Proof.
  destruct HE as [[k ->] _]. intros Hb. unfold RETA_CONF_SIZE. rewrite Z.div_mul by lia.
  split; [apply Z.div_pos; lia|apply Z.div_lt_upper_bound; lia].
Qed.

Lemma bucket_inj b b' : b / G = b' / G → b mod G = b' mod G → b = b'.
Proof. intros Hd Hm. rewrite (Z.div_mod b G), (Z.div_mod b' G) by lia. congruence. Qed.

(** The shape of [reta_conf]. *)
Definition reta_shape (conf : list reta_entry) : Prop :=
  zlen conf = RETA_CONF_SIZE G E ∧ ∀ g e, rd conf g = Some e → zlen (reta e) = G.

Lemma reta_shape_insert conf g e : reta_shape conf → 0 ≤ g < RETA_CONF_SIZE G E → zlen (reta e) = G →
  reta_shape (<[Z.to_nat g := e]> conf).
Proof.
  intros [Hl Hr] Hg He. split; [by rewrite zlen_insert|]. intros g' e'.
  rewrite rd_insert by lia. destruct (g =? g'); [by intros [= <-]|apply Hr].
Qed.

(** The entry of a bucket. *)
Definition bucket_is (conf : list reta_entry) (b : Z) (P : reta_entry → Prop) : Prop :=
  ∃ e, rd conf (b / G) = Some e ∧ P e.

Lemma fill_reta_spec table size :
  0 ≤ size ≤ E → zlen table = E →
  ∃ conf, fill_reta G E table size = Some conf ∧
    ∀ b, 0 ≤ b < size → bucket_is conf b (λ e, reta_mask e = UINT64_MAX ∧ rd (reta e) (b mod G) = rd table b).
Proof.
  intros Hs Ht. unfold fill_reta. pose proof HE as [_ HE'].
  set (zero := RetaEntry 0 (replicate (Z.to_nat G) 0)).
  destruct (for_each_rule (λ i conf, reta_shape conf ∧
      ∀ b, 0 ≤ b < i → bucket_is conf b (λ e, reta_mask e = UINT64_MAX)) 0 size
    (λ bucket conf, e ← rd conf (bucket / G); wr conf (bucket / G) (RetaEntry UINT64_MAX (reta e)))
    (replicate (Z.to_nat (RETA_CONF_SIZE G E)) zero)) as (conf & -> & Hsh & Hmask); [lia|lia| | |].
  - split; [|intros; lia]. pose proof (bucket_group 0 ltac:(lia)) as Hg. split.
    + unfold zlen. rewrite length_replicate. lia.
    + intros g e Hge. pose proof (rd_Some_range _ _ _ Hge). rewrite rd_lookup in Hge by lia.
      apply lookup_replicate in Hge as [-> _]. unfold zlen. simpl. rewrite length_replicate. lia.
  - intros i conf Hi [Hsh Hm]. pose proof (bucket_group i ltac:(lia)) as Hg.
    destruct Hsh as [Hl Hr] eqn:Esh. clear Esh.
    destruct (rd_Some conf (i / G)) as [e He]; [lia|]. rewrite He. cbn [mbind option_bind].
    rewrite wr_Some by lia. eexists. split; [done|]. split.
    + apply reta_shape_insert; [done|done|]. by apply (Hr _ _ He).
    + intros b Hb. unfold bucket_is. rewrite rd_insert by lia.
      destruct (Z.eqb_spec (i / G) (b / G)) as [Heq|]; [by eexists|].
      apply Hm. assert (b ≠ i) by congruence. lia.
  - cbn [mbind option_bind].
    destruct (for_each_rule (λ i conf, reta_shape conf ∧
        (∀ b, 0 ≤ b < size → bucket_is conf b (λ e, reta_mask e = UINT64_MAX)) ∧
        ∀ b, 0 ≤ b < i → bucket_is conf b (λ e, rd (reta e) (b mod G) = rd table b)) 0 size
      (λ bucket conf, e ← rd conf (bucket / G); q ← rd table bucket; r ← wr (reta e) (bucket mod G) q;
         wr conf (bucket / G) (RetaEntry (reta_mask e) r)) conf)
      as (conf' & Hf & _ & Hm & Hv); [lia|lia|by split_and!; [| |intros; lia]| |].
    + clear conf Hsh Hmask. intros i conf Hi (Hsh & Hm & Hv). pose proof (bucket_group i ltac:(lia)) as Hg.
      pose proof Hsh as [Hl Hr]. pose proof (Z.mod_pos_bound i G HG).
      destruct (rd_Some conf (i / G)) as [e He]; [lia|]. rewrite He. cbn [mbind option_bind].
      destruct (rd_Some table i) as [q Hq]; [lia|]. rewrite Hq. cbn [mbind option_bind].
      pose proof (Hr _ _ He) as Hle. rewrite wr_Some by lia. cbn [mbind option_bind].
      rewrite wr_Some by lia. eexists. split; [done|]. split_and!.
      * apply reta_shape_insert; [done|done|]. simpl. by rewrite zlen_insert.
      * intros b Hb. destruct (Hm b Hb) as (e' & He' & Hx). unfold bucket_is. rewrite rd_insert by lia.
        destruct (Z.eqb_spec (i / G) (b / G)) as [Heq|]; [|by exists e'].
        eexists. split; [done|]. simpl. congruence.
      * intros b Hb. unfold bucket_is. rewrite rd_insert by lia. destruct (Z.eq_dec b i) as [->|Hne].
        { rewrite Z.eqb_refl. eexists. split; [done|]. simpl. rewrite rd_insert_eq by lia. done. }
        destruct (Hv b ltac:(lia)) as (e' & He' & Hx).
        destruct (Z.eqb_spec (i / G) (b / G)) as [Heq|]; [|by exists e'].
        eexists. split; [done|]. simpl. assert (e' = e) as -> by congruence.
        rewrite rd_insert_ne; [done|lia|]. intros Hmod. by apply Hne, bucket_inj.
    + exists conf'. split; [exact Hf|]. intros b Hb. destruct (Hm b Hb) as (e & He & Hx).
      destruct (Hv b Hb) as (e' & He' & Hy). exists e. split; [done|]. split; [done|]. congruence.
Qed.

End reta_table.

(** ** The start of a device *)

Section devices.
Context {RSS : Type}.
Context (G E : Z) (lcores : list nat) (master : nat).
Context (rss_conf : list RSS) (retas : list retas_t) (answers : Z → device_answers) (nb : Z).

Abbreviation n := (zlen lcores).

(** What the set-up relies on: every core is enabled once and has a place in [lcores_conf], and
    the tables of [init_retas] have the sizes that are declared for them. *)
Record setup_ok (lcores_conf : list Z) : Prop := SetupOk {
  so_group : 0 < G;
  so_size : (G | E) ∧ 0 < E < 2 ^ 16;
  so_cores : NoDup lcores;
  so_some : 0 < n < 2 ^ 16;
  so_conf : ∀ c, c ∈ lcores → (c < length lcores_conf)%nat;
  so_devices : 0 < nb < 2 ^ 16 ∧ nb ≤ zlen rss_conf ∧ nb ≤ zlen retas;
  so_retas : ∀ r, r ∈ retas → n - 2 < zlen (reta_tables r) ∧ ∀ t, t ∈ reta_tables r → zlen t = E;
  so_reta_size : ∀ d, 0 ≤ d < nb → 0 ≤ dev_info_reta_size (answers d) ≤ E
}.

(** The calls that set the table of a device, if there is one for this number of cores. *)
Definition reta_calls (d : Z) : list (call RSS) :=
  if (1 <? n) && (rte_eth_promiscuous_get (answers d) =? 1) then
    match rd retas d with
    | Some r =>
        if reta_set r then
          match rd (reta_tables r) (n - 2) ≫= λ t, fill_reta G E t (dev_info_reta_size (answers d)) with
          | Some conf => [RetaUpdate d conf (dev_info_reta_size (answers d))]
          | None => []
          end
        else []
    | None => []
    end
  else [].

(** The calls that bring a device up. *)
Definition bring_up (pools : list Z) (d : Z) : list (call RSS) :=
  match rss_conf !! Z.to_nat d with
  | Some rss => [Configure d n n rss]
  | None => []
  end ++
  ((λ q, TxQueue d q TX_QUEUE_SIZE) <$> seqZ 0 n) ++
  imap (λ q p, RxQueue d (Z.of_nat q) RX_QUEUE_SIZE p) pools ++
  [Start d; Promiscuous d] ++ reta_calls d.

Definition all_zero (f : Z → Z) : bool := forallb (λ q, f q =? 0) (seqZ 0 n).

(** The set-up of a device succeeds; promiscuous mode does not matter. *)
Definition starts (a : device_answers) : bool :=
  (rte_eth_dev_configure a =? 0) && all_zero (rte_eth_tx_queue_setup a) &&
  all_zero (rte_eth_rx_queue_setup a) && (rte_eth_dev_start a =? 0).

Lemma all_zero_false f q : 0 ≤ q < n → f q ≠ 0 → all_zero f = false.
Proof.
  intros Hq Hf. apply not_true_is_false. unfold all_zero. rewrite forallb_forall. intros Hall.
  specialize (Hall q). rewrite <- list_elem_of_In, elem_of_seqZ in Hall. specialize (Hall ltac:(lia)). lia.
Qed.

Lemma all_zero_true f : (∀ q, 0 ≤ q < n → f q = 0) → all_zero f = true.
Proof.
  intros Hf. unfold all_zero. rewrite forallb_forall. intros q Hq.
  rewrite <- list_elem_of_In, elem_of_seqZ in Hq. rewrite Hf; [done|lia].
Qed.

Context (lcores_conf0 : list Z).
Hypothesis HS : setup_ok lcores_conf0.

Lemma setup_tx_spec a d log :
  ∃ o, setup_tx (RSS := RSS) a d n log = Some o ∧
    match o with
    | Continue log' => all_zero (rte_eth_tx_queue_setup a) = true ∧
        log' = log ++ ((λ q, TxQueue d q TX_QUEUE_SIZE) <$> seqZ 0 n)
    | Return (r, _) => r ≠ 0 ∧ all_zero (rte_eth_tx_queue_setup a) = false
    end.
Proof.
  pose proof (so_some _ HS) as Hn. unfold setup_tx.
  set (body := λ txq (log : list (call RSS)), _).
  destruct (for_u32_rule (λ i log', log' = log ++ ((λ q, TxQueue d q TX_QUEUE_SIZE) <$> seqZ 0 i) ∧
      ∀ q, 0 ≤ q < i → rte_eth_tx_queue_setup a q = 0)
    (λ '(r, _), r ≠ 0 ∧ all_zero (rte_eth_tx_queue_setup a) = false) 0 n body log)
    as (o & Ho' & Ho); [lia|lia|by split; [rewrite app_nil_r|intros; lia]| |].
  - intros i log' Hi [-> Hz]. unfold body. destruct (Z.eqb_spec (rte_eth_tx_queue_setup a i) 0) as [Ez|Hne]; cbn [negb].
    + eexists. split; [done|]. split.
      * rewrite seqZ_app, fmap_app, app_assoc by lia. done.
      * intros q Hq. destruct (Z.eq_dec q i) as [->|]; [done|]. apply Hz. lia.
    + eexists. split; [done|]. split; [done|]. by eapply all_zero_false.
  - exists o. split; [exact Ho'|]. destruct o as [log'|[r l]]; [|done]. destruct Ho as [-> Hz].
    split; [by apply all_zero_true|done].
Qed.

(** The queues of the cores that were numbered so far. *)
Definition numbered (lconf : list Z) (k : nat) : Prop :=
  ∀ j c, (j < k)%nat → lcores !! j = Some c → rd lconf (Z.of_nat c) = Some (Z.of_nat j).

Lemma setup_rx_spec a d pools lconf cs k log :
  length pools = length lcores → cs = drop k lcores → (k ≤ length lcores)%nat →
  length lconf = length lcores_conf0 → numbered lconf k →
  (∀ q, 0 ≤ q < Z.of_nat k → rte_eth_rx_queue_setup a q = 0) →
  ∃ o, setup_rx (RSS := RSS) a d pools cs (Z.of_nat k) lconf log = Some o ∧
    match o with
    | Continue (lconf', log') => all_zero (rte_eth_rx_queue_setup a) = true ∧
        length lconf' = length lcores_conf0 ∧ numbered lconf' (length lcores) ∧
        log' = log ++ imap (λ q p, RxQueue d (Z.of_nat (k + q)) RX_QUEUE_SIZE p) (drop k pools)
    | Return (r, _, _) => r ≠ 0 ∧ all_zero (rte_eth_rx_queue_setup a) = false
    end.
Proof.
  intros Hp. revert k lconf log. induction cs as [|c cs IH]; intros k lconf log Hcs Hk Hl Hnum Hz.
  - assert (k = length lcores) as ->.
    { assert (length (drop k lcores) = 0%nat) as Hd by (by rewrite <- Hcs). rewrite length_drop in Hd. lia. }
    cbn [setup_rx]. eexists. split; [done|]. split_and!; [|done|done|].
    + apply all_zero_true. exact Hz.
    + rewrite drop_ge by lia. by rewrite app_nil_r.
  - pose proof (so_some _ HS) as Hn. unfold zlen in Hn.
    assert (lcores !! k = Some c) as Hc.
    { rewrite <- (Nat.add_0_r k), <- lookup_drop, <- Hcs. done. }
    pose proof (lookup_lt_Some _ _ _ Hc) as Hlt.
    pose proof (so_conf _ HS c ltac:(by eapply list_elem_of_lookup_2)) as Hcc.
    cbn [setup_rx]. rewrite wr_Some by (unfold zlen; lia). cbn [mbind option_bind].
    destruct (lookup_lt_is_Some_2 pools k) as [p Hpk]; [lia|].
    rewrite (rd_lookup pools), (Nat2Z.id k), Hpk by lia. cbn [mbind option_bind].
    destruct (Z.eqb_spec (rte_eth_rx_queue_setup a (Z.of_nat k)) 0) as [Ez|Hne]; cbn [negb].
    2: { eexists. split; [done|]. split; [done|]. eapply all_zero_false; [|done]. unfold zlen. lia. }
    rewrite int_chk_small by (unfold INT_MIN, INT_MAX; lia). cbn [mbind option_bind].
    replace (Z.of_nat k + 1) with (Z.of_nat (S k)) by lia.
    destruct (IH (S k) (<[Z.to_nat (Z.of_nat c) := u16 (Z.of_nat k)]> lconf)
      (log ++ [RxQueue d (Z.of_nat k) RX_QUEUE_SIZE p])) as (o & -> & Ho).
    + symmetry. apply drop_S with (x := c) in Hc. rewrite Hc in Hcs. by injection Hcs.
    + lia.
    + by rewrite length_insert.
    + intros j c' Hj Hj'. rewrite rd_insert by (unfold zlen; lia).
      destruct (Z.eqb_spec (Z.of_nat c) (Z.of_nat c')) as [Hcc'|Hcc'].
      * assert (c = c') as <- by lia. rewrite (NoDup_lookup _ _ _ _ (so_cores _ HS) Hj' Hc).
        by rewrite u16_small by lia.
      * apply Hnum; [|done]. destruct (decide (j = k)) as [->|]; [congruence|lia].
    + intros q Hq. destruct (Z.eq_dec q (Z.of_nat k)) as [->|]; [done|]. apply Hz. lia.
    + exists o. split; [done|]. destruct o as [[lconf' log']|[[r x] l]]; [|done].
      destruct Ho as (Ha & Hlen & Hnum' & ->). split_and!; [done|done|done|].
      rewrite <- app_assoc. f_equal. rewrite (drop_S _ _ _ Hpk). cbn [imap].
      rewrite Nat.add_0_r. cbn [app]. f_equal. apply imap_ext. intros i x _. simpl. f_equal. lia.
Qed.

Lemma set_reta_spec d log : 0 ≤ d < nb → rte_eth_promiscuous_get (answers d) = 1 →
  set_reta G E lcores retas (answers d) d log = Some (log ++ reta_calls d).
Proof.
  intros Hd Hpr. destruct (so_devices _ HS) as (_ & _ & Hr).
  unfold set_reta, reta_calls, rte_lcore_count. rewrite Hpr, Z.eqb_refl, andb_true_r.
  destruct (Z.leb_spec n 1) as [|Hn]; [rewrite (proj2 (Z.ltb_ge 1 n)) by lia; by rewrite app_nil_r|].
  rewrite (proj2 (Z.ltb_lt 1 n)) by lia.
  destruct (rd_Some retas d) as [r Er]; [lia|]. rewrite Er. cbn [mbind option_bind].
  destruct (reta_set r); cbn [negb]; [|by rewrite app_nil_r].
  assert (r ∈ retas) as Hin by (rewrite rd_lookup in Er by lia; by eapply list_elem_of_lookup_2).
  destruct (so_retas _ HS r Hin) as [Hlen Ht].
  destruct (rd_Some (reta_tables r) (n - 2)) as [t Et]; [lia|]. rewrite Et. cbn [mbind option_bind].
  assert (zlen t = E) as Hte.
  { apply Ht. rewrite rd_lookup in Et by lia. by eapply list_elem_of_lookup_2. }
  destruct (fill_reta_spec G E (so_group _ HS) (so_size _ HS) t _ (so_reta_size _ HS d Hd) Hte)
    as (conf & -> & _). done.
Qed.

Lemma par_init_device_spec d pools lconf log :
  0 ≤ d < nb → length pools = length lcores → length lconf = length lcores_conf0 →
  ∃ ret lconf' log', nf_init_device G E lcores rss_conf retas (answers d) d pools lconf log =
      Some (ret, lconf', log') ∧
    if starts (answers d)
    then ret = 0 ∧ length lconf' = length lcores_conf0 ∧ numbered lconf' (length lcores) ∧
      log' = log ++ bring_up pools d
    else ret ≠ 0.
Proof.
  intros Hd Hp Hl. pose proof (so_some _ HS) as Hn. destruct (so_devices _ HS) as (_ & Hrss & _).
  unfold nf_init_device, starts, bring_up, rte_lcore_count. rewrite u16_small by lia.
  destruct (rd_Some rss_conf d) as [rss Er]; [lia|]. rewrite Er. rewrite rd_lookup in Er by lia.
  rewrite Er. cbn [mbind option_bind].
  destruct (Z.eqb_spec (rte_eth_dev_configure (answers d)) 0); cbn [negb andb]; [|by eauto 6].
  destruct (setup_tx_spec (answers d) d (log ++ [Configure d n n rss])) as (o & -> & Ho).
  cbn [mbind option_bind]. destruct o as [log1|[r l]].
  2: { destruct Ho as [Hr ->]. cbn [andb]. by eauto 6. }
  destruct Ho as [-> ->]. cbn [andb].
  destruct (setup_rx_spec (answers d) d pools lconf lcores 0
    ((log ++ [Configure d n n rss]) ++ ((λ q, TxQueue d q TX_QUEUE_SIZE) <$> seqZ 0 n))) as (o & Hrx & Ho);
    [done|done|lia|done|intros j c Hj; lia|intros q Hq; lia|].
  change (Z.of_nat 0) with 0 in Hrx. rewrite Hrx. cbn [mbind option_bind]. clear Hrx.
  destruct o as [[lconf' log']|[[r x] l]]; [|destruct Ho as [Hr ->]; cbn [andb]; by eauto 6].
  destruct Ho as (-> & Hlen & Hnum & ->). cbn [andb].
  destruct (Z.eqb_spec (rte_eth_dev_start (answers d)) 0) as [Es|]; cbn [negb]; [|by eauto 6].
  destruct (Z.eqb_spec (rte_eth_promiscuous_get (answers d)) 1) as [Hpr|Hpr]; cbn [negb].
  - rewrite set_reta_spec by done. cbn [mbind option_bind]. eexists _, _, _. split; [done|].
    split_and!; [done|done|done|]. by rewrite <- !app_assoc.
  - eexists _, _, _. split; [done|]. split_and!; [done|done|done|].
    unfold reta_calls. rewrite (proj2 (Z.eqb_neq _ _) Hpr), andb_false_r, app_nil_r.
    by rewrite <- !app_assoc.
Qed.

Lemma par_init_devices_spec (left : nat) pools : length pools = length lcores → ∀ d lconf log,
  0 ≤ d → d + Z.of_nat left = nb → length lconf = length lcores_conf0 →
  (left = 0%nat → numbered lconf (length lcores)) →
  ∃ o, init_devices G E lcores rss_conf retas answers d left pools lconf log = Some o ∧
    match o with
    | Continue (lconf', log') =>
        forallb (starts ∘ answers) (seqZ d (Z.of_nat left)) = true ∧
        numbered lconf' (length lcores) ∧
        log' = log ++ (seqZ d (Z.of_nat left) ≫= bring_up pools)
    | Return _ => forallb (starts ∘ answers) (seqZ d (Z.of_nat left)) = false
    end.
Proof.
  intros Hp. destruct (so_devices _ HS) as (Hnb & _). induction left as [|left IH];
    intros d lconf log Hd Hsum Hl H0.
  { eexists. split; [done|]. split_and!; [done|by apply H0|]. simpl. by rewrite app_nil_r. }
  rewrite seqZ_cons by lia. replace (Z.pred (Z.of_nat (S left))) with (Z.of_nat left) by lia.
  cbn [init_devices forallb]. unfold compose at 1 3.
  destruct (par_init_device_spec d pools lconf log) as (ret & lconf' & log' & -> & Hs); [lia|done|done|].
  cbn [mbind option_bind]. destruct (starts (answers d)); cbn [andb].
  - destruct Hs as (-> & Hl' & Hnum & ->). rewrite Z.eqb_refl.
    destruct left as [|left'].
    { cbn [init_devices]. eexists. split; [done|]. split_and!; [done|done|]. simpl. by rewrite app_nil_r. }
    rewrite u16_small by lia. change (Z.succ d) with (d + 1).
    destruct (IH (d + 1) lconf' (log ++ bring_up pools d)) as (o & -> & Ho); [lia|lia|done|done|].
    exists o. split; [done|]. destruct o as [[lc lg]|]; [|done]. destruct Ho as (-> & Hnum' & ->).
    split_and!; [done|done|]. by rewrite <- app_assoc.
  - destruct (Z.eqb_spec ret 0); [done|]. by eexists.
Qed.

End devices.

Lemma create_pools_spec {RSS} (pool_create : Z → option Z) nb (cs : list nat) : ∀ idx pools log,
  0 ≤ idx → idx + zlen cs < 2 ^ 32 →
  match create_pools (RSS := RSS) pool_create nb cs idx pools log with
  | Continue (pools', log') => ∃ ps, pools' = pools ++ ps ∧
      pool_create <$> seqZ idx (zlen cs) = Some <$> ps ∧
      log' = log ++ ((λ i, CreatePool i (u32 (MEMPOOL_BUFFER_COUNT * nb)) MBUF_CACHE_SIZE) <$> seqZ idx (zlen cs))
  | Return _ => ∃ i, idx ≤ i < idx + zlen cs ∧ pool_create i = None
  end.
Proof.
  induction cs as [|c cs IH]; intros idx pools log Hi Hle; cbn [create_pools].
  { exists []. by rewrite !app_nil_r. }
  assert (zlen (c :: cs) = Z.succ (zlen cs)) as Hz by (unfold zlen; simpl; lia). rewrite Hz in *.
  assert (0 ≤ zlen cs) by (unfold zlen; lia).
  rewrite seqZ_cons, Z.pred_succ by lia. change (Z.succ idx) with (idx + 1).
  destruct (pool_create idx) as [p|] eqn:Ep; [|exists idx; split; [lia|done]].
  rewrite u32_small by lia.
  specialize (IH (idx + 1) (pools ++ [p])
    (log ++ [CreatePool idx (u32 (MEMPOOL_BUFFER_COUNT * nb)) MBUF_CACHE_SIZE]) ltac:(lia) ltac:(lia)).
  destruct (create_pools _ _ _ _ _ _) as [[pools' log']|l].
  - destruct IH as (ps & -> & Hps & ->). exists (p :: ps). rewrite <- !app_assoc. split; [done|].
    split; [|done]. cbn [fmap list_fmap]. by rewrite Ep, Hps.
  - destruct IH as (i & Hir & Hin). exists i. split; [lia|done].
Qed.

Section result.
Context {RSS : Type}.
Context (G E : Z) (lcores : list nat) (rss_conf : list RSS) (retas : list retas_t).
Context (answers : Z → device_answers) (nb : Z) (lcores_conf0 : list Z).
Hypothesis HS : setup_ok G E lcores rss_conf retas answers nb lcores_conf0.

(** A table that is handed to a device is the one for this number of cores. *)
Lemma reta_update_inv pools d d' conf size :
  0 ≤ d' < nb → RetaUpdate d conf size ∈ bring_up G E lcores rss_conf retas answers pools d' →
  d = d' ∧ 1 < zlen lcores ∧ rte_eth_promiscuous_get (answers d) = 1 ∧
  size = dev_info_reta_size (answers d) ∧
  ∃ r t, rd retas d = Some r ∧ reta_set r = true ∧ rd (reta_tables r) (zlen lcores - 2) = Some t ∧
    ∀ b, 0 ≤ b < size →
      bucket_is G conf b (λ e, reta_mask e = UINT64_MAX ∧ rd (reta e) (b mod G) = rd t b).
Proof.
  intros Hd. unfold bring_up. rewrite !elem_of_app. intros [Hin|[Hin|[Hin|[Hin|Hin]]]].
  - destruct (rss_conf !! _); [apply list_elem_of_singleton in Hin; done|by apply elem_of_nil in Hin].
  - apply list_elem_of_fmap in Hin as (q & Hq & _). done.
  - apply elem_of_lookup_imap in Hin as (i & p & Hq & _). done.
  - apply elem_of_cons in Hin as [?|[?|Hin]%elem_of_cons]; [done|done|by apply elem_of_nil in Hin].
  - unfold reta_calls in Hin. destruct (_ && _) eqn:Ec; [|by apply elem_of_nil in Hin].
    destruct (rd retas d') as [r|] eqn:Er; [|by apply elem_of_nil in Hin].
    destruct (reta_set r) eqn:Eset; [|by apply elem_of_nil in Hin].
    destruct (rd (reta_tables r) (zlen lcores - 2)) as [t|] eqn:Et; [|by apply elem_of_nil in Hin].
    cbn [mbind option_bind] in Hin.
    assert (zlen t = E) as Hte.
    { pose proof (rd_Some_range _ _ _ Er). pose proof (rd_Some_range _ _ _ Et).
      rewrite rd_lookup in Er by lia. rewrite rd_lookup in Et by lia.
      eapply (so_retas _ _ _ _ _ _ _ _ HS r); by eapply list_elem_of_lookup_2. }
    destruct (fill_reta_spec G E (so_group _ _ _ _ _ _ _ _ HS) (so_size _ _ _ _ _ _ _ _ HS) t
      (dev_info_reta_size (answers d')) (so_reta_size _ _ _ _ _ _ _ _ HS d' Hd) Hte) as (conf' & Hf & Hb).
    rewrite Hf in Hin. apply list_elem_of_singleton in Hin as [= -> -> ->].
    apply andb_true_iff in Ec as [?%Z.ltb_lt ?%Z.eqb_eq]. split_and!; [done..|]. exists r, t. done.
Qed.

(** The table of a device that has one is handed to it. *)
Lemma reta_update_done pools d r :
  0 ≤ d < nb → rd retas d = Some r → 1 < zlen lcores → rte_eth_promiscuous_get (answers d) = 1 →
  reta_set r = true →
  ∃ conf, RetaUpdate d conf (dev_info_reta_size (answers d)) ∈ bring_up G E lcores rss_conf retas answers pools d.
Proof.
  intros Hd Hr Hn Hpr Hset.
  assert (r ∈ retas) as Hin.
  { pose proof (rd_Some_range _ _ _ Hr). rewrite rd_lookup in Hr by lia. by eapply list_elem_of_lookup_2. }
  destruct (so_retas _ _ _ _ _ _ _ _ HS r Hin) as [Hlen Ht].
  destruct (rd_Some (reta_tables r) (zlen lcores - 2)) as [t Et]; [lia|].
  assert (zlen t = E) as Hte.
  { apply Ht. rewrite rd_lookup in Et by lia. by eapply list_elem_of_lookup_2. }
  destruct (fill_reta_spec G E (so_group _ _ _ _ _ _ _ _ HS) (so_size _ _ _ _ _ _ _ _ HS) t
    (dev_info_reta_size (answers d)) (so_reta_size _ _ _ _ _ _ _ _ HS d Hd) Hte) as (conf & Hf & _).
  exists conf. unfold bring_up, reta_calls.
  rewrite (proj2 (Z.ltb_lt 1 (zlen lcores)) Hn), Hpr, Z.eqb_refl, Hr, Hset, Et. cbn [andb mbind option_bind].
  rewrite Hf, !elem_of_app, list_elem_of_singleton. auto.
Qed.

(** The tables come from the devices. *)
Lemma reta_update_from pools before after d conf size :
  (∀ d' conf' size', RetaUpdate d' conf' size' ∉ before ++ after) →
  RetaUpdate d conf size ∈ before ++ (seqZ 0 nb ≫= bring_up G E lcores rss_conf retas answers pools) ++ after →
  0 ≤ d < nb ∧ RetaUpdate d conf size ∈ bring_up G E lcores rss_conf retas answers pools d.
Proof.
  intros Hno. rewrite !elem_of_app. specialize (Hno d conf size). rewrite elem_of_app in Hno.
  intros [?|[Hin|?]]; [tauto| |tauto].
  apply list_elem_of_bind in Hin as (d' & Hin & Hd'%elem_of_seqZ).
  destruct (reta_update_inv pools d d' conf size ltac:(lia) Hin) as (-> & _). split; [lia|done].
Qed.

(** Queues and cores correspond to each other. *)
Lemma numbered_unique lconf q : numbered lcores lconf (length lcores) → 0 ≤ q < zlen lcores →
  ∃ c, c ∈ lcores ∧ rd lconf (Z.of_nat c) = Some q ∧
    ∀ c', c' ∈ lcores → rd lconf (Z.of_nat c') = Some q → c' = c.
Proof.
  intros Hn Hq. unfold zlen in Hq. destruct (lookup_lt_is_Some_2 lcores (Z.to_nat q)) as [c Hc]; [lia|].
  exists c. split; [by eapply list_elem_of_lookup_2|]. split.
  - rewrite (Hn (Z.to_nat q) c ltac:(lia) Hc). by rewrite Z2Nat.id by lia.
  - intros c' [j Hj]%list_elem_of_lookup Hr. rewrite (Hn j c' (lookup_lt_Some _ _ _ Hj) Hj) in Hr.
    injection Hr as <-. rewrite Nat2Z.id in Hc. congruence.
Qed.

End result.

(** [MAIN] has defined behaviour exactly when it does not come to the array of pools without memory. *)
Lemma MAIN_no_memory {RSS} (G E : Z) lcores master eal nb pool_create (rss_conf : list RSS) retas answers
    lcores_conf : 0 ≤ eal →
  MAIN G E lcores master eal nb false pool_create rss_conf retas answers lcores_conf = None.
Proof. intros He. unfold MAIN. by rewrite (proj2 (Z.ltb_ge eal 0)) by lia. Qed.

(** The pools, and whether all could be created. *)
Definition pools_created (pool_create : Z → option Z) (lcores : list nat) : bool :=
  forallb (λ i, bool_decide (is_Some (pool_create i))) (seqZ 0 (zlen lcores)).

Lemma create_pools_created {RSS} (pool_create : Z → option Z) nb (lcores : list nat) : zlen lcores < 2 ^ 32 →
  match create_pools (RSS := RSS) pool_create nb lcores 0 [] [] with
  | Continue (ps, log) => pools_created pool_create lcores = true ∧ length ps = length lcores ∧
      pool_create <$> seqZ 0 (zlen lcores) = Some <$> ps ∧
      log = (λ i, CreatePool i (u32 (MEMPOOL_BUFFER_COUNT * nb)) MBUF_CACHE_SIZE) <$> seqZ 0 (zlen lcores)
  | Return _ => pools_created pool_create lcores = false
  end.
Proof.
  intros Hn. pose proof (create_pools_spec (RSS := RSS) pool_create nb lcores 0 [] [] ltac:(lia) ltac:(lia)) as Hcp.
  unfold pools_created. destruct (create_pools _ _ _ _ _ _) as [[pools log]|log].
  - destruct Hcp as (ps & -> & Hps & ->). split_and!; [| |done|done].
    + apply forallb_forall. intros i Hi%list_elem_of_In. apply bool_decide_eq_true.
      assert (pool_create i ∈ Some <$> ps) as Hin by (rewrite <- Hps; by apply list_elem_of_fmap_2).
      apply list_elem_of_fmap in Hin as (p & -> & _). by eexists.
    + apply (f_equal length) in Hps. rewrite !length_fmap, length_seqZ in Hps. unfold zlen in Hps. simpl. lia.
  - destruct Hcp as (i & Hi & Hp). apply not_true_is_false. rewrite forallb_forall. intros Hall.
    specialize (Hall i). rewrite <- list_elem_of_In, elem_of_seqZ, bool_decide_eq_true, Hp in Hall.
    destruct (Hall ltac:(lia)) as [? [=]].
Qed.

(** ** Main result *)

(** C35: every packet has its core.  For any answers of DPDK, where no device asks for a table that is
    larger than the declared one: when DPDK is initialised but the array of pools cannot be
    allocated, the behaviour is undefined, since the result of [rte_malloc] is not tested; else
    [MAIN] has defined behaviour.  It exits exactly if DPDK cannot be initialised, a pool cannot
    be created, a device cannot be configured, a queue cannot be set up or a device cannot be
    started; a device that cannot enter promiscuous mode is not an error.  If it does not exit, it
    has created a pool for each core, brought up every device with a queue in each direction for
    each core, queue [q] with pool [q], and then launched a worker on every other core.  The [j]th
    core works on queue [j].  A table is handed to exactly the devices that are in promiscuous mode
    and have one, when there are several cores; every bucket of it is enabled and holds the queue
    that was computed for it, which, if it is a queue at all, is served by exactly one core. *)
Theorem parallel_start {RSS} (G E : Z) (lcores : list nat) (master : nat) (rss_conf : list RSS)
    (retas : list retas_t) (answers : Z → device_answers) (nb eal : Z) (malloc_ok : bool)
    (pool_create : Z → option Z) (lcores_conf : list Z) :
  setup_ok G E lcores rss_conf retas answers nb lcores_conf →
  let ready := (0 <=? eal) && pools_created pool_create lcores &&
                 forallb (starts lcores ∘ answers) (seqZ 0 nb) in
  match MAIN G E lcores master eal nb malloc_ok pool_create rss_conf retas answers lcores_conf with
  | None => 0 ≤ eal ∧ malloc_ok = false
  | Some (Return _) => (eal < 0 ∨ malloc_ok = true) ∧ ready = false
  | Some (Continue (lconf, log)) => malloc_ok = true ∧ ready = true ∧
      (∃ pools, pool_create <$> seqZ 0 (zlen lcores) = Some <$> pools ∧
         log = ((λ i, CreatePool i (u32 (MEMPOOL_BUFFER_COUNT * nb)) MBUF_CACHE_SIZE) <$>
                  seqZ 0 (zlen lcores)) ++
               (seqZ 0 nb ≫= bring_up G E lcores rss_conf retas answers pools) ++
               (Launch <$> filter (λ c, c ≠ master) lcores)) ∧
      (∀ j c, lcores !! j = Some c → rd lconf (Z.of_nat c) = Some (Z.of_nat j)) ∧
      (∀ d r, 0 ≤ d < nb → rd retas d = Some r →
         (∃ conf size, RetaUpdate d conf size ∈ log) ↔
         1 < zlen lcores ∧ rte_eth_promiscuous_get (answers d) = 1 ∧ reta_set r = true) ∧
      ∀ d conf size b, RetaUpdate d conf size ∈ log → 0 ≤ b < size →
        ∃ r t e, rd retas d = Some r ∧ rd (reta_tables r) (zlen lcores - 2) = Some t ∧
          rd conf (b / G) = Some e ∧ reta_mask e = UINT64_MAX ∧ rd (reta e) (b mod G) = rd t b ∧
          ∀ q, rd t b = Some q → 0 ≤ q < zlen lcores →
            ∃ c, c ∈ lcores ∧ rd lconf (Z.of_nat c) = Some q ∧
              ∀ c', c' ∈ lcores → rd lconf (Z.of_nat c') = Some q → c' = c
  end.
Proof.
  intros HS ready. pose proof (so_some _ _ _ _ _ _ _ _ HS) as Hn.
  destruct (so_devices _ _ _ _ _ _ _ _ HS) as (Hnb & _). destruct (Z_lt_le_dec eal 0) as [He|He].
  { unfold MAIN, ready. rewrite (proj2 (Z.ltb_lt eal 0) He), (proj2 (Z.leb_gt 0 eal)) by lia. auto. }
  destruct malloc_ok; [|by rewrite MAIN_no_memory].
  unfold MAIN, ready. rewrite (proj2 (Z.ltb_ge eal 0)), (proj2 (Z.leb_le 0 eal)) by lia.
  cbn [c_assert mbind option_bind andb].
  pose proof (create_pools_created (RSS := RSS) pool_create nb lcores ltac:(lia)) as Hcp.
  destruct (create_pools _ _ _ _ _ _) as [[ps log]|log]; [|rewrite Hcp; auto].
  destruct Hcp as (-> & Hlp & Hps & ->). cbn [andb].
  destruct (par_init_devices_spec G E lcores rss_conf retas answers nb lcores_conf HS (Z.to_nat nb) ps Hlp 0
    lcores_conf ((λ i, CreatePool i (u32 (MEMPOOL_BUFFER_COUNT * nb)) MBUF_CACHE_SIZE) <$>
      seqZ 0 (zlen lcores))) as (o & -> & Ho); [lia|lia|done|lia|]. cbn [mbind option_bind].
  rewrite Z2Nat.id in Ho by lia. destruct o as [[lconf log]|log]; [|auto].
  destruct Ho as (Hst & Hnum & ->). rewrite <- app_assoc. split; [done|]. split; [done|].
  split; [by exists ps|]. split; [intros j c Hj; apply Hnum; [by eapply lookup_lt_Some|done]|].
  set (log := _ ++ _ ++ _).
  assert (∀ d conf size, RetaUpdate d conf size ∈ log → 0 ≤ d < nb ∧
    RetaUpdate d conf size ∈ bring_up G E lcores rss_conf retas answers ps d) as Hup.
  { intros d conf size. apply (reta_update_from G E lcores rss_conf retas answers nb lcores_conf HS).
    intros d' conf' size'. rewrite elem_of_app.
    by intros [(? & ? & _)%list_elem_of_fmap|(? & ? & _)%list_elem_of_fmap]. }
  split.
  - intros d r Hd Hr. split.
    + intros (conf & size & [_ Hin]%Hup).
      destruct (reta_update_inv G E lcores rss_conf retas answers nb lcores_conf HS ps d d conf size Hd Hin)
        as (_ & ? & ? & _ & r' & t & Hr' & ? & _). split_and!; congruence.
    + intros (H1 & H2 & H3).
      destruct (reta_update_done G E lcores rss_conf retas answers nb lcores_conf HS ps d r Hd Hr H1 H2 H3)
        as [conf Hin]. exists conf, (dev_info_reta_size (answers d)). unfold log. rewrite !elem_of_app.
      right. left. apply list_elem_of_bind. exists d. split; [done|]. apply elem_of_seqZ. lia.
  - intros d conf size b [Hd Hin]%Hup Hb.
    destruct (reta_update_inv G E lcores rss_conf retas answers nb lcores_conf HS ps d d conf size Hd Hin)
      as (_ & _ & _ & _ & r & t & Hr & _ & Ht & Hbk).
    destruct (Hbk b Hb) as (e & Hge & Hmask & Hv). exists r, t, e. split_and!; try done.
    intros q _ Hq. by apply numbered_unique.
Qed.

(** ** A concrete start *)

(** Two devices and the cores 0 and 2; the first device has a table of 128 buckets that alternates
    between the queues; the second does not enter promiscuous mode and gets no table. *)
Definition demo_retas : list retas_t :=
  [Retas [(λ b, b mod 2) <$> seqZ 0 512] true; Retas [replicate 512 0] true].

Definition demo_device (d : Z) : device_answers :=
  DeviceAnswers 0 (λ _, 0) (λ _, 0) 0 (if d =? 0 then 1 else 0) 128.

Lemma demo_setup_ok : setup_ok 64 512 [0%nat; 2%nat] [tt; tt] demo_retas demo_device 2 [9; 9; 9].
Proof.
  constructor; try done.
  - split; [by exists 8|lia].
  - repeat constructor; set_solver.
  - intros c Hc. apply elem_of_cons in Hc as [->|Hc%list_elem_of_singleton]; [|subst c]; simpl; lia.
  - intros r Hr. apply elem_of_cons in Hr as [->|Hr%list_elem_of_singleton]; [|subst r];
      (split; [done|]); intros t Ht%list_elem_of_singleton; by subst t.
Qed.

Lemma parallel_start_witness :
  ∃ lconf log, MAIN 64 512 [0%nat; 2%nat] 0 3 2 true (λ i, Some (4096 + i)) [tt; tt] demo_retas demo_device
      [9; 9; 9] = Some (Continue (lconf, log)) ∧
    lconf = [0; 9; 1] ∧ last log = Some (Launch 2%nat) ∧
    (∃ conf size, RetaUpdate 0 conf size ∈ log) ∧ ¬ ∃ conf size, RetaUpdate 1 conf size ∈ log.
Proof.
  pose proof (parallel_start 64 512 [0%nat; 2%nat] 0 [tt; tt] demo_retas demo_device 2 3 true
    (λ i, Some (4096 + i)) [9; 9; 9] demo_setup_ok) as Ho. cbv zeta in Ho.
  destruct (MAIN 64 512 [0%nat; 2%nat] 0 3 2 true (λ i, Some (4096 + i)) [tt; tt] demo_retas demo_device
    [9; 9; 9]) as [[[lconf log]|log]|] eqn:Hm; [|exfalso; vm_compute in Hm; discriminate Hm..].
  destruct Ho as (_ & _ & _ & _ & Hup & _). exists lconf, log. split; [done|].
  split; [vm_compute in Hm; injection Hm as <- _; reflexivity|].
  split; [vm_compute in Hm; injection Hm as _ <-; reflexivity|]. split.
  - apply (Hup 0 (Retas [(λ b, b mod 2) <$> seqZ 0 512] true) ltac:(lia) eq_refl). repeat split; reflexivity.
  - intros Hx. apply (Hup 1 (Retas [replicate 512 0] true) ltac:(lia) eq_refl) in Hx as (_ & Hp & _).
    discriminate Hp.
Defined.
