(* ===== verification/DChainLocks.v ===== *)
(** * double-chain-locks-impl.c and double-chain-locks.c

    The index allocator for several cores.  Each core has its own cells, a list
    of the indexes it has used, and its own timestamps; allocating and freeing
    an index changes the data of all cores and happens in write mode only, while
    rejuvenating an index changes the data of the calling core and happens in
    both modes.  The cells and five of the functions on them are, statement by
    statement, those of double-chain-impl.c. *)
From stdpp Require Import base list gmap numbers sets.
From Stdlib Require Import ZArith Lia.
From S2P Require Import Prelude.
From S2P Require Import Memory.
From S2P Require Import DChainImpl.
From S2P Require Import DChain.

(** ** double-chain-locks-impl.c *)

Definition dchain_locks_impl_init : list dchain_cell → Z → option (list dchain_cell) :=
  dchain_impl_init.

Definition dchain_locks_impl_allocate_new_index
    : list dchain_cell → Z → option (Z * list dchain_cell * Z) := dchain_impl_allocate_new_index.

Definition dchain_locks_impl_free_index : list dchain_cell → Z → option (Z * list dchain_cell) :=
  dchain_impl_free_index.

Definition dchain_locks_impl_rejuvenate_index : list dchain_cell → Z → option (Z * list dchain_cell) :=
  dchain_impl_rejuvenate_index.

Definition dchain_locks_impl_is_index_allocated : list dchain_cell → Z → option Z :=
  dchain_impl_is_index_allocated.

(** The list of active indexes: an index that is not in it points to cell 1,
    which is not itself initialised. *)
Definition dchain_locks_impl_activity_init (cells : list dchain_cell) (size : Z)
    : option (list dchain_cell) :=
  cells ← set_prev cells ALLOC_LIST_HEAD ALLOC_LIST_HEAD;
  cells ← set_next cells ALLOC_LIST_HEAD ALLOC_LIST_HEAD;
  '(_, cells) ← iterate (S (Z.to_nat size)) (λ '(i, cells),
      if i <? size + INDEX_SHIFT then
        cells ← set_next cells i FREE_LIST_HEAD;
        n ← nxt cells i;
        cells ← set_prev cells i n;
        Some (Continue (i + 1, cells))
      else Some (Return (i, cells))) (INDEX_SHIFT, cells);
  Some cells.

Definition dchain_locks_impl_activate_index (cells : list dchain_cell) (index : Z)
    : option (Z * list dchain_cell) :=
  let lifted := index + INDEX_SHIFT in
  lifted_next ← nxt cells lifted;
  lifted_prev ← prv cells lifted;
  if negb (lifted_next =? FREE_LIST_HEAD) && (lifted_next =? ALLOC_LIST_HEAD) then Some (0, cells) else
  cells ← (if negb (lifted_next =? FREE_LIST_HEAD) then
             cells ← set_next cells lifted_prev lifted_next;
             cells ← set_prev cells lifted_next lifted_prev;
             _ ← prv cells ALLOC_LIST_HEAD;
             Some cells
           else Some cells);
  al_head_prev ← prv cells ALLOC_LIST_HEAD;
  cells ← set_next cells lifted ALLOC_LIST_HEAD;
  cells ← set_prev cells lifted al_head_prev;
  cells ← set_next cells al_head_prev lifted;
  cells ← set_prev cells ALLOC_LIST_HEAD lifted;
  Some (1, cells).

Definition dchain_locks_impl_deactivate_index (cells : list dchain_cell) (index : Z)
    : option (Z * list dchain_cell) :=
  let freed := index + INDEX_SHIFT in
  freed_prev ← prv cells freed;
  freed_next ← nxt cells freed;
  if freed_next =? FREE_LIST_HEAD then Some (0, cells) else
  cells ← set_next cells freed_prev freed_next;
  cells ← set_prev cells freed_next freed_prev;
  cells ← set_next cells freed FREE_LIST_HEAD;
  n ← nxt cells freed;
  cells ← set_prev cells freed n;
  Some (1, cells).

Definition dchain_locks_impl_is_index_active (cells : list dchain_cell) (index : Z) : option Z :=
  n ← nxt cells (index + INDEX_SHIFT);
  Some (if negb (n =? FREE_LIST_HEAD) then 1 else 0).

(** The result and [*next]. *)
Definition dchain_locks_impl_next (cells : list dchain_cell) (index next : Z) : option (Z * Z) :=
  n ← nxt cells (index + INDEX_SHIFT);
  if n =? ALLOC_LIST_HEAD then Some (0, next) else Some (1, n - INDEX_SHIFT).

Definition dchain_locks_impl_get_oldest_index (cells : list dchain_cell) (index : Z)
    : option (Z * Z) :=
  n ← nxt cells ALLOC_LIST_HEAD;
  p ← prv cells ALLOC_LIST_HEAD;
  if (n =? p) && (n =? ALLOC_LIST_HEAD) then Some (0, index) else Some (1, n - INDEX_SHIFT).

Definition dchain_locks_impl_reposition_index (cells : list dchain_cell) (index new_prev_index : Z)
    : option (Z * list dchain_cell) :=
  let lifted := index + INDEX_SHIFT in
  lifted_next ← nxt cells lifted;
  lifted_prev ← prv cells lifted;
  if (lifted_next =? lifted_prev) && negb (lifted_next =? ALLOC_LIST_HEAD) then Some (0, cells) else
  cells ← set_next cells lifted_prev lifted_next;
  cells ← set_prev cells lifted_next lifted_prev;
  let new_prev := new_prev_index + INDEX_SHIFT in
  new_prev_next ← nxt cells new_prev;
  cells ← set_prev cells lifted new_prev;
  cells ← set_next cells lifted new_prev_next;
  cells ← set_prev cells new_prev_next lifted;
  cells ← set_next cells new_prev lifted;
  Some (1, cells).

(** ** double-chain-locks.c *)

(** What one core has: [cells[lcore]], [active_cells[lcore]] and
    [timestamps[lcore]] of struct DoubleChainLocks. *)
Record core_chain := CoreChain {
  cells : list dchain_cell;
  active_cells : list dchain_cell;
  timestamps : list Z
}.

(** Indexed by the number of the core; [range] is not read after allocation. *)
Abbreviation DoubleChainLocks := (list core_chain).

Definition set_cells (k : core_chain) (c : list dchain_cell) : core_chain :=
  CoreChain c (active_cells k) (timestamps k).

Definition set_active (k : core_chain) (c : list dchain_cell) : core_chain :=
  CoreChain (cells k) c (timestamps k).

Definition set_timestamps (k : core_chain) (t : list Z) : core_chain :=
  CoreChain (cells k) (active_cells k) t.

Section chain.
(** The enabled cores and [rte_lcore_id()]. *)
Variable lcores : list nat.
Variable lcore_id : nat.

(** RTE_LCORE_FOREACH *)
Definition foreach_lcore {A} (f : nat → A → option A) (a : A) : option A :=
  foldl (λ o c, a ← o; f c a) (Some a) lcores.

(** Fresh cells, [cell_size] bytes apart. *)
Definition fresh_cells (cell_size a n : Z) : M (list dchain_cell) := λ μ,
  Some ((λ i, Cell (junk μ (a + cell_size * i)) (junk μ (a + cell_size * i + 4))) <$> seqZ 0 n, μ).

Section allocate.
(** The sizes of a cell and of a timestamp, which double-chain-tm.c aligns. *)
Variable cell_size time_size : Z.

(** The three arrays of one core; when one cannot be allocated, those of this core
    and the struct itself are freed.  Every entry of the timestamps is set. *)
Definition allocate_core (index_range chain_alloc : Z) : M (option core_chain) :=
  cells_alloc ← malloc (u64 (cell_size * (index_range + DCHAIN_RESERVED)));
  if cells_alloc =? NULL then _ ← free chain_alloc; mret None else
  active_cells_alloc ← malloc (u64 (cell_size * (index_range + DCHAIN_RESERVED)));
  if active_cells_alloc =? NULL then _ ← free cells_alloc; _ ← free chain_alloc; mret None else
  active ← fresh_cells cell_size active_cells_alloc (index_range + DCHAIN_RESERVED);
  active ← lift (dchain_locks_impl_activity_init active index_range);
  timestamps_alloc ← malloc (u64 (time_size * index_range));
  if timestamps_alloc =? NULL then
    _ ← free cells_alloc; _ ← free active_cells_alloc; _ ← free chain_alloc; mret None else
  cs ← fresh_cells cell_size cells_alloc (index_range + DCHAIN_RESERVED);
  cs ← lift (dchain_locks_impl_init cs index_range);
  mret (Some (CoreChain cs active (replicate (Z.to_nat index_range) (-1)))).

Fixpoint allocate_cores (index_range chain_alloc : Z) (cs : list nat) (chain : DoubleChainLocks)
    : M (option DoubleChainLocks) :=
  match cs with
  | [] => mret (Some chain)
  | c :: cs' =>
      k ← allocate_core index_range chain_alloc;
      match k with
      | None => mret None
      | Some k => allocate_cores index_range chain_alloc cs' (<[c := k]> chain)
      end
  end.

(** The result, [*chain_out], and the chain behind it on success.  The entries of
    the cores that are not enabled stay uninitialised: here, without cells. *)
Definition chain_allocate (RTE_MAX_LCORE : nat) (index_range chain_out : Z)
    : M (Z * Z * option DoubleChainLocks) :=
  chain_alloc ← malloc (24 * Z.of_nat RTE_MAX_LCORE + 8);
  if chain_alloc =? NULL then mret (0, chain_out, None) else
  chain ← allocate_cores index_range chain_alloc lcores
            (replicate RTE_MAX_LCORE (CoreChain [] [] []));
  mret (match chain with
        | None => (0, chain_out, None)
        | Some chain => (1, chain_alloc, Some chain)
        end).

End allocate.

Definition dchain_locks_allocate : nat → Z → Z → M (Z * Z * option DoubleChainLocks) :=
  chain_allocate 8 8.

(** The functions that write take the flag [write_state] of the core and return
    the flag [write_attempt] after the result. *)

Definition dchain_locks_allocate_new_index (write_state write_attempt : bool)
    (chain : DoubleChainLocks) (index_out time : Z) : option (Z * bool * DoubleChainLocks * Z) :=
  if negb write_state then Some (1, true, chain, index_out) else
  '(ret, index_out, chain) ← foreach_lcore (λ c '(ret, index_out, chain),
      k ← chain !! c;
      '(new_ret, cs, index_out) ← dchain_locks_impl_allocate_new_index (cells k) index_out;
      ts ← (if negb (new_ret =? 0) then wr (timestamps k) index_out time else Some (timestamps k));
      Some (new_ret, index_out, <[c := CoreChain cs (active_cells k) ts]> chain))
    (-1, index_out, chain);
  chain ← (if negb (ret =? 0) then
             k ← chain !! lcore_id;
             '(_, ac) ← dchain_locks_impl_activate_index (active_cells k) index_out;
             Some (<[lcore_id := set_active k ac]> chain)
           else Some chain);
  Some (ret, write_attempt, chain, index_out).

Definition dchain_locks_rejuvenate_index (chain : DoubleChainLocks) (index time : Z)
    : option (Z * DoubleChainLocks) :=
  k ← chain !! lcore_id;
  '(ret, cs) ← dchain_locks_impl_rejuvenate_index (cells k) index;
  let k := set_cells k cs in
  k ← (if negb (ret =? 0) then
         ts ← wr (timestamps k) index time;
         '(_, ac) ← dchain_locks_impl_activate_index (active_cells k) index;
         Some (CoreChain (cells k) ac ts)
       else Some k);
  Some (ret, <[lcore_id := k]> chain).

(** The loop that looks for the new predecessor; [fuel] bounds its iterations. *)
Definition find_new_prev (fuel : nat) (k : core_chain) (index time : Z) : option Z :=
  t ← rd (timestamps k) index;
  iterate fuel (λ '(prev, prev_time),
    '(more, next) ← dchain_locks_impl_next (cells k) prev 0;
    if more =? 0 then Some (Return (-1)) else
    next_time ← rd (timestamps k) next;
    if (prev_time <=? time) && (time <=? next_time) && negb (index =? prev)
    then Some (Return prev) else Some (Continue (next, next_time))) (index, t).

Definition dchain_locks_update_timestamp (chain : DoubleChainLocks) (index time : Z)
    : option (Z * DoubleChainLocks) :=
  k ← chain !! lcore_id;
  new_prev ← find_new_prev (S (length (cells k))) k index time;
  '(ret, cs) ← (if new_prev =? -1
                then dchain_locks_impl_rejuvenate_index (cells k) index
                else dchain_locks_impl_reposition_index (cells k) index new_prev);
  Some (ret, <[lcore_id := set_cells k cs]> chain).

Definition dchain_locks_free_index (write_state write_attempt : bool) (chain : DoubleChainLocks)
    (index : Z) : option (Z * bool * DoubleChainLocks) :=
  if negb write_state then Some (1, true, chain) else
  '(rez, chain) ← foreach_lcore (λ c '(_, chain),
      k ← chain !! c;
      '(new_rez, cs) ← dchain_locks_impl_free_index (cells k) index;
      '(_, ac) ← dchain_locks_impl_deactivate_index (active_cells k) index;
      ts ← wr (timestamps k) index (-1);
      Some (new_rez, <[c := CoreChain cs ac ts]> chain)) (-1, chain);
  Some (rez, write_attempt, chain).

Definition most_recent (chain : DoubleChainLocks) (index : Z) : option Z :=
  foreach_lcore (λ c most_recent,
    k ← chain !! c; t ← rd (timestamps k) index;
    Some (if most_recent <? t then t else most_recent)) (-1).

(** Returns the result, the flag, the chain and [*index_out]. *)
Definition dchain_locks_expire_one_index (write_state write_attempt : bool)
    (chain : DoubleChainLocks) (index_out time : Z) : option (Z * bool * DoubleChainLocks * Z) :=
  k ← chain !! lcore_id;
  '(has_ind, index) ← dchain_locks_impl_get_oldest_index (active_cells k) index_out;
  if has_ind =? 0 then Some (0, write_attempt, chain, index) else
  t ← rd (timestamps k) index;
  if (-1 <? t) && (t <? time) then
    if negb write_state then Some (1, true, chain, index) else
    recent ← most_recent chain index;
    if time <=? recent then
      '(ret, chain) ← dchain_locks_update_timestamp chain index recent;
      Some (ret, write_attempt, chain, index)
    else
      '(rez, wa, chain) ← dchain_locks_free_index write_state write_attempt chain index;
      Some (rez, wa, chain, index)
  else Some (0, write_attempt, chain, index).

Definition dchain_locks_is_index_allocated (chain : DoubleChainLocks) (index : Z) : option Z :=
  k ← chain !! lcore_id; dchain_locks_impl_is_index_allocated (cells k) index.

End chain.

(** ** The list of active indexes *)

(** [act] are the cells in the list; every other cell points to cell 1. *)
Record active_rep (c : list dchain_cell) (range : Z) (act : list Z) : Prop := ActiveRep {
  ar_range : 0 < range;
  ar_len : zlen c = range + 2;
  ar_elem : ∀ x, x ∈ act → 2 ≤ x < range + 2;
  ar_NoDup : NoDup act;
  ar_list : dseg c 0 act 0;
  ar_out : ∀ x, 2 ≤ x < range + 2 → x ∉ act → nxt c x = Some 1
}.

Definition without (x : Z) (l : list Z) : list Z := filter (λ y, y ≠ x) l.

Lemma without_split x l1 l2 : NoDup (l1 ++ x :: l2) → without x (l1 ++ x :: l2) = l1 ++ l2.
Proof.
  intros Hn. apply NoDup_app in Hn as (_ & Hd & [Hx _]%NoDup_cons). unfold without.
  rewrite filter_app, filter_cons_False by (intros H; by apply H).
  f_equal; apply filter_all; intros y Hy ->; [|done]. apply (Hd x); [done|by left].
Qed.

Lemma without_absent x l : x ∉ l → without x l = l.
Proof. intros Hx. apply filter_all. by intros y Hy ->. Qed.

Lemma elem_of_without x y l : y ∈ without x l ↔ y ≠ x ∧ y ∈ l.
Proof. unfold without. by rewrite list_elem_of_filter. Qed.

Section active.
Context (c : list dchain_cell) (range : Z) (act : list Z).
Hypothesis HA : active_rep c range act.

Lemma active_NoDup_head : NoDup (0 :: act).
Proof. apply NoDup_cons. split; [intros ?%(ar_elem _ _ _ HA); lia|apply HA]. Qed.

Lemma active_reads x : 0 ≤ x < range + 2 → ∃ n p, nxt c x = Some n ∧ prv c x = Some p.
Proof.
  intros Hx. destruct (rd_Some c x) as [d Hd]; [rewrite (ar_len _ _ _ HA); lia|].
  exists (next d), (prev d). unfold nxt, prv. by rewrite Hd.
Qed.

(** The neighbours of an active cell; its successor is not cell 1. *)
Lemma active_links l1 x l2 : act = l1 ++ x :: l2 →
  nxt c x = Some (headof l2 0) ∧ prv c x = Some (endof 0 l1) ∧
  (endof 0 l1 ∈ 0 :: l1) ∧ (headof l2 0 ∈ l2 ++ [0]) ∧ headof l2 0 ≠ 1.
Proof.
  intros Hal. pose proof (ar_list _ _ _ HA) as Hd. rewrite Hal in Hd. apply dseg_app in Hd as [Hd1 Hd2].
  split_and!; [by apply (dseg_first _ _ _ _ Hd2)|by apply (dseg_last _ _ _ _ Hd1)
    |apply endof_in|apply headof_in|].
  pose proof (headof_in l2 0) as [Hh|Hh%list_elem_of_singleton]%elem_of_app; [|lia].
  assert (headof l2 0 ∈ act) as ?%(ar_elem _ _ _ HA) by (rewrite Hal; set_solver). lia.
Qed.

Lemma active_unlink l1 x l2 c' : act = l1 ++ x :: l2 →
  (∀ j, j ≠ x → nxt c' j = if endof 0 l1 =? j then Some (headof l2 0) else nxt c j) →
  (∀ j, j ≠ x → prv c' j = if headof l2 0 =? j then Some (endof 0 l1) else prv c j) →
  dseg c' 0 (l1 ++ l2) 0.
Proof.
  intros Hal HN HP. pose proof active_NoDup_head as Hnd. rewrite Hal in Hnd.
  assert (∀ y, y ∈ 0 :: l1 ++ l2 → y ≠ x) as Hne.
  { rewrite app_comm_cons, <- Permutation_middle in Hnd. apply NoDup_cons in Hnd as [Hx _].
    intros y Hy ->. by apply Hx. }
  assert (endof 0 l1 ≠ x) as H1 by (apply Hne; pose proof (endof_in 0 l1); set_solver).
  assert (headof l2 0 ≠ x) as H2 by (apply Hne; pose proof (headof_in l2 0); set_solver).
  eapply (dseg_remove c c' 0 l1 x l2 0); [done| |rewrite <- Hal; apply HA|..].
  - by apply NoDup_cons in Hnd as [? _].
  - rewrite HN by done. by rewrite Z.eqb_refl.
  - rewrite HP by done. by rewrite Z.eqb_refl.
  - intros y Hy Hyt. rewrite HN by (by apply Hne). destruct (Z.eqb_spec (endof 0 l1) y); [by subst|done].
  - intros y Hy Hyt. rewrite HP by (apply Hne; set_solver).
    destruct (Z.eqb_spec (headof l2 0) y); [by subst|done].
Qed.

End active.

(** Linking cell [x] at the end of a list. *)
Lemma link_last c c' l x :
  NoDup (0 :: l) → x ∉ 0 :: l → dseg c 0 l 0 →
  (∀ j, nxt c' j = if endof 0 l =? j then Some x else if x =? j then Some 0 else nxt c j) →
  (∀ j, prv c' j = if 0 =? j then Some x else if x =? j then Some (endof 0 l) else prv c j) →
  dseg c' 0 (l ++ [x]) 0.
Proof.
  intros Hnd Hx Hd HN HP. pose proof (endof_in 0 l) as He.
  assert (x ≠ 0 ∧ endof 0 l ≠ x) as [Hx0 Hex] by (split; intros E; subst; set_solver).
  eapply dseg_append; [exact Hnd| |exact Hx|done|exact Hd|..].
  - by apply NoDup_cons in Hnd as [? _].
  - rewrite HN. by rewrite Z.eqb_refl.
  - rewrite HP. destruct (Z.eqb_spec 0 x); [lia|]. by rewrite Z.eqb_refl.
  - rewrite HN. destruct (Z.eqb_spec (endof 0 l) x); [done|]. by rewrite Z.eqb_refl.
  - rewrite HP. done.
  - intros y Hy Hne. rewrite HN. destruct (Z.eqb_spec (endof 0 l) y); [by subst|].
    destruct (Z.eqb_spec x y); [by subst|done].
  - intros y Hy. rewrite HP. apply NoDup_cons in Hnd as [H0 _].
    destruct (Z.eqb_spec 0 y); [by subst|]. destruct (Z.eqb_spec x y); [set_solver|done].
Qed.

Section activity.
Context (c : list dchain_cell) (range : Z) (act : list Z).
Hypothesis HA : active_rep c range act.

(** The last four assignments of [dchain_locks_impl_activate_index] link [x]. *)
Lemma activate_tail c1 l x :
  NoDup (0 :: l) → (∀ y, y ∈ l → 2 ≤ y < range + 2) → 2 ≤ x < range + 2 → x ∉ l →
  zlen c1 = range + 2 → dseg c1 0 l 0 →
  (∀ y, 2 ≤ y < range + 2 → y ∉ l → y ≠ x → nxt c1 y = Some 1) →
  ∃ c', (al_head_prev ← prv c1 0;
         cs ← set_next c1 x 0; cs ← set_prev cs x al_head_prev;
         cs ← set_next cs al_head_prev x; cs ← set_prev cs 0 x;
         Some (1, cs)) = Some (1, c') ∧ active_rep c' range (l ++ [x]).
Proof.
  intros Hnd Hel Hx Hxl Hlen Hd Hout. pose proof (ar_range _ _ _ HA) as Hr.
  destruct (dseg_last _ _ _ _ Hd) as [Hn0 Hp0]. rewrite Hp0. cbn [mbind option_bind].
  assert (0 ≤ endof 0 l < range + 2) as He.
  { pose proof (endof_in 0 l) as [->|?%Hel]%elem_of_cons; lia. }
  set_step. set_step. set_step. set_step. eexists. split; [done|]. constructor.
  - done.
  - lia.
  - intros y [?| ->%list_elem_of_singleton]%elem_of_app; auto.
  - apply NoDup_app. apply NoDup_cons in Hnd as [_ Hnd]. split_and!; [done| |apply NoDup_singleton].
    intros y Hy ->%list_elem_of_singleton. done.
  - eapply (link_last c1); [done| |done|..].
    + intros [?|?]%elem_of_cons; [lia|done].
    + intros j. cell_reads. destruct (Z.eqb_spec (endof 0 l) j); [done|]. done.
    + intros j. cell_reads. done.
  - intros y Hy Hny. assert (y ≠ x ∧ y ∉ l) as [Hyx Hyl] by set_solver.
    assert (endof 0 l ≠ y).
    { intros <-. pose proof (endof_in 0 l) as [?|?]%elem_of_cons; [lia|done]. }
    cell_cases. by apply Hout.
Qed.

Lemma activate_spec i : 0 ≤ i < range →
  ∃ r c', dchain_locks_impl_activate_index c i = Some (r, c') ∧
    active_rep c' range (without (i + 2) act ++ [i + 2]).
Proof.
  intros Hi. unfold dchain_locks_impl_activate_index. unfold_heads. set (x := i + 2).
  pose proof (active_NoDup_head c range act HA) as Hnd. pose proof (ar_elem _ _ _ HA) as Hel.
  pose proof (ar_len _ _ _ HA) as Hlen. pose proof (ar_NoDup _ _ _ HA) as Hnd'.
  destruct (decide (x ∈ act)) as [Hin|Hnin].
  - apply list_elem_of_split in Hin as (l1 & l2 & Hal).
    destruct (active_links c range act HA _ _ _ Hal) as (Hn & Hp & He & Hh & H1).
    rewrite Hn, Hp. cbn [mbind option_bind]. destruct (Z.eqb_spec (headof l2 0) 1); [lia|].
    cbn [negb andb]. rewrite Hal, without_split by (by rewrite <- Hal).
    destruct (Z.eqb_spec (headof l2 0) 0) as [E|Hne].
    + assert (l2 = []) as ->.
      { destruct l2 as [|y l2]; [done|]. simpl in E. exfalso.
        assert (y ∈ act) as ?%Hel by (rewrite Hal; set_solver). lia. }
      rewrite app_nil_r. eexists _, _. split; [done|]. by rewrite <- Hal.
    + assert (2 ≤ x < range + 2) as Hx by (subst x; lia).
      assert (0 ≤ endof 0 l1 < range + 2 ∧ 0 ≤ headof l2 0 < range + 2) as [Her Hhr].
      { assert (∀ y, y = 0 ∨ y ∈ act → 0 ≤ y < range + 2) as Hr
          by (pose proof (ar_range _ _ _ HA); intros y [->|?%Hel]; lia).
        rewrite Hal in Hr. split; apply Hr; set_solver. }
      set_step. set_step.
      assert (dseg c1 0 (l1 ++ l2) 0) as Hd.
      { eapply (active_unlink c range act HA); [done|..]; intros; cell_reads; done. }
      destruct (dseg_last _ _ _ _ Hd) as [_ Hp0].
      rewrite Hp0. cbn [mbind option_bind].
      assert (NoDup (0 :: l1 ++ l2) ∧ x ∉ l1 ++ l2) as [Hnd2 Hx2].
      { rewrite Hal, <- Permutation_middle in Hnd.
        apply NoDup_cons in Hnd as [H0 [Hx1 Hnd2]%NoDup_cons]. split; [|done].
        apply NoDup_cons. split; [set_solver|done]. }
      edestruct (activate_tail c1 (l1 ++ l2) x) as (c' & Ht & HA'); [done| |done|done|lia|done| |].
      * intros y Hy. apply Hel. rewrite Hal. set_solver.
      * intros y Hy Hyl Hyx. cell_reads.
        assert (endof 0 l1 ≠ y).
        { intros <-. apply elem_of_cons in He as [?|He]; [lia|set_solver]. }
        destruct (Z.eqb_spec (endof 0 l1) y); [done|]. apply (ar_out _ _ _ HA); [done|].
        rewrite Hal. set_solver.
      * exists 1, c'. by split.
  - assert (2 ≤ x < range + 2) as Hx by (subst x; lia).
    destruct (active_reads c range act HA x) as (n & p & Hn & Hp); [lia|].
    rewrite (ar_out _ _ _ HA x Hx Hnin) in Hn. injection Hn as <-.
    rewrite (ar_out _ _ _ HA x Hx Hnin), Hp. cbn [mbind option_bind negb andb Z.eqb Pos.eqb].
    rewrite without_absent by done.
    destruct (activate_tail c act x) as (c' & Ht & HA'); try done; [apply HA|by intros; apply HA|].
    exists 1, c'. by split.
Qed.

Lemma deactivate_spec i : 0 ≤ i < range →
  ∃ r c', dchain_locks_impl_deactivate_index c i = Some (r, c') ∧
    active_rep c' range (without (i + 2) act).
Proof.
  intros Hi. unfold dchain_locks_impl_deactivate_index. unfold_heads. set (x := i + 2).
  pose proof (active_NoDup_head c range act HA) as Hnd. pose proof (ar_elem _ _ _ HA) as Hel.
  pose proof (ar_len _ _ _ HA) as Hlen. assert (2 ≤ x < range + 2) as Hx by (subst x; lia).
  destruct (decide (x ∈ act)) as [Hin|Hnin].
  - apply list_elem_of_split in Hin as (l1 & l2 & Hal).
    destruct (active_links c range act HA _ _ _ Hal) as (Hn & Hp & He & Hh & H1).
    rewrite Hn, Hp. cbn [mbind option_bind]. destruct (Z.eqb_spec (headof l2 0) 1); [lia|].
    assert (∀ y, y = 0 ∨ y ∈ act → 0 ≤ y < range + 2 ∧ (y = 0 ∨ 2 ≤ y)) as Hr
      by (pose proof (ar_range _ _ _ HA); intros y [->|?%Hel]; lia).
    destruct (Hr (endof 0 l1)) as [Her _]; [rewrite Hal; set_solver|].
    destruct (Hr (headof l2 0)) as [Hhr _]; [rewrite Hal; set_solver|].
    assert ((x ∉ 0 :: l1 ++ l2) ∧ NoDup (l1 ++ l2)) as [Hx2 Hnd2].
    { rewrite Hal, <- Permutation_middle in Hnd.
      apply NoDup_cons in Hnd as [H0 [Hx1 Hnd2]%NoDup_cons]. split; [set_solver|done]. }
    assert (endof 0 l1 ≠ x ∧ headof l2 0 ≠ x) as [Hne1 Hne2] by (split; intros E; rewrite E in *; set_solver).
    set_step. set_step. set_step. get_step. set_step. exists 1. eexists. split; [done|].
    rewrite Hal, without_split by (rewrite <- Hal; apply HA). constructor; [apply HA|lia| |done|..].
    + intros y Hy. apply Hel. rewrite Hal. set_solver.
    + eapply (active_unlink c range act HA); [done|..]; intros; cell_cases.
    + intros y Hy Hny. destruct (decide (y = x)) as [->|Hyx]; [cell_cases|].
      assert (endof 0 l1 ≠ y).
      { intros <-. apply elem_of_cons in He as [?|He]; [lia|set_solver]. }
      cell_cases. apply (ar_out _ _ _ HA); [done|]. rewrite Hal. set_solver.
  - destruct (active_reads c range act HA x) as (n & p & _ & Hp); [lia|].
    rewrite (ar_out _ _ _ HA x Hx Hnin), Hp. cbn [mbind option_bind]. rewrite Z.eqb_refl.
    rewrite without_absent by done. by eexists _, _.
Qed.

Lemma is_active_spec i : 0 ≤ i < range →
  dchain_locks_impl_is_index_active c i = Some (if decide (i + 2 ∈ act) then 1 else 0).
Proof.
  intros Hi. unfold dchain_locks_impl_is_index_active. unfold_heads.
  destruct (decide (i + 2 ∈ act)) as [(l1 & l2 & Hal)%list_elem_of_split|Hnin].
  - destruct (active_links c range act HA _ _ _ Hal) as (-> & _ & _ & _ & H1). cbn [mbind option_bind].
    by destruct (Z.eqb_spec (headof l2 0) 1).
  - by rewrite (ar_out _ _ _ HA) by (done || lia).
Qed.

Lemma oldest_active_spec index :
  dchain_locks_impl_get_oldest_index c index =
    Some (match act with [] => (0, index) | x :: _ => (1, x - 2) end).
Proof.
  unfold dchain_locks_impl_get_oldest_index. unfold_heads. pose proof (ar_elem _ _ _ HA) as Hel.
  pose proof (ar_list _ _ _ HA) as Hd.
  destruct (dseg_first _ _ _ _ Hd) as [-> _]. destruct (dseg_last _ _ _ _ Hd) as [_ ->].
  cbn [mbind option_bind]. destruct act as [|x l]; [done|]. simpl headof.
  destruct (Z.eqb_spec x 0) as [->|]; [|by rewrite andb_false_r].
  destruct (Hel 0); [by left|lia].
Qed.

End activity.

Lemma activity_init_spec c range :
  0 < range → zlen c = range + 2 →
  ∃ c', dchain_locks_impl_activity_init c range = Some c' ∧ active_rep c' range [].
Proof.
  intros Hr Hl. unfold dchain_locks_impl_activity_init. unfold_heads. set_step. set_step.
  edestruct (iterate_rule
     (λ '(i, c), zlen c = range + 2 ∧ 2 ≤ i ≤ range + 2 ∧ nxt c 0 = Some 0 ∧ prv c 0 = Some 0 ∧
        ∀ j, 2 ≤ j < i → nxt c j = Some 1)
     (λ p : Z * list dchain_cell, active_rep p.2 range [])
     (λ '(i, _), Z.to_nat (range + 2 - i))) as ([i c'] & -> & HA).
  - intros [i c'] (L' & Hi & H1 & H2 & Hj). destruct (Z.ltb_spec i (range + 2)).
    + set_step. get_step. set_step. eexists. split; [done|]. cbn beta iota. split; [|lia].
      split_and!; try lia; try cell_cases. intros j ?. destruct (Z.eq_dec i j) as [->|]; cell_cases.
      apply Hj. lia.
    + eexists. split; [done|]. constructor; try done; [by intros y Hy%elem_of_nil|constructor|].
      intros y Hy _. apply Hj. lia.
  - split_and!; try lia; cell_cases.
  - cbn beta iota. lia.
  - by exists c'.
Qed.

(** ** Moving an index behind another one *)

Lemma dseg_insert c c' m1 y x m2 :
  NoDup (0 :: m1 ++ y :: m2) → x ∉ 0 :: m1 ++ y :: m2 → dseg c 0 (m1 ++ y :: m2) 0 →
  (∀ j, nxt c' j = if y =? j then Some x else if x =? j then Some (headof m2 0) else nxt c j) →
  (∀ j, prv c' j = if headof m2 0 =? j then Some x else if x =? j then Some y else prv c j) →
  dseg c' 0 (m1 ++ y :: x :: m2) 0.
Proof.
  intros Hnd Hx Hd HN HP. apply dseg_app in Hd as [Hd1 Hd2].
  rewrite app_comm_cons in Hnd. apply NoDup_app in Hnd as (Hn1 & Hdis & [Hy Hn2]%NoDup_cons).
  assert (y ≠ x ∧ headof m2 0 ≠ x) as [Hyx Hhx].
  { split; intros E; apply Hx; rewrite <- E; [set_solver|]. pose proof (headof_in m2 0). set_solver. }
  assert (∀ j, j ∈ m2 → j ≠ y ∧ j ≠ x ∧ (j ∉ 0 :: m1)) as Hm2.
  { intros j Hj. split_and!; [by intros ->|set_solver|]. intros Hj'. apply (Hdis j Hj'). by right. }
  assert (headof m2 0 ≠ y) as Hhy.
  { pose proof (headof_in m2 0) as [Hh|Hh%list_elem_of_singleton]%elem_of_app.
    - by apply Hm2.
    - rewrite Hh. intros <-. apply (Hdis 0); set_solver. }
  apply dseg_app. split.
  - eapply dseg_frame; [| |exact Hd1].
    + intros j Hj. rewrite HN. destruct (Z.eqb_spec y j) as [->|]; [exfalso; apply (Hdis j Hj); by left|].
      destruct (Z.eqb_spec x j); [subst; set_solver|done].
    + intros j Hj. rewrite HP. destruct (Z.eqb_spec x j); [subst; set_solver|].
      destruct (Z.eqb_spec (headof m2 0) j) as [E|]; [|done]. exfalso.
      pose proof (headof_in m2 0) as [Hh|Hh%list_elem_of_singleton]%elem_of_app.
      * destruct (Hm2 _ Hh) as (? & _ & Hn). rewrite E in *. set_solver.
      * rewrite Hh in E. subst j. apply elem_of_app in Hj as [Hj|Hj%list_elem_of_singleton].
        -- apply NoDup_cons in Hn1 as [? _]. done.
        -- apply (Hdis 0); set_solver.
  - simpl. split_and!.
    + rewrite HN. by rewrite Z.eqb_refl.
    + rewrite HP. destruct (Z.eqb_spec (headof m2 0) x); [done|]. by rewrite Z.eqb_refl.
    + destruct m2 as [|z m2]; simpl in *.
      * split; [rewrite HN|rewrite HP; done]. destruct (Z.eqb_spec y x); [done|]. by rewrite Z.eqb_refl.
      * destruct Hd2 as (_ & _ & Hd2). split_and!.
        -- rewrite HN. destruct (Z.eqb_spec y x); [done|]. by rewrite Z.eqb_refl.
        -- rewrite HP. by rewrite Z.eqb_refl.
        -- apply NoDup_cons in Hn2 as [Hz _]. eapply dseg_frame; [| |exact Hd2].
           ++ intros j Hj. destruct (Hm2 j Hj) as (? & ? & _). rewrite HN.
              destruct (Z.eqb_spec y j); [congruence|]. destruct (Z.eqb_spec x j); [congruence|done].
           ++ intros j Hj. rewrite HP. destruct (Z.eqb_spec z j) as [->|].
              { exfalso. apply elem_of_app in Hj as [Hj|Hj%list_elem_of_singleton]; [done|].
                destruct (Hm2 j) as (_ & _ & H0); [by left|]. apply H0. rewrite Hj. by left. }
              destruct (Z.eqb_spec x j); [|done]. subst. set_solver.
Qed.

Section reposition.
Context (c : list dchain_cell) (range : Z) (al fl : list Z).
Hypothesis HR : dchain_rep c range al fl.

Lemma reposition_spec i j l1 l2 m1 m2 :
  al = l1 ++ (i + 2) :: l2 → l1 ++ l2 = m1 ++ (j + 2) :: m2 →
  ∃ c', dchain_locks_impl_reposition_index c i j = Some (1, c') ∧
    dchain_rep c' range (m1 ++ (j + 2) :: (i + 2) :: m2) fl.
Proof.
  intros Hal Hm. destruct (alloc_neighbours _ _ _ _ HR _ _ _ Hal) as (Hn & Hp & Heq & _).
  destruct (alloc_split _ _ _ _ HR _ _ _ Hal) as (Hx & Hnd & Hel & Hfe).
  destruct (alloc_links _ _ _ _ HR _ _ _ Hal) as (Ht & Hn' & Htr & Hnr).
  pose proof (dr_len _ _ _ _ HR) as Hl. pose proof (dr_range _ _ _ _ HR) as Hr.
  unfold dchain_locks_impl_reposition_index. unfold_heads.
  set (x := i + 2) in *. set (y := j + 2) in *. rewrite Hp, Hn. cbn [mbind option_bind].
  assert ((headof l2 0 =? endof 0 l1) && negb (headof l2 0 =? 0) = false) as ->.
  { destruct (Z.eqb_spec (headof l2 0) (endof 0 l1)) as [E|]; [|done].
    by destruct (Heq (eq_sym E)) as [-> ->]. }
  set_step. set_step.
  assert (dseg c1 0 (l1 ++ l2) 0) as Hd by (eapply (unlink_spec _ _ _ _ HR); eauto; intros; cell_cases).
  rewrite Hm in Hd, Hnd, Hel. pose proof Hd as Hd'. apply dseg_app in Hd' as [_ Hd2].
  destruct (dseg_first _ _ _ _ Hd2) as [Hny _]. rewrite Hny. cbn [mbind option_bind].
  set (h := headof m2 0) in *.
  assert (∀ z, z = 0 ∨ z ∈ m1 ++ y :: m2 → 0 ≤ z < range + 2 ∧ z ≠ x ∧ z ≠ 1) as Hz
    by (intros z [->|(? & ? & ?)%Hel]; lia).
  destruct (Hz y) as (Hy & Hyx & Hy1); [set_solver|].
  destruct (Hz h) as (Hh & Hhx & Hh1); [pose proof (headof_in m2 0); set_solver|].
  assert (∀ z, z ∈ fl → 2 ≤ z ∧ z ≠ x ∧ z ≠ y ∧ z ≠ h ∧ z ≠ endof 0 l1 ∧ z ≠ headof l2 0) as Hfl.
  { intros z (? & ? & Hza)%Hfe. rewrite Hm in Ht, Hn'.
    split_and!; [done..| | | |]; intros ->; apply Hza || apply Hza.
    - apply Hel. set_solver.
    - pose proof (headof_in m2 0) as [?|?%list_elem_of_singleton]%elem_of_app; [|lia].
      apply Hel. set_solver.
    - destruct Ht as [?|?]; [lia|]. by apply Hel.
    - destruct Hn' as [?|?]; [lia|]. by apply Hel. }
  set_step. set_step. set_step. set_step. eexists. split; [done|]. constructor.
  - done.
  - unfold_heads. lia.
  - rewrite <- (dr_perm _ _ _ _ HR), Hal. apply Permutation_app_tail.
    rewrite <- (Permutation_middle l1 l2 x), Hm.
    change (m1 ++ y :: x :: m2) with (m1 ++ [y] ++ x :: m2).
    by rewrite app_assoc, <- Permutation_middle, <- app_assoc.
  - unfold_heads. eapply (dseg_insert c1); [done| |done|..].
    + intros [?|(? & ? & ?)%Hel]%elem_of_cons; lia.
    + intros z. cell_reads. done.
    + intros z. cell_reads. done.
  - unfold_heads. eapply sseg_frame; [|exact (dr_free _ _ _ _ HR)].
    intros z [->|(? & ? & ? & ? & ? & ?)%Hfl]%elem_of_cons; unfold_heads; cell_cases.
  - unfold_heads. intros z Hzf.
    assert (z ≠ x ∧ z ≠ y ∧ z ≠ h ∧ z ≠ endof 0 l1 ∧ z ≠ headof l2 0 ∧ z ≠ 0) as (? & ? & ? & ? & ? & ?).
    { apply elem_of_cons in Hzf as [E|(? & ? & ? & ? & ? & ?)%Hfl]; clear Heq Hfe Hel Hz; split_and!; lia. }
    cell_cases. by apply (dr_mark _ _ _ _ HR).
Qed.

End reposition.

(** ** The search for the new predecessor *)

Section walk.
Context (k : core_chain) (range : Z) (al fl : list Z).
Hypothesis HR : dchain_rep (cells k) range al fl.
Hypothesis Hts : zlen (timestamps k) = range.
Context (i : Z) (l1 l2 : list Z).
Hypothesis Hal : al = l1 ++ (i + 2) :: l2.

(** The loop ends at the end of the list or at an index behind [i]. *)
Lemma walk_spec time rest : ∀ prev t fuel,
  dseg (cells k) (prev + 2) rest 0 → (∀ x, x ∈ rest → x ∈ l2) → (prev = i ∨ prev + 2 ∈ l2) →
  (length rest < fuel)%nat →
  ∃ r, iterate fuel (λ '(prev, prev_time),
      '(more, next) ← dchain_locks_impl_next (cells k) prev 0;
      if more =? 0 then Some (Return (-1)) else
      next_time ← rd (timestamps k) next;
      if (prev_time <=? time) && (time <=? next_time) && negb (i =? prev)
      then Some (Return prev) else Some (Continue (next, next_time))) (prev, t) = Some r ∧
    (r = -1 ∨ r + 2 ∈ l2).
Proof.
  induction rest as [|x rest IH]; intros prev t fuel Hd Hin Hp Hf;
    (destruct fuel as [|fuel]; [simpl in Hf; lia|]); cbn [iterate].
  - destruct Hd as [Hn _]. unfold dchain_locks_impl_next. unfold_heads. rewrite Hn.
    cbn [mbind option_bind Z.eqb]. eauto.
  - destruct Hd as (Hn & _ & Hd). unfold dchain_locks_impl_next. unfold_heads. rewrite Hn.
    cbn [mbind option_bind].
    assert (x ∈ l2) as Hx by (apply Hin; by left).
    assert (2 ≤ x < range + 2) as Hxr.
    { apply (rep_alloc_elem _ _ _ _ HR). rewrite Hal. set_solver. }
    destruct (Z.eqb_spec x 0); [lia|]. cbn [mbind option_bind Z.eqb].
    destruct (rd_Some (timestamps k) (x - 2)) as [nt ->]; [lia|]. cbn [mbind option_bind].
    destruct ((t <=? time) && (time <=? nt)) eqn:E; cbn [andb].
    + destruct (Z.eqb_spec i prev) as [->|]; cbn [negb mbind option_bind].
      * apply IH; [by replace (x - 2 + 2) with x by lia|set_solver
          |right; by replace (x - 2 + 2) with x by lia|simpl in Hf; lia].
      * exists prev. split; [done|]. right. destruct Hp; [congruence|done].
    + cbn [mbind option_bind]. apply IH; [by replace (x - 2 + 2) with x by lia|set_solver
          |right; by replace (x - 2 + 2) with x by lia|simpl in Hf; lia].
Qed.

Lemma find_new_prev_spec time :
  ∃ r, find_new_prev (S (length (cells k))) k i time = Some r ∧ (r = -1 ∨ r + 2 ∈ l2).
Proof.
  unfold find_new_prev. pose proof (dr_len _ _ _ _ HR) as Hl.
  assert (i + 2 ∈ al) as Hi%(rep_alloc_elem _ _ _ _ HR) by (rewrite Hal; set_solver).
  destruct (rd_Some (timestamps k) i) as [t ->]; [lia|]. cbn [mbind option_bind].
  apply (walk_spec time l2); [|done|by left|].
  - pose proof (dr_alloc _ _ _ _ HR) as Hd. rewrite Hal in Hd. by apply dseg_app in Hd as [_ Hd].
  - pose proof (rep_length _ _ _ _ HR) as Hlen. rewrite Hal, length_app in Hlen.
    unfold zlen in Hl. unfold_heads. simpl in Hlen. lia.
Qed.

End walk.

(** ** The invariant *)

(** The data of one core: [al] are the allocated indexes in the order of the core
    and [act] those it has used. *)
Record core_ok (k : core_chain) (range : Z) (fl al act : list Z) : Prop := CoreOk {
  ck_cells : dchain_rep (cells k) range (shift <$> al) (shift <$> fl);
  ck_active : active_rep (active_cells k) range (shift <$> act);
  ck_used : ∀ i, i ∈ act → i ∈ al;
  ck_len : zlen (timestamps k) = range;
  ck_times : ∀ i t, rd (timestamps k) i = Some t → (i ∈ al ∧ 0 ≤ t) ∨ (i ∈ fl ∧ t = -1)
}.

(** All cores agree on the free indexes and their order, hence on which indexes
    are allocated. *)
Definition chain_inv (lcores : list nat) (chain : DoubleChainLocks) (range : Z) (fl : list Z) : Prop :=
  ∀ c, c ∈ lcores → ∃ k al act, chain !! c = Some k ∧ core_ok k range fl al act.

Lemma core_split al i : i ∈ al → ∃ l1 l2, al = l1 ++ i :: l2 ∧
  shift <$> al = (shift <$> l1) ++ (i + 2) :: (shift <$> l2).
Proof.
  intros (l1 & l2 & ->)%list_elem_of_split. exists l1, l2. split; [done|]. by rewrite fmap_app.
Qed.

Section core.
Context (k : core_chain) (range : Z) (fl al act : list Z).
Hypothesis HK : core_ok k range fl al act.

Lemma core_elem i : i ∈ al ++ fl ↔ 0 ≤ i < range.
Proof.
  pose proof (rep_elem _ _ _ _ (ck_cells _ _ _ _ _ HK) (shift i)) as He.
  rewrite <- fmap_app in He. unfold shift in *. unfold_heads.
  transitivity (2 ≤ i + 2 < range + 2); [|lia]. rewrite <- He, list_elem_of_fmap.
  split; [by exists i|]. intros (j & ? & ?). by assert (j = i) as -> by lia.
Qed.

Lemma core_NoDup : NoDup (al ++ fl).
Proof.
  pose proof (rep_NoDup _ _ _ _ (ck_cells _ _ _ _ _ HK)) as Hn.
  rewrite <- fmap_app in Hn. by apply NoDup_fmap_1 in Hn.
Qed.

Lemma core_disjoint i : i ∈ al → i ∈ fl → False.
Proof. pose proof core_NoDup as Hn. apply NoDup_app in Hn. naive_solver. Qed.

End core.

Lemma shift_without i l : without (i + 2) (shift <$> l) = shift <$> without i l.
Proof.
  unfold without. rewrite filter_fmap. f_equal. apply list_filter_iff.
  intros j. unfold shift. unfold_heads. lia.
Qed.

(** ** Operations on the data of one core *)

Section core_ops.
Context (k : core_chain) (range : Z) (fl al act : list Z).
Hypothesis HK : core_ok k range fl al act.

Lemma core_active_range i : i ∈ al → 0 ≤ i < range.
Proof. intros. apply (core_elem _ _ _ _ _ HK). set_solver. Qed.

Lemma core_time i : 0 ≤ i < range → ∃ t, rd (timestamps k) i = Some t.
Proof. intros Hi. apply rd_Some. by rewrite (ck_len _ _ _ _ _ HK). Qed.

Lemma core_active_NoDup : NoDup act.
Proof. pose proof (ar_NoDup _ _ _ (ck_active _ _ _ _ _ HK)) as Hn. by apply NoDup_fmap_1 in Hn. Qed.

(** Marking index [i] as used. *)
Lemma core_activate i : 0 ≤ i < range →
  ∃ r ac, dchain_locks_impl_activate_index (active_cells k) i = Some (r, ac) ∧
    active_rep ac range (shift <$> without i act ++ [i]).
Proof.
  intros Hi. destruct (activate_spec _ _ _ (ck_active _ _ _ _ _ HK) i Hi) as (r & ac & -> & HA).
  exists r, ac. split; [done|]. rewrite shift_without in HA. by rewrite fmap_app.
Qed.

(** Rejuvenation at time [t]. *)
Lemma core_rejuvenate i t : i ∈ al → 0 ≤ t →
  ∃ cs ts r ac, dchain_locks_impl_rejuvenate_index (cells k) i = Some (1, cs) ∧
    wr (timestamps k) i t = Some ts ∧
    dchain_locks_impl_activate_index (active_cells k) i = Some (r, ac) ∧
    core_ok (CoreChain cs ac ts) range fl (without i al ++ [i]) (without i act ++ [i]) ∧
    (∀ j, rd ts j = if i =? j then Some t else rd (timestamps k) j).
Proof.
  intros Hi Ht. pose proof (core_active_range i Hi) as Hr.
  destruct (core_split al i Hi) as (l1 & l2 & Hal & Hsh).
  pose proof (core_NoDup _ _ _ _ _ HK) as Hn. apply NoDup_app in Hn as (Hn & Hdis & _).
  destruct (rejuvenate_allocated _ _ _ _ (ck_cells _ _ _ _ _ HK) i _ _ Hsh) as (cs & Hcs & HR).
  destruct (core_activate i Hr) as (r & ac & Hac & HA).
  assert (0 ≤ i < zlen (timestamps k)) as Hit by (by rewrite (ck_len _ _ _ _ _ HK)).
  exists cs, (<[Z.to_nat i := t]> (timestamps k)), r, ac. split_and!; [done|by apply wr_Some|done| |].
  - assert (without i al ++ [i] = l1 ++ l2 ++ [i]) as Hw.
    { rewrite Hal in Hn |- *. by rewrite without_split, <- app_assoc. }
    constructor; simpl.
    + rewrite Hw, !fmap_app. exact HR.
    + exact HA.
    + intros j [(_ & Hj)%elem_of_without| ->%list_elem_of_singleton]%elem_of_app;
        [|apply elem_of_app; right; by left].
      pose proof (ck_used _ _ _ _ _ HK j Hj). destruct (decide (j = i)) as [->|].
      * apply elem_of_app. right. by left.
      * apply elem_of_app. left. by apply elem_of_without.
    + by rewrite zlen_insert, (ck_len _ _ _ _ _ HK).
    + intros j u. rewrite rd_insert by done. destruct (Z.eqb_spec i j) as [<-|Hne].
      * intros [= <-]. left. split; [apply elem_of_app; right; by left|done].
      * intros [[Hj ?]|?]%(ck_times _ _ _ _ _ HK); [left|by right].
        split; [|done]. apply elem_of_app. left. by apply elem_of_without.
  - intros j. by rewrite rd_insert.
Qed.

(** Allocation of the first free index [i] at time [t]. *)
Lemma core_allocate i fl' idx t : fl = i :: fl' → 0 ≤ t →
  ∃ cs ts, dchain_locks_impl_allocate_new_index (cells k) idx = Some (1, cs, i) ∧
    wr (timestamps k) i t = Some ts ∧
    core_ok (CoreChain cs (active_cells k) ts) range fl' (al ++ [i]) act ∧
    (∀ j, rd ts j = if i =? j then Some t else rd (timestamps k) j).
Proof.
  intros Hfl Ht. assert (0 ≤ i < range) as Hr.
  { apply (core_elem _ _ _ _ _ HK). rewrite Hfl. set_solver. }
  destruct (allocate_some _ _ _ _ (ck_cells _ _ _ _ _ HK) idx (shift i) (shift <$> fl'))
    as (cs & Hcs & HR); [by rewrite Hfl|].
  assert (0 ≤ i < zlen (timestamps k)) as Hit by (by rewrite (ck_len _ _ _ _ _ HK)).
  exists cs, (<[Z.to_nat i := t]> (timestamps k)). split_and!; [|by apply wr_Some| |].
  - unfold dchain_locks_impl_allocate_new_index. rewrite Hcs. do 3 f_equal. unfold shift. unfold_heads. lia.
  - constructor; simpl.
    + by rewrite fmap_app.
    + apply HK.
    + intros j Hj%(ck_used _ _ _ _ _ HK). set_solver.
    + by rewrite zlen_insert, (ck_len _ _ _ _ _ HK).
    + intros j u. rewrite rd_insert by done. destruct (Z.eqb_spec i j) as [<-|Hne].
      * intros [= <-]. left. split; [set_solver|done].
      * intros [[Hj ?]|[Hj ?]]%(ck_times _ _ _ _ _ HK); [left|right]; (split; [|done]); [set_solver|].
        rewrite Hfl in Hj. set_solver.
  - intros j. by rewrite rd_insert.
Qed.

(** Freeing the allocated index [i]. *)
Lemma core_free i : i ∈ al →
  ∃ cs r ac ts, dchain_locks_impl_free_index (cells k) i = Some (1, cs) ∧
    dchain_locks_impl_deactivate_index (active_cells k) i = Some (r, ac) ∧
    wr (timestamps k) i (-1) = Some ts ∧
    core_ok (CoreChain cs ac ts) range (i :: fl) (without i al) (without i act) ∧
    (∀ j, rd ts j = if i =? j then Some (-1) else rd (timestamps k) j).
Proof.
  intros Hi. pose proof (core_active_range i Hi) as Hr.
  destruct (core_split al i Hi) as (l1 & l2 & Hal & Hsh).
  pose proof (core_NoDup _ _ _ _ _ HK) as Hn. apply NoDup_app in Hn as (Hn & Hdis & _).
  destruct (free_allocated _ _ _ _ (ck_cells _ _ _ _ _ HK) i _ _ Hsh) as (cs & Hcs & HR).
  destruct (deactivate_spec _ _ _ (ck_active _ _ _ _ _ HK) i Hr) as (r & ac & Hac & HA).
  assert (0 ≤ i < zlen (timestamps k)) as Hit by (by rewrite (ck_len _ _ _ _ _ HK)).
  exists cs, r, ac, (<[Z.to_nat i := -1]> (timestamps k)). split_and!; [done|done|by apply wr_Some| |].
  - constructor; simpl.
    + rewrite Hal in Hn |- *. rewrite without_split by done. rewrite fmap_app. exact HR.
    + by rewrite <- shift_without.
    + intros j (Hj & Hja)%elem_of_without. apply elem_of_without. split; [done|].
      by apply (ck_used _ _ _ _ _ HK).
    + by rewrite zlen_insert, (ck_len _ _ _ _ _ HK).
    + intros j u. rewrite rd_insert by done. destruct (Z.eqb_spec i j) as [<-|Hne].
      * intros [= <-]. right. split; [by left|done].
      * intros [[Hj ?]|[Hj ?]]%(ck_times _ _ _ _ _ HK); [left|right]; (split; [|done]).
        -- by apply elem_of_without.
        -- by right.
  - intros j. by rewrite rd_insert.
Qed.

(** Moving the allocated index [i] in the list. *)
Lemma core_move i time : i ∈ al →
  ∃ r cs al', find_new_prev (S (length (cells k))) k i time = Some r ∧
    (if r =? -1 then dchain_locks_impl_rejuvenate_index (cells k) i
     else dchain_locks_impl_reposition_index (cells k) i r) = Some (1, cs) ∧
    dchain_rep cs range (shift <$> al') (shift <$> fl) ∧ al' ≡ₚ al.
Proof.
  intros Hi. destruct (core_split al i Hi) as (l1 & l2 & Hal & Hsh).
  pose proof (ck_cells _ _ _ _ _ HK) as HR.
  destruct (find_new_prev_spec k range _ _ HR (ck_len _ _ _ _ _ HK) i _ _ Hsh time) as (r & Hf & Hr).
  exists r. destruct (Z.eqb_spec r (-1)) as [->|Hne].
  - destruct (rejuvenate_allocated _ _ _ _ HR i _ _ Hsh) as (cs & Hcs & HR').
    exists cs, (l1 ++ l2 ++ [i]). split_and!; [done|done|by rewrite !fmap_app|].
    rewrite Hal, (Permutation_app_comm l2). by simpl.
  - destruct Hr as [?|Hr]; [done|]. apply list_elem_of_fmap in Hr as (j & Ej & Hj).
    assert (j = r) as -> by (unfold shift in Ej; unfold_heads; lia).
    apply list_elem_of_split in Hj as (m1 & m2 & Hm).
    destruct (reposition_spec _ _ _ _ HR i r _ _ (shift <$> l1 ++ m1) (shift <$> m2) Hsh)
      as (cs & Hcs & HR').
    { rewrite Hm, !fmap_app. by rewrite <- app_assoc. }
    exists cs, ((l1 ++ m1) ++ r :: i :: m2). split_and!; [done|done|by rewrite fmap_app|].
    rewrite Hal, Hm, <- app_assoc. apply Permutation_app_head.
    change (m1 ++ r :: i :: m2) with (m1 ++ [r] ++ i :: m2).
    by rewrite app_assoc, <- Permutation_middle, <- app_assoc.
Qed.

End core_ops.

(** ** Loops over the cores *)

Section cores.
Variable lcores : list nat.
Hypothesis lcores_NoDup : NoDup lcores.

Lemma foreach_rule {A} (f : nat → A → option A) (P : list nat → A → Prop) a :
  P [] a →
  (∀ seen c rest a, lcores = seen ++ c :: rest → P seen a → ∃ a', f c a = Some a' ∧ P (seen ++ [c]) a') →
  ∃ a', foreach_lcore lcores f a = Some a' ∧ P lcores a'.
Proof.
  intros H0 Hs. unfold foreach_lcore.
  assert (∀ rest seen a, lcores = seen ++ rest → P seen a →
    ∃ a', foldl (λ o c, a ← o; f c a) (Some a) rest = Some a' ∧ P lcores a') as Hgen.
  { intros rest. induction rest as [|c rest IH]; intros seen b Hl HP.
    - rewrite app_nil_r in Hl. subst seen. eauto.
    - destruct (Hs seen c rest b Hl HP) as (b' & Hb & HP'). simpl. rewrite Hb.
      apply (IH (seen ++ [c])); [by rewrite <- app_assoc|done]. }
  by apply (Hgen lcores []).
Qed.

(** A loop that changes the data of the core at hand only, and whose other results
    are the same for all cores. *)
Lemma foreach_cores {X} (f : nat → X * DoubleChainLocks → option (X * DoubleChainLocks))
    (R : core_chain → core_chain → Prop) (x0 x1 : X) (chain : DoubleChainLocks) :
  lcores ≠ [] →
  (∀ c k x chain', c ∈ lcores → chain !! c = Some k → x = x0 ∨ x = x1 → chain' !! c = Some k →
     ∃ k', f c (x, chain') = Some (x1, <[c := k']> chain') ∧ R k k') →
  (∀ c, c ∈ lcores → is_Some (chain !! c)) →
  ∃ chain', foreach_lcore lcores f (x0, chain) = Some (x1, chain') ∧ length chain' = length chain ∧
    (∀ c k, c ∈ lcores → chain !! c = Some k → ∃ k', chain' !! c = Some k' ∧ R k k') ∧
    (∀ c, c ∉ lcores → chain' !! c = chain !! c).
Proof.
  intros Hne Hf Hk.
  destruct (foreach_rule f (λ seen '(x, chain'),
    x = (match seen with [] => x0 | _ => x1 end) ∧ length chain' = length chain ∧
    (∀ c k, c ∈ seen → chain !! c = Some k → ∃ k', chain' !! c = Some k' ∧ R k k') ∧
    (∀ c, c ∉ seen → chain' !! c = chain !! c)) (x0, chain)) as ([x chain'] & Hr & Hx & Hl & Hin & Hout).
  - split_and!; try done. intros c k Hc. by apply elem_of_nil in Hc.
  - intros seen c rest [x chain'] Hl (Hx & Hlen & Hin & Hout).
    assert (c ∉ seen) as Hc.
    { pose proof lcores_NoDup as Hn. rewrite Hl in Hn. apply NoDup_app in Hn as (_ & Hd & _).
      intros Hc. apply (Hd c Hc). by left. }
    assert (c ∈ lcores) as Hcl by (rewrite Hl; set_solver). destruct (Hk c Hcl) as [k Hck].
    destruct (Hf c k x chain' Hcl Hck) as (k' & Hs & HR); [by destruct seen; auto|by rewrite Hout|].
    eexists. split; [exact Hs|]. cbn beta iota. split_and!.
    + by destruct seen.
    + by rewrite length_insert.
    + intros d kd [Hd| ->%list_elem_of_singleton]%elem_of_app Hkd.
      * rewrite list_lookup_insert_ne by (intros ->; done). by apply Hin.
      * rewrite Hck in Hkd. injection Hkd as <-. exists k'. split; [|done].
        apply list_lookup_insert_eq. rewrite Hlen. by eapply lookup_lt_Some.
    + intros d Hd. rewrite list_lookup_insert_ne by set_solver. apply Hout. set_solver.
  - exists chain'. split_and!; try done. rewrite Hr. do 2 f_equal. rewrite Hx.
    by destruct lcores.
Qed.

End cores.

(** ** The abstract allocator

    The free indexes in the order in which they are given out, and for every
    allocated index the time of its last use by any core. *)
Record pool := Pool { p_frees : list Z; p_uses : gmap Z Z }.

Record chain_rel (lcores : list nat) (chain : DoubleChainLocks) (range now : Z) (p : pool) : Prop :=
  ChainRel {
  cr_cores : ∀ c, c ∈ lcores → ∃ k al act, chain !! c = Some k ∧ core_ok k range (p_frees p) al act;
  cr_dom : ∀ i, is_Some (p_uses p !! i) ↔ 0 ≤ i < range ∧ i ∉ p_frees p;
  cr_le : ∀ i u c k t, p_uses p !! i = Some u → c ∈ lcores → chain !! c = Some k →
    rd (timestamps k) i = Some t → t ≤ u;
  cr_ex : ∀ i u, p_uses p !! i = Some u → ∃ c k, c ∈ lcores ∧ chain !! c = Some k ∧
    rd (timestamps k) i = Some u;
  cr_now : ∀ i u, p_uses p !! i = Some u → 0 ≤ u ≤ now
}.

(** ** Operations of the cores *)

Inductive lop :=
  | LAllocate (index_out time : Z)
  | LRejuvenate (index time : Z)
  | LExpire (index_out time : Z)
  | LIsAllocated (index : Z).

(** The result, the flag [write_attempt], the index, and the chain. *)
Definition lop_exec (lcores : list nat) (c : nat) (write_state : bool) (op : lop)
    (chain : DoubleChainLocks) : option ((Z * bool * Z) * DoubleChainLocks) :=
  match op with
  | LAllocate idx t =>
      '(r, wa, chain, i) ← dchain_locks_allocate_new_index lcores c write_state false chain idx t;
      Some ((r, wa, i), chain)
  | LRejuvenate i t =>
      '(r, chain) ← dchain_locks_rejuvenate_index c chain i t; Some ((r, false, i), chain)
  | LExpire idx t =>
      '(r, wa, chain, i) ← dchain_locks_expire_one_index lcores c write_state false chain idx t;
      Some ((r, wa, i), chain)
  | LIsAllocated i => r ← dchain_locks_is_index_allocated c chain i; Some ((r, false, i), chain)
  end.

(** The contract, for any core.  In read mode nothing is given out or taken back.
    Expiration frees an index only when no core has used it since [time]; it may
    also find nothing, or stop at an index that is still in use, and then answers
    as if it had freed it. *)
Inductive pool_step : bool → lop → pool → Z * bool * Z → pool → Prop :=
  | ps_allocate_read idx t p : pool_step false (LAllocate idx t) p (1, true, idx) p
  | ps_allocate_full idx t p : p_frees p = [] → pool_step true (LAllocate idx t) p (0, false, idx) p
  | ps_allocate idx t p i fl : p_frees p = i :: fl →
      pool_step true (LAllocate idx t) p (1, false, i) (Pool fl (<[i := t]> (p_uses p)))
  | ps_rejuvenate ws i t p : is_Some (p_uses p !! i) →
      pool_step ws (LRejuvenate i t) p (1, false, i) (Pool (p_frees p) (<[i := t]> (p_uses p)))
  | ps_rejuvenate_free ws i t p : p_uses p !! i = None →
      pool_step ws (LRejuvenate i t) p (0, false, i) p
  | ps_expire_none ws idx t p j : pool_step ws (LExpire idx t) p (0, false, j) p
  | ps_expire_read idx t p i : is_Some (p_uses p !! i) → pool_step false (LExpire idx t) p (1, true, i) p
  | ps_expire_free idx t p i u : p_uses p !! i = Some u → u < t →
      pool_step true (LExpire idx t) p (1, false, i) (Pool (i :: p_frees p) (delete i (p_uses p)))
  | ps_expire_kept idx t p i u : p_uses p !! i = Some u → t ≤ u →
      pool_step true (LExpire idx t) p (1, false, i) p
  | ps_is_allocated ws i p :
      pool_step ws (LIsAllocated i) p (if decide (is_Some (p_uses p !! i)) then 1 else 0, false, i) p.

(** The time after an operation: expiration looks back, it does not use an index. *)
Definition lop_now (now : Z) (op : lop) : Z :=
  match op with LAllocate _ t | LRejuvenate _ t => t | _ => now end.

Definition lop_ok (range now : Z) (op : lop) : Prop :=
  now ≤ lop_now now op ∧
  match op with LRejuvenate i _ | LIsAllocated i => 0 ≤ i < range | _ => True end.

Section operations.
Variable lcores : list nat.
Hypothesis lcores_NoDup : NoDup lcores.
Variable lcore_id : nat.
Hypothesis lcore_in : lcore_id ∈ lcores.
Context (chain : DoubleChainLocks) (range now : Z) (p : pool).
Hypothesis HC : chain_rel lcores chain range now p.

Lemma lcores_not_nil : lcores ≠ [].
Proof. intros E. pose proof lcore_in as H. rewrite E in H. by apply elem_of_nil in H. Qed.

Lemma core_here : ∃ k al act, chain !! lcore_id = Some k ∧ core_ok k range (p_frees p) al act.
Proof. by apply HC. Qed.

(** An index is allocated for one core as for all. *)
Lemma allocated_here c k al act i : c ∈ lcores → chain !! c = Some k →
  core_ok k range (p_frees p) al act → i ∈ al ↔ is_Some (p_uses p !! i).
Proof.
  intros Hc Hk HK. rewrite (cr_dom _ _ _ _ _ HC). split.
  - intros Hi. split; [by eapply core_active_range|]. intros Hf. by eapply core_disjoint.
  - intros [Hr Hf]. apply (core_elem _ _ _ _ _ HK) in Hr. set_solver.
Qed.

(** Two chains whose cores have the same data are the same. *)
Lemma same_chain chain' : length chain' = length chain →
  (∀ c k, c ∈ lcores → chain !! c = Some k → ∃ k', chain' !! c = Some k' ∧ k = k') →
  (∀ c, c ∉ lcores → chain' !! c = chain !! c) → chain' = chain.
Proof.
  intros Hl Hin Hout. apply list_eq. intros c. destruct (decide (c ∈ lcores)) as [Hc|]; [|by apply Hout].
  destruct (cr_cores _ _ _ _ _ HC c Hc) as (k & _ & _ & Hk & _).
  destruct (Hin c k Hc Hk) as (k' & Hk' & <-). by rewrite Hk, Hk'.
Qed.

Lemma allocate_full_spec idx time : p_frees p = [] →
  dchain_locks_allocate_new_index lcores lcore_id true false chain idx time =
    Some (0, false, chain, idx).
Proof.
  intros Hf. unfold dchain_locks_allocate_new_index. cbn [negb].
  edestruct (foreach_cores lcores lcores_NoDup (X := Z * Z)) with (R := @eq core_chain) (x0 := (-1, idx))
    (x1 := (0, idx)) (chain := chain) as (chain' & Hr & Hl & Hin & Hout); [apply lcores_not_nil| | |].
  3: { rewrite Hr. cbn [mbind option_bind Z.eqb negb]. by rewrite (same_chain chain'). }
  - intros c k x chain' Hc Hk Hx Hk'. destruct (cr_cores _ _ _ _ _ HC c Hc) as (k0 & al & act & Hk0 & HK).
    rewrite Hk in Hk0. injection Hk0 as <-. exists k. split; [|done].
    assert (∃ r, x = (r, idx)) as [r ->] by (destruct Hx; subst; eauto).
    rewrite Hk'. cbn [mbind option_bind].
    unfold dchain_locks_impl_allocate_new_index.
    rewrite (allocate_full _ _ _ _ (ck_cells _ _ _ _ _ HK)) by (by rewrite Hf).
    cbn [mbind option_bind negb Z.eqb]. by destruct k.
  - intros c Hc. destruct (cr_cores _ _ _ _ _ HC c Hc) as (k & _ & _ & Hk & _). by exists k.
Qed.

(** A step that concerns index [i] only. *)
Lemma chain_rel_at i chain' now' p' :
  now ≤ now' →
  (∀ c k, c ∈ lcores → chain !! c = Some k → ∃ k' al act, chain' !! c = Some k' ∧
     core_ok k' range (p_frees p') al act ∧ ∀ j, j ≠ i → rd (timestamps k') j = rd (timestamps k) j) →
  (∀ j, j ≠ i → p_uses p' !! j = p_uses p !! j) →
  (∀ j, j ≠ i → j ∈ p_frees p' ↔ j ∈ p_frees p) →
  (is_Some (p_uses p' !! i) ↔ 0 ≤ i < range ∧ i ∉ p_frees p') →
  (∀ u, p_uses p' !! i = Some u → 0 ≤ u ≤ now' ∧
     (∃ c k, c ∈ lcores ∧ chain' !! c = Some k ∧ rd (timestamps k) i = Some u) ∧
     ∀ c k t, c ∈ lcores → chain' !! c = Some k → rd (timestamps k) i = Some t → t ≤ u) →
  chain_rel lcores chain' range now' p'.
Proof.
  intros Hnow Hcores Huses Hfrees Hdom Hat.
  assert (∀ c k', c ∈ lcores → chain' !! c = Some k' → ∃ k, chain !! c = Some k ∧
    ∀ j, j ≠ i → rd (timestamps k') j = rd (timestamps k) j) as Hback.
  { intros c k' Hc Hk'. destruct (cr_cores _ _ _ _ _ HC c Hc) as (k & _ & _ & Hk & _).
    destruct (Hcores c k Hc Hk) as (k1 & al & act & Hk1 & _ & Ht). exists k. split; [done|].
    rewrite Hk' in Hk1. by injection Hk1 as <-. }
  constructor.
  - intros c Hc. destruct (cr_cores _ _ _ _ _ HC c Hc) as (k & _ & _ & Hk & _).
    destruct (Hcores c k Hc Hk) as (k' & al & act & Hk' & HK & _). eauto.
  - intros j. destruct (decide (j = i)) as [->|Hj]; [done|].
    rewrite Huses, Hfrees by done. apply (cr_dom _ _ _ _ _ HC).
  - intros j u c k' t Hu Hc Hk' Ht. destruct (decide (j = i)) as [->|Hj].
    { by apply (Hat u Hu) with c k'. }
    destruct (Hback c k' Hc Hk') as (k & Hk & He). rewrite Huses in Hu by done. rewrite He in Ht by done.
    by apply (cr_le _ _ _ _ _ HC j u c k).
  - intros j u Hu. destruct (decide (j = i)) as [->|Hj]; [by apply (Hat u Hu)|].
    rewrite Huses in Hu by done. destruct (cr_ex _ _ _ _ _ HC j u Hu) as (c & k & Hc & Hk & Ht).
    destruct (Hcores c k Hc Hk) as (k' & al & act & Hk' & _ & He). exists c, k'.
    by rewrite He.
  - intros j u Hu. destruct (decide (j = i)) as [->|Hj]; [by apply (Hat u Hu)|].
    rewrite Huses in Hu by done. pose proof (cr_now _ _ _ _ _ HC j u Hu). lia.
Qed.

(** Index [i] is allocated for the core and was last used at [time]. *)
Definition stamped (fl : list Z) (i time : Z) (k k' : core_chain) : Prop :=
  ∃ al act, core_ok k' range fl al act ∧ i ∈ al ∧
    ∀ j, rd (timestamps k') j = if i =? j then Some time else rd (timestamps k) j.

Lemma stamped_activate fl i time k k' : stamped fl i time k k' →
  ∃ r ac, dchain_locks_impl_activate_index (active_cells k') i = Some (r, ac) ∧
    stamped fl i time k (set_active k' ac).
Proof.
  intros (al & act & HK & Hi & Ht). pose proof (core_active_range _ _ _ _ _ HK i Hi) as Hr.
  destruct (core_activate _ _ _ _ _ HK i Hr) as (r & ac & Hac & HA). exists r, ac. split; [done|].
  exists al, (without i act ++ [i]). split_and!; [|done|done].
  destruct HK. constructor; simpl; try done.
  intros j [[_ ?]%elem_of_without| ->%list_elem_of_singleton]%elem_of_app; auto.
Qed.

Lemma all_stamped chain' i time fl :
  p_frees p = i :: fl → 0 ≤ time → now ≤ time →
  (∀ c k, c ∈ lcores → chain !! c = Some k → ∃ k', chain' !! c = Some k' ∧ stamped fl i time k k') →
  chain_rel lcores chain' range time (Pool fl (<[i := time]> (p_uses p))).
Proof.
  intros Hf H0 Ht Hst.
  destruct core_here as (k0 & al0 & act0 & Hk0 & HK0).
  pose proof (core_NoDup _ _ _ _ _ HK0) as Hn. rewrite Hf in Hn.
  apply NoDup_app in Hn as (_ & _ & [Hi _]%NoDup_cons).
  assert (0 ≤ i < range) as Hr by (apply (core_elem _ _ _ _ _ HK0); rewrite Hf; set_solver).
  apply (chain_rel_at i); simpl; [done| | | | |].
  - intros c k Hc Hk. destruct (Hst c k Hc Hk) as (k' & Hk' & al & act & HK & _ & Hts).
    exists k', al, act. split_and!; [done..|]. intros j Hj. rewrite Hts.
    by destruct (Z.eqb_spec i j).
  - intros j Hj. by rewrite lookup_insert_ne.
  - intros j Hj. rewrite Hf. set_solver.
  - rewrite lookup_insert_eq. split; [done|]. by eexists.
  - intros u. rewrite lookup_insert_eq. intros [= <-].
    assert (∀ c k', c ∈ lcores → chain' !! c = Some k' → rd (timestamps k') i = Some time) as Hall.
    { intros c k' Hc Hk'. destruct (cr_cores _ _ _ _ _ HC c Hc) as (k & _ & _ & Hk & _).
      destruct (Hst c k Hc Hk) as (k1 & Hk1 & _ & _ & _ & _ & Hts). simplify_eq.
      rewrite Hts. by rewrite Z.eqb_refl. }
    split_and!; [done|done| |].
    + destruct (Hst _ _ lcore_in Hk0) as (k' & Hk' & _). exists lcore_id, k'. eauto.
    + intros c k t Hc Hk. rewrite (Hall c k Hc Hk). intros [= ->]. done.
Qed.

Lemma allocate_some_spec idx time i fl : p_frees p = i :: fl → 0 ≤ time → now ≤ time →
  ∃ chain', dchain_locks_allocate_new_index lcores lcore_id true false chain idx time =
      Some (1, false, chain', i) ∧
    chain_rel lcores chain' range time (Pool fl (<[i := time]> (p_uses p))).
Proof.
  intros Hf H0 Ht. unfold dchain_locks_allocate_new_index. cbn [negb].
  edestruct (foreach_cores lcores lcores_NoDup (X := Z * Z)) with (R := stamped fl i time)
    (x0 := (-1, idx)) (x1 := (1, i)) (chain := chain)
    as (chain' & Hr & Hl & Hin & _); [apply lcores_not_nil| | |].
  3: { rewrite Hr. cbn [mbind option_bind Z.eqb negb].
    destruct core_here as (k0 & _ & _ & Hk0 & _).
    destruct (Hin _ _ lcore_in Hk0) as (k1 & Hk1 & Hst).
    destruct (stamped_activate _ _ _ _ _ Hst) as (r & ac & Hac & Hst').
    rewrite Hk1. cbn [mbind option_bind]. rewrite Hac. cbn [mbind option_bind].
    eexists. split; [done|]. apply all_stamped; [done..|]. intros c k Hc Hk.
    destruct (decide (c = lcore_id)) as [->|Hne].
    - rewrite Hk0 in Hk. injection Hk as <-. eexists. split; [|exact Hst'].
      apply list_lookup_insert_eq. by eapply lookup_lt_Some.
    - rewrite list_lookup_insert_ne by done. by apply Hin. }
  - intros c k x chain' Hc Hk Hx Hk'. destruct (cr_cores _ _ _ _ _ HC c Hc) as (k0 & al & act & Hk0 & HK).
    rewrite Hk in Hk0. injection Hk0 as <-.
    destruct x as [r j]. rewrite Hk'. cbn [mbind option_bind].
    destruct (core_allocate _ _ _ _ _ HK i fl j time Hf H0) as (cs & ts & -> & Hts & HK' & Hrd).
    cbn [mbind option_bind Z.eqb negb]. rewrite Hts. cbn [mbind option_bind].
    eexists. split; [done|]. exists (al ++ [i]), act. split_and!; [done|set_solver|done].
  - intros c Hc. destruct (cr_cores _ _ _ _ _ HC c Hc) as (k & _ & _ & Hk & _). by exists k.
Qed.

(** Rejuvenation touches the data of the calling core only. *)
Lemma rejuvenate_some_spec i time : is_Some (p_uses p !! i) → 0 ≤ time → now ≤ time →
  ∃ k', dchain_locks_rejuvenate_index lcore_id chain i time = Some (1, <[lcore_id := k']> chain) ∧
    chain_rel lcores (<[lcore_id := k']> chain) range time (Pool (p_frees p) (<[i := time]> (p_uses p))).
Proof.
  intros Hu H0 Ht. destruct core_here as (k & al & act & Hk & HK).
  assert (i ∈ al) as Hi by (by eapply (allocated_here lcore_id k)).
  pose proof (core_active_range _ _ _ _ _ HK i Hi) as Hr. pose proof (lookup_lt_Some _ _ _ Hk) as Hlt.
  destruct (core_rejuvenate _ _ _ _ _ HK i time Hi H0) as (cs & ts & r & ac & Hcs & Hts & Hac & HK' & Hrd).
  unfold dchain_locks_rejuvenate_index. rewrite Hk. cbn [mbind option_bind]. rewrite Hcs.
  cbn [mbind option_bind Z.eqb negb]. simpl timestamps. rewrite Hts. cbn [mbind option_bind].
  simpl active_cells. rewrite Hac. cbn [mbind option_bind]. simpl cells.
  exists (CoreChain cs ac ts). split; [done|]. apply (chain_rel_at i); simpl; [done| | |done| |].
  - intros c k' Hc Hk'. destruct (decide (c = lcore_id)) as [->|Hne].
    + rewrite list_lookup_insert_eq by done. eexists _, _, _. split_and!; [done|done|].
      rewrite Hk in Hk'. injection Hk' as <-. intros j Hj. simpl. rewrite Hrd. by destruct (Z.eqb_spec i j).
    + rewrite list_lookup_insert_ne by done.
      destruct (cr_cores _ _ _ _ _ HC c Hc) as (k1 & al1 & act1 & Hk1 & HK1). simplify_eq.
      by eexists _, _, _.
  - intros j Hj. by rewrite lookup_insert_ne.
  - rewrite lookup_insert_eq. split; [|by eexists]. intros _. by apply (cr_dom _ _ _ _ _ HC).
  - intros u. rewrite lookup_insert_eq. intros [= <-]. split_and!; [done|done| |].
    + exists lcore_id. eexists. split_and!; [done|by apply list_lookup_insert_eq|]. simpl.
      rewrite Hrd. by rewrite Z.eqb_refl.
    + intros c k' t Hc. destruct (decide (c = lcore_id)) as [->|Hne].
      * rewrite list_lookup_insert_eq by done. intros [= <-]. simpl. rewrite Hrd, Z.eqb_refl. by intros [= ->].
      * rewrite list_lookup_insert_ne by done. intros Hk' Ht'. destruct Hu as [u Hu].
        pose proof (cr_le _ _ _ _ _ HC i u c k' t Hu Hc Hk' Ht').
        pose proof (cr_now _ _ _ _ _ HC i u Hu). lia.
Qed.

Lemma rejuvenate_free_spec i time : 0 ≤ i < range → p_uses p !! i = None →
  dchain_locks_rejuvenate_index lcore_id chain i time = Some (0, chain).
Proof.
  intros Hr Hu. destruct core_here as (k & al & act & Hk & HK).
  assert (i ∈ p_frees p) as Hf.
  { destruct (decide (i ∈ p_frees p)) as [|Hn]; [done|].
    destruct (proj2 (cr_dom _ _ _ _ _ HC i) (conj Hr Hn)) as [u ?]. congruence. }
  unfold dchain_locks_rejuvenate_index, dchain_locks_impl_rejuvenate_index. rewrite Hk.
  cbn [mbind option_bind].
  rewrite (rejuvenate_not_allocated _ _ _ _ (ck_cells _ _ _ _ _ HK)).
  - cbn [mbind option_bind Z.eqb negb]. do 2 f_equal. destruct k. by apply list_insert_id.
  - apply (list_elem_of_fmap_2 shift) in Hf. exact Hf.
Qed.

Lemma most_recent_spec i u : p_uses p !! i = Some u → most_recent lcores chain i = Some u.
Proof.
  intros Hu. assert (is_Some (p_uses p !! i)) as [Hr _]%(cr_dom _ _ _ _ _ HC) by (by exists u).
  pose proof (cr_now _ _ _ _ _ HC i u Hu) as Hnow.
  destruct (foreach_rule lcores
    (λ c most_recent, k ← chain !! c; t ← rd (timestamps k) i;
       Some (if most_recent <? t then t else most_recent))
    (λ seen m, (∀ c k t, c ∈ seen → chain !! c = Some k → rd (timestamps k) i = Some t → t ≤ m) ∧ m ≤ u)
    (-1)) as (m & Hm & Hle & Hmu).
  - split; [|lia]. intros c k t Hc. by apply elem_of_nil in Hc.
  - intros seen c rest m Hl [Hle Hmu]. assert (c ∈ lcores) as Hc by (rewrite Hl; set_solver).
    destruct (cr_cores _ _ _ _ _ HC c Hc) as (k & al & act & Hk & HK).
    destruct (core_time _ _ _ _ _ HK i Hr) as [t Ht].
    pose proof (cr_le _ _ _ _ _ HC i u c k t Hu Hc Hk Ht) as Htu.
    eexists. rewrite Hk. cbn [mbind option_bind]. rewrite Ht. cbn [mbind option_bind]. split; [done|].
    split; [|by destruct (Z.ltb_spec m t)].
    intros d kd td [Hd| ->%list_elem_of_singleton]%elem_of_app Hkd Htd.
    + specialize (Hle d kd td Hd Hkd Htd). destruct (Z.ltb_spec m t); lia.
    + simplify_eq. destruct (Z.ltb_spec m t); lia.
  - unfold most_recent. rewrite Hm. f_equal.
    destruct (cr_ex _ _ _ _ _ HC i u Hu) as (c & k & Hc & Hk & Ht).
    specialize (Hle c k u Hc Hk Ht). lia.
Qed.

Lemma free_spec i : is_Some (p_uses p !! i) →
  ∃ chain', dchain_locks_free_index lcores true false chain i = Some (1, false, chain') ∧
    chain_rel lcores chain' range now (Pool (i :: p_frees p) (delete i (p_uses p))).
Proof.
  intros Hu. pose proof (proj1 (cr_dom _ _ _ _ _ HC i) Hu) as [Hr Hnf].
  unfold dchain_locks_free_index. cbn [negb].
  edestruct (foreach_cores lcores lcores_NoDup (X := Z))
    with (R := λ k k', ∃ al act, core_ok k' range (i :: p_frees p) al act ∧
                 ∀ j, rd (timestamps k') j = if i =? j then Some (-1) else rd (timestamps k) j)
    (x0 := -1) (x1 := 1) (chain := chain)
    as (chain' & Hfr & Hl & Hin & _); [apply lcores_not_nil| | |].
  3: { rewrite Hfr. cbn [mbind option_bind]. eexists. split; [done|].
    apply (chain_rel_at i); simpl; [done| | | | |].
    - intros c k Hc Hk. destruct (Hin c k Hc Hk) as (k' & Hk' & al & act & HK & Hts).
      exists k', al, act. split_and!; [done..|]. intros j Hj. rewrite Hts. by destruct (Z.eqb_spec i j).
    - intros j Hj. by rewrite lookup_delete_ne.
    - intros j Hj. set_solver.
    - rewrite lookup_delete_eq. split; [by intros [? ?]|]. intros [_ Hn]. destruct Hn. by left.
    - intros u. by rewrite lookup_delete_eq. }
  - intros c k x chain' Hc Hk _ Hk'. destruct (cr_cores _ _ _ _ _ HC c Hc) as (k0 & al & act & Hk0 & HK).
    rewrite Hk in Hk0. injection Hk0 as <-. rewrite Hk'. cbn [mbind option_bind].
    assert (i ∈ al) as Hi by (by eapply (allocated_here c k)).
    destruct (core_free _ _ _ _ _ HK i Hi) as (cs & r & ac & ts & -> & Hac & Hts & HK' & Hrd).
    cbn [mbind option_bind]. rewrite Hac. cbn [mbind option_bind]. rewrite Hts. cbn [mbind option_bind].
    eexists. split; [done|]. by exists (without i al), (without i act).
  - intros c Hc. destruct (cr_cores _ _ _ _ _ HC c Hc) as (k & _ & _ & Hk & _). by exists k.
Qed.

(** Moving an index in the list of the calling core: the indexes that are used,
    and the times, are the same as before. *)
Lemma update_spec i time k al act : is_Some (p_uses p !! i) →
  chain !! lcore_id = Some k → core_ok k range (p_frees p) al act →
  ∃ cs, dchain_locks_update_timestamp lcore_id chain i time =
      Some (1, <[lcore_id := set_cells k cs]> chain) ∧
    chain_rel lcores (<[lcore_id := set_cells k cs]> chain) range now p.
Proof.
  intros Hu Hk HK. assert (i ∈ al) as Hi by (by eapply (allocated_here lcore_id k)).
  pose proof (lookup_lt_Some _ _ _ Hk) as Hlt.
  destruct (core_move _ _ _ _ _ HK i time Hi) as (r & cs & al' & Hf & Hcs & HR' & Hp).
  exists cs. unfold dchain_locks_update_timestamp. rewrite Hk. cbn [mbind option_bind].
  rewrite Hf. cbn [mbind option_bind]. rewrite Hcs. cbn [mbind option_bind]. split; [done|].
  apply (chain_rel_at i); simpl; [done| |done|done|apply HC|].
  - intros c k' Hc Hk'. destruct (decide (c = lcore_id)) as [->|Hne].
    + rewrite list_lookup_insert_eq by done. rewrite Hk in Hk'. injection Hk' as <-.
      exists (set_cells k cs), al', act. split_and!; [done| |done]. destruct HK. constructor; simpl; try done.
      * intros j Hj. rewrite Hp. auto.
      * intros j t Ht. rewrite Hp. auto.
    + rewrite list_lookup_insert_ne by done.
      destruct (cr_cores _ _ _ _ _ HC c Hc) as (k1 & al1 & act1 & Hk1 & HK1). simplify_eq.
      by eexists _, _, _.
  - intros u Hui. split_and!; [by eapply (cr_now _ _ _ _ _ HC)..| |].
    + destruct (cr_ex _ _ _ _ _ HC i u Hui) as (c & k' & Hc & Hk' & Ht).
      destruct (decide (c = lcore_id)) as [->|Hne].
      * exists lcore_id, (set_cells k cs). rewrite list_lookup_insert_eq by done. by simplify_eq.
      * exists c, k'. by rewrite list_lookup_insert_ne.
    + intros c k' t Hc. destruct (decide (c = lcore_id)) as [->|Hne].
      * rewrite list_lookup_insert_eq by done. intros [= <-]. simpl.
        by apply (cr_le _ _ _ _ _ HC i u lcore_id k).
      * rewrite list_lookup_insert_ne by done. by apply (cr_le _ _ _ _ _ HC i u c k').
Qed.

(** An expiration in write mode that meets an index which this core has not used
    since [time]. *)
Lemma expire_old_spec k al i act t idx time :
  chain !! lcore_id = Some k → core_ok k range (p_frees p) al (i :: act) →
  rd (timestamps k) i = Some t → t < time →
  ∃ u, p_uses p !! i = Some u ∧
    ∃ chain', dchain_locks_expire_one_index lcores lcore_id true false chain idx time =
        Some (1, false, chain', i) ∧
      if decide (u < time)
      then chain_rel lcores chain' range now (Pool (i :: p_frees p) (delete i (p_uses p)))
      else chain_rel lcores chain' range now p ∧ ∃ cs, chain' = <[lcore_id := set_cells k cs]> chain.
Proof.
  intros Hk HK Ht Hlt. assert (i ∈ al) as Hi by (apply (ck_used _ _ _ _ _ HK); by left).
  assert (is_Some (p_uses p !! i)) as [u Hu] by (by eapply (allocated_here lcore_id k)).
  exists u. split; [done|]. unfold dchain_locks_expire_one_index. rewrite Hk. cbn [mbind option_bind].
  rewrite (oldest_active_spec _ _ _ (ck_active _ _ _ _ _ HK)). cbn [fmap list_fmap mbind option_bind Z.eqb].
  replace (shift i - 2) with i by (unfold shift; unfold_heads; lia).
  rewrite Ht. cbn [mbind option_bind].
  assert (0 ≤ t) as H0.
  { destruct (ck_times _ _ _ _ _ HK i t Ht) as [[_ ?]|[Hf _]]; [done|]. exfalso.
    by eapply (core_disjoint _ _ _ _ _ HK i). }
  destruct (Z.ltb_spec (-1) t); [|lia]. destruct (Z.ltb_spec t time); [|lia]. cbn [andb negb].
  rewrite (most_recent_spec i u Hu). cbn [mbind option_bind].
  destruct (Z.leb_spec time u), (decide (u < time)); try lia.
  - destruct (update_spec i u k al (i :: act))
      as (cs & -> & HC'); [by exists u|done|done|]. cbn [mbind option_bind]. eauto 6.
  - destruct (free_spec i)
      as (chain' & -> & HC'); [by exists u|]. cbn [mbind option_bind]. eauto.
Qed.

Lemma chain_rel_mono now' : now ≤ now' → chain_rel lcores chain range now' p.
Proof.
  intros Hn. destruct HC. constructor; try done. intros i u Hu. specialize (cr_now0 i u Hu). lia.
Qed.

Lemma locks_expire_spec ws idx time :
  ∃ r wa chain' i p', dchain_locks_expire_one_index lcores lcore_id ws false chain idx time =
      Some (r, wa, chain', i) ∧
    pool_step ws (LExpire idx time) p (r, wa, i) p' ∧ chain_rel lcores chain' range now p'.
Proof.
  destruct core_here as (k & al & act & Hk & HK).
  assert (∀ j, (∃ r wa chain' i p', Some (0, false, chain, j) = Some (r, wa, chain', i) ∧
    pool_step ws (LExpire idx time) p (r, wa, i) p' ∧ chain_rel lcores chain' range now p')) as Hnone.
  { intros j. eexists _, _, _, _, _. split_and!; [done|apply ps_expire_none|done]. }
  destruct act as [|i act].
  { unfold dchain_locks_expire_one_index. rewrite Hk. cbn [mbind option_bind].
    rewrite (oldest_active_spec _ _ _ (ck_active _ _ _ _ _ HK)). apply Hnone. }
  assert (i ∈ al) as Hi by (apply (ck_used _ _ _ _ _ HK); by left).
  destruct (core_time _ _ _ _ _ HK i) as [t Ht]; [by eapply core_active_range|].
  destruct (decide (t < time)) as [Hlt|Hge]; [destruct ws|].
  - destruct (expire_old_spec k al i act t idx time Hk HK Ht Hlt) as (u & Hu & chain' & -> & Hc).
    eexists _, _, _, _. destruct (decide (u < time)).
    + eexists. split_and!; [done|by eapply ps_expire_free|done].
    + eexists. split_and!; [done|eapply ps_expire_kept; [done|lia]|apply Hc].
  - unfold dchain_locks_expire_one_index. rewrite Hk. cbn [mbind option_bind].
    rewrite (oldest_active_spec _ _ _ (ck_active _ _ _ _ _ HK)). cbn [fmap list_fmap mbind option_bind Z.eqb].
    replace (shift i - 2) with i by (unfold shift; unfold_heads; lia). rewrite Ht. cbn [mbind option_bind].
    destruct (_ && _); [|apply Hnone]. cbn [negb]. eexists _, _, _, _, _.
    split_and!; [done|apply ps_expire_read|done]. by eapply (allocated_here lcore_id k).
  - unfold dchain_locks_expire_one_index. rewrite Hk. cbn [mbind option_bind].
    rewrite (oldest_active_spec _ _ _ (ck_active _ _ _ _ _ HK)). cbn [fmap list_fmap mbind option_bind Z.eqb].
    replace (shift i - 2) with i by (unfold shift; unfold_heads; lia). rewrite Ht. cbn [mbind option_bind].
    destruct (Z.ltb_spec t time); [lia|]. rewrite andb_false_r. apply Hnone.
Qed.

Lemma is_allocated_here i : 0 ≤ i < range →
  dchain_locks_is_index_allocated lcore_id chain i =
    Some (if decide (is_Some (p_uses p !! i)) then 1 else 0).
Proof.
  intros Hi. destruct core_here as (k & al & act & Hk & HK).
  unfold dchain_locks_is_index_allocated, dchain_locks_impl_is_index_allocated. rewrite Hk.
  cbn [mbind option_bind]. rewrite (is_allocated_spec _ _ _ _ (ck_cells _ _ _ _ _ HK)) by done.
  f_equal. pose proof (allocated_here lcore_id k al act i lcore_in Hk HK) as Hiff.
  assert (i + 2 ∈ shift <$> al ↔ i ∈ al) as Hsh.
  { rewrite list_elem_of_fmap. unfold shift. unfold_heads. split; [|by exists i].
    intros (j & E & Hj). by assert (j = i) as -> by lia. }
  destruct (decide (i + 2 ∈ shift <$> al)), (decide (is_Some (p_uses p !! i))); tauto.
Qed.

Lemma lop_exec_spec ws op : lop_ok range now op → 0 ≤ now →
  ∃ r chain' p', lop_exec lcores lcore_id ws op chain = Some (r, chain') ∧
    pool_step ws op p r p' ∧ chain_rel lcores chain' range (lop_now now op) p'.
Proof.
  intros [Hnow Hop] H0. destruct op as [idx t|i t|idx t|i]; simpl in *.
  - destruct ws.
    + destruct (p_frees p) as [|i fl] eqn:Hf.
      * rewrite allocate_full_spec by done. eexists _, _, _.
        split_and!; [done|by constructor|by apply chain_rel_mono].
      * destruct (allocate_some_spec idx t i fl) as (chain' & -> & HC'); [done|lia|done|].
        eexists _, _, _. split_and!; [done|by constructor|done].
    + eexists _, _, _. split_and!; [done|by constructor|by apply chain_rel_mono].
  - destruct (p_uses p !! i) as [u|] eqn:Hu.
    + destruct (rejuvenate_some_spec i t) as (k' & -> & HC'); [by exists u|lia|done|].
      eexists _, _, _. split_and!; [done|constructor; by exists u|done].
    + rewrite rejuvenate_free_spec by done.
      eexists _, _, _. split_and!; [done|by constructor|by apply chain_rel_mono].
  - destruct (locks_expire_spec ws idx t) as (r & wa & chain' & i & p' & -> & Hs & HC').
    eexists _, _, _. by split_and!.
  - rewrite is_allocated_here by done. eexists _, _, _. split_and!; [done|constructor|done].
Qed.

End operations.

(** ** Allocation *)

Lemma fresh_core active cs range :
  0 < range → active_rep active range [] → dchain_rep cs range [] (seqZ 2 range) →
  core_ok (CoreChain cs active (replicate (Z.to_nat range) (-1))) range (seqZ 0 range) [] [].
Proof.
  intros Hr HA HR. constructor; simpl.
  - by rewrite shift_seqZ.
  - done.
  - done.
  - unfold zlen. rewrite length_replicate. lia.
  - intros i t Hi. right. pose proof (rd_Some_range _ _ _ Hi) as Hir.
    unfold zlen in Hir. rewrite length_replicate in Hir.
    rewrite rd_lookup in Hi by lia. apply lookup_replicate in Hi as [-> _].
    split; [|done]. apply elem_of_seqZ. lia.
Qed.

Section allocation.
Context (cell_size time_size : Z).

Lemma zlen_fresh_cells a n μ : 0 ≤ n →
  zlen ((λ i, Cell (junk μ (a + cell_size * i)) (junk μ (a + cell_size * i + 4))) <$> seqZ 0 n) = n.
Proof. intros. unfold zlen. rewrite length_fmap, length_seqZ. lia. Qed.

Lemma allocate_core_spec range p μ rest :
  0 < range → mem_ok μ → live μ ≡ₚ p :: rest →
  ∃ o μ', allocate_core cell_size time_size range p μ = Some (o, μ') ∧ mem_ok μ' ∧
    match o with
    | None => True
    | Some k => core_ok k range (seqZ 0 range) [] [] ∧ ∃ rest', live μ' ≡ₚ p :: rest'
    end.
Proof.
  intros Hr Hok Hl. unfold allocate_core.
  destruct (malloc_cases (u64 (cell_size * (range + DCHAIN_RESERVED))) μ Hok)
    as [(μ1 & Hm & Hl1 & Ho1)|(p1 & μ1 & Hm & Hn1 & Hl1 & Ho1 & _)]; mstep.
  { rewrite Z.eqb_refl. destruct (free_live p μ1 rest) as (l' & Hf & _); [by rewrite Hl1|].
    rewrite (M_bind_Some _ _ _ _ _ Hf). by eexists _, _. }
  rewrite not_null by done.
  destruct (malloc_cases (u64 (cell_size * (range + DCHAIN_RESERVED))) μ1 Ho1)
    as [(μ2 & Hm2 & Hl2 & Ho2)|(p2 & μ2 & Hm2 & Hn2 & Hl2 & Ho2 & _)]; mstep.
  { rewrite Z.eqb_refl. destruct (free_live p1 μ2 (p :: rest)) as (l' & Hf & Hl'); [by rewrite Hl2, Hl1, Hl|].
    rewrite (M_bind_Some _ _ _ _ _ Hf).
    destruct (free_live p (Mem l' (answers μ2) (brk μ2) (junk μ2)) rest) as (l2 & Hf2 & _); [done|].
    rewrite (M_bind_Some _ _ _ _ _ Hf2). by eexists _, _. }
  rewrite not_null by done. mpure. cbn zeta.
  destruct (activity_init_spec ((λ i, Cell (junk μ2 (p2 + cell_size * i)) (junk μ2 (p2 + cell_size * i + 4)))
    <$> seqZ 0 (range + DCHAIN_RESERVED)) range) as (active & Ha & HA);
    [done|apply zlen_fresh_cells; unfold_heads; lia|]. mlift Ha.
  destruct (malloc_cases (u64 (time_size * range)) μ2 Ho2)
    as [(μ3 & Hm3 & Hl3 & Ho3)|(p3 & μ3 & Hm3 & Hn3 & Hl3 & Ho3 & _)]; mstep.
  { rewrite Z.eqb_refl.
    destruct (free_live p1 μ3 (p2 :: p :: rest)) as (l1 & Hf1 & Hl1').
    { rewrite Hl3, Hl2, Hl1, Hl. apply Permutation_swap. }
    rewrite (M_bind_Some _ _ _ _ _ Hf1).
    destruct (free_live p2 (Mem l1 (answers μ3) (brk μ3) (junk μ3)) (p :: rest)) as (l2 & Hf2 & Hl2'); [done|].
    rewrite (M_bind_Some _ _ _ _ _ Hf2).
    destruct (free_live p (Mem l2 (answers μ3) (brk μ3) (junk μ3)) rest) as (l3 & Hf3 & _); [done|].
    rewrite (M_bind_Some _ _ _ _ _ Hf3). by eexists _, _. }
  rewrite not_null by done. mpure.
  destruct (init_spec ((λ i, Cell (junk μ3 (p1 + cell_size * i)) (junk μ3 (p1 + cell_size * i + 4)))
    <$> seqZ 0 (range + DCHAIN_RESERVED)) range) as (cs & Hc & HR);
    [done|apply zlen_fresh_cells; unfold_heads; lia|].
  change dchain_impl_init with dchain_locks_impl_init in Hc. mlift Hc.
  eexists _, _. split_and!; [done|done|]. split; [by apply fresh_core|].
  exists (p3 :: p2 :: p1 :: rest). rewrite Hl3, Hl2, Hl1, Hl.
  solve_Permutation.
Qed.

Lemma allocate_cores_spec range p cs : ∀ chain μ rest,
  0 < range → NoDup cs → (∀ c, c ∈ cs → (c < length chain)%nat) → mem_ok μ → live μ ≡ₚ p :: rest →
  ∃ o μ', allocate_cores cell_size time_size range p cs chain μ = Some (o, μ') ∧ mem_ok μ' ∧
    match o with
    | None => True
    | Some chain' => length chain' = length chain ∧
        (∀ c, c ∉ cs → chain' !! c = chain !! c) ∧
        (∀ c, c ∈ cs → ∃ k, chain' !! c = Some k ∧ core_ok k range (seqZ 0 range) [] [])
    end.
Proof.
  induction cs as [|c cs IH]; intros chain μ rest Hr Hnd Hlen Hok Hl.
  { eexists _, _. split_and!; [done|done|]. split_and!; [done|done|]. intros c Hc. by apply not_elem_of_nil in Hc. }
  apply NoDup_cons in Hnd as [Hc Hnd]. cbn [allocate_cores].
  destruct (allocate_core_spec range p μ rest Hr Hok Hl) as (o & μ1 & Ha & Hok1 & Hres).
  rewrite (M_bind_Some _ _ _ _ _ Ha). destruct o as [k|]; [|by eexists _, _].
  destruct Hres as (HK & rest' & Hl1).
  destruct (IH (<[c := k]> chain) μ1 rest') as (o & μ2 & -> & Hok2 & Hres); [done|done| |done|done|].
  { intros d Hd. rewrite length_insert. apply Hlen. by right. }
  eexists _, _. split_and!; [done|done|]. destruct o as [chain'|]; [|done].
  destruct Hres as (Hn & Hother & Hcs). rewrite length_insert in Hn. split_and!; [done| |].
  - intros d Hd. apply not_elem_of_cons in Hd as [Hdc Hd]. rewrite Hother by done.
    by rewrite list_lookup_insert_ne.
  - intros d Hd. apply elem_of_cons in Hd as [->|Hd]; [|by apply Hcs]. exists k. split; [|done].
    rewrite Hother by done. rewrite list_lookup_insert_eq; [done|]. apply Hlen. by left.
Qed.

Definition pool_init (range : Z) : pool := Pool (seqZ 0 range) ∅.

Lemma chain_allocate_spec lcores max range out μ :
  0 < range → NoDup lcores → (∀ c, c ∈ lcores → (c < max)%nat) → mem_ok μ →
  ∃ r out' o μ', chain_allocate lcores cell_size time_size max range out μ = Some ((r, out', o), μ') ∧
    match o with
    | None => r = 0 ∧ out' = out
    | Some chain => r = 1 ∧ chain_rel lcores chain range 0 (pool_init range)
    end.
Proof.
  intros Hr Hnd Hmax Hok. unfold chain_allocate.
  destruct (malloc_cases (24 * Z.of_nat max + 8) μ Hok)
    as [(μ1 & Hm & Hl1 & Ho1)|(p1 & μ1 & Hm & Hn1 & Hl1 & Ho1 & _)]; mstep.
  { rewrite Z.eqb_refl. by eexists _, _, _, _. }
  rewrite not_null by done.
  destruct (allocate_cores_spec range p1 lcores (replicate max (CoreChain [] [] [])) μ1 (live μ))
    as (o & μ2 & Ha & _ & Hres); [done|done| |done|by rewrite Hl1|].
  { intros c Hc. rewrite length_replicate. by apply Hmax. }
  rewrite (M_bind_Some _ _ _ _ _ Ha). destruct o as [chain|]; [|by eexists _, _, _, _].
  destruct Hres as (_ & _ & Hcs). eexists _, _, _, _. split; [done|]. split; [done|].
  constructor; simpl.
  - intros c Hc. destruct (Hcs c Hc) as (k & Hk & HK). by exists k, [], [].
  - intros i. rewrite lookup_empty, elem_of_seqZ. split; [by intros [? ?]|]. intros [? []]. lia.
  - intros i u. by rewrite lookup_empty.
  - intros i u. by rewrite lookup_empty.
  - intros i u. by rewrite lookup_empty.
Qed.

End allocation.

(** ** Speculation

    A call in read mode that does not raise the flag is the call in write mode. *)

Lemma read_mode_transparent lcores c op chain r i chain' :
  lop_exec lcores c false op chain = Some ((r, false, i), chain') →
  lop_exec lcores c true op chain = Some ((r, false, i), chain').
Proof.
  destruct op as [idx t|j t|idx t|j]; cbn [lop_exec]; [done|done| |done].
  unfold dchain_locks_expire_one_index. destruct (chain !! c) as [k|]; [|done].
  cbn [mbind option_bind negb].
  destruct (dchain_locks_impl_get_oldest_index _ _) as [[h j]|]; [|done]. cbn [mbind option_bind].
  destruct (h =? 0); [done|]. destruct (rd (timestamps k) j) as [u|]; [|done]. cbn [mbind option_bind].
  by destruct (_ && _).
Qed.

(** ** Runs of several cores *)

(** A call: the core, whether it holds the write lock, and the operation. *)
Abbreviation lcall := (nat * bool * lop)%type.

Fixpoint lop_run (lcores : list nat) (calls : list lcall) (chain : DoubleChainLocks)
    : option (list (Z * bool * Z) * DoubleChainLocks) :=
  match calls with
  | [] => Some ([], chain)
  | (c, ws, op) :: calls' =>
      '(r, chain) ← lop_exec lcores c ws op chain;
      '(rs, chain) ← lop_run lcores calls' chain;
      Some (r :: rs, chain)
  end.

Inductive pool_run : list lcall → pool → list (Z * bool * Z) → pool → Prop :=
  | pr_nil p : pool_run [] p [] p
  | pr_cons c ws op calls p r p' rs p'' : pool_step ws op p r p' → pool_run calls p' rs p'' →
      pool_run ((c, ws, op) :: calls) p (r :: rs) p''.

Fixpoint calls_ok (lcores : list nat) (range now : Z) (calls : list lcall) : Prop :=
  match calls with
  | [] => True
  | (c, _, op) :: calls' => c ∈ lcores ∧ lop_ok range now op ∧ calls_ok lcores range (lop_now now op) calls'
  end.

Lemma lop_run_spec lcores range calls : NoDup lcores → ∀ chain now p,
  chain_rel lcores chain range now p → 0 ≤ now → calls_ok lcores range now calls →
  ∃ rs chain' p', lop_run lcores calls chain = Some (rs, chain') ∧ pool_run calls p rs p' ∧
    ∃ now', chain_rel lcores chain' range now' p'.
Proof.
  intros Hnd. induction calls as [|[[c ws] op] calls IH]; intros chain now p HC H0 Hok.
  { eexists _, _, _. split_and!; [done|constructor|by exists now]. }
  destruct Hok as (Hc & Hop & Hok).
  destruct (lop_exec_spec lcores Hnd c Hc chain range now p HC ws op Hop H0)
    as (r & chain1 & p1 & Hx & Hs & HC1).
  destruct (IH chain1 (lop_now now op) p1) as (rs & chain2 & p2 & Hrun & Hp & HC2);
    [done|destruct Hop; lia|done|].
  cbn [lop_run]. rewrite Hx. cbn [mbind option_bind]. rewrite Hrun.
  eexists _, _, _. split_and!; [done|by econstructor|done].
Qed.

(** C2: the allocator of several cores is a single pool of indexes: from its allocation on, every
    sequence of calls by the enabled cores, in read or write mode, runs without an access out
    of bounds and answers as the pool allows.  In particular an allocated index is never given
    out again before it is freed, and expiration on one core never frees an index that another
    core has used since [time], although each core keeps its own timestamps. *)
Theorem dchain_locks_refines_pool lcores max range out μ calls :
  0 < range → NoDup lcores → (∀ c, c ∈ lcores → (c < max)%nat) → mem_ok μ →
  calls_ok lcores range 0 calls →
  ∃ r out' o μ', dchain_locks_allocate lcores max range out μ = Some ((r, out', o), μ') ∧
    match o with
    | None => r = 0 ∧ out' = out
    | Some chain => r = 1 ∧ ∃ rs chain' p', lop_run lcores calls chain = Some (rs, chain') ∧
        pool_run calls (pool_init range) rs p'
    end.
Proof.
  intros Hr Hnd Hmax Hok Hcalls.
  destruct (chain_allocate_spec 8 8 lcores max range out μ Hr Hnd Hmax Hok)
    as (r & out' & o & μ' & Ha & Hres).
  exists r, out', o, μ'. split; [done|]. destruct o as [chain|]; [|done].
  destruct Hres as [-> HC]. split; [done|].
  destruct (lop_run_spec lcores range calls Hnd chain 0 _ HC) as (rs & chain' & p' & Hrun & Hp & _);
    [lia|done|]. by exists rs, chain', p'.
Qed.

(** Memory that serves the seven requests of two cores. *)
Definition demo_locks_mem : mem := Mem [] (replicate 7 true) 4096 (λ _, 3).

(** Core 0 allocates an index, core 3 uses it later, and core 0 tries to expire it. *)
Definition demo_calls : list lcall :=
  [(0%nat, true, LAllocate 0 10); (3%nat, false, LRejuvenate 0 20); (0%nat, true, LExpire 0 15);
   (3%nat, false, LIsAllocated 0); (3%nat, true, LExpire 0 25); (0%nat, false, LIsAllocated 0)].

Lemma dchain_locks_refines_pool_witness :
  ∃ r out' o μ', dchain_locks_allocate [0%nat; 3%nat] 4 2 (-7) demo_locks_mem = Some ((r, out', o), μ') ∧
    match o with
    | None => r = 0 ∧ out' = -7
    | Some chain => r = 1 ∧ ∃ rs chain' p', lop_run [0%nat; 3%nat] demo_calls chain = Some (rs, chain') ∧
        pool_run demo_calls (pool_init 2) rs p'
    end.
Proof.
  apply (dchain_locks_refines_pool [0%nat; 3%nat] 4 2 (-7) demo_locks_mem demo_calls).
  - lia.
  - by apply (bool_decide_unpack _).
  - intros c Hc. repeat (apply elem_of_cons in Hc as [->|Hc]; [lia|]). by apply not_elem_of_nil in Hc.
  - done.
  - repeat split; simpl; try lia; by apply (bool_decide_unpack _).
Defined.

(** The run of [demo_calls]: the expiration by core 0 keeps the index, that by core 3 frees it. *)
Example demo_calls_run :
  (μo ← dchain_locks_allocate [0%nat; 3%nat] 4 2 (-7) demo_locks_mem;
   match μo with ((_, _, Some chain), _) => fst <$> lop_run [0%nat; 3%nat] demo_calls chain | _ => None end) =
  Some [(1, false, 0); (1, false, 0); (1, false, 0); (1, false, 0); (1, false, 0); (0, false, 0)].
Proof. vm_compute. reflexivity. Qed.
