(* ===== verification/DChainTm.v ===== *)
(** * double-chain-tm-impl.c and double-chain-tm.c

    The index allocator of the programs that use hardware transactions: the
    allocator of several cores without the two flags, with cells and timestamps
    that fill a cache line each. *)
From stdpp Require Import base list gmap numbers sets.
From Stdlib Require Import ZArith Lia.
From S2P Require Import Prelude.
From S2P Require Import Memory.
From S2P Require Import DChainImpl.
From S2P Require Import DChain.
From S2P Require Import DChainLocks.

(** ** double-chain-tm-impl.c *)

Definition dchain_tm_impl_activity_init : list dchain_cell → Z → option (list dchain_cell) :=
  dchain_locks_impl_activity_init.

Definition dchain_tm_impl_activate_index : list dchain_cell → Z → option (Z * list dchain_cell) :=
  dchain_locks_impl_activate_index.

Definition dchain_tm_impl_deactivate_index : list dchain_cell → Z → option (Z * list dchain_cell) :=
  dchain_locks_impl_deactivate_index.

Definition dchain_tm_impl_is_index_active : list dchain_cell → Z → option Z :=
  dchain_locks_impl_is_index_active.

Definition dchain_tm_impl_init : list dchain_cell → Z → option (list dchain_cell) :=
  dchain_locks_impl_init.

Definition dchain_tm_impl_allocate_new_index
    : list dchain_cell → Z → option (Z * list dchain_cell * Z) := dchain_locks_impl_allocate_new_index.

Definition dchain_tm_impl_free_index : list dchain_cell → Z → option (Z * list dchain_cell) :=
  dchain_locks_impl_free_index.

Definition dchain_tm_impl_next : list dchain_cell → Z → Z → option (Z * Z) := dchain_locks_impl_next.

Definition dchain_tm_impl_get_oldest_index : list dchain_cell → Z → option (Z * Z) :=
  dchain_locks_impl_get_oldest_index.

(** This copy asserts that the new predecessor is an index. *)
Definition dchain_tm_impl_reposition_index (cells : list dchain_cell) (index new_prev_index : Z)
    : option (Z * list dchain_cell) :=
  if 0 <=? new_prev_index then dchain_locks_impl_reposition_index cells index new_prev_index else None.

Definition dchain_tm_impl_rejuvenate_index : list dchain_cell → Z → option (Z * list dchain_cell) :=
  dchain_locks_impl_rejuvenate_index.

Definition dchain_tm_impl_is_index_allocated : list dchain_cell → Z → option Z :=
  dchain_locks_impl_is_index_allocated.

(** ** double-chain-tm.c *)

Abbreviation DoubleChainTM := (list core_chain).

Section chain.
(** The enabled cores and [rte_lcore_id()]. *)
Variable lcores : list nat.
Variable lcore_id : nat.

Definition dchain_tm_allocate : nat → Z → Z → M (Z * Z * option DoubleChainTM) :=
  chain_allocate lcores 64 64.

Definition dchain_tm_allocate_new_index (chain : DoubleChainTM) (index_out time : Z)
    : option (Z * DoubleChainTM * Z) :=
  '(ret, index_out, chain) ← foreach_lcore lcores (λ c '(ret, index_out, chain),
      k ← chain !! c;
      '(new_ret, cs, index_out) ← dchain_tm_impl_allocate_new_index (cells k) index_out;
      ts ← (if negb (new_ret =? 0) then wr (timestamps k) index_out time else Some (timestamps k));
      Some (new_ret, index_out, <[c := CoreChain cs (active_cells k) ts]> chain))
    (-1, index_out, chain);
  chain ← (if negb (ret =? 0) then
             k ← chain !! lcore_id;
             '(_, ac) ← dchain_tm_impl_activate_index (active_cells k) index_out;
             Some (<[lcore_id := set_active k ac]> chain)
           else Some chain);
  Some (ret, chain, index_out).

Definition dchain_tm_rejuvenate_index (chain : DoubleChainTM) (index time : Z)
    : option (Z * DoubleChainTM) :=
  k ← chain !! lcore_id;
  '(ret, cs) ← dchain_tm_impl_rejuvenate_index (cells k) index;
  let k := set_cells k cs in
  k ← (if negb (ret =? 0) then
         ts ← wr (timestamps k) index time;
         '(_, ac) ← dchain_tm_impl_activate_index (active_cells k) index;
         Some (CoreChain (cells k) ac ts)
       else Some k);
  Some (ret, <[lcore_id := k]> chain).

Definition dchain_tm_update_timestamp (chain : DoubleChainTM) (index time : Z)
    : option (Z * DoubleChainTM) :=
  k ← chain !! lcore_id;
  new_prev ← find_new_prev (S (length (cells k))) k index time;
  '(ret, cs) ← (if new_prev =? -1
                then dchain_tm_impl_rejuvenate_index (cells k) index
                else dchain_tm_impl_reposition_index (cells k) index new_prev);
  Some (ret, <[lcore_id := set_cells k cs]> chain).

Definition dchain_tm_free_index (chain : DoubleChainTM) (index : Z) : option (Z * DoubleChainTM) :=
  foreach_lcore lcores (λ c '(_, chain),
      k ← chain !! c;
      '(new_rez, cs) ← dchain_tm_impl_free_index (cells k) index;
      '(_, ac) ← dchain_tm_impl_deactivate_index (active_cells k) index;
      ts ← wr (timestamps k) index (-1);
      Some (new_rez, <[c := CoreChain cs ac ts]> chain)) (-1, chain).

(** Returns the result, the chain and [*index_out]. *)
Definition dchain_tm_expire_one_index (chain : DoubleChainTM) (index_out time : Z)
    : option (Z * DoubleChainTM * Z) :=
  k ← chain !! lcore_id;
  '(has_ind, index) ← dchain_tm_impl_get_oldest_index (active_cells k) index_out;
  if has_ind =? 0 then Some (0, chain, index) else
  t ← rd (timestamps k) index;
  if (-1 <? t) && (t <? time) then
    recent ← most_recent lcores chain index;
    if time <=? recent then
      '(ret, chain) ← dchain_tm_update_timestamp chain index recent; Some (ret, chain, index)
    else
      '(rez, chain) ← dchain_tm_free_index chain index; Some (rez, chain, index)
  else Some (0, chain, index).

Definition dchain_tm_is_index_allocated (chain : DoubleChainTM) (index : Z) : option Z :=
  k ← chain !! lcore_id; dchain_tm_impl_is_index_allocated (cells k) index.

(** ** The same allocator as with locks, in write mode *)

Definition tm_exec (op : lop) (chain : DoubleChainTM) : option ((Z * bool * Z) * DoubleChainTM) :=
  match op with
  | LAllocate idx t =>
      '(r, chain, i) ← dchain_tm_allocate_new_index chain idx t; Some ((r, false, i), chain)
  | LRejuvenate i t => '(r, chain) ← dchain_tm_rejuvenate_index chain i t; Some ((r, false, i), chain)
  | LExpire idx t =>
      '(r, chain, i) ← dchain_tm_expire_one_index chain idx t; Some ((r, false, i), chain)
  | LIsAllocated i => r ← dchain_tm_is_index_allocated chain i; Some ((r, false, i), chain)
  end.

End chain.

Section equivalence.
Context (lcores : list nat).
Context (lcore_id : nat) (lcore_in : lcore_id ∈ lcores).
Context (chain : DoubleChainTM) (range now : Z) (p : pool).
Hypothesis HC : chain_rel lcores chain range now p.

(** The assertion of the search holds for every index this core has used. *)
Lemma tm_update_eq i time k al act :
  chain !! lcore_id = Some k → core_ok k range (p_frees p) al act → i ∈ al →
  dchain_tm_update_timestamp lcore_id chain i time = dchain_locks_update_timestamp lcore_id chain i time.
Proof.
  intros Hk HK Hi. destruct (core_split al i Hi) as (l1 & l2 & Hal & Hsh).
  pose proof (ck_cells _ _ _ _ _ HK) as HR.
  destruct (find_new_prev_spec k range _ _ HR (ck_len _ _ _ _ _ HK) i _ _ Hsh time) as (r & Hf & Hr).
  unfold dchain_tm_update_timestamp, dchain_locks_update_timestamp. rewrite Hk. cbn [mbind option_bind].
  rewrite Hf. cbn [mbind option_bind]. destruct (Z.eqb_spec r (-1)); [done|].
  unfold dchain_tm_impl_reposition_index. destruct (Z.leb_spec 0 r); [done|].
  destruct Hr as [?|Hr]; [done|]. exfalso.
  assert (r + 2 ∈ shift <$> al) as Hra by (rewrite Hsh; set_solver).
  apply (rep_alloc_elem _ _ _ _ HR) in Hra. lia.
Qed.

Lemma tm_free_eq i :
  (λ '(r, ch), (r, false, ch)) <$> dchain_tm_free_index lcores chain i =
    dchain_locks_free_index lcores true false chain i.
Proof.
  unfold dchain_locks_free_index, dchain_tm_free_index. cbn [negb].
  by destruct (foreach_lcore lcores _ _) as [[r ch]|].
Qed.

Lemma tm_expire_eq idx time :
  (λ '(r, ch, i), (r, false, ch, i)) <$> dchain_tm_expire_one_index lcores lcore_id chain idx time =
    dchain_locks_expire_one_index lcores lcore_id true false chain idx time.
Proof.
  destruct (core_here lcores lcore_id lcore_in chain range now p HC) as (k & al & act & Hk & HK).
  unfold dchain_tm_expire_one_index, dchain_locks_expire_one_index, dchain_tm_impl_get_oldest_index.
  rewrite Hk. cbn [mbind option_bind].
  rewrite (oldest_active_spec _ _ _ (ck_active _ _ _ _ _ HK)).
  destruct act as [|i act]; [done|]. cbn [fmap list_fmap mbind option_bind Z.eqb].
  assert (i ∈ al) as Hi by (apply (ck_used _ _ _ _ _ HK); by left).
  replace (shift i - 2) with i by (unfold shift; unfold_heads; lia).
  destruct (rd (timestamps k) i) as [t|]; [|done]. cbn [mbind option_bind].
  destruct (_ && _); [|done]. cbn [negb]. destruct (most_recent lcores chain i) as [u|]; [|done].
  cbn [mbind option_bind]. destruct (time <=? u).
  - rewrite (tm_update_eq i u k al (i :: act) Hk HK Hi).
    by destruct (dchain_locks_update_timestamp _ _ _ _) as [[r ch]|].
  - rewrite <- tm_free_eq. by destruct (dchain_tm_free_index _ _ _) as [[r ch]|].
Qed.

Lemma tm_exec_eq op : tm_exec lcores lcore_id op chain = lop_exec lcores lcore_id true op chain.
Proof.
  destruct op as [idx t|i t|idx t|i]; cbn [tm_exec lop_exec].
  - unfold dchain_tm_allocate_new_index, dchain_locks_allocate_new_index. cbn [negb].
    unfold dchain_tm_impl_allocate_new_index.
    destruct (foreach_lcore lcores _ _) as [[[r i] ch]|]; [|done]. cbn [mbind option_bind].
    destruct (negb (r =? 0)); [|done]. destruct (ch !! lcore_id) as [k|]; [|done].
    cbn [mbind option_bind]. unfold dchain_tm_impl_activate_index.
    by destruct (dchain_locks_impl_activate_index _ _) as [[? ?]|].
  - done.
  - rewrite <- tm_expire_eq. by destruct (dchain_tm_expire_one_index _ _ _ _ _) as [[[r ch] i]|].
  - done.
Qed.

End equivalence.

(** Calls as transactions of the enabled cores. *)
Abbreviation tm_call := (nat * lop)%type.

Fixpoint tm_run (lcores : list nat) (calls : list tm_call) (chain : DoubleChainTM)
    : option (list (Z * bool * Z) * DoubleChainTM) :=
  match calls with
  | [] => Some ([], chain)
  | (c, op) :: calls' =>
      '(r, chain) ← tm_exec lcores c op chain;
      '(rs, chain) ← tm_run lcores calls' chain;
      Some (r :: rs, chain)
  end.

Definition as_write (call : tm_call) : lcall := (call.1, true, call.2).

Lemma tm_run_eq lcores range calls : NoDup lcores → ∀ chain now p,
  chain_rel lcores chain range now p → 0 ≤ now → calls_ok lcores range now (as_write <$> calls) →
  tm_run lcores calls chain = lop_run lcores (as_write <$> calls) chain.
Proof.
  intros Hnd. induction calls as [|[c op] calls IH]; intros chain now p HC H0 Hok; [done|].
  destruct Hok as (Hc & Hop & Hok). cbn [fst snd] in *. cbn [fmap list_fmap tm_run lop_run as_write fst snd].
  rewrite (tm_exec_eq lcores c Hc chain range now p HC op).
  destruct (lop_exec_spec lcores Hnd c Hc chain range now p HC true op Hop H0)
    as (r & chain1 & p1 & -> & Hs & HC1). cbn [mbind option_bind].
  rewrite (IH chain1 (lop_now now op) p1); [done|done| |done].
  destruct Hop as [Hn _]. simpl in *. lia.
Qed.

(** The allocator for transactions is the same pool of indexes: from its allocation on, every
    sequence of transactions of the enabled cores runs without an access out of bounds and
    without a failed assertion, and does what the allocator with locks does in write mode. *)
Theorem dchain_tm_refines_pool lcores max range out μ calls :
  0 < range → NoDup lcores → (∀ c, c ∈ lcores → (c < max)%nat) → mem_ok μ →
  calls_ok lcores range 0 (as_write <$> calls) →
  ∃ r out' o μ', dchain_tm_allocate lcores max range out μ = Some ((r, out', o), μ') ∧
    match o with
    | None => r = 0 ∧ out' = out
    | Some chain => r = 1 ∧ ∃ rs chain' p', tm_run lcores calls chain = Some (rs, chain') ∧
        lop_run lcores (as_write <$> calls) chain = Some (rs, chain') ∧
        pool_run (as_write <$> calls) (pool_init range) rs p'
    end.
Proof.
  intros Hr Hnd Hmax Hok Hcalls.
  destruct (chain_allocate_spec 64 64 lcores max range out μ Hr Hnd Hmax Hok)
    as (r & out' & o & μ' & Ha & Hres).
  exists r, out', o, μ'. split; [done|]. destruct o as [chain|]; [|done].
  destruct Hres as [-> HC]. split; [done|].
  rewrite (tm_run_eq lcores range calls Hnd chain 0 _ HC) by done.
  destruct (lop_run_spec lcores range (as_write <$> calls) Hnd chain 0 _ HC)
    as (rs & chain' & p' & Hrun & Hp & _); [lia|done|]. by exists rs, chain', p'.
Qed.
