(* ===== verification/LibLocks.v ===== *)
(** * map-locks.c, vector-locks.c, double-map-locks.c, cht-locks.c, expirator-locks.c

    The containers for programs that process packets under the read and write
    locks of locks.c, and the expiration loops over them, with the loops of
    expirator-tm.c.  Reads are those of the verified containers; a write in read
    mode raises the flag [write_attempt] of the core and does nothing. *)
From stdpp Require Import base list gmap numbers sets.
From Stdlib Require Import ZArith Lia.
From S2P Require Import Prelude.
From S2P Require Import Memory.
From S2P Require Import MapImpl.
From S2P Require Import Map.
From S2P Require Import Vector.
From S2P Require Import DChainImpl.
From S2P Require Import DChain.
From S2P Require Import Emap.
From S2P Require Import DoubleMap.
From S2P Require Import Cht.
From S2P Require Import DChainLocks.
From S2P Require Import DChainTm.

(** ** map-locks.c *)

Abbreviation MapLocks := Map.

Section map_locks.
Context {K : Type} `{KeyOps K}.
Variable pow2 : bool.

Definition map_locks_allocate : Z → Z → M (Z * Z * option MapLocks) := map_allocate pow2.

Definition map_locks_get : heap K → MapLocks → Z → Z → option (Z * Z) := map_get pow2.

(** Returns the flag [write_attempt] and the map. *)
Definition map_locks_put (write_state write_attempt : bool) (h : heap K) (map : MapLocks)
    (key value : Z) : option (bool * MapLocks) :=
  if negb write_state then Some (true, map) else
  map ← map_put pow2 h map key value; Some (write_attempt, map).

(** Returns the flag, the map and [*trash]. *)
Definition map_locks_erase (write_state write_attempt : bool) (h : heap K) (map : MapLocks)
    (key trash : Z) : option (bool * MapLocks * Z) :=
  if negb write_state then Some (true, map, trash) else
  '(map, trash) ← map_erase pow2 h map key trash; Some (write_attempt, map, trash).

Definition map_locks_size : MapLocks → Z := map_size.

End map_locks.

(** ** vector-locks.c *)

Abbreviation VectorLocks := Vector.

Definition vector_locks_allocate {T} : Z → Z → (Z → T) → Z → M (Z * Z * option (VectorLocks T)) :=
  vector_allocate.

Definition vector_locks_borrow {T} : VectorLocks T → Z → option Z := vector_borrow.

Definition vector_locks_return {T} : VectorLocks T → Z → Z → VectorLocks T := vector_return.

(** ** double-map-locks.c *)

Abbreviation DoubleMapLocks := DoubleMap.

Section dmap_locks.
Context {V K1 K2 : Type} `{DMapOps V K1 K2} `{KeyOps K1} `{KeyOps K2}.
Variable pow2 : bool.

Definition dmap_locks_allocate (fresh : Z → V)
    : Z → Z → Z → Z → M (Z * Z * option (DoubleMapLocks V)) := dmap_allocate pow2 fresh.

Definition dmap_locks_get_a : heap K1 → DoubleMapLocks V → Z → Z → option (Z * Z) := dmap_get_a pow2.

Definition dmap_locks_get_b : heap K2 → DoubleMapLocks V → Z → Z → option (Z * Z) := dmap_get_b pow2.

(** Returns the result, the flag and the map. *)
Definition dmap_locks_put (write_state write_attempt : bool) (map : DoubleMapLocks V) (value : V)
    (index : Z) : option (Z * bool * DoubleMapLocks V) :=
  if negb write_state then Some (1, true, map) else
  '(r, map) ← dmap_put pow2 map value index; Some (r, write_attempt, map).

Definition dmap_locks_get_value : DoubleMapLocks V → Z → option V := dmap_get_value.

Definition dmap_locks_erase (write_state write_attempt : bool) (map : DoubleMapLocks V) (index : Z)
    : option (Z * bool * DoubleMapLocks V) :=
  if negb write_state then Some (1, true, map) else
  '(r, map) ← dmap_erase pow2 map index; Some (r, write_attempt, map).

Definition dmap_locks_size : DoubleMapLocks V → Z := dmap_size.

End dmap_locks.

(** ** cht-locks.c *)

Definition cht_locks_fill_cht : VectorLocks Z → Z → Z → M (Z * VectorLocks Z) := cht_fill_cht.

(** Returns the result and [*chosen_backend]. *)
Definition cht_locks_find_preferred_available_backend (lcore_id : nat) (hash : Z)
    (cht : VectorLocks Z) (active_backends : DoubleChainLocks)
    (cht_height backend_capacity chosen_backend : Z) : option (Z * Z) :=
  start ← loop hash cht_height;
  o ← for_u32 (S := unit) 0 backend_capacity (λ i _,
        let candidate_idx := u64 (u64 (start * backend_capacity) + i) in
        p ← vector_locks_borrow cht (s32 candidate_idx);
        candidate ← deref cht p;
        allocated ← dchain_locks_is_index_allocated lcore_id active_backends (s32 candidate);
        if negb (allocated =? 0) then Some (Return (1, s32 candidate))
        else Some (Continue tt)) tt;
  match o with
  | Return r => Some r
  | Continue _ => Some (0, chosen_backend)
  end.

(** cht-tm.c *)
Definition cht_tm_fill_cht : Vector Z → Z → Z → M (Z * Vector Z) := cht_fill_cht.

Definition cht_tm_find_preferred_available_backend (lcore_id : nat) (hash : Z) (cht : Vector Z)
    (active_backends : DoubleChainTM) (cht_height backend_capacity chosen_backend : Z)
    : option (Z * Z) :=
  start ← loop hash cht_height;
  o ← for_u32 (S := unit) 0 backend_capacity (λ i _,
        let candidate_idx := u64 (u64 (start * backend_capacity) + i) in
        p ← vector_borrow cht (s32 candidate_idx);
        candidate ← deref cht p;
        allocated ← dchain_tm_is_index_allocated lcore_id active_backends (s32 candidate);
        if negb (allocated =? 0) then Some (Return (1, s32 candidate))
        else Some (Continue tt)) tt;
  match o with
  | Return r => Some r
  | Continue _ => Some (0, chosen_backend)
  end.

(** ** expirator-locks.c

    The loops take the number of iterations they may use: they need not end. *)

Section expirator.
Variable lcores : list nat.
Variable lcore_id : nat.
Variable write_state : bool.
Variable pow2 : bool.

Section double_map.
Context {V K1 K2 : Type} `{DMapOps V K1 K2} `{KeyOps K1} `{KeyOps K2}.

(** Returns the number of items, the flag, the chain and the map. *)
Definition expire_items_locks (fuel : nat) (write_attempt : bool) (chain : DoubleChainLocks)
    (map : DoubleMapLocks V) (time : Z) : option (Z * bool * DoubleChainLocks * DoubleMapLocks V) :=
  iterate fuel (λ '(count, index, write_attempt, chain, map),
    '(more, write_attempt, chain, index) ←
      dchain_locks_expire_one_index lcores lcore_id write_state write_attempt chain index time;
    if more =? 0 then Some (Return (count, write_attempt, chain, map)) else
    if negb write_state then Some (Return (1, true, chain, map)) else
    '(_, write_attempt, map) ← dmap_locks_erase pow2 write_state write_attempt map index;
    count ← int_chk (count + 1);
    Some (Continue (count, index, write_attempt, chain, map)))
    (0, -1, write_attempt, chain, map).

(** expirator-tm.c *)
Definition expire_items_tm (fuel : nat) (chain : DoubleChainTM) (map : DoubleMap V) (time : Z)
    : option (Z * DoubleChainTM * DoubleMap V) :=
  iterate fuel (λ '(count, index, chain, map),
    '(more, chain, index) ← dchain_tm_expire_one_index lcores lcore_id chain index time;
    if more =? 0 then Some (Return (count, chain, map)) else
    '(_, map) ← dmap_erase pow2 map index;
    count ← int_chk (count + 1);
    Some (Continue (count, index, chain, map)))
    (0, -1, chain, map).

End double_map.

Section single_map.
Context {K : Type} `{KeyOps K}.

Definition expire_items_single_map_locks (fuel : nat) (write_attempt : bool)
    (chain : DoubleChainLocks) (vector : VectorLocks K) (map : MapLocks) (time : Z)
    : option (Z * bool * DoubleChainLocks * MapLocks) :=
  iterate fuel (λ '(count, index, write_attempt, chain, map),
    '(more, write_attempt, chain, index) ←
      dchain_locks_expire_one_index lcores lcore_id write_state write_attempt chain index time;
    if more =? 0 then Some (Return (count, write_attempt, chain, map)) else
    if negb write_state then Some (Return (1, true, chain, map)) else
    key ← vector_locks_borrow vector index;
    '(write_attempt, map, key) ←
      map_locks_erase pow2 write_state write_attempt (deref vector) map key key;
    count ← int_chk (count + 1);
    Some (Continue (count, index, write_attempt, chain, map)))
    (0, -1, write_attempt, chain, map).

(** This one does not look at the mode itself. *)
Definition expire_items_single_map_offseted_locks (fuel : nat) (write_attempt : bool)
    (chain : DoubleChainLocks) (vector : VectorLocks K) (map : MapLocks) (time offset : Z)
    : option (Z * bool * DoubleChainLocks * MapLocks) :=
  if offset <? 0 then None else
  iterate fuel (λ '(count, index, write_attempt, chain, map),
    '(more, write_attempt, chain, index) ←
      dchain_locks_expire_one_index lcores lcore_id write_state write_attempt chain index time;
    if more =? 0 then Some (Return (count, write_attempt, chain, map)) else
    off ← int_chk (index + offset);
    key ← vector_locks_borrow vector off;
    '(write_attempt, map, key) ←
      map_locks_erase pow2 write_state write_attempt (deref vector) map key key;
    count ← int_chk (count + 1);
    Some (Continue (count, index, write_attempt, chain, map)))
    (0, -1, write_attempt, chain, map).

(** The loop erases the keys from [start] up to [n_elems], not [n_elems] of them, and then
    ends without a result.  Returns the result, the flag and the map. *)
Definition expire_items_single_map_iteratively_locks (write_attempt : bool)
    (vector : VectorLocks K) (map : MapLocks) (start n_elems : Z)
    : option (option Z * bool * MapLocks) :=
  if negb (n_elems =? 0) && negb write_state then Some (Some 1, true, map) else
  if (start <? 0) || (n_elems <? 0) then None else
  '(write_attempt, map) ← for_each start n_elems (λ i '(write_attempt, map),
    key ← vector_locks_borrow vector i;
    '(write_attempt, map, key) ←
      map_locks_erase pow2 write_state write_attempt (deref vector) map key key;
    Some (write_attempt, map)) (write_attempt, map);
  Some (None, write_attempt, map).

(** expirator-tm.c *)
Definition expire_items_single_map_tm (fuel : nat) (chain : DoubleChainTM) (vector : Vector K)
    (map : Map) (time : Z) : option (Z * DoubleChainTM * Map) :=
  iterate fuel (λ '(count, index, chain, map),
    '(more, chain, index) ← dchain_tm_expire_one_index lcores lcore_id chain index time;
    if more =? 0 then Some (Return (count, chain, map)) else
    key ← vector_borrow vector index;
    '(map, key) ← map_erase pow2 (deref vector) map key key;
    count ← int_chk (count + 1);
    Some (Continue (count, index, chain, map)))
    (0, -1, chain, map).

Definition expire_items_single_map_offseted_tm (fuel : nat) (chain : DoubleChainTM)
    (vector : Vector K) (map : Map) (time offset : Z) : option (Z * DoubleChainTM * Map) :=
  if offset <? 0 then None else
  iterate fuel (λ '(count, index, chain, map),
    '(more, chain, index) ← dchain_tm_expire_one_index lcores lcore_id chain index time;
    if more =? 0 then Some (Return (count, chain, map)) else
    off ← int_chk (index + offset);
    key ← vector_borrow vector off;
    '(map, key) ← map_erase pow2 (deref vector) map key key;
    count ← int_chk (count + 1);
    Some (Continue (count, index, chain, map)))
    (0, -1, chain, map).

End single_map.

End expirator.

(** ** Speculation

    A program runs in read mode first and again in write mode when it has raised
    its flag.  The calls of one packet: *)

Inductive lib_call (K : Type) :=
  | CAllocate (index_out time : Z)
  | CRejuvenate (index time : Z)
  | CIsAllocated (index : Z)
  | CExpire (fuel : nat) (vector : VectorLocks K) (time : Z)
  | CGet (h : heap K) (key value_out : Z)
  | CPut (h : heap K) (key value : Z)
  | CErase (h : heap K) (key trash : Z).
Arguments CAllocate {K} _ _.
Arguments CRejuvenate {K} _ _.
Arguments CIsAllocated {K} _.
Arguments CExpire {K} _ _ _.
Arguments CGet {K} _ _ _.
Arguments CPut {K} _ _ _.
Arguments CErase {K} _ _ _.

Section speculation.
Context {K : Type} `{KeyOps K}.
Variable pow2 : bool.
Variable lcores : list nat.
Variable lcore_id : nat.

(** The outputs of the call, the flag, the chain and the map. *)
Definition lib_exec (ws wa : bool) (call : lib_call K) (chain : DoubleChainLocks) (map : MapLocks)
    : option (list Z * bool * DoubleChainLocks * MapLocks) :=
  match call with
  | CAllocate idx t =>
      '(r, wa, chain, i) ← dchain_locks_allocate_new_index lcores lcore_id ws wa chain idx t;
      Some ([r; i], wa, chain, map)
  | CRejuvenate i t =>
      '(r, chain) ← dchain_locks_rejuvenate_index lcore_id chain i t; Some ([r], wa, chain, map)
  | CIsAllocated i =>
      r ← dchain_locks_is_index_allocated lcore_id chain i; Some ([r], wa, chain, map)
  | CExpire fuel vector t =>
      '(r, wa, chain, map) ←
        expire_items_single_map_locks lcores lcore_id ws pow2 fuel wa chain vector map t;
      Some ([r], wa, chain, map)
  | CGet h key v => '(r, v) ← map_locks_get pow2 h map key v; Some ([r; v], wa, chain, map)
  | CPut h key v => '(wa, map) ← map_locks_put pow2 ws wa h map key v; Some ([], wa, chain, map)
  | CErase h key trash =>
      '(wa, map, trash) ← map_locks_erase pow2 ws wa h map key trash; Some ([trash], wa, chain, map)
  end.

Fixpoint lib_run (ws wa : bool) (calls : list (lib_call K)) (chain : DoubleChainLocks) (map : MapLocks)
    : option (list (list Z) * bool * DoubleChainLocks * MapLocks) :=
  match calls with
  | [] => Some ([], wa, chain, map)
  | call :: calls' =>
      '(out, wa, chain, map) ← lib_exec ws wa call chain map;
      '(outs, wa, chain, map) ← lib_run ws wa calls' chain map;
      Some (out :: outs, wa, chain, map)
  end.

Lemma expire_one_read wa chain idx t r wa' chain' i :
  dchain_locks_expire_one_index lcores lcore_id false wa chain idx t = Some (r, wa', chain', i) →
  chain' = chain ∧
  (r = 1 ∧ wa' = true ∨ r = 0 ∧ wa' = wa ∧
     dchain_locks_expire_one_index lcores lcore_id true wa chain idx t = Some (0, wa, chain, i)).
Proof.
  unfold dchain_locks_expire_one_index. destruct (chain !! lcore_id) as [k|]; [|done].
  cbn [mbind option_bind negb].
  destruct (dchain_locks_impl_get_oldest_index _ _) as [[h j]|]; [|done]. cbn [mbind option_bind].
  destruct (h =? 0); [intros [= <- <- <- <-]; auto|].
  destruct (rd (timestamps k) j) as [u|]; [|done]. cbn [mbind option_bind].
  destruct (_ && _); intros [= <- <- <- <-]; auto.
Qed.

(** In read mode the loop of expiration stops at its first test. *)
Lemma expire_read wa fuel chain v map t res :
  expire_items_single_map_locks lcores lcore_id false pow2 fuel wa chain v map t = Some res →
  res = (1, true, chain, map) ∨
  res = (0, wa, chain, map) ∧
    expire_items_single_map_locks lcores lcore_id true pow2 fuel wa chain v map t = Some res.
Proof.
  unfold expire_items_single_map_locks. destruct fuel as [|fuel]; [done|]. cbn [iterate].
  destruct (dchain_locks_expire_one_index _ _ false _ _ _ _) as [[[[r wa'] chain'] i]|] eqn:E; [|done].
  apply expire_one_read in E as (-> & [[-> ->]|(-> & -> & E)]); cbn [mbind option_bind Z.eqb negb].
  - intros [= <-]. by left.
  - intros [= <-]. right. rewrite E. done.
Qed.

Lemma lib_exec_read wa call chain map out wa' chain' map' :
  lib_exec false wa call chain map = Some (out, wa', chain', map') →
  map' = map ∧ (wa = true → wa' = true) ∧
    (wa' = false → lib_exec true wa call chain map = Some (out, wa', chain', map')).
Proof.
  destruct call as [idx t|i t|i|fuel v t|h key v|h key v|h key tr]; cbn [lib_exec].
  - intros [= <- <- <- <-]. done.
  - destruct (dchain_locks_rejuvenate_index _ _ _ _) as [[r ch]|]; [|done].
    intros [= <- <- <- <-]. done.
  - destruct (dchain_locks_is_index_allocated _ _ _) as [r|]; [|done]. intros [= <- <- <- <-]. done.
  - destruct (expire_items_single_map_locks _ _ _ _ _ _ _ _ _ _) as [res|] eqn:E; [|done].
    apply expire_read in E as [->|[-> E]]; intros [= <- <- <- <-]; [done|]. by rewrite E.
  - destruct (map_locks_get _ _ _ _ _) as [[r w]|]; [|done]. intros [= <- <- <- <-]. done.
  - intros [= <- <- <- <-]. done.
  - intros [= <- <- <- <-]. done.
Qed.

Lemma lib_run_read calls : ∀ wa chain map outs wa' chain' map',
  lib_run false wa calls chain map = Some (outs, wa', chain', map') →
  map' = map ∧ (wa = true → wa' = true) ∧
    (wa' = false → lib_run true wa calls chain map = Some (outs, wa', chain', map')).
Proof.
  induction calls as [|call calls IH]; intros wa chain map outs wa' chain' map'; cbn [lib_run].
  { intros [= <- <- <- <-]. done. }
  destruct (lib_exec false wa call chain map) as [[[[out wa1] chain1] map1]|] eqn:E; [|done].
  apply lib_exec_read in E as (-> & Hup & Hw). cbn [mbind option_bind].
  destruct (lib_run false wa1 calls chain1 map) as [[[[outs' wa2] chain2] map2]|] eqn:E; [|done].
  apply IH in E as (-> & Hup' & Hw'). intros [= <- <- <- <-]. split_and!; [done|auto|].
  intros ->. destruct wa1; [by specialize (Hup' eq_refl)|]. rewrite Hw by done.
  cbn [mbind option_bind]. by rewrite Hw'.
Qed.

End speculation.

(** C13: a packet processed in read mode is processed as in write mode.  Whatever calls a program
    makes for a packet (allocate, rejuvenate, test, expire, look up, insert, erase), when the
    run in read mode ends without the flag [write_attempt], every output and the state it leaves
    are those of the run in write mode; and whether or not the flag is raised, the run in read
    mode leaves the map as it was. *)
Theorem read_mode_is_write_mode {K} `{KeyOps K} (pow2 : bool) lcores lcore_id calls chain map
    outs wa chain' map' :
  lib_run pow2 lcores lcore_id false false calls chain map = Some (outs, wa, chain', map') →
  map' = map ∧
  (wa = false →
   lib_run pow2 lcores lcore_id true false calls chain map = Some (outs, false, chain', map')).
Proof.
  intros Hrun. apply lib_run_read in Hrun as (-> & _ & Hw). split; [done|]. by intros ->; apply Hw.
Qed.

(** ** Expiration of an index that another core still uses *)

(** A loop that cannot leave a set of states. *)
Lemma iterate_never {S R} (I : S → Prop) (step : S → option (outcome S R)) :
  (∀ s, I s → step s = None ∨ ∃ s', step s = Some (Continue s') ∧ I s') →
  ∀ fuel s, I s → iterate fuel step s = None.
Proof.
  intros Hstep fuel. induction fuel as [|fuel IH]; intros s HI; [done|]. cbn [iterate].
  destruct (Hstep s HI) as [->|(s' & -> & HI')]; [done|]. cbn [mbind option_bind]. by apply IH.
Qed.

(** The chains that calls of the cores can produce. *)
Definition reachable_chain (lcores : list nat) (chain : DoubleChainLocks) : Prop :=
  ∃ max range out μ μ' out' chain0 calls rs,
    0 < range ∧ NoDup lcores ∧ (∀ c, c ∈ lcores → (c < max)%nat) ∧ mem_ok μ ∧
    dchain_locks_allocate lcores max range out μ = Some ((1, out', Some chain0), μ') ∧
    calls_ok lcores range 0 calls ∧ lop_run lcores calls chain0 = Some (rs, chain).

Lemma reachable_rel lcores chain : reachable_chain lcores chain →
  NoDup lcores ∧ ∃ range now p, chain_rel lcores chain range now p.
Proof.
  intros (max & range & out & μ & μ' & out' & chain0 & calls & rs & Hr & Hnd & Hmax & Hok & Ha & Hc & Hrun).
  split; [done|].
  destruct (chain_allocate_spec 8 8 lcores max range out μ Hr Hnd Hmax Hok)
    as (r & o & ch & μ2 & Ha' & Hres).
  unfold dchain_locks_allocate in Ha. rewrite Ha in Ha'. simplify_eq. destruct Hres as [_ HC].
  destruct (lop_run_spec lcores range calls Hnd chain0 0 _ HC) as (rs' & chain' & p' & Hrun' & _ & now' & HC');
    [lia|done|]. rewrite Hrun in Hrun'. simplify_eq. eauto.
Qed.

(** The oldest index of this core is old here and was used by another core since [time]. *)
Definition used_elsewhere (lcores : list nat) (lcore_id : nat) (chain : DoubleChainLocks)
    (time i : Z) : Prop :=
  ∃ k t u, chain !! lcore_id = Some k ∧
    dchain_locks_impl_get_oldest_index (active_cells k) (-1) = Some (1, i) ∧
    rd (timestamps k) i = Some t ∧ t < time ∧ most_recent lcores chain i = Some u ∧ time ≤ u.

Section stuck.
Context {K : Type} `{KeyOps K}.
Context (pow2 : bool) (lcores : list nat) (lcores_NoDup : NoDup lcores).
Context (lcore_id : nat) (lcore_in : lcore_id ∈ lcores) (range now time i : Z) (p : pool).

Definition stuck (chain : DoubleChainLocks) : Prop :=
  chain_rel lcores chain range now p ∧
  ∃ k al act t u, chain !! lcore_id = Some k ∧ core_ok k range (p_frees p) al (i :: act) ∧
    rd (timestamps k) i = Some t ∧ t < time ∧ p_uses p !! i = Some u ∧ time ≤ u.

Lemma used_elsewhere_stuck chain :
  chain_rel lcores chain range now p → used_elsewhere lcores lcore_id chain time i → stuck chain.
Proof.
  intros HC (k & t & u & Hk & Ho & Ht & Hlt & Hm & Hu). split; [done|].
  destruct (core_here lcores lcore_id lcore_in chain range now p HC) as (k' & al & act & Hk' & HK).
  simplify_eq. rewrite (oldest_active_spec _ _ _ (ck_active _ _ _ _ _ HK)) in Ho.
  destruct act as [|j act]; [done|]. cbn [fmap list_fmap] in Ho. injection Ho as Hj.
  assert (j = i) as -> by (unfold shift in Hj; unfold_heads; lia).
  assert (i ∈ al) as Hi by (apply (ck_used _ _ _ _ _ HK); by left).
  assert (is_Some (p_uses p !! i)) as [u' Hu'].
  { by eapply (allocated_here lcores lcores_NoDup lcore_id lcore_in chain range now p HC lcore_id k). }
  rewrite (most_recent_spec lcores lcores_NoDup lcore_id lcore_in chain range now p HC i u' Hu') in Hm.
  simplify_eq. by exists k, al, act, t, u.
Qed.

(** Expiration keeps the index, says it has freed it, and will find it again. *)
Lemma stuck_expire_one chain idx : stuck chain →
  ∃ chain', dchain_locks_expire_one_index lcores lcore_id true false chain idx time =
      Some (1, false, chain', i) ∧ stuck chain'.
Proof.
  intros (HC & k & al & act & t & u & Hk & HK & Ht & Hlt & Hu & Hge).
  destruct (expire_old_spec lcores lcores_NoDup lcore_id lcore_in chain range now p HC
              k al i act t idx time Hk HK Ht Hlt) as (u' & Hu' & chain' & Hx & Hres).
  simplify_eq. destruct (decide (u < time)); [lia|]. destruct Hres as (HC' & cs & ->).
  eexists. split; [exact Hx|]. split; [done|].
  destruct (core_here lcores lcore_id lcore_in _ range now p HC') as (k' & al' & act' & Hk' & HK').
  rewrite list_lookup_insert_eq in Hk' by (by eapply lookup_lt_Some). simplify_eq.
  pose proof (oldest_active_spec _ _ _ (ck_active _ _ _ _ _ HK') 0) as Ho.
  cbn [active_cells set_cells] in Ho.
  rewrite (oldest_active_spec _ _ _ (ck_active _ _ _ _ _ HK)) in Ho.
  destruct act' as [|j act']; [done|]. cbn [fmap list_fmap] in Ho. injection Ho as Hj.
  assert (j = i) as -> by (unfold shift in Hj; lia).
  exists (set_cells k cs), al', act', t, u.
  rewrite list_lookup_insert_eq by (by eapply lookup_lt_Some). done.
Qed.

End stuck.

(** The loops of expiration do not return when the oldest index of the core is old for this core
    but another core has used it since [time].  [dchain_locks_expire_one_index] answers 1 without
    freeing the index, leaves the list of active indexes and the timestamps of the core as they
    are, and so finds the same index in every iteration: in write mode, from every reachable
    chain, no number of iterations lets [expire_items_single_map_locks] or [expire_items_locks]
    return, with any map. *)
Theorem expiration_never_returns {K V K1 K2} `{KeyOps K} `{DMapOps V K1 K2} `{KeyOps K1} `{KeyOps K2}
    (pow2 : bool) lcores lcore_id chain time i :
  reachable_chain lcores chain → lcore_id ∈ lcores → used_elsewhere lcores lcore_id chain time i →
  (∀ fuel (vector : VectorLocks K) map,
     expire_items_single_map_locks lcores lcore_id true pow2 fuel false chain vector map time = None) ∧
  (∀ fuel (map : DoubleMapLocks V),
     expire_items_locks lcores lcore_id true pow2 fuel false chain map time = None).
Proof.
  intros Hreach Hin Hused. apply reachable_rel in Hreach as (Hnd & range & now & p & HC).
  pose proof (used_elsewhere_stuck lcores Hnd lcore_id Hin range now time i p chain HC Hused) as Hst.
  split.
  - intros fuel vector map. unfold expire_items_single_map_locks.
    apply (iterate_never (λ '(_, _, wa, ch, _), wa = false ∧ stuck lcores lcore_id range now time i p ch));
      [|done]. intros [[[[count idx] wa] ch] m] [-> Hs].
    destruct (stuck_expire_one lcores Hnd lcore_id Hin range now time i p ch idx Hs) as (ch' & -> & Hs').
    cbn [mbind option_bind Z.eqb negb]. destruct (vector_locks_borrow vector i) as [key|]; [|by left].
    cbn [mbind option_bind]. unfold map_locks_erase. cbn [negb].
    destruct (map_erase _ _ _ _ _) as [[m' key']|]; [|by left]. cbn [mbind option_bind].
    destruct (int_chk (count + 1)) as [count'|]; [|by left]. right. eexists. split; [done|]. done.
  - intros fuel map. unfold expire_items_locks.
    apply (iterate_never (λ '(_, _, wa, ch, _), wa = false ∧ stuck lcores lcore_id range now time i p ch));
      [|done]. intros [[[[count idx] wa] ch] m] [-> Hs].
    destruct (stuck_expire_one lcores Hnd lcore_id Hin range now time i p ch idx Hs) as (ch' & -> & Hs').
    cbn [mbind option_bind Z.eqb negb]. unfold dmap_locks_erase. cbn [negb].
    destruct (dmap_erase _ _ _) as [[r m']|]; [|by left]. cbn [mbind option_bind].
    destruct (int_chk (count + 1)) as [count'|]; [|by left]. right. eexists. split; [done|]. done.
Qed.

(** In read mode [expire_items_single_map_offseted_locks] does not return when there is anything
    to expire: the chain answers 1 without a change, and this loop does not test the mode. *)
Theorem offseted_read_never_returns {K} `{KeyOps K} (pow2 : bool) lcores lcore_id chain time offset
    k t i :
  chain !! lcore_id = Some k →
  (∀ idx, dchain_locks_impl_get_oldest_index (active_cells k) idx = Some (1, i)) →
  rd (timestamps k) i = Some t → -1 < t < time →
  ∀ fuel wa (vector : VectorLocks K) map,
    expire_items_single_map_offseted_locks lcores lcore_id false pow2 fuel wa chain vector map time
      offset = None.
Proof.
  intros Hk Ho Ht Hr fuel wa vector map. unfold expire_items_single_map_offseted_locks.
  destruct (offset <? 0); [done|].
  apply (iterate_never (λ '(_, _, _, ch, _), ch = chain)); [|done].
  intros [[[[count idx] wa'] ch] m] ->. unfold dchain_locks_expire_one_index. rewrite Hk.
  cbn [mbind option_bind]. rewrite Ho. cbn [mbind option_bind Z.eqb]. rewrite Ht. cbn [mbind option_bind].
  destruct (Z.ltb_spec (-1) t); [|lia]. destruct (Z.ltb_spec t time); [|lia].
  cbn [andb negb mbind option_bind Z.eqb].
  destruct (int_chk (i + offset)) as [off|]; [|by left]. cbn [mbind option_bind].
  destruct (vector_locks_borrow vector off) as [key|]; [|by left]. cbn [mbind option_bind map_locks_erase negb].
  destruct (int_chk (count + 1)) as [count'|]; [|by left]. right. eexists. split; [done|]. done.
Qed.

(** ** Demonstration: two flows, the first of which moves to core 3 *)

Definition demo_flow_calls : list lcall :=
  [(0%nat, true, LAllocate 0 10); (0%nat, true, LAllocate 0 20); (3%nat, false, LRejuvenate 0 30)].

Definition demo_flow_chain : DoubleChainLocks := Eval vm_compute in
  match dchain_locks_allocate [0%nat; 3%nat] 4 3 0 demo_locks_mem with
  | Some ((_, _, Some chain), _) =>
      default [] (snd <$> lop_run [0%nat; 3%nat] demo_flow_calls chain)
  | _ => []
  end.

Lemma demo_flow_reachable : reachable_chain [0%nat; 3%nat] demo_flow_chain.
Proof.
  eexists 4%nat, 3, 0, demo_locks_mem, _, _, _, demo_flow_calls, _. split_and!.
  - lia.
  - by apply (bool_decide_unpack _).
  - intros c Hc. repeat (apply elem_of_cons in Hc as [->|Hc]; [lia|]). by apply not_elem_of_nil in Hc.
  - done.
  - vm_compute. reflexivity.
  - repeat split; simpl; try lia; by apply (bool_decide_unpack _).
  - vm_compute. reflexivity.
Qed.

Lemma read_mode_is_write_mode_witness :
  lib_run (K := Z) false [0%nat; 3%nat] 3 true false
    [CExpire 1 (o_vec demo_two) 15; CGet (with_local (deref (o_vec demo_two)) 999 7) 999 0; CRejuvenate 0 40]
    demo_flow_chain (o_map demo_two) =
  lib_run (K := Z) false [0%nat; 3%nat] 3 false false
    [CExpire 1 (o_vec demo_two) 15; CGet (with_local (deref (o_vec demo_two)) 999 7) 999 0; CRejuvenate 0 40]
    demo_flow_chain (o_map demo_two).
Proof.
  destruct (lib_run (K := Z) false [0%nat; 3%nat] 3 false false
    [CExpire 1 (o_vec demo_two) 15; CGet (with_local (deref (o_vec demo_two)) 999 7) 999 0; CRejuvenate 0 40]
    demo_flow_chain (o_map demo_two)) as [[[[outs wa] ch] m]|] eqn:E.
  - destruct (read_mode_is_write_mode (K := Z) false _ _ _ _ _ _ _ _ _ E) as [-> Hw].
    vm_compute in E. injection E as <- <- <-. by apply Hw.
  - vm_compute in E. discriminate.
Defined.

Lemma expiration_never_returns_witness :
  ∀ fuel, expire_items_single_map_locks [0%nat; 3%nat] 0 true false fuel false demo_flow_chain
            (o_vec demo_two) (o_map demo_two) 15 = None.
Proof.
  intros fuel.
  apply (expiration_never_returns (K := Z) (V := Z * Z) (K1 := Z) (K2 := Z)
           false [0%nat; 3%nat] 0 demo_flow_chain 15 0 demo_flow_reachable).
  - by left.
  - eexists _, 10, 30. split_and!; [reflexivity|vm_compute; reflexivity|vm_compute; reflexivity|lia
      |vm_compute; reflexivity|lia].
Defined.

(** The call reports index 0 as freed; the index is still allocated, its entry is erased from the
    map all the same, and the next call reports index 0 again. *)
Example demo_live_flow_erased :
  (r ← lop_exec [0%nat; 3%nat] 0 true (LExpire (-1) 15) demo_flow_chain;
   let '(out, chain) := r in
   alloc ← dchain_locks_is_index_allocated 3 chain 0;
   key ← vector_locks_borrow (o_vec demo_two) 0;
   '(_, map, _) ← map_locks_erase false true false (deref (o_vec demo_two)) (o_map demo_two) key key;
   '(found, _) ← map_locks_get false (with_local (deref (o_vec demo_two)) 999 7) map 999 0;
   again ← lop_exec [0%nat; 3%nat] 0 true (LExpire 0 15) chain;
   Some (out, alloc, found, again.1)) = Some ((1, false, 0), 1, 0, (1, false, 0)).
Proof. vm_compute. reflexivity. Qed.

(** ** The consistent hash table of several cores *)

(** All cores choose the same backend: whichever core asks, the answer is the same, because the
    cores agree on the allocated indexes. *)
Theorem cht_locks_cores_agree lcores chain c1 c2 hash cht height cap chosen range now p :
  NoDup lcores → chain_rel lcores chain range now p → c1 ∈ lcores → c2 ∈ lcores →
  (∀ j, 0 ≤ j < zlen (Vector.cells cht) → ∃ b, rd (Vector.cells cht) j = Some b ∧ 0 ≤ s32 b < range) →
  cht_locks_find_preferred_available_backend c1 hash cht chain height cap chosen =
  cht_locks_find_preferred_available_backend c2 hash cht chain height cap chosen.
Proof.
  intros Hnd HC H1 H2 Hcells. unfold cht_locks_find_preferred_available_backend.
  destruct (loop hash height) as [start|]; [|done]. cbn [mbind option_bind].
  match goal with |- ?a ≫= _ = ?b ≫= _ => enough (a = b) as -> by done end.
  apply for_u32_ext. intros i []. cbn zeta.
  destruct (vector_locks_borrow cht _) as [ptr|]; [|done]. cbn [mbind option_bind].
  unfold deref. destruct (cell_index cht ptr) as [j|]; [|done]. cbn [mbind option_bind].
  destruct (rd (Vector.cells cht) j) as [b|] eqn:E; [|done]. cbn [mbind option_bind].
  destruct (Hcells j) as (b' & Hb & Hr); [by eapply rd_Some_range|]. simplify_eq.
  rewrite (is_allocated_here lcores Hnd c1 H1 chain range now p HC _ Hr).
  by rewrite (is_allocated_here lcores Hnd c2 H2 chain range now p HC _ Hr).
Qed.
