(* ===== verification/SketchLocks.v ===== *)
(** * sketch-locks.c

    The sketch of the connection limiter for several cores: the containers are
    those with locks, and each core has its own hashes of the key it works on. *)
From stdpp Require Import base list gmap numbers countable sets.
From Stdlib Require Import ZArith Lia.
From S2P Require Import Prelude.
From S2P Require Import Memory.
From S2P Require Import MapImpl.
From S2P Require Import Map.
From S2P Require Import Vector.
From S2P Require Import DChainImpl.
From S2P Require Import DChain.
From S2P Require Import Emap.
From S2P Require Import Ether.
From S2P Require Import Sketch.
From S2P Require Import DChainLocks.
From S2P Require Import LibLocks.

(** struct SketchLocks; [skl_addr] is its address, [skl_internal] is indexed by
    the number of the core. *)
Record SketchLocks := MkSketchLocks {
  skl_addr : Z;
  skl_clients : MapLocks;
  skl_keys : VectorLocks hash;
  skl_buckets : VectorLocks Z;
  skl_allocators : list DoubleChainLocks;
  skl_capacity : Z;
  skl_threshold : Z;
  skl_internal : list internal_data
}.

Definition put_internal (sk : SketchLocks) (c : nat) (d : internal_data) : SketchLocks :=
  MkSketchLocks (skl_addr sk) (skl_clients sk) (skl_keys sk) (skl_buckets sk) (skl_allocators sk)
    (skl_capacity sk) (skl_threshold sk) (<[c := d]> (skl_internal sk)).

Definition put_row (sk : SketchLocks) (m : MapLocks) (ks : VectorLocks hash) (bs : VectorLocks Z)
    (i : Z) (chain : DoubleChainLocks) : option SketchLocks :=
  al ← wr (skl_allocators sk) i chain;
  Some (MkSketchLocks (skl_addr sk) m ks bs al (skl_capacity sk) (skl_threshold sk) (skl_internal sk)).

(** The address of [internal[c].hashes[i]]: the structures of the cores are
    aligned to 64 bytes and fill 128. *)
Definition core_hashes_p (sk : SketchLocks) (c : nat) (i : Z) : Z :=
  skl_addr sk + 128 + 128 * Z.of_nat c + 4 * i.

Definition core_heap (sk : SketchLocks) (c : nat) (i h : Z) : heap hash :=
  with_local (deref (skl_keys sk)) (core_hashes_p sk c i) (MkHash h).

Definition core_offseted (sk : SketchLocks) (index i : Z) : Z :=
  s32 (u32 (index + u32 (skl_capacity sk * i))).

Section sketch_locks.
Context `{Crc32}.
Variable pow2 : bool.
(** The enabled cores and [rte_lcore_id()]. *)
Variable lcores : list nat.
Variable lcore_id : nat.

Fixpoint allocate_core_rows (RTE_MAX_LCORE : nat) (capacity : Z) (n : nat)
    : M (option (list DoubleChainLocks)) :=
  match n with
  | O => mret (Some [])
  | S n' =>
      '(_, _, ch) ← dchain_locks_allocate lcores RTE_MAX_LCORE capacity NULL;
      match ch with
      | Some ch =>
          rest ← allocate_core_rows RTE_MAX_LCORE capacity n';
          mret (cons ch <$> rest)
      | None => mret None
      end
  end.

(** What the memory of the struct holds for the cores from [c] on. *)
Fixpoint junk_internals (a : Z) (n : nat) : M (list internal_data) :=
  match n with
  | O => mret []
  | S n' =>
      hs ← junk_array 4 a SKETCH_HASHES;
      ps ← junk_array 4 (a + 32) SKETCH_HASHES;
      bi ← junk_array 4 (a + 64) SKETCH_HASHES;
      rest ← junk_internals (a + 128) n';
      mret (Internal hs ps bi :: rest)
  end.

Definition sketch_locks_allocate (RTE_MAX_LCORE : nat) (capacity thr sketch_out : Z)
    : M (Z * Z * option SketchLocks) :=
  _ ← lift (c_assert (SKETCH_HASHES <=? SKETCH_SALTS_BANK_SIZE));
  sketch_alloc ← malloc (128 + 128 * Z.of_nat RTE_MAX_LCORE);
  if sketch_alloc =? NULL then mret (0, sketch_out, None) else
  total_sketch_capacity ← lift (find_next_power_of_2_bigger_than (u32 (capacity * SKETCH_HASHES)));
  '(_, _, m) ← map_locks_allocate pow2 total_sketch_capacity NULL;
  match m with None => mret (0, sketch_alloc, None) | Some clients =>
  '(_, _, v) ← vector_locks_allocate 4 total_sketch_capacity (λ _, hash_allocate) NULL;
  match v with None => mret (0, sketch_alloc, None) | Some keys =>
  fresh ← (λ μ, Some (λ p, u32 (junk μ p), μ)) : M (Z → Z);
  '(_, _, b) ← vector_locks_allocate 4 total_sketch_capacity fresh NULL;
  match b with None => mret (0, sketch_alloc, None) | Some buckets =>
  rows ← allocate_core_rows RTE_MAX_LCORE capacity (Z.to_nat SKETCH_HASHES);
  match rows with None => mret (0, sketch_alloc, None) | Some allocators =>
  ds ← junk_internals (sketch_alloc + 128) RTE_MAX_LCORE;
  mret (1, sketch_alloc,
        Some (MkSketchLocks sketch_alloc clients keys buckets allocators capacity thr ds))
  end end end end.

(** [kh] is the hash of the key, the value of [sketch->kh(key)]. *)
Definition sketch_locks_compute_hashes (sk : SketchLocks) (kh : Z) : option SketchLocks :=
  for_each 0 SKETCH_HASHES (λ i sk,
    d ← skl_internal sk !! lcore_id;
    bi ← wr (buckets_indexes d) i (-1);
    ps ← wr (present d) i 0;
    salt ← rd SKETCH_SALTS i;
    let h := crc32si 0 salt in
    let h := crc32si h kh in
    _ ← c_assert (negb (skl_capacity sk =? 0));
    hs ← wr (hashes d) i (h mod skl_capacity sk);
    Some (put_internal sk lcore_id (Internal hs ps bi))) sk.

Definition sketch_locks_refresh (sk : SketchLocks) (now : Z) : option SketchLocks :=
  for_each 0 SKETCH_HASHES (λ i sk,
    d ← skl_internal sk !! lcore_id;
    h ← rd (hashes d) i;
    index ← rd (buckets_indexes d) i;
    '(_, index) ← map_locks_get pow2 (core_heap sk lcore_id i h) (skl_clients sk)
                    (core_hashes_p sk lcore_id i) index;
    bi ← wr (buckets_indexes d) i index;
    let sk := put_internal sk lcore_id (Internal (hashes d) (present d) bi) in
    chain ← rd (skl_allocators sk) i;
    '(_, chain) ← dchain_locks_rejuvenate_index lcore_id chain index now;
    put_row sk (skl_clients sk) (skl_keys sk) (skl_buckets sk) i chain) sk.

(** The body of the loop of [sketch_locks_fetch]; the state is the sketch,
    [bucket_min_set] and [bucket_min]. *)
Definition fetch_core_row (i : Z) (s : SketchLocks * bool * Z) : option (SketchLocks * bool * Z) :=
  let '(sk, bucket_min_set, bucket_min) := s in
  d ← skl_internal sk !! lcore_id;
  h ← rd (hashes d) i;
  index ← rd (buckets_indexes d) i;
  '(found, index) ← map_locks_get pow2 (core_heap sk lcore_id i h) (skl_clients sk)
                      (core_hashes_p sk lcore_id i) index;
  ps ← wr (present d) i found;
  bi ← wr (buckets_indexes d) i index;
  let sk := put_internal sk lcore_id (Internal (hashes d) ps bi) in
  if found =? 0 then Some (sk, bucket_min_set, bucket_min) else
  p ← vector_locks_borrow (skl_buckets sk) (core_offseted sk index i);
  value ← deref (skl_buckets sk) p;
  if negb bucket_min_set || (value <? bucket_min)
  then Some (sk, true, value) else Some (sk, bucket_min_set, bucket_min).

(** Returns the result and the sketch. *)
Definition sketch_locks_fetch (sk : SketchLocks) : option (Z * SketchLocks) :=
  '(sk, bucket_min_set, bucket_min) ← for_each 0 SKETCH_HASHES fetch_core_row (sk, false, 0);
  Some (Z.b2z (bucket_min_set && (skl_threshold sk <? bucket_min)), sk).

(** The body of the loop of [sketch_locks_touch_buckets], in write mode: every
    path returns. *)
Definition touch_core_row (write_attempt : bool) (now i : Z) (sk : SketchLocks)
    : option (outcome SketchLocks (Z * bool * SketchLocks)) :=
  d ← skl_internal sk !! lcore_id;
  h ← rd (hashes d) i;
  '(found, bucket_index) ← map_locks_get pow2 (core_heap sk lcore_id i h) (skl_clients sk)
                             (core_hashes_p sk lcore_id i) (-1);
  chain ← rd (skl_allocators sk) i;
  if found =? 0 then
    '(allocated, write_attempt, chain, bucket_index) ←
      dchain_locks_allocate_new_index lcores lcore_id true write_attempt chain bucket_index now;
    if allocated =? 0 then
      sk ← put_row sk (skl_clients sk) (skl_keys sk) (skl_buckets sk) i chain;
      Some (Return (0, write_attempt, sk))
    else
    let off := core_offseted sk bucket_index i in
    saved_hash ← vector_locks_borrow (skl_keys sk) off;
    saved_bucket ← vector_locks_borrow (skl_buckets sk) off;
    ks ← store (skl_keys sk) saved_hash (MkHash h);
    bs ← store (skl_buckets sk) saved_bucket 0;
    '(write_attempt, m) ← map_locks_put pow2 true write_attempt
        (with_local (deref ks) (core_hashes_p sk lcore_id i) (MkHash h)) (skl_clients sk) saved_hash
        bucket_index;
    sk ← put_row sk m ks bs i chain;
    Some (Return (1, write_attempt, sk))
  else
    '(_, chain) ← dchain_locks_rejuvenate_index lcore_id chain bucket_index now;
    let off := core_offseted sk bucket_index i in
    p ← vector_locks_borrow (skl_buckets sk) off;
    value ← deref (skl_buckets sk) p;
    bs ← store (skl_buckets sk) p (u32 (value + 1));
    sk ← put_row sk (skl_clients sk) (skl_keys sk) bs i chain;
    Some (Return (1, write_attempt, sk)).

(** Returns the result, the flag and the sketch. *)
Definition sketch_locks_touch_buckets (write_state write_attempt : bool) (sk : SketchLocks) (now : Z)
    : option (Z * bool * SketchLocks) :=
  if negb write_state then Some (0, true, sk) else
  o ← for_u32 0 SKETCH_HASHES (touch_core_row write_attempt now) sk;
  match o with
  | Return r => Some r
  | Continue _ => None
  end.

(** The body of the loop of [sketch_locks_expire]: the loop over the expired indexes of a row,
    which takes the number of iterations it may use; leaving it in read mode leaves the function. *)
Definition expire_core_row (fuel : nat) (write_state : bool) (time i : Z) (s : bool * SketchLocks * Z)
    : option (outcome (bool * SketchLocks * Z) (bool * SketchLocks)) :=
  let '(write_attempt, sk, index) := s in
  let offset := s32 (u32 (i * skl_capacity sk)) in
  iterate fuel (λ '(write_attempt, sk, index),
    chain ← rd (skl_allocators sk) i;
    '(expired, write_attempt, chain, index) ←
      dchain_locks_expire_one_index lcores lcore_id write_state write_attempt chain index time;
    if expired =? 0 then
      sk ← put_row sk (skl_clients sk) (skl_keys sk) (skl_buckets sk) i chain;
      Some (Return (Continue (write_attempt, sk, index)))
    else if negb write_state then
      sk ← put_row sk (skl_clients sk) (skl_keys sk) (skl_buckets sk) i chain;
      Some (Return (Return (true, sk)))
    else
    off ← int_chk (index + offset);
    key ← vector_locks_borrow (skl_keys sk) off;
    '(write_attempt, m, key) ←
      map_locks_erase pow2 write_state write_attempt (deref (skl_keys sk)) (skl_clients sk) key key;
    sk ← put_row sk m (skl_keys sk) (skl_buckets sk) i chain;
    Some (Continue (write_attempt, sk, index))) (write_attempt, sk, index).

(** Returns the flag and the sketch. *)
Definition sketch_locks_expire (fuel : nat) (write_state write_attempt : bool) (sk : SketchLocks)
    (time : Z) : option (bool * SketchLocks) :=
  o ← for_u32 0 SKETCH_HASHES (expire_core_row fuel write_state time) (write_attempt, sk, -1);
  Some (match o with Continue (write_attempt, sk, _) => (write_attempt, sk) | Return r => r end).

End sketch_locks.

(** ** Each core works on its own key *)

(** Sketches that differ at most in the hashes of cores other than [c]. *)
Definition with_internal (sk : SketchLocks) (ds : list internal_data) : SketchLocks :=
  MkSketchLocks (skl_addr sk) (skl_clients sk) (skl_keys sk) (skl_buckets sk) (skl_allocators sk)
    (skl_capacity sk) (skl_threshold sk) ds.

Definition agree (c : nat) (sk sk' : SketchLocks) : Prop :=
  ∃ ds, sk' = with_internal sk ds ∧ ds !! c = skl_internal sk !! c.

#[export] Instance agree_equivalence c : Equivalence (agree c).
Proof.
  split.
  - intros []. by eexists.
  - intros sk sk' (ds & -> & Hd). exists (skl_internal sk). by destruct sk.
  - intros sk1 sk2 sk3 (ds & -> & Hd) (ds' & -> & Hd'). exists ds'. by rewrite Hd', <- Hd.
Qed.

Lemma agree_put_same c sk ds d : ds !! c = skl_internal sk !! c → is_Some (ds !! c) →
  agree c (put_internal sk c d) (put_internal (with_internal sk ds) c d).
Proof.
  intros Hd [x Hx]. exists (<[c := d]> ds). split; [done|]. simpl.
  rewrite !list_lookup_insert_eq; [done|..]; apply lookup_lt_is_Some; [rewrite <- Hd|]; by exists x.
Qed.

Lemma agree_put_other c e sk d : c ≠ e → agree c sk (put_internal sk e d).
Proof. intros Hne. eexists. split; [reflexivity|]. by rewrite list_lookup_insert_ne. Qed.

(** Loops on related states. *)
Lemma for_each_rel {S} (R : S → S → Prop) lo hi (body : Z → S → option S) s s' :
  R s s' → (∀ i s s', R s s' → option_Forall2 R (body i s) (body i s')) →
  option_Forall2 R (for_each lo hi body s) (for_each lo hi body s').
Proof.
  intros HR Hb. unfold for_each, for_u32. generalize (Datatypes.S (Z.to_nat (hi - lo))). intros fuel.
  revert lo s s' HR. induction fuel as [|fuel IH]; intros lo s s' HR; cbn [for_loop]; [constructor|].
  destruct (lo <? hi); [|by constructor].
  destruct (Hb lo s s' HR) as [s1 s1' HR1|]; cbn [mbind option_bind]; [by apply IH|constructor].
Qed.

Lemma for_each_keeps {S} (I : S → Prop) lo hi (body : Z → S → option S) s s' :
  (∀ i s s', I s → body i s = Some s' → I s') → I s → for_each lo hi body s = Some s' → I s'.
Proof.
  intros Hb. unfold for_each, for_u32. generalize (Datatypes.S (Z.to_nat (hi - lo))). intros fuel.
  revert lo s. induction fuel as [|fuel IH]; intros lo s HI; cbn [for_loop]; [done|].
  destruct (lo <? hi); [|by intros [= <-]].
  destruct (body lo s) as [s1|] eqn:E; cbn [mbind option_bind]; [|done]. apply IH. by eapply Hb.
Qed.

(** The next step of a computation that is known to succeed. *)
Ltac obind H :=
  match type of H with
  | mbind _ ?e = Some _ => destruct e; cbn [mbind option_bind] in H; [|discriminate H]
  | (let '(_, _) := ?p in _) = Some _ => destruct p
  | (if ?b then _ else _) = Some _ => destruct b
  end.

Section private.
Context `{Crc32}.
Variable pow2 : bool.

(** What a core does on its own: it hashes a key, or reads the counters of its key. *)
Inductive private_op :=
  | PCompute (kh : Z)
  | PFetch.

Definition private_exec (c : nat) (op : private_op) (sk : SketchLocks) : option SketchLocks :=
  match op with
  | PCompute kh => sketch_locks_compute_hashes c sk kh
  | PFetch => snd <$> sketch_locks_fetch pow2 c sk
  end.

Fixpoint private_run (ops : list (nat * private_op)) (sk : SketchLocks) : option SketchLocks :=
  match ops with
  | [] => Some sk
  | (c, op) :: ops' => sk ← private_exec c op sk; private_run ops' sk
  end.

Lemma compute_other c e sk kh sk' : c ≠ e →
  sketch_locks_compute_hashes e sk kh = Some sk' → agree c sk sk'.
Proof.
  intros Hne. apply for_each_keeps; [|reflexivity]. intros i s s' HI Hs.
  repeat obind Hs. injection Hs as <-. etransitivity; [exact HI|by apply agree_put_other].
Qed.

Lemma fetch_other c e sk r sk' : c ≠ e →
  sketch_locks_fetch pow2 e sk = Some (r, sk') → agree c sk sk'.
Proof.
  intros Hne. unfold sketch_locks_fetch.
  destruct (for_each _ _ _ _) as [[[sk1 b] m]|] eqn:E; [|done]. cbn [mbind option_bind].
  intros [= _ <-]. revert E. apply (for_each_keeps (λ '(s, _, _), agree c sk s)); [|reflexivity].
  intros i [[s b'] m'] s' HI Hs. unfold fetch_core_row in Hs.
  assert (∀ d, agree c sk (put_internal s e d)) as Hput.
  { intros d. etransitivity; [exact HI|by apply agree_put_other]. }
  repeat (cbn zeta in Hs; obind Hs); injection Hs as <-; apply Hput.
Qed.

Lemma private_other c ops : Forall (λ op, op.1 ≠ c) ops → ∀ sk sk',
  private_run ops sk = Some sk' → agree c sk sk'.
Proof.
  induction 1 as [|[e op] ops Hne _ IH]; intros sk sk'; cbn [private_run]; [by intros [= <-]|].
  destruct (private_exec e op sk) as [sk1|] eqn:E; [|done]. cbn [mbind option_bind]. intros Hrun.
  transitivity sk1; [|by apply IH]. simpl in Hne. destruct op as [kh|]; simpl in E.
  - by eapply compute_other.
  - apply fmap_Some in E as ([r sk2] & E & ->). by eapply fetch_other.
Qed.

Definition agree_rows (c : nat) (x y : SketchLocks * bool * Z) : Prop :=
  agree c x.1.1 y.1.1 ∧ x.1.2 = y.1.2 ∧ x.2 = y.2.

Lemma fetch_row_agree c i x y : agree_rows c x y →
  option_Forall2 (agree_rows c) (fetch_core_row pow2 c i x) (fetch_core_row pow2 c i y).
Proof.
  destruct x as [[s b] m], y as [[s' b'] m']. intros ((ds & Es & Hd) & Eb & Em).
  cbn [fst snd] in Es, Hd, Eb, Em. subst s' b' m'. unfold fetch_core_row.
  change (skl_internal (with_internal s ds)) with ds. rewrite Hd.
  destruct (skl_internal s !! c) as [d|] eqn:Hc; [|constructor]. cbn [mbind option_bind].
  assert (∀ d b m, agree_rows c (put_internal s c d, b, m)
                     (put_internal (with_internal s ds) c d, b, m)) as Hput.
  { intros d' b' m'. split; [|done]. apply agree_put_same; [by rewrite Hd, Hc|].
    rewrite Hd. by exists d. }
  destruct (rd (hashes d) i) as [h|]; [|constructor]. cbn [mbind option_bind].
  destruct (rd (buckets_indexes d) i) as [ix|]; [|constructor]. cbn [mbind option_bind].
  change (map_locks_get pow2 (core_heap (with_internal s ds) c i h) (skl_clients (with_internal s ds))
    (core_hashes_p (with_internal s ds) c i) ix)
    with (map_locks_get pow2 (core_heap s c i h) (skl_clients s) (core_hashes_p s c i) ix).
  destruct (map_locks_get _ _ _ _ _) as [[found ix']|]; [|constructor]. cbn [mbind option_bind].
  destruct (wr (present d) i found) as [ps|]; [|constructor]. cbn [mbind option_bind].
  destruct (wr (buckets_indexes d) i ix') as [bi|]; [|constructor]. cbn [mbind option_bind]. cbn zeta.
  destruct (found =? 0); [by constructor|].
  change (skl_buckets (put_internal (with_internal s ds) c (Internal (hashes d) ps bi)))
    with (skl_buckets (put_internal s c (Internal (hashes d) ps bi))).
  change (core_offseted (put_internal (with_internal s ds) c (Internal (hashes d) ps bi)) ix' i)
    with (core_offseted (put_internal s c (Internal (hashes d) ps bi)) ix' i).
  destruct (vector_locks_borrow _ _) as [ptr|]; [|constructor]. cbn [mbind option_bind].
  destruct (deref _ _) as [value|]; [|constructor]. cbn [mbind option_bind].
  destruct (_ || _); by constructor.
Qed.

(** A core reads the same from sketches that agree on it. *)
Lemma fetch_agree c sk sk' : agree c sk sk' →
  fst <$> sketch_locks_fetch pow2 c sk = fst <$> sketch_locks_fetch pow2 c sk'.
Proof.
  intros Hag. unfold sketch_locks_fetch.
  assert (option_Forall2 (agree_rows c)
    (for_each 0 SKETCH_HASHES (fetch_core_row pow2 c) (sk, false, 0))
    (for_each 0 SKETCH_HASHES (fetch_core_row pow2 c) (sk', false, 0))) as Hrel.
  { apply for_each_rel; [done|]. intros i x y. apply fetch_row_agree. }
  destruct Hrel as [[[s b] m] [[s' b'] m'] ((ds & Es & _) & Eb & Em)|]; [|done].
  cbn [fst snd] in *. by subst.
Qed.

End private.

(** Hashing and counting of the cores do not disturb each other: after a core has hashed its key,
    whatever other cores hash and read under the read lock, the core reads for its key what it
    would have read at once. *)
Theorem sketch_cores_independent `{Crc32} (pow2 : bool) c kh ops sk sk1 sk2 :
  Forall (λ op, op.1 ≠ c) ops →
  sketch_locks_compute_hashes c sk kh = Some sk1 → private_run pow2 ops sk1 = Some sk2 →
  fst <$> sketch_locks_fetch pow2 c sk2 = fst <$> sketch_locks_fetch pow2 c sk1.
Proof. intros Hops _ Hrun. symmetry. by eapply fetch_agree, private_other. Qed.

(** ** Read mode *)

Section read_mode.
Context `{Crc32}.
Context (pow2 : bool) (lcores : list nat) (lcore_id : nat).

Lemma put_row_same sk i chain :
  rd (skl_allocators sk) i = Some chain →
  put_row sk (skl_clients sk) (skl_keys sk) (skl_buckets sk) i chain = Some sk.
Proof.
  intros Hi. unfold put_row. pose proof (rd_Some_range _ _ _ Hi) as Hr.
  rewrite wr_Some by done. cbn [mbind option_bind]. rewrite rd_lookup in Hi by lia.
  rewrite list_insert_id by done. by destruct sk.
Qed.

Lemma expire_row_read fuel wa sk idx time i o :
  expire_core_row pow2 lcores lcore_id fuel false time i (wa, sk, idx) = Some o →
  o = Return (true, sk) ∨
  ∃ idx', o = Continue (wa, sk, idx') ∧
    expire_core_row pow2 lcores lcore_id fuel true time i (wa, sk, idx) = Some o.
Proof.
  unfold expire_core_row. destruct fuel as [|fuel]; [done|]. cbn [iterate].
  destruct (rd (skl_allocators sk) i) as [chain|] eqn:Hi; [|done]. cbn [mbind option_bind].
  destruct (dchain_locks_expire_one_index _ _ false _ _ _ _) as [[[[r wa'] chain'] j]|] eqn:E; [|done].
  apply expire_one_read in E as (-> & [[-> ->]|(-> & -> & E)]); cbn [mbind option_bind Z.eqb negb].
  - rewrite put_row_same by done. cbn [mbind option_bind]. intros [= <-]. by left.
  - rewrite E, put_row_same by done. cbn [mbind option_bind Z.eqb]. rewrite put_row_same by done.
    cbn [mbind option_bind]. intros [= <-]. right. by exists j.
Qed.

Lemma expire_rows_read fuel time n : ∀ lo hi wa sk idx o,
  for_loop n lo hi (expire_core_row pow2 lcores lcore_id fuel false time) (wa, sk, idx) = Some o →
  o = Return (true, sk) ∨
  ∃ idx', o = Continue (wa, sk, idx') ∧
    for_loop n lo hi (expire_core_row pow2 lcores lcore_id fuel true time) (wa, sk, idx) = Some o.
Proof.
  induction n as [|n IH]; intros lo hi wa sk idx o; cbn [for_loop]; [done|].
  destruct (lo <? hi); [|intros [= <-]; right; by exists idx].
  destruct (expire_core_row _ _ _ _ false _ _ _) as [o'|] eqn:E; [|done]. cbn [mbind option_bind].
  apply expire_row_read in E as [->|(idx' & -> & ->)]; [intros [= <-]; by left|].
  cbn [mbind option_bind]. apply IH.
Qed.

End read_mode.

(** In read mode the writing operations of the sketch only raise the flag: counting answers 0
    with the flag and leaves the sketch alone; expiration leaves it alone too, and when it does
    not raise the flag it has done what it would have done in write mode. *)
Theorem sketch_read_mode `{Crc32} (pow2 : bool) lcores lcore_id fuel wa sk now time :
  sketch_locks_touch_buckets pow2 lcores lcore_id false wa sk now = Some (0, true, sk) ∧
  ∀ wa' sk', sketch_locks_expire pow2 lcores lcore_id fuel false wa sk time = Some (wa', sk') →
    sk' = sk ∧
    (wa' = false → sketch_locks_expire pow2 lcores lcore_id fuel true wa sk time = Some (wa', sk')).
Proof.
  split; [done|]. intros wa' sk'. unfold sketch_locks_expire, for_u32.
  destruct (for_loop _ _ _ _ _) as [o|] eqn:E; [|done]. cbn [mbind option_bind].
  apply expire_rows_read in E as [->|(idx & -> & ->)]; intros [= <- <-]; done.
Qed.
