(* ===== verification/SketchTm.v ===== *)
(** * sketch-tm.c

    The sketch of the programs that use hardware transactions: the sketch of
    several cores over the verified map and vectors and the allocator for
    transactions, without the flags. *)
From stdpp Require Import base list gmap numbers countable sets.
From Stdlib Require Import ZArith Lia.
From S2P Require Import Prelude.
From S2P Require Import Memory.
From S2P Require Import MapImpl.
From S2P Require Import Map.
From S2P Require Import Vector.
From S2P Require Import DChainImpl.
From S2P Require Import DChain.
From S2P Require Import Emap.
From S2P Require Import Ether.
From S2P Require Import Sketch.
From S2P Require Import DChainLocks.
From S2P Require Import DChainTm.
From S2P Require Import LibLocks.
From S2P Require Import SketchLocks.

(** The maps, vectors and chains of the two variants have the same fields. *)
Abbreviation SketchTM := SketchLocks.

Section sketch_tm.
Context `{Crc32}.
Variable pow2 : bool.
(** The enabled cores and [rte_lcore_id()]. *)
Variable lcores : list nat.
Variable lcore_id : nat.

Fixpoint allocate_tm_rows (RTE_MAX_LCORE : nat) (capacity : Z) (n : nat)
    : M (option (list DoubleChainTM)) :=
  match n with
  | O => mret (Some [])
  | S n' =>
      '(_, _, ch) ← dchain_tm_allocate lcores RTE_MAX_LCORE capacity NULL;
      match ch with
      | Some ch =>
          rest ← allocate_tm_rows RTE_MAX_LCORE capacity n';
          mret (cons ch <$> rest)
      | None => mret None
      end
  end.

Definition sketch_tm_allocate (RTE_MAX_LCORE : nat) (capacity thr sketch_out : Z)
    : M (Z * Z * option SketchTM) :=
  _ ← lift (c_assert (SKETCH_HASHES <=? SKETCH_SALTS_BANK_SIZE));
  sketch_alloc ← malloc (128 + 128 * Z.of_nat RTE_MAX_LCORE);
  if sketch_alloc =? NULL then mret (0, sketch_out, None) else
  total_sketch_capacity ← lift (find_next_power_of_2_bigger_than (u32 (capacity * SKETCH_HASHES)));
  '(_, _, m) ← map_allocate pow2 total_sketch_capacity NULL;
  match m with None => mret (0, sketch_alloc, None) | Some clients =>
  '(_, _, v) ← vector_allocate 4 total_sketch_capacity (λ _, hash_allocate) NULL;
  match v with None => mret (0, sketch_alloc, None) | Some keys =>
  fresh ← (λ μ, Some (λ p, u32 (junk μ p), μ)) : M (Z → Z);
  '(_, _, b) ← vector_allocate 4 total_sketch_capacity fresh NULL;
  match b with None => mret (0, sketch_alloc, None) | Some buckets =>
  rows ← allocate_tm_rows RTE_MAX_LCORE capacity (Z.to_nat SKETCH_HASHES);
  match rows with None => mret (0, sketch_alloc, None) | Some allocators =>
  ds ← junk_internals (sketch_alloc + 128) RTE_MAX_LCORE;
  mret (1, sketch_alloc,
        Some (MkSketchLocks sketch_alloc clients keys buckets allocators capacity thr ds))
  end end end end.

(** [kh] is the hash of the key, the value of [sketch->kh(key)]. *)
Definition sketch_tm_compute_hashes (sk : SketchTM) (kh : Z) : option SketchTM :=
  for_each 0 SKETCH_HASHES (λ i sk,
    d ← skl_internal sk !! lcore_id;
    bi ← wr (buckets_indexes d) i (-1);
    ps ← wr (present d) i 0;
    salt ← rd SKETCH_SALTS i;
    let h := crc32si 0 salt in
    let h := crc32si h kh in
    _ ← c_assert (negb (skl_capacity sk =? 0));
    hs ← wr (hashes d) i (h mod skl_capacity sk);
    Some (put_internal sk lcore_id (Internal hs ps bi))) sk.

Definition sketch_tm_refresh (sk : SketchTM) (now : Z) : option SketchTM :=
  for_each 0 SKETCH_HASHES (λ i sk,
    d ← skl_internal sk !! lcore_id;
    h ← rd (hashes d) i;
    index ← rd (buckets_indexes d) i;
    '(_, index) ← map_get pow2 (core_heap sk lcore_id i h) (skl_clients sk)
                    (core_hashes_p sk lcore_id i) index;
    bi ← wr (buckets_indexes d) i index;
    let sk := put_internal sk lcore_id (Internal (hashes d) (present d) bi) in
    chain ← rd (skl_allocators sk) i;
    '(_, chain) ← dchain_tm_rejuvenate_index lcore_id chain index now;
    put_row sk (skl_clients sk) (skl_keys sk) (skl_buckets sk) i chain) sk.

(** The body of the loop of [sketch_tm_fetch]; the state is the sketch,
    [bucket_min_set] and [bucket_min]. *)
Definition fetch_tm_row (i : Z) (s : SketchTM * bool * Z) : option (SketchTM * bool * Z) :=
  let '(sk, bucket_min_set, bucket_min) := s in
  d ← skl_internal sk !! lcore_id;
  h ← rd (hashes d) i;
  index ← rd (buckets_indexes d) i;
  '(found, index) ← map_get pow2 (core_heap sk lcore_id i h) (skl_clients sk)
                      (core_hashes_p sk lcore_id i) index;
  ps ← wr (present d) i found;
  bi ← wr (buckets_indexes d) i index;
  let sk := put_internal sk lcore_id (Internal (hashes d) ps bi) in
  if found =? 0 then Some (sk, bucket_min_set, bucket_min) else
  p ← vector_borrow (skl_buckets sk) (core_offseted sk index i);
  value ← deref (skl_buckets sk) p;
  if negb bucket_min_set || (value <? bucket_min)
  then Some (sk, true, value) else Some (sk, bucket_min_set, bucket_min).

(** Returns the result and the sketch. *)
Definition sketch_tm_fetch (sk : SketchTM) : option (Z * SketchTM) :=
  '(sk, bucket_min_set, bucket_min) ← for_each 0 SKETCH_HASHES fetch_tm_row (sk, false, 0);
  Some (Z.b2z (bucket_min_set && (skl_threshold sk <? bucket_min)), sk).

(** The body of the loop of [sketch_tm_touch_buckets]: every path returns. *)
Definition touch_tm_row (now i : Z) (sk : SketchTM) : option (outcome SketchTM (Z * SketchTM)) :=
  d ← skl_internal sk !! lcore_id;
  h ← rd (hashes d) i;
  '(found, bucket_index) ← map_get pow2 (core_heap sk lcore_id i h) (skl_clients sk)
                             (core_hashes_p sk lcore_id i) (-1);
  chain ← rd (skl_allocators sk) i;
  if found =? 0 then
    '(allocated, chain, bucket_index) ←
      dchain_tm_allocate_new_index lcores lcore_id chain bucket_index now;
    if allocated =? 0 then
      sk ← put_row sk (skl_clients sk) (skl_keys sk) (skl_buckets sk) i chain;
      Some (Return (0, sk))
    else
    let off := core_offseted sk bucket_index i in
    saved_hash ← vector_borrow (skl_keys sk) off;
    saved_bucket ← vector_borrow (skl_buckets sk) off;
    ks ← store (skl_keys sk) saved_hash (MkHash h);
    bs ← store (skl_buckets sk) saved_bucket 0;
    m ← map_put pow2 (with_local (deref ks) (core_hashes_p sk lcore_id i) (MkHash h)) (skl_clients sk)
          saved_hash bucket_index;
    sk ← put_row sk m ks bs i chain;
    Some (Return (1, sk))
  else
    '(_, chain) ← dchain_tm_rejuvenate_index lcore_id chain bucket_index now;
    let off := core_offseted sk bucket_index i in
    p ← vector_borrow (skl_buckets sk) off;
    value ← deref (skl_buckets sk) p;
    bs ← store (skl_buckets sk) p (u32 (value + 1));
    sk ← put_row sk (skl_clients sk) (skl_keys sk) bs i chain;
    Some (Return (1, sk)).

(** Returns the result and the sketch. *)
Definition sketch_tm_touch_buckets (sk : SketchTM) (now : Z) : option (Z * SketchTM) :=
  o ← for_u32 0 SKETCH_HASHES (touch_tm_row now) sk;
  match o with
  | Return r => Some r
  | Continue _ => None
  end.

(** The body of the loop of [sketch_tm_expire]: the loop over the expired indexes of a row, which
    takes the number of iterations it may use.  The state is the sketch and [index]. *)
Definition expire_tm_row (fuel : nat) (time i : Z) (s : SketchTM * Z) : option (SketchTM * Z) :=
  let '(sk, index) := s in
  let offset := s32 (u32 (i * skl_capacity sk)) in
  iterate fuel (λ '(sk, index),
    chain ← rd (skl_allocators sk) i;
    '(expired, chain, index) ← dchain_tm_expire_one_index lcores lcore_id chain index time;
    if expired =? 0 then
      sk ← put_row sk (skl_clients sk) (skl_keys sk) (skl_buckets sk) i chain;
      Some (Return (sk, index))
    else
    off ← int_chk (index + offset);
    key ← vector_borrow (skl_keys sk) off;
    '(m, key) ← map_erase pow2 (deref (skl_keys sk)) (skl_clients sk) key key;
    sk ← put_row sk m (skl_keys sk) (skl_buckets sk) i chain;
    Some (Continue (sk, index))) (sk, index).

Definition sketch_tm_expire (fuel : nat) (sk : SketchTM) (time : Z) : option SketchTM :=
  '(sk, _) ← for_each 0 SKETCH_HASHES (expire_tm_row fuel time) (sk, -1);
  Some sk.

End sketch_tm.

(** ** The same sketch as with locks, in write mode *)

Definition outcome_map {S S' R R'} (f : S → S') (g : R → R') (o : outcome S R) : outcome S' R' :=
  match o with
  | Continue s => Continue (f s)
  | Return r => Return (g r)
  end.

Lemma for_loop_map {S S' R R'} (f : S → S') (g : R → R') body body' hi :
  (∀ i s o, body i s = Some o → body' i (f s) = Some (outcome_map f g o)) → ∀ n lo s o,
  for_loop n lo hi body s = Some o → for_loop n lo hi body' (f s) = Some (outcome_map f g o).
Proof.
  intros Hb n. induction n as [|n IH]; intros lo s o; cbn [for_loop]; [done|].
  destruct (lo <? hi); [|by intros [= <-]].
  destruct (body lo s) as [o'|] eqn:E; [|done]. rewrite (Hb _ _ _ E). cbn [mbind option_bind].
  destruct o' as [s'|r]; cbn [outcome_map]; [apply IH|by intros [= <-]].
Qed.

Lemma iterate_map {S S' R R'} (f : S → S') (g : R → R') body body' :
  (∀ s o, body s = Some o → body' (f s) = Some (outcome_map f g o)) → ∀ n s r,
  iterate n body s = Some r → iterate n body' (f s) = Some (g r).
Proof.
  intros Hb n. induction n as [|n IH]; intros s r; cbn [iterate]; [done|].
  destruct (body s) as [o|] eqn:E; [|done]. rewrite (Hb _ _ E). cbn [mbind option_bind].
  destruct o as [s'|r']; cbn [outcome_map]; [apply IH|by intros [= <-]].
Qed.

(** The next shared steps of two computations, the first of which is known to succeed. *)
Ltac obind_all :=
  repeat (cbn zeta; match goal with
  | |- mbind _ ?e = Some _ → _ =>
      lazymatch e with
      | dchain_tm_allocate_new_index _ _ _ _ _ => fail
      | dchain_tm_expire_one_index _ _ _ _ _ => fail
      | _ => destruct e; cbn [mbind option_bind]; [|done]
      end
  | |- (let '(_, _) := ?p in _) = Some _ → _ => destruct p; cbn [mbind option_bind]
  end).

Section write_mode.
Context `{Crc32}.
Context (pow2 : bool) (lcores : list nat) (lcore_id : nat).

Lemma tm_allocate_index chain idx t r ch i :
  dchain_tm_allocate_new_index lcores lcore_id chain idx t = Some (r, ch, i) →
  dchain_locks_allocate_new_index lcores lcore_id true false chain idx t = Some (r, false, ch, i).
Proof.
  unfold dchain_tm_allocate_new_index, dchain_locks_allocate_new_index. cbn [negb].
  unfold dchain_tm_impl_allocate_new_index, dchain_tm_impl_activate_index.
  destruct (foreach_lcore lcores _ _) as [[[r' i'] ch']|]; [|done]. cbn [mbind option_bind].
  destruct (negb (r' =? 0)); [|by intros [= <- <- <-]].
  destruct (ch' !! lcore_id) as [k|]; [|done]. cbn [mbind option_bind].
  destruct (dchain_locks_impl_activate_index _ _) as [[? ?]|]; [|done]. cbn [mbind option_bind].
  by intros [= <- <- <-].
Qed.

(** The additional assertion can only fail. *)
Lemma tm_update chain i t r ch :
  dchain_tm_update_timestamp lcore_id chain i t = Some (r, ch) →
  dchain_locks_update_timestamp lcore_id chain i t = Some (r, ch).
Proof.
  unfold dchain_tm_update_timestamp, dchain_locks_update_timestamp, dchain_tm_impl_reposition_index.
  destruct (chain !! lcore_id) as [k|]; [|done]. cbn [mbind option_bind].
  destruct (find_new_prev _ _ _ _) as [p|]; [|done]. cbn [mbind option_bind].
  destruct (p =? -1); [done|]. by destruct (0 <=? p).
Qed.

Lemma tm_expire_index chain idx t r ch i :
  dchain_tm_expire_one_index lcores lcore_id chain idx t = Some (r, ch, i) →
  dchain_locks_expire_one_index lcores lcore_id true false chain idx t = Some (r, false, ch, i).
Proof.
  unfold dchain_tm_expire_one_index, dchain_locks_expire_one_index, dchain_tm_impl_get_oldest_index.
  destruct (chain !! lcore_id) as [k|]; [|done]. cbn [mbind option_bind negb].
  destruct (dchain_locks_impl_get_oldest_index _ _) as [[h j]|]; [|done]. cbn [mbind option_bind].
  destruct (h =? 0); [by intros [= <- <- <-]|].
  destruct (rd (timestamps k) j) as [u|]; [|done]. cbn [mbind option_bind].
  destruct (_ && _); [|by intros [= <- <- <-]].
  destruct (most_recent lcores chain j) as [m|]; [|done]. cbn [mbind option_bind].
  destruct (t <=? m).
  - destruct (dchain_tm_update_timestamp _ _ _ _) as [[r' ch']|] eqn:E; [|done].
    apply tm_update in E. rewrite E. cbn [mbind option_bind]. by intros [= <- <- <-].
  - rewrite <- tm_free_eq. destruct (dchain_tm_free_index _ _ _) as [[r' ch']|]; [|done].
    cbn [mbind option_bind fmap option_fmap option_map]. by intros [= <- <- <-].
Qed.

Lemma touch_row_write now i sk o :
  touch_tm_row pow2 lcores lcore_id now i sk = Some o →
  touch_core_row pow2 lcores lcore_id false now i sk =
    Some (outcome_map id (λ '(r, sk), (r, false, sk)) o).
Proof.
  unfold touch_tm_row, touch_core_row, map_locks_get, vector_locks_borrow, map_locks_put. cbn [negb].
  obind_all. destruct (_ =? 0).
  - destruct (dchain_tm_allocate_new_index _ _ _ _ _) as [[[r ch] j]|] eqn:E; [|done].
    rewrite (tm_allocate_index _ _ _ _ _ _ E). cbn [mbind option_bind].
    destruct (r =? 0); obind_all; by intros [= <-].
  - change (dchain_tm_rejuvenate_index lcore_id) with (dchain_locks_rejuvenate_index lcore_id).
    obind_all. by intros [= <-].
Qed.

Lemma touch_write sk now r sk' :
  sketch_tm_touch_buckets pow2 lcores lcore_id sk now = Some (r, sk') →
  sketch_locks_touch_buckets pow2 lcores lcore_id true false sk now = Some (r, false, sk').
Proof.
  unfold sketch_tm_touch_buckets, sketch_locks_touch_buckets, for_u32. cbn [negb].
  destruct (for_loop _ _ _ _ _) as [o|] eqn:E; [|done]. cbn [mbind option_bind].
  apply (for_loop_map id _ _ _ _ (touch_row_write now)) in E. cbn [id] in E. rewrite E.
  destruct o as [s|[r' s]]; [done|]. by intros [= -> ->].
Qed.

Lemma expire_row_write fuel time i s s' :
  expire_tm_row pow2 lcores lcore_id fuel time i s = Some s' →
  expire_core_row pow2 lcores lcore_id fuel true time i (false, s.1, s.2) = Some (Continue (false, s'.1, s'.2)).
Proof.
  destruct s as [sk idx]. unfold expire_tm_row, expire_core_row. cbn [fst snd].
  intros E. refine (iterate_map (λ s, (false, s.1, s.2)) (λ s, Continue (false, s.1, s.2))
    _ _ _ fuel (sk, idx) s' E).
  clear. intros [sk0 j] o. cbn [fst snd]. unfold map_locks_erase, vector_locks_borrow. cbn [negb].
  obind_all.
  destruct (dchain_tm_expire_one_index _ _ _ _ _) as [[[r ch] j']|] eqn:E; [|done].
  rewrite (tm_expire_index _ _ _ _ _ _ E). cbn [mbind option_bind].
  destruct (r =? 0); obind_all; by intros [= <-].
Qed.

Lemma expire_write fuel sk time sk' :
  sketch_tm_expire pow2 lcores lcore_id fuel sk time = Some sk' →
  sketch_locks_expire pow2 lcores lcore_id fuel true false sk time = Some (false, sk').
Proof.
  unfold sketch_tm_expire, sketch_locks_expire, for_each, for_u32.
  destruct (for_loop _ _ _ _ _) as [o|] eqn:E; [|done]. cbn [mbind option_bind].
  apply (for_loop_map (λ s, (false, s.1, s.2)) (λ r : Empty_set, match r with end) _
    (expire_core_row pow2 lcores lcore_id fuel true time)) in E.
  - cbn [fst snd] in E. rewrite E. destruct o as [[s j]|[]]. by intros [= <-].
  - intros i s o' Hb. destruct (expire_tm_row _ _ _ _ _ _ _) as [s1|] eqn:Er; [|done].
    injection Hb as <-. by apply expire_row_write.
Qed.

End write_mode.

(** ** Sequences of transactions *)

Inductive sketch_op :=
  | SCompute (kh : Z)
  | SRefresh (now : Z)
  | SFetch
  | STouch (now : Z)
  | SExpire (fuel : nat) (time : Z).

Section runs.
Context `{Crc32}.
Context (pow2 : bool) (lcores : list nat).

(** An operation of a core, with its result. *)
Definition sketch_tm_exec (c : nat) (op : sketch_op) (sk : SketchTM) : option (Z * SketchTM) :=
  match op with
  | SCompute kh => sk ← sketch_tm_compute_hashes c sk kh; Some (0, sk)
  | SRefresh now => sk ← sketch_tm_refresh pow2 c sk now; Some (0, sk)
  | SFetch => sketch_tm_fetch pow2 c sk
  | STouch now => sketch_tm_touch_buckets pow2 lcores c sk now
  | SExpire fuel time => sk ← sketch_tm_expire pow2 lcores c fuel sk time; Some (0, sk)
  end.

(** The same with locks in write mode, with the flag. *)
Definition sketch_locks_exec (c : nat) (op : sketch_op) (sk : SketchLocks)
    : option (Z * bool * SketchLocks) :=
  match op with
  | SCompute kh => sk ← sketch_locks_compute_hashes c sk kh; Some (0, false, sk)
  | SRefresh now => sk ← sketch_locks_refresh pow2 c sk now; Some (0, false, sk)
  | SFetch => '(r, sk) ← sketch_locks_fetch pow2 c sk; Some (r, false, sk)
  | STouch now => sketch_locks_touch_buckets pow2 lcores c true false sk now
  | SExpire fuel time =>
      '(wa, sk) ← sketch_locks_expire pow2 lcores c fuel true false sk time; Some (0, wa, sk)
  end.

Fixpoint sketch_tm_run (ops : list (nat * sketch_op)) (sk : SketchTM) : option (list Z * SketchTM) :=
  match ops with
  | [] => Some ([], sk)
  | (c, op) :: ops' =>
      '(r, sk) ← sketch_tm_exec c op sk;
      '(rs, sk) ← sketch_tm_run ops' sk;
      Some (r :: rs, sk)
  end.

Fixpoint sketch_locks_run (ops : list (nat * sketch_op)) (sk : SketchLocks)
    : option (list (Z * bool) * SketchLocks) :=
  match ops with
  | [] => Some ([], sk)
  | (c, op) :: ops' =>
      '(r, wa, sk) ← sketch_locks_exec c op sk;
      '(rs, sk) ← sketch_locks_run ops' sk;
      Some ((r, wa) :: rs, sk)
  end.

Lemma sketch_exec_write c op sk r sk' :
  sketch_tm_exec c op sk = Some (r, sk') → sketch_locks_exec c op sk = Some (r, false, sk').
Proof.
  destruct op as [kh|now| |now|fuel time]; cbn [sketch_tm_exec sketch_locks_exec].
  - change (sketch_tm_compute_hashes c) with (sketch_locks_compute_hashes c).
    obind_all. by intros [= <- <-].
  - change (sketch_tm_refresh pow2 c) with (sketch_locks_refresh pow2 c).
    obind_all. by intros [= <- <-].
  - change (sketch_tm_fetch pow2 c) with (sketch_locks_fetch pow2 c). by intros ->.
  - apply touch_write.
  - destruct (sketch_tm_expire _ _ _ _ _ _) as [s|] eqn:E; [|done].
    rewrite (expire_write _ _ _ _ _ _ _ E). cbn [mbind option_bind]. by intros [= <- <-].
Qed.

(** Transactions of any cores on the sketch compute what the sketch with locks computes in write
    mode: the same answers and the same sketch, and no flag is raised. *)
Theorem sketch_tm_is_write_mode ops : ∀ sk rs sk',
  sketch_tm_run ops sk = Some (rs, sk') →
  sketch_locks_run ops sk = Some ((λ r, (r, false)) <$> rs, sk').
Proof.
  induction ops as [|[c op] ops IH]; intros sk rs sk'; cbn [sketch_tm_run sketch_locks_run];
    [by intros [= <- <-]|].
  destruct (sketch_tm_exec c op sk) as [[r s]|] eqn:E; [|done]. cbn [mbind option_bind].
  rewrite (sketch_exec_write _ _ _ _ _ E). cbn [mbind option_bind].
  destruct (sketch_tm_run ops s) as [[rs' s']|] eqn:E'; [|done]. cbn [mbind option_bind].
  rewrite (IH _ _ _ E'). by intros [= <- <-].
Qed.

End runs.

(** Two cores count the same key: the first touch makes its counter, the next two count. *)
Definition demo_sketch_run (cs : list (nat * sketch_op)) : option (list Z) :=
  '(_, _, sk, _) ← (λ '((r, p, sk), μ), (r, p, sk, μ)) <$>
      sketch_tm_allocate false [0%nat; 1%nat] 2 64 1 0 (Mem [] (replicate 100 true) 4096 (λ _, 0));
  sk ← sk;
  fst <$> sketch_tm_run false [0%nat; 1%nat] cs sk.

Example demo_sketch_counts :
  demo_sketch_run [(0%nat, SCompute 7); (1%nat, SCompute 7); (0%nat, STouch 5); (1%nat, STouch 6);
    (0%nat, STouch 7); (1%nat, SFetch)] = Some [0; 0; 1; 1; 1; 1].
Proof. vm_compute. reflexivity. Qed.
