(* ===== verification/Htm.v ===== *)
(** * The transactions of the parallel functions (synthesized/boilerplate/tm.c)

    Packets are processed in hardware transactions; a core whose transactions
    fail too often takes a global lock instead, and transactions read that lock
    so that they do not run beside its owner.  The cores run interleaved, one
    access to shared memory at a time.  Of the hardware the model uses what is
    documented: a transaction takes effect at one instant or not at all.  Proved
    are mutual exclusion, the absence of deadlocks and serializability for cores
    that have different thread numbers, and that there is none of it for cores
    that have not been given a number. *)
From stdpp Require Import base numbers list sets relations.
From Stdlib Require Import ZArith Lia.
From S2P Require Import Prelude.

(** A packet handler: it proceeds by steps that change the shared data and ends
    with a device. *)
Record tm_nf (Pkt Data L : Type) := TmNF {
  nf_start : Pkt → L;
  nf_step : L → Data → Data * (L + Z)
}.
Arguments nf_start {_ _ _} _.
Arguments nf_step {_ _ _} _.

(** The number of a thread before it has been set. *)
Definition NO_TID : Z := -1.

(** [HTM_thr_init] on the variable [tid] of the thread and [thr_counter]; the
    mutex makes it one step.  Returns the result, [tid] and [thr_counter]. *)
Definition HTM_thr_init (reqTID tid thr_counter : Z) : Z * Z * Z :=
  if negb (tid =? -1) then (tid, tid, thr_counter) else
  if negb (reqTID =? -1) then (reqTID, reqTID, thr_counter)
  else (thr_counter, thr_counter, thr_counter + 1).

Definition HTM_SGL_INIT_BUDGET : Z := 2.

Section htm.
Context {Pkt Data L : Type}.
Variable nf : tm_nf Pkt Data L.

(** The enabled cores and the thread number of each. *)
Variable lcores : list nat.
Variable tid : nat → Z.
(** The longest handler that the hardware can hold in a transaction. *)
Variable capacity : nat.

(** Where a core is: between packets, at the head of the loop of HTM_SGL_begin with
    a budget, waiting for the lock to become free, before the transaction, in
    HTM_enter_fallback (at the outer test, at the inner test, before the
    compare-and-swap), in the handler as owner of the lock, or before
    HTM_exit_fallback. *)
Inductive place :=
  | Idle
  | Head (p : Pkt) (budget : Z)
  | Blocked (p : Pkt) (budget : Z)
  | Begin (p : Pkt) (budget : Z)
  | Enter (p : Pkt)
  | EnterSpin (p : Pkt)
  | EnterCas (p : Pkt)
  | Fallback (p : Pkt) (l : L)
  | Exit.

(** A completed run: the core, the packet and the device. *)
Abbreviation event := (nat * Pkt * Z)%type.

(** [HTM_SGL_var[SGL_POS]], the data, the places and the completed runs. *)
Record sys := Sys {
  sgl : Z;
  shared : Data;
  places : list place;
  log : list event
}.

Definition goto (c : nat) (q : place) (s : sys) : sys :=
  Sys (sgl s) (shared s) (<[c := q]> (places s)) (log s).

Definition set_sgl (v : Z) (s : sys) : sys := Sys v (shared s) (places s) (log s).

Definition set_shared (d : Data) (s : sys) : sys := Sys (sgl s) d (places s) (log s).

Definition emit (e : event) (s : sys) : sys := Sys (sgl s) (shared s) (places s) (log s ++ [e]).

(** The handler from [l] on, at most [fuel] steps. *)
Fixpoint nf_run (fuel : nat) (l : L) (d : Data) : option (Data * Z) :=
  match fuel with
  | O => None
  | S fuel' =>
      let '(d, x) := nf_step nf l d in
      match x with
      | inl l => nf_run fuel' l d
      | inr dev => Some (d, dev)
      end
  end.

(** HTM_init: the lock is free. *)
Definition HTM_init (max_lcore : nat) (d : Data) : sys := Sys (-1) d (replicate max_lcore Idle) [].

(** CHECK_SGL_NOTX, at the head of the loop while there is budget. *)
Definition CHECK_SGL_NOTX (c : nat) (p : Pkt) (budget : Z) (s : sys) : sys :=
  goto c (if negb (sgl s =? -1) then Blocked p budget else Begin p budget) s.

(** HTM_block: one test of its loop. *)
Definition HTM_block (c : nat) (p : Pkt) (budget : Z) (s : sys) : sys :=
  goto c (if negb (sgl s =? -1) then Blocked p budget else Begin p budget) s.

(** The transaction from START_TRANSACTION to HTM_SGL_commit.  When it commits, it has
    read a free lock (CHECK_SGL_HTM) and the handler has run on the data of that
    instant; otherwise it has done nothing and UPDATE_BUDGET takes one from the budget. *)
Definition transaction (c : nat) (p : Pkt) (budget : Z) (commits : bool) (s : sys) : sys :=
  let aborted := goto c (Head p (budget - 1)) s in
  if negb commits || negb (sgl s =? -1) then aborted else
  match nf_run capacity (nf_start nf p) (shared s) with
  | None => aborted
  | Some (d, dev) => goto c Idle (emit (c, p, dev) (set_shared d s))
  end.

(** HTM_enter_fallback: the outer test, the inner test and the compare-and-swap. *)
Definition HTM_enter_fallback (c : nat) (q : place) (s : sys) : sys :=
  match q with
  | Enter p => goto c (if negb (sgl s =? tid c) then EnterSpin p else Fallback p (nf_start nf p)) s
  | EnterSpin p => goto c (if negb (sgl s =? -1) then EnterSpin p else EnterCas p) s
  | EnterCas p => goto c (Enter p) (if sgl s =? -1 then set_sgl (tid c) s else s)
  | _ => s
  end.

(** One step of the handler outside of a transaction. *)
Definition handler_step (c : nat) (p : Pkt) (l : L) (s : sys) : sys :=
  let '(d, x) := nf_step nf l (shared s) in
  let s := set_shared d s in
  match x with
  | inl l => goto c (Fallback p l) s
  | inr dev => goto c Exit (emit (c, p, dev) s)
  end.

Definition HTM_exit_fallback (c : nat) (s : sys) : sys := goto c Idle (set_sgl (-1) s).

(** The next step of core [c]; [p] is the next packet when the core is between packets, and
    [commits] is what the hardware decides when the core is before a transaction. *)
Definition lcore_step (c : nat) (p : Pkt) (commits : bool) (s : sys) : option sys :=
  q ← places s !! c;
  Some (match q with
        | Idle => goto c (Head p HTM_SGL_INIT_BUDGET) s
        | Head p budget => if 0 <? budget then CHECK_SGL_NOTX c p budget s else goto c (Enter p) s
        | Blocked p budget => HTM_block c p budget s
        | Begin p budget => transaction c p budget commits s
        | Enter _ | EnterSpin _ | EnterCas _ => HTM_enter_fallback c q s
        | Fallback p l => handler_step c p l s
        | Exit => HTM_exit_fallback c s
        end).

(** The core only tests the lock and finds it taken. *)
Definition spins (c : nat) (s : sys) : bool :=
  match places s !! c with
  | Some (Blocked _ _ | EnterSpin _) => negb (sgl s =? -1)
  | _ => false
  end.

Variable d0 : Data.

Inductive reachable : sys → Prop :=
  | reach_init max : (∀ c, c ∈ lcores → (c < max)%nat) → reachable (HTM_init max d0)
  | reach_step s c p commits s' : reachable s → c ∈ lcores → lcore_step c p commits s = Some s' →
      reachable s'.

Definition run_schedule (sched : list (nat * Pkt * bool)) (s : sys) : option sys :=
  foldl (λ s '(c, p, b), s ← s; lcore_step c p b s) (Some s) sched.

(** ** The owner of the lock *)

Definition is_fallback (q : place) : bool := match q with Fallback _ _ => true | _ => false end.

(** What the place of a core says of the lock: [Some true] it owns it, [Some false] it does not. *)
Definition owns (q : place) : option bool :=
  match q with
  | Fallback _ _ | Exit => Some true
  | Enter _ => None
  | _ => Some false
  end.

Record htm_inv (s : sys) : Prop := HtmInv {
  hi_len : ∀ c, c ∈ lcores → (c < length (places s))%nat;
  hi_idle : ∀ c, c ∉ lcores → ∀ q, places s !! c = Some q → q = Idle;
  hi_lock : sgl s = -1 ∨ ∃ c, c ∈ lcores ∧ sgl s = tid c;
  hi_own : ∀ c q, c ∈ lcores → places s !! c = Some q →
    match owns q with Some b => b = true ↔ sgl s = tid c | None => True end
}.

Section invariant.
Hypothesis tid_set : ∀ c, c ∈ lcores → tid c ≠ NO_TID.
Hypothesis tid_inj : ∀ c d, c ∈ lcores → d ∈ lcores → tid c = tid d → c = d.

(** A step that moves core [c] and may change the lock. *)
Lemma inv_move s c v d q lg : htm_inv s → c ∈ lcores →
  (v = sgl s ∨ v = -1 ∧ sgl s = tid c ∨ v = tid c ∧ sgl s = -1) →
  match owns q with Some b => b = true ↔ v = tid c | None => True end →
  htm_inv (Sys v d (<[c := q]> (places s)) lg).
Proof.
  intros [Hl Hi Hk Ho] Hc Hv Hq. constructor; simpl.
  - intros e He. rewrite length_insert. auto.
  - intros e He q'. rewrite list_lookup_insert_ne by (by intros ->). by apply Hi.
  - destruct Hv as [->|[[-> _]|[-> _]]]; [done|by left|right; by exists c].
  - intros e q' He. destruct (decide (e = c)) as [->|Hne].
    + rewrite list_lookup_insert_eq by auto. by intros [= <-].
    + rewrite list_lookup_insert_ne by done. intros Hq'. specialize (Ho e q' He Hq').
      destruct (owns q') as [b|]; [|done]. rewrite Ho.
      pose proof (tid_set e He). unfold NO_TID in *.
      destruct Hv as [->|[[-> ->]|[-> ->]]]; [done|..].
      * split; [intros E; by apply tid_inj in E|lia].
      * split; [lia|intros E; by apply tid_inj in E].
Qed.

Lemma inv_here s c q : htm_inv s → c ∈ lcores → places s !! c = Some q →
  match owns q with Some b => b = true ↔ sgl s = tid c | None => True end.
Proof. intros HI Hc. by apply (hi_own _ HI). Qed.

Lemma not_owner s c q : htm_inv s → c ∈ lcores → places s !! c = Some q → owns q = Some false →
  sgl s ≠ tid c.
Proof. intros HI Hc Hq Ho E. pose proof (inv_here s c q HI Hc Hq) as H. rewrite Ho in H. by apply H in E. Qed.

Lemma owner s c q : htm_inv s → c ∈ lcores → places s !! c = Some q → owns q = Some true →
  sgl s = tid c.
Proof. intros HI Hc Hq Ho. pose proof (inv_here s c q HI Hc Hq) as H. rewrite Ho in H. by apply H. Qed.

Lemma htm_inv_step s c p b s' : htm_inv s → c ∈ lcores → lcore_step c p b s = Some s' → htm_inv s'.
Proof.
  intros HI Hc. unfold lcore_step. destruct (places s !! c) as [q|] eqn:Hq; [|done].
  cbn [mbind option_bind]. intros [= <-].
  pose proof (tid_set c Hc) as Hset. unfold NO_TID in Hset.
  assert (∀ v d q' lg, v = sgl s → owns q = Some false → owns q' = Some false →
    htm_inv (Sys v d (<[c := q']> (places s)) lg)) as Hout.
  { intros v d q' lg -> Ho Ho'. apply inv_move; [done|done|by left|]. rewrite Ho'.
    pose proof (not_owner s c q HI Hc Hq Ho). split; [done|congruence]. }
  destruct q as [|p' n|p' n|p' n|p'|p'|p'|p' l|]; cbn [HTM_enter_fallback].
  - by apply Hout.
  - unfold CHECK_SGL_NOTX. destruct (0 <? n); [destruct (negb _); by apply Hout|].
    apply inv_move; [done|done|by left|done].
  - unfold HTM_block. destruct (negb _); by apply Hout.
  - unfold transaction. destruct (_ || _); [by apply Hout|].
    destruct (nf_run _ _ _) as [[d dev]|]; by apply Hout.
  - destruct (Z.eqb_spec (sgl s) (tid c)) as [E|E]; cbn [negb]; (apply inv_move; [done|done|by left|]); simpl.
    + by split.
    + split; [done|congruence].
  - destruct (negb _); by apply Hout.
  - destruct (Z.eqb_spec (sgl s) (-1)) as [E|E]; (apply (inv_move s); [done|done| |done]); simpl; auto.
  - pose proof (owner s c _ HI Hc Hq eq_refl) as E. unfold handler_step.
    destruct (nf_step nf l (shared s)) as [d [l'|dev]]; (apply (inv_move s); [done|done|by left|]); simpl; by split.
  - pose proof (owner s c _ HI Hc Hq eq_refl) as E. apply (inv_move s); [done|done|auto|]. simpl.
    split; [done|congruence].
Qed.

Lemma htm_inv_reachable s : reachable s → htm_inv s.
Proof.
  induction 1 as [max Hmax|s c p b s' _ IH Hc Hs]; [|by eapply htm_inv_step].
  constructor; simpl.
  - intros c Hc. rewrite length_replicate. auto.
  - intros c _ q. by intros [-> _]%lookup_replicate.
  - by left.
  - intros c q Hc [-> _]%lookup_replicate. simpl. pose proof (tid_set c Hc). unfold NO_TID in *.
    split; [done|congruence].
Qed.

End invariant.

(** ** Runs one after the other *)

Definition step1 (x y : L * Data) : Prop := nf_step nf x.1 x.2 = (y.2, inl y.1).

Inductive serial : list event → Data → Prop :=
  | serial_nil : serial [] d0
  | serial_snoc lg d c p fuel d' dev : serial lg d →
      nf_run fuel (nf_start nf p) d = Some (d', dev) → serial (lg ++ [(c, p, dev)]) d'.

Lemma steps_run x y d dev : rtc step1 x y → nf_step nf y.1 y.2 = (d, inr dev) →
  ∃ fuel, nf_run fuel x.1 x.2 = Some (d, dev).
Proof.
  intros Hr Hd. induction Hr as [x|x y z Hs _ IH].
  - exists 1%nat. cbn [nf_run]. by rewrite Hd.
  - destruct (IH Hd) as [fuel Hf]. exists (S fuel). cbn [nf_run]. unfold step1 in Hs. by rewrite Hs.
Qed.

(** No core is in the handler without a transaction. *)
Definition quiet (s : sys) : Prop :=
  ∀ c q, c ∈ lcores → places s !! c = Some q → is_fallback q = false.

(** The data are those of the completed runs, or one core is on its way from there. *)
Definition behind (s : sys) (d : Data) : Prop :=
  (quiet s ∧ shared s = d) ∨
  ∃ c p l, c ∈ lcores ∧ places s !! c = Some (Fallback p l) ∧ rtc step1 (nf_start nf p, d) (l, shared s).

Section serializability.
Hypothesis tid_set : ∀ c, c ∈ lcores → tid c ≠ NO_TID.
Hypothesis tid_inj : ∀ c d, c ∈ lcores → d ∈ lcores → tid c = tid d → c = d.

Lemma fallback_unique s c d q q' : htm_inv s → c ∈ lcores → d ∈ lcores →
  places s !! c = Some q → places s !! d = Some q' → is_fallback q = true → is_fallback q' = true → c = d.
Proof.
  intros HI Hc Hd Hq Hq' Hf Hf'. apply tid_inj; [done|done|].
  destruct q, q'; try done. rewrite <- (owner s c _ HI Hc Hq eq_refl).
  by apply (owner s d _ HI Hd Hq' eq_refl).
Qed.

Lemma unlocked_quiet s : htm_inv s → sgl s = -1 → quiet s.
Proof.
  intros HI Hk c q Hc Hq. destruct q; try done. pose proof (owner s c _ HI Hc Hq eq_refl) as E.
  pose proof (tid_set c Hc). unfold NO_TID in *. congruence.
Qed.

Lemma owner_quiet s c q : htm_inv s → c ∈ lcores → places s !! c = Some q → sgl s = tid c →
  is_fallback q = false → quiet s.
Proof.
  intros HI Hc Hq Hk Hf d q' Hd Hq'. destruct (is_fallback q') eqn:E; [|done].
  destruct q'; try done. pose proof (owner s d _ HI Hd Hq' eq_refl) as Ed.
  assert (d = c) as -> by (apply tid_inj; congruence). by simplify_eq.
Qed.

Lemma quiet_move s c q' v d lg : quiet s → is_fallback q' = false →
  quiet (Sys v d (<[c := q']> (places s)) lg).
Proof.
  intros Hs Hf e q He. simpl. intros Hq. destruct (decide (e = c)) as [->|].
  - by apply list_lookup_insert_Some in Hq as [(_ & -> & _)|[? _]].
  - rewrite list_lookup_insert_ne in Hq by done. by eapply Hs.
Qed.

(** A step of a core outside of the handler that leaves the data alone. *)
Lemma htm_behind_move s c q q' v d : c ∈ lcores → places s !! c = Some q → is_fallback q = false →
  is_fallback q' = false → behind s d →
  behind (Sys v (shared s) (<[c := q']> (places s)) (log s)) d.
Proof.
  intros Hc Hq Hf Hf' [[Hs Hd]|(e & p & l & He & Hl & Hr)].
  - left. split; [by apply quiet_move|done].
  - right. exists e, p, l. split_and!; [done| |done]. simpl.
    rewrite list_lookup_insert_ne; [done|]. intros ->. by simplify_eq.
Qed.

Lemma behind_quiet s d : quiet s → behind s d → shared s = d.
Proof.
  intros Hs [[_ ?]|(c & p & l & Hc & Hl & _)]; [done|]. by specialize (Hs c _ Hc Hl).
Qed.

Lemma transaction_behind s c p n b d : htm_inv s → c ∈ lcores → places s !! c = Some (Begin p n) →
  serial (log s) d → behind s d →
  ∃ d', serial (log (transaction c p n b s)) d' ∧ behind (transaction c p n b s) d'.
Proof.
  intros HI Hc Hq Hs Hb. unfold transaction.
  assert (behind (goto c (Head p (n - 1)) s) d) as Habort by (by eapply htm_behind_move).
  destruct b; [|by exists d]. cbn [negb orb].
  destruct (Z.eqb_spec (sgl s) (-1)) as [E|E]; [|by exists d]. cbn [negb].
  pose proof (unlocked_quiet s HI E) as Hquiet.
  destruct (nf_run capacity (nf_start nf p) (shared s)) as [[d' dev]|] eqn:Hrun; [|by exists d].
  rewrite (behind_quiet s d Hquiet Hb) in Hrun. exists d'. split.
  - by eapply serial_snoc.
  - left. split; [by apply quiet_move|done].
Qed.

Lemma handler_behind s c p l d : htm_inv s → c ∈ lcores → places s !! c = Some (Fallback p l) →
  serial (log s) d → behind s d →
  ∃ d', serial (log (handler_step c p l s)) d' ∧ behind (handler_step c p l s) d'.
Proof.
  intros HI Hc Hq Hs [[Hquiet _]|(e & p' & l' & He & Hl & Hr)]; [by specialize (Hquiet c _ Hc Hq)|].
  assert (e = c) as -> by (by eapply fallback_unique). simplify_eq.
  assert (c < length (places s))%nat as Hlen by (by eapply lookup_lt_Some).
  unfold handler_step. destruct (nf_step nf l (shared s)) as [d' [l'|dev]] eqn:E.
  - exists d. split; [done|]. right. exists c, p, l'. split_and!; [done| |].
    + simpl. by rewrite list_lookup_insert_eq.
    + eapply rtc_r; [exact Hr|]. unfold step1. simpl. done.
  - destruct (steps_run _ _ d' dev Hr E) as [fuel Hf]. exists d'. split; [by eapply serial_snoc|].
    left. split; [|done]. intros e q He'. simpl. intros Hq'. destruct (decide (e = c)) as [->|Hne].
    + rewrite list_lookup_insert_eq in Hq' by done. by simplify_eq.
    + rewrite list_lookup_insert_ne in Hq' by done. destruct (is_fallback q) eqn:Ef; [|done].
      exfalso. by apply Hne, (fallback_unique s e c q (Fallback p l)).
Qed.

Lemma step_behind s c p b s' d : htm_inv s → c ∈ lcores → lcore_step c p b s = Some s' →
  serial (log s) d → behind s d → ∃ d', serial (log s') d' ∧ behind s' d'.
Proof.
  intros HI Hc. unfold lcore_step. destruct (places s !! c) as [q|] eqn:Hq; [|done].
  cbn [mbind option_bind]. intros [= <-] Hs Hb.
  destruct q as [|p' n|p' n|p' n|p'|p'|p'|p' l|]; cbn [HTM_enter_fallback].
  - exists d. split; [done|]. by eapply htm_behind_move.
  - exists d. unfold CHECK_SGL_NOTX. destruct (0 <? n); [destruct (negb _)|];
      (split; [done|by eapply htm_behind_move]).
  - exists d. unfold HTM_block. destruct (negb _); (split; [done|by eapply htm_behind_move]).
  - by apply transaction_behind with d.
  - exists d. destruct (Z.eqb_spec (sgl s) (tid c)) as [E|E]; cbn [negb]; (split; [done|]).
    + right. exists c, p', (nf_start nf p'). split_and!; [done| |].
      * simpl. rewrite list_lookup_insert_eq; [done|]. by eapply lookup_lt_Some.
      * simpl. rewrite (behind_quiet s d); [done| |done]. by eapply owner_quiet.
    + by eapply htm_behind_move.
  - exists d. destruct (negb _); (split; [done|by eapply htm_behind_move]).
  - exists d. destruct (sgl s =? -1); (split; [done|]).
    + eapply (htm_behind_move s c); done.
    + by eapply htm_behind_move.
  - by apply handler_behind with d.
  - exists d. split; [done|]. eapply (htm_behind_move s c); done.
Qed.

Lemma reachable_behind s : reachable s → ∃ d, serial (log s) d ∧ behind s d.
Proof.
  induction 1 as [max Hmax|s c p b s' Hr (d & Hs & Hb) Hc Hstep].
  - exists d0. split; [constructor|]. left. split; [|done]. intros c q _. simpl.
    by intros [-> _]%lookup_replicate.
  - eapply step_behind; [by apply htm_inv_reachable|..]; done.
Qed.

End serializability.

End htm.

(** ** Main results *)

Arguments Idle {Pkt L}.
Arguments Exit {Pkt L}.

(** Cores with different thread numbers exclude each other and make progress: in every reachable
    state each core can take its next step, at most one core runs the handler outside of a
    transaction, no transaction commits while one does, and some core does more than wait for the
    lock. *)
Theorem htm_excludes_and_progresses {Pkt Data L} (nf : tm_nf Pkt Data L) lcores tid capacity d0 s :
  (∀ c, c ∈ lcores → tid c ≠ NO_TID) →
  (∀ c d, c ∈ lcores → d ∈ lcores → tid c = tid d → c = d) →
  lcores ≠ [] → reachable nf lcores tid capacity d0 s →
  (∀ c p b, c ∈ lcores → is_Some (lcore_step nf tid capacity c p b s)) ∧
  (∀ c d p l p' l', c ∈ lcores → d ∈ lcores → places s !! c = Some (Fallback p l) →
     places s !! d = Some (Fallback p' l') → c = d) ∧
  (∀ c p l d p' n b, c ∈ lcores → places s !! c = Some (Fallback p l) →
     places s !! d = Some (Begin p' n) → transaction nf capacity d p' n b s = goto d (Head p' (n - 1)) s) ∧
  ∃ c, c ∈ lcores ∧ spins c s = false.
Proof.
  intros Hset Hinj Hne Hr. pose proof (htm_inv_reachable nf lcores tid capacity d0 Hset Hinj s Hr) as HI.
  split_and!.
  - intros c p b Hc. unfold lcore_step. pose proof (hi_len _ _ _ HI c Hc) as Hlen.
    apply lookup_lt_is_Some in Hlen as [q ->]. by eexists.
  - intros c d p l p' l' Hc Hd Hq Hq'. by eapply (fallback_unique lcores tid).
  - intros c p l d p' n b Hc Hq _. pose proof (owner lcores tid s c _ HI Hc Hq eq_refl) as E.
    unfold transaction. pose proof (Hset c Hc). unfold NO_TID in *.
    destruct (Z.eqb_spec (sgl s) (-1)); [congruence|]. cbn [negb]. by rewrite orb_true_r.
  - destruct (hi_lock _ _ _ HI) as [E|(c & Hc & E)].
    + destruct lcores as [|c cs]; [done|]. exists c. split; [by left|]. unfold spins. rewrite E.
      by destruct (places s !! c) as [[]|].
    + exists c. split; [done|]. unfold spins. destruct (places s !! c) as [q|] eqn:Hq; [|done].
      destruct (owns q) as [[]|] eqn:Ho; [by destruct q| |by destruct q].
      by destruct (not_owner lcores tid s c q HI Hc Hq Ho).
Qed.

(** C19: transactions and the fallback are serializable: however the cores interleave and whatever
    transactions the hardware aborts, the data are always those that the completed runs of the
    handler, one after the other in the order of completion, have produced from the initial data,
    or one core is running the handler from there. *)
Theorem htm_serializable {Pkt Data L} (nf : tm_nf Pkt Data L) lcores tid capacity d0 s :
  (∀ c, c ∈ lcores → tid c ≠ NO_TID) →
  (∀ c d, c ∈ lcores → d ∈ lcores → tid c = tid d → c = d) →
  reachable nf lcores tid capacity d0 s →
  ∃ d, serial nf d0 (log s) d ∧ behind nf lcores s d.
Proof. intros Hset Hinj Hr. by eapply reachable_behind. Qed.

(** ** A counter for two cores *)

(** The handler reads the counter and then stores it one greater. *)
Definition demo_counter : tm_nf unit Z (option Z) :=
  TmNF unit Z (option Z) (λ _, None)
    (λ l d, match l with None => (d, inl (Some d)) | Some v => (v + 1, inr 0) end).

(** Both cores use up their budget, then run the handler in turns. *)
Definition demo_sched : list (nat * unit * bool) :=
  (λ c, (c, (), false)) <$> (replicate 6 0%nat ++ replicate 6 1%nat ++
    [0%nat; 0%nat; 0%nat; 0%nat] ++ [1%nat; 1%nat] ++ [0%nat; 0%nat; 0%nat] ++ replicate 6 1%nat).

(** The thread numbers that HTM_thr_init(rte_lcore_id()) gives. *)
Definition lcore_tid (c : nat) : Z := (HTM_thr_init (Z.of_nat c) NO_TID 0).1.2.

Lemma lcore_tid_spec c : lcore_tid c = Z.of_nat c.
Proof.
  unfold lcore_tid, HTM_thr_init, NO_TID. cbn [Z.eqb negb]. by destruct (Z.eqb_spec (Z.of_nat c) (-1)); [lia|].
Qed.

Lemma htm_schedule_reachable {Pkt Data L} (nf : tm_nf Pkt Data L) lcores tid capacity d0 sched : ∀ s s',
  reachable nf lcores tid capacity d0 s → Forall (λ x, x.1.1 ∈ lcores) sched →
  run_schedule nf tid capacity sched s = Some s' → reachable nf lcores tid capacity d0 s'.
Proof.
  unfold run_schedule. induction sched as [|[[c p] b] sched IH]; intros s s' Hr Hf; simpl; [by intros [= <-]|].
  apply Forall_cons in Hf as [Hc Hf]. simpl in Hc.
  destruct (lcore_step nf tid capacity c p b s) as [s1|] eqn:E; [apply IH; [by eapply reach_step|done]|].
  intros H. exfalso. clear -H. induction sched as [|[[c p] b] sched IH]; [done|]. by apply IH.
Qed.

Definition demo_state : sys (Pkt := unit) (Data := Z) (L := option Z) := Eval vm_compute in
  default (HTM_init 2 0) (run_schedule demo_counter lcore_tid 8 demo_sched (HTM_init 2 0)).

Lemma demo_state_reachable : reachable demo_counter [0%nat; 1%nat] lcore_tid 8 0 demo_state.
Proof.
  apply (htm_schedule_reachable _ _ _ _ _ demo_sched (HTM_init 2 0)).
  - apply reach_init. intros c Hc. repeat (apply elem_of_cons in Hc as [->|Hc]; [lia|]).
    by apply not_elem_of_nil in Hc.
  - by apply (bool_decide_unpack _).
  - vm_compute. reflexivity.
Qed.

Lemma htm_excludes_and_progresses_witness : ∃ c, c ∈ [0%nat; 1%nat] ∧ spins c demo_state = false.
Proof.
  apply (htm_excludes_and_progresses demo_counter [0%nat; 1%nat] lcore_tid 8 0 demo_state).
  - intros c _. rewrite lcore_tid_spec. unfold NO_TID. lia.
  - intros c d _ _. rewrite !lcore_tid_spec. lia.
  - done.
  - exact demo_state_reachable.
Defined.

Lemma htm_serializable_witness :
  ∃ d, serial demo_counter 0 (log demo_state) d ∧ behind demo_counter [0%nat; 1%nat] demo_state d.
Proof.
  apply (htm_serializable demo_counter [0%nat; 1%nat] lcore_tid 8 0 demo_state).
  - intros c _. rewrite lcore_tid_spec. unfold NO_TID. lia.
  - intros c d _ _. rewrite !lcore_tid_spec. lia.
  - exact demo_state_reachable.
Defined.

(** With thread numbers both packets are counted. *)
Example demo_both_counted : shared demo_state = 2 ∧ length (log demo_state) = 2%nat.
Proof. done. Qed.

(** Without them nobody takes the lock: both cores are in the handler at once, both runs complete,
    and one of them is lost. *)
Example unnumbered_cores_lose_updates :
  (λ s, (sgl s, shared s, length (log s))) <$>
    run_schedule demo_counter (λ _, NO_TID) 8
      ((λ c, (c, (), false)) <$> (replicate 7 0%nat ++ replicate 7 1%nat ++ [0%nat; 1%nat; 0%nat; 1%nat]))
      (HTM_init 2 0) = Some (-1, 1, 2%nat).
Proof. vm_compute. reflexivity. Qed.
