(* ===== verification/Counters.v ===== *)
(** * The counting programs (synthesized/boilerplate/motivation)

    Five programs that count packets in six counters on several cores, with a
    spinlock (locks.c), atomic additions (atomic.c), counters of each core
    (shared-nothing.c), hardware transactions (tm.c) and nothing at all
    (unprotected.c).  The accesses of the cores to shared memory are interleaved;
    DPDK's spinlock and atomic operations are atomic steps.  Proved is that the
    first four count every packet, and that the last does not. *)
From stdpp Require Import base list numbers sets relations.
From Stdlib Require Import ZArith Lia.
From S2P Require Import Prelude.
From S2P Require Import Memory.
From S2P Require Import Packet.
From S2P Require Import Htm.

(** ** The counting section of nf_process *)

Definition core_specific_load : Z :=
  default 0 (for_each 0 200 (λ _ load, Some (u64 (load * 13) mod 17)) 1).

(** The accesses of the section; [+=] is a load and a store, and the value is then read again. *)
Inductive access :=
  | SpinLock
  | SpinUnlock
  | Load (i : nat)
  | Store (i : nat)
  | Reread (i : nat)
  | AtomicAdd (i : nat)
  | AtomicRead (i : nat)
  | LoadOwn (i : nat)
  | StoreOwn (i : nat)
  | RereadOwn (i : nat).

#[export] Instance access_eq_dec : EqDecision access.
Proof. solve_decision. Defined.

(** unprotected.c *)
Definition unprotected_section : list access := seq 0 6 ≫= λ i, [Load i; Store i; Reread i].

(** locks.c *)
Definition locks_section : list access := SpinLock :: unprotected_section ++ [SpinUnlock].

(** atomic.c *)
Definition atomic_section : list access := (AtomicAdd <$> seq 0 6) ++ (AtomicRead <$> seq 0 6).

(** shared-nothing.c *)
Definition shared_nothing_section : list access :=
  seq 0 6 ≫= λ i, [LoadOwn i; StoreOwn i; RereadOwn i].

(** A core: the rest of its section, the register of [+=], its own counters, and how many packets
    it has counted. *)
Record core := Core { prog : list access; reg : Z; own : list Z; runs : Z }.

(** The counters, the spinlock and the cores. *)
Record csys := CSys { counters : list Z; spin : bool; cores : list core }.

Definition put_core (s : csys) (c : nat) (k : core) : csys :=
  CSys (counters s) (spin s) (<[c := k]> (cores s)).

(** An access is done. *)
Definition advance (k : core) (rest : list access) : core :=
  Core rest (reg k) (own k) (match rest with [] => runs k + 1 | _ => runs k end).

Definition set_reg (k : core) (v : Z) : core := Core (prog k) v (own k) (runs k).

Definition set_own (k : core) (o : list Z) : core := Core (prog k) (reg k) o (runs k).

(** The effect of an access: the counters, the lock, the core, and whether it is done. *)
Definition access_step (a : access) (ctrs : list Z) (sp : bool) (k : core)
    : option (list Z * bool * core * bool) :=
  match a with
  | SpinLock => Some (ctrs, true, k, negb sp)
  | SpinUnlock => Some (ctrs, false, k, true)
  | Load i => v ← ctrs !! i; Some (ctrs, sp, set_reg k v, true)
  | Store i => _ ← ctrs !! i; Some (<[i := u64 (reg k + core_specific_load)]> ctrs, sp, k, true)
  | Reread i => _ ← ctrs !! i; Some (ctrs, sp, k, true)
  | AtomicAdd i => v ← ctrs !! i; Some (<[i := u32 (v + core_specific_load)]> ctrs, sp, k, true)
  | AtomicRead i => _ ← ctrs !! i; Some (ctrs, sp, k, true)
  | LoadOwn i => v ← own k !! i; Some (ctrs, sp, set_reg k v, true)
  | StoreOwn i =>
      _ ← own k !! i;
      Some (ctrs, sp, set_own k (<[i := u64 (reg k + core_specific_load)]> (own k)), true)
  | RereadOwn i => _ ← own k !! i; Some (ctrs, sp, k, true)
  end.

Section system.
Variable section : list access.

(** The next step of core [c]: it takes a packet, or does its next access. *)
Definition core_step (c : nat) (s : csys) : option csys :=
  k ← cores s !! c;
  match prog k with
  | [] => Some (put_core s c (Core section (reg k) (own k) (runs k)))
  | a :: rest =>
      '(ctrs, sp, k, fin) ← access_step a (counters s) (spin s) k;
      let k := if (fin : bool) then advance k rest else k in
      Some (CSys ctrs sp (<[c := k]> (cores s)))
  end.

(** The state when all cores have run [nf_init] and none has taken a packet yet. *)
Definition counters_init (n : nat) : csys :=
  CSys (replicate 6 0) false (replicate n (Core [] 0 (replicate 6 0) 0)).

Inductive creachable (n : nat) : csys → Prop :=
  | creach_init : creachable n (counters_init n)
  | creach_step s c s' : creachable n s → core_step c s = Some s' → creachable n s'.

Definition run_cores (sched : list nat) (s : csys) : option csys :=
  foldl (λ s c, s ← s; core_step c s) (Some s) sched.

End system.

(** ** How often a counter was increased *)

Section totals.
Context (section : list access) (cop : nat → access).
Hypothesis section_nodup : NoDup section.
Hypothesis section_counts : ∀ i, (i < 6)%nat → cop i ∈ section.
Hypothesis section_ends : ∃ l a, section = l ++ [a] ∧ ∀ i, a ≠ cop i.

(** Counted packets, and the one that is being counted if the counter is already increased. *)
Definition core_total (i : nat) (k : core) : Z :=
  runs k + Z.b2z (bool_decide (prog k ≠ [] ∧ cop i ∉ prog k)).

Definition total (i : nat) (ks : list core) : Z := foldr (λ k z, core_total i k + z) 0 ks.

Lemma total_insert i ks c k k' : ks !! c = Some k →
  total i (<[c := k']> ks) = total i ks - core_total i k + core_total i k'.
Proof.
  revert c. induction ks as [|x ks IH]; intros [|c]; try done; simpl.
  - intros [= ->]. lia.
  - intros Hc. rewrite IH by done. lia.
Qed.

Lemma core_total_start i r o n : (i < 6)%nat →
  core_total i (Core section r o n) = core_total i (Core [] r o n).
Proof.
  intros Hi. unfold core_total. cbn [prog runs].
  rewrite (bool_decide_eq_false_2 (section ≠ [] ∧ _)).
  - by rewrite (bool_decide_eq_false_2 ([] ≠ [] ∧ _)) by (by intros [? _]).
  - intros [_ Hn]. by apply Hn, section_counts.
Qed.

Lemma core_total_advance i a rest k : prog k = a :: rest → prog k `suffix_of` section →
  core_total i (advance k rest) = core_total i k + Z.b2z (bool_decide (a = cop i)).
Proof.
  intros Hp Hsuf. rewrite Hp in Hsuf. unfold core_total, advance. cbn [prog runs]. rewrite Hp.
  assert (a ∉ rest) as Hnin.
  { destruct Hsuf as [l Hl]. rewrite Hl in section_nodup. apply NoDup_app in section_nodup as (_ & _ & Hnd).
    by apply NoDup_cons in Hnd as [? _]. }
  destruct section_ends as (l & e & Hl & He).
  destruct (decide (a = cop i)) as [->|Hne].
  - rewrite (bool_decide_eq_true_2 (cop i = cop i)) by done.
    rewrite (bool_decide_eq_false_2 (cop i :: rest ≠ [] ∧ _)) by set_solver.
    destruct rest as [|b rest].
    { exfalso. destruct Hsuf as [l' Hl']. rewrite Hl in Hl'. apply app_inj_tail in Hl' as [_ Ha]. by apply (He i). }
    rewrite bool_decide_eq_true_2 by done. simpl. lia.
  - rewrite (bool_decide_eq_false_2 (a = cop i)) by done.
    destruct rest as [|b rest].
    + rewrite (bool_decide_eq_false_2 ([] ≠ [] ∧ _)) by (by intros [? _]).
      rewrite bool_decide_eq_true_2 by set_solver. simpl. lia.
    + rewrite (bool_decide_ext (b :: rest ≠ [] ∧ cop i ∉ b :: rest)
        (a :: b :: rest ≠ [] ∧ cop i ∉ a :: b :: rest)) by set_solver. simpl. lia.
Qed.

Lemma core_total_ext i k k' : prog k = prog k' → runs k = runs k' → core_total i k = core_total i k'.
Proof. unfold core_total. by intros -> ->. Qed.

Definition in_section (ks : list core) : Prop := Forall (λ k, prog k `suffix_of` section) ks.

(** One step: a packet is taken, a core waits, or an access is done. *)
Lemma core_step_total c s s' : in_section (cores s) → core_step section c s = Some s' →
  in_section (cores s') ∧ ∃ k, cores s !! c = Some k ∧
    ((prog k = [] ∧ s' = put_core s c (Core section (reg k) (own k) (runs k)) ∧
        (∀ i, (i < 6)%nat → total i (cores s') = total i (cores s))) ∨
     ∃ a rest ctrs sp k' fin, prog k = a :: rest ∧ a ∈ section ∧ suffix (a :: rest) section ∧
       access_step a (counters s) (spin s) k = Some (ctrs, sp, k', fin) ∧
       s' = CSys ctrs sp (<[c := if (fin : bool) then advance k' rest else k']> (cores s)) ∧
       prog k' = prog k ∧ runs k' = runs k ∧
       (∀ i, total i (cores s') = total i (cores s) + Z.b2z (fin && bool_decide (a = cop i)))).
Proof.
  intros Hall. unfold core_step. destruct (cores s !! c) as [k|] eqn:Hk; [|done]. cbn [mbind option_bind].
  pose proof (Forall_lookup_1 _ _ _ _ Hall Hk) as Hsuf. cbn beta in Hsuf.
  destruct (prog k) as [|a rest] eqn:Hp.
  - intros [= <-]. split; [by apply Forall_insert|]. exists k. split; [done|]. left. split; [done|].
    split; [done|]. intros i Hi. cbn [cores put_core]. rewrite (total_insert i _ c k) by done.
    rewrite core_total_start by done.
    rewrite (core_total_ext i (Core [] (reg k) (own k) (runs k)) k) by done. lia.
  - destruct (access_step a (counters s) (spin s) k) as [[[[ctrs sp] k'] fin]|] eqn:Ha; [|done].
    cbn [mbind option_bind]. intros [= <-].
    assert (prog k' = prog k ∧ runs k' = runs k) as [Hpk Hrk].
    { destruct a; cbn [access_step] in Ha;
        try match type of Ha with mbind _ ?e = _ => destruct e; cbn [mbind option_bind] in Ha; [|done] end;
        by injection Ha as <- <- <- <-. }
    assert (a ∈ section) as Hin by (destruct Hsuf as [l ->]; set_solver).
    split.
    + apply Forall_insert; [done|]. destruct fin; [|by rewrite Hpk, Hp]. simpl.
      destruct Hsuf as [l ->]. exists (l ++ [a]). by rewrite <- app_assoc.
    + exists k. split; [done|]. right. exists a, rest, ctrs, sp, k', fin. split_and!; try done.
      intros i. cbn [cores]. rewrite (total_insert i _ c k) by done. destruct fin; cbn [andb].
      * rewrite (core_total_advance i a rest k') by (rewrite Hpk, Hp; done).
        rewrite (core_total_ext i k' k) by done. lia.
      * rewrite (core_total_ext i k' k) by done. simpl. lia.
Qed.

Lemma in_section_init n : in_section (cores (counters_init n)).
Proof. apply Forall_replicate. simpl. apply suffix_nil. Qed.

Lemma total_init n i : total i (cores (counters_init n)) = 0.
Proof.
  cbn [cores counters_init]. unfold total. generalize (replicate 6 0). intros o. induction n as [|n IH]; [done|]. cbn [replicate foldr]. rewrite IH.
  unfold core_total. cbn [prog runs]. by rewrite (bool_decide_eq_false_2 ([] ≠ [] ∧ _)) by (by intros [? _]).
Qed.

(** No core is in its section. *)
Lemma total_idle i ks : Forall (λ k, prog k = []) ks → total i ks = foldr (λ k z, runs k + z) 0 ks.
Proof.
  induction 1 as [|k ks Hk _ IH]; [done|]. cbn [total foldr]. unfold total in IH. rewrite IH. f_equal.
  unfold core_total. rewrite Hk, (bool_decide_eq_false_2 ([] ≠ [] ∧ _)) by (by intros [? _]). simpl. lia.
Qed.

End totals.

Lemma load_is_one : core_specific_load = 1.
Proof. vm_compute. reflexivity. Qed.

Lemma u32_succ x : u32 (u32 x + 1) = u32 (x + 1).
Proof. unfold u32. by rewrite Zplus_mod_idemp_l. Qed.

Lemma u64_succ x : u64 (u64 x + 1) = u64 (x + 1).
Proof. unfold u64. by rewrite Zplus_mod_idemp_l. Qed.

(** ** Atomic additions *)

Lemma atomic_nodup : NoDup atomic_section.
Proof. apply (bool_decide_eq_true_1 (NoDup _)). vm_compute. reflexivity. Qed.

Lemma atomic_counts i : (i < 6)%nat → AtomicAdd i ∈ atomic_section.
Proof. intros Hi. apply elem_of_app. left. apply list_elem_of_fmap_2, elem_of_seq. lia. Qed.

Lemma atomic_ends : ∃ l a, atomic_section = l ++ [a] ∧ ∀ i, a ≠ AtomicAdd i.
Proof. exists (take 11 atomic_section), (AtomicRead 5). done. Qed.

Definition atomic_inv (s : csys) : Prop :=
  in_section atomic_section (cores s) ∧
  ∀ i, (i < 6)%nat → counters s !! i = Some (u32 (total AtomicAdd i (cores s))).

Lemma atomic_inv_reachable n s : creachable atomic_section n s → atomic_inv s.
Proof.
  induction 1 as [|s c s' _ [Hall Hc] Hs].
  - split; [apply in_section_init|]. intros i Hi. rewrite total_init. by apply lookup_replicate_2.
  - destruct (core_step_total _ _ atomic_nodup atomic_counts atomic_ends c s s' Hall Hs) as (Hall' & k & Hk & Hcase).
    split; [done|]. intros i Hi.
    destruct Hcase as [(_ & -> & ->)|(a & rest & ctrs & sp & k' & fin & Hp & Ha & _ & Hst & -> & _ & _ & ->)];
      [by apply Hc|done|].
    cbn [counters]. apply elem_of_app in Ha as [(j & -> & Hj)%list_elem_of_fmap|(j & -> & Hj)%list_elem_of_fmap];
      apply elem_of_seq in Hj; simpl in Hst; rewrite (Hc j ltac:(lia)) in Hst; simpl in Hst; injection Hst as <- <- <- <-;
      cbn [andb].
    + rewrite load_is_one, u32_succ. destruct (decide (i = j)) as [->|Hne].
      * rewrite list_lookup_insert_eq by (apply lookup_lt_is_Some; rewrite Hc by done; by eexists).
        by rewrite bool_decide_eq_true_2.
      * rewrite list_lookup_insert_ne, Hc, bool_decide_eq_false_2 by congruence. simpl. by rewrite Z.add_0_r.
    + rewrite Hc, bool_decide_eq_false_2 by done. simpl. by rewrite Z.add_0_r.
Qed.

(** ** Facts about the rest of a section, by looking at all of them *)

Lemma suffix_check (P : list access → bool) sec l :
  forallb (λ n, P (drop n sec)) (seq 0 (S (length sec))) = true → l `suffix_of` sec → P l = true.
Proof.
  intros Hall [p ->]. rewrite forallb_forall in Hall. specialize (Hall (length p)).
  rewrite drop_app_length in Hall. apply Hall. apply List.in_seq. rewrite length_app. lia.
Qed.

(** ** Counters of each core *)

Lemma own_nodup : NoDup shared_nothing_section.
Proof. apply (bool_decide_eq_true_1 (NoDup _)). vm_compute. reflexivity. Qed.

Lemma own_counts i : (i < 6)%nat → StoreOwn i ∈ shared_nothing_section.
Proof. intros Hi. do 6 (destruct i as [|i]; [unfold shared_nothing_section; simpl; set_solver|]). lia. Qed.

Lemma own_ends : ∃ l a, shared_nothing_section = l ++ [a] ∧ ∀ i, a ≠ StoreOwn i.
Proof. exists (take 17 shared_nothing_section), (RereadOwn 5). done. Qed.

Definition own_shape (l : list access) : bool :=
  match l with
  | [] => true
  | LoadOwn i :: StoreOwn j :: _ => bool_decide (i = j ∧ i < 6)%nat
  | StoreOwn i :: RereadOwn _ :: _ => bool_decide (i < 6)%nat
  | RereadOwn i :: ([] | LoadOwn _ :: _) => bool_decide (i < 6)%nat
  | _ => false
  end.

Lemma own_suffix l : l `suffix_of` shared_nothing_section → own_shape l = true.
Proof. apply suffix_check. vm_compute. reflexivity. Qed.

Definition own_core_ok (k : core) : Prop :=
  (∀ i, (i < 6)%nat → own k !! i = Some (u64 (core_total StoreOwn i k))) ∧
  ∀ i rest, prog k = StoreOwn i :: rest → own k !! i = Some (reg k).

Definition own_inv (s : csys) : Prop :=
  in_section shared_nothing_section (cores s) ∧ Forall own_core_ok (cores s).

(** An access of a core to its own counters. *)
Lemma own_access a rest k ctrs sp ctrs' sp' k' fin :
  own_core_ok k → prog k = a :: rest → suffix (a :: rest) shared_nothing_section →
  access_step a ctrs sp k = Some (ctrs', sp', k', fin) →
  fin = true ∧ own_core_ok (advance k' rest).
Proof.
  intros [Hown Hreg] Hp Hsuf. pose proof (own_suffix _ Hsuf) as Hsh.
  assert (∀ r o i, core_total StoreOwn i (advance (Core (prog k) r o (runs k)) rest) =
    core_total StoreOwn i k + Z.b2z (bool_decide (a = StoreOwn i))) as Htot.
  { intros r o i. rewrite (core_total_advance shared_nothing_section StoreOwn own_nodup own_counts own_ends i a rest)
      by (cbn [prog]; rewrite ?Hp; done). by f_equal. }
  destruct a as [| | | | | | |j|j|j]; try done; cbn [access_step].
  - destruct rest as [|[| | | | | | |?|j'|?] rest]; try done. apply bool_decide_eq_true in Hsh as [<- Hj].
    rewrite (Hown j Hj). cbn [mbind option_bind]. intros [= <- <- <- <-]. split; [done|]. split.
    + intros i Hi. unfold set_reg. rewrite Htot, bool_decide_eq_false_2 by done. cbn [advance own]. simpl Z.b2z.
      rewrite Z.add_0_r. by apply Hown.
    + intros i rest' [= <- <-]. cbn [advance own reg set_reg]. by apply Hown.
  - destruct rest as [|[| | | | | | |?|?|j'] rest]; try done. apply bool_decide_eq_true in Hsh.
    rewrite (Hown j Hsh). cbn [mbind option_bind]. intros [= <- <- <- <-]. split; [done|].
    pose proof (Hreg j _ Hp) as Hr. rewrite (Hown j Hsh) in Hr. injection Hr as Hr. split; [|done].
    intros i Hi. unfold set_own. rewrite Htot. cbn [advance own]. rewrite <- Hr, load_is_one, u64_succ.
    destruct (decide (i = j)) as [->|Hne].
    + rewrite bool_decide_eq_true_2 by done. apply list_lookup_insert_eq, lookup_lt_is_Some.
      rewrite Hown by done. by eexists.
    + rewrite list_lookup_insert_ne, Hown, bool_decide_eq_false_2 by congruence. simpl. by rewrite Z.add_0_r.
  - assert (j < 6)%nat as Hj by (destruct rest as [|[| | | | | | |?|?|?] rest]; try done; by apply bool_decide_eq_true in Hsh).
    rewrite (Hown j Hj). cbn [mbind option_bind]. intros [= <- <- <- <-]. split; [done|]. split.
    + intros i Hi. destruct k as [pk rk ok nk]. rewrite Htot, bool_decide_eq_false_2 by done.
      cbn [advance own]. simpl Z.b2z. rewrite Z.add_0_r. by apply Hown.
    + intros i rest' Hrest. cbn [advance prog] in Hrest. subst rest. by simpl in Hsh.
Qed.

Lemma own_inv_reachable n s : creachable shared_nothing_section n s → own_inv s.
Proof.
  induction 1 as [|s c s' _ [Hall Hown] Hs].
  - split; [apply in_section_init|]. apply Forall_replicate. split; [|done]. intros i Hi. cbn [own].
    unfold core_total. cbn [prog runs]. rewrite (bool_decide_eq_false_2 ([] ≠ [] ∧ _)) by (by intros [? _]).
    by apply lookup_replicate_2.
  - destruct (core_step_total _ _ own_nodup own_counts own_ends c s s' Hall Hs) as (Hall' & k & Hk & Hcase).
    split; [done|]. pose proof (Forall_lookup_1 _ _ _ _ Hown Hk) as Hok.
    destruct Hcase as [(Hp & -> & _)|(a & rest & ctrs & sp & k' & fin & Hp & _ & Hsuf & Hst & -> & _)].
    + apply Forall_insert; [done|]. split; [|done]. intros i Hi.
      rewrite (core_total_start shared_nothing_section StoreOwn own_counts) by done. cbn [own].
      rewrite (core_total_ext StoreOwn i _ k) by done. by apply Hok.
    + destruct (own_access _ _ _ _ _ _ _ _ _ Hok Hp Hsuf Hst) as [-> Hok']. by apply Forall_insert.
Qed.

(** ** The spinlock *)

Lemma locks_nodup : NoDup locks_section.
Proof. apply (bool_decide_eq_true_1 (NoDup _)). vm_compute. reflexivity. Qed.

Lemma locks_counts i : (i < 6)%nat → Store i ∈ locks_section.
Proof. intros Hi. do 6 (destruct i as [|i]; [unfold locks_section; simpl; set_solver|]). lia. Qed.

Lemma locks_ends : ∃ l a, locks_section = l ++ [a] ∧ ∀ i, a ≠ Store i.
Proof. exists (SpinLock :: unprotected_section), SpinUnlock. done. Qed.

Definition locks_shape (l : list access) : bool :=
  match l with
  | [] | [SpinUnlock] | SpinLock :: Load _ :: _ => true
  | Load i :: Store j :: _ => bool_decide (i = j ∧ i < 6)%nat
  | Store i :: Reread _ :: _ => bool_decide (i < 6)%nat
  | Reread i :: (Load _ :: _ | [SpinUnlock]) => bool_decide (i < 6)%nat
  | _ => false
  end.

Lemma locks_suffix l : l `suffix_of` locks_section → locks_shape l = true.
Proof. apply suffix_check. vm_compute. reflexivity. Qed.

(** The core holds the lock. *)
Definition inside (k : core) : bool :=
  match prog k with
  | [] | SpinLock :: _ => false
  | _ => true
  end.

(** The lock is taken exactly when a core is inside, and there is never more than one. *)
Definition one_inside (sp : bool) (ks : list core) : Prop :=
  if sp then ∃ c0 k0, ks !! c0 = Some k0 ∧ inside k0 = true ∧
               ∀ c k, ks !! c = Some k → inside k = true → c = c0
  else ∀ c k, ks !! c = Some k → inside k = false.

Lemma one_inside_same sp ks c k k' : one_inside sp ks → ks !! c = Some k → inside k' = inside k →
  one_inside sp (<[c := k']> ks).
Proof.
  intros Ho Hk Hin. pose proof (lookup_lt_Some _ _ _ Hk) as Hlt. destruct sp; simpl in *.
  - destruct Ho as (c0 & k0 & Hk0 & Hi0 & Hu). destruct (decide (c0 = c)) as [->|Hne].
    + exists c, k'. simplify_eq. split_and!; [by apply list_lookup_insert_eq|by rewrite Hin|].
      intros e x He Hx. destruct (decide (e = c)); [done|]. rewrite list_lookup_insert_ne in He by done. by eapply Hu.
    + exists c0, k0. split_and!; [by rewrite list_lookup_insert_ne|done|]. intros e x He Hx.
      destruct (decide (e = c)) as [->|Hec].
      * rewrite list_lookup_insert_eq in He by done. simplify_eq. rewrite Hin in Hx. by eapply Hu.
      * rewrite list_lookup_insert_ne in He by done. by eapply Hu.
  - intros e x He. destruct (decide (e = c)) as [->|Hec].
    + rewrite list_lookup_insert_eq in He by done. simplify_eq. rewrite Hin. by eapply Ho.
    + rewrite list_lookup_insert_ne in He by done. by eapply Ho.
Qed.

Lemma one_inside_enter ks c k k' : one_inside false ks → ks !! c = Some k → inside k' = true →
  one_inside true (<[c := k']> ks).
Proof.
  intros Ho Hk Hin. pose proof (lookup_lt_Some _ _ _ Hk) as Hlt. exists c, k'.
  split_and!; [by apply list_lookup_insert_eq|done|]. intros e x He Hx.
  destruct (decide (e = c)); [done|]. rewrite list_lookup_insert_ne in He by done.
  specialize (Ho _ _ He). congruence.
Qed.

Lemma one_inside_leave sp ks c k k' : one_inside sp ks → ks !! c = Some k → inside k = true →
  inside k' = false → one_inside false (<[c := k']> ks).
Proof.
  intros Ho Hk Hik Hin. pose proof (lookup_lt_Some _ _ _ Hk) as Hlt.
  destruct sp; [|specialize (Ho _ _ Hk); congruence]. destruct Ho as (c0 & k0 & _ & _ & Hu).
  intros e x He. destruct (decide (e = c)) as [->|Hec].
  - rewrite list_lookup_insert_eq in He by done. by simplify_eq.
  - rewrite list_lookup_insert_ne in He by done. destruct (inside x) eqn:Ex; [|done].
    exfalso. apply Hec. by rewrite (Hu e x), (Hu c k).
Qed.

Lemma one_inside_unique sp ks c d k k' : one_inside sp ks → ks !! c = Some k → ks !! d = Some k' →
  inside k = true → inside k' = true → c = d.
Proof.
  intros Ho Hk Hk' Hi Hi'. destruct sp; [|specialize (Ho _ _ Hk); congruence].
  destruct Ho as (c0 & k0 & _ & _ & Hu). by rewrite (Hu c k), (Hu d k').
Qed.

(** A core that is about to store has read the present value. *)
Definition reg_ok (ctrs : list Z) (k : core) : Prop :=
  ∀ i rest, prog k = Store i :: rest → ctrs !! i = Some (reg k).

Record locks_inv (s : csys) : Prop := LocksInv {
  lo_section : in_section locks_section (cores s);
  lo_counters : ∀ i, (i < 6)%nat → counters s !! i = Some (u64 (total Store i (cores s)));
  lo_inside : one_inside (spin s) (cores s);
  lo_reg : Forall (reg_ok (counters s)) (cores s)
}.

Lemma reg_ok_idle ctrs k : (∀ i rest, prog k ≠ Store i :: rest) → reg_ok ctrs k.
Proof. intros Hn i rest Hp. by apply Hn in Hp. Qed.

Lemma locks_access s s' c k a rest ctrs sp k' fin :
  locks_inv s → in_section locks_section (cores s') → cores s !! c = Some k → prog k = a :: rest →
  suffix (a :: rest) locks_section →
  access_step a (counters s) (spin s) k = Some (ctrs, sp, k', fin) →
  s' = CSys ctrs sp (<[c := if (fin : bool) then advance k' rest else k']> (cores s)) →
  (∀ i, total Store i (cores s') = total Store i (cores s) + Z.b2z (fin && bool_decide (a = Store i))) →
  locks_inv s'.
Proof.
  intros [_ Hctr Hone Hreg] Hall Hk Hp Hsuf Hst -> Htot. pose proof (locks_suffix _ Hsuf) as Hsh.
  pose proof (Forall_lookup_1 _ _ _ _ Hreg Hk) as Hrk.
  destruct a as [| |j|j|j| | | | |]; try done; cbn [access_step] in Hst.
  - injection Hst as <- <- <- <-. destruct rest as [|[| |j| | | | | | |] rest]; try done.
    constructor; cbn [counters spin cores]; [done|..].
    + intros i Hi. rewrite Htot, (bool_decide_eq_false_2 (SpinLock = _)), andb_false_r by done. simpl Z.b2z.
      rewrite Z.add_0_r. by apply Hctr.
    + destruct (spin s) eqn:Esp; cbn [negb].
      * by apply (one_inside_same _ _ _ k).
      * apply (one_inside_enter _ _ k); done.
    + apply Forall_insert; [done|]. destruct (spin s); cbn [negb]; [done|]. by apply reg_ok_idle.
  - injection Hst as <- <- <- <-. destruct rest as [|? rest]; [|done].
    constructor; cbn [counters spin cores]; [done|..].
    + intros i Hi. rewrite Htot, bool_decide_eq_false_2 by done. simpl Z.b2z.
      rewrite Z.add_0_r. by apply Hctr.
    + eapply (one_inside_leave _ _ _ k); [done|done| |done]. unfold inside. by rewrite Hp.
    + apply Forall_insert; [done|]. by apply reg_ok_idle.
  - destruct rest as [|[| | |j'|?| | | | |] rest]; try done. apply bool_decide_eq_true in Hsh as [<- Hj].
    rewrite (Hctr j Hj) in Hst. injection Hst as <- <- <- <-.
    constructor; cbn [counters spin cores]; [done|..].
    + intros i Hi. rewrite Htot, bool_decide_eq_false_2 by done. simpl Z.b2z.
      rewrite Z.add_0_r. by apply Hctr.
    + apply (one_inside_same _ _ _ k); [done|done|]. unfold inside. by rewrite Hp.
    + apply Forall_insert; [done|]. intros i rest' [= <- <-]. cbn. by apply Hctr.
  - destruct rest as [|[| | | |j'| | | | |] rest]; try done. apply bool_decide_eq_true in Hsh.
    pose proof (Hrk j _ Hp) as Hr. rewrite Hr in Hst. injection Hst as <- <- <- <-.
    rewrite (Hctr j Hsh) in Hr. injection Hr as Hr.
    constructor; cbn [counters spin cores]; [done|..].
    + intros i Hi. rewrite Htot, <- Hr, load_is_one, u64_succ. cbn [andb].
      destruct (decide (i = j)) as [->|Hne].
      * rewrite bool_decide_eq_true_2 by done. apply list_lookup_insert_eq, lookup_lt_is_Some.
        rewrite Hctr by done. by eexists.
      * rewrite list_lookup_insert_ne, Hctr, bool_decide_eq_false_2 by congruence. simpl. by rewrite Z.add_0_r.
    + apply (one_inside_same _ _ _ k); [done|done|]. unfold inside. by rewrite Hp.
    + apply Forall_lookup_2. intros d x Hd. destruct (decide (d = c)) as [->|Hdc].
      * rewrite list_lookup_insert_eq in Hd by (by eapply lookup_lt_Some). simplify_eq. by apply reg_ok_idle.
      * rewrite list_lookup_insert_ne in Hd by done. intros i rest' Hx. exfalso. apply Hdc.
        eapply (one_inside_unique _ _ _ _ x k Hone Hd Hk); unfold inside; [by rewrite Hx|by rewrite Hp].
  - assert (j < 6)%nat as Hj.
    { destruct rest as [|[| |?|?|?| | | | |] [|? rest]]; try done; by apply bool_decide_eq_true in Hsh. }
    rewrite (Hctr j Hj) in Hst. injection Hst as <- <- <- <-.
    constructor; cbn [counters spin cores]; [done|..].
    + intros i Hi. rewrite Htot, bool_decide_eq_false_2 by done. simpl Z.b2z.
      rewrite Z.add_0_r. by apply Hctr.
    + apply (one_inside_same _ _ _ k); [done|done|]. unfold inside. rewrite Hp. cbn [advance prog].
      by destruct rest as [|[| |?|?|?| | | | |] [|? rest]].
    + apply Forall_insert; [done|]. apply reg_ok_idle. intros i rest'. cbn [advance prog]. intros ->. by simpl in Hsh.
Qed.

Lemma locks_inv_reachable n s : creachable locks_section n s → locks_inv s.
Proof.
  induction 1 as [|s c s' _ IH Hs].
  - constructor; [apply in_section_init|..].
    + intros i Hi. rewrite total_init. by apply lookup_replicate_2.
    + intros c k [-> _]%lookup_replicate. done.
    + apply Forall_replicate. by apply reg_ok_idle.
  - destruct (core_step_total _ _ locks_nodup locks_counts locks_ends c s s' (lo_section _ IH) Hs)
      as (Hall & k & Hk & [(Hp & -> & Ht)|(a & rest & ctrs & sp & k' & fin & Hp & _ & Hsuf & Hst & -> & _ & _ & Ht)]).
    + destruct IH as [_ Hc Ho Hr]. constructor; [done| | |].
      * intros i Hi. rewrite Ht by done. by apply Hc.
      * apply (one_inside_same _ _ _ k); [done|done|]. unfold inside. by rewrite Hp.
      * apply Forall_insert; [done|]. by apply reg_ok_idle.
    + by eapply locks_access.
Qed.

(** ** Transactions *)

(** tm.c: the section inside of a transaction, as a handler that also carries the device of the
    packet. *)
Definition section_step (l : list access * Z * Z) (d : list Z) : list Z * (list access * Z * Z + Z) :=
  let '(p, r, dev) := l in
  match p with
  | Load i :: rest => (d, inl (rest, default 0 (d !! i), dev))
  | Store i :: rest => (<[i := u64 (r + core_specific_load)]> d, inl (rest, r, dev))
  | _ :: rest => (d, inl (rest, r, dev))
  | [] => (d, inr (if dev =? 0 then 1 else 0))
  end.

Definition counters_nf : tm_nf Z (list Z) (list access * Z * Z) :=
  TmNF Z (list Z) (list access * Z * Z) (λ dev, (unprotected_section, 0, dev)) section_step.

(** A whole section adds one to every counter. *)
Lemma section_run fuel dev v d o :
  nf_run counters_nf fuel (nf_start counters_nf dev) (replicate 6 v) = Some (d, o) →
  d = replicate 6 (u64 (v + 1)).
Proof.
  cbn [nf_start counters_nf].
  change unprotected_section with [Load 0; Store 0; Reread 0; Load 1; Store 1; Reread 1; Load 2; Store 2;
    Reread 2; Load 3; Store 3; Reread 3; Load 4; Store 4; Reread 4; Load 5; Store 5; Reread 5].
  do 19 (destruct fuel as [|fuel]; [done|];
    cbn [nf_run nf_step counters_nf section_step replicate lookup list_lookup default insert list_insert]).
  rewrite load_is_one. by intros [= <- _].
Qed.

Lemma serial_counts lg d : serial counters_nf (replicate 6 0) lg d → d = replicate 6 (u64 (zlen lg)).
Proof.
  induction 1 as [|lg d c p fuel d' dev _ IH Hrun]; [done|]. subst d.
  apply section_run in Hrun as ->. rewrite u64_succ. do 2 f_equal. unfold zlen. rewrite length_app. simpl. lia.
Qed.

(** ** The packet handler, on a core that is alone *)

(** The section as it runs without other cores. *)
Definition count_packet (ctrs : list Z) : option (list Z) :=
  '(ctrs, _) ← foldl (λ o a, '(ctrs, k) ← o; '(ctrs, _, k, _) ← access_step a ctrs false k; Some (ctrs, k))
    (Some (ctrs, Core [] 0 [] 0)) unprotected_section;
  Some ctrs.

(** unprotected.c; returns the device, the packet and the counters. *)
Definition nf_process (device : Z) (pk0 : packet) (ctrs : list Z) : option (Z * packet * list Z) :=
  '(ether_header, pk1) ← nf_borrow_next_chunk pk0 14;
  '(rte_ipv4_header, ip_options, pk2) ← nf_then_get_rte_ipv4_header pk1 ether_header;
  if rte_ipv4_header =? NULL then Some (device, pk2, ctrs) else
  '(tcpudp_header, pk3) ← nf_then_get_tcpudp_header pk2 rte_ipv4_header;
  if tcpudp_header =? NULL then Some (device, pk3, ctrs) else
  ctrs ← count_packet ctrs;
  if negb (device =? 0) then
    pk4 ← store_bytes pk3 (ether_header + d_addr_off) [1; 35; 69; 103; 137; 0];
    pk5 ← store_bytes pk4 (ether_header + s_addr_off) [0; 0; 0; 0; 0; 0];
    Some (0, pk5, ctrs)
  else
    pk4 ← store_bytes pk3 (ether_header + d_addr_off) [1; 35; 69; 103; 137; 1];
    pk5 ← store_bytes pk4 (ether_header + s_addr_off) [0; 0; 0; 0; 0; 0];
    Some (1, pk5, ctrs).

Lemma count_packet_spec v : count_packet (replicate 6 v) = Some (replicate 6 (u64 (v + 1))).
Proof.
  unfold count_packet.
  change unprotected_section with [Load 0; Store 0; Reread 0; Load 1; Store 1; Reread 1; Load 2; Store 2;
    Reread 2; Load 3; Store 3; Reread 3; Load 4; Store 4; Reread 4; Load 5; Store 5; Reread 5].
  cbn -[core_specific_load u64]. by rewrite load_is_one.
Qed.

(** Packets with an IPv4 and a TCP or UDP header are counted once in every counter and sent to the
    other device with the fixed addresses; others are dropped and not counted. *)
Theorem counting_handler device pk tail v :
  received pk tail →
  if ipv4_ok (buf pk) (global_total_length pk) && tcpudp_ok (buf pk) (global_total_length pk) then
    ∃ pk', nf_process device pk (replicate 6 v) =
        Some (if device =? 0 then 1 else 0, pk', replicate 6 (u64 (v + 1))) ∧
      load_bytes pk' (base pk + d_addr_off) 6 = Some [1; 35; 69; 103; 137; if device =? 0 then 1 else 0] ∧
      load_bytes pk' (base pk + s_addr_off) 6 = Some (replicate 6 0) ∧
      (∀ i, 12 ≤ i → load8 pk' (base pk + i) = load8 pk (base pk + i))
  else ∃ pk', nf_process device pk (replicate 6 v) = Some (device, pk', replicate 6 v) ∧ buf pk' = buf pk.
Proof.
  intros HR. pose proof (rc_base _ _ HR). pose proof (rc_total _ _ HR). pose proof (rc_buf _ _ HR).
  pose proof (rc_tail _ _ HR). unfold nf_process.
  change (nf_borrow_next_chunk pk 14) with (nf_then_get_rte_ether_header pk).
  rewrite (ether_header_spec pk tail HR). cbn [mbind option_bind].
  rewrite (ipv4_header_spec pk tail HR). cbn [mbind option_bind].
  destruct (ipv4_ok (buf pk) (global_total_length pk)) eqn:Hip; cbn [andb].
  2: { rewrite Z.eqb_refl. eexists. split; [done|]. by destruct (after_ipv4_frame pk) as (_ & ? & _). }
  rewrite not_null by (unfold NULL; lia).
  rewrite (tcpudp_header_spec pk tail HR Hip). cbn [mbind option_bind].
  destruct (after_ipv4_read pk Hip) as (_ & _ & _ & Hoff).
  destruct (after_tcpudp_frame pk) as (Hb & Hbuf & _).
  destruct (tcpudp_ok (buf pk) (global_total_length pk)) eqn:Htu.
  2: { rewrite Z.eqb_refl. by eexists. }
  rewrite not_null by (unfold NULL; lia). rewrite count_packet_spec. cbn [mbind option_bind].
  set (pk3 := after_tcpudp pk) in *.
  assert (∀ dm, zlen dm = 6 → ∃ pk4 pk5, store_bytes pk3 (base pk + d_addr_off) dm = Some pk4 ∧
      store_bytes pk4 (base pk + s_addr_off) [0; 0; 0; 0; 0; 0] = Some pk5 ∧
      load_bytes pk5 (base pk + d_addr_off) 6 = Some dm ∧
      load_bytes pk5 (base pk + s_addr_off) 6 = Some (replicate 6 0) ∧
      (∀ i, 12 ≤ i → load8 pk5 (base pk + i) = load8 pk (base pk + i))) as Hmacs.
  { intros dm Hdm. unfold d_addr_off, s_addr_off.
    destruct (store_bytes_edits pk3 (base pk + 0) dm) as (pk4 & Hst1 & E1 & V1);
      [lia|rewrite Hbuf; lia|].
    pose proof (ed_base _ _ _ E1). pose proof (ed_len _ _ _ E1) as Hl1.
    destruct (store_bytes_edits pk4 (base pk + 6) [0; 0; 0; 0; 0; 0]) as (pk5 & Hst2 & E2 & V2);
      [lia|rewrite Hl1, Hbuf; unfold zlen; simpl; unfold zlen in *; lia|].
    exists pk4, pk5. split_and!; [done|done| | |].
    - replace 6%nat with (length dm) by (unfold zlen in Hdm; lia). apply load_bytes_spec.
      eapply edits_load_bytes; [exact E2|unfold span; lia|exact V1].
    - change 6%nat with (length [0; 0; 0; 0; 0; 0]). by apply load_bytes_spec.
    - intros i Hi. rewrite (ed_frame _ _ _ E2) by (unfold span, zlen; simpl; lia).
      rewrite (ed_frame _ _ _ E1) by (unfold span; lia). unfold load8. by rewrite Hb, Hbuf. }
  destruct (device =? 0); cbn [negb].
  - destruct (Hmacs [1; 35; 69; 103; 137; 1]) as (pk4 & pk5 & -> & Hs & Hm); [done|]. cbn [mbind option_bind].
    rewrite Hs. by eexists.
  - destruct (Hmacs [1; 35; 69; 103; 137; 0]) as (pk4 & pk5 & -> & Hs & Hm); [done|]. cbn [mbind option_bind].
    rewrite Hs. by eexists.
Qed.

(** ** Main results *)

Definition all_idle (s : csys) : Prop := Forall (λ k, prog k = []) (cores s).

Definition packets (s : csys) : Z := foldr (λ k z, runs k + z) 0 (cores s).

(** The programs with a spinlock, with atomic additions and with counters of each core count every
    packet.  After any interleaving of any number of cores, when no core is in its counting
    section, each of the six counters is the number of packets that the cores have counted, modulo
    the width of the counter; with counters of each core, each is the number of that core.  With
    the spinlock, there is at no time more than one core between taking and releasing it. *)
Theorem counters_exact (n : nat) (s : csys) :
  (creachable locks_section n s →
     (∀ c d k k', cores s !! c = Some k → cores s !! d = Some k' → inside k = true → inside k' = true →
        c = d) ∧
     (all_idle s → ∀ i, (i < 6)%nat → counters s !! i = Some (u64 (packets s)))) ∧
  (creachable atomic_section n s →
     all_idle s → ∀ i, (i < 6)%nat → counters s !! i = Some (u32 (packets s))) ∧
  (creachable shared_nothing_section n s →
     all_idle s → ∀ c k i, cores s !! c = Some k → (i < 6)%nat → own k !! i = Some (u64 (runs k))).
Proof.
  split; [|split].
  - intros HI%locks_inv_reachable. split.
    + intros c d k k' Hk Hk'. eapply one_inside_unique; [apply (lo_inside _ HI)|done|done].
    + intros Hid i Hi. rewrite (lo_counters _ HI) by done. unfold packets. by rewrite (total_idle Store).
  - intros [_ Hc]%atomic_inv_reachable Hid i Hi. rewrite Hc by done. unfold packets. by rewrite (total_idle AtomicAdd).
  - intros [_ Hown]%own_inv_reachable Hid c k i Hk Hi.
    destruct (Forall_lookup_1 _ _ _ _ Hown Hk) as [Ho _]. rewrite Ho by done.
    pose proof (Forall_lookup_1 _ _ _ _ Hid Hk) as Hp. cbn beta in Hp. unfold core_total.
    rewrite Hp, (bool_decide_eq_false_2 ([] ≠ [] ∧ _)) by (by intros [? _]). simpl. by rewrite Z.add_0_r.
Qed.

(** The program with transactions counts every packet: [nf_init] gives every core its number, and
    then each counter is the number of completed packets whenever no core is in its section. *)
Theorem tm_counters_exact lcores capacity (s : sys) :
  reachable counters_nf lcores (λ c, (HTM_thr_init (Z.of_nat c) NO_TID 0).1.2) capacity (replicate 6 0) s →
  quiet lcores s → shared s = replicate 6 (u64 (zlen (log s))).
Proof.
  intros Hr Hq.
  assert (∀ c, (HTM_thr_init (Z.of_nat c) NO_TID 0).1.2 = Z.of_nat c) as Htid.
  { intros c. unfold HTM_thr_init, NO_TID. simpl. destruct (Z.eqb_spec (Z.of_nat c) (-1)); [lia|done]. }
  set (tid := λ c, (HTM_thr_init (Z.of_nat c) NO_TID 0).1.2) in *.
  assert (∀ c, c ∈ lcores → tid c ≠ NO_TID) as Hset
    by (intros c _; unfold tid; rewrite Htid; unfold NO_TID; lia).
  assert (∀ c d, c ∈ lcores → d ∈ lcores → tid c = tid d → c = d) as Hinj
    by (intros c d _ _; unfold tid; rewrite !Htid; lia).
  destruct (reachable_behind counters_nf lcores tid capacity (replicate 6 0) Hset Hinj s Hr) as (d & Hs & Hb).
  rewrite (behind_quiet _ _ _ _ Hq Hb). by apply serial_counts.
Qed.

(** Without protection two packets are counted once: both cores load before one stores. *)
Example unprotected_loses_packets :
  (λ s, (counters s, runs <$> cores s)) <$>
    run_cores unprotected_section
      (replicate 2 0%nat ++ replicate 2 1%nat ++ replicate 17 0%nat ++ replicate 17 1%nat)
      (counters_init 2) = Some ([1; 2; 2; 2; 2; 2], [1; 1]).
Proof. vm_compute. reflexivity. Qed.

Example locks_count_both :
  (λ s, (counters s, runs <$> cores s)) <$>
    run_cores locks_section
      (replicate 3 0%nat ++ replicate 3 1%nat ++ replicate 18 0%nat ++ replicate 19 1%nat ++ [1%nat])
      (counters_init 2) = Some (replicate 6 2, [1; 1]).
Proof. vm_compute. reflexivity. Qed.
