(* ===== verification/Replay.v ===== *)
(** * Replaying traces (synthesized/boilerplate/call_path_hitter.c)

    The program that runs a network function over recorded traffic: the packets
    of the traces are collected in a growing array, sorted by time and handed to
    [nf_process] in that order, several times over.  The contents of the traces
    and [nf_process] are parameters, and so is [qsort], with what it promises. *)
From stdpp Require Import base list numbers sorting.
From Stdlib Require Import ZArith Lia SpecFloat.
From S2P Require Import Prelude.
From S2P Require Import Double.

(** struct pkt; the bytes at [pkt] belong to it. *)
Record pkt := Pkt { ts : Z; pktlen : Z; pkt_bytes : list Z; pkt_device : Z }.

(** A packet of a trace: struct pcap_pkthdr and the captured bytes. *)
Record captured := Captured { tv_sec : Z; tv_usec : Z; hdr_len : Z; cap_bytes : list Z }.

(** struct pkts; [slots] is the allocated array. *)
Record pkts := Pkts { slots : list (option pkt); n_pkts : Z; reserved : Z }.

Definition cmpfunc (p1 p2 : pkt) : Z := if ts p2 <? ts p1 then 1 else if ts p1 <? ts p2 then -1 else 0.

(** The time in nanoseconds, computed with doubles. *)
Definition timestamp (c : captured) : option Z :=
  uint64_of_double (SFadd 53 1024 (double_mul (double_of_Z (tv_sec c)) (double_of_Z 1000000000))
                      (double_mul (double_of_Z (tv_usec c)) (double_of_Z 1000))).

(** The packet that is stored; [memcpy] reads [hdr_len] bytes of what was captured. *)
Definition read_packet (device : Z) (c : captured) : option pkt :=
  t ← timestamp c;
  _ ← c_assert (hdr_len c <=? zlen (cap_bytes c));
  Some (Pkt t (hdr_len c) (take (Z.to_nat (hdr_len c)) (cap_bytes c)) device).

Section replay.
(** Whether an allocation of so many bytes succeeds; the results are not tested. *)
Variable alloc : Z → bool.

Definition packetHandler (device : Z) (c : captured) (s : pkts) : option pkts :=
  s ← (if reserved s <=? n_pkts s then
         let r := u32 (n_pkts s + 1000) in
         _ ← c_assert (alloc (u64 (32 * r)));
         Some (Pkts (resize (Z.to_nat r) None (slots s)) (n_pkts s) r)
       else Some s);
  p ← read_packet device c;
  _ ← c_assert (alloc (hdr_len c));
  sl ← wr (slots s) (n_pkts s) (Some p);
  Some (Pkts sl (u32 (n_pkts s + 1)) (reserved s)).

(** [None] for a file that cannot be opened or read; [Return] is [rte_exit].  The array is cut to
    the packets, and [reserved] stays as it is. *)
Definition load_pkts (file : option (list captured)) (device : Z) (s : pkts)
    : option (outcome pkts unit) :=
  match file with
  | None => Some (Return tt)
  | Some cs =>
      s ← foldl (λ s c, s ← s; packetHandler device c s) (Some s) cs;
      if n_pkts s <? reserved s
      then Some (Continue (Pkts (resize (Z.to_nat (n_pkts s)) None (slots s)) (n_pkts s) (reserved s)))
      else Some (Continue s)
  end.

(** The devices in the order of the arguments; [false] when one appears twice. *)
Fixpoint nf_config_init_devices (seen devices : list Z) : bool :=
  match devices with
  | [] => true
  | d :: ds => if existsb (Z.eqb d) seen then false else nf_config_init_devices (seen ++ [d]) ds
  end.

Variable qsort : list pkt → list pkt.

(** [nf_config_init] on the parsed arguments: a device and a trace each.  [Return] is an exit.
    The last loop checks the order. *)
Definition nf_config_init (args : list (Z * option (list captured))) : option (outcome (list pkt) unit) :=
  if negb (nf_config_init_devices [] (fst <$> args)) then Some (Return tt) else
  o ← foldl (λ o '(device, file), o ← o;
        match o with Continue s => load_pkts file device s | Return _ => Some o end)
      (Some (Continue (Pkts [] 0 0))) args;
  match o with
  | Return _ => Some (Return tt)
  | Continue s =>
      ps ← mapM id (take (Z.to_nat (n_pkts s)) (slots s));
      let ps := qsort ps in
      _ ← for_each 0 (zlen ps) (λ i last_ts,
            p ← rd ps i; _ ← c_assert (last_ts <=? ts p); Some (ts p)) 0;
      Some (Continue ps)
  end.

(** [nf_process] on a state, with the bytes it leaves in the packet. *)
Context {State : Type}.
Variable nf_process : Z → list Z → Z → Z → State → option (State * list Z).

(** A call: the device, the length and the time. *)
Abbreviation call := (Z * Z * Z)%type.

(** The body of the inner loop; the state is the packets, the state of the function, the calls so
    far and [last_ts]. *)
Definition replay_packet (base_ts i : Z) (s : list pkt * State * list call * Z)
    : option (list pkt * State * list call * Z) :=
  let '(ps, st, calls, last_ts) := s in
  p ← rd ps i;
  let current_time := s64 (u64 (ts p + u64 base_ts)) in
  '(st, bytes) ← nf_process (u16 (pkt_device p)) (pkt_bytes p) (u16 (pktlen p)) current_time st;
  ps ← wr ps i (Pkt (ts p) (pktlen p) bytes (pkt_device p));
  Some (ps, st, calls ++ [(u16 (pkt_device p), u16 (pktlen p), current_time)], current_time).

(** Returns the state of the function and the calls. *)
Definition worker_main (loops : Z) (ps : list pkt) (st : State) : option (State * list call) :=
  '(_, st, calls, _, _) ← for_each 0 loops (λ _ '(ps, st, calls, last_ts, base_ts),
      '(ps, st, calls, last_ts) ← for_each 0 (zlen ps) (replay_packet base_ts) (ps, st, calls, last_ts);
      Some (ps, st, calls, last_ts, last_ts)) (ps, st, [], 0, 0);
  Some (st, calls).

End replay.

(** ** Collecting the packets *)

(** Space is reserved by the thousand. *)
Definition rounded (n : Z) : Z := 1000 * ((n + 999) / 1000).

Lemma rounded_bounds n : 0 ≤ n → n ≤ rounded n < n + 1000 ∧ (rounded n = n ↔ n mod 1000 = 0).
Proof. intros Hn. unfold rounded. Z.div_mod_to_equations. lia. Qed.

Lemma rounded_succ n : 0 ≤ n → rounded (n + 1) = if rounded n <=? n then n + 1000 else rounded n.
Proof.
  intros Hn. pose proof (rounded_bounds n Hn). destruct (Z.leb_spec (rounded n) n);
    unfold rounded in *; Z.div_mod_to_equations; lia.
Qed.

Record holds (s : pkts) (ps : list pkt) : Prop := Holds {
  ho_count : n_pkts s = zlen ps;
  ho_reserved : reserved s = rounded (zlen ps);
  ho_length : zlen (slots s) = reserved s;
  ho_packets : take (length ps) (slots s) = Some <$> ps
}.

Section collect.
Context (alloc : Z → bool).
Hypothesis alloc_ok : ∀ n, alloc n = true.

Lemma handler_spec device c s ps p :
  holds s ps → zlen ps < 2 ^ 31 → read_packet device c = Some p →
  ∃ s', packetHandler alloc device c s = Some s' ∧ holds s' (ps ++ [p]).
Proof.
  intros [Hn Hr Hl Hp] Hb Hc. unfold packetHandler. assert (0 ≤ zlen ps) as H0 by (unfold zlen; lia).
  pose proof (rounded_bounds (zlen ps) H0) as [Hrb _]. rewrite Hn, Hr, !alloc_ok.
  assert (zlen (ps ++ [p]) = zlen ps + 1) as Hz by (unfold zlen; rewrite length_app; simpl; lia).
  pose proof (rounded_succ (zlen ps) H0) as Hs. rewrite <- Hz in Hs.
  assert (∀ sl r, zlen sl = r → zlen ps < r → take (length ps) sl = Some <$> ps → r = rounded (zlen (ps ++ [p])) →
    ∃ s', (p ← read_packet device c; sl ← wr sl (zlen ps) (Some p);
           Some (Pkts sl (u32 (zlen ps + 1)) r)) = Some s' ∧ holds s' (ps ++ [p])) as Hstore.
  { intros sl r Hsl Hlt Htk Hrr. rewrite Hc. cbn [mbind option_bind c_assert]. rewrite wr_Some by lia.
    cbn [mbind option_bind]. eexists. split; [done|]. constructor; simpl.
    - rewrite u32_small, Hz by lia. done.
    - done.
    - by rewrite zlen_insert.
    - unfold zlen. rewrite Nat2Z.id, length_app, fmap_app. simpl. rewrite Nat.add_1_r.
      rewrite (take_S_r _ _ (Some p)) by (apply list_lookup_insert_eq; unfold zlen in *; lia).
      by rewrite take_insert_ge, Htk by lia. }
  destruct (Z.leb_spec (rounded (zlen ps)) (zlen ps)) as [Hle|Hgt]; cbn [c_assert mbind option_bind slots n_pkts reserved].
  - rewrite (u32_small (zlen ps + 1000)) by lia. apply Hstore; [|lia| |done].
    + unfold zlen. rewrite length_resize. lia.
    + rewrite take_resize_le; [|unfold zlen; lia]. rewrite <- Hp. unfold zlen in *. rewrite resize_le; [done|lia].
  - rewrite Hn, Hr. apply Hstore; [lia|lia|done|done].
Qed.

Lemma handlers_spec device cs ps : ∀ s qs,
  holds s qs → zlen qs + zlen cs < 2 ^ 31 → mapM (read_packet device) cs = Some ps →
  ∃ s', foldl (λ s c, s ← s; packetHandler alloc device c s) (Some s) cs = Some s' ∧ holds s' (qs ++ ps).
Proof.
  revert ps. induction cs as [|c cs IH]; intros ps s qs Hs Hb Hm; simpl in Hm.
  { injection Hm as <-. exists s. by rewrite app_nil_r. }
  destruct (read_packet device c) as [p|] eqn:Hp; [|done]. simpl in Hm.
  destruct (mapM (read_packet device) cs) as [ps'|]; [|done]. injection Hm as <-. cbn [foldl].
  unfold zlen in Hb. simpl in Hb.
  destruct (handler_spec device c s qs p Hs ltac:(unfold zlen; lia) Hp) as (s1 & Hs1 & Hh1).
  cbn [mbind option_bind]. rewrite Hs1.
  destruct (IH ps' s1 (qs ++ [p]) Hh1) as (s' & Hf & Hh); [|done|].
  { unfold zlen. rewrite length_app. simpl. lia. }
  exists s'. split; [exact Hf|]. by rewrite <- app_assoc in Hh.
Qed.

(** One trace is collected as it is. *)
Lemma load_spec device cs ps :
  zlen cs < 2 ^ 31 → mapM (read_packet device) cs = Some ps →
  ∃ s, load_pkts alloc (Some cs) device (Pkts [] 0 0) = Some (Continue s) ∧
    n_pkts s = zlen ps ∧ reserved s = rounded (zlen ps) ∧ slots s = Some <$> ps.
Proof.
  intros Hb Hm. destruct (handlers_spec device cs ps (Pkts [] 0 0) []) as (s & Hf & [Hn Hr Hl Hp]);
    [by constructor|unfold zlen in *; simpl; lia|done|]. cbn [app] in *.
  unfold load_pkts. rewrite Hf. cbn [mbind option_bind].
  pose proof (rounded_bounds (zlen ps) ltac:(unfold zlen; lia)) as [Hrb _].
  rewrite Hn, Hr. destruct (Z.ltb_spec (zlen ps) (rounded (zlen ps))).
  - eexists. split; [done|]. simpl. split_and!; [done|done|]. unfold zlen. rewrite Nat2Z.id.
    rewrite resize_le; [done|]. unfold zlen in *. lia.
  - exists s. split; [done|]. split_and!; [done|done|]. rewrite <- Hp, firstn_all2; [done|]. unfold zlen in *. lia.
Qed.

(** After a trace whose packets do not fill what was reserved, the array is shorter than
    [reserved]: the first packet of the next trace is stored behind its end. *)
Theorem second_trace_out_of_bounds device device' cs c cs' ps :
  zlen cs < 2 ^ 31 → mapM (read_packet device) cs = Some ps → zlen cs mod 1000 ≠ 0 →
  ∃ s, load_pkts alloc (Some cs) device (Pkts [] 0 0) = Some (Continue s) ∧
    load_pkts alloc (Some (c :: cs')) device' s = None.
Proof.
  intros Hb Hm Hmod. destruct (load_spec device cs ps Hb Hm) as (s & Hl & Hn & Hr & Hs).
  exists s. split; [done|].
  assert (zlen ps = zlen cs) as Hz by (pose proof (length_mapM _ _ _ Hm); unfold zlen; lia).
  pose proof (rounded_bounds (zlen ps) ltac:(unfold zlen; lia)) as [Hrb Hiff]. rewrite Hz in *.
  assert (packetHandler alloc device' c s = None) as Hnone.
  { unfold packetHandler. rewrite Hn, Hr. destruct (Z.leb_spec (rounded (zlen cs)) (zlen cs)); [lia|].
    cbn [mbind option_bind]. destruct (read_packet device' c); [|done]. cbn [mbind option_bind].
    rewrite alloc_ok. cbn [c_assert mbind option_bind]. unfold wr. rewrite Hn, Hs, length_fmap.
    destruct (Z.ltb_spec (zlen cs) (Z.of_nat (length ps))); [unfold zlen in *; lia|]. by rewrite andb_false_r. }
  unfold load_pkts. cbn [foldl]. change (Some s ≫= packetHandler alloc device' c) with (packetHandler alloc device' c s).
  cbn [mbind option_bind]. rewrite Hnone.
  clear. induction cs' as [|c' cs' IH]; [done|]. exact IH.
Qed.

End collect.

(** ** The order of the calls *)

Definition before (p q : pkt) : Prop := cmpfunc p q ≤ 0.

Lemma before_ts p q : before p q ↔ ts p ≤ ts q.
Proof. unfold before, cmpfunc. destruct (Z.ltb_spec (ts q) (ts p)), (Z.ltb_spec (ts p) (ts q)); lia. Qed.

Lemma before_strong ps : Sorted before ps → StronglySorted before ps.
Proof. apply Sorted_StronglySorted. intros x y z. rewrite !before_ts. lia. Qed.

(** What the C library promises of [qsort]. *)
Record qsort_ok (qsort : list pkt → list pkt) : Prop := QsortOk {
  qs_perm : ∀ l, qsort l ≡ₚ l;
  qs_sorted : ∀ l, Sorted before (qsort l)
}.

Lemma mapM_Some_id {A} (l : list A) : mapM id (Some <$> l) = Some l.
Proof. apply mapM_Some, Forall2_fmap_l, Forall_Forall2_diag, Forall_true. done. Qed.

(** The time of the last packet. *)
Definition last_time (ps : list pkt) : Z := default 0 (ts <$> last ps).

(** The calls of one pass and of all passes: each pass starts where the last one ended. *)
Definition pass (ps : list pkt) (k : Z) : list (Z * Z * Z) :=
  (λ p, (u16 (pkt_device p), u16 (pktlen p), ts p + k * last_time ps)) <$> ps.

Definition passes (ps : list pkt) (loops : Z) : list (Z * Z * Z) := seqZ 0 loops ≫= pass ps.

Lemma sorted_lookup ps i j p q : Sorted before ps → ps !! i = Some p → ps !! j = Some q → (i ≤ j)%nat →
  ts p ≤ ts q.
Proof.
  intros Hss%before_strong Hp Hq Hij.
  destruct (decide (i = j)) as [->|Hne]; [simplify_eq; lia|].
  revert i j Hp Hq Hij Hne. induction Hss as [|x l _ IH Hall]; intros [|i] [|j] Hp Hq Hij Hne; try done.
  - simpl in Hp. simplify_eq. simpl in Hq. apply before_ts. by eapply (Forall_lookup_1 _ _ _ _ Hall).
  - lia.
  - simpl in Hp, Hq. eapply IH; [done|done|lia|lia].
Qed.

Lemma last_time_bound ps p : Sorted before ps → p ∈ ps → ts p ≤ last_time ps.
Proof.
  intros Hs [i Hi]%list_elem_of_lookup. unfold last_time. rewrite last_lookup.
  pose proof (lookup_lt_Some _ _ _ Hi) as Hlt.
  destruct (lookup_lt_is_Some_2 ps (pred (length ps))) as [q Hq]; [lia|]. rewrite Hq. simpl.
  eapply (sorted_lookup ps); [done|done|done|lia].
Qed.

(** The times of the calls never decrease. *)
Lemma passes_sorted ps loops : Sorted before ps → Forall (λ p, 0 ≤ ts p) ps →
  StronglySorted Z.le (snd <$> passes ps loops).
Proof.
  intros Hs Hpos.
  assert (∀ n k, StronglySorted Z.le (snd <$> (seqZ k (Z.of_nat n) ≫= pass ps)) ∧
    Forall (λ t, k * last_time ps ≤ t) (snd <$> (seqZ k (Z.of_nat n) ≫= pass ps))) as Hall.
  2: { unfold passes. destruct (Z.le_gt_cases 0 loops) as [H0|H0].
       - rewrite <- (Z2Nat.id loops) by done. apply Hall.
       - rewrite seqZ_nil by lia. constructor. }
  assert (∀ k, Forall (λ t, k * last_time ps ≤ t ≤ (k + 1) * last_time ps) (snd <$> pass ps k)) as Hrange.
  { intros k. unfold pass. rewrite <- list_fmap_compose. apply Forall_fmap, Forall_forall. intros p Hp. simpl.
    pose proof (last_time_bound ps p Hs Hp). rewrite Forall_forall in Hpos. specialize (Hpos p Hp). lia. }
  assert (∀ k, StronglySorted Z.le (snd <$> pass ps k)) as Hpass.
  { intros k. unfold pass. rewrite <- list_fmap_compose.
    apply before_strong in Hs as Hss.
    generalize (last_time ps). intros T. clear -Hss. induction Hss as [|x l _ IH Hx]; [constructor|].
    simpl. constructor; [done|]. apply Forall_fmap. eapply Forall_impl; [exact Hx|]. intros q Hq%before_ts. simpl in *. lia. }
  assert (0 ≤ last_time ps) as HT.
  { unfold last_time. destruct (last ps) as [q|] eqn:E; [|done]. simpl.
    apply last_Some_elem_of in E. rewrite Forall_forall in Hpos. by apply Hpos. }
  induction n as [|n IH]; intros k; [split; constructor|]. rewrite seqZ_cons by lia.
  replace (Z.pred (Z.of_nat (S n))) with (Z.of_nat n) by lia. cbn [mbind list_bind]. rewrite fmap_app.
  destruct (IH (Z.succ k)) as [Hst Hlow]. split.
  - apply StronglySorted_app_2; [|apply Hpass|exact Hst].
    intros x y Hx Hy. rewrite Forall_forall in Hlow. specialize (Hlow y Hy).
    pose proof (Hrange k) as Hr. rewrite Forall_forall in Hr. specialize (Hr x Hx). lia.
  - apply Forall_app. split; [eapply Forall_impl; [apply Hrange|]; simpl; lia|].
    eapply Forall_impl; [exact Hlow|]. simpl. intros t Ht. lia.
Qed.

(** The fields that [nf_process] cannot change. *)
Definition meta (p : pkt) : Z * Z * Z := (ts p, pktlen p, pkt_device p).

Section passes.
Context {State : Type} (nf_process : Z → list Z → Z → Z → State → option (State * list Z)).
Hypothesis nf_total : ∀ d b l t st, is_Some (nf_process d b l t st).
Context (ps : list pkt).
Hypothesis ps_sorted : Sorted before ps.
Hypothesis ps_times : Forall (λ p, 0 ≤ ts p) ps.

Lemma ps_at i p : ps !! i = Some p → 0 ≤ ts p ≤ last_time ps.
Proof.
  intros Hi. apply list_elem_of_lookup_2 in Hi as Hin. split; [|by apply last_time_bound].
  rewrite Forall_forall in ps_times. by apply ps_times.
Qed.

Lemma pass_spec k qs st calls last :
  meta <$> qs = meta <$> ps → 0 ≤ k → zlen ps < 2 ^ 32 → (k + 1) * last_time ps < 2 ^ 63 →
  last = k * last_time ps →
  ∃ qs' st', for_each 0 (zlen qs) (replay_packet nf_process (k * last_time ps)) (qs, st, calls, last) =
      Some (qs', st', calls ++ pass ps k, (k + 1) * last_time ps) ∧ meta <$> qs' = meta <$> ps.
Proof.
  intros Hm Hk Hn Hb ->. set (T := last_time ps) in *.
  assert (zlen qs = zlen ps) as Hl.
  { apply (f_equal length) in Hm. rewrite !length_fmap in Hm. unfold zlen. lia. }
  assert (0 ≤ T) as HT.
  { unfold T, last_time. destruct (list.last ps) as [q|] eqn:E; [|done]. simpl.
    apply last_Some_elem_of in E. rewrite Forall_forall in ps_times. by apply ps_times. }
  destruct (for_each_rule (λ i '(qs', st', cs, l), meta <$> qs' = meta <$> ps ∧
      cs = calls ++ take (Z.to_nat i) (pass ps k) ∧
      (if i =? 0 then l = k * T else ∃ p, ps !! Z.to_nat (i - 1) = Some p ∧ l = ts p + k * T)) 0 (zlen qs)
    (replay_packet nf_process (k * T)) (qs, st, calls, k * T)) as ([[[qs' st'] cs] l] & -> & Hm' & -> & Hlast);
    [unfold zlen; lia|lia|by rewrite app_nil_r| |].
  - intros i [[[qs' st'] cs] l] Hi (Hm' & -> & Hlast). unfold replay_packet.
    destruct (lookup_lt_is_Some_2 ps (Z.to_nat i)) as [p Hp]; [unfold zlen in *; lia|].
    assert (∃ q, qs' !! Z.to_nat i = Some q ∧ meta q = meta p) as (q & Hq & Hmq).
    { apply (f_equal (.!! Z.to_nat i)) in Hm'. rewrite !list_lookup_fmap, Hp in Hm'.
      destruct (qs' !! Z.to_nat i) as [q|]; [|done]. injection Hm'. intros. exists q. split; [done|].
      unfold meta. congruence. }
    unfold meta in Hmq. injection Hmq as Ht Hpl Hdev.
    rewrite rd_lookup, Hq by lia. cbn [mbind option_bind]. rewrite Ht, Hpl, Hdev.
    pose proof (ps_at _ _ Hp) as Htp. fold T in Htp.
    rewrite (u64_small (k * T)) by lia. rewrite u64_small by lia. rewrite s64_small by lia.
    destruct (nf_total (u16 (pkt_device p)) (pkt_bytes q) (u16 (pktlen p)) (ts p + k * T) st') as [[st2 b] ->].
    cbn [mbind option_bind].
    assert (length qs' = length ps) as Hlq.
    { apply (f_equal length) in Hm'. by rewrite !length_fmap in Hm'. }
    rewrite wr_Some by (unfold zlen in *; lia). cbn [mbind option_bind]. eexists. split; [done|]. cbv beta iota.
    split_and!.
    + rewrite list_fmap_insert, Hm'. apply list_insert_id. by rewrite list_lookup_fmap, Hp.
    + rewrite <- app_assoc. f_equal. replace (Z.to_nat (i + 1)) with (S (Z.to_nat i)) by lia.
      symmetry. apply take_S_r. unfold pass. rewrite list_lookup_fmap, Hp. done.
    + destruct (Z.eqb_spec (i + 1) 0); [lia|]. exists p. split; [|done]. by rewrite Z.add_simpl_r.
  - exists qs', st'. split; [|done]. do 2 f_equal.
    + do 2 f_equal. apply firstn_all2. unfold pass. rewrite length_fmap. unfold zlen in *. lia.
    + revert Hlast. destruct (Z.eqb_spec (zlen qs) 0) as [H0|H0]; intros Hlast.
      * assert (T = 0) as HT0; [|rewrite Hlast, HT0; lia].
        subst T. destruct ps; [done|unfold zlen in *; simpl in *; lia].
      * destruct Hlast as (p & Hp & ->). subst T. unfold last_time. rewrite last_lookup.
        replace (pred (length ps)) with (Z.to_nat (zlen qs - 1)) by (unfold zlen in *; lia).
        rewrite Hp. simpl. lia.
Qed.

Lemma worker_spec loops st :
  0 ≤ loops < 2 ^ 32 → zlen ps < 2 ^ 32 → loops * last_time ps < 2 ^ 63 →
  ∃ st', worker_main nf_process loops ps st = Some (st', passes ps loops).
Proof.
  intros Hl Hn Hb. unfold worker_main.
  destruct (for_each_rule (λ k '(qs, st', cs, l, b), meta <$> qs = meta <$> ps ∧ cs = passes ps k ∧
      b = k * last_time ps ∧ l = b) 0 loops
    (λ _ '(ps, st, calls, last_ts, base_ts),
      '(ps, st, calls, last_ts) ← for_each 0 (zlen ps) (replay_packet nf_process base_ts) (ps, st, calls, last_ts);
      Some (ps, st, calls, last_ts, last_ts)) (ps, st, [], 0, 0))
    as ([[[[qs st'] cs] l] b] & -> & Hm & -> & _); [lia|lia|done| |].
  - intros k [[[[qs st'] cs] l] b] Hk (Hm & -> & -> & ->).
    assert (0 ≤ last_time ps) as HT.
    { unfold last_time. destruct (list.last ps) as [q|] eqn:E; [|done]. simpl.
      apply last_Some_elem_of in E. rewrite Forall_forall in ps_times. by apply ps_times. }
    destruct (pass_spec k qs st' (passes ps k) (k * last_time ps) Hm) as (qs' & st2 & -> & Hm');
      [lia|done|nia|done|].
    cbn [mbind option_bind]. eexists. split; [done|]. cbv beta iota. split_and!; [done| |done|done].
    unfold passes. replace (k + 1) with (k + 1)%Z by done. rewrite seqZ_app by lia. rewrite bind_app.
    simpl. by rewrite app_nil_r, Z.add_0_l.
  - cbn [mbind option_bind]. by eexists.
Qed.

End passes.

(** ** Main result *)

(** One trace is replayed in order.  Whatever order [qsort] gives to packets of the same time, when
    allocations succeed and every packet of the trace was captured whole, the program stores exactly
    the packets of the trace, its check of the order does not fail, and with a function that is
    always defined it calls [nf_process] for every packet in every pass, in the order of the times,
    each pass starting at the time at which the last one ended: the times of the calls never
    decrease. *)
Theorem trace_replayed_in_order {State} (nf_process : Z → list Z → Z → Z → State → option (State * list Z))
    (alloc : Z → bool) (qsort : list pkt → list pkt) device cs ps loops st :
  (∀ n, alloc n = true) → qsort_ok qsort → (∀ d b l t st, is_Some (nf_process d b l t st)) →
  zlen cs < 2 ^ 31 → mapM (read_packet device) cs = Some ps → Forall (λ p, 0 ≤ ts p) ps →
  0 ≤ loops < 2 ^ 32 → loops * last_time (qsort ps) < 2 ^ 63 →
  ∃ sorted st', nf_config_init alloc qsort [(device, Some cs)] = Some (Continue sorted) ∧ sorted ≡ₚ ps ∧
    worker_main nf_process loops sorted st = Some (st', passes sorted loops) ∧
    StronglySorted Z.le (snd <$> passes sorted loops).
Proof.
  intros Halloc [Hperm Hsort] Hnf Hb Hm Hpos Hl Hover.
  destruct (load_spec alloc Halloc device cs ps Hb Hm) as (s & Hload & Hn & _ & Hs).
  assert (zlen (qsort ps) < 2 ^ 32) as Hz.
  { pose proof (Permutation_length (Hperm ps)). pose proof (length_mapM _ _ _ Hm). unfold zlen in *. lia. }
  assert (Forall (λ p, 0 ≤ ts p) (qsort ps)) as Hpos' by (by rewrite Hperm).
  exists (qsort ps).
  destruct (worker_spec nf_process Hnf (qsort ps) (Hsort ps) Hpos' loops st Hl Hz Hover) as (st' & Hw).
  exists st'. split_and!; [|done|done|by apply passes_sorted].
  unfold nf_config_init. cbn [fmap list_fmap fst nf_config_init_devices existsb negb foldl].
  cbn [mbind option_bind]. rewrite Hload. cbn [mbind option_bind]. rewrite Hn, Hs.
  rewrite firstn_all2 by (rewrite length_fmap; unfold zlen; lia). rewrite mapM_Some_id. cbn [mbind option_bind].
  destruct (for_each_rule (λ i l, if i =? 0 then l = 0 else ∃ p, qsort ps !! Z.to_nat (i - 1) = Some p ∧ l = ts p)
    0 (zlen (qsort ps)) (λ i last_ts, p ← rd (qsort ps) i; _ ← c_assert (last_ts <=? ts p); Some (ts p)) 0)
    as (l & -> & _); [unfold zlen; lia|lia|done| |done].
  intros i l Hi HI. rewrite rd_lookup by lia.
  destruct (lookup_lt_is_Some_2 (qsort ps) (Z.to_nat i)) as [p Hp]; [unfold zlen in *; lia|].
  rewrite Hp. cbn [mbind option_bind].
  assert (l ≤ ts p) as Hle.
  { destruct (Z.eqb_spec i 0) as [->|].
    - subst l. rewrite Forall_forall in Hpos'. apply Hpos'. by eapply list_elem_of_lookup_2.
    - destruct HI as (q & Hq & ->). eapply (sorted_lookup (qsort ps)); [done|done|done|lia]. }
  destruct (Z.leb_spec l (ts p)); [|lia]. cbn [c_assert mbind option_bind].
  eexists. split; [done|]. destruct (Z.eqb_spec (i + 1) 0); [lia|]. exists p. by rewrite Z.add_simpl_r.
Qed.

(** ** A trace *)

#[export] Instance before_decision : RelDecision before.
Proof. intros p q. unfold before. apply _. Defined.

#[export] Instance before_total : Total before.
Proof. intros p q. rewrite !before_ts. lia. Qed.

(** A stable sort keeps the promise of [qsort]. *)
Lemma merge_sort_ok : qsort_ok (merge_sort before).
Proof. constructor; intros l; [apply merge_sort_Permutation|apply (Sorted_merge_sort _)]. Qed.

(** Three packets out of order, replayed twice; the function counts the packets. *)
Definition trace : list captured :=
  [Captured 1 5 2 [7; 8]; Captured 0 900 1 [9; 9]; Captured 1 0 3 [1; 2; 3]].

Definition count (_ : Z) (b : list Z) (_ _ : Z) (n : Z) : option (Z * list Z) := Some (n + 1, b).

Example trace_replayed :
  (o ← nf_config_init (λ _, true) (merge_sort before) [(3, Some trace)];
   match o with Continue ps => worker_main count 2 ps 0 | Return _ => None end) =
  Some (6, [(3, 1, 900000); (3, 3, 1000000000); (3, 2, 1000005000);
            (3, 1, 1000905000); (3, 3, 2000005000); (3, 2, 2000010000)]).
Proof. vm_compute. reflexivity. Qed.
