(* ===== verification/Pci.v ===== *)
(** * nfos_pci.c

    The enumeration of network cards on the PCI bus when the functions run
    without an operating system.  The bus is a parameter with the documented
    behaviour of its two ports: an address is written to one, and the register at
    that address is read or written at the other. *)
From stdpp Require Import base list gmap numbers sets.
From Stdlib Require Import ZArith Lia.
From S2P Require Import Prelude.
From S2P Require Import Memory.

Definition MAX_PCI_DEVICES : Z := 32.

Definition PCI_CONFIG_ADDRESS_PORT : Z := 0xcf8.

Definition PCI_CONFIG_DATA_PORT : Z := 0xcfc.

Definition PCI_NUM_BUSES : Z := 256.

Definition PCI_DEVICES_PER_BUS : Z := 32.

Definition PCI_FUNCTIONS_PER_DEVICE : Z := 8.

Definition PCI_BAR_BASE : Z := 4.

Definition PCI_INVALID_VENDOR_ID : Z := 0xFFFF.

Definition PCI_VENDOR_REGISTER : Z := 0.

Definition PCI_STATUS_COMMAND_REGISTER : Z := 1.

Definition PCI_CLASS_CODE_REGISTER : Z := 2.

Definition PCI_SUBSYSTEM_REGISTER : Z := 11.

Definition PCI_COMMAND_MASTER : Z := 4.

Definition PCI_NUM_RESOURCES : Z := 6.

(** struct nfos_pci_resource *)
Record nfos_pci_resource := Resource { res_start : Z; res_size : Z; is_mem : bool }.

(** struct nfos_pci_nic *)
Record nfos_pci_nic := Nic {
  vendor_id : Z;
  device_id : Z;
  subsystem_id : Z;
  subsystem_vendor_id : Z;
  class_code : Z;
  resources : list nfos_pci_resource;
  interrupts_fd : Z
}.

(** What memset leaves. *)
Definition zero_nic : nfos_pci_nic := Nic 0 0 0 0 0 (replicate 6 (Resource 0 0 false)) 0.

(** nfos_outl and nfos_inl on the state of the bus. *)
Class PciPorts (H : Type) := {
  nfos_outl : Z → Z → H → H;
  nfos_inl : Z → H → Z
}.

(** The address of a register, as it is written to the port. *)
Definition config_address (bus dev function reg : Z) : Z :=
  Z.lor (Z.lor (Z.lor (Z.lor (u32 (Z.shiftl bus 16)) (u32 (Z.shiftl dev 11)))
    (u32 (Z.shiftl function 8))) (u32 (reg * 4))) (Z.shiftl 1 31).

Section pci.
Context {H : Type} `{PciPorts H}.

Definition check_address (bus dev function : Z) : option unit :=
  _ ← c_assert (bus <? PCI_NUM_BUSES);
  _ ← c_assert (dev <? PCI_DEVICES_PER_BUS);
  c_assert (function <? PCI_FUNCTIONS_PER_DEVICE).

Definition nfos_read_pci_reg (bus dev function reg : Z) (h : H) : option (Z * H) :=
  _ ← check_address bus dev function;
  let addr := config_address bus dev function reg in
  let h := nfos_outl addr PCI_CONFIG_ADDRESS_PORT h in
  Some (nfos_inl PCI_CONFIG_DATA_PORT h, h).

Definition nfos_write_pci_reg (bus dev function reg val : Z) (h : H) : option H :=
  _ ← check_address bus dev function;
  let addr := config_address bus dev function reg in
  let h := nfos_outl addr PCI_CONFIG_ADDRESS_PORT h in
  Some (nfos_outl val PCI_CONFIG_DATA_PORT h).

(** What is told of a base address register from its value and the value that is read after all
    bits have been written. *)
Definition decode_bar (orig_value read_value : Z) : nfos_pci_resource :=
  if Z.land orig_value 1 =? 0
  then Resource (Z.land orig_value 0xFFFFFFF0) (u32 (Z.lnot (Z.land read_value 0xFFFFFFF0) + 1)) true
  else Resource (Z.land orig_value 0xFFFFFFFC) (u32 (Z.lnot (Z.land read_value 0xFFFFFFFC) + 1)) false.

Definition nfos_pci_read_resource (bus dev function index : Z) (h : H)
    : option (nfos_pci_resource * H) :=
  let reg := u32 (index + PCI_BAR_BASE) in
  '(orig_value, h) ← nfos_read_pci_reg bus dev function reg h;
  h ← nfos_write_pci_reg bus dev function reg 0xFFFFFFFF h;
  '(read_value, h) ← nfos_read_pci_reg bus dev function reg h;
  h ← nfos_write_pci_reg bus dev function reg orig_value h;
  Some (decode_bar orig_value read_value, h).

(** Returns the result, [*out] and the bus. *)
Definition nfos_pci_probe_dev (bus dev function : Z) (out : nfos_pci_nic) (h : H)
    : option (Z * nfos_pci_nic * H) :=
  '(vendor_reg, h) ← nfos_read_pci_reg bus dev function PCI_VENDOR_REGISTER h;
  let vendor := u16 (Z.land vendor_reg 0xFFFF) in
  let device := u16 (Z.shiftr vendor_reg 16) in
  if vendor =? PCI_INVALID_VENDOR_ID then Some (0, out, h) else
  if negb (vendor =? 0x8086) || negb (device =? 0x10fb) then Some (0, out, h) else
  '(subsystem_reg, h) ← nfos_read_pci_reg bus dev function PCI_SUBSYSTEM_REGISTER h;
  '(class_code_reg, h) ← nfos_read_pci_reg bus dev function PCI_CLASS_CODE_REGISTER h;
  '(rs, h) ← for_each 0 PCI_NUM_RESOURCES (λ i '(rs, h),
      '(r, h) ← nfos_pci_read_resource bus dev function i h;
      rs ← wr rs i r;
      Some (rs, h)) (resources out, h);
  '(status_command_reg, h) ← nfos_read_pci_reg bus dev function PCI_STATUS_COMMAND_REGISTER h;
  h ← nfos_write_pci_reg bus dev function PCI_STATUS_COMMAND_REGISTER
        (Z.lor status_command_reg PCI_COMMAND_MASTER) h;
  Some (1, Nic vendor device (u16 (Z.shiftr subsystem_reg 16)) (u16 (Z.land subsystem_reg 0xFFFF))
             (Z.shiftr class_code_reg 24) rs (interrupts_fd out), h).

(** The body of the loop; the state is [num_devices], [devs] and the bus. *)
Definition probe_index (i : Z) (s : Z * list nfos_pci_nic * H) : option (Z * list nfos_pci_nic * H) :=
  let '(num_devices, devs, h) := s in
  let function := i mod PCI_FUNCTIONS_PER_DEVICE in
  let device := (i / PCI_FUNCTIONS_PER_DEVICE) mod PCI_DEVICES_PER_BUS in
  let bus := (i / PCI_FUNCTIONS_PER_DEVICE) / PCI_DEVICES_PER_BUS in
  if num_devices <? MAX_PCI_DEVICES then
    out ← rd devs num_devices;
    '(found, out, h) ← nfos_pci_probe_dev bus device function out h;
    devs ← wr devs num_devices out;
    Some (if negb (found =? 0) then (num_devices + 1, devs, h) else (num_devices, devs, h))
  else Some s.

(** Returns [*n], the array and the bus. *)
Definition nfos_pci_find_nics (h : H) : M (Z * list nfos_pci_nic * H) :=
  p ← malloc (MAX_PCI_DEVICES * 168);
  _ ← lift (c_assert (negb (p =? NULL)));
  lift (for_each 0 (PCI_NUM_BUSES * PCI_DEVICES_PER_BUS * PCI_FUNCTIONS_PER_DEVICE) probe_index
          (0, replicate (Z.to_nat MAX_PCI_DEVICES) zero_nic, h)).

End pci.

(** ** The behaviour of the bus *)

(** A register in configuration space. *)
Record pci_loc := Loc { l_bus : Z; l_dev : Z; l_fn : Z; l_reg : Z }.

#[export] Instance pci_loc_eq_dec : EqDecision pci_loc.
Proof. solve_decision. Defined.

Definition loc_ok (l : pci_loc) : Prop :=
  0 ≤ l_bus l < 256 ∧ 0 ≤ l_dev l < 32 ∧ 0 ≤ l_fn l < 8 ∧ 0 ≤ l_reg l < 64.

Definition loc_address (l : pci_loc) : Z := config_address (l_bus l) (l_dev l) (l_fn l) (l_reg l).

(** [conf] is what the registers hold.  A write changes the bits in [settable] of the register
    and nothing else; in the command register it sets the bit that lets the device start transfers
    (writing to the status half has effects of its own, which are left open).  Registers of
    functions that do not exist have no settable bits and read as ones. *)
Class PciLaws (H : Type) `{PciPorts H} := {
  conf : H → pci_loc → Z;
  settable : pci_loc → Z;
  conf_range : ∀ h l, 0 ≤ conf h l < 2 ^ 32;
  settable_range : ∀ l, 0 ≤ settable l < 2 ^ 32;
  conf_select : ∀ h a l, conf (nfos_outl a PCI_CONFIG_ADDRESS_PORT h) l = conf h l;
  conf_read : ∀ h l, loc_ok l →
    nfos_inl PCI_CONFIG_DATA_PORT (nfos_outl (loc_address l) PCI_CONFIG_ADDRESS_PORT h) = conf h l;
  conf_write_other : ∀ h v l l', loc_ok l → l' ≠ l →
    conf (nfos_outl v PCI_CONFIG_DATA_PORT (nfos_outl (loc_address l) PCI_CONFIG_ADDRESS_PORT h)) l' =
      conf h l';
  conf_write : ∀ h v l, loc_ok l → l_reg l ≠ PCI_STATUS_COMMAND_REGISTER →
    conf (nfos_outl v PCI_CONFIG_DATA_PORT (nfos_outl (loc_address l) PCI_CONFIG_ADDRESS_PORT h)) l =
      Z.lor (Z.land v (settable l)) (Z.ldiff (conf h l) (settable l));
  conf_master : ∀ h v l, loc_ok l → l_reg l = PCI_STATUS_COMMAND_REGISTER → Z.testbit (settable l) 2 = true →
    Z.testbit (conf (nfos_outl v PCI_CONFIG_DATA_PORT
                       (nfos_outl (loc_address l) PCI_CONFIG_ADDRESS_PORT h)) l) 2 = Z.testbit v 2
}.

(** ** What the enumeration finds *)

(** The registers of the function that is probed at step [i]. *)
Definition loc_at (i reg : Z) : pci_loc := Loc (i / 8 / 32) ((i / 8) mod 32) (i mod 8) reg.

Lemma loc_at_ok i reg : 0 ≤ i < 65536 → 0 ≤ reg < 64 → loc_ok (loc_at i reg).
Proof.
  intros Hi Hr. unfold loc_ok, loc_at. simpl. Z.div_mod_to_equations. lia.
Qed.

Lemma loc_at_inj i j r s : loc_at i r = loc_at j s → i = j ∧ r = s.
Proof. intros [= Hb Hd Hf ->]. split; [|done]. Z.div_mod_to_equations. lia. Qed.

Section laws.
Context {H : Type} `{PciLaws H}.

Implicit Types (c : pci_loc → Z).

(** A card that the driver knows. *)
Definition is_nic c (i : Z) : bool :=
  (u16 (Z.land (c (loc_at i 0)) 0xFFFF) =? 0x8086) && (u16 (Z.shiftr (c (loc_at i 0)) 16) =? 0x10fb).

Definition bar_of c (i k : Z) : nfos_pci_resource :=
  let l := loc_at i (k + 4) in
  decode_bar (c l) (Z.lor (settable l) (Z.ldiff (c l) (settable l))).

Definition nic_of c (i : Z) : nfos_pci_nic :=
  Nic (u16 (Z.land (c (loc_at i 0)) 0xFFFF)) (u16 (Z.shiftr (c (loc_at i 0)) 16))
    (u16 (Z.shiftr (c (loc_at i 11)) 16)) (u16 (Z.land (c (loc_at i 11)) 0xFFFF))
    (Z.shiftr (c (loc_at i 2)) 24) (bar_of c i <$> seqZ 0 6) 0.

(** The cards among the first [n] functions, at most 32. *)
Definition nics_before c (n : Z) : list Z := take 32 (filter (λ i, is_nic c i = true) (seqZ 0 n)).

(** Configuration space is as before. *)
Definition neutral (h h' : H) : Prop := ∀ l, conf h' l = conf h l.

Lemma check_address_ok l : loc_ok l → check_address (l_bus l) (l_dev l) (l_fn l) = Some ().
Proof.
  intros (Hb & Hd & Hf & _). unfold check_address, PCI_NUM_BUSES, PCI_DEVICES_PER_BUS, PCI_FUNCTIONS_PER_DEVICE.
  destruct (Z.ltb_spec (l_bus l) 256); [|lia]. destruct (Z.ltb_spec (l_dev l) 32); [|lia].
  by destruct (Z.ltb_spec (l_fn l) 8); [|lia].
Qed.

Lemma read_reg_spec l h : loc_ok l →
  ∃ h', nfos_read_pci_reg (l_bus l) (l_dev l) (l_fn l) (l_reg l) h = Some (conf h l, h') ∧ neutral h h'.
Proof.
  intros Hl. unfold nfos_read_pci_reg. rewrite check_address_ok by done. cbn [mbind option_bind].
  eexists. split; [by rewrite (conf_read h l Hl)|]. intros l'. apply conf_select.
Qed.

Lemma write_reg_spec l v h : loc_ok l →
  ∃ h', nfos_write_pci_reg (l_bus l) (l_dev l) (l_fn l) (l_reg l) v h = Some h' ∧
    (∀ l', l' ≠ l → conf h' l' = conf h l') ∧
    (l_reg l ≠ 1 → conf h' l = Z.lor (Z.land v (settable l)) (Z.ldiff (conf h l) (settable l))) ∧
    (l_reg l = 1 → Z.testbit (settable l) 2 = true → Z.testbit (conf h' l) 2 = Z.testbit v 2).
Proof.
  intros Hl. unfold nfos_write_pci_reg. rewrite check_address_ok by done. cbn [mbind option_bind].
  eexists. split; [done|]. split_and!.
  - intros l' Hne. by apply conf_write_other.
  - intros Hr. by apply conf_write.
  - intros Hr Hs. by apply conf_master.
Qed.

(** Writing ones and then the old value restores a register. *)
Lemma restore_value x s a : Z.lor (Z.land x s) (Z.ldiff (Z.lor (Z.land a s) (Z.ldiff x s)) s) = x.
Proof.
  apply Z.bits_inj'. intros n Hn. rewrite !Z.lor_spec, !Z.land_spec, !Z.ldiff_spec, Z.lor_spec, Z.land_spec, Z.ldiff_spec.
  by destruct (Z.testbit x n), (Z.testbit s n), (Z.testbit a n).
Qed.

Lemma ones_land s : 0 ≤ s < 2 ^ 32 → Z.land 0xFFFFFFFF s = s.
Proof.
  intros Hs. change 0xFFFFFFFF with (Z.ones 32). rewrite Z.land_comm, Z.land_ones by lia.
  by apply Z.mod_small.
Qed.

Lemma read_resource_spec i k h : 0 ≤ i < 65536 → 0 ≤ k < 6 →
  ∃ h', nfos_pci_read_resource (i / 8 / 32) ((i / 8) mod 32) (i mod 8) k h = Some (bar_of (conf h) i k, h') ∧
    neutral h h'.
Proof.
  intros Hi Hk. unfold nfos_pci_read_resource. change (k + PCI_BAR_BASE) with (k + 4).
  rewrite u32_small by lia. set (l := loc_at i (k + 4)).
  assert (loc_ok l) as Hl by (apply loc_at_ok; lia).
  destruct (read_reg_spec l h Hl) as (h1 & Hr1 & Hn1). cbn [l loc_at l_bus l_dev l_fn l_reg] in Hr1. rewrite Hr1.
  cbn [mbind option_bind].
  destruct (write_reg_spec l 0xFFFFFFFF h1 Hl) as (h2 & Hw2 & Ho2 & Hv2 & _).
  cbn [l loc_at l_bus l_dev l_fn l_reg] in Hw2. rewrite Hw2. cbn [mbind option_bind].
  destruct (read_reg_spec l h2 Hl) as (h3 & Hr3 & Hn3).
  cbn [l loc_at l_bus l_dev l_fn l_reg] in Hr3. rewrite Hr3. cbn [mbind option_bind].
  destruct (write_reg_spec l (conf h l) h3 Hl) as (h4 & Hw4 & Ho4 & Hv4 & _).
  cbn [l loc_at l_bus l_dev l_fn l_reg] in Hw4. rewrite Hw4. cbn [mbind option_bind].
  assert (l_reg l ≠ 1) as Hreg by (simpl; lia). fold l in Hv2, Hv4.
  specialize (Hv2 Hreg). specialize (Hv4 Hreg). rewrite ones_land in Hv2 by apply settable_range.
  exists h4. split.
  - unfold bar_of. fold l. by rewrite Hv2, Hn1.
  - intros l'. destruct (decide (l' = l)) as [->|Hne].
    + rewrite Hv4, Hn3, Hv2, Hn1. rewrite <- (ones_land (settable l)) at 2 by apply settable_range.
      apply restore_value.
    + by rewrite Ho4, Hn3, Ho2, Hn1.
Qed.

Lemma neutral_trans h1 h2 h3 : neutral h1 h2 → neutral h2 h3 → neutral h1 h3.
Proof. intros Ha Hb l. by rewrite Hb, Ha. Qed.

Lemma read_resources_spec i rs0 h : 0 ≤ i < 65536 → zlen rs0 = 6 →
  ∃ h', for_each 0 PCI_NUM_RESOURCES (λ k '(rs, h),
      '(r, h) ← nfos_pci_read_resource (i / 8 / 32) ((i / 8) mod 32) (i mod 8) k h;
      rs ← wr rs k r;
      Some (rs, h)) (rs0, h) = Some (bar_of (conf h) i <$> seqZ 0 6, h') ∧ neutral h h'.
Proof.
  intros Hi Hrs.
  destruct (for_each_rule (λ k '(rs, h'), neutral h h' ∧ zlen rs = 6 ∧
    ∀ j, 0 ≤ j < k → rd rs j = Some (bar_of (conf h) i j)) 0 PCI_NUM_RESOURCES
    (λ k '(rs, h),
      '(r, h) ← nfos_pci_read_resource (i / 8 / 32) ((i / 8) mod 32) (i mod 8) k h;
      rs ← wr rs k r;
      Some (rs, h)) (rs0, h)) as ([rs h'] & -> & Hn & Hlen & Hall); try (unfold PCI_NUM_RESOURCES; lia).
  - split_and!; [done|done|]. intros j Hj. lia.
  - unfold PCI_NUM_RESOURCES. intros k [rs h1] Hk (Hn & Hlen & Hall).
    destruct (read_resource_spec i k h1 Hi Hk) as (h2 & -> & Hn2). cbn [mbind option_bind].
    rewrite wr_Some by lia. cbn [mbind option_bind]. eexists. split; [done|]. split_and!.
    + by eapply neutral_trans.
    + by rewrite zlen_insert.
    + intros j Hj. destruct (decide (j = k)) as [->|Hne].
      * rewrite rd_insert_eq by lia. unfold bar_of. by rewrite !Hn.
      * rewrite rd_insert_ne by lia. apply Hall. lia.
  - exists h'. split; [|done]. do 2 f_equal. apply rd_ext.
    + by rewrite zlen_fmap_seqZ by lia.
    + intros j. destruct (decide (0 ≤ j < 6)) as [Hj|Hj].
      * rewrite rd_fmap_seqZ by done. by apply Hall.
      * rewrite !rd_None; [done| |lia]. by rewrite zlen_fmap_seqZ by lia.
Qed.

(** The probe of function [i]. *)
Lemma probe_spec i out h : 0 ≤ i < 65536 → zlen (resources out) = 6 → interrupts_fd out = 0 →
  ∃ h', nfos_pci_probe_dev (i / 8 / 32) ((i / 8) mod 32) (i mod 8) out h =
      Some (if is_nic (conf h) i then (1, nic_of (conf h) i, h') else (0, out, h')) ∧
    if is_nic (conf h) i
    then (∀ l, l ≠ loc_at i 1 → conf h' l = conf h l) ∧
         (Z.testbit (settable (loc_at i 1)) 2 = true → Z.testbit (conf h' (loc_at i 1)) 2 = true)
    else neutral h h'.
Proof.
  intros Hi Hres Hfd. unfold nfos_pci_probe_dev.
  assert (∀ r, 0 ≤ r < 64 → loc_ok (loc_at i r)) as Hok by (intros; by apply loc_at_ok).
  assert (∀ r h, 0 ≤ r < 64 → ∃ h', nfos_read_pci_reg (i / 8 / 32) ((i / 8) mod 32) (i mod 8) r h =
    Some (conf h (loc_at i r), h') ∧ neutral h h') as Hread.
  { intros r h0 Hr. apply (read_reg_spec (loc_at i r) h0). auto. }
  destruct (Hread 0 h) as (h1 & Hr1 & Hn1); [lia|].
  change PCI_VENDOR_REGISTER with 0. rewrite Hr1. cbn [mbind option_bind]. cbn zeta.
  unfold is_nic. unfold PCI_INVALID_VENDOR_ID.
  destruct (Z.eqb_spec (u16 (Z.land (conf h (loc_at i 0)) 0xFFFF)) 0x8086) as [Hv|Hv].
  2: { exists h1. split; [|done]. cbn [andb negb orb]. by destruct (_ =? 0xFFFF). }
  rewrite Hv. cbn [Z.eqb Pos.eqb negb orb andb].
  destruct (Z.eqb_spec (u16 (Z.shiftr (conf h (loc_at i 0)) 16)) 0x10fb) as [Hd|Hd]; cbn [negb].
  2: { by exists h1. }
  destruct (Hread 11 h1) as (h2 & Hr2 & Hn2); [lia|].
  change PCI_SUBSYSTEM_REGISTER with 11. rewrite Hr2. cbn [mbind option_bind].
  destruct (Hread 2 h2) as (h3 & Hr3 & Hn3); [lia|].
  change PCI_CLASS_CODE_REGISTER with 2. rewrite Hr3. cbn [mbind option_bind].
  destruct (read_resources_spec i (resources out) h3 Hi Hres) as (h4 & Hr4 & Hn4).
  rewrite Hr4. cbn [mbind option_bind].
  destruct (Hread 1 h4) as (h5 & Hr5 & Hn5); [lia|].
  change PCI_STATUS_COMMAND_REGISTER with 1. rewrite Hr5. cbn [mbind option_bind].
  destruct (write_reg_spec (loc_at i 1) (Z.lor (conf h4 (loc_at i 1)) PCI_COMMAND_MASTER) h5)
    as (h6 & Hw6 & Ho6 & _ & Hm6); [apply Hok; lia|].
  cbn [loc_at l_bus l_dev l_fn l_reg] in Hw6. rewrite Hw6. cbn [mbind option_bind].
  exists h6. split_and!.
  - unfold nic_of. rewrite Hfd, Hv, Hd.
    assert (∀ l, conf h1 l = conf h l ∧ conf h2 l = conf h l ∧ conf h3 l = conf h l) as Hc.
    { intros l. by rewrite Hn3, Hn2, Hn1. }
    assert (bar_of (conf h3) i <$> seqZ 0 6 = bar_of (conf h) i <$> seqZ 0 6) as ->.
    { apply list_fmap_ext. intros _ k _. unfold bar_of. by rewrite !(proj2 (proj2 (Hc _))). }
    by rewrite (proj1 (Hc _)), (proj1 (proj2 (Hc _))).
  - intros l Hl. by rewrite Ho6, Hn5, Hn4, Hn3, Hn2, Hn1.
  - intros Hs. rewrite Hm6 by done. rewrite Z.lor_spec. by rewrite orb_true_r.
Qed.

Lemma nics_snoc c i : 0 ≤ i →
  nics_before c (i + 1) =
    if is_nic c i && (zlen (nics_before c i) <? 32) then nics_before c i ++ [i] else nics_before c i.
Proof.
  intros Hi. unfold nics_before, zlen. rewrite seqZ_app by lia. rewrite filter_app. cbn [seqZ].
  replace (0 + i) with i by lia.
  set (F := filter (λ i, is_nic c i = true) (seqZ 0 i)).
  assert (filter (λ i, is_nic c i = true) (seqZ i 1) = if is_nic c i then [i] else []) as ->.
  { rewrite seqZ_cons by lia. rewrite filter_cons. by destruct (is_nic c i) eqn:E; case_decide; try congruence. }
  rewrite length_take. destruct (is_nic c i); cbn [andb]; [|by rewrite app_nil_r].
  destruct (Z.ltb_spec (Z.of_nat (32 `min` length F)) 32).
  - rewrite (take_ge F) by lia. apply take_ge. rewrite length_app. simpl. lia.
  - rewrite take_app_le by lia. done.
Qed.

Lemma nics_length c i : 0 ≤ zlen (nics_before c i) ≤ 32.
Proof. unfold nics_before, zlen. rewrite length_take. lia. Qed.

Lemma nics_elem c i j : j ∈ nics_before c i → 0 ≤ j < i ∧ is_nic c j = true.
Proof.
  intros Hj. assert (j ∈ filter (λ i, is_nic c i = true) (seqZ 0 i)) as Hf.
  { unfold nics_before in Hj. by eapply elem_of_take in Hj as (k & Hk%list_elem_of_lookup_2 & _). }
  apply list_elem_of_filter in Hf as [Hn Hs]. apply elem_of_seqZ in Hs. split; [lia|done].
Qed.

(** The state of the enumeration before step [i]. *)
Definition enum_inv (h0 : H) (i : Z) (s : Z * list nfos_pci_nic * H) : Prop :=
  let '(num, devs, h) := s in
  let js := nics_before (conf h0) i in
  num = zlen js ∧
  devs = (nic_of (conf h0) <$> js) ++ replicate (32 - length js) zero_nic ∧
  (∀ l, (∀ j, j ∈ js → l ≠ loc_at j 1) → conf h l = conf h0 l) ∧
  (∀ j, j ∈ js → Z.testbit (settable (loc_at j 1)) 2 = true → Z.testbit (conf h (loc_at j 1)) 2 = true).

Lemma other_reg (js : list Z) i r : r ≠ 1 → ∀ j, j ∈ js → loc_at i r ≠ loc_at j 1.
Proof. intros Hr j _ E. by apply loc_at_inj in E as [_ ?]. Qed.

Lemma same_card (h0 h : H) (js : list Z) i :
  (∀ l, (∀ j, j ∈ js → l ≠ loc_at j 1) → conf h l = conf h0 l) →
  is_nic (conf h) i = is_nic (conf h0) i ∧ nic_of (conf h) i = nic_of (conf h0) i.
Proof.
  intros Hc.
  assert (∀ r, r ≠ 1 → conf h (loc_at i r) = conf h0 (loc_at i r)) as Hr.
  { intros r Hr. apply Hc. by apply other_reg. }
  unfold is_nic, nic_of. rewrite !Hr by lia. split; [done|]. f_equal.
  apply list_fmap_ext. intros n k Hk. apply lookup_seqZ in Hk. unfold bar_of. rewrite !Hr by lia. done.
Qed.

Lemma probe_index_inv h0 i s : 0 ≤ i < 65536 → enum_inv h0 i s →
  ∃ s', probe_index i s = Some s' ∧ enum_inv h0 (i + 1) s'.
Proof.
  destruct s as [[num devs] h]. intros Hi (-> & -> & Hc & Hm).
  set (js := nics_before (conf h0) i) in *. pose proof (nics_length (conf h0) i) as Hjs. fold js in Hjs.
  destruct (same_card h0 h js i Hc) as [Hsame Hnic].
  unfold probe_index, PCI_FUNCTIONS_PER_DEVICE, PCI_DEVICES_PER_BUS, MAX_PCI_DEVICES. cbn zeta.
  unfold enum_inv. rewrite nics_snoc by lia. fold js.
  destruct (Z.ltb_spec (zlen js) 32) as [Hlt|Hge]; [|rewrite andb_false_r; by eexists].
  assert (∀ x, wr ((nic_of (conf h0) <$> js) ++ replicate (32 - length js) zero_nic) (zlen js) x =
    Some ((nic_of (conf h0) <$> js) ++ x :: replicate (31 - length js) zero_nic)) as Hwr.
  { intros x. unfold zlen in *. rewrite wr_Some.
    2: { unfold zlen. rewrite length_app, length_fmap, length_replicate. lia. }
    f_equal. rewrite Nat2Z.id. replace (length js) with (length (nic_of (conf h0) <$> js) + 0)%nat at 1
      by (rewrite length_fmap; lia). rewrite insert_app_r.
    by replace (32 - length js)%nat with (S (31 - length js)) by lia. }
  assert (rd ((nic_of (conf h0) <$> js) ++ replicate (32 - length js) zero_nic) (zlen js) = Some zero_nic) as ->.
  { rewrite rd_app_r by (unfold zlen; rewrite length_fmap; lia).
    replace (zlen js - zlen (nic_of (conf h0) <$> js)) with 0 by (unfold zlen; rewrite length_fmap; lia).
    replace (32 - length js)%nat with (S (31 - length js)) by (unfold zlen in *; lia). done. }
  cbn [mbind option_bind].
  destruct (probe_spec i zero_nic h Hi) as (h' & -> & Hres); [done|done|].
  rewrite Hsame in *. destruct (is_nic (conf h0) i) eqn:Hn; cbn [mbind option_bind]; rewrite Hwr;
    cbn [mbind option_bind Z.eqb negb andb]; eexists; (split; [done|]); cbn zeta.
  - destruct Hres as [Ho Hb]. split_and!.
    + unfold zlen. rewrite length_app. simpl. lia.
    + rewrite Hnic, fmap_app, <- app_assoc, length_app. simpl. do 3 f_equal. lia.
    + intros l Hl. rewrite Ho by (apply Hl; set_solver). apply Hc. intros j Hj. apply Hl. set_solver.
    + intros j Hj Hs. destruct (decide (j = i)) as [->|Hne]; [by apply Hb|].
      rewrite Ho by (intros E; by apply loc_at_inj in E as [? _]). apply Hm; [|done]. set_solver.
  - split_and!; [done| | |].
    + f_equal. by replace (32 - length js)%nat with (S (31 - length js)) by (unfold zlen in *; lia).
    + intros l Hl. rewrite Hres. by apply Hc.
    + intros j Hj Hs. rewrite Hres. by apply Hm.
Qed.

End laws.

(** ** Main results *)

(** C28: the enumeration finds the cards.  When memory can be allocated, [nfos_pci_find_nics] ends
    without a failed assertion; the array holds the descriptions of the first 32 functions on the
    bus that are cards of the known kind, each once and in the order of the addresses, and zeros
    behind them, and the count is their number.  Every found card whose command register has the
    bit can start transfers, and nothing else in configuration space has changed: the base address
    registers that were overwritten to learn their sizes are restored. *)
Theorem find_nics_exact {H} `{PciLaws H} (h : H) (μ : mem) rest :
  mem_ok μ → answers μ = true :: rest →
  let js := nics_before (conf h) 65536 in
  ∃ h' μ', nfos_pci_find_nics h μ =
      Some ((zlen js, (nic_of (conf h) <$> js) ++ replicate (32 - length js) zero_nic, h'), μ') ∧
    (∀ l, (∀ j, j ∈ js → l ≠ loc_at j 1) → conf h' l = conf h l) ∧
    (∀ j, j ∈ js → Z.testbit (settable (loc_at j 1)) 2 = true → Z.testbit (conf h' (loc_at j 1)) 2 = true).
Proof.
  intros Hok Hans js. unfold nfos_pci_find_nics.
  assert (malloc (MAX_PCI_DEVICES * 168) μ =
    Some (brk μ, Mem (brk μ :: live μ) rest (brk μ + Z.max 1 (MAX_PCI_DEVICES * 168)) (junk μ))) as Hm.
  { unfold malloc. by rewrite Hans. }
  rewrite (M_bind_Some _ _ _ _ _ Hm).
  assert (negb (brk μ =? NULL) = true) as Hn.
  { unfold mem_ok, NULL in *. destruct (Z.eqb_spec (brk μ) 0); [lia|done]. }
  rewrite Hn. cbn [c_assert]. mpure.
  destruct (for_each_rule (enum_inv h) 0 65536 probe_index
    (0, replicate (Z.to_nat MAX_PCI_DEVICES) zero_nic, h)) as ([[num devs] h'] & Hf & -> & -> & Hc & Hb);
    [lia|lia| | |].
  - split_and!; [done|done|done|]. intros j Hj. by apply nics_elem in Hj as [? _]; lia.
  - intros i s Hi. by apply probe_index_inv.
  - change (PCI_NUM_BUSES * PCI_DEVICES_PER_BUS * PCI_FUNCTIONS_PER_DEVICE) with 65536.
    unfold lift. rewrite Hf. by eexists _, _.
Qed.

Lemma land_bar_mask x d : 0 ≤ x < 2 ^ 28 → 0 ≤ d < 16 →
  Z.land (Z.lor (Z.shiftl x 4) d) 0xFFFFFFF0 = Z.shiftl x 4.
Proof.
  intros Hx Hd. change 0xFFFFFFF0 with (Z.shiftl (Z.ones 28) 4).
  rewrite Z.land_lor_distr_l, <- Z.shiftl_land, (Z.land_ones x) by lia.
  rewrite (Z.mod_small x) by lia.
  assert (Z.land d (Z.ones 4) = d) as <- by (rewrite Z.land_ones by lia; by apply Z.mod_small).
  rewrite <- (Z.land_assoc d). change (Z.land (Z.ones 4) (Z.shiftl (Z.ones 28) 4)) with 0.
  by rewrite Z.land_0_r, Z.lor_0_r.
Qed.

(** The size of a resource: when the card decodes the low [k] bits of a memory address, the size
    that is computed from the bits that cannot be set is [2 ^ k]. *)
Theorem bar_size_exact {H} `{PciLaws H} (h : H) i n k :
  4 ≤ k < 32 → settable (loc_at i (n + 4)) = 2 ^ 32 - 2 ^ k →
  0 ≤ Z.ldiff (conf h (loc_at i (n + 4))) (settable (loc_at i (n + 4))) < 16 →
  Z.land (conf h (loc_at i (n + 4))) 1 = 0 →
  bar_of (conf h) i n = Resource (Z.land (conf h (loc_at i (n + 4))) 0xFFFFFFF0) (2 ^ k) true.
Proof.
  intros Hk Hs Hd Hm. unfold bar_of, decode_bar. rewrite Hm. cbn [Z.eqb]. f_equal.
  set (d := Z.ldiff _ _) in *. rewrite Hs.
  assert (2 ^ 32 = 2 ^ 28 * 16) as E32 by done.
  assert (2 ^ k = 2 ^ (k - 4) * 16) as Ek by (change 16 with (2 ^ 4); rewrite <- Z.pow_add_r by lia; f_equal; lia).
  assert (0 < 2 ^ (k - 4) < 2 ^ 28) as Hb by (split; [apply Z.pow_pos_nonneg|apply Z.pow_lt_mono_r]; lia).
  replace (2 ^ 32 - 2 ^ k) with (Z.shiftl (2 ^ 28 - 2 ^ (k - 4)) 4) by (rewrite Z.shiftl_mul_pow2 by lia; lia).
  rewrite land_bar_mask by lia. rewrite Z.shiftl_mul_pow2 by lia. unfold Z.lnot, u32.
  replace (Z.pred (- ((2 ^ 28 - 2 ^ (k - 4)) * 2 ^ 4)) + 1) with (2 ^ k + (-1) * 2 ^ 32) by lia.
  rewrite Z.mod_add by lia. apply Z.mod_small. lia.
Qed.

(** ** A bus with one card *)

Lemma config_address_sum l : loc_ok l →
  loc_address l = 2 ^ 31 + (l_bus l * 65536 + l_dev l * 2048 + l_fn l * 256 + l_reg l * 4).
Proof.
  intros (Hb & Hd & Hf & Hr). unfold loc_address, config_address.
  rewrite !Z.shiftl_mul_pow2, !u32_small by lia.
  replace (l_bus l * 2 ^ 16) with (Z.shiftl (l_bus l) 16) by (by rewrite Z.shiftl_mul_pow2).
  rewrite lor_shiftl_add by lia.
  replace (2 ^ 16 * l_bus l + l_dev l * 2 ^ 11) with (Z.shiftl (32 * l_bus l + l_dev l) 11)
    by (rewrite Z.shiftl_mul_pow2; lia).
  rewrite lor_shiftl_add by lia.
  replace (2 ^ 11 * (32 * l_bus l + l_dev l) + l_fn l * 2 ^ 8)
    with (Z.shiftl (8 * (32 * l_bus l + l_dev l) + l_fn l) 8) by (rewrite Z.shiftl_mul_pow2; lia).
  rewrite lor_shiftl_add by lia. rewrite Z.lor_comm.
  replace (1 * 2 ^ 31) with (Z.shiftl 1 31) by done. rewrite lor_shiftl_add by lia. lia.
Qed.

(** The register that an address selects. *)
Definition decode_address (a : Z) : pci_loc :=
  Loc ((a / 65536) mod 256) ((a / 2048) mod 32) ((a / 256) mod 8) ((a / 4) mod 64).

(** Addresses of different registers are different. *)
Lemma decode_loc_address l : loc_ok l → decode_address (loc_address l) = l.
Proof.
  intros Hl. rewrite config_address_sum by done. destruct Hl as (Hb & Hd & Hf & Hr).
  destruct l as [b d f r]. unfold decode_address. simpl in *. f_equal; Z.div_mod_to_equations; lia.
Qed.

(** A card at bus 3, device 5, with one memory region of 2^17 bytes. *)
Definition demo_fixed (l : pci_loc) : Z :=
  if decide (Loc (l_bus l) (l_dev l) (l_fn l) 0 = Loc 3 5 0 0) then
    match l_reg l with 0 => 0x10fb8086 | 2 => 0x02000000 | 11 => 0x00038086 | _ => 0 end
  else 0xFFFFFFFF.

Definition demo_settable (l : pci_loc) : Z :=
  if decide (l = Loc 3 5 0 4) then 2 ^ 32 - 2 ^ 17 else if decide (l = Loc 3 5 0 1) then 7 else 0.

(** The last address that was selected, and what was written last to each register. *)
Definition demo_bus : Type := Z * (pci_loc → Z).

Definition demo_conf (h : demo_bus) (l : pci_loc) : Z :=
  Z.lor (Z.land (h.2 l) (demo_settable l)) (Z.ldiff (demo_fixed l) (demo_settable l)).

#[export] Instance demo_bus_ports : PciPorts demo_bus := {|
  nfos_outl v port h :=
    if port =? PCI_CONFIG_ADDRESS_PORT then (v, h.2) else
    if port =? PCI_CONFIG_DATA_PORT then (h.1, λ l, if decide (l = decode_address h.1) then v else h.2 l)
    else h;
  nfos_inl port h := demo_conf h (decode_address h.1)
|}.

Lemma below_land x : Z.land x 0xFFFFFFFF = x → 0 ≤ x < 2 ^ 32.
Proof.
  change 0xFFFFFFFF with (Z.ones 32). rewrite Z.land_ones by lia. intros <-.
  apply Z.mod_pos_bound. lia.
Qed.

Lemma demo_conf_range h l : 0 ≤ demo_conf h l < 2 ^ 32.
Proof.
  apply below_land. unfold demo_conf.
  assert (Z.land (demo_settable l) 0xFFFFFFFF = demo_settable l) as Hs.
  { unfold demo_settable. repeat case_decide; done. }
  assert (Z.land (demo_fixed l) 0xFFFFFFFF = demo_fixed l) as Hf.
  { unfold demo_fixed. case_decide; [|done]. by repeat case_match. }
  apply Z.bits_inj'. intros n Hn. apply (f_equal (λ x, Z.testbit x n)) in Hs, Hf.
  rewrite Z.land_spec in *. rewrite Z.lor_spec, Z.land_spec, Z.ldiff_spec.
  destruct (Z.testbit 0xFFFFFFFF n), (Z.testbit (demo_settable l) n), (Z.testbit (demo_fixed l) n),
    (Z.testbit (h.2 l) n); done.
Qed.

#[export] Instance demo_bus_laws : PciLaws demo_bus.
Proof.
  refine {| conf := demo_conf; settable := demo_settable |}.
  - apply demo_conf_range.
  - intros l. unfold demo_settable. repeat case_decide; lia.
  - done.
  - intros h l Hl. cbn. by rewrite decode_loc_address.
  - intros h v l l' Hl Hne. unfold demo_conf. cbn. rewrite decode_loc_address by done. by rewrite decide_False.
  - intros h v l Hl _. unfold demo_conf. cbn. rewrite decode_loc_address by done.
    rewrite decide_True by done. apply Z.bits_inj'. intros n Hn.
    rewrite !Z.lor_spec, !Z.land_spec, !Z.ldiff_spec, Z.lor_spec, Z.land_spec, Z.ldiff_spec.
    by destruct (Z.testbit v n), (Z.testbit (demo_settable l) n), (Z.testbit (demo_fixed l) n),
      (Z.testbit (h.2 l) n).
  - intros h v l Hl _ Hs. unfold demo_conf. cbn -[Z.testbit Z.lor Z.land Z.ldiff]. rewrite decode_loc_address by done.
    rewrite decide_True by done. rewrite Z.lor_spec, Z.land_spec, Z.ldiff_spec, Hs.
    by rewrite andb_true_r, andb_false_r, orb_false_r.
Defined.

(** The region was placed at 0xf0000000 by the firmware. *)
Definition demo_pci : demo_bus := (0, λ l, if decide (l = Loc 3 5 0 4) then 0xf0000000 else 0).

Lemma find_nics_exact_witness :
  ∃ h' μ', nfos_pci_find_nics demo_pci (Mem [] [true] 4096 (λ _, 0)) =
      Some ((zlen (nics_before (conf demo_pci) 65536),
        (nic_of (conf demo_pci) <$> nics_before (conf demo_pci) 65536) ++
          replicate (32 - length (nics_before (conf demo_pci) 65536)) zero_nic, h'), μ').
Proof.
  destruct (find_nics_exact demo_pci (Mem [] [true] 4096 (λ _, 0)) []) as (h' & μ' & Hf & _); [done|done|].
  exists h', μ'. exact Hf.
Defined.

Example demo_card_found :
  nics_before (conf demo_pci) 1024 = [3 * 256 + 5 * 8] ∧
  nic_of (conf demo_pci) (3 * 256 + 5 * 8) =
    Nic 0x8086 0x10fb 3 0x8086 2 (Resource 0xf0000000 (2 ^ 17) true :: replicate 5 (Resource 0 0 true)) 0.
Proof. split; vm_compute; reflexivity. Qed.
