(* ===== verification/Console.v ===== *)
(** * nfos_serial.c and nfos_vga.c

    The two consoles of the functions that run without an operating system: a
    serial line and the text screen. *)
From stdpp Require Import base list gmap numbers sets.
From Stdlib Require Import ZArith Lia.
From S2P Require Import Prelude.

(** ** The serial line *)

(** The line as its ports show it: the answers of the next reads of the line status (true while
    the output is not empty; empty from then on), and what was written to which port. *)
Record uart := Uart { busy : list bool; written : list (Z * Z) }.

Definition DEFAULT_SERIAL_PORT_BASE : Z := 0x3F8.

Definition data_port : Z := DEFAULT_SERIAL_PORT_BASE.

Definition int_en_port : Z := DEFAULT_SERIAL_PORT_BASE + 1.

Definition fifo_ctrl_port : Z := DEFAULT_SERIAL_PORT_BASE + 2.

Definition line_ctrl_port : Z := DEFAULT_SERIAL_PORT_BASE + 3.

Definition modem_ctrl_port : Z := DEFAULT_SERIAL_PORT_BASE + 4.

Definition nfos_outb (v port : Z) (u : uart) : uart := Uart (busy u) (written u ++ [(port, u8 v)]).

Definition nfos_serial_has_output (u : uart) : bool * uart :=
  match busy u with
  | [] => (false, u)
  | b :: bs => (b, Uart bs (written u))
  end.

Definition nfos_serial_init (u : uart) : uart :=
  let u := nfos_outb 0x00 int_en_port u in
  let u := nfos_outb 0x80 line_ctrl_port u in
  let u := nfos_outb 0x03 data_port u in
  let u := nfos_outb 0x00 int_en_port u in
  let u := nfos_outb 0x03 line_ctrl_port u in
  let u := nfos_outb 0xc7 fifo_ctrl_port u in
  let u := nfos_outb 0x0b modem_ctrl_port u in
  nfos_outb 0x01 int_en_port u.

(** The loop that waits for the line, then a write to the data port. *)
Definition send (v : Z) (u : uart) : option uart :=
  u ← iterate (S (length (busy u))) (λ u,
        let '(b, u) := nfos_serial_has_output u in
        if (b : bool) then Some (Continue u) else Some (Return u)) u;
  Some (nfos_outb v data_port u).

(** A character that is not a line feed. *)
Definition write_plain (c : Z) (u : uart) : option uart :=
  if (c =? 8) || (c =? 0x7f) then
    u ← send 0x08 u; u ← send 32 u; send 0x08 u
  else send c u.

Definition nfos_serial_write_char (c : Z) (u : uart) : option uart :=
  u ← (if c =? 10 then write_plain 13 u else Some u);
  write_plain c u.

(** The characters from position [i] of an array up to the first null. *)
Fixpoint c_string (a : list Z) (i : nat) : option (list Z) :=
  match a, i with
  | [], _ => None
  | _ :: a, S i => c_string a i
  | c :: a, O => if c =? 0 then Some [] else cons c <$> c_string a O
  end.

Definition nfos_serial_write_str (s : list Z) (u : uart) : option uart :=
  foldl (λ u c, u ← u; nfos_serial_write_char c u) (Some u) s.

(** The loop of the two [write_int]: digits from the right, starting at place 30. *)
Definition put_digits (buf : list Z) (x : Z) : option (list Z * Z) :=
  iterate 32 (λ '(buf, i, x),
    if negb (x =? 0) && negb (i =? 0) then
      buf ← wr buf i (48 + Z.rem x 10);
      Some (Continue (buf, i - 1, Z.quot x 10))
    else Some (Return (buf, i))) (buf, 30, x).

(** [buf] is static: it keeps what earlier calls have written.  Returns it and the line. *)
Definition nfos_serial_write_int (buf : list Z) (x : Z) (u : uart) : option (list Z * uart) :=
  '(x, u) ← (if x <? 0 then u ← nfos_serial_write_char 45 u; x ← int_chk (- x); Some (x, u)
             else Some (x, u));
  '(buf, i) ← put_digits buf x;
  s ← c_string buf (Z.to_nat (i + 1));
  u ← nfos_serial_write_str s u;
  Some (buf, u).

(** ** The text screen *)

Record vga_char := VgaChar { ascii_char : Z; color_code : Z }.

Definition VGA_HEIGHT : Z := 25.

Definition VGA_WIDTH : Z := 80.

Definition VGA_COLOR_CODE : Z := 14.

(** [VGA_BUFFER] and [VGA_COLUMN_POS]. *)
Record vga := Vga { vga_buffer : list (list vga_char); vga_column : Z }.

Definition rd_cell (b : list (list vga_char)) (row col : Z) : option vga_char :=
  r ← rd b row; rd r col.

Definition wr_cell (b : list (list vga_char)) (row col : Z) (c : vga_char)
    : option (list (list vga_char)) :=
  r ← rd b row; r ← wr r col c; wr b row r.

Definition blank : vga_char := VgaChar 32 VGA_COLOR_CODE.

Definition nfos_vga_clear_row (row : Z) (b : list (list vga_char)) : option (list (list vga_char)) :=
  for_each 0 VGA_WIDTH (λ i b, wr_cell b row i blank) b.

Definition nfos_vga_newline (v : vga) : option vga :=
  b ← for_each 1 VGA_HEIGHT (λ i b,
        for_each 0 VGA_WIDTH (λ j b,
          c ← rd_cell b i j; wr_cell b (i - 1) j c) b) (vga_buffer v);
  b ← nfos_vga_clear_row (VGA_HEIGHT - 1) b;
  Some (Vga b 0).

Definition nfos_vga_write_byte (c : Z) (v : vga) : option vga :=
  if c =? 10 then nfos_vga_newline v else
  v ← (if VGA_WIDTH <=? vga_column v then nfos_vga_newline v else Some v);
  b ← wr_cell (vga_buffer v) (VGA_HEIGHT - 1) (vga_column v) (VgaChar c VGA_COLOR_CODE);
  col ← int_chk (vga_column v + 1);
  Some (Vga b col).

Definition nfos_vga_write_char (c : Z) (v : vga) : option vga := nfos_vga_write_byte (u8 c) v.

Definition nfos_vga_write_str (s : list Z) (v : vga) : option vga :=
  foldl (λ v c, v ← v;
    if (c =? 10) || ((32 <=? c) && (c <=? 126)) then nfos_vga_write_char c v
    else nfos_vga_write_byte 0xfe v) (Some v) s.

Definition nfos_vga_write_int (buf : list Z) (x : Z) (v : vga) : option (list Z * vga) :=
  '(x, v) ← (if x <? 0 then v ← nfos_vga_write_char 45 v; x ← int_chk (- x); Some (x, v)
             else Some (x, v));
  '(buf, i) ← put_digits buf x;
  s ← c_string buf (Z.to_nat (i + 1));
  v ← nfos_vga_write_str s v;
  Some (buf, v).

(** ** Digits *)

(** The decimal digits of a number, as characters; none for 0. *)
Fixpoint digits (fuel : nat) (x : Z) : list Z :=
  match fuel with
  | O => []
  | S fuel => if x =? 0 then [] else digits fuel (x / 10) ++ [48 + x mod 10]
  end.

(** The number that a row of digits says. *)
Definition value (s : list Z) : Z := foldl (λ v c, v * 10 + (c - 48)) 0 s.

Lemma value_snoc s c : value (s ++ [c]) = value s * 10 + (c - 48).
Proof. unfold value. by rewrite foldl_app. Qed.

Lemma digits_value fuel x : 0 ≤ x < 10 ^ Z.of_nat fuel → value (digits fuel x) = x.
Proof.
  revert x. induction fuel as [|fuel IH]; intros x Hx; [simpl in Hx; unfold value; simpl; lia|].
  cbn [digits]. destruct (Z.eqb_spec x 0) as [->|Hne]; [done|]. rewrite value_snoc, IH.
  - pose proof (Z.div_mod x 10). lia.
  - rewrite Nat2Z.inj_succ, Z.pow_succ_r in Hx by lia.
    split; [apply Z.div_pos; lia|apply Z.div_lt_upper_bound; lia].
Qed.

Lemma digits_range fuel x : Forall (λ c, 48 ≤ c ≤ 57) (digits fuel x).
Proof.
  revert x. induction fuel as [|fuel IH]; intros x; [constructor|]. cbn [digits].
  destruct (x =? 0); [constructor|]. apply Forall_app. split; [done|]. repeat constructor; Z.div_mod_to_equations; lia.
Qed.

Lemma digits_length fuel x : (length (digits fuel x) ≤ fuel)%nat.
Proof.
  revert x. induction fuel as [|fuel IH]; intros x; [done|]. cbn [digits].
  destruct (x =? 0); simpl; [lia|]. rewrite length_app. simpl. specialize (IH (x / 10)). lia.
Qed.

Lemma c_string_drop a i : c_string a i = c_string (drop i a) 0.
Proof. revert i. induction a as [|c a IH]; intros [|i]; try done. simpl. apply IH. Qed.

Lemma c_string_insert a i c t : (i < length a)%nat → c ≠ 0 → c_string a (S i) = Some t →
  c_string (<[i := c]> a) i = Some (c :: t).
Proof.
  intros Hi Hc. rewrite (c_string_drop a), (c_string_drop (<[i := c]> a)). rewrite (drop_S (<[i := c]> a) c i).
  2: { by apply list_lookup_insert_eq. }
  rewrite drop_insert_lt by lia. intros Ht. cbn [c_string].
  destruct (Z.eqb_spec c 0); [done|]. by rewrite Ht.
Qed.

Lemma put_digits_loop n : ∀ fuel x buf i tail,
  0 ≤ x < 10 ^ Z.of_nat n → Z.of_nat n ≤ i < zlen buf → (n < fuel)%nat →
  c_string buf (Z.to_nat (i + 1)) = Some tail →
  ∃ buf' i', iterate fuel (λ '(buf, i, x),
      if negb (x =? 0) && negb (i =? 0) then
        buf ← wr buf i (48 + Z.rem x 10);
        Some (Continue (buf, i - 1, Z.quot x 10))
      else Some (Return (buf, i))) (buf, i, x) = Some (buf', i') ∧
    c_string buf' (Z.to_nat (i' + 1)) = Some (digits n x ++ tail) ∧ zlen buf' = zlen buf ∧
    ∀ j, i < j → rd buf' j = rd buf j.
Proof.
  induction n as [|n IH]; intros fuel x buf i tail Hx Hi Hf Ht;
    (destruct fuel as [|fuel]; [lia|]); cbn [iterate].
  { assert (x = 0) as -> by (simpl in Hx; lia). cbn [Z.eqb negb andb mbind option_bind]. by eexists _, _. }
  cbn [digits]. destruct (Z.eqb_spec x 0) as [->|Hne]; cbn [negb andb]; [by eexists _, _|].
  destruct (Z.eqb_spec i 0); [lia|]. cbn [negb]. rewrite wr_Some by lia. cbn [mbind option_bind].
  rewrite Z.rem_mod_nonneg, Z.quot_div_nonneg by lia.
  rewrite Nat2Z.inj_succ, Z.pow_succ_r in Hx by lia. pose proof (Z.mod_pos_bound x 10).
  destruct (IH fuel (x / 10) (<[Z.to_nat i := 48 + x mod 10]> buf) (i - 1) (48 + x mod 10 :: tail))
    as (buf' & i' & -> & Hs & Hlen & Hout).
  - split; [apply Z.div_pos; lia|apply Z.div_lt_upper_bound; lia].
  - rewrite zlen_insert. lia.
  - lia.
  - replace (i - 1 + 1) with i by lia. apply c_string_insert; [unfold zlen in Hi; lia|lia|].
    by replace (S (Z.to_nat i)) with (Z.to_nat (i + 1)) by lia.
  - eexists _, _. split; [done|]. split_and!.
    + by rewrite <- app_assoc.
    + by rewrite zlen_insert in Hlen.
    + intros j Hj. rewrite Hout by lia. by rewrite rd_insert_ne by lia.
Qed.

(** The static buffer: 32 characters, the last one null. *)
Definition buf_ok (buf : list Z) : Prop := zlen buf = 32 ∧ rd buf 31 = Some 0.

Lemma put_digits_spec buf x : buf_ok buf → 0 ≤ x ≤ INT_MAX →
  ∃ buf' i, put_digits buf x = Some (buf', i) ∧ buf_ok buf' ∧
    c_string buf' (Z.to_nat (i + 1)) = Some (digits 10 x).
Proof.
  intros [Hlen Hend] Hx. unfold INT_MAX in Hx.
  destruct (put_digits_loop 10 32 x buf 30 []) as (buf' & i & Hp & Hs & Hlen' & Hout); [lia|lia|lia| |].
  - rewrite c_string_drop. rewrite rd_lookup in Hend by lia. rewrite (drop_S _ 0) by done. done.
  - exists buf', i. split_and!; [done| |by rewrite app_nil_r in Hs]. split; [lia|]. by rewrite Hout by lia.
Qed.

(** ** What is sent over the serial line *)

Definition sends (cs : list Z) (u u' : uart) : Prop :=
  written u' = written u ++ ((λ c, (data_port, c)) <$> cs).

Lemma sends_trans cs cs' u1 u2 u3 : sends cs u1 u2 → sends cs' u2 u3 → sends (cs ++ cs') u1 u3.
Proof. unfold sends. intros H1 H2. by rewrite H2, H1, fmap_app, app_assoc. Qed.

Lemma send_spec v u : ∃ u', send v u = Some u' ∧ sends [u8 v] u u'.
Proof.
  unfold send.
  destruct (iterate_rule (λ u', written u' = written u) (λ u', written u' = written u) (λ u, length (busy u))
    (λ u, let '(b, u) := nfos_serial_has_output u in
          if (b : bool) then Some (Continue u) else Some (Return u)) (S (length (busy u))) u)
    as (u' & -> & Hw).
  - intros [[|[] bs] w] Hw; eexists; (split; [done|]); simpl in *; auto.
  - done.
  - lia.
  - cbn [mbind option_bind]. eexists. split; [done|]. unfold sends, nfos_outb. simpl. by rewrite Hw.
Qed.

(** The bytes that a character puts on the line: a line feed brings a carriage return, and the
    two deleting characters blank what they delete. *)
Definition encode_char (c : Z) : list Z :=
  (if c =? 10 then [13] else []) ++
  (if (c =? 8) || (c =? 0x7f) then [8; 32; 8] else [u8 c]).

Lemma write_plain_spec c u : ∃ u', write_plain c u = Some u' ∧
  sends (if (c =? 8) || (c =? 0x7f) then [8; 32; 8] else [u8 c]) u u'.
Proof.
  unfold write_plain. destruct (_ || _); [|apply send_spec].
  destruct (send_spec 8 u) as (u1 & -> & H1). cbn [mbind option_bind].
  destruct (send_spec 32 u1) as (u2 & -> & H2). cbn [mbind option_bind].
  destruct (send_spec 8 u2) as (u3 & -> & H3). exists u3. split; [done|].
  apply (sends_trans [8] [32; 8] u u1); [done|]. by apply (sends_trans [32] [8] u1 u2).
Qed.

Lemma write_char_spec c u : ∃ u', nfos_serial_write_char c u = Some u' ∧ sends (encode_char c) u u'.
Proof.
  unfold nfos_serial_write_char, encode_char. destruct (c =? 10).
  - destruct (write_plain_spec 13 u) as (u1 & -> & H1). cbn [mbind option_bind].
    destruct (write_plain_spec c u1) as (u2 & -> & H2). exists u2. split; [done|].
    by apply (sends_trans _ _ u u1).
  - cbn [mbind option_bind app]. apply write_plain_spec.
Qed.

Lemma write_str_spec s : ∀ u, ∃ u', nfos_serial_write_str s u = Some u' ∧ sends (s ≫= encode_char) u u'.
Proof.
  unfold nfos_serial_write_str. induction s as [|c s IH]; intros u; simpl.
  { exists u. split; [done|]. unfold sends. simpl. by rewrite app_nil_r. }
  destruct (write_char_spec c u) as (u1 & -> & H1). destruct (IH u1) as (u2 & Hf & H2).
  exists u2. split; [done|]. by apply (sends_trans _ _ u u1).
Qed.

Lemma encode_digits s : Forall (λ c, 48 ≤ c ≤ 57) s → s ≫= encode_char = s.
Proof.
  induction 1 as [|c s Hc _ IH]; [done|]. rewrite bind_cons, IH. unfold encode_char.
  destruct (Z.eqb_spec c 10); [lia|]. destruct (Z.eqb_spec c 8); [lia|].
  destruct (Z.eqb_spec c 0x7f); [lia|]. cbn [orb app]. by rewrite u8_small by lia.
Qed.

(** Numbers on the serial line.  For every number but the least one, [nfos_serial_write_int] ends,
    keeps its static buffer in order whatever earlier calls have left there, and sends a minus
    sign for a negative number and then the decimal digits of its absolute value, from which the
    number can be read back; for 0 it sends nothing. *)
Theorem serial_int_roundtrip (buf : list Z) (x : Z) (u : uart) :
  buf_ok buf → INT_MIN < x ≤ INT_MAX →
  ∃ buf' u' s, nfos_serial_write_int buf x u = Some (buf', u') ∧ buf_ok buf' ∧
    sends ((if x <? 0 then [45] else []) ++ s) u u' ∧
    Forall (λ c, 48 ≤ c ≤ 57) s ∧ value s = Z.abs x ∧ (x = 0 → s = []).
Proof.
  intros Hb Hx. unfold nfos_serial_write_int.
  assert (∃ u1, (if x <? 0 then u ← nfos_serial_write_char 45 u; x ← int_chk (- x); Some (x, u)
                 else Some (x, u)) = Some (Z.abs x, u1) ∧ sends (if x <? 0 then [45] else []) u u1)
    as (u1 & -> & H1).
  { destruct (Z.ltb_spec x 0).
    - destruct (write_char_spec 45 u) as (u1 & -> & H1). cbn [mbind option_bind].
      rewrite int_chk_small by (unfold INT_MIN, INT_MAX in *; lia). cbn [mbind option_bind].
      exists u1. split; [|done]. do 2 f_equal. lia.
    - exists u. split; [do 2 f_equal; lia|]. unfold sends. simpl. by rewrite app_nil_r. }
  cbn [mbind option_bind].
  destruct (put_digits_spec buf (Z.abs x) Hb) as (buf' & i & -> & Hb' & Hs);
    [unfold INT_MIN, INT_MAX in *; lia|].
  cbn [mbind option_bind]. rewrite Hs. cbn [mbind option_bind].
  destruct (write_str_spec (digits 10 (Z.abs x)) u1) as (u2 & -> & H2).
  pose proof (digits_range 10 (Z.abs x)) as Hr. rewrite encode_digits in H2 by done.
  exists buf', u2, (digits 10 (Z.abs x)). split_and!; [done|done| |done| |by intros ->].
  - by apply (sends_trans _ _ u u1).
  - apply digits_value. unfold INT_MIN, INT_MAX in *. lia.
Qed.

(** ** The screen *)

Definition screen_ok (b : list (list vga_char)) : Prop := zlen b = 25 ∧ Forall (λ r, zlen r = 80) b.

Lemma screen_row b i : screen_ok b → 0 ≤ i < 25 → ∃ r, rd b i = Some r ∧ zlen r = 80.
Proof.
  intros [Hl Hf] Hi. destruct (rd_Some b i) as [r Hr]; [lia|]. exists r. split; [done|].
  rewrite rd_lookup in Hr by lia. by eapply (Forall_lookup_1 _ _ _ _ Hf).
Qed.

(** A loop over the columns that writes the row [src] into row [r]. *)
Lemma fill_row_spec (get : list (list vga_char) → Z → option vga_char) r src b :
  screen_ok b → 0 ≤ r < 25 → zlen src = 80 →
  (∀ b' j, (∀ k, k ≠ r → rd b' k = rd b k) → 0 ≤ j < 80 → get b' j = rd src j) →
  for_each 0 VGA_WIDTH (λ j b, c ← get b j; wr_cell b r j c) b = Some (<[Z.to_nat r := src]> b).
Proof.
  intros Hok Hr Hsrc Hget. destruct (screen_row b r Hok Hr) as (old & Hold & Hlen).
  destruct Hok as [Hb _].
  assert (∀ x, rd (<[Z.to_nat r := x]> b) r = Some x) as Hins by (intros x; apply rd_insert_eq; lia).
  destruct (for_each_rule (λ j b', ∃ row, b' = <[Z.to_nat r := row]> b ∧ zlen row = 80 ∧
      ∀ k, 0 ≤ k < j → rd row k = rd src k) 0 VGA_WIDTH (λ j b, c ← get b j; wr_cell b r j c) b)
    as (b' & -> & row & -> & Hrow & Hall); try (unfold VGA_WIDTH; lia).
  - exists old. split_and!; [|done|intros; lia]. symmetry. apply list_insert_id.
    by rewrite <- rd_lookup by lia.
  - unfold VGA_WIDTH. intros j b' Hj (row & -> & Hrow & Hall). destruct (rd_Some src j) as [c Hc]; [lia|].
    rewrite (Hget _ j); [|intros k Hk; apply rd_insert_ne; lia|done]. rewrite Hc. cbn [mbind option_bind].
    unfold wr_cell. rewrite Hins. cbn [mbind option_bind]. rewrite wr_Some by lia. cbn [mbind option_bind].
    rewrite wr_Some by (rewrite zlen_insert; lia). eexists. split; [done|].
    exists (<[Z.to_nat j := c]> row). split_and!.
    + by rewrite list_insert_insert_eq.
    + by rewrite zlen_insert.
    + intros k Hk. destruct (decide (k = j)) as [->|Hne]; [by rewrite rd_insert_eq by lia|].
      rewrite rd_insert_ne by lia. apply Hall. lia.
  - do 2 f_equal. apply rd_ext; [lia|]. intros k. destruct (decide (0 ≤ k < 80)).
    + by apply Hall.
    + by rewrite !rd_None by lia.
Qed.

Lemma screen_insert b r row : screen_ok b → zlen row = 80 → screen_ok (<[r := row]> b).
Proof.
  intros [Hl Hf] Hr. split; [by rewrite zlen_insert|]. by apply Forall_insert.
Qed.

Definition blank_row : list vga_char := replicate 80 blank.

Lemma newline_spec v : screen_ok (vga_buffer v) →
  nfos_vga_newline v = Some (Vga (tail (vga_buffer v) ++ [blank_row]) 0).
Proof.
  intros Hok. set (b := vga_buffer v) in *. unfold nfos_vga_newline.
  destruct (for_each_rule (λ i b', screen_ok b' ∧
      ∀ k, rd b' k = if (0 <=? k) && (k <? i - 1) then rd b (k + 1) else rd b k) 1 VGA_HEIGHT
    (λ i b, for_each 0 VGA_WIDTH (λ j b, c ← rd_cell b i j; wr_cell b (i - 1) j c) b) b)
    as (b' & Hf & Hok' & Hall); try (unfold VGA_HEIGHT; lia).
  - split; [done|]. intros k. destruct (Z.leb_spec 0 k), (Z.ltb_spec k (1 - 1)); cbn [andb]; try done; lia.
  - unfold VGA_HEIGHT. intros i b' Hi [Hok' Hall]. destruct (screen_row b' i Hok') as (row & Hrow & Hlen); [lia|].
    rewrite (fill_row_spec (λ b j, rd_cell b i j) (i - 1) row); [|done|lia|done|].
    + eexists. split; [done|]. split; [by apply screen_insert|]. intros k.
      destruct (decide (k = i - 1)) as [->|Hne].
      * rewrite rd_insert_eq by (destruct Hok'; lia).
        destruct (Z.leb_spec 0 (i - 1)), (Z.ltb_spec (i - 1) (i + 1 - 1)); try lia. cbn [andb].
        replace (i - 1 + 1) with i by lia. rewrite Hall in Hrow.
        destruct (Z.ltb_spec i (i - 1)); [lia|]. by rewrite andb_false_r in Hrow.
      * rewrite rd_insert_ne by lia. rewrite Hall.
        destruct (Z.leb_spec 0 k); cbn [andb]; [|done].
        destruct (Z.ltb_spec k (i - 1)), (Z.ltb_spec k (i + 1 - 1)); try done; lia.
    + intros b'' j Hsame Hj. unfold rd_cell. rewrite Hsame by lia. by rewrite Hrow.
  - unfold b in *. rewrite Hf. cbn [mbind option_bind]. unfold nfos_vga_clear_row, VGA_HEIGHT.
    change (25 - 1) with 24.
    assert (for_each 0 VGA_WIDTH (λ i b, wr_cell b 24 i blank) b' = Some (<[24%nat := blank_row]> b')) as ->.
    { apply (fill_row_spec (λ b j, Some blank) 24 blank_row b'); [done|lia|done|].
      intros b'' j _ Hj. symmetry. unfold blank_row. rewrite rd_lookup by lia. apply lookup_replicate_2. lia. }
    cbn [mbind option_bind]. do 2 f_equal. destruct Hok as [Hl _], Hok' as [Hl' _].
    apply rd_ext.
    { rewrite zlen_insert. unfold zlen in *. rewrite length_app, List.length_tl. simpl. lia. }
    intros k. destruct (decide (0 ≤ k)) as [Hk|Hk]; [|by rewrite !rd_None by lia].
    rewrite !rd_lookup by done. destruct (decide (k = 24)) as [->|Hne].
    + rewrite list_lookup_insert_eq by (unfold zlen in *; lia).
      rewrite lookup_app_r by (rewrite List.length_tl; unfold zlen in *; lia).
      rewrite List.length_tl. by replace (Z.to_nat 24 - (length (vga_buffer v) - 1))%nat with 0%nat by (unfold zlen in *; lia).
    + rewrite list_lookup_insert_ne by lia. rewrite <- rd_lookup by done. rewrite Hall.
      destruct (Z.leb_spec 0 k); [|lia]. cbn [andb]. unfold VGA_HEIGHT. destruct (Z.ltb_spec k (25 - 1)).
      * rewrite lookup_app_l by (rewrite List.length_tl; unfold zlen in *; lia). rewrite lookup_tail, rd_lookup by lia.
        f_equal. lia.
      * rewrite rd_None by lia. symmetry. apply lookup_ge_None_2.
        rewrite length_app, List.length_tl. simpl. unfold zlen in *. lia.
Qed.

(** ** The terminal

    All rows that were ever complete, what the row of the cursor showed before, and what has been
    written to it. *)
Record term := Term { t_rows : list (list vga_char); t_base : list vga_char; t_cur : list vga_char }.

Definition t_line (t : term) : list vga_char := t_cur t ++ drop (length (t_cur t)) (t_base t).

Definition t_newline (t : term) : term := Term (t_rows t ++ [t_line t]) blank_row [].

Definition t_write (t : term) (c : Z) : term :=
  if c =? 10 then t_newline t else
  let t := if 80 <=? zlen (t_cur t) then t_newline t else t in
  Term (t_rows t) (t_base t) (t_cur t ++ [VgaChar c VGA_COLOR_CODE]).

(** The last 25 rows. *)
Definition visible (t : term) : list (list vga_char) :=
  drop (length (t_rows t) - 24) (t_rows t) ++ [t_line t].

(** What is shown for a character. *)
Definition shown (c : Z) : Z := if (c =? 10) || ((32 <=? c) && (c <=? 126)) then c else 0xfe.

Record term_ok (t : term) : Prop := TermOk {
  to_rows : (24 ≤ length (t_rows t))%nat;
  to_width : Forall (λ r, zlen r = 80) (t_rows t);
  to_base : zlen (t_base t) = 80;
  to_cur : zlen (t_cur t) ≤ 80
}.

Definition vga_rel (v : vga) (t : term) : Prop :=
  term_ok t ∧ vga_buffer v = visible t ∧ vga_column v = zlen (t_cur t).

Lemma t_line_length t : term_ok t → zlen (t_line t) = 80.
Proof.
  intros [_ _ Hb Hc]. unfold t_line, zlen in *. rewrite length_app, length_drop. lia.
Qed.

Lemma visible_ok t : term_ok t → screen_ok (visible t).
Proof.
  intros Ht. pose proof (t_line_length t Ht) as Hl. destruct Ht as [Hn Hw _ _]. split.
  - unfold visible, zlen. rewrite length_app, length_drop. simpl. lia.
  - apply Forall_app. split; [by apply Forall_drop|by constructor].
Qed.

Lemma newline_rel v t : vga_rel v t → ∃ v', nfos_vga_newline v = Some v' ∧ vga_rel v' (t_newline t).
Proof.
  intros (Ht & Hb & Hc). pose proof (t_line_length t Ht) as Hl.
  rewrite newline_spec by (rewrite Hb; by apply visible_ok). eexists. split; [done|].
  destruct Ht as [Hn Hw Hbase Hcur]. split_and!.
  - constructor; simpl; [rewrite length_app; lia| |done|unfold zlen; simpl; lia].
    apply Forall_app. split; [done|by constructor].
  - cbn [vga_buffer]. rewrite Hb. unfold visible, t_newline, t_line at 2. cbn [t_rows t_cur t_base length drop app].
    rewrite length_app. simpl.
    replace (length (t_rows t) + 1 - 24)%nat with (S (length (t_rows t) - 24)) by lia.
    assert (length (drop (length (t_rows t) - 24) (t_rows t)) = 24%nat) as Hlen by (rewrite length_drop; lia).
    rewrite drop_app_le by lia. f_equal.
    destruct (drop (length (t_rows t) - 24) (t_rows t)) as [|r rs] eqn:E; [done|]. simpl. f_equal.
    rewrite <- (Nat.add_1_r (_ - _)), <- drop_drop, E. done.
  - done.
Qed.

Lemma write_byte_rel c v t : vga_rel v t →
  ∃ v', nfos_vga_write_byte c v = Some v' ∧ vga_rel v' (t_write t c).
Proof.
  intros Hv. unfold nfos_vga_write_byte, t_write. destruct (c =? 10); [by apply newline_rel|].
  assert (∃ v1 t1, (if VGA_WIDTH <=? vga_column v then nfos_vga_newline v else Some v) = Some v1 ∧
    (if 80 <=? zlen (t_cur t) then t_newline t else t) = t1 ∧ vga_rel v1 t1 ∧ zlen (t_cur t1) < 80)
    as (v1 & t1 & -> & -> & (Ht & Hb & Hc) & Hlt).
  { pose proof Hv as (_ & _ & Hc). rewrite Hc. unfold VGA_WIDTH. destruct (Z.leb_spec 80 (zlen (t_cur t))).
    - destruct (newline_rel v t Hv) as (v' & -> & Hv'). eexists _, _. split_and!; [done|done|done|].
      unfold zlen. simpl. lia.
    - by eexists _, _. }
  cbn [mbind option_bind]. pose proof (visible_ok t1 Ht) as [Hlen _].
  pose proof (t_line_length t1 Ht) as Hl.
  assert (length (drop (length (t_rows t1) - 24) (t_rows t1)) = 24%nat) as H24.
  { destruct Ht. rewrite length_drop. lia. }
  assert (rd (visible t1) 24 = Some (t_line t1)) as Hrd.
  { rewrite rd_lookup by lia. unfold visible. rewrite lookup_app_r by lia. by rewrite H24. }
  unfold wr_cell, VGA_HEIGHT. change (25 - 1) with 24. rewrite Hb, Hc, Hrd. cbn [mbind option_bind].
  rewrite wr_Some by (unfold zlen in *; lia). cbn [mbind option_bind]. rewrite wr_Some by lia.
  cbn [mbind option_bind]. rewrite int_chk_small by (unfold INT_MIN, INT_MAX, zlen in *; lia).
  cbn [mbind option_bind]. eexists. split; [done|]. destruct Ht as [Hn Hw Hbase Hcur]. split_and!.
  - constructor; simpl; [done|done|done|]. unfold zlen in *. rewrite length_app. simpl. lia.
  - cbn [vga_buffer]. unfold visible at 2. cbn [t_rows t_cur t_base]. unfold visible.
    change (Z.to_nat 24) with (24 + 0)%nat. rewrite <- H24 at 1. rewrite insert_app_r. simpl. do 2 f_equal.
    unfold t_line. cbn [t_cur t_base]. unfold zlen. rewrite Nat2Z.id.
    rewrite length_app. simpl. rewrite <- app_assoc.
    replace (length (t_cur t1)) with (length (t_cur t1) + 0)%nat at 1 by lia. rewrite insert_app_r. f_equal.
    destruct (drop (length (t_cur t1)) (t_base t1)) as [|x xs] eqn:E.
    { apply (f_equal length) in E. rewrite length_drop in E. unfold zlen in *. simpl in E. lia. }
    simpl. f_equal. by rewrite <- drop_drop, E.
  - cbn [vga_column t_cur]. unfold zlen. rewrite length_app. simpl. lia.
Qed.

Lemma vga_write_str_rel s : ∀ v t, vga_rel v t →
  ∃ v', nfos_vga_write_str s v = Some v' ∧ vga_rel v' (foldl t_write t (shown <$> s)).
Proof.
  unfold nfos_vga_write_str. induction s as [|c s IH]; intros v t Hv; [by eexists|]. simpl.
  assert (∃ v1, (if (c =? 10) || ((32 <=? c) && (c <=? 126)) then nfos_vga_write_char c v
                 else nfos_vga_write_byte 254 v) = Some v1 ∧ vga_rel v1 (t_write t (shown c))) as (v1 & -> & Hv1).
  { unfold shown, nfos_vga_write_char. destruct (_ || _) eqn:E.
    - rewrite u8_small by (destruct (Z.eqb_spec c 10), (Z.leb_spec 32 c), (Z.leb_spec c 126); simpl in E; try done; lia).
      by apply write_byte_rel.
    - by apply write_byte_rel. }
  by apply IH.
Qed.

(** The screen shows the end of what was written.  From any screen with the cursor at the left of
    the bottom row, a string of any length is written without an access outside of the screen, and
    the screen then shows the last 25 rows of a terminal of width 80 on which the rows of the
    screen and then the string have been written, with a block for every character that cannot be
    printed. *)
Theorem vga_shows_terminal (b : list (list vga_char)) (bottom : list vga_char) (s : list Z) :
  length b = 24%nat → Forall (λ r, zlen r = 80) b → zlen bottom = 80 →
  ∃ v, nfos_vga_write_str s (Vga (b ++ [bottom]) 0) = Some v ∧
    vga_buffer v = visible (foldl t_write (Term b bottom []) (shown <$> s)) ∧
    0 ≤ vga_column v ≤ VGA_WIDTH.
Proof.
  intros Hb Hw Hbot. destruct (vga_write_str_rel s (Vga (b ++ [bottom]) 0) (Term b bottom []))
    as (v & Hs & Ht & Hv & Hc).
  - split_and!; [|unfold visible; cbn [t_rows]; by rewrite Hb|done].
    constructor; simpl; [lia|done|done|unfold zlen; simpl; lia].
  - exists v. split_and!; [done|done|rewrite Hc; unfold zlen; lia|rewrite Hc; apply Ht].
Qed.

Lemma vga_shows_terminal_witness :
  ∃ v, nfos_vga_write_str [72; 105; 10; 7] (Vga (replicate 24 blank_row ++ [blank_row]) 0) = Some v ∧
    vga_buffer v = visible (foldl t_write (Term (replicate 24 blank_row) blank_row []) [72; 105; 10; 0xfe]) ∧
    0 ≤ vga_column v ≤ VGA_WIDTH.
Proof.
  apply (vga_shows_terminal (replicate 24 blank_row) blank_row [72; 105; 10; 7]).
  - reflexivity.
  - apply Forall_replicate. reflexivity.
  - reflexivity.
Defined.

Lemma serial_int_roundtrip_witness :
  ∃ buf' u' s, nfos_serial_write_int (replicate 32 0) (-305) (Uart [true] []) = Some (buf', u') ∧
    buf_ok buf' ∧ sends ([45] ++ s) (Uart [true] []) u' ∧ value s = 305.
Proof.
  destruct (serial_int_roundtrip (replicate 32 0) (-305) (Uart [true] []))
    as (buf' & u' & s & Hw & Hb & Hs & _ & Hv & _).
  - split; reflexivity.
  - unfold INT_MIN, INT_MAX. lia.
  - exists buf', u', s. split_and!; [exact Hw|exact Hb|exact Hs|exact Hv].
Defined.

(** The number 0 is not printed. *)
Example zero_prints_nothing :
  snd <$> nfos_serial_write_int (replicate 32 0) 0 (Uart [] []) = Some (Uart [] []).
Proof. vm_compute. reflexivity. Qed.
