(* ===== verification/Config.v ===== *)
(** * Configurations

    [nf_config_init] of the network functions: how the options of the command
    line become the configuration.  [getopt_long] is a function of the C library
    that splits the command line; what it returns one after the other, an option
    character with its argument, is the input here.  The configuration is a
    global that starts with zeros. *)
From stdpp Require Import base list gmap numbers strings.
From Stdlib Require Import ZArith Lia Ascii.
From S2P Require Import Prelude.
From S2P Require Import Memory.
From S2P Require Import Packet.
From S2P Require Import Ether.
From S2P Require Import NfParse.
From S2P Require Import Nat.
From S2P Require Import Fw.
From S2P Require Import Pol.
From S2P Require Import PoliFw.
From S2P Require Import Lb.
From S2P Require Import Bridge.
From S2P Require Import Cl.
From S2P Require Import Hhh.
From S2P Require Import Fwd.

(** ** The loop over the options *)

Definition chr (c : ascii) : Z := Z.of_N (N_of_ascii c).

Arguments chr _%_char_scope.

(** The loop; [Return] ends the program and [None] is undefined behaviour. *)
Fixpoint getopt_loop {C} (step : Z → list Z → C → option (outcome C unit))
    (opts : list (Z * list Z)) (c : C) : option (outcome C unit) :=
  match opts with
  | [] => Some (Continue c)
  | (opt, optarg) :: opts' =>
      o ← step opt optarg c;
      match o with
      | Continue c' => getopt_loop step opts' c'
      | Return _ => Some (Return tt)
      end
  end.

Definition PARSE_ERROR {C} : option (outcome C unit) := Some (Return tt).

(** A field gets the number [optarg] in [base], converted by [conv], unless
    [bad]. *)
Definition set_int {C} (optarg : list Z) (base : Z) (conv : Z → Z) (bad : Z → bool) (set : Z → C)
    : option (outcome C unit) :=
  match nf_util_parse_int optarg base 0 with
  | Return _ => Some (Return tt)
  | Continue v => if bad (conv v) then PARSE_ERROR else Some (Continue (set (conv v)))
  end.

(** An array of [nb_devices] zero addresses; [calloc] may fail, and the result is
    not tested: a null pointer is an array without cells. *)
Definition calloc_macs (nb_devices : Z) : M (list (list Z)) :=
  p ← malloc (nb_devices * 6);
  mret (if p =? NULL then [] else replicate (Z.to_nat nb_devices) (replicate 6 0)).

Section devices.
Variable nb_devices : Z.
(** [rte_eth_macaddr_get] of DPDK. *)
Variable rte_eth_macaddr_get : Z → rte_ether_addr.

(** The loop that stores the addresses of the devices. *)
Definition get_device_macs (macs : list (list Z)) : option (list (list Z)) :=
  for_each 0 nb_devices (λ device macs, wr macs device (ether_bytes (rte_eth_macaddr_get device))) macs.

(** [case 'm'], the same in all functions that have it: the device and the
    address of the station behind it, and the new [endpoint_macs]. *)
Definition eth_dest (optarg : list Z) (endpoint_macs : list (list Z))
    : option (outcome (list (list Z)) unit) :=
  match nf_util_parse_int optarg 10 (chr ",") with
  | Return _ => Some (Return tt)
  | Continue v =>
      let device := u32 v in
      if nb_devices <=? device then PARSE_ERROR else
      let optarg := drop 2 optarg in
      old ← rd endpoint_macs device;
      match old with
      | [b0; b1; b2; b3; b4; b5] =>
          '(ok, a) ← nf_parse_etheraddr optarg (EtherAddr b0 b1 b2 b3 b4 b5);
          macs ← wr endpoint_macs device (ether_bytes a);
          if (ok : bool) then Some (Continue macs) else PARSE_ERROR
      | _ => None
      end
  end.

(** ** vigfw *)

(** The options; with the configuration, the addresses of the stations, which
    the firewall does not read. *)
Definition fw_option (opt : Z) (optarg : list Z) (s : Fw.nf_config * list (list Z))
    : option (outcome (Fw.nf_config * list (list Z)) unit) :=
  let '(c, endpoint_macs) := s in
  if opt =? chr "m" then
    o ← eth_dest optarg endpoint_macs;
    Some (match o with Continue macs => Continue (c, macs) | Return _ => Return tt end)
  else if opt =? chr "t" then
    set_int optarg 10 u32 (λ v, v =? 0)
      (λ v, (Fw.MkConfig (Fw.wan_device c) v (Fw.cfg_max_flows c), endpoint_macs))
  else if opt =? chr "f" then
    set_int optarg 10 u32 (λ v, v <=? 0)
      (λ v, (Fw.MkConfig (Fw.wan_device c) (Fw.cfg_expiration_time c) v, endpoint_macs))
  else if opt =? chr "w" then
    set_int optarg 10 u16 (λ v, nb_devices <=? v)
      (λ v, (Fw.MkConfig v (Fw.cfg_expiration_time c) (Fw.cfg_max_flows c), endpoint_macs))
  else PARSE_ERROR.

(** The configuration, the addresses of the devices and of the stations. *)
Definition fw_config_init (opts : list (Z * list Z))
    : M (outcome (Fw.nf_config * list (list Z) * list (list Z)) unit) :=
  device_macs ← calloc_macs nb_devices;
  endpoint_macs ← calloc_macs nb_devices;
  device_macs ← lift (get_device_macs device_macs);
  o ← lift (getopt_loop fw_option opts (Fw.MkConfig 0 0 0, endpoint_macs));
  mret (match o with
        | Continue (c, macs) => Continue (c, device_macs, macs)
        | Return _ => Return tt
        end).

(** ** vignat *)

Definition nat_set_endpoints (c : Nat.nf_config) (macs : list (list Z)) : Nat.nf_config :=
  Nat.MkConfig (Nat.wan_device c) (Nat.external_addr c) (Nat.device_macs c) macs
    (Nat.cfg_start_port c) (Nat.cfg_expiration_time c) (Nat.cfg_max_flows c).

(** The options; [lan_main_device] is kept apart, as nothing reads it. *)
Definition nat_option (opt : Z) (optarg : list Z) (s : Nat.nf_config * Z)
    : option (outcome (Nat.nf_config * Z) unit) :=
  let '(c, lan_main_device) := s in
  let set wan addr port exp flows :=
    (Nat.MkConfig wan addr (Nat.device_macs c) (Nat.endpoint_macs c) port exp flows,
     lan_main_device) in
  if opt =? chr "m" then
    o ← eth_dest optarg (Nat.endpoint_macs c);
    Some (match o with
          | Continue macs => Continue (nat_set_endpoints c macs, lan_main_device)
          | Return _ => Return tt
          end)
  else if opt =? chr "t" then
    set_int optarg 10 u32 (λ v, v =? 0) (λ v, set (Nat.wan_device c) (Nat.external_addr c)
      (Nat.cfg_start_port c) v (Nat.cfg_max_flows c))
  else if opt =? chr "i" then
    '(ok, addr) ← nf_parse_ipv4addr optarg (Nat.external_addr c);
    if (ok : bool) then Some (Continue (set (Nat.wan_device c) addr (Nat.cfg_start_port c)
      (Nat.cfg_expiration_time c) (Nat.cfg_max_flows c)))
    else PARSE_ERROR
  else if opt =? chr "l" then
    set_int optarg 10 u16 (λ v, nb_devices <=? v) (λ v, (c, v))
  else if opt =? chr "f" then
    set_int optarg 10 u32 (λ v, v <=? 0) (λ v, set (Nat.wan_device c) (Nat.external_addr c)
      (Nat.cfg_start_port c) (Nat.cfg_expiration_time c) v)
  else if opt =? chr "s" then
    set_int optarg 10 u16 (λ _, false) (λ v, set (Nat.wan_device c) (Nat.external_addr c) v
      (Nat.cfg_expiration_time c) (Nat.cfg_max_flows c))
  else if opt =? chr "w" then
    set_int optarg 10 u16 (λ v, nb_devices <=? v) (λ v, set v (Nat.external_addr c)
      (Nat.cfg_start_port c) (Nat.cfg_expiration_time c) (Nat.cfg_max_flows c))
  else PARSE_ERROR.

Definition nat_config_init (opts : list (Z * list Z)) : M (outcome (Nat.nf_config * Z) unit) :=
  device_macs ← calloc_macs nb_devices;
  endpoint_macs ← calloc_macs nb_devices;
  device_macs ← lift (get_device_macs device_macs);
  lift (getopt_loop nat_option opts (Nat.MkConfig 0 0 device_macs endpoint_macs 0 0 0, 0)).

(** ** vigfwd and vignop *)

Definition fwd_option (opt : Z) (optarg : list Z) (c : Fwd.Fwd.fwd_config)
    : option (outcome Fwd.Fwd.fwd_config unit) :=
  let set lan wan macs := Fwd.Fwd.MkConfig lan wan (Fwd.Fwd.device_macs c) macs in
  if opt =? chr "m" then
    o ← eth_dest optarg (Fwd.Fwd.endpoint_macs c);
    Some (match o with
          | Continue macs => Continue (set (Fwd.Fwd.lan_device c) (Fwd.Fwd.wan_device c) macs)
          | Return _ => Return tt
          end)
  else if opt =? chr "l" then
    set_int optarg 10 u16 (λ v, nb_devices <=? v)
      (λ v, set v (Fwd.Fwd.wan_device c) (Fwd.Fwd.endpoint_macs c))
  else if opt =? chr "w" then
    set_int optarg 10 u16 (λ v, nb_devices <=? v)
      (λ v, set (Fwd.Fwd.lan_device c) v (Fwd.Fwd.endpoint_macs c))
  else PARSE_ERROR.

Definition fwd_config_init (opts : list (Z * list Z)) : M (outcome Fwd.Fwd.fwd_config unit) :=
  device_macs ← calloc_macs nb_devices;
  endpoint_macs ← calloc_macs nb_devices;
  device_macs ← lift (get_device_macs device_macs);
  lift (getopt_loop fwd_option opts (Fwd.Fwd.MkConfig 0 0 device_macs endpoint_macs)).

Definition nop_option (opt : Z) (optarg : list Z) (c : Fwd.Nop.nop_config)
    : option (outcome Fwd.Nop.nop_config unit) :=
  if opt =? chr "l" then
    set_int optarg 10 u16 (λ v, nb_devices <=? v) (λ v, Fwd.Nop.MkConfig v (Fwd.Nop.wan_device c))
  else if opt =? chr "w" then
    set_int optarg 10 u16 (λ v, nb_devices <=? v) (λ v, Fwd.Nop.MkConfig (Fwd.Nop.lan_device c) v)
  else PARSE_ERROR.

Definition nop_config_init (opts : list (Z * list Z)) : option (outcome Fwd.Nop.nop_config unit) :=
  getopt_loop nop_option opts (Fwd.Nop.MkConfig 0 0).

(** ** vigpol *)

Definition pol_option (opt : Z) (optarg : list Z) (c : Pol.nf_config)
    : option (outcome Pol.nf_config unit) :=
  let '(Pol.MkConfig lan wan rate burst capacity) := c in
  if opt =? chr "l" then
    set_int optarg 10 u16 (λ v, (v <? 0) || (nb_devices <=? v))
      (λ v, Pol.MkConfig v wan rate burst capacity)
  else if opt =? chr "w" then
    set_int optarg 10 u16 (λ v, (v <? 0) || (nb_devices <=? v))
      (λ v, Pol.MkConfig lan v rate burst capacity)
  else if opt =? chr "r" then
    set_int optarg 10 u64 (λ v, v =? 0) (λ v, Pol.MkConfig lan wan v burst capacity)
  else if opt =? chr "b" then
    set_int optarg 10 u64 (λ v, v =? 0) (λ v, Pol.MkConfig lan wan rate v capacity)
  else if opt =? chr "c" then
    set_int optarg 10 u32 (λ v, v <=? 0) (λ v, Pol.MkConfig lan wan rate burst v)
  else PARSE_ERROR.

(** DEFAULT_LAN, DEFAULT_WAN, DEFAULT_RATE, DEFAULT_BURST, DEFAULT_CAPACITY *)
Definition pol_defaults : Pol.nf_config := Pol.MkConfig 1 0 1000000 100000 128.

Definition pol_config_init (opts : list (Z * list Z)) : option (outcome Pol.nf_config unit) :=
  getopt_loop pol_option opts pol_defaults.

(** ** vigpolifw and vigpoliupfw *)

Definition polifw_option (opt : Z) (optarg : list Z) (c : PoliFw.nf_config)
    : option (outcome PoliFw.nf_config unit) :=
  let '(PoliFw.MkConfig wan dmacs emacs exp flows lan rate burst capacity) := c in
  if opt =? chr "l" then
    set_int optarg 10 u16 (λ v, (v <? 0) || (nb_devices <=? v))
      (λ v, PoliFw.MkConfig wan dmacs emacs exp flows v rate burst capacity)
  else if opt =? chr "r" then
    set_int optarg 10 u64 (λ v, v =? 0)
      (λ v, PoliFw.MkConfig wan dmacs emacs exp flows lan v burst capacity)
  else if opt =? chr "b" then
    set_int optarg 10 u64 (λ v, v =? 0)
      (λ v, PoliFw.MkConfig wan dmacs emacs exp flows lan rate v capacity)
  else if opt =? chr "c" then
    set_int optarg 10 u32 (λ v, v <=? 0)
      (λ v, PoliFw.MkConfig wan dmacs emacs exp flows lan rate burst v)
  else if opt =? chr "m" then
    o ← eth_dest optarg emacs;
    Some (match o with
          | Continue macs => Continue (PoliFw.MkConfig wan dmacs macs exp flows lan rate burst capacity)
          | Return _ => Return tt
          end)
  else if opt =? chr "t" then
    set_int optarg 10 u32 (λ v, v =? 0)
      (λ v, PoliFw.MkConfig wan dmacs emacs v flows lan rate burst capacity)
  else if opt =? chr "f" then
    set_int optarg 10 u32 (λ v, v <=? 0)
      (λ v, PoliFw.MkConfig wan dmacs emacs exp v lan rate burst capacity)
  else if opt =? chr "w" then
    set_int optarg 10 u16 (λ v, nb_devices <=? v)
      (λ v, PoliFw.MkConfig v dmacs emacs exp flows lan rate burst capacity)
  else PARSE_ERROR.

Definition polifw_config_init (opts : list (Z * list Z)) : M (outcome PoliFw.nf_config unit) :=
  device_macs ← calloc_macs nb_devices;
  endpoint_macs ← calloc_macs nb_devices;
  device_macs ← lift (get_device_macs device_macs);
  lift (getopt_loop polifw_option opts
    (PoliFw.MkConfig 0 device_macs endpoint_macs 0 0 0 0 0 0)).

(** ** viglb *)

Definition lb_option (opt : Z) (optarg : list Z) (c : Lb.nf_config)
    : option (outcome Lb.nf_config unit) :=
  let '(Lb.MkConfig dmacs fcap fexp bcap height bexp wan) := c in
  if opt =? chr "x" then
    set_int optarg 10 u32 (λ v, v =? 0) (λ v, Lb.MkConfig dmacs fcap v bcap height bexp wan)
  else if opt =? chr "f" then
    set_int optarg 10 u32 (λ v, v <=? 0) (λ v, Lb.MkConfig dmacs v fexp bcap height bexp wan)
  else if opt =? chr "s" then
    set_int optarg 10 u32 (λ v, v <=? 0) (λ v, Lb.MkConfig dmacs fcap fexp v height bexp wan)
  else if opt =? chr "h" then
    set_int optarg 10 u32 (λ v, v <=? 0) (λ v, Lb.MkConfig dmacs fcap fexp bcap v bexp wan)
  else if opt =? chr "t" then
    set_int optarg 10 u32 (λ v, v =? 0) (λ v, Lb.MkConfig dmacs fcap fexp bcap height v wan)
  else if opt =? chr "w" then
    set_int optarg 10 u16 (λ v, nb_devices <=? v) (λ v, Lb.MkConfig dmacs fcap fexp bcap height bexp v)
  else PARSE_ERROR.

(** The addresses are stored after the options have been read. *)
Definition lb_config_init (opts : list (Z * list Z)) : M (outcome Lb.nf_config unit) :=
  o ← lift (getopt_loop lb_option opts (Lb.MkConfig [] 0 0 0 0 0 0));
  match o with
  | Return _ => mret (Return tt)
  | Continue (Lb.MkConfig _ fcap fexp bcap height bexp wan) =>
      device_macs ← calloc_macs nb_devices;
      device_macs ← lift (get_device_macs device_macs);
      mret (Continue (Lb.MkConfig device_macs fcap fexp bcap height bexp wan))
  end.

(** ** vigbridge and vigbridge-static *)

Definition CONFIG_FNAME_LEN : nat := 512.

(** The options; with the configuration, [static_config_fname]. *)
Definition bridge_option (opt : Z) (optarg : list Z) (s : Bridge.nf_config * list Z)
    : option (outcome (Bridge.nf_config * list Z) unit) :=
  let '(Bridge.MkConfig exp capacity, fname) := s in
  if opt =? chr "t" then
    set_int optarg 10 u32 (λ v, v <=? 0) (λ v, (Bridge.MkConfig v capacity, fname))
  else if opt =? chr "c" then
    set_int optarg 10 u32 (λ v, v <=? 0) (λ v, (Bridge.MkConfig exp v, fname))
  else if opt =? chr "f" then
    Some (Continue (Bridge.MkConfig exp capacity, take (CONFIG_FNAME_LEN - 1) optarg))
  else PARSE_ERROR.

(** DEFAULT_EXP_TIME, DEFAULT_CAPACITY, and no file *)
Definition bridge_config_init (opts : list (Z * list Z))
    : option (outcome (Bridge.nf_config * list Z) unit) :=
  getopt_loop bridge_option opts (Bridge.MkConfig 300000000 128, []).

(** ** vigcl *)

(** The loop halves the number; it has at most 32 iterations. *)
Definition is_power_of_2 (d : Z) : option bool :=
  if d =? 0 then Some false else
  iterate 32 (λ d,
    if d =? 1 then Some (Return true) else
    if negb (d mod 2 =? 0) then Some (Return false) else
    Some (Continue (Z.shiftr d 1))) d.

(** The options; short options whose case is missing are errors. *)
Definition cl_option (opt : Z) (optarg : list Z) (c : Cl.nf_config)
    : option (outcome Cl.nf_config unit) :=
  let '(Cl.MkConfig lan wan flows sketch clients fexp cexp) := c in
  if opt =? chr "l" then
    set_int optarg 10 u16 (λ v, (v <? 0) || (nb_devices <=? v))
      (λ v, Cl.MkConfig v wan flows sketch clients fexp cexp)
  else if opt =? chr "w" then
    set_int optarg 10 u16 (λ v, (v <? 0) || (nb_devices <=? v))
      (λ v, Cl.MkConfig lan v flows sketch clients fexp cexp)
  else if opt =? chr "f" then
    o ← set_int optarg 10 u32 (λ v, v <=? 0)
          (λ v, Cl.MkConfig lan wan v sketch clients fexp cexp);
    match o with
    | Return _ => Some (Return tt)
    | Continue c' =>
        pow2 ← is_power_of_2 (Cl.cfg_max_flows c');
        if (pow2 : bool) then Some (Continue c') else PARSE_ERROR
    end
  else if opt =? chr "s" then
    set_int optarg 10 u32 (λ v, v <=? 0) (λ v, Cl.MkConfig lan wan flows v clients fexp cexp)
  else if opt =? chr "c" then
    set_int optarg 10 u16 (λ v, v <? 0) (λ v, Cl.MkConfig lan wan flows sketch v fexp cexp)
  else if opt =? chr "t" then
    set_int optarg 10 u64 (λ v, v <=? 0) (λ v, Cl.MkConfig lan wan flows sketch clients v cexp)
  else if opt =? chr "T" then
    set_int optarg 10 u64 (λ v, v <=? 0) (λ v, Cl.MkConfig lan wan flows sketch clients fexp v)
  else PARSE_ERROR.

(** DEFAULT_LAN to DEFAULT_CLIENT_EXPIRATION_TIME *)
Definition cl_config_init (opts : list (Z * list Z)) : option (outcome Cl.nf_config unit) :=
  getopt_loop cl_option opts (Cl.MkConfig 1 0 65536 65536 60 1000000 10000000).

(** ** vighhh *)

(** The options; with the fields that [nf_process] reads, [link_capacity],
    [threshold] and [dyn_capacity]. *)
Definition hhh_option (opt : Z) (optarg : list Z) (s : Hhh.nf_config * (Z * Z * Z))
    : option (outcome (Hhh.nf_config * (Z * Z * Z)) unit) :=
  let '(Hhh.MkConfig lan wan mask burst, (link, threshold, capacity)) := s in
  if opt =? chr "l" then
    set_int optarg 10 u16 (λ v, (v <? 0) || (nb_devices <=? v))
      (λ v, (Hhh.MkConfig v wan mask burst, (link, threshold, capacity)))
  else if opt =? chr "w" then
    set_int optarg 10 u16 (λ v, (v <? 0) || (nb_devices <=? v))
      (λ v, (Hhh.MkConfig lan v mask burst, (link, threshold, capacity)))
  else if opt =? chr "r" then
    set_int optarg 10 u64 (λ v, v =? 0)
      (λ v, (Hhh.MkConfig lan wan mask burst, (v, threshold, capacity)))
  else if opt =? chr "t" then
    set_int optarg 10 u8 (λ v, (v =? 0) || (100 <? v))
      (λ v, (Hhh.MkConfig lan wan mask burst, (link, v, capacity)))
  else if opt =? chr "s" then
    set_int optarg 16 u32 (λ _, false)
      (λ v, (Hhh.MkConfig lan wan v burst, (link, threshold, capacity)))
  else if opt =? chr "b" then
    set_int optarg 10 u64 (λ v, v =? 0)
      (λ v, (Hhh.MkConfig lan wan mask v, (link, threshold, capacity)))
  else if opt =? chr "c" then
    set_int optarg 10 u32 (λ v, v <=? 0)
      (λ v, (Hhh.MkConfig lan wan mask burst, (link, threshold, v)))
  else PARSE_ERROR.

(** DEFAULT_LAN to DEFAULT_CAPACITY; the mask is 0x00808080 *)
Definition hhh_config_init (opts : list (Z * list Z))
    : option (outcome (Hhh.nf_config * (Z * Z * Z)) unit) :=
  getopt_loop hhh_option opts (Hhh.MkConfig 1 0 8421504 100000, (10000000, 50, 128)).

End devices.

(** ** What the parsers accept *)

(** An invariant of the configuration that every accepted option keeps. *)
Lemma getopt_rule {C} (I : C → Prop) step opts (c c' : C) :
  (∀ opt optarg c c', I c → step opt optarg c = Some (Continue c') → I c') →
  I c → getopt_loop step opts c = Some (Continue c') → I c'.
Proof.
  intros Hstep. revert c. induction opts as [|[opt optarg] opts IH]; intros c Hc; cbn [getopt_loop].
  - intros [= <-]. done.
  - destruct (step opt optarg c) as [[c1|]|] eqn:E; cbn [mbind option_bind]; [|done..]. eauto.
Qed.

Lemma set_int_inv {C} optarg base conv bad (set : Z → C) c' :
  set_int optarg base conv bad set = Some (Continue c') →
  ∃ v, c' = set (conv v) ∧ bad (conv v) = false.
Proof.
  unfold set_int. destruct (nf_util_parse_int _ _ _) as [v|]; [|done].
  destruct (bad (conv v)) eqn:E; [done|]. intros [= <-]. eauto.
Qed.

(** Takes the cases of an option apart, up to the field that is set. *)
Ltac option_cases :=
  repeat match goal with
  | H : (if ?b then _ else _) = Some (Continue _) |- _ => destruct b
  | H : PARSE_ERROR = Some (Continue _) |- _ => discriminate H
  | H : set_int _ _ _ _ _ = Some (Continue _) |- _ =>
      let v := fresh "v" in let Hb := fresh "Hbad" in
      apply set_int_inv in H as (v & ? & Hb); simplify_eq/=
  end.

Definition six (macs : list (list Z)) : Prop := Forall (λ m, zlen m = 6) macs.

Lemma six_wr macs i a macs' : six macs → wr macs i (ether_bytes a) = Some macs' → six macs'.
Proof.
  intros Hs Hw. rewrite (wr_inv _ _ _ _ Hw). by apply Forall_insert.
Qed.

Lemma eth_dest_keeps nb optarg macs macs' :
  six macs → eth_dest nb optarg macs = Some (Continue macs') →
  six macs' ∧ zlen macs' = zlen macs.
Proof.
  intros Hs. unfold eth_dest. destruct (nf_util_parse_int _ _ _) as [v|]; [|done].
  destruct (nb <=? u32 v); [done|]. destruct (rd macs (u32 v)) as [old|]; [|done].
  cbn [mbind option_bind].
  destruct old as [|b0 [|b1 [|b2 [|b3 [|b4 [|b5 [|]]]]]]]; try done.
  destruct (nf_parse_etheraddr _ _) as [[ok a]|]; [|done]. cbn [mbind option_bind].
  destruct (wr macs (u32 v) (ether_bytes a)) as [macs1|] eqn:Hw; [|done]. cbn [mbind option_bind].
  destruct ok; [|done]. intros [= <-]. split; [by eapply six_wr|by eapply zlen_wr].
Qed.

Section accepted.
Variable nb : Z.
Variable get : Z → rte_ether_addr.
Hypothesis Hnb : 0 < nb < 2 ^ 16.

Lemma device_macs_spec macs :
  six macs → zlen macs = nb →
  ∃ macs', get_device_macs nb get macs = Some macs' ∧ six macs' ∧ zlen macs' = nb.
Proof.
  intros Hs Hl. unfold get_device_macs.
  apply (for_each_rule (λ _ macs, six macs ∧ zlen macs = nb)); [lia|lia|done|].
  intros i m Hi [Hm Hlm]. rewrite wr_Some by lia. eexists. split; [done|].
  split; [by apply Forall_insert|by rewrite zlen_insert].
Qed.

Lemma calloc_macs_ok μ rest :
  answers μ = true :: rest → mem_ok μ →
  ∃ macs μ', calloc_macs nb μ = Some (macs, μ') ∧ answers μ' = rest ∧ mem_ok μ' ∧ six macs ∧
    zlen macs = nb.
Proof.
  intros Ha Hok. unfold calloc_macs, mbind, M_bind, malloc. rewrite Ha. unfold mret, M_ret.
  rewrite not_null by (unfold mem_ok, NULL in *; lia). eexists _, _. split; [done|]. simpl.
  split_and!; [done|unfold mem_ok in *; simpl; lia| |].
  - by apply Forall_replicate.
  - rewrite zlen_replicate. lia.
Qed.

(** The two arrays of the functions that rewrite addresses. *)
Lemma macs_ok {B} (k : list (list Z) → list (list Z) → M B) μ rest :
  answers μ = true :: true :: rest → mem_ok μ →
  ∃ dmacs emacs μ', six dmacs ∧ zlen dmacs = nb ∧ six emacs ∧ zlen emacs = nb ∧
    (device_macs ← calloc_macs nb; endpoint_macs ← calloc_macs nb;
     device_macs ← lift (get_device_macs nb get device_macs); k device_macs endpoint_macs) μ =
    k dmacs emacs μ'.
Proof.
  intros Ha Hok.
  destruct (calloc_macs_ok μ _ Ha Hok) as (m1 & μ1 & H1 & Ha1 & Hok1 & Hs1 & Hl1).
  destruct (calloc_macs_ok μ1 _ Ha1 Hok1) as (m2 & μ2 & H2 & _ & _ & Hs2 & Hl2).
  destruct (device_macs_spec m1 Hs1 Hl1) as (m3 & H3 & Hs3 & Hl3).
  exists m3, m2, μ2. split_and!; try done. mstep. mstep. by mlift H3.
Qed.

Lemma parse_ipv4addr_range str old ok addr :
  0 ≤ old < 2 ^ 32 → nf_parse_ipv4addr str old = Some (ok, addr) → 0 ≤ addr < 2 ^ 32.
Proof.
  intros Hold. unfold nf_parse_ipv4addr. destruct (scan_bytes _ _ _ _ _) as [bs|]; [|done].
  cbn [mbind option_bind].
  destruct bs as [|a [|b [|c [|d [|]]]]]; intros [= <- <-]; try done.
  assert (∀ x y, 0 ≤ x < 2 ^ 32 → 0 ≤ y < 2 ^ 32 → 0 ≤ Z.lor x y < 2 ^ 32) as Hlor.
  { intros x y Hx Hy. split; [by apply Z.lor_nonneg; lia|].
    destruct (Z.eq_dec (Z.lor x y) 0) as [->|]; [lia|].
    apply Z.log2_lt_pow2; [pose proof (proj2 (Z.lor_nonneg x y) ltac:(lia)); lia|].
    rewrite Z.log2_lor by lia. apply Z.max_lub_lt.
    - destruct (Z.eq_dec x 0) as [->|]; [done|]. apply Z.log2_lt_pow2; lia.
    - destruct (Z.eq_dec y 0) as [->|]; [done|]. apply Z.log2_lt_pow2; lia. }
  repeat apply Hlor; apply u32_range.
Qed.

Definition nat_valid (s : Nat.nf_config * Z) : Prop :=
  Nat.config_ok s.1 ∧ zlen (Nat.device_macs s.1) = nb ∧ 0 ≤ s.2 < nb.

Lemma nat_option_valid opt optarg s s' :
  nat_valid s → nat_option nb opt optarg s = Some (Continue s') → nat_valid s'.
Proof.
  destruct s as [c lan]. intros ([] & Hn & Hl) Hs. simpl in *. unfold nat_option in Hs.
  destruct (opt =? chr "m").
  { destruct (eth_dest _ _ _) as [[macs|]|] eqn:E; simplify_eq/=.
    apply eth_dest_keeps in E as [Hsix Hlen]; [|done]. split; [|by split].
    constructor; simpl; try done. congruence. }
  destruct (opt =? chr "t").
  { option_cases. split; [|by split]. constructor; simpl; try done. apply u32_range. }
  destruct (opt =? chr "i").
  { destruct (nf_parse_ipv4addr _ _) as [[ok addr]|] eqn:E; [|done]. simpl in Hs. option_cases.
    simplify_eq/=. split; [|by split]. constructor; simpl; try done.
    by eapply parse_ipv4addr_range in E. }
  destruct (opt =? chr "l").
  { option_cases. split; [by constructor|]. split; [done|]. simpl. split; [apply u16_range|by apply Z.leb_gt]. }
  destruct (opt =? chr "f").
  { option_cases. split; [|by split]. by constructor. }
  destruct (opt =? chr "s").
  { option_cases. split; [|by split]. constructor; simpl; try done. apply u16_range. }
  option_cases. split; [|by split]. constructor; simpl; try done. rewrite Hn.
  split; [apply u16_range|by apply Z.leb_gt].
Qed.

Definition fwd_valid (c : Fwd.Fwd.fwd_config) : Prop :=
  Fwd.Fwd.config_ok c ∧ zlen (Fwd.Fwd.device_macs c) = nb.

Lemma fwd_option_valid opt optarg c c' :
  fwd_valid c → fwd_option nb opt optarg c = Some (Continue c') → fwd_valid c'.
Proof.
  intros ([] & Hn) Hs. unfold fwd_option in Hs. destruct (opt =? chr "m").
  { destruct (eth_dest _ _ _) as [[macs|]|] eqn:E; simplify_eq/=.
    apply eth_dest_keeps in E as [Hsix Hlen]; [|done]. split; [|done].
    constructor; simpl; try done. congruence. }
  option_cases; (split; [|done]); constructor; simpl; try done; rewrite Hn;
    (split; [apply u16_range|by apply Z.leb_gt]).
Qed.

(** Everything but the relation of burst and counter, and that the devices differ. *)
Definition pol_valid (c : Pol.nf_config) : Prop :=
  (0 < Pol.rate c < 2 ^ 64) ∧ (0 < Pol.burst c < 2 ^ 64) ∧ (0 < Pol.dyn_capacity c < 2 ^ 32) ∧
  0 ≤ Pol.lan_device c < Z.max 2 nb ∧ 0 ≤ Pol.wan_device c < nb.

Lemma pol_option_valid opt optarg c c' :
  pol_valid c → pol_option nb opt optarg c = Some (Continue c') → pol_valid c'.
Proof.
  destruct c as [lan wan rate burst cap]. intros (Hr & Hb & Hc & Hl & Hw) Hs. unfold pol_option in Hs.
  simpl in *.
  option_cases; repeat match goal with H : _ || _ = false |- _ => apply orb_false_iff in H as [_ H] end;
    zbool; pose proof (u16_range v); pose proof (u64_range v); pose proof (u32_range v);
    unfold pol_valid; simpl; split_and!; lia.
Qed.

End accepted.

(** The halving loop ends, and finds exactly the powers of two. *)
Lemma is_power_of_2_spec d :
  0 ≤ d < 2 ^ 32 → ∃ b, is_power_of_2 d = Some b ∧ (b = true ↔ ∃ n, 0 ≤ n ∧ d = 2 ^ n).
Proof.
  intros Hd. unfold is_power_of_2. destruct (Z.eqb_spec d 0) as [->|Hne].
  { exists false. split; [done|]. split; [done|]. intros (n & Hn & Heq).
    pose proof (Z.pow_pos_nonneg 2 n). lia. }
  assert (∀ k fuel x, (k ≤ fuel)%nat → 0 < x < 2 ^ Z.of_nat k → ∃ b,
    iterate fuel (λ d, if d =? 1 then Some (Return true) else
      if negb (d mod 2 =? 0) then Some (Return false) else Some (Continue (Z.shiftr d 1))) x = Some b ∧
    (b = true ↔ ∃ n, 0 ≤ n ∧ x = 2 ^ n)) as Hloop; [|apply (Hloop 32%nat); [done|lia]].
  clear. intros k. induction k as [|k IH]; intros fuel x Hf Hx; [simpl in Hx; lia|].
  destruct fuel as [|fuel]; [lia|]. cbn [iterate].
  destruct (Z.eqb_spec x 1) as [->|Hx1]; cbn [mbind option_bind].
  { exists true. split; [done|]. split; [|done]. intros _. by exists 0. }
  destruct (Z.eqb_spec (x mod 2) 0) as [Hm|Hm]; cbn [negb mbind option_bind].
  2: { exists false. split; [done|]. split; [done|]. intros (n & Hn & ->). exfalso.
       destruct (Z.eq_dec n 0) as [->|]; [done|]. apply Hm.
       replace n with (1 + (n - 1)) by lia. rewrite Z.pow_add_r by lia.
       rewrite Z.mul_comm. apply Z.mod_mul. lia. }
  rewrite Z.shiftr_div_pow2 by lia. change (2 ^ 1) with 2.
  assert (x = 2 * (x / 2)) as Hx2 by (Z.div_mod_to_equations; lia).
  rewrite Nat2Z.inj_succ, Z.pow_succ_r in Hx by lia.
  destruct (IH fuel (x / 2)) as (b & -> & Hb); [lia|lia|]. exists b. split; [done|]. rewrite Hb.
  split; intros (n & Hn & Hp).
  - exists (n + 1). split; [lia|]. rewrite Z.pow_add_r by lia. lia.
  - assert (n ≠ 0) by (intros ->; simpl in Hp; lia). exists (n - 1). split; [lia|].
    replace n with (1 + (n - 1)) in Hp by lia. rewrite Z.pow_add_r in Hp by lia. lia.
Qed.

(** What vigcl accepts; the number of flows is a power of two. *)
Definition cl_valid (nb : Z) (c : Cl.nf_config) : Prop :=
  0 ≤ Cl.lan_device c < nb ∧ 0 ≤ Cl.wan_device c < nb ∧ 0 ≤ Cl.max_clients c < 2 ^ 16 ∧
  0 < Cl.sketch_capacity c < 2 ^ 32 ∧ 0 < Cl.flow_expiration_time c < 2 ^ 64 ∧
  0 < Cl.client_expiration_time c < 2 ^ 64 ∧ ∃ n, 0 ≤ n ∧ Cl.cfg_max_flows c = 2 ^ n.

Lemma cl_option_valid nb opt optarg c c' :
  cl_valid nb c → cl_option nb opt optarg c = Some (Continue c') → cl_valid nb c'.
Proof.
  destruct c as [lan wan flows sk clients fe ce]. intros (Hl & Hw & Hc & Hs & Hf & Hce & Hp) Ho.
  unfold cl_option in Ho. simpl in *. unfold cl_valid.
  destruct (opt =? chr "f").
  { destruct (opt =? chr "l"), (opt =? chr "w").
    1-3: option_cases; apply orb_false_iff in Hbad as [_ Hbad]; zbool;
      pose proof (u16_range v); simpl; split_and!; done || lia.
    destruct (set_int _ _ _ _ _) as [[c1|]|] eqn:E; simplify_eq/=.
    apply set_int_inv in E as (v & -> & Hbad). simpl in *.
    destruct (is_power_of_2_spec (u32 v) (u32_range v)) as (b & Hb & Hiff).
    rewrite Hb in Ho. simpl in Ho. destruct b; simplify_eq/=. split_and!; try lia. by apply Hiff. }
  option_cases; repeat match goal with H : _ || _ = false |- _ => apply orb_false_iff in H as [_ H] end;
    zbool; pose proof (u16_range v); pose proof (u64_range v); pose proof (u32_range v);
    simpl; split_and!; done || lia.
Qed.

(** With at least two devices, so that the defaults exist. *)
Lemma cl_accepted nb opts c :
  2 ≤ nb → cl_config_init nb opts = Some (Continue c) → cl_valid nb c.
Proof.
  intros Hnb E. apply (getopt_rule (cl_valid nb)) in E; [done| |].
  - intros. by eapply cl_option_valid.
  - unfold cl_valid. simpl. split_and!; try lia. by exists 16.
Qed.

(** A MAC address after the number of a device with one digit. *)
Lemma eth_dest_digit nb d macs old a s :
  0 ≤ d < 10 → d < nb → rd macs d = Some old → zlen old = 6 →
  (∀ old, nf_parse_etheraddr s old = Some (true, a)) →
  eth_dest nb (48 + d :: chr "," :: s) macs = Some (Continue (<[Z.to_nat d := ether_bytes a]> macs)).
Proof.
  intros Hd Hn Hr Ho Hs. unfold eth_dest.
  pose proof (parse_int_plain d [] (chr ",") s) as Hp. unfold digits_value in Hp. simpl in Hp.
  replace (0 * 10 + d) with d in Hp by lia.
  rewrite Hp by (rewrite ?Forall_cons, ?Forall_nil; done || lia).
  rewrite u32_small by lia. destruct (Z.leb_spec nb d); [lia|]. cbn [drop]. rewrite Hr.
  cbn [mbind option_bind]. unfold zlen in Ho.
  destruct old as [|b0 [|b1 [|b2 [|b3 [|b4 [|b5 [|]]]]]]]; simpl in Ho; try lia.
  rewrite Hs. cbn [mbind option_bind]. rewrite wr_Some; [done|].
  by eapply rd_Some_range.
Qed.

(** A number with two digits leaves the comma before the address. *)
Lemma eth_dest_two_digits nb d macs old s :
  10 ≤ d < 100 → d < nb → rd macs d = Some old → zlen old = 6 →
  eth_dest nb (48 + d / 10 :: 48 + d mod 10 :: chr "," :: s) macs = Some (Return tt).
Proof.
  intros Hd Hn Hr Ho. unfold eth_dest.
  assert (0 ≤ d / 10 < 10 ∧ 0 ≤ d mod 10 < 10) as [H1 H2] by (Z.div_mod_to_equations; lia).
  pose proof (parse_int_plain (d / 10) [d mod 10] (chr ",") s) as Hp.
  assert (digits_value 10 [d / 10; d mod 10] = d) as Hv
    by (unfold digits_value; simpl; Z.div_mod_to_equations; lia).
  rewrite Hv in Hp. simpl in Hp. rewrite Hp by (rewrite ?Forall_cons, ?Forall_nil; done || lia).
  rewrite u32_small by lia. destruct (Z.leb_spec nb d); [lia|]. cbn [drop]. rewrite Hr.
  cbn [mbind option_bind]. unfold zlen in Ho.
  destruct old as [|b0 [|b1 [|b2 [|b3 [|b4 [|b5 [|]]]]]]]; simpl in Ho; try lia.
  assert (scan_bytes 16 (Some 2%nat) 58 6 (chr "," :: s) = Some []) as Hsc.
  { assert (scan_unsigned 16 2 (chr "," :: s) = None) as E; [|cbn [scan_bytes]; simpl; by rewrite E].
    destruct s as [|c s]; done. }
  unfold nf_parse_etheraddr. rewrite Hsc. cbn [mbind option_bind]. simpl (zlen _ =? 6).
  rewrite wr_Some by (by eapply rd_Some_range). done.
Qed.

(** ** Main results *)

(** C34: what the parsers accept is valid.  Let the two arrays of addresses be
    allocated.  Whatever options are given, in any order and number: if the
    translator accepts them, its configuration is one for which its contract is
    proved ([config_ok]: widths, a WAN device that exists, six bytes for every
    address of every device), and its LAN device exists; the same holds for the
    forwarder; and the policer runs with a positive rate, burst and capacity and
    with a WAN device that exists. *)
Theorem accepted_configs_valid (nb : Z) (get : Z → rte_ether_addr) (opts : list (Z * list Z))
    (μ : mem) (rest : list bool) :
  0 < nb < 2 ^ 16 → mem_ok μ → answers μ = true :: true :: rest →
  (∀ c lan μ', nat_config_init nb get opts μ = Some (Continue (c, lan), μ') →
     Nat.config_ok c ∧ zlen (Nat.device_macs c) = nb ∧ 0 ≤ lan < nb) ∧
  (∀ c μ', fwd_config_init nb get opts μ = Some (Continue c, μ') →
     Fwd.Fwd.config_ok c ∧ zlen (Fwd.Fwd.device_macs c) = nb) ∧
  (∀ c, pol_config_init nb opts = Some (Continue c) → pol_valid nb c).
Proof.
  intros Hnb Hok Ha. split_and!.
  - intros c lan μ'. unfold nat_config_init.
    destruct (macs_ok nb get Hnb (λ d e, lift (getopt_loop (nat_option nb) opts
      (Nat.MkConfig 0 0 d e 0 0 0, 0))) μ rest Ha Hok) as (d & e & μ1 & Hd & Hdl & He & Hel & ->).
    unfold lift. destruct (getopt_loop _ _ _) as [o|] eqn:E; [|done]. intros [= -> _].
    apply (getopt_rule (nat_valid nb)) in E; [done| |].
    + intros. by eapply nat_option_valid.
    + split; [|simpl; lia]. constructor; simpl; try done; lia.
  - intros c μ'. unfold fwd_config_init.
    destruct (macs_ok nb get Hnb (λ d e, lift (getopt_loop (fwd_option nb) opts
      (Fwd.Fwd.MkConfig 0 0 d e))) μ rest Ha Hok) as (d & e & μ1 & Hd & Hdl & He & Hel & ->).
    unfold lift. destruct (getopt_loop _ _ _) as [o|] eqn:E; [|done]. intros [= -> _].
    apply (getopt_rule (fwd_valid nb)) in E; [done| |].
    + intros. by eapply fwd_option_valid.
    + split; [|done]. constructor; simpl; try done; lia.
  - intros c E. apply (getopt_rule (pol_valid nb)) in E; [done| |].
    + intros. by eapply pol_option_valid.
    + unfold pol_valid. simpl. lia.
Qed.

(** C32: MAC addresses survive printing.  [nf_mac_to_str] exits exactly when it
    cannot allocate its buffer; otherwise its string has 17 characters, so that
    nothing is cut off; [nf_parse_etheraddr] reads the same address from it, whatever the
    memory held; and as the argument of [--eth-dest] after a device number of one
    digit it sets the address of that device and no other.  A device number of
    two digits is refused, whatever follows. *)
Theorem mac_print_parse (a : rte_ether_addr) (μ : mem) :
  mem_ok μ → ether_ok a →
  ∃ o μ', nf_mac_to_str a μ = Some (o, μ') ∧
    match o with
    | Return _ => hd false (answers μ) = false
    | Continue s =>
        hd false (answers μ) = true ∧ length s = 17%nat ∧ (∀ old, nf_parse_etheraddr s old = Some (true, a)) ∧
        ∀ nb d macs old, 0 ≤ d < 100 → d < nb → rd macs d = Some old → zlen old = 6 →
          (d < 10 → eth_dest nb (48 + d :: chr "," :: s) macs =
                      Some (Continue (<[Z.to_nat d := ether_bytes a]> macs))) ∧
          (10 ≤ d → eth_dest nb (48 + d / 10 :: 48 + d mod 10 :: chr "," :: s) macs =
                      Some (Return tt))
    end.
Proof.
  intros Hok Ha. destruct (mac_to_str_cases a μ Hok) as [μ' ->]. eexists _, _. split; [done|].
  destruct (hd false (answers μ)); [|done]. split_and!; [done|done|by intros; apply parse_mac_str|].
  intros nb d macs old Hd Hn Hr Ho. split; intros Hd'.
  - eapply eth_dest_digit; try done; [lia|]. intros. by apply parse_mac_str.
  - eapply eth_dest_two_digits; done || lia.
Qed.

(** The external address of the translator is stored with its first number in the
    high byte, and written to the packets as it is stored: on a little-endian
    machine its bytes go out in reverse. *)
Theorem nat_extip_reversed (nb lan a b c d : Z) (cfg : Nat.nf_config) :
  0 ≤ a < 256 → 0 ≤ b < 256 → 0 ≤ c < 256 → 0 ≤ d < 256 →
  ∃ cfg', nat_option nb (chr "i") (ip_str a b c d) (cfg, lan) = Some (Continue (cfg', lan)) ∧
    bytes32 (Nat.external_addr cfg') = [d; c; b; a].
Proof.
  intros Ha Hb Hc Hd. unfold nat_option.
  change (chr "i" =? chr "m") with false. change (chr "i" =? chr "t") with false.
  change (chr "i" =? chr "i") with true. cbn iota. rewrite parse_ip_str by done.
  cbn [mbind option_bind]. eexists. split; [done|]. simpl Nat.external_addr.
  unfold bytes32, bytes16. rewrite !Z.shiftr_div_pow2 by lia. unfold u8.
  cbn [app]. repeat f_equal; Z.div_mod_to_equations; lia.
Qed.

(** A number is narrowed to its field before it is tested. *)
Example narrowed_before_tested :
  (∃ c, nop_config_init 2 [(chr "w", bytes "65537")] = Some (Continue c) ∧ Fwd.Nop.wan_device c = 1) ∧
  (∃ s, hhh_config_init 2 [(chr "t", bytes "300")] = Some (Continue s) ∧ s.2.1.2 = 44).
Proof. split; eexists; split; vm_compute; reflexivity. Qed.

(** ** Concrete instances *)

(** --wan 1 --lan-dev 0 --expire 10 --starting-port 1024 --eth-dest 1,... *)
Definition demo_opts : list (Z * list Z) :=
  [(chr "w", bytes "1"); (chr "l", bytes "0"); (chr "t", bytes "10"); (chr "s", bytes "1024");
   (chr "m", bytes "1,08:00:27:53:8b:38")].

Definition demo_get (device : Z) : rte_ether_addr := EtherAddr 2 0 0 0 0 device.

Lemma accepted_configs_valid_witness :
  ∃ c μ', nat_config_init 2 demo_get demo_opts (Mem [] [true; true] 4096 (λ _, 0)) =
      Some (Continue (c, 0), μ') ∧
    Nat.config_ok c ∧ Nat.wan_device c = 1 ∧
    Nat.endpoint_macs c = [[0; 0; 0; 0; 0; 0]; [8; 0; 39; 83; 139; 56]].
Proof.
  destruct (accepted_configs_valid 2 demo_get demo_opts (Mem [] [true; true] 4096 (λ _, 0)) []
    ltac:(lia) ltac:(done) ltac:(done)) as (Hn & _ & _).
  destruct (nat_config_init 2 demo_get demo_opts (Mem [] [true; true] 4096 (λ _, 0)))
    as [[[[c lan]|] μ']|] eqn:E; [|vm_compute in E; discriminate E..].
  destruct (Hn c lan μ' eq_refl) as (HC & _). vm_compute in E. simplify_eq.
  by eexists _, _.
Defined.

Lemma mac_print_parse_witness :
  ∃ s μ', nf_mac_to_str (EtherAddr 8 0 39 83 139 56) (Mem [] [true] 4096 (λ _, 0)) = Some (Continue s, μ') ∧
    nf_parse_etheraddr s (EtherAddr 1 2 3 4 5 6) = Some (true, EtherAddr 8 0 39 83 139 56).
Proof.
  destruct (mac_print_parse (EtherAddr 8 0 39 83 139 56) (Mem [] [true] 4096 (λ _, 0))) as (o & μ' & Ho & Hm);
    [done|unfold ether_ok, ether_bytes; simpl; repeat (apply List.Forall_cons; [lia|]); apply List.Forall_nil|].
  destruct o as [s|]; [|vm_compute in Ho; discriminate Ho].
  exists s, μ'. split; [done|]. destruct Hm as (_ & _ & Hp & _). apply Hp.
Defined.
