(* ===== verification/Psd.v ===== *)
(** * vigpsd: the port scan detector

    psd_main.c, psd_state.c, psd_config.c, touched_port.c, ip_addr.c, counter.c
    and unverified/expirator.c: the ports that a source on the external device
    has touched are remembered, and its packets to further ports are dropped
    once they are as many as the configuration allows. *)
From stdpp Require Import base list gmap numbers countable sets strings.
From Stdlib Require Import ZArith Lia Ascii.
From S2P Require Import Prelude.
From S2P Require Import Memory.
From S2P Require Import MapImpl.
From S2P Require Import Map.
From S2P Require Import Vector.
From S2P Require Import DChainImpl.
From S2P Require Import DChain.
From S2P Require Import Emap.
From S2P Require Import Expirator.
From S2P Require Import Packet.
From S2P Require Import Ether.
From S2P Require Import NfParse.
From S2P Require Import Config.

(** struct ip_addr *)
Record ip_addr := MkIp { ip : Z }.

#[export] Instance psd_ip_eq_dec : EqDecision ip_addr.
Proof. solve_decision. Defined.

#[export] Instance psd_ip_countable : Countable ip_addr.
Proof. apply (inj_countable' ip MkIp). by intros []. Defined.

Definition ip_addr_eq (id1 id2 : ip_addr) : bool := ip id1 =? ip id2.

Definition ip_addr_hash `{Crc32} (id : ip_addr) : Z :=
  let hash := 0 in
  crc32si hash (ip id).

(** struct TouchedPort *)
Record TouchedPort := MkPort { tp_src : Z; tp_port : Z }.

#[export] Instance port_eq_dec : EqDecision TouchedPort.
Proof. solve_decision. Defined.

#[export] Instance port_countable : Countable TouchedPort.
Proof.
  apply (inj_countable' (λ p, (tp_src p, tp_port p)) (λ '(a, b), MkPort a b)). by intros [].
Defined.

Definition touched_port_eq (tp1 tp2 : TouchedPort) : bool :=
  (tp_src tp1 =? tp_src tp2) && (tp_port tp1 =? tp_port tp2).

Definition touched_port_allocate : TouchedPort := MkPort 0 0.

Definition touched_port_hash `{Crc32} (tp : TouchedPort) : Z :=
  let hash := 0 in
  let hash := crc32si hash (tp_src tp) in
  crc32si hash (tp_port tp).

#[export] Instance ip_key_ops `{Crc32} : KeyOps ip_addr := {|
  key_eq := ip_addr_eq; key_hash := ip_addr_hash
|}.

#[export] Instance port_key_ops `{Crc32} : KeyOps TouchedPort := {|
  key_eq := touched_port_eq; key_hash := touched_port_hash
|}.

#[export] Instance ip_key_laws `{Crc32} : KeyLaws ip_addr.
Proof.
  constructor; simpl.
  - intros [] []. unfold ip_addr_eq. simpl. rewrite Z.eqb_eq. split; congruence.
  - intros a. apply crc32si_range.
Qed.

#[export] Instance port_key_laws `{Crc32} : KeyLaws TouchedPort.
Proof.
  constructor; simpl.
  - intros [] []. unfold touched_port_eq. simpl. rewrite andb_true_iff, !Z.eqb_eq.
    split; [by intros [-> ->]|]. intros Heq. by simplify_eq.
  - intros a. apply crc32si_range.
Qed.

(** struct nf_config *)
Record nf_config := MkConfig {
  lan_device : Z;
  wan_device : Z;
  cfg_capacity : Z;
  cfg_max_ports : Z;
  expiration_time : Z
}.

(** struct State; a counter is its value. *)
Record State := MkState {
  srcs : emap_objs ip_addr;
  touched_ports_counter : Vector Z;
  ports : Map;
  ports_key : Vector TouchedPort;
  capacity : Z;
  max_ports : Z;
  dev_count : Z
}.

Definition set_srcs (st : State) (o : emap_objs ip_addr) : State :=
  MkState o (touched_ports_counter st) (ports st) (ports_key st) (capacity st) (max_ports st)
    (dev_count st).

Definition set_ports (st : State) (counters : Vector Z) (m : Map) (keys : Vector TouchedPort)
    : State :=
  MkState (srcs st) counters m keys (capacity st) (max_ports st) (dev_count st).

(** ** psd_config.c *)

Definition psd_option (nb_devices opt : Z) (optarg : list Z) (c : nf_config)
    : option (outcome nf_config unit) :=
  let '(MkConfig lan wan cap mp exp) := c in
  let pow2 v c' := b ← is_power_of_2 v; if (b : bool) then Some (Continue c') else PARSE_ERROR in
  if opt =? chr "l" then
    set_int optarg 10 u16 (λ v, (v <? 0) || (nb_devices <=? v)) (λ v, MkConfig v wan cap mp exp)
  else if opt =? chr "w" then
    set_int optarg 10 u16 (λ v, (v <? 0) || (nb_devices <=? v)) (λ v, MkConfig lan v cap mp exp)
  else if opt =? chr "c" then
    o ← set_int optarg 10 u32 (λ v, v <=? 0) (λ v, MkConfig lan wan v mp exp);
    match o with Return _ => PARSE_ERROR | Continue c' => pow2 (cfg_capacity c') c' end
  else if opt =? chr "p" then
    o ← set_int optarg 10 u32 (λ v, v <=? 0) (λ v, MkConfig lan wan cap v exp);
    match o with Return _ => PARSE_ERROR | Continue c' => pow2 (cfg_max_ports c') c' end
  else if opt =? chr "t" then
    set_int optarg 10 u32 (λ v, v <=? 0) (λ v, MkConfig lan wan cap mp v)
  else PARSE_ERROR.

(** DEFAULT_LAN to DEFAULT_EXPIRATION_TIME *)
Definition nf_config_init (nb_devices : Z) (opts : list (Z * list Z))
    : option (outcome nf_config unit) :=
  getopt_loop (psd_option nb_devices) opts (MkConfig 1 0 65536 60 1000000).

(** ** unverified/expirator.c *)

Definition expire_items_single_map_iteratively `{KeyOps TouchedPort} (pow2 : bool)
    (vector : Vector TouchedPort) (map : Map) (start n_elems : Z) : option Map :=
  _ ← c_assert (0 <=? start);
  _ ← c_assert (0 <=? n_elems);
  for_each start n_elems (λ i map,
    key ← vector_borrow vector i;
    '(map', key') ← map_erase pow2 (deref vector) map key key;
    Some map') map.

Section psd.
Context `{Crc32}.
Variable pow2 : bool.

(** ** psd_state.c

    The first call: there is no allocated state yet.  [ip_addr_allocate] and
    [counter_allocate] do nothing, so the cells keep what the memory held. *)
Definition alloc_state (capacity max_ports dev_count : Z) : M (option State) :=
  ret ← malloc 64;
  if ret =? NULL then mret None else
  '(_, _, m) ← map_allocate pow2 capacity NULL;
  match m with None => mret None | Some srcs =>
  '(_, _, v) ← (λ μ, vector_allocate 4 capacity (λ a, MkIp (junk μ a)) NULL μ);
  match v with None => mret None | Some srcs_key =>
  '(_, _, v) ← (λ μ, vector_allocate 4 capacity (junk μ) NULL μ);
  match v with None => mret None | Some counters =>
  '(_, _, c) ← dchain_allocate capacity NULL;
  match c with None => mret None | Some allocator =>
  '(_, _, m) ← map_allocate pow2 (u32 (capacity * max_ports)) NULL;
  match m with None => mret None | Some ports =>
  '(_, _, v) ← vector_allocate 8 (u32 (capacity * max_ports)) (λ _, touched_port_allocate) NULL;
  match v with None => mret None | Some ports_key =>
  mret (Some (MkState (Objs srcs srcs_key allocator) counters ports ports_key capacity
                (u32 max_ports) dev_count))
  end end end end end end.

(** ** psd_main.c *)

Definition nf_init (config : nf_config) (rte_eth_dev_count_avail : Z) : M (bool * option State) :=
  state ← alloc_state (cfg_capacity config) (u16 (cfg_max_ports config)) rte_eth_dev_count_avail;
  mret (match state with Some _ => true | None => false end, state).

Definition expire_entries (config : nf_config) (st : State) (time : Z) : option State :=
  _ ← c_assert (0 <=? time);
  let time_u := u64 time in
  let expiration_time_ns := u64 (expiration_time config * 1000) in
  let last_time := s64 (u64 (time_u - expiration_time_ns)) in
  let o := srcs st in
  '(_, chain, m) ← expire_items_single_map pow2 (o_chain o) (o_vec o) (o_map o) last_time;
  Some (set_srcs st (Objs m (o_vec o) chain)).

(** The position of port [j] of source [index], an [int]. *)
Definition port_cell (st : State) (index j : Z) : Z := s32 (u32 (u32 (max_ports st * u32 index) + j)).

(** [src_p] is the address of [src] on the stack. *)
Definition allocate (st : State) (src_p src target_port time : Z) : option (bool * State) :=
  let o := srcs st in
  '(allocated, chain, index) ← dchain_allocate_new_index (o_chain o) (-1) time;
  if allocated =? 0 then Some (false, set_srcs st (Objs (o_map o) (o_vec o) chain)) else
  src_key ← vector_borrow (o_vec o) index;
  counter ← vector_borrow (touched_ports_counter st) index;
  n ← deref (touched_ports_counter st) counter;
  m ← expire_items_single_map_iteratively pow2 (ports_key st) (ports st) index (s32 n);
  let port_index := 0 in
  touched_port ← vector_borrow (ports_key st) (port_cell st index port_index);
  keys ← store (o_vec o) src_key (MkIp src);
  counters ← store (touched_ports_counter st) counter 1;
  pkeys ← store (ports_key st) touched_port (MkPort src target_port);
  smap ← map_put pow2 (with_local (deref keys) src_p (MkIp src)) (o_map o) src_key index;
  m ← map_put pow2 (deref pkeys) m touched_port port_index;
  let keys := vector_return keys index src_key in
  let counters := vector_return counters index counter in
  let pkeys := vector_return pkeys (port_cell st index port_index) touched_port in
  Some (true, set_ports (set_srcs st (Objs smap keys chain)) counters m pkeys).

(** [tp_p] is the address of the local [touched_port]. *)
Definition detect_port_scanning (st : State) (src_p tp_p src target_port time : Z)
    : option (bool * State) :=
  let o := srcs st in
  '(present, index) ← map_get pow2 (with_local (deref (o_vec o)) src_p (MkIp src)) (o_map o) src_p (-1);
  if present =? 0 then
    '(_, st) ← allocate st src_p src target_port time;
    Some (false, st)
  else
  '(_, chain) ← dchain_rejuvenate_index (o_chain o) index time;
  let st := set_srcs st (Objs (o_map o) (o_vec o) chain) in
  counter ← vector_borrow (touched_ports_counter st) index;
  n ← deref (touched_ports_counter st) counter;
  let touched_port := MkPort src target_port in
  '(present, port_index) ←
    map_get pow2 (with_local (deref (ports_key st)) tp_p touched_port) (ports st) tp_p (-1);
  if (present =? 0) && (max_ports st <=? n) then Some (true, st) else
  if present =? 0 then
    port_index ← int_chk (s32 n - 1);
    let cell := port_cell st index (port_index + 1) in
    new_touched_port ← vector_borrow (ports_key st) cell;
    counters ← store (touched_ports_counter st) counter (u32 (n + 1));
    pkeys ← store (ports_key st) new_touched_port touched_port;
    m ← map_put pow2 (with_local (deref pkeys) tp_p touched_port) (ports st) new_touched_port
          (port_index + 1);
    Some (false, set_ports st (vector_return counters index counter) m
                   (vector_return pkeys cell new_touched_port))
  else Some (false, st).

(** Returns the output device, the packet and the state. *)
Definition nf_process (config : nf_config) (st0 : State) (src_p tp_p device now : Z) (pk0 : packet)
    : option (Z * packet * State) :=
  '(rte_ether_header, pk1) ← nf_then_get_rte_ether_header pk0;
  '(rte_ipv4_header, ip_options, pk2) ← nf_then_get_rte_ipv4_header pk1 rte_ether_header;
  if rte_ipv4_header =? NULL then Some (device, pk2, st0) else
  '(tcpudp_header, pk3) ← nf_then_get_tcpudp_header pk2 rte_ipv4_header;
  if tcpudp_header =? NULL then Some (device, pk3, st0) else
  st ← expire_entries config st0 now;
  if device =? lan_device config then Some (wan_device config, pk3, st) else
  if device =? wan_device config then
    src_addr ← load32 pk3 (rte_ipv4_header + src_addr_off);
    dst_port ← load16 pk3 (tcpudp_header + dst_port_off);
    '(detected, st) ← detect_port_scanning st src_p tp_p src_addr dst_port now;
    if (detected : bool) then Some (device, pk3, st) else Some (lan_device config, pk3, st)
  else Some (device, pk3, st).

End psd.

(** ** The contract

    The abstract state is the table of sources and, by index, the ports that the
    source has touched, oldest first. *)

Definition psd_abs : Type := table ip_addr * list (list Z).

Definition ports_of (ps : list (list Z)) (i : Z) : list Z := default [] (ps !! Z.to_nat i).

Definition psd_expire (config : nf_config) (s : psd_abs) (now : Z) : psd_abs :=
  (t_expire s.1 (now - 1000 * expiration_time config), s.2).

(** A packet from outside: whether it is dropped. *)
Definition psd_detect (mp : Z) (s : psd_abs) (src port now : Z) : bool * psd_abs :=
  let '(t, ps) := s in
  match t_lookup t (MkIp src) with
  | None =>
      match t_frees t with
      | [] => (false, s)
      | i :: _ => (false, (t_add t (MkIp src) now, <[Z.to_nat i := [port]]> ps))
      end
  | Some e =>
      let i := e_idx e in
      let t' := t_refresh t i now in
      let l := ports_of ps i in
      if bool_decide (port ∈ l) then (false, (t', ps))
      else if mp <=? zlen l then (true, (t', ps))
      else (false, (t', <[Z.to_nat i := l ++ [port]]> ps))
  end.

Definition psd_spec (config : nf_config) (s : psd_abs) (device now : Z) (hdrs : option headers)
    : psd_abs * option (Z * headers) :=
  match hdrs with
  | None => (s, None)
  | Some h =>
      let s1 := psd_expire config s now in
      if device =? lan_device config then (s1, Some (wan_device config, h)) else
      if device =? wan_device config then
        let '(detected, s2) :=
          psd_detect (cfg_max_ports config) s1 (h_src_addr h) (h_dst_port h) now in
        (s2, if (detected : bool) then None else Some (lan_device config, h))
      else (s1, None)
  end.

(** ** The table of ports *)

Lemma length_concat_insert {A} (ps : list (list A)) n l l' :
  ps !! n = Some l →
  (length (concat (<[n := l']> ps)) + length l = length (concat ps) + length l')%nat.
Proof.
  revert n. induction ps as [|x ps IH]; intros [|n] Hl; simplify_eq/=; rewrite !length_app; [lia|].
  specialize (IH n Hl). lia.
Qed.

Lemma length_concat_bound {A} (ps : list (list A)) (w : nat) :
  Forall (λ l, (length l ≤ w)%nat) ps → (length (concat ps) ≤ w * length ps)%nat.
Proof. induction 1 as [|l ps Hl _ IH]; simpl; [lia|]. rewrite length_app. lia. Qed.

Lemma length_concat_lt {A} (ps : list (list A)) (w n : nat) l :
  Forall (λ l, (length l ≤ w)%nat) ps → ps !! n = Some l → (length l < w)%nat →
  (length (concat ps) < w * length ps)%nat.
Proof.
  intros Hf. revert n. induction Hf as [|x ps Hx Hf IH]; intros [|n] Hl Hlt; simplify_eq/=;
    rewrite length_app.
  - pose proof (length_concat_bound ps w Hf). lia.
  - specialize (IH n Hl Hlt). lia.
Qed.

Section ports.
Context `{Crc32}.
Variable pow2 : bool.
Variables range mp : Z.
Hypothesis Hmp : 0 < mp < 2 ^ 16.
Hypothesis Hrange : 0 < range.
Hypothesis Hsize : range * mp ≤ VECTOR_CAPACITY_UPPER_LIMIT.

(** Which index belongs to which source, the ports by index, the cells and the
    map: port [j] of index [i] is in cell [mp * i + j]. *)
Record ports_inv (own : Z → ip_addr → Prop) (ps : list (list Z)) (keys : Vector TouchedPort)
    (M : Map) : Prop := PortsInv {
  po_vec : vector_ok keys;
  po_cap : vec_capacity keys = range * mp;
  po_room : Map.capacity M = range * mp;
  po_len : zlen ps = range;
  po_short : Forall (λ l, (length l ≤ Z.to_nat mp)%nat) ps;
  po_range : ∀ i k, own i k → 0 ≤ i < range;
  po_fun : ∀ i k k', own i k → own i k' → k = k';
  po_inj : ∀ i i' k, own i k → own i' k → i = i';
  po_map : ∃ m addrs, mapp pow2 (deref keys) M m addrs ∧
    Z.of_nat (size m) = zlen (concat ps) ∧
    (∀ tp, is_Some (m !! tp) ↔ ∃ i, own i (MkIp (tp_src tp)) ∧ tp_port tp ∈ ports_of ps i) ∧
    (∀ tp p, addrs !! tp = Some p → ∃ i j, own i (MkIp (tp_src tp)) ∧
       0 ≤ j < zlen (ports_of ps i) ∧ p = addr keys (mp * i + j))
}.

Lemma ports_inv_iff own own' ps keys M :
  (∀ i k, own i k ↔ own' i k) → ports_inv own ps keys M → ports_inv own' ps keys M.
Proof.
  intros Ho []. constructor; try done.
  - intros i k Hi. by apply (po_range0 i k), Ho.
  - intros i k k' H1 H2. eapply po_fun0; by apply Ho.
  - intros i i' k H1 H2. eapply po_inj0; by apply Ho.
  - destruct po_map0 as (m & addrs & HM & Hs & Hm & Ha). exists m, addrs. split_and!; try done.
    + intros tp. rewrite Hm. split; intros (i & Hi & Hp); exists i; (split; [by apply Ho|done]).
    + intros tp p Hp. destruct (Ha tp p Hp) as (i & j & Hi & Hj). exists i, j. split; [by apply Ho|done].
Qed.

Lemma ports_short own ps keys M i :
  ports_inv own ps keys M → zlen (ports_of ps i) ≤ mp.
Proof.
  intros HI. unfold ports_of. destruct (ps !! Z.to_nat i) as [l|] eqn:E; simpl; [|unfold zlen; simpl; lia].
  pose proof (po_short _ _ _ _ HI) as Hs. rewrite Forall_lookup in Hs. specialize (Hs _ _ E).
  unfold zlen. lia.
Qed.

Lemma ports_row own ps keys M i :
  ports_inv own ps keys M → 0 ≤ i < range → ps !! Z.to_nat i = Some (ports_of ps i).
Proof.
  intros HI Hi. pose proof (po_len _ _ _ _ HI) as Hl. unfold zlen in Hl. unfold ports_of.
  destruct (lookup_lt_is_Some_2 ps (Z.to_nat i)) as [l Hl']; [lia|]. by rewrite Hl'.
Qed.

(** The lookup of a port. *)
Lemma ports_get own ps keys M h tp_p tp :
  ports_inv own ps keys M → outside keys tp_p → h = with_local (deref keys) tp_p tp →
  ∃ b v, map_get pow2 h M tp_p (-1) = Some (b, v) ∧
    (b = 0 ∨ b = 1) ∧ (b = 1 ↔ ∃ i, own i (MkIp (tp_src tp)) ∧ tp_port tp ∈ ports_of ps i).
Proof.
  intros HI Hout ->. destruct (po_map _ _ _ _ HI) as (m & addrs & HM & _ & Hm & Ha).
  rewrite (map_get_spec pow2 _ _ m addrs tp_p tp).
  - specialize (Hm tp). destruct (m !! tp) as [v|].
    + eexists _, _. split; [done|]. split; [by right|]. split; [|done]. intros _. by apply Hm.
    + eexists _, _. split; [done|]. split; [by left|]. split; [done|].
      intros Hex%Hm. by destruct Hex.
  - eapply mapp_frame; [exact HM|]. intros k p Hp. unfold with_local.
    destruct (Z.eqb_spec p tp_p) as [->|]; [|done].
    destruct (Ha k tp_p Hp) as (i & j & Hi & Hj & Heq). exfalso. apply (Hout (mp * i + j)); [|done].
    pose proof (po_range _ _ _ _ HI _ _ Hi). pose proof (ports_short _ _ _ _ i HI).
    rewrite (po_cap _ _ _ _ HI). nia.
  - apply with_local_at.
Qed.

Lemma ports_of_insert (ps : list (list Z)) i l i' :
  0 ≤ i < zlen ps →
  ports_of (<[Z.to_nat i := l]> ps) i' = if decide (Z.to_nat i' = Z.to_nat i) then l else ports_of ps i'.
Proof.
  unfold zlen. intros Hi. unfold ports_of at 1. destruct (decide _) as [->|Hne].
  - by rewrite list_lookup_insert_eq by lia.
  - by rewrite list_lookup_insert_ne by done.
Qed.

(** The cells of different ports differ. *)
Lemma port_cells_differ own ps keys M i i' j' k :
  ports_inv own ps keys M → zlen (ports_of ps i) < mp → own i' k → 0 ≤ j' < zlen (ports_of ps i') →
  mp * i + zlen (ports_of ps i) ≠ mp * i' + j'.
Proof.
  intros HI Hj Hi' Hj' Heq. pose proof (ports_short _ _ _ _ i' HI).
  rewrite !(Z.mul_comm mp) in Heq. assert (0 ≤ zlen (ports_of ps i)) by (unfold zlen; lia).
  apply row_index_inj in Heq as [-> <-]; lia.
Qed.

Section add.
Context (own own' : Z → ip_addr → Prop) (ps : list (list Z)) (keys : Vector TouchedPort) (M : Map).
Context (i src port : Z) (h : heap TouchedPort).
Hypothesis HI : ports_inv own ps keys M.
Hypothesis Hi : 0 ≤ i < range.
(** Index [i] belongs to [src], perhaps from now on. *)
Hypothesis Hown : ∀ i' k, own' i' k ↔ own i' k ∨ (i' = i ∧ k = MkIp src).
Hypothesis Hfun : ∀ i' k k', own' i' k → own' i' k' → k = k'.
Hypothesis Hinj : ∀ i' i'' k, own' i' k → own' i'' k → i' = i''.
Hypothesis Hold : own i (MkIp src) ∨ ports_of ps i = [].
Hypothesis Hnew : port ∉ ports_of ps i.
Hypothesis Hroom : zlen (ports_of ps i) < mp.

Let j := zlen (ports_of ps i).
Let keys' := vset keys (mp * i + j) (MkPort src port).
Let ps' := <[Z.to_nat i := ports_of ps i ++ [port]]> ps.

Hypothesis Hsee : sees keys' h.

Lemma add_cell : 0 ≤ mp * i + j < vec_capacity keys.
Proof. rewrite (po_cap _ _ _ _ HI). unfold j, zlen in *. nia. Qed.

Lemma add_sees c :
  0 ≤ c < vec_capacity keys →
  h (addr keys c) = if mp * i + j =? c then Some (MkPort src port) else deref keys (addr keys c).
Proof.
  intros Hc. rewrite <- deref_vset by (apply (po_vec _ _ _ _ HI) || apply add_cell).
  apply (Hsee c). done.
Qed.

Lemma add_owned i' j' k : own i' k → 0 ≤ j' < zlen (ports_of ps i') → 0 ≤ mp * i' + j' < vec_capacity keys.
Proof.
  intros Ho Hj. pose proof (po_range _ _ _ _ HI _ _ Ho). pose proof (ports_short _ _ _ _ i' HI).
  rewrite (po_cap _ _ _ _ HI). nia.
Qed.

Lemma add_ports tp :
  (∃ i', own' i' (MkIp (tp_src tp)) ∧ tp_port tp ∈ ports_of ps' i') ↔
  tp = MkPort src port ∨ ∃ i', own i' (MkIp (tp_src tp)) ∧ tp_port tp ∈ ports_of ps i'.
Proof.
  assert (∀ i', ports_of ps' i' = if decide (Z.to_nat i' = Z.to_nat i) then ports_of ps i ++ [port]
                                  else ports_of ps i') as Hpo
    by (intros; apply ports_of_insert; by rewrite (po_len _ _ _ _ HI)).
  split.
  - intros (i' & Ho & Hp). rewrite Hpo in Hp. pose proof Ho as Ho'. apply Hown in Ho' as [Ho'|[-> Hk]].
    + destruct (decide _) as [Heq|]; [|by right; eauto].
      assert (i' = i) as -> by (pose proof (po_range _ _ _ _ HI _ _ Ho'); lia).
      apply elem_of_app in Hp as [Hp|Hp%list_elem_of_singleton]; [by right; eauto|].
      left. assert (MkIp (tp_src tp) = MkIp src) by (eapply Hfun; [exact Ho|apply Hown; by right]).
      destruct tp; simpl in *. by simplify_eq.
    + rewrite decide_True in Hp by done. apply elem_of_app in Hp as [Hp|Hp%list_elem_of_singleton].
      * right. destruct Hold as [Ho'|Hnil]; [|rewrite Hnil in Hp; by apply elem_of_nil in Hp].
        exists i. by rewrite Hk.
      * left. destruct tp; simpl in *. by simplify_eq.
  - intros [->|(i' & Ho & Hp)].
    + exists i. split; [apply Hown; by right|]. rewrite Hpo, decide_True by done.
      apply elem_of_app. right. by left.
    + exists i'. split; [apply Hown; by left|]. rewrite Hpo. destruct (decide _) as [Heq|]; [|done].
      assert (i' = i) as -> by (pose proof (po_range _ _ _ _ HI _ _ Ho); lia).
      apply elem_of_app. by left.
Qed.

Lemma add_short : Forall (λ l, (length l ≤ Z.to_nat mp)%nat) ps'.
Proof.
  apply Forall_insert; [apply (po_short _ _ _ _ HI)|]. rewrite length_app. simpl.
  unfold zlen in Hroom. lia.
Qed.

(** The new port is put into the next cell of its index. *)
Lemma ports_add :
  ∃ M', map_put pow2 h M (addr keys (mp * i + j)) j = Some M' ∧ ports_inv own' ps' keys' M'.
Proof.
  pose proof (po_vec _ _ _ _ HI) as Hv. pose proof add_cell as Hcell.
  pose proof (ports_row _ _ _ _ i HI Hi) as Hrow.
  destruct (po_map _ _ _ _ HI) as (m & addrs & HM & Hsz & Hm & Ha).
  assert (∀ k p, addrs !! k = Some p → h p = deref keys p ∧ ∃ c, 0 ≤ c < vec_capacity keys ∧ p = addr keys c)
    as Hat.
  { intros k p Hp. destruct (Ha k p Hp) as (i' & j' & Ho & Hj' & ->).
    pose proof (add_owned _ _ _ Ho Hj'). split; [|eauto]. rewrite add_sees by done.
    destruct (Z.eqb_spec (mp * i + j) (mp * i' + j')) as [Heq|]; [|done].
    by destruct (port_cells_differ _ _ _ _ i i' j' _ HI Hroom Ho Hj'). }
  assert (m !! MkPort src port = None) as Hnone.
  { apply eq_None_not_Some. rewrite Hm. simpl. intros (i' & Ho & Hp).
    assert (i' = i) as ->; [|done]. eapply Hinj; apply Hown; [by left|by right]. }
  destruct (map_put_spec pow2 h M m addrs (addr keys (mp * i + j)) (MkPort src port) j)
    as (M' & -> & Hc' & HM').
  { eapply mapp_frame; [exact HM|]. intros k p Hp. by apply (Hat k p). }
  { by rewrite add_sees, Z.eqb_refl. }
  { done. }
  { rewrite Hsz, (po_room _ _ _ _ HI), <- (po_len _ _ _ _ HI). unfold zlen in *.
    pose proof (length_concat_lt ps (Z.to_nat mp) _ _ (po_short _ _ _ _ HI) Hrow ltac:(lia)). nia. }
  exists M'. split; [done|]. constructor; try done.
  - by apply vset_ok.
  - apply (po_cap _ _ _ _ HI).
  - by rewrite Hc', (po_room _ _ _ _ HI).
  - unfold ps'. rewrite zlen_insert. apply (po_len _ _ _ _ HI).
  - apply add_short.
  - intros i' k [Ho|[-> _]]%Hown; [by eapply (po_range _ _ _ _ HI)|done].
  - exists (<[MkPort src port := j]> m), (<[MkPort src port := addr keys (mp * i + j)]> addrs).
    split_and!.
    + eapply mapp_frame; [exact HM'|]. intros k p [[<- <-]|[_ Hp]]%lookup_insert_Some.
      * symmetry. by apply (Hsee (mp * i + j)).
      * destruct (Hat k p Hp) as (_ & c & Hc & ->). symmetry. by apply (Hsee c).
    + rewrite map_size_insert_None by done. unfold zlen in *.
      pose proof (length_concat_insert ps (Z.to_nat i) (ports_of ps i) (ports_of ps i ++ [port]) Hrow) as Hl.
      rewrite length_app in Hl. simpl in Hl. unfold ps'. lia.
    + intros tp. rewrite add_ports, lookup_insert_is_Some, Hm.
      destruct (decide (MkPort src port = tp)); naive_solver.
    + intros tp p [[<- <-]|[_ Hp]]%lookup_insert_Some.
      * exists i, j. split; [apply Hown; by right|]. split; [|done].
        unfold ps'. rewrite ports_of_insert, decide_True by (done || by rewrite (po_len _ _ _ _ HI)).
        unfold j, zlen. rewrite length_app. simpl. lia.
      * destruct (Ha tp p Hp) as (i' & j' & Ho & Hj' & ->). exists i', j'.
        split; [apply Hown; by left|]. split; [|done]. unfold ps'.
        rewrite ports_of_insert by by rewrite (po_len _ _ _ _ HI).
        destruct (decide _) as [Heq|]; [|done].
        assert (i' = i) as -> by (pose proof (po_range _ _ _ _ HI _ _ Ho); lia).
        unfold zlen in *. rewrite length_app. simpl. lia.
Qed.

End add.
End ports.

(** ** Refinement *)

(** Index [i] belongs to source [k]. *)
Definition owns (t : table ip_addr) (i : Z) (k : ip_addr) : Prop := ∃ tm, Ent i k tm ∈ ents t.

Lemma owns_refresh t e now i k :
  e ∈ ents t → NoDup (e_idx <$> ents t) → owns (t_refresh t (e_idx e) now) i k ↔ owns t i k.
Proof.
  intros He Hnd. split.
  - intros (tm & (e0 & He0 & Hk & Hi)%t_refresh_elem). simpl in *. subst. exists (e_time e0). by destruct e0.
  - intros (tm & Hin). destruct (decide (i = e_idx e)) as [->|Hne].
    + pose proof (t_entry_elem t e Hnd He) as H1. pose proof (t_entry_elem t _ Hnd Hin) as H2.
      simpl in H2. assert (e = Ent (e_idx e) k tm) as Heq by congruence.
      exists now. rewrite Heq at 1. pose proof (t_refresh_in t e now He) as Hr. by rewrite Heq in Hr at 2.
    + exists tm. simpl. apply elem_of_app. left. apply list_elem_of_filter. done.
Qed.

Lemma owns_add t k0 i0 fs now i k :
  t_frees t = i0 :: fs → owns (t_add t k0 now) i k ↔ owns t i k ∨ (i = i0 ∧ k = k0).
Proof.
  intros Hf. unfold owns, t_add. rewrite Hf. simpl. split.
  - intros (tm & [Hin|Hin%list_elem_of_singleton]%elem_of_app); [eauto|]. simplify_eq. by right.
  - intros [[tm Hin]|[-> ->]]; eexists; apply elem_of_app; [by left|right; by left].
Qed.

Record config_ok (config : nf_config) : Prop := ConfigOk {
  co_devices : lan_device config ≠ wan_device config;
  co_ports : 0 < cfg_max_ports config < 2 ^ 16;
  co_capacity : 0 < cfg_capacity config;
  co_size : cfg_capacity config * cfg_max_ports config ≤ VECTOR_CAPACITY_UPPER_LIMIT;
  co_exp : 0 ≤ expiration_time config < 2 ^ 32
}.

Section proofs.
Context `{Crc32}.
Variable pow2 : bool.
Variable config : nf_config.
Hypothesis HC : config_ok config.
Variables src_p tp_p : Z.
Implicit Types (st : State) (s : psd_abs).

Record psd_inv st s (now : Z) : Prop := PsdInv {
  pi_emap : emapp pow2 (srcs st) (cfg_capacity config) s.1;
  pi_sorted : t_sorted s.1 now;
  pi_src : outside (o_vec (srcs st)) src_p;
  pi_tp : outside (ports_key st) tp_p;
  pi_max : max_ports st = cfg_max_ports config;
  pi_cvec : vector_ok (touched_ports_counter st);
  pi_ccap : vec_capacity (touched_ports_counter st) = cfg_capacity config;
  pi_counts : cells (touched_ports_counter st) = zlen <$> s.2;
  pi_ports : ports_inv pow2 (cfg_capacity config) (cfg_max_ports config) (owns s.1) s.2
               (ports_key st) (ports st);
  pi_free : ∀ i, i ∈ t_frees s.1 → ports_of s.2 i = []
}.

Lemma port_cell_small st s now i j :
  psd_inv st s now → 0 ≤ i < cfg_capacity config → 0 ≤ j < cfg_max_ports config →
  port_cell st i j = cfg_max_ports config * i + j ∧
  0 ≤ cfg_max_ports config * i + j < cfg_capacity config * cfg_max_ports config.
Proof.
  intros HI Hi Hj. destruct HC as [_ Hmp Hcap Hsz _]. unfold VECTOR_CAPACITY_UPPER_LIMIT in Hsz.
  unfold port_cell. rewrite (pi_max _ _ _ HI).
  assert (0 ≤ cfg_max_ports config * i + j < cfg_capacity config * cfg_max_ports config) as Hr by nia.
  split; [|done]. rewrite (u32_small i), (u32_small (_ * _)), u32_small by nia.
  apply s32_small. unfold INT_MIN, INT_MAX. lia.
Qed.

(** The counter of an index. *)
Lemma counter_read st s now i :
  psd_inv st s now → 0 ≤ i < cfg_capacity config →
  vector_borrow (touched_ports_counter st) i = Some (addr (touched_ports_counter st) i) ∧
  deref (touched_ports_counter st) (addr (touched_ports_counter st) i) = Some (zlen (ports_of s.2 i)).
Proof.
  intros HI Hi. split; [apply vector_borrow_spec; [apply HI|by rewrite (pi_ccap _ _ _ HI)]|].
  rewrite deref_addr, rd_lookup, (pi_counts _ _ _ HI), list_lookup_fmap by (apply HI || lia).
  by rewrite (ports_row pow2 _ _ (co_ports _ HC) (co_capacity _ HC) _ _ _ _ i (pi_ports _ _ _ HI) Hi).
Qed.

(** The counter of an index is set to the number of its ports. *)
Lemma counter_write st s now i l n :
  psd_inv st s now → 0 ≤ i < cfg_capacity config → n = zlen l →
  let v' := vset (touched_ports_counter st) i n in
  store (touched_ports_counter st) (addr (touched_ports_counter st) i) n = Some v' ∧
  vector_ok v' ∧ vec_capacity v' = cfg_capacity config ∧
  cells v' = zlen <$> <[Z.to_nat i := l]> s.2.
Proof.
  intros HI Hi -> v'. split; [apply store_addr; [apply HI|by rewrite (pi_ccap _ _ _ HI)]|].
  split; [by apply vset_ok, HI|]. split; [apply HI|]. simpl.
  by rewrite (pi_counts _ _ _ HI), list_fmap_insert.
Qed.

Lemma owns_fun o range t i k k' : emapp pow2 o range t → owns t i k → owns t i k' → k = k'.
Proof.
  intros HE [tm H1] [tm' H2]. pose proof (ent_idx_NoDup _ _ _ _ HE) as Hnd.
  apply (t_entry_elem _ _ Hnd) in H1, H2. simpl in *. congruence.
Qed.

Lemma owns_inj o range t i i' k : emapp pow2 o range t → owns t i k → owns t i' k → i = i'.
Proof.
  intros HE [tm H1] [tm' H2]. pose proof (em_keys _ _ _ _ HE) as Hnd.
  apply (t_lookup_elem t _ Hnd) in H1, H2. simpl in *. congruence.
Qed.

(** Nothing has expired. *)
Definition all_live s (now : Z) : Prop :=
  t_expire s.1 (now - 1000 * expiration_time config) = s.1.

Lemma psd_expire_spec st s before now :
  psd_inv st s before → before ≤ now → 0 ≤ now < 2 ^ 63 → all_live s now →
  ∃ st', expire_entries pow2 config st now = Some st' ∧ psd_inv st' s now ∧
    psd_expire config s now = s.
Proof.
  intros HI Hle Hnow Hlive. unfold expire_entries. pose proof (co_exp _ HC).
  destruct (Z.leb_spec 0 now); [|lia]. cbn [c_assert mbind option_bind].
  rewrite last_time_exact by lia. rewrite (Z.mul_comm _ 1000).
  destruct (expire_items_single_map_spec pow2 _ _ _ (now - 1000 * expiration_time config)
    (pi_emap _ _ _ HI)) as (ch' & M' & -> & HE'). cbn [mbind option_bind].
  eexists. split; [done|]. unfold psd_expire. rewrite Hlive in HE' |- *. destruct s as [t ps]. simpl in *.
  split; [|done]. destruct HI. constructor; simpl; try done. by eapply t_sorted_mono.
Qed.

(** The cells of an index that has no ports are not touched. *)
Lemma expire_no_ports keys M i :
  0 ≤ i → expire_items_single_map_iteratively pow2 keys M i (s32 (zlen (@nil Z))) = Some M.
Proof.
  intros Hi. unfold expire_items_single_map_iteratively, for_each, for_u32.
  destruct (Z.leb_spec 0 i); [|lia]. change (s32 (zlen [])) with 0. simpl c_assert. cbn [mbind option_bind].
  replace (Z.to_nat (0 - i)) with 0%nat by lia. cbn [for_loop].
  by destruct (Z.ltb_spec i 0); [lia|].
Qed.

(** The objects after a port has been added to index [i]. *)
Lemma add_port st s t1 now i src port h :
  psd_inv st s now → 0 ≤ i < cfg_capacity config →
  (∀ i' k, owns t1 i' k ↔ owns s.1 i' k ∨ (i' = i ∧ k = MkIp src)) →
  (∀ i' k k', owns t1 i' k → owns t1 i' k' → k = k') →
  (∀ i' i'' k, owns t1 i' k → owns t1 i'' k → i' = i'') →
  (owns s.1 i (MkIp src) ∨ ports_of s.2 i = []) → port ∉ ports_of s.2 i →
  zlen (ports_of s.2 i) < cfg_max_ports config →
  let j := zlen (ports_of s.2 i) in
  let c := port_cell st i j in
  let keys' := vset (ports_key st) c (MkPort src port) in
  let counters' := vset (touched_ports_counter st) i (j + 1) in
  let ps' := <[Z.to_nat i := ports_of s.2 i ++ [port]]> s.2 in
  vector_borrow (ports_key st) c = Some (addr (ports_key st) c) ∧
  store (ports_key st) (addr (ports_key st) c) (MkPort src port) = Some keys' ∧
  store (touched_ports_counter st) (addr (touched_ports_counter st) i) (j + 1) = Some counters' ∧
  (vector_ok counters' ∧ vec_capacity counters' = cfg_capacity config ∧ cells counters' = zlen <$> ps') ∧
  (sees keys' h → ∃ M', map_put pow2 h (ports st) (addr (ports_key st) c) j = Some M' ∧
     ports_inv pow2 (cfg_capacity config) (cfg_max_ports config) (owns t1) ps' keys' M').
Proof.
  intros HI Hi Hown Hfun Hinj Hold Hnew Hroom j c keys' counters' ps'.
  pose proof (pi_ports _ _ _ HI) as HP.
  assert (0 ≤ j) as Hj0 by (unfold j, zlen; lia).
  destruct (port_cell_small st s now i j HI Hi ltac:(lia)) as [Hc Hr]. fold c in Hc.
  assert (0 ≤ c < vec_capacity (ports_key st)) as Hin by (rewrite (po_cap _ _ _ _ _ _ _ HP); lia).
  destruct (counter_write st s now i (ports_of s.2 i ++ [port]) (j + 1) HI Hi)
    as (Hcw & Hcs1 & Hcs2 & Hcs3); [unfold j, zlen; rewrite length_app; simpl; lia|].
  split_and!; try done.
  - apply vector_borrow_spec; [apply (po_vec _ _ _ _ _ _ _ HP)|done].
  - apply store_addr; [apply (po_vec _ _ _ _ _ _ _ HP)|done].
  - intros Hsee. unfold keys' in *. rewrite Hc in *.
    eapply ports_add; try done; apply HC.
Qed.

(** A source that is not in the table. *)
Lemma psd_allocate_spec st s src port now :
  psd_inv st s now → t_lookup s.1 (MkIp src) = None →
  ∃ ok st', allocate pow2 st src_p src port now = Some (ok, st') ∧
    psd_inv st' (psd_detect (cfg_max_ports config) s src port now).2 now.
Proof.
  intros HI El. pose proof (pi_emap _ _ _ HI) as HE. destruct s as [t ps]; simpl in *.
  unfold allocate, psd_detect. rewrite El. destruct (t_frees t) as [|i fs] eqn:Hfr.
  { destruct (emap_full _ _ _ _ HE (-1) now) as (ch' & -> & HE'); [unfold t_full; by rewrite Hfr|].
    cbn [mbind option_bind]. rewrite Z.eqb_refl. eexists _, _. split; [done|].
    destruct HI. by constructor. }
  destruct (emap_add _ _ _ _ HE (MkIp src) (-1) i fs now El Hfr) as (ch' & -> & Hi & Hb & Hst & Hput).
  osteps. destruct (Z.eqb_spec 1 0); [lia|]. osteps.
  assert (ports_of ps i = []) as Hnil by (apply (pi_free _ _ _ HI); simpl; rewrite Hfr; by left).
  destruct (counter_read _ _ _ i HI Hi) as [-> Hn]. cbn [mbind option_bind]. simpl in Hn.
  rewrite Hn, Hnil. cbn [mbind option_bind]. rewrite expire_no_ports by lia. cbn [mbind option_bind].
  destruct (Hput (with_local (deref (vset (o_vec (srcs st)) i (MkIp src))) src_p (MkIp src)))
    as (M1 & HM1 & HE'); [apply sees_local, HI|].
  pose proof (add_port st (t, ps) (t_add t (MkIp src) now) now i src port
    (deref (vset (ports_key st) (port_cell st i 0) (MkPort src port))) HI Hi) as Ha.
  simpl in Ha. rewrite Hnil in Ha. simpl in Ha. change (zlen []) with 0 in Ha. change (0 + 1) with 1 in Ha.
  destruct Ha as (Hpb & Hps & Hcw & (Hc1 & Hc2 & Hc3) & HM2);
    [intros; by eapply owns_add|intros *; by eapply owns_fun|intros *; by eapply owns_inj
    |by right|by apply not_elem_of_nil|apply HC|].
  destruct HM2 as (M2 & HM2 & HP'); [apply sees_deref|]. osteps.
  eexists _, _. split; [done|]. destruct HI. constructor; simpl; try done.
  - by apply t_add_sorted.
  - intros i' Hi'. destruct (free_range _ _ _ _ HE' i' Hi') as [Hr' Hnin].
    pose proof (po_len _ _ _ _ _ _ _ pi_ports0) as Hl. simpl in Hl. rewrite ports_of_insert by lia.
    unfold t_add in Hi', Hnin. rewrite Hfr in Hi', Hnin. simpl in Hi', Hnin.
    destruct (decide _) as [Heq|].
    + destruct Hnin. replace i' with i by lia. rewrite fmap_app. apply elem_of_app. right. by left.
    + apply pi_free0. simpl. rewrite Hfr. by right.
Qed.

(** A packet of a source, in the table or not. *)
Lemma psd_detect_spec st s src port now :
  psd_inv st s now →
  ∃ st', detect_port_scanning pow2 st src_p tp_p src port now =
      Some ((psd_detect (cfg_max_ports config) s src port now).1, st') ∧
    psd_inv st' (psd_detect (cfg_max_ports config) s src port now).2 now.
Proof.
  intros HI. pose proof (pi_emap _ _ _ HI) as HE. unfold detect_port_scanning.
  rewrite (emap_get _ _ _ _ HE src_p (MkIp src) (-1) (pi_src _ _ _ HI)).
  destruct (t_lookup s.1 (MkIp src)) as [e|] eqn:El; cbn [mbind option_bind].
  2: { rewrite Z.eqb_refl. destruct (psd_allocate_spec st s src port now HI El) as (ok & st' & -> & HI').
       cbn [mbind option_bind]. exists st'. split; [|done]. destruct s as [t ps]; simpl in El.
       unfold psd_detect. rewrite El. by destruct (t_frees t). }
  destruct (Z.eqb_spec 1 0); [lia|]. pose proof El as [He Hk]%t_lookup_Some.
  destruct (emap_refresh _ _ _ _ HE e now He) as (ch' & -> & HE'). cbn [mbind option_bind].
  pose proof (ent_range _ _ _ _ HE e He) as Hi. pose proof (ent_idx_NoDup _ _ _ _ HE) as Hnd.
  set (st1 := set_srcs st _). destruct s as [t ps]; simpl in El, HE, He, HE', Hi, Hnd.
  unfold psd_detect. rewrite El.
  assert (psd_inv st1 (t_refresh t (e_idx e) now, ps) now) as HI1.
  { destruct HI. constructor; simpl; try done; [by apply t_refresh_sorted|].
    eapply ports_inv_iff; [|done]. intros. symmetry. by apply owns_refresh. }
  destruct (counter_read _ _ _ (e_idx e) HI1 Hi) as [-> Hn]. cbn [mbind option_bind snd] in Hn |- *.
  rewrite Hn. cbn [mbind option_bind].
  assert (owns (t_refresh t (e_idx e) now) (e_idx e) (MkIp src)) as Ho.
  { apply owns_refresh; [done..|]. exists (e_time e). rewrite <- Hk. by destruct e. }
  destruct (ports_get pow2 _ _ (co_ports _ HC) (co_capacity _ HC) _ _ _ _
    _ tp_p (MkPort src port) (pi_ports _ _ _ HI1) (pi_tp _ _ _ HI1) eq_refl) as (b & v & -> & Hb & Hbi).
  cbn [mbind option_bind]. simpl in Hbi.
  assert (b = 1 ↔ port ∈ ports_of ps (e_idx e)) as Hb1.
  { rewrite Hbi. split; [|eauto]. intros (i & Hoi & Hp).
    by rewrite (owns_inj _ _ _ _ _ _ HE' Ho Hoi). }
  rewrite (pi_max _ _ _ HI1). change (e_idx e) with (e_idx e).
  destruct (bool_decide_reflect (port ∈ ports_of ps (e_idx e))) as [Hin|Hnin].
  { apply Hb1 in Hin as ->. simpl. by exists st1. }
  assert (b = 0) as -> by (destruct Hb as [->|Hb]; [done|by apply Hb1 in Hb]). simpl andb.
  destruct (Z.leb_spec (cfg_max_ports config) (zlen (ports_of ps (e_idx e)))) as [Hfull|Hroom].
  { by exists st1. }
  set (l := ports_of ps (e_idx e)) in *. assert (0 ≤ zlen l) by (unfold zlen; lia).
  pose proof (co_ports _ HC). rewrite s32_small by (unfold INT_MIN, INT_MAX; lia).
  rewrite int_chk_small by (unfold INT_MIN, INT_MAX; lia). cbn [mbind option_bind].
  replace (zlen l - 1 + 1) with (zlen l) by lia. rewrite (u32_small (zlen l + 1)) by lia.
  pose proof (add_port st1 (t_refresh t (e_idx e) now, ps) (t_refresh t (e_idx e) now) now (e_idx e)
    src port (with_local (deref (vset (ports_key st1) (port_cell st1 (e_idx e) (zlen l))
      (MkPort src port))) tp_p (MkPort src port)) HI1 Hi) as Ha.
  cbn [fst snd] in Ha. fold l in Ha.
  destruct Ha as (Hpb & Hps & Hcw & (Hc1 & Hc2 & Hc3) & HM2);
    [intros i k; split; [by left|by intros [|[-> ->]]]|intros *; by eapply owns_fun
    |intros *; by eapply owns_inj|by left|done|done|].
  destruct HM2 as (M2 & HM2 & HP'); [apply sees_local, (pi_tp _ _ _ HI1)|]. osteps.
  eexists. split; [done|]. destruct HI1. constructor; simpl; try done.
  intros i' Hi'. pose proof (po_len _ _ _ _ _ _ _ pi_ports0) as Hl. simpl in Hl, pi_free0.
  rewrite ports_of_insert by lia. destruct (decide _) as [Heq|]; [|by apply pi_free0].
  destruct (free_range _ _ _ _ HE i' Hi') as [Hr' Hnf]. destruct Hnf.
  replace i' with (e_idx e) by lia. by apply list_elem_of_fmap_2.
Qed.


Lemma psd_process_spec before now device st s pk tail :
  psd_inv st s before → before ≤ now → 0 ≤ now < 2 ^ 63 → all_live s now → received pk tail →
  let '(s', act) := psd_spec config s device now (packet_headers pk) in
  ∃ dev pk' st', nf_process pow2 config st src_p tp_p device now pk = Some (dev, pk', st') ∧
    psd_inv st' s' now ∧ acted pk device act dev pk' ∧ buf pk' = buf pk.
Proof.
  intros HI0 Hle Hnow Hlive HR. unfold nf_process, psd_spec.
  assert (psd_inv st s now) as HI by (destruct HI0; constructor; try done; by eapply t_sorted_mono).
  destruct (parse_cases pk tail HR)
    as (pk1 & He & [(opts & pk2 & Hi & -> & Hact)|[(opts & pk2 & pk3 & Hi & Hnz & Ht & -> & Hact)|
        (opts & pk2 & h & Hi & Hnz & Ht & Hnz4 & HP)]]); rewrite He; osteps.
  { rewrite Z.eqb_refl. eexists _, _, _. split_and!; [done|done|done|].
    by destruct (Hact 0) as (_ & _ & ?). }
  { rewrite (not_null _ Hnz). osteps. rewrite Z.eqb_refl.
    eexists _, _, _. split_and!; [done|done|done|].
    by destruct (Hact 0) as (_ & _ & ?). }
  rewrite (not_null _ Hnz). osteps. rewrite (not_null _ Hnz4). rewrite (pd_headers _ _ HP) in *.
  destruct (psd_expire_spec st s before now HI0 Hle Hnow Hlive) as (st1 & -> & HI1 & ->).
  cbn [mbind option_bind]. destruct (after_tcpudp_frame pk) as (Fb & Fbuf & Ft & Fr).
  assert (∀ d, d ≠ device → acted pk device (Some (d, h)) d (after_tcpudp pk)) as Hfwd
    by (intros d Hd; by apply parsed_forward).
  pose proof (co_devices _ HC).
  destruct (Z.eqb_spec device (lan_device config)) as [Hl|Hl].
  { eexists _, _, _. split_and!; [done|done|apply Hfwd; congruence|done]. }
  destruct (Z.eqb_spec device (wan_device config)) as [Hw|Hw].
  2: { eexists _, _, _. split_and!; [done|done|by eapply parsed_drop|done]. }
  destruct (pd_loads _ _ HP) as (Hsrc & _ & _ & _ & Hdst). osteps.
  destruct (psd_detect_spec st1 s (h_src_addr h) (h_dst_port h) now HI1) as (st2 & -> & HI2).
  cbn [mbind option_bind].
  destruct (psd_detect _ s (h_src_addr h) (h_dst_port h) now) as [[] s2]; simpl in *;
    eexists _, _, _; (split_and!; [done|done| |done]); [by eapply parsed_drop|apply Hfwd; congruence].
Qed.

End proofs.

(** ** Executions *)

(** The handler over a sequence of packets, and the contract. *)
Fixpoint psd_run `{Crc32} (pow2 : bool) (config : nf_config) (src_p tp_p : Z) (evs : list event)
    (st : State) : option (list Z * State) :=
  match evs with
  | [] => Some ([], st)
  | ev :: evs' =>
      '(dev, _, st') ←
        nf_process pow2 config st src_p tp_p (ev_device ev) (ev_now ev) (ev_packet ev);
      '(outs, st'') ← psd_run pow2 config src_p tp_p evs' st';
      Some (dev :: outs, st'')
  end.

(** One packet, and the device that it is sent to. *)
Definition psd_step (config : nf_config) (ev : event) (s : psd_abs) : Z * psd_abs :=
  let '(s', act) := psd_spec config s (ev_device ev) (ev_now ev) (packet_headers (ev_packet ev)) in
  (match act with Some (d, _) => d | None => ev_device ev end, s').

Fixpoint psd_spec_run (config : nf_config) (evs : list event) (s : psd_abs) : list Z * psd_abs :=
  match evs with
  | [] => ([], s)
  | ev :: evs' =>
      let '(d, s') := psd_step config ev s in
      let '(outs, s'') := psd_spec_run config evs' s' in
      (d :: outs, s'')
  end.

(** Every source has been seen since [start]. *)
Definition seen_since (start : Z) (s : psd_abs) : Prop := ∀ e, e ∈ ents s.1 → start ≤ e_time e.

Lemma seen_live config start s now :
  seen_since start s → now ≤ start + 1000 * expiration_time config → all_live config s now.
Proof.
  intros Hs Hn. unfold all_live, t_expire. unfold seen_since in Hs. destruct s as [[es fs] ps]; simpl in *.
  destruct es as [|e es]; [done|]. simpl. specialize (Hs e ltac:(by left)).
  by destruct (Z.ltb_spec (e_time e) (now - 1000 * expiration_time config)); [lia|].
Qed.

Lemma seen_detect mp start s src port now :
  seen_since start s → start ≤ now → seen_since start (psd_detect mp s src port now).2.
Proof.
  intros Hs Hn. destruct s as [t ps]. unfold psd_detect.
  destruct (t_lookup t (MkIp src)) as [e|].
  - assert (seen_since start (t_refresh t (e_idx e) now, ps)) as Hr.
    { intros e' [[_ He']%list_elem_of_filter|He']%elem_of_app; [by apply Hs|].
      by apply list_elem_of_fmap in He' as (? & -> & _). }
    repeat case_match; done.
  - destruct (t_frees t) as [|i fs] eqn:Hf; [done|]. intros e He. simpl in He.
    unfold t_add in He. rewrite Hf in He. simpl in He.
    apply elem_of_app in He as [He|He%list_elem_of_singleton]; [by apply Hs|by subst].
Qed.

(** What stays of a state while nothing expires: sources keep their index, their
    ports only grow, up to the limit, and a full table does not change. *)
Record grown (mp : Z) (s s' : psd_abs) : Prop := Grown {
  gr_owns : ∀ i k, owns s.1 i k → owns s'.1 i k;
  gr_full : t_frees s.1 = [] → t_frees s'.1 = [] ∧ ∀ i k, owns s'.1 i k → owns s.1 i k;
  gr_ports : ∀ i k, owns s.1 i k → ∃ l, ports_of s'.2 i = ports_of s.2 i ++ l ∧
                                      (mp ≤ zlen (ports_of s.2 i) → l = [])
}.

Lemma grown_refl mp s : grown mp s s.
Proof. constructor; [done|done|]. intros. exists []. by rewrite app_nil_r. Qed.

Lemma grown_trans mp s1 s2 s3 : grown mp s1 s2 → grown mp s2 s3 → grown mp s1 s3.
Proof.
  intros H1 H2. constructor.
  - intros i k Ho. by apply (gr_owns _ _ _ H2), (gr_owns _ _ _ H1).
  - intros [Hf Ho]%(gr_full _ _ _ H1). apply (gr_full _ _ _ H2) in Hf as [Hf Ho2]. auto.
  - intros i k Ho. destruct (gr_ports _ _ _ H1 i k Ho) as (l1 & Hl1 & Hm1).
    destruct (gr_ports _ _ _ H2 i k (gr_owns _ _ _ H1 i k Ho)) as (l2 & Hl2 & Hm2).
    exists (l1 ++ l2). rewrite Hl2, Hl1, app_assoc. split; [done|]. intros Hm.
    rewrite (Hm1 Hm), Hm2; [done|]. by rewrite Hl1, (Hm1 Hm), app_nil_r.
Qed.

Lemma grown_refresh mp t ps e now :
  e ∈ ents t → NoDup (e_idx <$> ents t) → grown mp (t, ps) (t_refresh t (e_idx e) now, ps).
Proof.
  intros He Hnd. constructor; simpl.
  - intros i k. by apply owns_refresh.
  - intros Hf. split; [done|]. intros i k. by apply owns_refresh.
  - intros i k _. exists []. by rewrite app_nil_r.
Qed.

Lemma grown_add mp t ps i fs k now : t_frees t = i :: fs → grown mp (t, ps) (t_add t k now, ps).
Proof.
  intros Hf. constructor; simpl.
  - intros i' k' Ho. apply (owns_add _ _ _ _ _ _ _ Hf). by left.
  - by rewrite Hf.
  - intros i' k' _. exists []. by rewrite app_nil_r.
Qed.

Lemma grown_port mp t ps i port :
  0 ≤ i < zlen ps → zlen (ports_of ps i) < mp →
  grown mp (t, ps) (t, <[Z.to_nat i := ports_of ps i ++ [port]]> ps).
Proof.
  intros Hi Hl. constructor; simpl; [done|done|]. intros i' k _. rewrite ports_of_insert by done.
  destruct (decide (Z.to_nat i' = Z.to_nat i)) as [Heq|].
  - exists [port]. assert (ports_of ps i' = ports_of ps i) as -> by (unfold ports_of; by rewrite Heq).
    split; [done|]. lia.
  - exists []. by rewrite app_nil_r.
Qed.

(** The output for a packet from outside is what the ports of [s'] say. *)
Definition decided (config : nf_config) (s' : psd_abs) (ev : event) (out : Z) : Prop :=
  ∀ i h, ev_device ev = wan_device config → packet_headers (ev_packet ev) = Some h →
    owns s'.1 i (MkIp (h_src_addr h)) →
    out = if bool_decide (h_dst_port h ∈ ports_of s'.2 i) then lan_device config else wan_device config.

Section steps.
Context `{Crc32}.
Variable pow2 : bool.
Variable config : nf_config.
Hypothesis HC : config_ok config.
Variables src_p tp_p : Z.
Let inv := psd_inv pow2 config src_p tp_p.
Let mp := cfg_max_ports config.

(** Whatever happens after [s1], the ports of [src] say that its packet to [port]
    was [detected] or not. *)
Definition settled (s1 : psd_abs) (src port : Z) (detected : bool) : Prop :=
  ∀ st' s' now' i, inv st' s' now' → grown mp s1 s' → owns s'.1 i (MkIp src) →
    detected = negb (bool_decide (port ∈ ports_of s'.2 i)).

(** The ports of the index of a source, later on. *)
Lemma ports_later s1 st' s' now' i i' src :
  owns s1.1 i (MkIp src) → inv st' s' now' → grown mp s1 s' → owns s'.1 i' (MkIp src) →
  ∃ l, ports_of s'.2 i' = ports_of s1.2 i ++ l ∧ (mp ≤ zlen (ports_of s1.2 i) → l = []).
Proof.
  intros Ho1 HI' Hg Ho. pose proof (gr_owns _ _ _ Hg _ _ Ho1) as Ho2.
  rewrite (owns_inj pow2 _ _ _ _ _ _ (pi_emap _ _ _ _ _ _ _ HI') Ho Ho2).
  exact (gr_ports _ _ _ Hg _ _ Ho1).
Qed.

Lemma settled_pass s1 i src port :
  owns s1.1 i (MkIp src) → port ∈ ports_of s1.2 i → settled s1 src port false.
Proof.
  intros Ho1 Hp st' s' now' i' HI' Hg Ho.
  destruct (ports_later s1 _ _ _ i i' src Ho1 HI' Hg Ho) as (l & -> & _).
  rewrite bool_decide_true; [done|]. apply elem_of_app. by left.
Qed.

Lemma settled_drop s1 i src port :
  owns s1.1 i (MkIp src) → port ∉ ports_of s1.2 i → mp ≤ zlen (ports_of s1.2 i) →
  settled s1 src port true.
Proof.
  intros Ho1 Hp Hl st' s' now' i' HI' Hg Ho.
  destruct (ports_later s1 _ _ _ i i' src Ho1 HI' Hg Ho) as (l & -> & Hnil).
  rewrite Hnil, app_nil_r by done. by rewrite bool_decide_false.
Qed.

(** A packet of a source makes the state grow, and settles its own output. *)
Lemma detect_grown st s src port now :
  inv st s now →
  let '(detected, s1) := psd_detect mp s src port now in
  grown mp s s1 ∧ settled s1 src port detected.
Proof.
  intros HI. pose proof (pi_emap _ _ _ _ _ _ _ HI) as HE. destruct s as [t ps]. unfold psd_detect.
  pose proof (po_len _ _ _ _ _ _ _ (pi_ports _ _ _ _ _ _ _ HI)) as Hlen. simpl in HE, Hlen.
  destruct (t_lookup t (MkIp src)) as [e|] eqn:El.
  - pose proof El as [He Hk]%t_lookup_Some. pose proof (ent_idx_NoDup _ _ _ _ HE) as Hnd.
    pose proof (ent_range _ _ _ _ HE e He) as Hi.
    assert (owns (t_refresh t (e_idx e) now) (e_idx e) (MkIp src)) as Ho1.
    { apply owns_refresh; [done..|]. exists (e_time e). rewrite <- Hk. by destruct e. }
    pose proof (grown_refresh mp t ps e now He Hnd) as Hg1.
    destruct (bool_decide_reflect (port ∈ ports_of ps (e_idx e))) as [Hin|Hnin];
      [|destruct (Z.leb_spec mp (zlen (ports_of ps (e_idx e)))) as [Hfull|Hroom]].
    + split; [done|by eapply settled_pass].
    + split; [done|by eapply settled_drop].
    + split; [eapply grown_trans; [exact Hg1|apply grown_port; [lia|done]]|].
      eapply settled_pass; [exact Ho1|]. simpl. rewrite ports_of_insert, decide_True by (done || lia).
      apply elem_of_app. right. by left.
  - destruct (t_frees t) as [|i fs] eqn:Hfr.
    { split; [apply grown_refl|]. intros st' s' now' i HI' Hg Ho.
      destruct (gr_full _ _ _ Hg Hfr) as [_ Hall]. apply Hall in Ho as [tm Ho].
      by destruct (t_lookup_None _ _ El _ Ho). }
    assert (ports_of ps i = []) as Hnil
      by (apply (pi_free _ _ _ _ _ _ _ HI); simpl; rewrite Hfr; by left).
    destruct (free_range _ _ _ _ HE i ltac:(rewrite Hfr; by left)) as [Hi _].
    pose proof (grown_port mp (t_add t (MkIp src) now) ps i port ltac:(lia)) as Hgp.
    rewrite Hnil in Hgp. simpl in Hgp.
    split; [eapply grown_trans; [by eapply grown_add|apply Hgp; unfold zlen; simpl; apply HC]|].
    eapply (settled_pass _ i); simpl; [apply (owns_add _ _ _ _ _ _ _ Hfr); by right|].
    rewrite ports_of_insert, decide_True by (done || lia). by left.
Qed.

(** One packet of the window. *)
Lemma psd_step_spec start before st s ev tail :
  inv st s before → seen_since start s → before ≤ ev_now ev → 0 ≤ start ≤ ev_now ev →
  ev_now ev < 2 ^ 63 → ev_now ev ≤ start + 1000 * expiration_time config →
  received (ev_packet ev) tail →
  let '(out, s1) := psd_step config ev s in
  ∃ pk' st', nf_process pow2 config st src_p tp_p (ev_device ev) (ev_now ev) (ev_packet ev) =
      Some (out, pk', st') ∧
    inv st' s1 (ev_now ev) ∧ seen_since start s1 ∧ grown mp s s1 ∧
    ∀ st' s' now', inv st' s' now' → grown mp s1 s' → decided config s' ev out.
Proof.
  intros HI Hseen Hb Hst Hn Hw HR. pose proof (seen_live config start s (ev_now ev) Hseen Hw) as Hlive.
  pose proof (psd_process_spec pow2 config HC src_p tp_p before (ev_now ev) (ev_device ev) st s
    (ev_packet ev) tail HI Hb ltac:(lia) Hlive HR) as Hp.
  destruct (psd_expire_spec pow2 config HC src_p tp_p st s before (ev_now ev) HI Hb ltac:(lia) Hlive)
    as (st0 & _ & HI1 & Hexp).
  unfold psd_step, decided. unfold psd_spec in *. pose proof (co_devices _ HC) as Hne.
  destruct (packet_headers (ev_packet ev)) as [h|]; [rewrite Hexp in *|].
  2: { destruct Hp as (dev & pk' & st' & Hp & HI' & (_ & Hact) & _). exists pk', st'.
       rewrite Hp, (proj1 Hact). split_and!; [done..|apply grown_refl|done]. }
  destruct (Z.eqb_spec (ev_device ev) (lan_device config)) as [Hl|Hl].
  { destruct Hp as (dev & pk' & st' & Hp & HI' & (_ & Hact) & _). exists pk', st'.
    rewrite Hp, (proj1 Hact). split_and!; [done..|apply grown_refl|].
    intros. congruence. }
  destruct (Z.eqb_spec (ev_device ev) (wan_device config)) as [Hwd|Hwd].
  2: { destruct Hp as (dev & pk' & st' & Hp & HI' & (_ & Hact) & _). exists pk', st'.
       rewrite Hp, (proj1 Hact). split_and!; [done..|apply grown_refl|done]. }
  pose proof (detect_grown _ s (h_src_addr h) (h_dst_port h) (ev_now ev) HI1) as Hd.
  pose proof (seen_detect mp start s (h_src_addr h) (h_dst_port h) (ev_now ev) Hseen ltac:(lia)) as Hs1.
  fold mp in Hp |- *.
  destruct (psd_detect mp s (h_src_addr h) (h_dst_port h) (ev_now ev)) as [b s1].
  destruct Hd as [Hg Hset]. destruct Hp as (dev & pk' & st' & Hp & HI' & (_ & Hact) & _).
  exists pk', st'. split_and!; [|done|done|done|].
  - rewrite Hp. destruct b; by rewrite (proj1 Hact).
  - intros st2 s2 now2 HI2 Hg2 i h' _ [= <-] Ho. specialize (Hset st2 s2 now2 i HI2 Hg2 Ho).
    rewrite Hset. destruct (bool_decide _); simpl; congruence.
Qed.

(** All packets of the window, with the outputs settled by the last state. *)
Lemma psd_run_spec start evs before st s :
  inv st s before → seen_since start s → 0 ≤ start ≤ before → events_ok before evs →
  last_now before evs ≤ start + 1000 * expiration_time config →
  ∃ st', psd_run pow2 config src_p tp_p evs st = Some ((psd_spec_run config evs s).1, st') ∧
    inv st' (psd_spec_run config evs s).2 (last_now before evs) ∧
    grown mp s (psd_spec_run config evs s).2 ∧
    Forall2 (decided config (psd_spec_run config evs s).2) evs (psd_spec_run config evs s).1.
Proof.
  revert before st s. induction evs as [|ev evs IH]; intros before st s HI Hs Hst Hok Hw.
  { exists st. split_and!; [done|done|apply grown_refl|constructor]. }
  destruct Hok as (Hb & Hn & (tail & HR) & Hok). cbn [psd_run psd_spec_run last_now] in *.
  pose proof (last_now_ge _ _ Hok) as Hle.
  pose proof (psd_step_spec start before st s ev tail HI Hs Hb ltac:(lia) Hn ltac:(lia) HR) as Hp.
  destruct (psd_step config ev s) as [out s1].
  destruct Hp as (pk' & st1 & -> & HI1 & Hs1 & Hg1 & Hdec). cbn [mbind option_bind].
  destruct (IH (ev_now ev) st1 s1 HI1 Hs1 ltac:(lia) Hok Hw) as (st2 & -> & HI2 & Hg2 & Hall).
  cbn [mbind option_bind]. destruct (psd_spec_run config evs s1) as [outs s2]. simpl in *.
  exists st2. split_and!; [done|done|by eapply grown_trans|]. constructor; [by eapply Hdec|done].
Qed.

(** ** Initialisation *)

Definition psd_empty : psd_abs :=
  (Table [] (seqZ 0 (cfg_capacity config)), replicate (Z.to_nat (cfg_capacity config)) []).

Lemma ports_empty keys M :
  vector_ok keys → vec_capacity keys = cfg_capacity config * cfg_max_ports config →
  Map.capacity M = cfg_capacity config * cfg_max_ports config →
  (∀ h : heap TouchedPort, mapp pow2 h M ∅ ∅) →
  ports_inv pow2 (cfg_capacity config) (cfg_max_ports config) (owns psd_empty.1) psd_empty.2 keys M.
Proof.
  intros Hv Hc HMc HM. assert (∀ i k, ¬ owns psd_empty.1 i k) as Hno.
  { intros i k [tm Hin]. by apply elem_of_nil in Hin. }
  pose proof (co_capacity _ HC). constructor; try done; try by intros * ?%Hno.
  - unfold psd_empty. simpl. rewrite zlen_replicate. lia.
  - apply Forall_replicate. simpl. lia.
  - exists ∅, ∅. split_and!; [apply HM| | |].
    + rewrite map_size_empty. unfold psd_empty. simpl.
      assert (∀ n, concat (replicate n (@nil Z)) = []) as -> by (induction n; simpl; auto). done.
    + intros tp. rewrite lookup_empty. split; [by intros []|]. by intros (i & ?%Hno & _).
    + intros tp p Hp. by rewrite lookup_empty in Hp.
Qed.

(** Counters in memory that holds zeros. *)
Lemma zero_counters (f : Z → Z) n :
  (∀ a, f a = 0) → f <$> seqZ 0 n = zlen <$> replicate (Z.to_nat n) (@nil Z).
Proof.
  intros Hf. rewrite fmap_replicate. symmetry. apply replicate_as_elem_of.
  split; [by rewrite length_fmap, length_seqZ|].
  intros x (i & -> & _)%list_elem_of_fmap. apply Hf.
Qed.

(** In memory that holds zeros, [nf_init] has defined behaviour, and establishes
    the invariant when it succeeds; the two variables on the stack are below the
    memory of the allocator. *)
Lemma psd_init_spec devs μ :
  mem_ok μ → (∀ a, junk μ a = 0) → src_p < brk μ → tp_p < brk μ →
  ∃ ok o μ', nf_init pow2 config devs μ = Some ((ok, o), μ') ∧
    match o with Some st => ok = true ∧ inv st psd_empty 0 | None => ok = false end.
Proof.
  intros Hok Hz Hsp Htp. pose proof HC as [_ Hp Hcap Hsz _]. unfold VECTOR_CAPACITY_UPPER_LIMIT in Hsz.
  cut (yields (alloc_state pow2 (cfg_capacity config) (u16 (cfg_max_ports config)) devs)
         (λ o _, ∀ st, o = Some st → inv st psd_empty 0) μ).
  { intros (o & μ' & Ha & Ho). unfold nf_init. mstep.
    destruct o as [st|]; eexists _, _, _; (split; [done|]); [|done]. split; [done|]. by apply Ho. }
  assert (cfg_capacity config ≤ 140000) as Hcc by nia.
  rewrite u16_small by lia. unfold alloc_state. rewrite (u32_small (_ * _)) by nia.
  apply yields_malloc; [done|by intros; apply yields_ret|]. intros p μ0 Hp0 _ (Hok0 & Hb0 & Hj0).
  rewrite not_null by done.
  apply (yields_map_allocate (K := ip_addr)); [done|lia|unfold INT_MAX; lia|by intros; apply yields_ret|].
  intros _ M μ1 (Hok1 & Hb1 & Hj1) HMc HM. cbv beta iota.
  apply yields_here, yields_vector_allocate; [done|lia|unfold VECTOR_CAPACITY_UPPER_LIMIT; lia
    |by intros; apply yields_ret|].
  intros _ ks μ2 (Hok2 & Hb2 & Hj2) Hks Hes Hkc Hdata _. cbv beta iota.
  apply yields_here, yields_vector_allocate; [done|lia|unfold VECTOR_CAPACITY_UPPER_LIMIT; lia
    |by intros; apply yields_ret|].
  intros _ cs μ3 (Hok3 & Hb3 & _) Hcs _ Hcsc _ Hcells. cbv beta iota.
  apply yields_dchain_allocate; [done|unfold IRANG_LIMIT; lia|by intros; apply yields_ret|].
  intros _ ch μ4 (Hok4 & Hb4 & _) HCh. cbv beta iota.
  apply (yields_map_allocate (K := TouchedPort)); [done|nia|unfold INT_MAX; lia
    |by intros; apply yields_ret|].
  intros _ M5 μ5 (Hok5 & Hb5 & _) HMc5 HM5. cbv beta iota.
  apply yields_vector_allocate; [done|lia|unfold VECTOR_CAPACITY_UPPER_LIMIT; nia
    |by intros; apply yields_ret|].
  intros _ pk μ6 _ Hpk Hes6 Hpkc Hdata6 _. apply yields_ret. intros st [= <-]. constructor; simpl.
  - apply emap_fresh; [done|lia|done|lia|done].
  - split; [constructor|]. intros e He. by apply elem_of_nil in He.
  - intros i Hi. unfold addr. simpl in Hi. nia.
  - intros i Hi. unfold addr. simpl in Hi. nia.
  - apply u32_small. lia.
  - done.
  - done.
  - rewrite Hcells. apply (zero_counters (λ i, junk μ2 (addr cs i))). intros a. congruence.
  - by apply ports_empty.
  - intros i _. unfold ports_of. simpl. destruct (replicate _ _ !! _) eqn:E; [|done].
    by apply lookup_replicate in E as [-> _].
Qed.

End steps.

(** ** Main result *)

(** C38: the detector is exact for one expiration time.  Let the memory that the
    allocator hands out hold zeros.  [nf_init] has defined behaviour, whatever
    the allocator answers.  When it succeeds, the handler processes any sequence
    of packets that lies within one expiration time without undefined behaviour,
    with the outputs of the contract; and each source that is in the table at
    the end has a set of at most [max_ports] ports such that all its packets to
    these ports were forwarded and all others were dropped, from the first packet
    on. *)
Theorem psd_exact_in_window `{Crc32} (pow2 : bool) (config : nf_config)
    (src_p tp_p devs start : Z) (μ : mem) (evs : list event) :
  config_ok config → mem_ok μ → (∀ a, junk μ a = 0) → src_p < brk μ → tp_p < brk μ →
  0 ≤ start → events_ok start evs →
  last_now start evs ≤ start + 1000 * expiration_time config →
  ∃ ok o μ', nf_init pow2 config devs μ = Some ((ok, o), μ') ∧
    match o with
    | None => ok = false
    | Some st => ok = true ∧ ∃ outs st' s',
        psd_run pow2 config src_p tp_p evs st = Some (outs, st') ∧
        psd_spec_run config evs (psd_empty config) = (outs, s') ∧
        (∀ i k, owns s'.1 i k → zlen (ports_of s'.2 i) ≤ cfg_max_ports config) ∧
        Forall2 (decided config s') evs outs
    end.
Proof.
  intros HC Hok Hz Hsp Htp Hst Hev Hw.
  destruct (psd_init_spec pow2 config HC src_p tp_p devs μ Hok Hz Hsp Htp) as (ok & o & μ' & Hi & Ho).
  exists ok, o, μ'. split; [done|]. destruct o as [st|]; [|done]. destruct Ho as [-> HI].
  split; [done|].
  assert (psd_inv pow2 config src_p tp_p st (psd_empty config) start) as HI0
    by (destruct HI; constructor; try done; by eapply t_sorted_mono).
  destruct (psd_run_spec pow2 config HC src_p tp_p start evs start st (psd_empty config) HI0)
    as (st' & Hr & HI' & _ & Hd); [by intros e He%elem_of_nil|lia|done|done|].
  destruct (psd_spec_run config evs (psd_empty config)) as [outs s']. simpl in *.
  exists outs, st', s'. split_and!; try done. intros i k _.
  by eapply ports_short, (pi_ports _ _ _ _ _ _ _ HI'); destruct HC.
Qed.

(** ** Concrete instances *)

#[local] Existing Instance sse42_crc32.

(** Two sources with two ports each, for a microsecond. *)
Definition demo_psd_config : nf_config := MkConfig 0 1 2 2 1.

Definition demo_zero_mem : mem := Mem [] (replicate 60 true) 4096 (λ _, 0).

(** [demo_packet] from another source and to another port. *)
Definition demo_probe (src port : Z) : packet :=
  Packet 4096 (<[29%nat := src]> (<[37%nat := port]> (buf demo_packet))) 60 0 [].

Lemma demo_probe_received src port : 0 ≤ src < 256 → 0 ≤ port < 256 → received (demo_probe src port) 20.
Proof.
  intros Hs Hp. destruct demo_packet_received. constructor; try done.
  unfold demo_probe, buf at 1. apply Forall_insert; [|lia]. by apply Forall_insert; [|lia].
Qed.

(** One source tries three ports, and the first again. *)
Definition demo_scan : list event :=
  [Event 1 5 (demo_probe 7 1); Event 1 6 (demo_probe 7 2); Event 1 7 (demo_probe 7 3);
   Event 1 8 (demo_probe 7 1)].

Definition demo_outputs (evs : list event) : option (list Z) :=
  match nf_init false demo_psd_config 2 demo_zero_mem with
  | Some ((_, Some st), _) => fst <$> psd_run false demo_psd_config 8 16 evs st
  | _ => None
  end.

Lemma demo_scan_ok : events_ok 5 demo_scan.
Proof.
  repeat (split; [simpl; lia|split; [done|split; [exists 20; by apply demo_probe_received|]]]). done.
Qed.

Lemma psd_exact_in_window_witness : ∃ ok o μ',
  nf_init false demo_psd_config 2 demo_zero_mem = Some ((ok, o), μ') ∧
  match o with
  | None => ok = false
  | Some st => ok = true ∧ ∃ outs st' s',
      psd_run false demo_psd_config 8 16 demo_scan st = Some (outs, st') ∧
      psd_spec_run demo_psd_config demo_scan (psd_empty demo_psd_config) = (outs, s') ∧
      (∀ i k, owns s'.1 i k → zlen (ports_of s'.2 i) ≤ cfg_max_ports demo_psd_config) ∧
      Forall2 (decided demo_psd_config s') demo_scan outs
  end.
Proof.
  apply (psd_exact_in_window false demo_psd_config 8 16 2 5 demo_zero_mem demo_scan).
  - constructor; vm_compute; intuition congruence.
  - done.
  - done.
  - done.
  - done.
  - done.
  - exact demo_scan_ok.
  - done.
Defined.

(** The third port of the source is dropped, the first stays open. *)
Example demo_scan_dropped : demo_outputs demo_scan = Some [0; 0; 1; 0].
Proof. vm_compute. reflexivity. Qed.

(** After the expiration time the detector no longer has defined behaviour.
    [allocate] erases the cells from [index] to the old counter, where the ports
    of the index are those from [max_ports * index]: the ports of index 1 stay in
    the map.  When both sources come back the map is full, and [map_put] writes
    at position 2 ^ 32 - 1 of its arrays. *)
Definition demo_round (t : Z) : list event :=
  [Event 1 t (demo_probe 7 1); Event 1 t (demo_probe 7 2);
   Event 1 t (demo_probe 8 1); Event 1 t (demo_probe 8 2)].

Example stale_ports_overflow :
  demo_outputs (demo_round 5) = Some [0; 0; 0; 0] ∧
  demo_outputs (demo_round 5 ++ demo_round 9000) = None.
Proof. split; vm_compute; reflexivity. Qed.
