(* ===== verification/Startup.v ===== *)
(** * nf.c: start-up

    [nf_init_device], [MAIN] and the head of [worker_main]: what happens between
    the start of the program and the first packet.  The answers of DPDK, the
    parser of the configuration and [nf_init] are parameters; the calls that
    set up the devices are recorded. *)
From stdpp Require Import base list numbers.
From Stdlib Require Import ZArith Lia.
From S2P Require Import Prelude.
From S2P Require Import Packet.
From S2P Require Import Fwd.
From S2P Require Import MainLoop.

(** The calls that change a device. *)
Inductive setup :=
| Configure (device rx_queues tx_queues : Z)
| TxQueue (device queue size : Z)
| RxQueue (device queue size : Z)
| Start (device : Z)
| Promiscuous (device : Z).

(** What DPDK answers about a device. *)
Record dev_answers := DevAnswers {
  rte_eth_dev_configure : Z;
  rte_eth_tx_queue_setup : Z;
  rte_eth_rx_queue_setup : Z;
  rte_eth_dev_start : Z;
  rte_eth_promiscuous_get : Z
}.

(** For batches of one packet and for larger ones. *)
Definition RX_QUEUE_SIZE (single : bool) : Z := if single then 96 else 128.
Definition TX_QUEUE_SIZE (single : bool) : Z := if single then 96 else 128.

Definition MEMPOOL_BUFFER_COUNT : Z := 256.

(** Returns the code and the calls made so far. *)
Definition nf_init_device (single : bool) (a : dev_answers) (device : Z) (log : list setup)
    : Z * list setup :=
  let log := log ++ [Configure device 1 1] in
  let retval := rte_eth_dev_configure a in
  if negb (retval =? 0) then (retval, log) else
  let log := log ++ [TxQueue device 0 (TX_QUEUE_SIZE single)] in
  let retval := rte_eth_tx_queue_setup a in
  if negb (retval =? 0) then (retval, log) else
  let log := log ++ [RxQueue device 0 (RX_QUEUE_SIZE single)] in
  let retval := rte_eth_rx_queue_setup a in
  if negb (retval =? 0) then (retval, log) else
  let log := log ++ [Start device] in
  let retval := rte_eth_dev_start a in
  if negb (retval =? 0) then (retval, log) else
  let log := log ++ [Promiscuous device] in
  if negb (rte_eth_promiscuous_get a =? 1) then (retval, log) else
  (0, log).

(** The loop of [MAIN] over the devices, with the number of those left; [Return]
    is a call of [rte_exit]. *)
Fixpoint init_devices (single : bool) (answers : Z → dev_answers) (device : Z) (left : nat)
    (log : list setup) : outcome (list setup) (list setup) :=
  match left with
  | O => Continue log
  | S left' =>
      let '(ret, log') := nf_init_device single (answers device) device log in
      if ret =? 0 then init_devices single answers (u16 (device + 1)) left' log' else Return log'
  end.

Section main.
Variable nf : NF.
Variable config : Type.
(** The answers of the environment: [rte_eal_init], the parser of the command
    line ([Return] when it exits), the number of devices, [rte_pktmbuf_pool_create]
    by the number of buffers, each device, and [nf_init] (the inner [None] when it
    returns false).  The outer [None] of the functions is undefined behaviour. *)
Variable rte_eal_init : Z.
Variable nf_config_init : option (outcome config unit).
Variable nb_devices : Z.
Variable rte_pktmbuf_pool_create : Z → bool.
Variable answers : Z → dev_answers.
Variable nf_init : config → option (option (nf_state nf)).
Variable rx : nat → Z → option mbuf.
Variable tx : nat → bool.

(** [MAIN] up to the end of the rounds that start at [times], for batches of one
    packet: [Return] is a call of [rte_exit], with the calls made before it;
    otherwise the calls, the configuration and what the loop gives.  The globals
    of packet-io.c and nf-util.h start at zero. *)
Definition MAIN (times : list Z)
    : option (outcome (list setup * config * outcome (loop_state nf) world) (list setup)) :=
  if rte_eal_init <? 0 then Some (Return []) else
  cfg ← nf_config_init;
  match cfg with
  | Return _ => Some (Return [])
  | Continue cfg =>
      if negb (rte_pktmbuf_pool_create (u32 (MEMPOOL_BUFFER_COUNT * nb_devices)))
      then Some (Return []) else
      match init_devices true answers 0 (Z.to_nat nb_devices) [] with
      | Return log => Some (Return log)
      | Continue log =>
          st ← nf_init cfg;
          match st with
          | None => Some (Return log)
          | Some st =>
              o ← worker_main rx tx nb_devices times (LoopState st 0 0 [] (World 0 0 []));
              Some (Continue (log, cfg, o))
          end
      end
  end.

End main.

(** ** Initialisation of the devices *)

(** The setup of a device succeeds. *)
Definition starts (a : dev_answers) : bool :=
  (rte_eth_dev_configure a =? 0) && (rte_eth_tx_queue_setup a =? 0) &&
  (rte_eth_rx_queue_setup a =? 0) && (rte_eth_dev_start a =? 0).

(** The calls that bring a device up. *)
Definition bring_up (single : bool) (device : Z) : list setup :=
  [Configure device 1 1; TxQueue device 0 (TX_QUEUE_SIZE single);
   RxQueue device 0 (RX_QUEUE_SIZE single); Start device; Promiscuous device].

(** A device is initialised exactly when its setup succeeds; promiscuous mode
    does not matter.  Otherwise the calls stop at the first failure. *)
Lemma init_device_spec single a device log :
  ∃ ret n, nf_init_device single a device log = (ret, log ++ take n (bring_up single device)) ∧
    (ret = 0 ↔ starts a = true) ∧ (starts a = true → n = 5%nat).
Proof.
  unfold nf_init_device, starts.
  destruct (Z.eqb_spec (rte_eth_dev_configure a) 0) as [E1|]; cbn [negb andb].
  2: { exists (rte_eth_dev_configure a), 1%nat. done. }
  destruct (Z.eqb_spec (rte_eth_tx_queue_setup a) 0) as [E2|]; cbn [negb andb].
  2: { exists (rte_eth_tx_queue_setup a), 2%nat. by rewrite <- !app_assoc. }
  destruct (Z.eqb_spec (rte_eth_rx_queue_setup a) 0) as [E3|]; cbn [negb andb].
  2: { exists (rte_eth_rx_queue_setup a), 3%nat. by rewrite <- !app_assoc. }
  destruct (Z.eqb_spec (rte_eth_dev_start a) 0) as [E4|]; cbn [negb andb].
  2: { exists (rte_eth_dev_start a), 4%nat. by rewrite <- !app_assoc. }
  exists 0, 5%nat. rewrite E4, <- !app_assoc. by destruct (negb _).
Qed.

Lemma init_devices_spec single answers (n : nat) device log :
  0 ≤ device → device + Z.of_nat n < 2 ^ 16 →
  if forallb (starts ∘ answers) (seqZ device (Z.of_nat n))
  then init_devices single answers device n log =
         Continue (log ++ (seqZ device (Z.of_nat n) ≫= bring_up single))
  else ∃ log', init_devices single answers device n log = Return log'.
Proof.
  revert device log. induction n as [|n IH]; intros device log Hd Hn.
  { simpl. by rewrite app_nil_r. }
  rewrite seqZ_cons by lia. replace (Z.pred (Z.of_nat (S n))) with (Z.of_nat n) by lia.
  cbn [init_devices forallb]. unfold compose at 1.
  destruct (init_device_spec single (answers device) device log) as (ret & m & -> & Hret & Hm).
  destruct (starts (answers device)) eqn:E; cbn [andb].
  - destruct Hret as [_ ->]; [|done]. rewrite Hm by done. simpl (0 =? 0). cbn iota.
    rewrite u16_small by lia.
    pose proof (IH (device + 1) (log ++ take 5 (bring_up single device)) ltac:(lia) ltac:(lia)) as H.
    change (Z.succ device) with (device + 1) in *.
    destruct (forallb _ _); [|exact H]. rewrite H, <- app_assoc. done.
  - destruct (Z.eqb_spec ret 0) as [Hz|]; [|by eexists]. by apply Hret in Hz.
Qed.

(** ** The whole program *)

Lemma main_cases (nf : NF) (config : Type) (inv : nf_state nf → Z → Prop)
    (pkt_ok : Z → packet → Z → Prop) (eal nb before : Z) (cfg : outcome config unit)
    (pool : Z → bool) (answers : Z → dev_answers) (init : config → option (option (nf_state nf)))
    (rx : nat → Z → option mbuf) (tx : nat → bool) (times : list Z) :
  NFContract nf nb inv pkt_ok → 1 < nb < 2 ^ 16 → rx_ok pkt_ok rx →
  (∀ c, cfg = Continue c → ∃ st, init c = Some st ∧ ∀ st', st = Some st' → inv st' before) →
  times_ok before times →
  let ready := (0 <=? eal) && pool (256 * nb) && forallb (starts ∘ answers) (seqZ 0 nb) in
  ∃ res, MAIN nf config eal (Some cfg) nb pool answers init rx tx times = Some res ∧
    match res with
    | Return _ => ready = false ∨ cfg = Return tt ∨ ∃ c, cfg = Continue c ∧ init c = Some None
    | Continue (log, c, o) => ready = true ∧ cfg = Continue c ∧ (∃ st, init c = Some (Some st)) ∧
        log = (seqZ 0 nb ≫= bring_up true) ∧ runs_ok nb inv tx o
    end.
Proof.
  intros HN Hnb Hrx Hinit Ht ready. unfold MAIN, ready.
  pose proof (init_devices_spec true answers (Z.to_nat nb) 0 [] ltac:(lia) ltac:(lia)) as Hdev.
  rewrite Z2Nat.id in Hdev by lia. unfold MEMPOOL_BUFFER_COUNT. rewrite u32_small by lia.
  destruct (Z.ltb_spec eal 0) as [Hneg|Hpos].
  { eexists. split; [done|]. left. by rewrite (proj2 (Z.leb_gt 0 eal)) by lia. }
  rewrite (proj2 (Z.leb_le 0 eal)) by lia. cbn [andb mbind option_bind].
  destruct cfg as [c|[]]; [|eexists; split; [done|]; right; by left].
  destruct (pool (256 * nb)); cbn [negb andb]; [|eexists; split; [done|]; by left].
  destruct (forallb _ _).
  2: { destruct Hdev as [log ->]. eexists. split; [done|]. by left. }
  rewrite Hdev. destruct (Hinit c eq_refl) as (st & Hi & HI). rewrite Hi. cbn [mbind option_bind].
  destruct st as [st|]; [|eexists; split; [done|]; right; right; by exists c].
  destruct (worker_main_spec nf nb inv pkt_ok rx tx Hnb Hrx st before 0 times (HI st eq_refl) Ht)
    as (o & -> & Ho). cbn [mbind option_bind]. eexists. split; [done|]. split_and!; try done. by eexists.
Qed.

(** ** Main result *)

(** C40: the program exits, forwards or aborts.  Let a network function keep its contract on at
    least two devices, from every state that [nf_init] returns, let the parser of the configuration
    and [nf_init] have defined behaviour, and let DPDK deliver packets that the function admits.
    Then, whatever DPDK answers at the start and to transmissions, [MAIN] has defined behaviour.
    It exits exactly if DPDK or the memory pool cannot be initialised, a device cannot be
    configured or started (promiscuous mode does not matter), the configuration is refused, or
    [nf_init] fails.  Otherwise it brings up every device with one queue in each direction, in
    order, before the first packet is received, and then forwards: after any number of rounds
    the invariant of the function holds and every received buffer has been disposed of as [handled]
    says, or the program has aborted because a device refused a packet. *)
Theorem main_exits_or_forwards (nf : NF) (config : Type) (inv : nf_state nf → Z → Prop)
    (pkt_ok : Z → packet → Z → Prop) (eal nb before : Z) (cfg : outcome config unit)
    (pool : Z → bool) (answers : Z → dev_answers) (init : config → option (option (nf_state nf)))
    (rx : nat → Z → option mbuf) (tx : nat → bool) (times : list Z) :
  NFContract nf nb inv pkt_ok → 1 < nb < 2 ^ 16 → rx_ok pkt_ok rx →
  (∀ c, cfg = Continue c → ∃ st, init c = Some st ∧ ∀ st', st = Some st' → inv st' before) →
  times_ok before times →
  let ready := (0 <=? eal) && pool (256 * nb) && forallb (starts ∘ answers) (seqZ 0 nb) in
  ∃ res, MAIN nf config eal (Some cfg) nb pool answers init rx tx times = Some res ∧
    match res with
    | Return _ => ready = false ∨ cfg = Return tt ∨ ∃ c, cfg = Continue c ∧ init c = Some None
    | Continue (log, c, o) => ready = true ∧ cfg = Continue c ∧ (∃ st, init c = Some (Some st)) ∧
        log = (seqZ 0 nb ≫= bring_up true) ∧ runs_ok nb inv tx o
    end.
Proof. apply main_cases. Qed.

(** vignop on two devices; promiscuous mode cannot be enabled on the second. *)
Definition demo_answers (device : Z) : dev_answers := DevAnswers 0 0 0 0 (1 - device).

Lemma main_exits_or_forwards_witness :
  ∃ s', MAIN (nop_nf (Nop.MkConfig 0 1)) unit 3 (Some (Continue tt)) 2 (λ _, true) demo_answers
      (λ _, Some (Some tt)) demo_rx (λ _, true) [5; 6] =
      Some (Continue (bring_up true 0 ++ bring_up true 1, tt, Continue s')) ∧
    trace (ls_world s') = [Receive 0 77; Transmit 1 77 (buf demo_packet) true].
Proof.
  destruct (main_exits_or_forwards (nop_nf (Nop.MkConfig 0 1)) unit (λ _ _, True) (λ _ _ _, True)
    3 2 0 (Continue tt) (λ _, true) demo_answers (λ _, Some (Some tt)) demo_rx (λ _, true) [5; 6]
    (nop_contract (Nop.MkConfig 0 1) 2 ltac:(simpl; lia) ltac:(simpl; lia))
    ltac:(lia) demo_rx_ok ltac:(by eexists) ltac:(simpl; lia)) as ([[[log []] o]|log] & Hm & Ho).
  - destruct Ho as (_ & _ & _ & -> & Ho). destruct o as [s'|w]; [|by destruct Ho as [_ [_ [=]]]].
    exists s'. split; [exact Hm|]. vm_compute in Hm. injection Hm as <-. reflexivity.
  - exfalso. destruct Ho as [[=]|[[=]|(c & _ & [=])]].
Defined.
