(* ===== verification/System.v ===== *)
(** * The network functions in the main loop

    Each network function meets the interface of the main loop, so that the
    results of [MainLoop] hold for the programs that are built from them. *)
From stdpp Require Import base list gmap numbers sets strings.
From Stdlib Require Import ZArith Lia Ascii.
From S2P Require Import Nat.
From S2P Require Import Fw.
From S2P Require Import Pol.
From S2P Require Import Lb.
From S2P Require Import Bridge.
From S2P Require Import Cl.
From S2P Require Import Fwd.
From S2P Require Import Prelude.
From S2P Require Import Memory.
From S2P Require Import MapImpl.
From S2P Require Import Map.
From S2P Require Import Vector.
From S2P Require Import DChain.
From S2P Require Import Cht.
From S2P Require Import Ether.
From S2P Require Import NfParse.
From S2P Require Import Emap.
From S2P Require Import Packet.
From S2P Require Import MainLoop.
From S2P Require Import Startup.
From S2P Require Import Config.

Section functions.
Variable pow2 : bool.

(** *** Firewall *)

Definition fw_nf `{KeyOps Fw.FlowId} (config : Fw.nf_config) (id_p : Z) : NF :=
  MkNF Fw.FlowManager (λ m device _ now pk, Fw.nf_process pow2 config m id_p device now pk).

Lemma fw_contract `{KeyLaws Fw.FlowId} config devices id_p range :
  NFContract (fw_nf config id_p) devices
    (λ m now, ∃ t devs, Fw.fw_inv pow2 config devices id_p range m t devs now) (λ _ _ _, True).
Proof.
  constructor. intros m before now device pk tail (t & devs & HI) Hle Hn HR _ Hd. simpl.
  pose proof (Fw.fw_process_spec pow2 config devices id_p range before now device m t devs pk tail
    HI Hle Hn HR Hd) as Hp.
  destruct (Fw.fw_spec _ _ _ _ _) as [[t' devs'] act] eqn:E.
  destruct Hp as (dev & pk' & m' & -> & HI' & (Hret & Hact) & _).
  exists dev, pk', m'. split_and!; [done|by eauto| |done]. left.
  destruct act as [[d h]|]; [|destruct Hact as [-> _]; done]. destruct Hact as (-> & _).
  unfold Fw.fw_spec in E. destruct (packet_headers pk); [|done].
  destruct (device =? Fw.wan_device config); [|simplify_eq; apply HI].
  destruct (t_lookup _ _) as [e|] eqn:El; [|done]. apply t_lookup_Some in El as [He%t_expire_elem _].
  destruct (Fw.fi_devs _ _ _ _ _ _ _ _ _ HI e He) as (d' & Hd' & Hr & _). rewrite Hd' in E.
  by simplify_eq.
Qed.

(** *** Bridge *)

Definition bridge_nf `{Crc32} `{KeyOps Bridge.StaticKey} (config : Bridge.nf_config) (k_p : Z) : NF :=
  MkNF Bridge.State (λ st device _ now pk, Bridge.nf_process pow2 config st k_p device now pk).

(** Packets are not inside the vector of keys of the initial state. *)
Lemma bridge_contract `{Crc32} `{KeyLaws Bridge.StaticKey} config statics devices k_p range st0 :
  NFContract (bridge_nf config k_p) devices
    (λ st now, ∃ s, Bridge.bridge_inv pow2 config statics devices k_p range st s now ∧
       ∀ q, Bridge.apart st0 q → Bridge.apart st q)
    (λ _ pk _, Bridge.apart st0 pk).
Proof.
  constructor. intros st before now device pk tail (s & HI & Ha) Hle Hn HR Hok Hd. simpl.
  destruct (Bridge.frame_macs pk tail HR) as (src & dst & Hs & Hdst).
  pose proof (Bridge.bridge_process_spec pow2 config statics devices k_p range st s before now device
    pk tail src dst HI Hle Hn HR (Ha _ Hok) Hd Hs Hdst) as Hp.
  destruct (Bridge.bridge_spec _ _ _ _ _ _ _) as [s' act].
  destruct Hp as (pk' & st' & -> & HI' & Hret & Ha' & Hact).
  eexists _, pk', st'. split_and!; [done|by eauto| |].
  - destruct act; simpl; [by right|by left|by left; destruct Hact].
  - rewrite Hret. assert (buf pk' = buf pk) as ->; [|destruct HR, pk; simpl in *; by subst].
    rewrite <- Hret. unfold nf_return_all_chunks. simpl.
    clear. induction (chunks_borrowed pk') as [|c l IH]; simpl; [done|exact IH].
Qed.

(** *** Policer *)

Definition pol_nf `{KeyOps Pol.ip_addr} (config : Pol.nf_config) (dst_p : Z) : NF :=
  MkNF Pol.State (λ st device len now pk, Pol.nf_process pow2 config st dst_p device len now pk).

Lemma pol_contract `{KeyLaws Pol.ip_addr} config devices dst_p range :
  Pol.config_ok config → 0 ≤ Pol.lan_device config < devices → 0 ≤ Pol.wan_device config < devices →
  NFContract (pol_nf config dst_p) devices
    (λ st now, ∃ t vals, Pol.pol_inv pow2 config dst_p range st t vals now) (λ _ _ _, True).
Proof.
  intros HC Hl Hw. constructor. intros st before now device pk tail (t & vals & HI) Hle Hn HR _ Hd.
  pose proof (Pol.pol_process_spec pow2 config HC dst_p range before now device st t vals pk tail
    HI Hle Hn HR) as Hp. simpl.
  destruct (Pol.pol_spec _ _ _ _ _ _) as [dev [t' vals']] eqn:E.
  destruct Hp as (pk' & st' & -> & HI' & Hbuf & Hret).
  eexists _, pk', st'. split_and!; [done|by eauto| |].
  - left. unfold Pol.pol_spec in E. repeat case_match; simplify_eq; done.
  - rewrite Hret, Hbuf. destruct HR, pk; simpl in *; by subst.
Qed.

(** *** Load balancer *)

Definition lb_nf `{KeyOps Lb.LoadBalancedFlow} `{KeyOps Lb.ip_addr} `{Checksums} (devices_avail : Z)
    (config : Lb.nf_config) (flow_p : Z) (backend0 : Lb.LoadBalancedBackend) : NF :=
  MkNF Lb.LoadBalancer (λ b device _ now pk,
    Lb.nf_process pow2 devices_avail config b flow_p device now backend0 pk).

Lemma lb_contract `{KeyLaws Lb.LoadBalancedFlow} `{KeyLaws Lb.ip_addr} `{Checksums} devices_avail
    config flow_p backend0 tbl :
  Lb.config_ok config →
  NFContract (lb_nf devices_avail config flow_p backend0) (zlen (Lb.device_macs config))
    (λ b now, ∃ s, Lb.lb_inv pow2 tbl config flow_p b s now) (λ _ _ tail, 14 ≤ tail).
Proof.
  intros HC. constructor. intros b before now device pk tail (s & HI) Hle Hn HR Htail Hd.
  pose proof (Lb.lb_process_spec pow2 tbl config HC flow_p devices_avail b s before now device
    backend0 pk tail HI Hle Hn HR Htail Hd) as Hp. simpl. cbn zeta in Hp.
  destruct (Lb.lb_spec _ _ _ _ _ _ _) as [s' act].
  destruct Hp as (dev & pk' & b' & -> & HI' & Hdel & Hdev).
  eexists _, pk', b'. split_and!; [done|by eauto|by left|].
  unfold Lb.delivered in Hdel.
  destruct act, (packet_headers pk); [destruct Hdel as ((Hret & _) & _)|destruct Hdel as (Hret & _)..];
    done.
Qed.

(** *** Address translator *)

Definition nat_nf `{KeyOps Nat.FlowId} `{Checksums} (config : Nat.nf_config) (id_p : Z) : NF :=
  MkNF Nat.FlowManager (λ m device _ now pk, Nat.nf_process pow2 config m id_p device now pk).

(** What comes from outside has a port of the translator's range. *)
Lemma nat_contract `{KeyLaws Nat.FlowId} `{Checksums} config id_p range :
  Nat.config_ok config →
  NFContract (nat_nf config id_p) (zlen (Nat.device_macs config))
    (λ m now, ∃ t, Nat.nat_inv pow2 config id_p range m t now)
    (λ device pk tail, 18 ≤ tail ∧ ∀ h, packet_headers pk = Some h →
       device = Nat.wan_device config → 0 ≤ h_dst_port h - Nat.cfg_start_port config < range).
Proof.
  intros HC. constructor. intros m before now device pk tail (t & HI) Hle Hn HR [Htail Hok] Hd. simpl.
  pose proof (Nat.nat_process_spec pow2 config id_p range before now device m t pk tail HC HI Hle Hn
    HR Htail Hd Hok) as Hp.
  destruct (Nat.nat_spec _ _ _ _ _) as [t' act] eqn:E.
  destruct Hp as (dev & pk' & m' & -> & HI' & (Hret & Hact) & _).
  eexists _, pk', m'. split_and!; [done|by eauto| |done]. left.
  destruct act as [[d h]|]; [|destruct Hact as [-> _]; done]. destruct Hact as (-> & _).
  unfold Nat.nat_spec in E. destruct (packet_headers pk); [|done].
  destruct (device =? Nat.wan_device config).
  - destruct (t_entry _ _) as [e|] eqn:Ee; [|done]. apply t_entry_Some in Ee as [He%t_expire_elem _].
    destruct (Nat.ni_flows _ _ _ _ _ _ _ HI e He) as (_ & _ & Hr & _).
    case_match; by simplify_eq.
  - repeat case_match; simplify_eq; apply HC.
Qed.

(** *** Connection limiter *)

Definition cl_nf `{Crc32} (config : Cl.nf_config) (flow_p : Z) : NF :=
  MkNF Cl.State (λ st device _ now pk, Cl.nf_process pow2 config st flow_p device now pk).

Lemma cl_contract `{Crc32} config devices flow_p range :
  Cl.config_ok config → 0 ≤ Cl.lan_device config < devices → 0 ≤ Cl.wan_device config < devices →
  NFContract (cl_nf config flow_p) devices
    (λ st now, ∃ s, Cl.cl_inv pow2 config flow_p range st s now) (λ _ _ _, True).
Proof.
  intros HC Hl Hw. constructor. intros st before now device pk tail (s & HI) Hle Hn HR _ Hd. simpl.
  pose proof (Cl.cl_process_spec pow2 config HC flow_p range before now device st s pk tail HI Hle Hn
    HR) as Hp.
  destruct (Cl.cl_spec _ _ _ _ _) as [s' act] eqn:E.
  destruct Hp as (dev & pk' & st' & -> & HI' & (Hret & Hact) & _).
  exists dev, pk', st'. split_and!; [done|by eauto| |done]. left.
  destruct act as [[d h]|]; [|destruct Hact as [-> _]; done]. destruct Hact as (-> & _).
  unfold Cl.cl_spec in E. repeat case_match; simplify_eq; done.
Qed.

End functions.

(** ** Main result *)

(** The network functions keep the contract of the main loop.  The firewall,
    the bridge, the policer, the load balancer and the address translator, each
    on the packets it admits (any; not inside the table of addresses; any; with
    room for the checksum fields; with room for them and, from outside, a
    destination port of the translator's range), run without undefined behaviour from every state of their
    invariant, keep it, return a device that exists or the flood value and
    leave the packet so that it can be rewound. *)
Theorem functions_meet_interface (pow2 : bool) `{KeyLaws Fw.FlowId} `{Crc32}
    `{KeyLaws Bridge.StaticKey} `{KeyLaws Pol.ip_addr} `{KeyLaws Lb.LoadBalancedFlow}
    `{KeyLaws Lb.ip_addr} `{KeyLaws Nat.FlowId} `{Checksums} :
  (∀ config devices id_p range,
     NFContract (fw_nf pow2 config id_p) devices
       (λ m now, ∃ t devs, Fw.fw_inv pow2 config devices id_p range m t devs now)
       (λ _ _ _, True)) ∧
  (∀ config statics devices k_p range st0,
     NFContract (bridge_nf pow2 config k_p) devices
       (λ st now, ∃ s, Bridge.bridge_inv pow2 config statics devices k_p range st s now ∧
          ∀ q, Bridge.apart st0 q → Bridge.apart st q)
       (λ _ pk _, Bridge.apart st0 pk)) ∧
  (∀ config devices dst_p range,
     Pol.config_ok config → 0 ≤ Pol.lan_device config < devices →
     0 ≤ Pol.wan_device config < devices →
     NFContract (pol_nf pow2 config dst_p) devices
       (λ st now, ∃ t vals, Pol.pol_inv pow2 config dst_p range st t vals now)
       (λ _ _ _, True)) ∧
  (∀ devices_avail config flow_p backend0 tbl,
     Lb.config_ok config →
     NFContract (lb_nf pow2 devices_avail config flow_p backend0) (zlen (Lb.device_macs config))
       (λ b now, ∃ s, Lb.lb_inv pow2 tbl config flow_p b s now) (λ _ _ tail, 14 ≤ tail)) ∧
  (∀ config id_p range,
     Nat.config_ok config →
     NFContract (nat_nf pow2 config id_p) (zlen (Nat.device_macs config))
       (λ m now, ∃ t, Nat.nat_inv pow2 config id_p range m t now)
       (λ device pk tail, 18 ≤ tail ∧ ∀ h, packet_headers pk = Some h →
          device = Nat.wan_device config → 0 ≤ h_dst_port h - Nat.cfg_start_port config < range)).
Proof.
  split; [exact (fw_contract pow2)|]. split; [exact (bridge_contract pow2)|].
  split; [exact (pol_contract pow2)|]. split; [exact (lb_contract pow2)|exact (nat_contract pow2)].
Qed.

(** The firewall in the loop forwards the packet that arrives on device 0. *)
Lemma functions_meet_interface_witness :
  ∃ s', worker_main demo_rx (λ _, true) 2 [5]
      (LoopState (nf := fw_nf (H := Fw.demo_fw_ops) false Fw.demo_fw_config 8)
         Fw.demo_fw_manager 0 0 [] (World 0 0 [])) = Some (Continue s') ∧
    trace (ls_world s') = [Receive 0 77; Transmit 1 77 (buf demo_packet) true].
Proof.
  pose proof (@functions_meet_interface false _ Fw.demo_fw_laws _ _ Bridge.demo_static_laws _
    Pol.demo_ip_laws _ Lb.demo_lb_flow_laws _ Lb.demo_lb_ip_laws _ Nat.demo_flow_laws
    Nat.demo_checksums) as [Hfw _].
  pose proof (Hfw Fw.demo_fw_config 2 8 3) as Hc.
  destruct (worker_main_spec (fw_nf (H := Fw.demo_fw_ops) false Fw.demo_fw_config 8) 2 _ _ demo_rx (λ _, true)
    ltac:(lia) demo_rx_ok Fw.demo_fw_manager 0 0 [5])
    as ([s'|w] & Hm & Ho); [eexists _, _; apply Fw.demo_fw_inv|simpl; lia| |by destruct Ho as [_ [_ [=]]]].
  exists s'. split; [exact Hm|].
  apply (f_equal (λ r, match r with Some (Continue s) => trace (ls_world s) | _ => [] end)) in Hm.
  cbv beta iota in Hm. rewrite <- Hm. vm_compute. reflexivity.
Defined.

(** What [nf_init] of vigcl leaves in the state. *)
Definition cl_init `{Crc32} (pow2 : bool) (nb : Z) (μ : mem) (c : Cl.nf_config)
    : option (option Cl.State) :=
  '(_, o, _) ← Cl.nf_init pow2 c nb μ; Some o.

(** C21: vigcl as a program.  Let the options of the command line be accepted
    with two different devices, expiration times that fit into nanoseconds and
    tables of a size that the vectors support (which excludes the default
    capacity of the sketch), on at least two devices, and let DPDK deliver
    well-formed packets with the right port.  Then, whatever the allocator
    answers and whatever DPDK answers at the start and to transmissions, [MAIN]
    with the functions of vigcl has defined behaviour.  It exits, before it
    receives a packet, exactly if DPDK, the pool or a device cannot be
    initialised or [nf_init] fails; otherwise it has brought up the devices and
    forwards: after any number of rounds the invariant of the limiter holds and
    every received buffer was disposed of as [handled] says, or the program has
    aborted because a device refused a packet. *)
Theorem vigcl_program_forwards `{Crc32} (pow2 : bool) (opts : list (Z * list Z))
    (config : Cl.nf_config) (flow_p eal nb : Z) (μ : mem) (pool : Z → bool)
    (answers : Z → dev_answers) (rx : nat → Z → option mbuf) (tx : nat → bool) (times : list Z) :
  2 ≤ nb < 2 ^ 16 → cl_config_init nb opts = Some (Continue config) →
  Cl.lan_device config ≠ Cl.wan_device config → Cl.sizes_ok config →
  1000 * Cl.flow_expiration_time config < 2 ^ 63 →
  1000 * Cl.client_expiration_time config < 2 ^ 63 → mem_ok μ → flow_p < brk μ →
  rx_ok (λ _ _ _, True) rx → times_ok 0 times →
  let ready := (0 <=? eal) && pool (256 * nb) && forallb (starts ∘ answers) (seqZ 0 nb) in
  ∃ res, MAIN (cl_nf pow2 config flow_p) Cl.nf_config eal (cl_config_init nb opts) nb pool answers
           (cl_init pow2 nb μ) rx tx times = Some res ∧
    match res with
    | Return _ => ready = false ∨ cl_init pow2 nb μ config = Some None
    | Continue (log, c, o) => ready = true ∧ c = config ∧ log = (seqZ 0 nb ≫= bring_up true) ∧
        runs_ok (nf := cl_nf pow2 config flow_p) nb
          (λ st t, ∃ s, Cl.cl_inv pow2 config flow_p (Cl.cfg_max_flows config) st s t) tx o
    end.
Proof.
  intros Hnb Hcfg Hne Hs Hft Hct Hok Hp Hrx Ht ready. rewrite Hcfg.
  destruct (cl_accepted nb opts config ltac:(lia) Hcfg) as (Hl & Hw & Hcl & _ & Hf1 & Hc1 & _).
  assert (Cl.config_ok config) as HC by (constructor; lia || done).
  destruct (Cl.nf_init_spec pow2 config flow_p nb μ HC Hs Hok Hp) as (ok & o & μ' & Hi & Ho).
  assert (cl_init pow2 nb μ config = Some o) as Hinit by (unfold cl_init; by rewrite Hi).
  destruct (main_cases (cl_nf pow2 config flow_p) Cl.nf_config
    (λ st t, ∃ s, Cl.cl_inv pow2 config flow_p (Cl.cfg_max_flows config) st s t) _ eal nb 0
    (Continue config) pool answers (cl_init pow2 nb μ) rx tx times
    (cl_contract pow2 config nb flow_p (Cl.cfg_max_flows config) HC Hl Hw)
    ltac:(lia) Hrx) as (res & Hm & Hres); [|done|].
  - intros c [= <-]. exists o. split; [done|]. intros st ->. destruct Ho as (_ & bs & HI). by eexists.
  - exists res. split; [done|]. destruct res as [[[log c] r]|log].
    + destruct Hres as (? & [= <-] & _ & ? & ?). by split_and!.
    + destruct Hres as [?|[[=]|(c & [= <-] & ?)]]; auto.
Qed.

(** --lan 0 --wan 1 --max-flows 4 --capacity 2 *)
Definition demo_cl_opts : list (Z * list Z) :=
  [(chr "l", bytes "0"); (chr "w", bytes "1"); (chr "f", bytes "4"); (chr "s", bytes "2")].

Definition demo_cl_parsed : Cl.nf_config := Cl.MkConfig 0 1 4 2 60 1000000 10000000.

Definition demo_cl_run (tx : nat → bool) (times : list Z) :=
  MAIN (cl_nf false demo_cl_parsed 8) Cl.nf_config 3 (cl_config_init 2 demo_cl_opts) 2
    (λ _, true) demo_answers (cl_init false 2 Cl.demo_cl_mem) demo_rx tx times.

(** vigcl on two devices: the packet on device 0 goes out on device 1. *)
Lemma vigcl_program_forwards_witness :
  ∃ s', demo_cl_run (λ _, true) [5; 6] =
      Some (Continue (bring_up true 0 ++ bring_up true 1, demo_cl_parsed, Continue s')) ∧
    trace (ls_world s') = [Receive 0 77; Transmit 1 77 (buf demo_packet) true] ∧
    handled 2 (trace (ls_world s')).
Proof.
  destruct (vigcl_program_forwards false demo_cl_opts demo_cl_parsed 8 3 2 Cl.demo_cl_mem (λ _, true)
    demo_answers demo_rx (λ _, true) [5; 6] ltac:(lia) ltac:(vm_compute; reflexivity) ltac:(done)
    ltac:(split; vm_compute; done) ltac:(simpl; lia) ltac:(simpl; lia)
    ltac:(reflexivity) ltac:(reflexivity) demo_rx_ok ltac:(simpl; lia))
    as ([[[log c] o]|log] & Hm & Ho).
  - destruct Ho as (_ & -> & -> & Ho). destruct o as [s'|w]; [|by destruct Ho as [_ [_ [=]]]].
    exists s'. split; [exact Hm|]. split; [|apply Ho].
    apply (f_equal (λ r, match r with Some (Continue (_, Continue s)) => trace (ls_world s) | _ => [] end)) in Hm.
    cbv beta iota in Hm. rewrite <- Hm. vm_compute. reflexivity.
  - exfalso. destruct Ho as [Ho|Ho]; vm_compute in Ho; discriminate Ho.
Defined.
